(* ===== verification/_CoqProject ===== *)
-Q . S2P
Prelude.v
Codec.v
Treap.v
Journal.v
JournalRecord.v
JournalReplay.v
JournalCommit.v
JournalTx.v
JournalState.v
JournalOps.v
JournalCheckpoint.v
JournalTransact.v
JournalStore.v
JournalRuns.v
JournalHeader.v
JournalLive.v
MetadataTree.v
MetadataTreeProofs.v
MetadataTreeRead.v
MetadataTreeEdit.v
MetadataTreeApply.v
Instances.v
JournalSpec.v
LevelStore.v
LevelStoreProofs.v
LevelStoreTransact.v
LevelStoreRace.v
LevelStoreSpec.v
Store.v
StoreMemory.v
JournalFacade.v
MetadataView.v
MetadataViewRuns.v
MetadataViewProofs.v
MetadataViewPlan.v
MetadataViewSpec.v
Container.v
Anchors.v
ContainerRuns.v
ContainerSpec.v
Metrics.v
Compaction.v
Maintenance.v
Nodes.v
Namespace.v
Worlds.v
Files.v
Handles.v
Traverse.v
Moves.v
Halts.v
Garbage.v
Agrees.v
Walks.v
HaltsView.v
HaltsOps.v
NamespaceMoves.v
Commits.v
HandleTable.v
HandleMoves.v
HandleSpec.v
CallsSpec.v
GarbageSpec.v
CommitSpec.v
NodesSpec.v
FileChanges.v
FilesSpec.v
WorldsSpec.v
Wire.v
Sessions.v
Rpc.v
Dispatch.v
Main.v
Service.v
WireSpec.v
SessionsSpec.v
Diff.v
DiffSpec.v
MetadataTreeSpec.v
