(* ===== verification/Prelude.v ===== *)
(** * forkfs: a verification library for the forkfsd revision filesystem

    forkfsd (src/daemon) keeps versioned worlds of files in one repository.  Its layers, from the
    disk up, and the files that model them:

    - Storage.  [Journal] is the single-file log of daemon/journal.cpp: records, segments, replay,
      checkpoints, put and transact, on a device whose writes may fail or be torn.  [LevelStore] is
      the LevelDB backend of daemon/level_store.cpp over the classes [LevelDB] and [Cache], which
      stand for the libraries and state their documented behaviour.  [JournalFacade] is the dispatch
      of the class Journal between the two.  [Store] is the interface the rest is written against:
      [JournalLike] (the calls), [JournalLaws] (what they promise, over the abstract store [kv]);
      [StoreMemory] is a third, in-memory instance on which the examples run.  [Metrics] has the
      storage counters.
    - Metadata.  [MetadataTree] is the copy-on-write treap of daemon/metadata_tree.cpp, [Treap] its
      abstract counterpart; [MetadataView] is daemon/metadata_view.cpp, which reads a version of a
      namespace as flat keys, as sorted runs or as a tree, and plans the next version.
    - Repository.  [Container] is daemon/container.cpp (anchors, object access, checkpoint, garbage
      collection, status) with the record [container] of the state its namespaces share;
      [Compaction] and [Maintenance] are the compaction jobs and the worker that runs them.
    - Filesystem.  [Nodes] (inode records, path parsing and resolution), [Namespace] (commits, the
      retry loop), [Worlds] (snapshots, forks), [Files] (path operations), [Handles] (open files,
      locks, directory cursors) and [Traverse] (the full check, orphans) are daemon/namespace.cpp.
    - Service.  [Wire], [Sessions], [Rpc] and [Dispatch] are daemon/rpc.h, rpc.cpp and
      rpc_client.cpp: frames, leases, requests and the turn of the loop that serves them; [Main]
      has the commands of daemon/main.cpp on an open repository, [Service] its invocation, the
      start and the loop of the process, and the transfers of the client.
    - [Diff] is core/src/diff.cpp, the comparison of a world with its snapshot.

    Conventions.  Bytes, strings and arrays are lists of bytes; integers are [Z] with the width
    written out where the source wraps or checks ([u64], [UINT64_MAX]).  An exception is [Err] with
    its message, a method that changes its object is a computation [ST] that keeps the changes
    made before an exception.  Shared mutable objects (the cursors of handles, the cache of a view)
    live in a store and are referred to by address.  What comes from outside is consumed from the
    state [sys]: the clock, the entropy source, and the actions of the other threads, which happen
    wherever the source takes the container lock ([acquire]).  SHA-256 is the parameter [Digest].

    Fuel.  Loops of the source that are not structural take fuel, and running out of it is the
    value [OutOfFuel], which no source outcome maps to.  The bounds: replay, the bytes of the file;
    tree loops, the loadable nodes; a walk, the names of the path plus the 65536 bytes of links it
    may expand; staging, the outputs of the job; updates, the actions of other threads plus two;
    tokens, the entropy left; the marking of a collection, the references of the root names plus
    two for each object and kind.  [open_terminates], [every_call_returns] and
    [collect_garbage_exact] prove them sufficient in every state.

    The theorems, by group:
    - [JournalSpec]: every execution of the journal with torn writes, crashes and reopens behaves as
      one atomic store; transact is all or nothing and succeeds on a reliable device; opening
      terminates.
    - [ContainerSpec] (lemmas in [JournalHeader], [Anchors] and [ContainerRuns]): the same for the
      container around the journal, whose checkpoints alternate between two anchors.  The anchor
      region is outside the log ([beyond]); an interrupted checkpoint leaves an anchor that leads,
      unless a mixture of two anchors passes the checksum ([intact]).
    - [LevelStoreSpec]: the LevelDB store implements the same abstract store, its root cache never
      serves an earlier epoch to a reader that starts after a commit, collection removes exactly
      what is not marked, and a repository reopens as it was.
    - [MetadataTreeSpec]: the treap operations implement a finite map, the published form depends on
      the map only, and a hostile store is refused.
    - [MetadataViewSpec]: the three forms of a view read alike, a planned version opens as the
      changed map, compaction keeps the map.
    - [GarbageSpec] (lemmas in [Garbage]): the collection removes exactly the objects that no name,
      world, revision, base or tree leads to, and every version that is led to reads as before.
    - [CommitSpec] (lemmas in [Commits] and [Agrees]): a commit opens as the changed map, and the
      other worlds and the revisions read as before it.
    - [FilesSpec] (lemmas in [Walks] and [FileChanges]): what write stores read returns, through
      the retry loop, the commit and the walk of the new head, and the other paths read as before;
      appends, positional writes and truncations are those of a byte array.
    - [WorldsSpec]: a snapshot reads as the world did, a fork starts as its revision.
    - [HandleSpec]: in every state reached by any interleaving of calls, advisory locks exclude each
      other and the open counts are exact; a lock request changes exactly its interval.
    - [CallsSpec]: every call returns, whatever the repository contains.
    - [NodesSpec]: the inode codec and path parsing are exact; positions and sizes stay in
      range.
    - [WireSpec]: requests and replies survive any fragmentation of the streams.
    - [SessionsSpec]: in every state that turns of the service reach, its tables are within their
      limits, and a world mounted for writing is changed by the session of the mount only.
    - [DiffSpec]: the full scan reports exactly the paths that differ, and checking the candidates
      of the event stream reports the same when they cover what changed.
    The files between a definition and its [Spec] hold the lemmas.  Automation: [solve_total] and
    [inv_ok] here, [put_field] for record layouts ([JournalRecord]), [moves] ([Moves]: how a
    computation moves the state), [halts] ([Halts]: that it returns) and [agrees] ([Agrees]: that
    it answers alike on a later store), each with its hint database.

    Not modelled: the system calls themselves.  What poll, accept, recv, send and the credentials
    of a peer answer are arguments of the turns of [Dispatch] and [Service], what the file system
    answers about two trees is an argument of [Diff]; signals, file locking, descriptors, the
    durations in the metrics, the help text and the text of an error number are left out, and so
    are the options that only macOS compiles.  The retired engine (src/core except diff.cpp,
    src/cli) and the macOS front ends are historical reference code or bindings around system
    calls and external programs.  Not proved: that a staged compaction job installs the map it was
    prepared from when other threads commit in between (the compaction of a view without them is
    [compaction_preserves_map]). *)

From Stdlib Require Export ZArith Lia.
From Stdlib Require Import Strings.Byte Strings.String.
From stdpp Require Export base gmap sorting strings numbers.
From stdpp Require Export list.

Local Open Scope Z_scope.

(** ** Bytes

    [std::vector<unsigned char>], [std::string] and [std::array<unsigned char,n>]
    are all lists of bytes; the widths of arrays are invariants proved where
    they matter. *)

Abbreviation byte := Init.Byte.byte.
Abbreviation Bytes := (list Init.Byte.byte).
Abbreviation x00 := Init.Byte.x00.

#[global] Instance byte_eq_dec : EqDecision byte := Byte.byte_eq_dec.
#[global] Program Instance byte_countable : Countable byte :=
  inj_countable Byte.to_N Byte.of_N _.
Next Obligation. exact Byte.of_to_N. Qed.
#[global] Instance byte_inhabited : Inhabited byte := populate x00.

(** A string literal as the bytes of the C++ literal. *)
Definition bs (s : string) : Bytes := String.list_byte_of_string s.

(** The unsigned value of a byte, and the [static_cast<unsigned char>] of an
    integer. *)
Definition b2z (b : byte) : Z := Z.of_N (Byte.to_N b).
Definition z2b (z : Z) : byte := default x00 (Byte.of_N (Z.to_N (z mod 256))).

(** [size()] of a container. *)
Definition len {A} (l : list A) : Z := Z.of_nat (length l).

Definition zeros (n : nat) : Bytes := replicate n x00.

(** Machine integers: values are kept as integers, [u64] is the wrap-around of
    an unsigned 64-bit result. *)
Definition UINT64_MAX : Z := 18446744073709551615.
Definition INT64_MAX : Z := 9223372036854775807.
Definition u64 (z : Z) : Z := z mod 18446744073709551616.
Definition u32 (z : Z) : Z := z mod 4294967296.

(** ** Results and the state-and-exception monad

    C++ exceptions become [Err] values carrying the message.  [OutOfFuel] marks
    a loop bound of the model, never an outcome of the program. *)

Inductive result (A : Type) : Type :=
| Ok (a : A)
| Err (msg : string)
| OutOfFuel.
Arguments Ok {A} a.
Arguments Err {A} msg.
Arguments OutOfFuel {A}.

#[global] Instance result_ret : MRet result := @Ok.
#[global] Instance result_bind : MBind result := λ A B f m,
  match m with Ok a => f a | Err e => Err e | OutOfFuel => OutOfFuel end.
#[global] Instance result_fmap : FMap result := λ A B f m,
  match m with Ok a => Ok (f a) | Err e => Err e | OutOfFuel => OutOfFuel end.

(** The [need]/[require] helpers of every source file. *)
Definition need (ok : bool) (message : string) : result unit :=
  if ok then Ok tt else Err message.

Definition is_ok {A} (r : result A) : bool :=
  match r with Ok _ => true | _ => false end.

(** A computation over a mutable object: an exception keeps the mutations made
    before it was thrown. *)
Definition ST (S A : Type) : Type := S → S * result A.

#[global] Instance st_ret {S} : MRet (ST S) := λ A a s, (s, Ok a).
#[global] Instance st_bind {S} : MBind (ST S) := λ A B f m s,
  match m s with
  | (s', Ok a) => f a s'
  | (s', Err e) => (s', Err e)
  | (s', OutOfFuel) => (s', OutOfFuel)
  end.

Definition lift {S A} (r : result A) : ST S A := λ s, (s, r).
Definition get_st {S} : ST S S := λ s, (s, Ok s).
Definition gets {S A} (f : S → A) : ST S A := λ s, (s, Ok (f s)).
Definition modify {S} (f : S → S) : ST S unit := λ s, (f s, Ok tt).
Definition throw {S A} (msg : string) : ST S A := λ s, (s, Err msg).
Definition st_need {S} (ok : bool) (msg : string) : ST S unit := lift (need ok msg).

(** ** Lexicographic order of strings and arrays

    [operator<] of [std::string] and [std::array<unsigned char,n>]. *)

Fixpoint lex_compare (a b : Bytes) : comparison :=
  match a, b with
  | [], [] => Eq
  | [], _ :: _ => Lt
  | _ :: _, [] => Gt
  | x :: a', y :: b' =>
      match Z.compare (b2z x) (b2z y) with
      | Eq => lex_compare a' b'
      | c => c
      end
  end.

Definition lex_ltb (a b : Bytes) : bool :=
  match lex_compare a b with Lt => true | _ => false end.
Definition lex_leb (a b : Bytes) : bool :=
  match lex_compare a b with Gt => false | _ => true end.
Definition lex_lt (a b : Bytes) : Prop := lex_ltb a b = true.
Definition lex_le (a b : Bytes) : Prop := lex_leb a b = true.

(** [std::string::starts_with]. *)
Fixpoint starts_with (p s : Bytes) : bool :=
  match p, s with
  | [], _ => true
  | _ :: _, [] => false
  | x :: p', y :: s' => bool_decide (x = y) && starts_with p' s'
  end.

(** [memcmp(a, b, n) == 0] where [a] holds at least [n] bytes. *)
Definition bytes_eqb (a b : Bytes) : bool := bool_decide (a = b).

(** [std::copy_n]/[substr]: [n] bytes from offset [at]. *)
Definition slice (at_ n : nat) (b : Bytes) : Bytes := take n (drop at_ b).

(** [memcpy(b.data()+at, src, src.size())] into an existing buffer. *)
Definition memcpy (b : Bytes) (at_ : nat) (src : Bytes) : Bytes :=
  take at_ b ++ src ++ drop (at_ + length src) b.

Arguments zeros : simpl never.
Arguments slice : simpl never.
Arguments memcpy : simpl never.
Arguments len : simpl never.
Arguments bs : simpl never.
Arguments b2z : simpl never.
Arguments z2b : simpl never.

(** ** Ordered maps

    [std::map] with string or array keys: a finite map, iterated in the
    lexicographic order of its keys. *)
Definition entry_le {A} (x y : Bytes * A) : Prop := lex_le x.1 y.1.
#[global] Instance entry_le_dec {A} : RelDecision (@entry_le A).
Proof. intros x y. unfold entry_le, lex_le. apply _. Defined.

Definition in_order {A} (m : gmap Bytes A) : list (Bytes * A) :=
  merge_sort entry_le (map_to_list m).

(** ** Automation *)

Create HintDb forkfs discriminated.
Create Rewrite HintDb forkfs.

(** ** Lemmas on bytes *)

Lemma b2z_range b : 0 ≤ b2z b < 256.
Proof. unfold b2z. pose proof (Byte.to_N_bounded b). lia. Qed.

Lemma b2z_z2b z : b2z (z2b z) = z mod 256.
Proof.
  unfold b2z, z2b. pose proof (Z.mod_pos_bound z 256 ltac:(lia)) as Hz.
  destruct (Byte.of_N (Z.to_N (z mod 256))) as [b|] eqn:Hb; simpl.
  - apply Byte.to_of_N in Hb. rewrite Hb. lia.
  - apply Byte.of_N_None_iff in Hb. lia.
Qed.

Lemma z2b_b2z b : z2b (b2z b) = b.
Proof.
  unfold z2b. rewrite Z.mod_small by apply b2z_range.
  unfold b2z. by rewrite N2Z.id, Byte.of_to_N.
Qed.

Lemma b2z_inj a b : b2z a = b2z b → a = b.
Proof. intros H. rewrite <- (z2b_b2z a), <- (z2b_b2z b). by f_equal. Qed.

Lemma len_nonneg {A} (l : list A) : 0 ≤ len l.
Proof. unfold len. lia. Qed.

Lemma len_nil {A} : len (@nil A) = 0.
Proof. done. Qed.

Lemma len_app {A} (l k : list A) : len (l ++ k) = len l + len k.
Proof. unfold len. rewrite length_app. lia. Qed.

Lemma length_zeros n : length (zeros n) = n.
Proof. apply length_replicate. Qed.

(** ** Lemmas on results *)

Lemma bind_Ok {A B} (m : result A) (f : A → result B) b :
  m ≫= f = Ok b ↔ ∃ a, m = Ok a ∧ f a = Ok b.
Proof. destruct m; cbn; naive_solver. Qed.

Lemma Ok_inj {A} (a b : A) : Ok a = Ok b → a = b.
Proof. congruence. Qed.

Lemma need_Ok ok msg u : need ok msg = Ok u ↔ ok = true.
Proof. unfold need. destruct u, ok; naive_solver. Qed.

Lemma need_bind_Ok {B} ok msg (f : unit → result B) b :
  need ok msg ≫= f = Ok b ↔ ok = true ∧ f tt = Ok b.
Proof. unfold need. destruct ok; cbn; naive_solver. Qed.

Lemma need_true msg : need true msg = Ok tt.
Proof. done. Qed.

Lemma need_true_bind {B} ok msg (f : unit → result B) :
  ok = true → need ok msg ≫= f = f tt.
Proof. by intros ->. Qed.

Lemma st_bind_Ok {S A B} (m : ST S A) (f : A → ST S B) s s' b :
  (m ≫= f) s = (s', Ok b) ↔ ∃ a s1, m s = (s1, Ok a) ∧ f a s1 = (s', Ok b).
Proof.
  unfold mbind, st_bind. destruct (m s) as [s1 [a|e|]]; naive_solver.
Qed.

Lemma st_need_Ok {S B} b msg (f : unit → ST S B) s s' x :
  (st_need b msg ≫= f) s = (s', Ok x) → b = true ∧ f tt s = (s', Ok x).
Proof.
  intros ([] & s1 & E & Ef)%st_bind_Ok. unfold st_need, lift in E. injection E as <- E. apply need_Ok in E. done.
Qed.
Lemma st_lift_Ok {S A B} (r : result A) (f : A → ST S B) s s' x :
  (lift r ≫= f) s = (s', Ok x) → ∃ a, r = Ok a ∧ f a s = (s', Ok x).
Proof. intros (a & s1 & E & Ef)%st_bind_Ok. unfold lift in E. injection E as <- E. by exists a. Qed.

Lemma st_bind_run {S A B} (m : ST S A) (f : A → ST S B) s s1 a :
  m s = (s1, Ok a) → (m ≫= f) s = f a s1.
Proof. intros H. unfold mbind, st_bind. by rewrite H. Qed.

(** ** Totality: computations that return or throw *)

Definition total {A} (r : result A) : Prop := r ≠ OutOfFuel.

Lemma total_Ok {A} (a : A) : total (Ok a).
Proof. done. Qed.
Lemma total_Err {A} m : total (@Err A m).
Proof. done. Qed.
Lemma total_need ok msg : total (need ok msg).
Proof. by destruct ok. Qed.
Lemma total_bind {A B} (m : result A) (f : A → result B) :
  total m → (∀ a, m = Ok a → total (f a)) → total (m ≫= f).
Proof. intros Hm Hf. destruct m; [by apply Hf|done..]. Qed.

(** Decompose a goal [total r] along the structure of [r]. *)
Ltac solve_total_step :=
  lazymatch goal with
  | |- total (Ok _) => apply total_Ok
  | |- total (Err _) => apply total_Err
  | |- total (need _ _) => apply total_need
  | |- total (mbind _ _) => apply total_bind; [|intros ? _]
  | |- total (let _ := _ in _) => cbv zeta
  | |- total (if ?b then _ else _) => destruct b
  | |- total (match ?x with _ => _ end) => destruct x
  | |- _ => solve [eauto with forkfs]
  end.
Ltac solve_total := repeat solve_total_step.

(** ** Triples for stateful code

    From states in [P], [m] returns with [Q] or throws with [E], and does not run out
    of fuel. *)
Definition triple {S A} (P : S → Prop) (m : ST S A) (Q : A → S → Prop) (E : S → Prop) : Prop :=
  ∀ s, P s → match m s with
             | (s', Ok a) => Q a s'
             | (s', Err _) => E s'
             | (_, OutOfFuel) => False
             end.

Lemma triple_bind {S A B} (P : S → Prop) (m : ST S A) (f : A → ST S B) Q R E :
  triple P m Q E → (∀ a, triple (Q a) (f a) R E) → triple P (m ≫= f) R E.
Proof.
  intros Hm Hf s Hs. specialize (Hm s Hs). unfold mbind, st_bind.
  destruct (m s) as [s' [a|msg|]]; [by apply Hf|done..].
Qed.

Lemma triple_ret {S A} (P : S → Prop) (a : A) (Q : A → S → Prop) E :
  (∀ s, P s → Q a s) → triple P (mret a) Q E.
Proof. intros HQ s Hs. by apply HQ. Qed.

Lemma triple_weaken {S A} (P P' : S → Prop) (m : ST S A) (Q Q' : A → S → Prop) (E E' : S → Prop) :
  triple P m Q E → (∀ s, P' s → P s) → (∀ a s, Q a s → Q' a s) → (∀ s, E s → E' s) →
  triple P' m Q' E'.
Proof.
  intros Hm HP HQ HE s Hs. specialize (Hm s (HP s Hs)).
  destruct (m s) as [s' [a|msg|]]; auto.
Qed.

Lemma triple_gets {S A} (P : S → Prop) (f : S → A) (Q : A → S → Prop) E :
  (∀ s, P s → Q (f s) s) → triple P (gets f) Q E.
Proof. intros HQ s Hs. by apply HQ. Qed.

(** [inv_ok H] opens a hypothesis [e = Ok _] along the binds and the checks of
    [e]. *)
Ltac inv_ok_step H :=
  lazymatch type of H with
  | need _ _ ≫= _ = Ok _ =>
      let H1 := fresh "Hneed" in apply need_bind_Ok in H as [H1 H]
  | _ ≫= _ = Ok _ =>
      let a := fresh "a" in let H1 := fresh "Hbind" in
      apply bind_Ok in H as (a & H1 & H)
  | need _ _ = Ok _ => apply need_Ok in H
  end.
Ltac inv_ok H := repeat (inv_ok_step H; simpl in H).

(** ** Lexicographic order is a strict total order *)

Lemma lex_compare_refl a : lex_compare a a = Eq.
Proof. induction a as [|x a IH]; simpl; [done|]. by rewrite Z.compare_refl. Qed.

Lemma lex_compare_eq a b : lex_compare a b = Eq ↔ a = b.
Proof.
  split; [|intros ->; apply lex_compare_refl].
  revert b. induction a as [|x a IH]; intros [|y b]; simpl; try done.
  destruct (Z.compare_spec (b2z x) (b2z y)) as [Heq| |]; try done.
  intros H. f_equal; [by apply b2z_inj|by apply IH].
Qed.

Lemma lex_compare_antisym a b : lex_compare b a = CompOpp (lex_compare a b).
Proof.
  revert b. induction a as [|x a IH]; intros [|y b]; simpl; try done.
  rewrite (Z.compare_antisym (b2z x) (b2z y)).
  destruct (Z.compare (b2z x) (b2z y)); simpl; auto.
Qed.

Lemma lex_compare_lt_trans a b c :
  lex_compare a b = Lt → lex_compare b c = Lt → lex_compare a c = Lt.
Proof.
  revert b c. induction a as [|x a IH]; intros [|y b] [|z c]; simpl; try done.
  destruct (Z.compare_spec (b2z x) (b2z y)), (Z.compare_spec (b2z y) (b2z z)),
    (Z.compare_spec (b2z x) (b2z z)); try done; try lia; eauto.
Qed.

Lemma lex_ltb_compare a b : lex_lt a b ↔ lex_compare a b = Lt.
Proof. unfold lex_lt, lex_ltb. destruct (lex_compare a b); naive_solver. Qed.

#[global] Instance lex_lt_dec : RelDecision lex_lt.
Proof. intros a b. unfold lex_lt. apply _. Defined.
#[global] Instance lex_le_dec : RelDecision lex_le.
Proof. intros a b. unfold lex_le. apply _. Defined.

#[global] Instance lex_lt_trans : Transitive lex_lt.
Proof. intros a b c. rewrite !lex_ltb_compare. apply lex_compare_lt_trans. Qed.

#[global] Instance lex_lt_irrefl : Irreflexive lex_lt.
Proof. intros a. unfold complement. rewrite lex_ltb_compare, lex_compare_refl. done. Qed.

#[global] Instance lex_lt_strict : StrictOrder lex_lt.
Proof. split; apply _. Qed.

Lemma lex_trichotomy a b : lex_lt a b ∨ a = b ∨ lex_lt b a.
Proof.
  rewrite !lex_ltb_compare, (lex_compare_antisym a b).
  destruct (lex_compare a b) eqn:H; [|auto..].
  apply lex_compare_eq in H; auto.
Qed.

Lemma lex_lt_asym a b : lex_lt a b → lex_lt b a → False.
Proof. intros H1 H2. exact (irreflexivity lex_lt a (transitivity H1 H2)). Qed.

Lemma lex_le_lt_eq a b : lex_le a b ↔ lex_lt a b ∨ a = b.
Proof.
  rewrite lex_ltb_compare, <- lex_compare_eq.
  unfold lex_le, lex_leb. destruct (lex_compare a b); naive_solver.
Qed.

Lemma lex_not_lt a b : lex_ltb a b = false ↔ lex_le b a.
Proof.
  rewrite lex_le_lt_eq, lex_ltb_compare, <- lex_compare_eq.
  unfold lex_ltb. rewrite (lex_compare_antisym a b).
  destruct (lex_compare a b); naive_solver.
Qed.

Lemma lex_gt_cases a b : a ≠ b → lex_ltb a b = false → lex_lt b a.
Proof. intros Hne [?| ->]%lex_not_lt%lex_le_lt_eq; done. Qed.

Lemma lex_ltb_true a b : lex_ltb a b = true ↔ lex_lt a b.
Proof. done. Qed.

#[global] Instance lex_le_total : Total lex_le.
Proof. intros a b. rewrite !lex_le_lt_eq. destruct (lex_trichotomy a b); naive_solver. Qed.

#[global] Instance lex_le_trans : Transitive lex_le.
Proof.
  intros a b c. rewrite !lex_le_lt_eq. intros [?| ->]; [|done].
  intros [?| <-]; left; [by etrans|done].
Qed.

#[global] Instance lex_le_antisym : AntiSymm eq lex_le.
Proof.
  intros a b. rewrite !lex_le_lt_eq. intros [H1|]; [|done]. intros [H2|]; [|done].
  by destruct (lex_lt_asym a b).
Qed.

(** ** Prefixes and slices *)

Lemma starts_with_spec p s : starts_with p s = true ↔ ∃ t, s = p ++ t.
Proof.
  revert s. induction p as [|x p IH]; intros s; simpl; [naive_solver|].
  destruct s as [|y s]; [naive_solver|].
  rewrite andb_true_iff, bool_decide_eq_true, IH. naive_solver.
Qed.

Lemma starts_with_app p s : starts_with p (p ++ s) = true.
Proof. apply starts_with_spec. eauto. Qed.

Lemma starts_with_nil s : starts_with [] s = true.
Proof. done. Qed.

Lemma starts_with_length p s : starts_with p s = true → (length p ≤ length s)%nat.
Proof. intros [t ->]%starts_with_spec. rewrite length_app. lia. Qed.

Lemma lex_le_prefix p s : starts_with p s = true → lex_le p s.
Proof.
  intros [t ->]%starts_with_spec. induction p as [|x p IH].
  - by destruct t.
  - unfold lex_le, lex_leb in *. simpl. by rewrite Z.compare_refl.
Qed.

(** The strings with a given prefix are contiguous. *)
Lemma starts_with_between p : ∀ k k',
  lex_le p k → lex_le k k' → starts_with p k' = true → starts_with p k = true.
Proof.
  unfold lex_le, lex_leb. induction p as [|x p IH]; intros [|y k] [|z k']; simpl; try done.
  rewrite !andb_true_iff, !bool_decide_eq_true. intros Hp Hk [<- Hs].
  destruct (Z.compare_spec (b2z x) (b2z y)) as [Exy| |], (Z.compare_spec (b2z y) (b2z x));
    try done; try lia.
  split; [by apply b2z_inj|by eapply IH].
Qed.

Lemma slice_app n m (a b c : Bytes) :
  length a = n → length b = m → slice n m (a ++ b ++ c) = b.
Proof.
  intros <- <-. unfold slice. rewrite drop_app_length, take_app_length. done.
Qed.

Lemma slice_skip n m k (a b : Bytes) :
  length a = k → (k ≤ n)%nat → slice n m (a ++ b) = slice (n - k) m b.
Proof. intros <- Hn. unfold slice. by rewrite drop_app_ge. Qed.

Lemma slice_here m (a b : Bytes) : length a = m → slice 0 m (a ++ b) = a.
Proof. intros <-. unfold slice. apply take_app_length. Qed.

Lemma drop_skip n k (a b : Bytes) :
  length a = k → (k ≤ n)%nat → drop n (a ++ b) = drop (n - k) b.
Proof. intros <- Hn. by rewrite drop_app_ge. Qed.

Lemma slice_app_end n m (a b : Bytes) :
  length a = n → length b = m → slice n m (a ++ b) = b.
Proof. intros Ha Hb. rewrite <- (app_nil_r b) at 1. by apply slice_app. Qed.

Lemma length_slice n m b :
  (n + m ≤ length b)%nat → length (slice n m b) = m.
Proof. intros. unfold slice. rewrite length_take, length_drop. lia. Qed.

Lemma memcpy_app n m (a b c src : Bytes) :
  length a = n → length b = m → length src = m →
  memcpy (a ++ b ++ c) n src = a ++ src ++ c.
Proof.
  intros <- <- Hs. unfold memcpy. rewrite take_app_length. f_equal. f_equal.
  by rewrite Hs, app_assoc, <- length_app, drop_app_length.
Qed.

Lemma memcpy_app_end n m (a b src : Bytes) :
  length a = n → length b = m → length src = m →
  memcpy (a ++ b) n src = a ++ src.
Proof.
  intros Ha Hb Hs. rewrite <- (app_nil_r b), (memcpy_app n m); [|done..].
  by rewrite app_nil_r.
Qed.

Lemma memcpy_skip n m (a b src : Bytes) :
  length a = m → (m ≤ n)%nat → memcpy (a ++ b) n src = a ++ memcpy b (n - m) src.
Proof.
  intros <- Hn. unfold memcpy. rewrite take_app_ge by done. rewrite <- !app_assoc.
  do 3 f_equal. rewrite drop_app_ge by lia. f_equal. lia.
Qed.

Lemma memcpy_here (a b src : Bytes) :
  length a = length src → memcpy (a ++ b) 0 src = src ++ b.
Proof.
  intros Ha. unfold memcpy. simpl. f_equal. rewrite <- Ha. apply drop_app_length.
Qed.

Lemma memcpy_here_end (a src : Bytes) : length a = length src → memcpy a 0 src = src.
Proof. intros Ha. rewrite <- (app_nil_r a), memcpy_here by done. apply app_nil_r. Qed.

Lemma length_memcpy b n src :
  (n + length src ≤ length b)%nat → length (memcpy b n src) = length b.
Proof. intros. unfold memcpy. rewrite !length_app, length_take, length_drop. lia. Qed.

Lemma memcpy_length b off src n :
  length b = n → (off + length src ≤ n)%nat → length (memcpy b off src) = n.
Proof. intros <-. apply length_memcpy. Qed.

Lemma zeros_add n m : zeros (n + m) = zeros n ++ zeros m.
Proof. apply replicate_add. Qed.

(** ** Records as lists of fields *)

(** The offset of field [i]. *)
Definition field_offset (i : nat) (cs : list Bytes) : nat := length (concat (take i cs)).

Lemma concat_at i (cs : list Bytes) c :
  cs !! i = Some c → concat cs = concat (take i cs) ++ c ++ concat (drop (S i) cs).
Proof.
  intros Hc. rewrite <- (take_drop_middle cs i c Hc) at 1. by rewrite concat_app.
Qed.

Lemma drop_field i off (cs : list Bytes) :
  off = field_offset i cs → drop off (concat cs) = concat (drop i cs).
Proof.
  intros ->. rewrite <- (take_drop i cs) at 2. rewrite concat_app. apply drop_app_length.
Qed.

Lemma take_field i off (cs : list Bytes) :
  off = field_offset i cs → take off (concat cs) = concat (take i cs).
Proof.
  intros ->. rewrite <- (take_drop i cs) at 2. rewrite concat_app. apply take_app_length.
Qed.

Lemma slice_field i off n (cs : list Bytes) c :
  cs !! i = Some c → off = field_offset i cs → n = length c →
  slice off n (concat cs) = c.
Proof.
  intros Hc -> ->. unfold slice. rewrite (concat_at i cs c Hc).
  unfold field_offset. rewrite drop_app_length. apply take_app_length.
Qed.

Lemma memcpy_field i off (cs : list Bytes) c src :
  cs !! i = Some c → off = field_offset i cs → length c = length src →
  memcpy (concat cs) off src = concat (<[i := src]> cs).
Proof.
  intros Hc -> Hl. rewrite (concat_at i cs c Hc). unfold field_offset.
  rewrite (memcpy_app (length (concat (take i cs))) (length c)) by done.
  rewrite insert_take_drop by (by eapply lookup_lt_Some). by rewrite concat_app.
Qed.

(** A buffer of zeros cut into fields. *)
Lemma zeros_fields (ns : list nat) : zeros (sum_list ns) = concat (zeros <$> ns).
Proof.
  induction ns as [|n ns IH]; [done|]. change (sum_list (n :: ns)) with (n + sum_list ns)%nat.
  by rewrite zeros_add, IH.
Qed.


(** ** Ordered iteration of maps *)

#[global] Instance entry_le_total {A} : Total (@entry_le A).
Proof. intros x y. apply lex_le_total. Qed.
#[global] Instance entry_le_trans {A} : Transitive (@entry_le A).
Proof. intros x y z. apply lex_le_trans. Qed.

Lemma in_order_perm {A} (m : gmap Bytes A) : in_order m ≡ₚ map_to_list m.
Proof. apply merge_sort_Permutation. Qed.

Lemma elem_of_in_order {A} (m : gmap Bytes A) k a :
  (k, a) ∈ in_order m ↔ m !! k = Some a.
Proof. by rewrite in_order_perm, elem_of_map_to_list. Qed.

Lemma NoDup_in_order_keys {A} (m : gmap Bytes A) : NoDup (in_order m).*1.
Proof. rewrite in_order_perm. apply NoDup_fst_map_to_list. Qed.

Lemma list_to_map_in_order {A} (m : gmap Bytes A) :
  list_to_map (in_order m) = m.
Proof.
  rewrite (list_to_map_proper _ (map_to_list m)).
  - apply list_to_map_to_list.
  - apply NoDup_in_order_keys.
  - apply in_order_perm.
Qed.

Lemma length_in_order {A} (m : gmap Bytes A) : length (in_order m) = size m.
Proof. by rewrite in_order_perm, length_map_to_list. Qed.

Lemma in_order_empty {A} : in_order (∅ : gmap Bytes A) = [].
Proof. unfold in_order. by rewrite map_to_list_empty. Qed.

Lemma in_order_singleton {A} k (a : A) : in_order {[k := a]} = [(k, a)].
Proof. unfold in_order. by rewrite map_to_list_singleton. Qed.

(** ** Filters *)

Lemma list_filter_none {A} (P : A → Prop) `{∀ x, Decision (P x)} l :
  Forall (λ x, ¬ P x) l → filter P l = [].
Proof. induction 1; [done|]. by rewrite filter_cons_False. Qed.

Lemma list_filter_every {A} (P : A → Prop) `{∀ x, Decision (P x)} l : Forall P l → filter P l = l.
Proof. induction 1; [done|]. rewrite filter_cons_True by done. by f_equal. Qed.

(** Strictly increasing keys, as a recursive predicate. *)
Fixpoint increasing (l : list Bytes) : Prop :=
  match l with
  | [] => True
  | x :: l' => Forall (lex_lt x) l' ∧ increasing l'
  end.

Lemma increasing_app l k :
  increasing (l ++ k) ↔
  increasing l ∧ increasing k ∧ ∀ x y, x ∈ l → y ∈ k → lex_lt x y.
Proof.
  induction l as [|x l IH]; simpl.
  - split; [|naive_solver]. intros H. split_and!; [done..|].
    intros ?? []%not_elem_of_nil.
  - rewrite Forall_app, IH, !Forall_forall. split.
    + intros ([H1 H2] & H3 & H4 & H5). split_and!; [done..|].
      intros a b [->|Ha]%elem_of_cons Hb; [by apply H2|by apply H5].
    + intros ([H1 H2] & H3 & H4). split_and!; [done| |done..|].
      * intros b Hb. apply H4; [left|done].
      * intros a b Ha Hb. apply H4; [by right|done].
Qed.

Lemma increasing_NoDup l : increasing l → NoDup l.
Proof.
  induction l as [|x l IH]; [constructor|]. intros [Hx Hl]. constructor; [|auto].
  rewrite Forall_forall in Hx. intros Hin. by apply (irreflexivity lex_lt x), Hx.
Qed.

Lemma increasing_unique l k :
  increasing l → increasing k → (∀ x, x ∈ l ↔ x ∈ k) → l = k.
Proof.
  revert k. induction l as [|x l IH]; intros k Hl Hk Hlk.
  { destruct k as [|y k]; [done|]. destruct (Hlk y) as [_ H]. set_solver. }
  destruct k as [|y k]; [set_solver|].
  destruct Hl as [Hxl Hl], Hk as [Hyk Hk].
  rewrite Forall_forall in Hxl, Hyk.
  assert (x = y) as ->.
  { pose proof (proj1 (Hlk x) ltac:(set_solver)) as [->|Hx]%elem_of_cons; [done|].
    pose proof (proj2 (Hlk y) ltac:(set_solver)) as [->|Hy]%elem_of_cons; [done|].
    destruct (lex_lt_asym x y); auto. }
  f_equal. apply IH; [done..|]. intros z. split; intros Hz.
  - pose proof (proj1 (Hlk z) ltac:(set_solver)) as [->|]%elem_of_cons; [|done].
    destruct (irreflexivity lex_lt y). auto.
  - pose proof (proj2 (Hlk z) ltac:(set_solver)) as [->|]%elem_of_cons; [|done].
    destruct (irreflexivity lex_lt y). auto.
Qed.

Lemma increasing_filter (P : Bytes → Prop) `{∀ x, Decision (P x)} l :
  increasing l → increasing (filter P l).
Proof.
  induction l as [|k l IH]; [done|]. intros [Hk Hl]. rewrite filter_cons.
  destruct (decide _); [|by apply IH]. split; [|by apply IH].
  apply Forall_forall. intros k' [_ Hin]%list_elem_of_filter. rewrite Forall_forall in Hk. by apply Hk.
Qed.

Lemma increasing_sublist {A} (l : list (Bytes * A)) (P : Bytes * A → Prop) `{∀ x, Decision (P x)} :
  increasing l.*1 → increasing (filter P l).*1.
Proof.
  induction l as [|x l IH]; [done|]. intros [Hx Hl]. rewrite filter_cons.
  destruct (decide (P x)); [|by apply IH]. rewrite fmap_cons. split; [|by apply IH].
  apply Forall_forall. intros k ([k' a] & -> & [_ Hin]%list_elem_of_filter)%list_elem_of_fmap.
  rewrite Forall_forall in Hx. apply Hx. apply list_elem_of_fmap. by exists (k', a).
Qed.

Lemma increasing_in_order {A} (m : gmap Bytes A) : increasing (in_order m).*1.
Proof.
  assert (StronglySorted entry_le (in_order m)) as Hs.
  { apply (StronglySorted_merge_sort _). }
  pose proof (NoDup_in_order_keys m) as Hnd. revert Hs Hnd.
  generalize (in_order m). intros l. induction l as [|[k a] l IH]; [done|].
  intros Hs Hnd. inversion Hs as [|? ? Hs' Hall]; subst.
  simpl in Hnd. apply NoDup_cons in Hnd as [Hk Hnd]. split; [|by apply IH].
  rewrite Forall_fmap. apply Forall_forall. intros [k' a'] Hin. simpl.
  rewrite Forall_forall in Hall. specialize (Hall _ Hin).
  apply lex_le_lt_eq in Hall as [?|Heq]; [done|]. simpl in Heq. subst k'.
  destruct Hk. apply list_elem_of_fmap. by exists (k, a').
Qed.

(** The ordered iteration is the unique increasing listing of the map. *)
Lemma in_order_unique {A} (m : gmap Bytes A) (l : list (Bytes * A)) :
  increasing l.*1 → (∀ k a, (k, a) ∈ l ↔ m !! k = Some a) → in_order m = l.
Proof.
  intros Hl Hm.
  assert ((in_order m).*1 = l.*1) as Hkeys.
  { apply increasing_unique; [apply increasing_in_order|done|]. intros k.
    rewrite !list_elem_of_fmap. split; intros ([k' a] & -> & Hin); exists (k', a);
      (split; [done|]); simpl in *.
    - apply Hm. by apply elem_of_in_order.
    - apply elem_of_in_order. by apply Hm. }
  assert (Forall2 (λ x y, m !! x.1 = Some x.2 ∧ m !! y.1 = Some y.2 ∧ x.1 = y.1)
    (in_order m) l) as H2.
  { assert (∀ x, x ∈ in_order m → m !! x.1 = Some x.2) as H1.
    { intros [k a]. by rewrite elem_of_in_order. }
    assert (∀ x, x ∈ l → m !! x.1 = Some x.2) as H3 by (intros [k a]; apply Hm).
    clear -Hkeys H1 H3. revert Hkeys H1 H3. generalize (in_order m). intros l1.
    revert l. induction l1 as [|x l1 IH]; intros [|y l]; simpl; try done.
    intros [= ??] ??. constructor; [|apply IH; set_solver]. set_solver. }
  eapply list_eq_Forall2, Forall2_impl; [exact H2|].
  intros [k a] [k' a'] (? & ? & ?). simplify_eq/=. congruence.
Qed.
