(* ===== verification/Codec.v ===== *)
(** * Integer codec, checksum and object identities

    The byte-level helpers at the top of [daemon/journal.cpp] that every other
    file of the daemon repeats: little-endian [load] and [store], the CRC-32C
    used by records, segment headers and anchors, and the domain-separated
    object identity. SHA-256 is library code (OpenSSL or CommonCrypto): it is the
    parameter [digest], of which only the output width is assumed. *)

From S2P Require Import Prelude.
Local Open Scope Z_scope.

(** [uint64_t load(const unsigned char* p,size_t n)] *)
Definition load (p : Bytes) (n : nat) : Z :=
  foldl (λ v i, Z.lor v (Z.shiftl (b2z (p !!! i)) (8 * Z.of_nat i))) 0 (seq 0 n).

(** [void store(unsigned char* p,uint64_t v,size_t n)]: the [n] bytes written. *)
Definition store (v : Z) (n : nat) : Bytes :=
  map (λ i, z2b (Z.shiftr v (8 * Z.of_nat i))) (seq 0 n).

(** [uint32_t crc(const unsigned char* p,size_t n)] *)
Definition crc_bit (c : Z) : Z :=
  Z.lxor (Z.shiftr c 1) (if Z.eqb (Z.land c 1) 0 then 0 else 2197175160).
Definition crc_byte (c : Z) (x : byte) : Z :=
  Nat.iter 8 crc_bit (Z.lxor c (b2z x)).
Definition crc (p : Bytes) : Z :=
  Z.lxor (foldl crc_byte 4294967295 p) 4294967295.

(** SHA-256, a library function. *)
Class Digest := digest : Bytes → Bytes.
Class DigestOk `{Digest} : Prop :=
  digest_length : ∀ b, length (digest b) = 32%nat.

Abbreviation Id := (list Init.Byte.byte).

(** [Hash{}] *)
Definition zero_id : Id := zeros 32.

Section Hashing.
Context `{Digest}.

(** [Hash tagged(const char* tag,const Bytes& b)] *)
Definition tagged (tag b : Bytes) : Id := digest (tag ++ b).

(** [Hash object_hash(const Bytes& value)], exposed as [Journal::object_id]. *)
Definition object_hash (value : Bytes) : Id :=
  digest (bs "forkfs.object.v0" ++ store 4 2 ++ store 0 2 ++ store (len value) 8
          ++ value).
End Hashing.

(** [hex_id]/[hex]: two lower-case hexadecimal digits per byte. *)
Definition hex_digit (z : Z) : byte := bs "0123456789abcdef" !!! Z.to_nat z.
Definition hex_id (id : Bytes) : Bytes :=
  concat (map (λ c, [hex_digit (Z.shiftr (b2z c) 4); hex_digit (Z.land (b2z c) 15)]) id).

Arguments load : simpl never.
Arguments store : simpl never.
Arguments crc : simpl never.
Arguments zero_id : simpl never.
Arguments hex_id : simpl never.

(** ** Little-endian values *)

Fixpoint le_value (b : Bytes) : Z :=
  match b with
  | [] => 0
  | x :: b' => b2z x + 256 * le_value b'
  end.

Lemma lor_shiftl_add a b k :
  0 ≤ k → 0 ≤ a < 2 ^ k → Z.lor a (Z.shiftl b k) = a + b * 2 ^ k.
Proof.
  intros Hk Ha. rewrite <- Z.shiftl_mul_pow2 by done.
  assert (Z.land a (Z.shiftl b k) = 0) as Hl.
  { apply Z.bits_inj'. intros i Hi. rewrite Z.land_spec, Z.bits_0.
    destruct (Z.lt_ge_cases i k).
    - rewrite Z.shiftl_spec_low by done. apply andb_false_r.
    - rewrite <- (Z.mod_small a (2 ^ k)) by done.
      rewrite Z.mod_pow2_bits_high by lia. done. }
  rewrite <- Z.lxor_lor by done. symmetry. by apply Z.add_nocarry_lxor.
Qed.

Lemma le_value_bound b : 0 ≤ le_value b < 256 ^ len b.
Proof.
  unfold len. induction b as [|x b IH]; [done|].
  rewrite length_cons, Nat2Z.inj_succ, Z.pow_succ_r by lia.
  cbn [le_value]. pose proof (b2z_range x). lia.
Qed.

Lemma le_value_app a b : le_value (a ++ b) = le_value a + 256 ^ len a * le_value b.
Proof.
  unfold len. induction a as [|x a IH]; cbn [le_value app length].
  - rewrite Z.pow_0_r. lia.
  - rewrite Nat2Z.inj_succ, Z.pow_succ_r, IH by lia. lia.
Qed.

Lemma le_value_zeros n : le_value (zeros n) = 0.
Proof.
  induction n as [|n IH]; [done|]. change (zeros (S n)) with (x00 :: zeros n).
  cbn [le_value]. by rewrite IH.
Qed.

Lemma load_S p n :
  load p (S n) = Z.lor (load p n) (Z.shiftl (b2z (p !!! n)) (8 * Z.of_nat n)).
Proof. unfold load. by rewrite seq_S, foldl_app. Qed.

Lemma load_le_value p n : load p n = le_value (take n p).
Proof.
  assert (load p n = le_value (take n p) ∧ 0 ≤ load p n < 2 ^ (8 * Z.of_nat n)) as [? _];
    [|done].
  induction n as [|n [IH Hb]]; [done|].
  rewrite load_S, lor_shiftl_add by lia. rewrite Nat2Z.inj_succ, Z.mul_succ_r.
  rewrite Z.pow_add_r by lia. pose proof (b2z_range (p !!! n)).
  split; [|nia]. rewrite IH.
  destruct (p !! n) as [x|] eqn:Hx.
  - rewrite (take_S_r _ _ x) by done. rewrite le_value_app.
    rewrite (list_lookup_total_correct _ _ _ Hx).
    unfold len. rewrite length_take_le by (apply lookup_lt_Some in Hx; lia).
    rewrite (Z.pow_mul_r 2 8) by lia. change (2 ^ 8) with 256. cbn [le_value]. ring.
  - pose proof (lookup_ge_None_1 _ _ Hx).
    rewrite list_lookup_total_alt, Hx. change (b2z (default inhabitant None)) with 0.
    rewrite (take_ge p (S n)), (take_ge p n) by lia. ring.
Qed.

Lemma length_store v n : length (store v n) = n.
Proof. unfold store. by rewrite length_map, length_seq. Qed.

Lemma len_store v n : len (store v n) = Z.of_nat n.
Proof. unfold len. by rewrite length_store. Qed.

Lemma store_S v n : store v (S n) = z2b v :: store (v / 256) n.
Proof.
  unfold store. cbn [seq map]. rewrite Z.mul_0_r, Z.shiftr_0_r. f_equal.
  rewrite <- seq_shift, map_map. apply map_ext. intros i.
  change 256 with (2 ^ 8). rewrite <- Z.shiftr_div_pow2 by lia.
  rewrite Z.shiftr_shiftr by lia. f_equal. f_equal. lia.
Qed.

Lemma le_value_store v n : le_value (store v n) = v mod 256 ^ Z.of_nat n.
Proof.
  revert v. induction n as [|n IH]; intros v.
  { rewrite Z.pow_0_r, Z.mod_1_r. done. }
  rewrite store_S. cbn [le_value]. rewrite IH, b2z_z2b.
  rewrite Nat2Z.inj_succ, Z.pow_succ_r by lia.
  rewrite Z.rem_mul_r by lia. lia.
Qed.

(** The store/load round trip, at the width of the field. *)
Lemma load_store v n rest :
  0 ≤ v < 256 ^ Z.of_nat n → load (store v n ++ rest) n = v.
Proof.
  intros Hv. rewrite load_le_value.
  rewrite <- (length_store v n) at 1. rewrite take_app_length, le_value_store.
  by apply Z.mod_small.
Qed.

Lemma load_store_end v n : 0 ≤ v < 256 ^ Z.of_nat n → load (store v n) n = v.
Proof. intros Hv. rewrite <- (app_nil_r (store v n)). by apply load_store. Qed.

Lemma load_nonneg p n : 0 ≤ load p n.
Proof. rewrite load_le_value. apply le_value_bound. Qed.

Lemma load_bound p n : 0 ≤ load p n < 256 ^ Z.of_nat n.
Proof.
  rewrite load_le_value. pose proof (le_value_bound (take n p)) as [? Hb].
  split; [done|]. eapply Z.lt_le_trans; [exact Hb|].
  apply Z.pow_le_mono_r; [lia|]. unfold len. rewrite length_take. lia.
Qed.

(** Two fields of the same width that load the same value hold the same bytes. *)
Lemma le_value_inj a b : length a = length b → le_value a = le_value b → a = b.
Proof.
  revert b. induction a as [|x a IH]; intros [|y b]; simpl; try done.
  intros [= Hl] Hv. pose proof (b2z_range x). pose proof (b2z_range y).
  assert (b2z x = b2z y ∧ le_value a = le_value b) as [Hxy Hab] by lia.
  f_equal; [by apply b2z_inj|by apply IH].
Qed.

Lemma store_load p n : (n ≤ length p)%nat → store (load p n) n = take n p.
Proof.
  intros Hn. apply le_value_inj.
  - rewrite length_store, length_take. lia.
  - rewrite le_value_store, load_le_value. apply Z.mod_small.
    pose proof (le_value_bound (take n p)) as Hb. unfold len in Hb.
    by rewrite length_take_le in Hb.
Qed.

(** ** The checksum fits its 32-bit field *)

Lemma lxor_bound a b k : 0 ≤ k → 0 ≤ a < 2 ^ k → 0 ≤ b < 2 ^ k → 0 ≤ Z.lxor a b < 2 ^ k.
Proof.
  intros Hk Ha Hb. split; [apply Z.lxor_nonneg; lia|].
  assert (Z.lxor a b = Z.lxor a b mod 2 ^ k) as ->; [|apply Z.mod_pos_bound; lia].
  apply Z.bits_inj'. intros i Hi. destruct (Z.lt_ge_cases i k).
  - by rewrite Z.mod_pow2_bits_low.
  - rewrite Z.mod_pow2_bits_high, Z.lxor_spec by lia.
    rewrite <- (Z.mod_small a (2 ^ k)), <- (Z.mod_small b (2 ^ k)) by done.
    by rewrite !Z.mod_pow2_bits_high by lia.
Qed.

Lemma crc_bit_bound c : 0 ≤ c < 2 ^ 32 → 0 ≤ crc_bit c < 2 ^ 32.
Proof.
  intros Hc. unfold crc_bit. apply lxor_bound; [lia| |destruct (_ =? _); lia].
  rewrite Z.shiftr_div_pow2 by lia. change (2 ^ 1) with 2.
  pose proof (Z.div_le_upper_bound c 2 c). pose proof (Z.div_pos c 2).
  assert (c / 2 ≤ c) by (apply Z.div_le_upper_bound; lia). lia.
Qed.

Lemma crc_bound p : 0 ≤ crc p < 2 ^ 32.
Proof.
  unfold crc. apply lxor_bound; [lia| |lia].
  assert (0 ≤ 4294967295 < 2 ^ 32) as H by lia. revert H.
  generalize 4294967295. induction p as [|x p IH]; intros c Hc; [done|].
  simpl. apply IH. unfold crc_byte.
  assert (0 ≤ Z.lxor c (b2z x) < 2 ^ 32) as Hx.
  { apply lxor_bound; [lia|done|]. pose proof (b2z_range x). lia. }
  revert Hx. generalize (Z.lxor c (b2z x)). simpl.
  intros z Hz. by do 8 apply crc_bit_bound.
Qed.

Lemma length_zero_id : length zero_id = 32%nat.
Proof. done. Qed.

Lemma length_object_hash `{DigestOk} b : length (object_hash b) = 32%nat.
Proof. apply digest_length. Qed.

#[export] Hint Resolve length_store length_zero_id length_object_hash : forkfs.
#[export] Hint Rewrite length_store length_zeros @length_app @length_replicate : forkfs.
