(* ===== verification/Treap.v ===== *)
(** * Abstract treaps

    The mathematical trees represented by the content-addressed nodes of
    [daemon/metadata_tree.cpp]: recursive counterparts [tset], [tmerge] and
    [tlookup] of the iterative code, the search-tree and heap invariants, their
    preservation, the finite-map meaning of an update and the uniqueness of the
    treap of a given map.  Nothing here depends on the store; the refinement from
    the class to these trees is in [MetadataTreeProofs]. *)

From S2P Require Import Prelude Codec.

(** The priority order: a strict total order on keys. *)
Class PriorityOrder (higher : Bytes → Bytes → bool) : Prop := {
  higher_irrefl : ∀ a, higher a a = false;
  higher_trans : ∀ a b c, higher a b = true → higher b c = true → higher a c = true;
  higher_total : ∀ a b, a ≠ b → higher a b = true ∨ higher b a = true;
}.

Inductive tree : Type :=
| Leaf
| Branch (l : tree) (k : Bytes) (v : Id) (r : tree).

#[global] Instance tree_eq_dec : EqDecision tree.
Proof. solve_decision. Defined.

(** In-order listing. *)
Fixpoint elements_of (t : tree) : list (Bytes * Id) :=
  match t with
  | Leaf => []
  | Branch l k v r => elements_of l ++ (k, v) :: elements_of r
  end.
Definition keys_of (t : tree) : list Bytes := (elements_of t).*1.

(** The finite map a tree stands for. *)
Definition to_map (t : tree) : gmap Bytes Id := list_to_map (elements_of t).

(** Search-tree invariant: the in-order keys increase. *)
Definition bst (t : tree) : Prop := increasing (keys_of t).

Fixpoint depth (t : tree) : nat :=
  match t with Leaf => 0 | Branch l _ _ r => S (depth l `max` depth r) end.
Fixpoint count (t : tree) : nat :=
  match t with Leaf => 0 | Branch l _ _ r => S (count l + count r) end.

Fixpoint tlookup (k : Bytes) (t : tree) : option Id :=
  match t with
  | Leaf => None
  | Branch l k' v r =>
      if bool_decide (k = k') then Some v
      else tlookup k (if lex_ltb k k' then l else r)
  end.

Section Treap.
Context (higher : Bytes → Bytes → bool).

Definition beats (k : Bytes) (t : tree) : Prop :=
  match t with Leaf => True | Branch _ k' _ _ => higher k k' = true end.

(** Heap invariant: every node has a higher priority than its children. *)
Fixpoint heap (t : tree) : Prop :=
  match t with
  | Leaf => True
  | Branch l k _ r => beats k l ∧ beats k r ∧ heap l ∧ heap r
  end.

Definition treap (t : tree) : Prop := bst t ∧ heap t.

Fixpoint tmerge (l : tree) : tree → tree :=
  match l with
  | Leaf => λ r, r
  | Branch ll lk lv lr =>
      fix go (r : tree) : tree :=
        match r with
        | Leaf => l
        | Branch rl rk rv rr =>
            if higher lk rk then Branch ll lk lv (tmerge lr r)
            else Branch (go rl) rk rv rr
        end
  end.

(** Reattach a rebuilt left (right) child, rotating it up when it is higher. *)
Definition attach_left (l : tree) (k : Bytes) (v : Id) (r : tree) : tree :=
  match l with
  | Branch tl tk tv tr =>
      if higher tk k then Branch tl tk tv (Branch tr k v r) else Branch l k v r
  | Leaf => Branch l k v r
  end.
Definition attach_right (l : tree) (k : Bytes) (v : Id) (r : tree) : tree :=
  match r with
  | Branch tl tk tv tr =>
      if higher tk k then Branch (Branch l k v tl) tk tv tr else Branch l k v r
  | Leaf => Branch l k v r
  end.

(** [None] when the tree is returned untouched. *)
Fixpoint tset_opt (t : tree) (k : Bytes) (v : option Id) : option tree :=
  match t with
  | Leaf => (λ v', Branch Leaf k v' Leaf) <$> v
  | Branch l k' v' r =>
      if bool_decide (k = k') then
        match v with
        | Some w => if bool_decide (v' = w) then None else Some (Branch l k' w r)
        | None => Some (tmerge l r)
        end
      else if lex_ltb k k' then (λ l', attach_left l' k' v' r) <$> tset_opt l k v
      else (λ r', attach_right l k' v' r') <$> tset_opt r k v
  end.
Definition tset (t : tree) (k : Bytes) (v : option Id) : tree := default t (tset_opt t k v).

Fixpoint tset_all (t : tree) (changes : list (Bytes * option Id)) : tree :=
  match changes with
  | [] => t
  | (k, v) :: rest => tset_all (tset t k v) rest
  end.
End Treap.

(** ** Updating sorted association lists *)

Definition opt_pair (k : Bytes) (v : option Id) : list (Bytes * Id) :=
  match v with Some w => [(k, w)] | None => [] end.
Fixpoint upd (k : Bytes) (v : option Id) (l : list (Bytes * Id)) : list (Bytes * Id) :=
  match l with
  | [] => opt_pair k v
  | (k', v') :: l' =>
      if bool_decide (k = k') then opt_pair k v ++ l'
      else if lex_ltb k k' then opt_pair k v ++ (k', v') :: l'
      else (k', v') :: upd k v l'
  end.

Lemma upd_app_lt k v a k' v' b :
  lex_lt k k' → upd k v (a ++ (k', v') :: b) = upd k v a ++ (k', v') :: b.
Proof.
  intros Hk. induction a as [|[k1 v1] a IH]; simpl.
  - rewrite bool_decide_eq_false_2.
    + by rewrite Hk.
    + intros ->. by apply (irreflexivity lex_lt k').
  - case_bool_decide; [by rewrite app_assoc|].
    destruct (lex_ltb k k1); [by rewrite app_comm_cons, app_assoc|].
    simpl. by rewrite IH.
Qed.

Lemma upd_app_gt k v a b :
  Forall (λ x, lex_lt x k) a.*1 → upd k v (a ++ b) = a ++ upd k v b.
Proof.
  induction a as [|[k1 v1] a IH]; simpl; [done|].
  intros [Hk Ha]%Forall_cons. rewrite bool_decide_eq_false_2.
  - destruct (lex_ltb k k1) eqn:E; [|by rewrite IH].
    destruct (lex_lt_asym k k1); done.
  - intros ->. by apply (irreflexivity lex_lt k1).
Qed.

Lemma upd_keys k v l x : x ∈ (upd k v l).*1 → x = k ∨ x ∈ l.*1.
Proof.
  assert (∀ y, y ∈ (opt_pair k v).*1 → y = k) as Ho.
  { destruct v; simpl; set_solver. }
  induction l as [|[k' v'] l IH]; simpl; [set_solver|].
  case_bool_decide; [rewrite fmap_app, elem_of_app; set_solver|].
  destruct (lex_ltb k k').
  - rewrite fmap_app, elem_of_app. simpl. set_solver.
  - simpl. set_solver.
Qed.

Lemma elem_of_upd k v l p : p ∈ upd k v l → p ∈ opt_pair k v ∨ p ∈ l.
Proof.
  induction l as [|[k' v'] l IH]; simpl; [by left|].
  case_bool_decide; [rewrite elem_of_app; set_solver|].
  destruct (lex_ltb k k'); [rewrite elem_of_app; set_solver|set_solver].
Qed.

Lemma increasing_upd k v l : increasing l.*1 → increasing (upd k v l).*1.
Proof.
  induction l as [|[k' v'] l IH]; simpl.
  { intros _. by destruct v. }
  intros [Hall Hl]. case_bool_decide as Hk.
  { subst k'. destruct v; simpl; [split; done|done]. }
  destruct (lex_ltb k k') eqn:E.
  - destruct v; simpl; [|done]. split_and!; [|done..].
    constructor; [done|]. eapply Forall_impl; [exact Hall|]. intros x Hx. by etrans.
  - split; [|auto]. apply Forall_forall. intros x [->|Hx]%upd_keys.
    + by apply lex_gt_cases.
    + by eapply Forall_forall in Hall.
Qed.

Lemma list_to_map_upd k v (l : list (Bytes * Id)) :
  increasing l.*1 →
  (list_to_map (upd k v l) : gmap Bytes Id) =
  match v with Some w => <[k := w]> (list_to_map l) | None => delete k (list_to_map l) end.
Proof.
  assert (∀ (l : list (Bytes * Id)), Forall (lex_lt k) l.*1 →
    (list_to_map l : gmap Bytes Id) !! k = None) as Hnone.
  { intros l' Hl'. apply not_elem_of_list_to_map_1. intros Hin.
    eapply Forall_forall in Hl'; [|exact Hin]. by apply (irreflexivity lex_lt k). }
  induction l as [|[k' v'] l IH]; simpl; intros Hinc.
  { destruct v; simpl; [done|]. by rewrite delete_id by apply lookup_empty. }
  destruct Hinc as [Hall Hl]. case_bool_decide as Hk.
  { subst k'. destruct v; simpl.
    - by rewrite insert_insert_eq.
    - by rewrite delete_insert_id by auto. }
  destruct (lex_ltb k k') eqn:E.
  - destruct v; simpl; [done|]. rewrite delete_id; [done|].
    rewrite lookup_insert_ne by done. apply Hnone.
    eapply Forall_impl; [exact Hall|]. intros x Hx. by etrans.
  - simpl. rewrite IH by done. destruct v.
    + by rewrite insert_insert_ne.
    + by rewrite delete_insert_ne.
Qed.

(** ** Search trees *)

Lemma keys_of_Branch l k v r : keys_of (Branch l k v r) = keys_of l ++ k :: keys_of r.
Proof. unfold keys_of. simpl. by rewrite fmap_app. Qed.

Lemma bst_Branch l k v r :
  bst (Branch l k v r) ↔
  bst l ∧ bst r ∧ (∀ x, x ∈ keys_of l → lex_lt x k) ∧ (∀ x, x ∈ keys_of r → lex_lt k x).
Proof.
  unfold bst. rewrite keys_of_Branch, increasing_app. simpl.
  rewrite Forall_forall. split.
  - intros (H1 & [H2 H3] & H4). split_and!; [done..| |done].
    intros x Hx. apply H4; [done|left].
  - intros (H1 & H2 & H3 & H4). split_and!; [done..|].
    intros x y Hx [->|Hy]%elem_of_cons; [auto|]. etrans; [by apply H3|by apply H4].
Qed.

Lemma bst_Leaf : bst Leaf.
Proof. done. Qed.

Lemma treap_Leaf higher : treap higher Leaf.
Proof. done. Qed.

Lemma bst_NoDup t : bst t → NoDup (keys_of t).
Proof. apply increasing_NoDup. Qed.

Lemma tlookup_None k t : k ∉ keys_of t → tlookup k t = None.
Proof.
  induction t as [|l IHl k' v r IHr]; [done|]. rewrite keys_of_Branch.
  intros Hk. simpl. rewrite bool_decide_eq_false_2 by set_solver.
  destruct (lex_ltb k k'); [apply IHl|apply IHr]; set_solver.
Qed.

(** The search path finds exactly the listed pairs. *)
Lemma tlookup_elements t k v : bst t → tlookup k t = Some v ↔ (k, v) ∈ elements_of t.
Proof.
  intros Hb. induction t as [|l IHl k' v' r IHr]; simpl; [set_solver|].
  apply bst_Branch in Hb as (Hl & Hr & Hlt & Hgt).
  rewrite elem_of_app, elem_of_cons.
  assert (∀ t, (k, v) ∈ elements_of t → k ∈ keys_of t) as Hin.
  { intros t Ht. apply list_elem_of_fmap. by exists (k, v). }
  case_bool_decide as Hk.
  - subst k'. split; [intros [= ->]; auto|].
    intros [Hx|[[= ->]|Hx]]; [|done|]; apply Hin in Hx.
    + apply Hlt in Hx. by destruct (irreflexivity lex_lt k).
    + apply Hgt in Hx. by destruct (irreflexivity lex_lt k).
  - destruct (lex_ltb k k') eqn:E.
    + rewrite IHl by done. split; [auto|]. intros [?|[[= ??]|Hx]]; [done..|].
      apply Hin, Hgt in Hx. by destruct (lex_lt_asym k k').
    + rewrite IHr by done. split; [auto|]. intros [Hx|[[= ??]|?]]; [|done..].
      apply Hin, Hlt in Hx. congruence.
Qed.

Lemma tlookup_to_map t k : bst t → tlookup k t = to_map t !! k.
Proof.
  intros Hb. apply option_eq. intros v. rewrite tlookup_elements by done.
  unfold to_map. rewrite elem_of_list_to_map; [done|]. by apply bst_NoDup.
Qed.

Lemma in_order_to_map t : bst t → in_order (to_map t) = elements_of t.
Proof.
  intros Hb. apply in_order_unique; [done|]. intros k v.
  unfold to_map. rewrite elem_of_list_to_map; [done|]. by apply bst_NoDup.
Qed.

Lemma length_elements_of t : length (elements_of t) = count t.
Proof. induction t; simpl; [done|]. rewrite length_app; simpl. lia. Qed.

Lemma depth_count t : depth t ≤ count t.
Proof. induction t; simpl; lia. Qed.

Section Facts.
Context (higher : Bytes → Bytes → bool).

Lemma elements_tmerge l r :
  elements_of (tmerge higher l r) = elements_of l ++ elements_of r.
Proof.
  revert r. induction l as [|ll IHll lk lv lr IHlr]; intros r; [done|].
  induction r as [|rl IHrl rk rv rr IHrr]; simpl; [by rewrite app_nil_r|].
  destruct (higher lk rk); simpl.
  - rewrite IHlr. simpl. by rewrite <- !app_assoc.
  - simpl in IHrl. rewrite IHrl. by rewrite <- !app_assoc.
Qed.

Lemma elements_attach_left l k v r :
  elements_of (attach_left higher l k v r) = elements_of l ++ (k, v) :: elements_of r.
Proof.
  destruct l as [|tl tk tv tr]; simpl; [done|].
  destruct (higher tk k); simpl; [|done]. by rewrite <- app_assoc.
Qed.

Lemma elements_attach_right l k v r :
  elements_of (attach_right higher l k v r) = elements_of l ++ (k, v) :: elements_of r.
Proof.
  destruct r as [|tl tk tv tr]; simpl; [done|].
  destruct (higher tk k); simpl; [|done]. by rewrite <- app_assoc.
Qed.

Lemma upd_same k v (l : list (Bytes * Id)) :
  increasing l.*1 → (k, v) ∈ l → upd k (Some v) l = l.
Proof.
  induction l as [|[k' v'] l IH]; simpl; [set_solver|]. intros [Hall Hl].
  intros [[= -> ->]|Hin]%elem_of_cons; [by rewrite bool_decide_eq_true_2|].
  assert (lex_lt k' k) as Hlt.
  { eapply Forall_forall in Hall; [exact Hall|]. apply list_elem_of_fmap.
    by exists (k, v). }
  rewrite bool_decide_eq_false_2; [|intros ->; by apply (irreflexivity lex_lt k')].
  destruct (lex_ltb k k') eqn:E; [by destruct (lex_lt_asym k k')|]. by rewrite IH.
Qed.

Lemma upd_absent k (l : list (Bytes * Id)) : k ∉ l.*1 → upd k None l = l.
Proof.
  induction l as [|[k' v'] l IH]; simpl; [done|]. intros Hk.
  rewrite bool_decide_eq_false_2 by set_solver.
  destruct (lex_ltb k k'); [done|]. rewrite IH by set_solver. done.
Qed.

(** The listing of an updated tree is the updated listing. *)
Lemma elements_tset_opt t k v :
  bst t →
  match tset_opt higher t k v with
  | Some t' => elements_of t' = upd k v (elements_of t)
  | None => upd k v (elements_of t) = elements_of t
  end.
Proof.
  induction t as [|l IHl k' v' r IHr]; intros Hb; simpl.
  { by destruct v. }
  apply bst_Branch in Hb as Hb'. destruct Hb' as (Hl & Hr & Hlt & Hgt).
  assert (Forall (λ x, lex_lt x k') (elements_of l).*1) as Hall
    by (apply Forall_forall; exact Hlt).
  case_bool_decide as Hk.
  { subst k'. rewrite upd_app_gt by done. simpl. rewrite bool_decide_eq_true_2 by done.
    destruct v as [w|]; simpl; [|apply elements_tmerge].
    case_bool_decide as Hv; [by subst w|done]. }
  destruct (lex_ltb k k') eqn:E.
  - rewrite upd_app_lt by done. specialize (IHl Hl).
    destruct (tset_opt higher l k v) as [l'|]; simpl.
    + by rewrite elements_attach_left, IHl.
    + by rewrite IHl.
  - assert (lex_lt k' k) as Hgt'.
    { by apply lex_gt_cases. }
    rewrite upd_app_gt.
    2:{ eapply Forall_impl; [exact Hall|]. intros x Hx. simpl in *. by etrans. }
    simpl. rewrite bool_decide_eq_false_2, E by done. specialize (IHr Hr).
    destruct (tset_opt higher r k v) as [r'|]; simpl.
    + by rewrite elements_attach_right, IHr.
    + by rewrite IHr.
Qed.

Lemma elements_tset t k v :
  bst t → elements_of (tset higher t k v) = upd k v (elements_of t).
Proof.
  intros Hb. pose proof (elements_tset_opt t k v Hb) as H. unfold tset.
  by destruct (tset_opt higher t k v).
Qed.

Lemma bst_tset t k v : bst t → bst (tset higher t k v).
Proof.
  intros Hb. unfold bst, keys_of. rewrite elements_tset by done. by apply increasing_upd.
Qed.

Lemma to_map_tset t k v :
  bst t →
  to_map (tset higher t k v) =
  match v with Some w => <[k := w]> (to_map t) | None => delete k (to_map t) end.
Proof.
  intros Hb. unfold to_map. rewrite elements_tset by done. by apply list_to_map_upd.
Qed.

Lemma keys_tset t k v x : bst t → x ∈ keys_of (tset higher t k v) → x = k ∨ x ∈ keys_of t.
Proof. intros Hb. unfold keys_of. rewrite elements_tset by done. apply upd_keys. Qed.

(** A batch of changes on the map, in any order of distinct keys. *)
Definition patch (changes : list (Bytes * option Id)) (m : gmap Bytes Id) : gmap Bytes Id :=
  foldl (λ m '(k, v), match v with Some w => <[k := w]> m | None => delete k m end) m changes.

Lemma patch_cons k v l m :
  patch ((k, v) :: l) m =
  patch l (match v with Some w => <[k := w]> m | None => delete k m end).
Proof. done. Qed.

Lemma bst_tset_all t changes : bst t → bst (tset_all higher t changes).
Proof.
  revert t. induction changes as [|[k v] l IH]; intros t Hb; simpl; [done|].
  by apply IH, bst_tset.
Qed.

Lemma to_map_tset_all t changes :
  bst t → to_map (tset_all higher t changes) = patch changes (to_map t).
Proof.
  revert t. induction changes as [|[k v] l IH]; intros t Hb; [done|].
  rewrite patch_cons. cbn [tset_all]. rewrite IH by (by apply bst_tset).
  f_equal. by apply to_map_tset.
Qed.

Lemma patch_lookup_ne k changes m :
  k ∉ changes.*1 → patch changes m !! k = m !! k.
Proof.
  clear higher.
  revert m. induction changes as [|[k' v] l IH]; intros m Hk; [done|].
  rewrite patch_cons, IH by set_solver.
  destruct v; [apply lookup_insert_ne|apply lookup_delete_ne]; set_solver.
Qed.

(** Looking a key up after a batch. *)
Lemma patch_in_order (changes : gmap Bytes (option Id)) m k :
  patch (in_order changes) m !! k =
  match changes !! k with Some v => v | None => m !! k end.
Proof.
  clear higher.
  assert (∀ l : list (Bytes * option Id), NoDup l.*1 →
    (∀ m, ∀ v, (k, v) ∈ l → patch l m !! k = v)) as Hin.
  { intros l. induction l as [|[k' v'] l IH]; intros Hnd m' v Hv; [set_solver|].
    simpl in Hnd. apply NoDup_cons in Hnd as [Hk' Hnd].
    apply elem_of_cons in Hv as [[= <- <-]|Hv].
    - rewrite patch_cons, patch_lookup_ne by done.
      destruct v; [apply lookup_insert_eq|apply lookup_delete_eq].
    - rewrite patch_cons. by apply IH. }
  destruct (changes !! k) as [v|] eqn:Hk.
  - apply Hin; [apply NoDup_in_order_keys|]. by apply elem_of_in_order.
  - apply patch_lookup_ne. intros ([k' v] & -> & Hv)%list_elem_of_fmap.
    apply elem_of_in_order in Hv. simpl in Hk. congruence.
Qed.
End Facts.

(** ** Heaps *)

Section HeapFacts.
Context (higher : Bytes → Bytes → bool) `{!PriorityOrder higher}.

Lemma higher_asym a b : higher a b = true → higher b a = true → False.
Proof. intros H1 H2. pose proof (higher_trans _ _ _ H1 H2). by rewrite higher_irrefl in H. Qed.

Definition beats_all (k : Bytes) (t : tree) : Prop :=
  ∀ x, x ∈ keys_of t → higher k x = true.

Lemma heap_beats_all k t : heap higher t → beats higher k t → beats_all k t.
Proof.
  revert k. induction t as [|l IHl k' v r IHr]; intros k Hh Hb x; [set_solver|].
  rewrite keys_of_Branch, elem_of_app, elem_of_cons.
  destruct Hh as (H1 & H2 & H3 & H4). simpl in Hb.
  intros [Hx|[->|Hx]]; [|done|]; eapply higher_trans; try exact Hb.
  - by apply IHl.
  - by apply IHr.
Qed.

Lemma beats_all_beats k t : beats_all k t → beats higher k t.
Proof.
  destruct t as [|l k' v r]; [done|]. intros H. apply H.
  rewrite keys_of_Branch. set_solver.
Qed.

Lemma heap_Branch l k v r :
  heap higher (Branch l k v r) ↔
  beats_all k l ∧ beats_all k r ∧ heap higher l ∧ heap higher r.
Proof.
  simpl. split.
  - intros (?&?&?&?). split_and!; auto using heap_beats_all.
  - intros (?&?&?&?). split_and!; auto using beats_all_beats.
Qed.

Lemma keys_tmerge l r : keys_of (tmerge higher l r) = keys_of l ++ keys_of r.
Proof. unfold keys_of. by rewrite elements_tmerge, fmap_app. Qed.

Lemma heap_tmerge l r :
  (∀ x, x ∈ keys_of l → x ∈ keys_of r → False) →
  heap higher l → heap higher r → heap higher (tmerge higher l r).
Proof.
  revert r. induction l as [|ll IHll lk lv lr IHlr]; intros r Hd Hl Hr; [done|].
  induction r as [|rl IHrl rk rv rr IHrr]; [done|].
  change (tmerge higher (Branch ll lk lv lr) (Branch rl rk rv rr)) with
    (if higher lk rk then Branch ll lk lv (tmerge higher lr (Branch rl rk rv rr))
     else Branch (tmerge higher (Branch ll lk lv lr) rl) rk rv rr).
  destruct (higher lk rk) eqn:E.
  - apply heap_Branch in Hl as (H1 & H2 & H3 & H4).
    apply heap_Branch. split_and!; [done| |done|].
    + intros x. rewrite keys_tmerge, elem_of_app. intros [Hx|Hx]; [auto|].
      by apply (heap_beats_all lk (Branch rl rk rv rr)).
    + apply IHlr; [|done..]. intros x Hx. apply Hd. rewrite keys_of_Branch. set_solver.
  - apply heap_Branch in Hr as (H1 & H2 & H3 & H4).
    apply heap_Branch. split_and!; [|done| |done].
    + intros x. rewrite keys_tmerge, elem_of_app. intros [Hx|Hx]; [|auto].
      assert (higher rk lk = true) as Hrl.
      { destruct (higher_total lk rk); [|congruence|done]. intros ->.
        apply (Hd rk); rewrite keys_of_Branch; set_solver. }
      by apply (heap_beats_all rk (Branch ll lk lv lr)).
    + apply IHrl; [|done]. intros x Hx Hx'. apply (Hd x Hx).
      rewrite keys_of_Branch. set_solver.
Qed.

(** Attaching a child in which only the key [k] may outrank the parent. *)
Lemma heap_attach_left k l k' v' r :
  NoDup (keys_of l) → k' ∉ keys_of l →
  heap higher l → heap higher r → beats_all k' r →
  (∀ x, x ∈ keys_of l → x ≠ k → higher k' x = true) →
  heap higher (attach_left higher l k' v' r).
Proof.
  intros Hnd Hk' Hl Hr Hbr Hbl. destruct l as [|tl tk tv tr]; simpl attach_left.
  { apply heap_Branch. split_and!; [|done..]. intros x. set_solver. }
  rewrite keys_of_Branch in Hnd, Hk', Hbl.
  apply heap_Branch in Hl as (H1 & H2 & H3 & H4).
  destruct (higher tk k') eqn:E.
  - assert (tk = k) as ->.
    { destruct (decide (tk = k)) as [|Hne]; [done|]. exfalso.
      eapply higher_asym; [exact E|]. apply Hbl; set_solver. }
    apply NoDup_app in Hnd as (_ & Hnl & Hnd). apply NoDup_cons in Hnd as [Hnr _].
    assert (beats_all k' tr) as Htr.
    { intros x Hx. apply Hbl; [set_solver|]. by intros ->. }
    apply heap_Branch. split_and!; [done| |done|by apply heap_Branch].
    intros x. rewrite keys_of_Branch, elem_of_app, elem_of_cons.
    intros [Hx|[->|Hx]]; [auto|done|]. eapply higher_trans; [exact E|auto].
  - apply heap_Branch. split_and!; [|done| |done]; [|by apply heap_Branch].
    assert (higher k' tk = true) as Hk.
    { destruct (higher_total k' tk); [|done|congruence]. intros ->. set_solver. }
    by apply (heap_beats_all k' (Branch tl tk tv tr)); [apply heap_Branch|].
Qed.

Lemma heap_attach_right k l k' v' r :
  NoDup (keys_of r) → k' ∉ keys_of r →
  heap higher l → heap higher r → beats_all k' l →
  (∀ x, x ∈ keys_of r → x ≠ k → higher k' x = true) →
  heap higher (attach_right higher l k' v' r).
Proof.
  intros Hnd Hk' Hl Hr Hbl Hbr. destruct r as [|tl tk tv tr]; simpl attach_right.
  { apply heap_Branch. split_and!; [done| |done..]. intros x. set_solver. }
  rewrite keys_of_Branch in Hnd, Hk', Hbr.
  apply heap_Branch in Hr as (H1 & H2 & H3 & H4).
  destruct (higher tk k') eqn:E.
  - assert (tk = k) as ->.
    { destruct (decide (tk = k)) as [|Hne]; [done|]. exfalso.
      eapply higher_asym; [exact E|]. apply Hbr; set_solver. }
    apply NoDup_app in Hnd as (_ & Hnl & Hnd).
    assert (beats_all k' tl) as Htl.
    { intros x Hx. apply Hbr; [set_solver|]. intros ->. apply (Hnl k Hx). left. }
    apply heap_Branch. split_and!; [|done| |done]; [|by apply heap_Branch].
    intros x. rewrite keys_of_Branch, elem_of_app, elem_of_cons.
    intros [Hx|[->|Hx]]; [|done|auto]. eapply higher_trans; [exact E|auto].
  - apply heap_Branch. split_and!; [done| |done|]; [|by apply heap_Branch].
    assert (higher k' tk = true) as Hk.
    { destruct (higher_total k' tk); [|done|congruence]. intros ->. set_solver. }
    by apply (heap_beats_all k' (Branch tl tk tv tr)); [apply heap_Branch|].
Qed.

Lemma heap_tset_opt t k v t' :
  bst t → heap higher t → tset_opt higher t k v = Some t' → heap higher t'.
Proof.
  revert t'. induction t as [|l IHl k' v' r IHr]; intros t' Hb Hh; simpl.
  { destruct v; simpl; [|done]. by intros [= <-]. }
  apply heap_Branch in Hh as (H1 & H2 & H3 & H4).
  apply bst_Branch in Hb as (Hl & Hr & Hlt & Hgt).
  case_bool_decide as Hk.
  { destruct v as [w|].
    - case_bool_decide; [done|]. intros [= <-]. by apply heap_Branch.
    - intros [= <-]. apply heap_tmerge; [|done..]. intros x Hx Hx'.
      apply Hlt in Hx. apply Hgt in Hx'. by destruct (lex_lt_asym x k'). }
  destruct (lex_ltb k k') eqn:E.
  - destruct (tset_opt higher l k v) as [l'|] eqn:El; simpl; [|done]. intros [= <-].
    assert (l' = tset higher l k v) as Hl' by (unfold tset; by rewrite El).
    assert (∀ x, x ∈ keys_of l' → x = k ∨ x ∈ keys_of l) as Hkeys.
    { intros x. rewrite Hl'. by apply keys_tset. }
    apply (heap_attach_left k); [|..|by apply IHl|done|done|].
    + rewrite Hl'. by apply bst_NoDup, bst_tset.
    + intros [->|Hx]%Hkeys; [done|]. apply Hlt in Hx. by destruct (irreflexivity lex_lt k').
    + intros x [->|Hx]%Hkeys; [done|]. auto.
  - destruct (tset_opt higher r k v) as [r'|] eqn:Er; simpl; [|done]. intros [= <-].
    assert (r' = tset higher r k v) as Hr' by (unfold tset; by rewrite Er).
    assert (∀ x, x ∈ keys_of r' → x = k ∨ x ∈ keys_of r) as Hkeys.
    { intros x. rewrite Hr'. by apply keys_tset. }
    apply (heap_attach_right k); [|..|done|by apply IHr|done|].
    + rewrite Hr'. by apply bst_NoDup, bst_tset.
    + intros [->|Hx]%Hkeys; [done|]. apply Hgt in Hx. by destruct (irreflexivity lex_lt k').
    + intros x [->|Hx]%Hkeys; [done|]. auto.
Qed.

Lemma treap_tset t k v : treap higher t → treap higher (tset higher t k v).
Proof.
  intros [Hb Hh]. split; [by apply bst_tset|]. unfold tset.
  destruct (tset_opt higher t k v) as [t'|] eqn:E; simpl; [|done].
  by eapply heap_tset_opt.
Qed.

Lemma split_unique (a a' b b' : list (Bytes * Id)) x x' :
  a ++ x :: b = a' ++ x' :: b' → x.1 = x'.1 → x.1 ∉ a.*1 → x'.1 ∉ a'.*1 →
  a = a' ∧ x = x' ∧ b = b'.
Proof.
  revert a'. induction a as [|y a IH]; intros [|y' a'] He Hx Ha Ha'; simplify_eq/=.
  - done.
  - set_solver.
  - set_solver.
  - destruct (IH a') as (-> & -> & ->); set_solver.
Qed.

Lemma treap_tset_all t changes : treap higher t → treap higher (tset_all higher t changes).
Proof.
  revert t. induction changes as [|[k v] l IH]; intros t Ht; simpl; [done|].
  by apply IH, treap_tset.
Qed.

(** Two treaps with the same listing are the same tree. *)
Lemma treap_unique t1 t2 :
  treap higher t1 → treap higher t2 → elements_of t1 = elements_of t2 → t1 = t2.
Proof.
  revert t2. induction t1 as [|l1 IHl k1 v1 r1 IHr]; intros t2 [Hb1 Hh1] [Hb2 Hh2] He.
  { destruct t2 as [|l2 k2 v2 r2]; [done|]. simpl in He. by destruct (elements_of l2). }
  destruct t2 as [|l2 k2 v2 r2]; [simpl in He; by destruct (elements_of l1)|].
  assert (keys_of (Branch l1 k1 v1 r1) = keys_of (Branch l2 k2 v2 r2)) as Hk
    by (unfold keys_of; by rewrite He).
  apply bst_NoDup in Hb1 as Hnd.
  apply heap_Branch in Hh1 as (H1 & H2 & H3 & H4).
  apply heap_Branch in Hh2 as (H5 & H6 & H7 & H8).
  rewrite !keys_of_Branch in Hk. rewrite keys_of_Branch in Hnd.
  assert (k1 = k2) as ->.
  { destruct (decide (k1 = k2)) as [|Hne]; [done|]. exfalso.
    apply (higher_asym k1 k2).
    - assert (k2 ∈ keys_of l1 ++ k1 :: keys_of r1) as Hin by (rewrite Hk; set_solver).
      apply elem_of_app in Hin as [|[->|]%elem_of_cons]; auto.
    - assert (k1 ∈ keys_of l2 ++ k2 :: keys_of r2) as Hin by (rewrite <- Hk; set_solver).
      apply elem_of_app in Hin as [|[->|]%elem_of_cons]; auto. }
  apply bst_Branch in Hb1 as (Hl1 & Hr1 & Hlt1 & _).
  apply bst_Branch in Hb2 as (Hl2 & Hr2 & Hlt2 & _).
  simpl in He. apply split_unique in He as (He1 & [= ->] & He2); [|done|..].
  - f_equal; [apply IHl|apply IHr]; done.
  - intros Hx%Hlt1. by destruct (irreflexivity lex_lt k2).
  - intros Hx%Hlt2. by destruct (irreflexivity lex_lt k2).
Qed.

(** The treap of a map is unique: its shape does not depend on its history. *)
Lemma treap_canonical t1 t2 :
  treap higher t1 → treap higher t2 → to_map t1 = to_map t2 → t1 = t2.
Proof.
  intros H1 H2 Hm. apply treap_unique; [done..|].
  rewrite <- !in_order_to_map by apply H1 || apply H2. by rewrite Hm.
Qed.
End HeapFacts.
