(* ===== verification/Journal.v ===== *)
(** * The single-file journal ([daemon/journal.cpp], [daemon/journal.h])

    An append-only log of checksummed records inside fixed-size segments.
    [Module Journal] translates the record and segment codecs, the replay performed by
    the constructor, the checkpoint restore, and the operations [put], [transact],
    [checkpoint], [get], [keys] and [verify] of the file-backed class.  The file is a
    list of bytes behind a device whose every write, truncation and sync either
    completes or fails part way, so that a crash is a failed operation followed by a
    reopen.  Offsets and sequence numbers are unbounded integers: the guards on
    [UINT64_MAX] and on the largest file offset are those of the code, and below them
    its unsigned arithmetic does not wrap. *)

From S2P Require Import Prelude Codec.
Local Open Scope Z_scope.

Module Journal.

Definition base : Z := 65536.
Definition span : Z := 16 * 1024 * 1024.
Definition header : Z := 4096.
Definition max_payload : Z := 256 * 1024.
Definition OFF_MAX : Z := INT64_MAX.

(** ** The device *)

(** What the next operation on the file does: complete, or stop after writing some
    bytes and report an error. *)
Inductive outcome := Done | Torn (written : nat).

(** The contents seen by reads, the contents that survive a loss of power, and the
    outcomes of the operations to come (all complete when the list runs out). *)
Record device := mkDevice { file : Bytes; durable : Bytes; script : list outcome }.

Definition next_outcome (d : device) : outcome := default Done (head (script d)).
Definition with_file (f : Bytes) (d : device) : device :=
  mkDevice f (durable d) (tail (script d)).

(** [pwrite] of a whole buffer; a gap past the end of the file reads as zeros. *)
Definition pwrite (f : Bytes) (at_ : Z) (b : Bytes) : Bytes :=
  let a := Z.to_nat at_ in
  if bool_decide (b = []) then f
  else take a (f ++ zeros (a - length f)) ++ b ++ drop (a + length b) f.

Definition write_bytes (at_ : Z) (b : Bytes) : ST device unit := λ d,
  match next_outcome d with
  | Torn k => (with_file (pwrite (file d) at_ (take k b)) d, Err "write journal")
  | Done => (with_file (pwrite (file d) at_ b) d, Ok tt)
  end.

(** [ftruncate] to a size not beyond the file, with the caller's error message. *)
Definition truncate (size : Z) (msg : string) : ST device unit := λ d,
  match next_outcome d with
  | Torn _ => (with_file (file d) d, Err msg)
  | Done => (with_file (take (Z.to_nat size) (file d)) d, Ok tt)
  end.

Definition sync_file : ST device unit := λ d,
  match next_outcome d with
  | Torn _ => (with_file (file d) d, Err "sync journal")
  | Done => (mkDevice (file d) (file d) (tail (script d)), Ok tt)
  end.

Definition read_bytes (f : Bytes) (at_ n : Z) : result Bytes :=
  if at_ + n <=? len f then Ok (slice (Z.to_nat at_) (Z.to_nat n) f)
  else Err "short journal read".

(** ** Records *)

Definition record_magic : Bytes := bs "FFR0".
Definition record_end : Bytes := bs "FFREND00".

(** [size_t len=(64+payload.size()+7)/8*8+16] *)
Definition record_length (n : Z) : Z := (64 + n + 7) / 8 * 8 + 16.

(** [Bytes record(uint16_t type,uint64_t seq,const Bytes& payload,const Hash& oid={})] *)
Definition record (type seq : Z) (payload : Bytes) (oid : Id) : Bytes :=
  let length_ := record_length (len payload) in
  let at_end k := Z.to_nat (length_ - k) in
  let b := zeros (Z.to_nat length_) in
  let b := memcpy b 0 record_magic in
  let b := memcpy b 4 (store type 2) in
  let b := memcpy b 6 (store 1 2) in
  let b := memcpy b 8 (store length_ 4) in
  let b := memcpy b 12 (store (len payload) 4) in
  let b := memcpy b 16 (store seq 8) in
  let b := memcpy b 24 oid in
  let b := memcpy b 60 (store (crc (take 60 b)) 4) in
  let b := memcpy b 64 payload in
  let b := memcpy b (at_end 16) (store (crc payload) 4) in
  let b := memcpy b (at_end 12) (store length_ 4) in
  memcpy b (at_end 8) record_end.

Record Rec := mkRec {
  type : Z; rseq : Z; offset : Z; oid : Id; rpayload : Bytes; encoded : Bytes
}.

Definition all_zero (b : Bytes) : bool := forallb (λ c, b2z c =? 0) b.

(** [bool read_record(int fd,uint64_t at,uint64_t size,Rec& out)]: [Ok None] is the
    recoverable incomplete tail. *)
Definition read_record (f : Bytes) (at_ size : Z) : result (option Rec) :=
  need (at_ <=? size) "record offset past EOF";;
  if size - at_ <? 64 then Ok None else
  h ← read_bytes f at_ 64;
  need (bytes_eqb (slice 0 4 h) record_magic) "invalid record magic";;
  need (load (drop 60 h) 4 =? crc (take 60 h)) "invalid record header checksum";;
  let length_ := load (drop 8 h) 4 in
  let n := load (drop 12 h) 4 in
  need ((80 <=? length_) && (length_ <=? 1024 * 1024) && (length_ mod 8 =? 0)
        && (n <=? length_ - 80) && (length_ =? record_length n)) "invalid record length";;
  need (length_ <=? span - (at_ - base) mod span) "record crosses segment boundary";;
  if size - at_ <? length_ then Ok None else
  b ← read_bytes f at_ length_;
  let at_end k := Z.to_nat (length_ - k) in
  need ((load (drop 6 b) 2 =? 1) && (load (drop 56 b) 4 =? 0))
    "unsupported record schema or flags";;
  need ((load (drop (at_end 12) b) 4 =? length_)
        && bytes_eqb (slice (at_end 8) 8 b) record_end) "invalid record trailer";;
  need (load (drop (at_end 16) b) 4 =? crc (slice 64 (Z.to_nat n) b))
    "invalid payload checksum";;
  need (all_zero (slice (64 + Z.to_nat n) (Z.to_nat (length_ - 16 - (64 + n))) b))
    "nonzero record padding";;
  Ok (Some (mkRec (load (drop 4 b) 2) (load (drop 16 b) 8) at_ (slice 24 32 b)
              (slice 64 (Z.to_nat n) b) b)).

(** [Bytes segment_header(const std::array<unsigned char,16>& repo,uint64_t id)] *)
Definition segment_header (repo : Bytes) (id : Z) : Bytes :=
  let b := zeros 4096 in
  let b := memcpy b 0 (bs "FFSEG000") in
  let b := memcpy b 8 repo in
  let b := memcpy b 24 (store id 8) in
  let b := memcpy b 32 (store 1 8) in
  memcpy b 4092 (store (crc (take 4092 b)) 4).

(** ** The journal *)

Record Location := mkLocation { payload : Z; length_ : Z }.

Record Checkpoint := mkCheckpoint {
  c_offset : Z; c_length : Z; c_sequence : Z; c_replay_start : Z; c_hash : Id
}.
Definition no_checkpoint : Checkpoint := mkCheckpoint 0 0 0 65536 zero_id.

Record Mutation := mkMutation {
  m_key : Bytes; m_value : option Bytes; m_reference : option Id
}.

Record journal := mkJournal {
  repository_ : Bytes;
  seq_ : Z;
  end_ : Z;
  last_hash_ : Id;
  roots_ : gmap Bytes Id;
  objects_ : gmap Id Location;
  replayed_ : Z;
  tail_ : bool;
  poisoned_ : bool;
}.

Definition fresh (repo : Bytes) : journal :=
  mkJournal repo 0 65536 zero_id ∅ ∅ 0 false false.
Definition set_end (e : Z) (j : journal) : journal :=
  mkJournal (repository_ j) (seq_ j) e (last_hash_ j) (roots_ j) (objects_ j) (replayed_ j)
    (tail_ j) (poisoned_ j).
Definition set_tail (t : bool) (j : journal) : journal :=
  mkJournal (repository_ j) (seq_ j) (end_ j) (last_hash_ j) (roots_ j) (objects_ j)
    (replayed_ j) t (poisoned_ j).

(** [roots_] after the changes of a transaction. *)
Definition apply_changes (roots : gmap Bytes Id) (changes : gmap Bytes (option Id))
    : gmap Bytes Id :=
  foldl (λ r '(k, v), match v with Some id => <[k := id]> r | None => delete k r end)
    roots (in_order changes).
(** [objects_] after the pending objects of a transaction. *)
Definition add_objects (objects pending : gmap Id Location) : gmap Id Location :=
  foldl (λ o '(id, loc), <[id := loc]> o) objects (in_order pending).
(** [std::map::emplace] *)
Definition emplace {V} (k : Bytes) (v : V) (m : gmap Bytes V) : gmap Bytes V :=
  match m !! k with Some _ => m | None => <[k := v]> m end.

Section WithDigest.
Context `{Digest}.

Definition commit_tag : Bytes := bs "forkfs.commit.v0".

(** ** Replay *)

Record loop := mkLoop {
  at_ : Z; phase : Z; begin_ : Z; prepare_at : Z; prep : Rec;
  pending_objects : gmap Id Location; changes : gmap Bytes (option Id); batch : Bytes;
  j_ : journal
}.

Definition no_rec : Rec := mkRec 0 0 0 zero_id [] [].
Definition loop_at (a : Z) (l : loop) : loop :=
  mkLoop a (phase l) (begin_ l) (prepare_at l) (prep l) (pending_objects l) (changes l)
    (batch l) (j_ l).

(** The loop over the entries of a type 7 or 8 prepare record. *)
Fixpoint batch_entries (n : nat) (first : bool) (rtype : Z) (p : Bytes) (j : journal)
    (pending : gmap Id Location) (cursor : nat) (previous : Bytes)
    (changes : gmap Bytes (option Id)) (referenced : gset Id)
    : result (nat * gmap Bytes (option Id) * gset Id) :=
  match n with
  | O => Ok (cursor, changes, referenced)
  | S n' =>
      need ((Z.of_nat cursor <=? len p) && (8 <=? len p - Z.of_nat cursor))
        "truncated batch entry";;
      let op := load (drop cursor p) 4 in
      let kn := load (drop (cursor + 4) p) 4 in
      let cursor := (cursor + 8)%nat in
      need (((op =? 1) || (op =? 2)) && (0 <? kn) && (kn <=? 1024)
            && (kn + 32 <=? len p - Z.of_nat cursor)) "invalid batch entry";;
      let key := slice cursor (Z.to_nat kn) p in
      let cursor := (cursor + Z.to_nat kn)%nat in
      let id := slice cursor 32 p in
      let cursor := (cursor + 32)%nat in
      need (first || lex_ltb previous key) "batch keys must be unique and sorted";;
      if op =? 1 then
        need (bool_decide (is_Some (pending !! id))
              || ((rtype =? 8) && bool_decide (is_Some (objects_ j !! id))))
          "batch references missing object";;
        batch_entries n' false rtype p j pending cursor key (emplace key (Some id) changes)
          (if bool_decide (is_Some (pending !! id)) then {[id]} ∪ referenced else referenced)
      else
        need (bool_decide (id = zero_id) && bool_decide (is_Some (roots_ j !! key)))
          "invalid batch deletion";;
        batch_entries n' false rtype p j pending cursor key (emplace key None changes) referenced
  end.

(** The changes a prepare record announces. *)
Definition prepare_changes (r : Rec) (l : loop) : result (gmap Bytes (option Id)) :=
  let p := rpayload r in
  let j := j_ l in
  need (bool_decide (oid r = zero_id) && (36 <=? len p)) "invalid prepare record";;
  need (bytes_eqb (slice 0 32 p) (last_hash_ j)) "prepare predecessor mismatch";;
  if type r =? 2 then
    let n := load (drop 32 p) 4 in
    need ((0 <? n) && (n <=? 1024) && (len p =? 68 + n)
          && (size (pending_objects l) =? 1)%nat) "invalid legacy prepare";;
    let id := slice (36 + Z.to_nat n) 32 p in
    need (bool_decide (is_Some (pending_objects l !! id))) "prepare object mismatch";;
    Ok (emplace (slice 36 (Z.to_nat n) p) (Some id) (changes l))
  else
    need ((44 <=? len p) && (load (drop 32 p) 8 =? seq_ j))
      "batch sequence precondition mismatch";;
    let count := load (drop 40 p) 4 in
    need ((0 <? count) && (count <=? 64)) "invalid batch count";;
    '(cursor, changes, referenced) ←
      batch_entries (Z.to_nat count) true (type r) p j (pending_objects l) 44 [] (changes l) ∅;
    need ((Z.of_nat cursor =? len p)
          && (size (referenced : gset Id) =? size (pending_objects l))%nat) "extra batch data";;
    Ok changes.

(** The loop body on a complete record that is not a stray checkpoint. *)
Definition on_record (r : Rec) (l : loop) : result loop :=
  let j := j_ l in
  need (negb (seq_ j =? UINT64_MAX) && (rseq r =? seq_ j + 1)) "journal sequence gap";;
  let record_size := len (encoded r) in
  let l := if phase l =? 0
           then mkLoop (at_ l) (phase l) (at_ l) (prepare_at l) (prep l) ∅ ∅ [] (j_ l) else l in
  let p := rpayload r in
  l ← (if (phase l <? 2) && (type r =? 1) then
    need ((4 <=? len p) && (len p <=? max_payload + 4)) "invalid DATA size";;
    need ((load p 2 =? 4) && (load (drop 2 p) 2 =? 0)) "unsupported object type";;
    need (bool_decide (object_hash (drop 4 p) = oid r)) "object identity mismatch";;
    need ((size (pending_objects l) <? 64)%nat
          && bool_decide (pending_objects l !! oid r = None))
      "duplicate or excess batch objects";;
    Ok (mkLoop (at_ l) 1 (begin_ l) (prepare_at l) (prep l)
          (<[oid r := mkLocation (at_ l) record_size]> (pending_objects l))
          (changes l) (batch l ++ encoded r) (j_ l))
  else if (phase l <? 2) && ((type r =? 2) || (type r =? 7) || (type r =? 8)) then
    changes ← prepare_changes r l;
    Ok (mkLoop (at_ l) 2 (begin_ l) (at_ l) r (pending_objects l) changes
          (batch l ++ encoded r) (j_ l))
  else
    need ((phase l =? 2) && (type r =? 3) && bool_decide (oid r = zero_id) && (len p =? 136))
      "expected commit record";;
    need ((load p 8 =? rseq r) && bytes_eqb (slice 8 32 p) (last_hash_ j))
      "commit predecessor mismatch";;
    need ((load (drop 40 p) 8 =? prepare_at l) && (load (drop 48 p) 4 =? len (encoded (prep l)))
          && (load (drop 52 p) 4 =? 0)) "commit prepare location mismatch";;
    need (bytes_eqb (slice 56 32 p) (digest (rpayload (prep l)))
          && (load (drop 88 p) 8 =? begin_ l) && (load (drop 96 p) 8 =? at_ l)
          && bytes_eqb (slice 104 32 p) (digest (batch l))) "commit batch mismatch";;
    Ok (mkLoop (at_ l) 0 (begin_ l) (prepare_at l) (prep l) (pending_objects l) (changes l)
          (batch l)
          (mkJournal (repository_ j) (rseq r) (at_ l + record_size) (tagged commit_tag p)
             (apply_changes (roots_ j) (changes l))
             (add_objects (objects_ j) (pending_objects l))
             (replayed_ j + 1) (tail_ j) (poisoned_ j))));
  need (len (batch l) <=? 2 * 1024 * 1024) "transaction batch too large";;
  Ok (loop_at (at_ l + record_size) l).

(** One iteration of the [while] loop: [Ok None] is [break]. *)
Definition replay_step (f : Bytes) (l : loop) : result (option loop) :=
  let size := len f in
  let in_ := (at_ l - base) mod span in
  let j := j_ l in
  if in_ =? 0 then
    need (phase l =? 0) "transaction spans segments in unsupported profile";;
    if size - at_ l <? header then Ok None else
    h ← read_bytes f (at_ l) header;
    need (bytes_eqb h (segment_header (repository_ j) ((at_ l - base) / span)))
      "invalid segment header";;
    Ok (Some (loop_at (at_ l + header) l))
  else
    prefix ← read_bytes f (at_ l) (Z.min 4 (size - at_ l));
    if all_zero prefix then
      need (phase l =? 0) "padding inside transaction";;
      pad ← read_bytes f (at_ l) (Z.min (span - in_) (size - at_ l));
      need (all_zero pad) "invalid segment padding";;
      Ok (Some (loop_at (at_ l + len pad) l))
    else
      found ← read_record f (at_ l) size;
      match found with
      | None => Ok None
      | Some r =>
          if (phase l =? 0) && (type r =? 5) then
            need ((rseq r =? seq_ j) && bool_decide (oid r = zero_id) && (48 <=? len (rpayload r))
                  && (load (rpayload r) 8 =? seq_ j)
                  && bytes_eqb (slice 8 32 (rpayload r)) (last_hash_ j))
              "invalid checkpoint in replay";;
            Ok (Some (mkLoop (at_ l + len (encoded r)) (phase l) (begin_ l) (prepare_at l)
                        (prep l) (pending_objects l) (changes l) (batch l)
                        (set_end (at_ l + len (encoded r)) j)))
          else l' ← on_record r l; Ok (Some l')
      end.

(** The [while] loop: every iteration advances by at least one byte. *)
Fixpoint replay (fuel : nat) (f : Bytes) (l : loop) : result loop :=
  if at_ l <? len f then
    match fuel with
    | O => OutOfFuel
    | S fuel' =>
        next ← replay_step f l;
        match next with
        | None => Ok l
        | Some l' => replay fuel' f l'
        end
    end
  else Ok l.

(** ** Checkpoints *)

Fixpoint restore_objects (n : nat) (first : bool) (c : Checkpoint) (p : Bytes) (at_ : nat)
    (previous : Id) (objects : gmap Id Location) : result (nat * gmap Id Location) :=
  match n with
  | O => Ok (at_, objects)
  | S n' =>
      let id := slice at_ 32 p in
      let off := load (drop (at_ + 32) p) 8 in
      let length_ := load (drop (at_ + 40) p) 4 in
      need (bool_decide (id ≠ zero_id) && (first || lex_ltb previous id))
        "unordered checkpoint objects";;
      need ((base <=? off) && (off <? c_offset c) && (length_ <=? c_offset c - off)
            && (88 <=? length_) && (length_ <=? max_payload + 88)
            && (off mod 8 =? 0) && (length_ mod 8 =? 0)
            && (header <=? (off - base) mod span)
            && (length_ <=? span - (off - base) mod span)) "invalid object location";;
      restore_objects n' false c p (at_ + 44)%nat id (emplace id (mkLocation off length_) objects)
  end.

Fixpoint restore_roots (n : nat) (first : bool) (p : Bytes) (objects : gmap Id Location)
    (at_ : nat) (previous : Bytes) (roots : gmap Bytes Id) : result (nat * gmap Bytes Id) :=
  match n with
  | O => Ok (at_, roots)
  | S n' =>
      need ((Z.of_nat at_ <=? len p) && (4 <=? len p - Z.of_nat at_)) "truncated root index";;
      let kn := load (drop at_ p) 4 in
      let at_ := (at_ + 4)%nat in
      need ((0 <? kn) && (kn <=? 1024) && (kn + 32 <=? len p - Z.of_nat at_))
        "invalid root index entry";;
      let key := slice at_ (Z.to_nat kn) p in
      let at_ := (at_ + Z.to_nat kn)%nat in
      let id := slice at_ 32 p in
      let at_ := (at_ + 32)%nat in
      need ((first || lex_ltb previous key) && bool_decide (is_Some (objects !! id)))
        "invalid root reference";;
      restore_roots n' false p objects at_ key (emplace key id roots)
  end.

(** [void Journal::restore_checkpoint(const Checkpoint& c,uint64_t size)] on a new
    journal. *)
Definition restore_checkpoint (f : Bytes) (c : Checkpoint) (j : journal) : result journal :=
  let size := len f in
  need ((base <=? c_offset c) && (c_offset c <=? size) && (c_length c <=? size - c_offset c)
        && (c_replay_start c =? c_offset c + c_length c)) "invalid checkpoint range";;
  need (header <=? (c_offset c - base) mod span) "checkpoint overlaps segment header";;
  let seg := (c_offset c - base) / span in
  h ← read_bytes f (base + seg * span) header;
  need (bytes_eqb h (segment_header (repository_ j) seg)) "invalid checkpoint segment";;
  found ← read_record f (c_offset c) size;
  match found with
  | None => Err "invalid published checkpoint"
  | Some r =>
      need ((type r =? 5) && bool_decide (oid r = zero_id) && (rseq r =? c_sequence c)
            && (len (encoded r) =? c_length c) && bytes_eqb (digest (rpayload r)) (c_hash c))
        "invalid published checkpoint";;
      let p := rpayload r in
      need ((48 <=? len p) && (load p 8 =? c_sequence c)) "invalid checkpoint sequence";;
      let last_hash := slice 8 32 p in
      need (bool_decide (c_sequence c = 0 ↔ last_hash = zero_id))
        "invalid checkpoint commit identity";;
      let no := load (drop 40 p) 4 in
      let nr := load (drop 44 p) 4 in
      need ((no <=? (len p - 48) / 44) && (nr <=? (len p - 48 - no * 44) / 37))
        "invalid checkpoint counts";;
      '(at_, objects) ← restore_objects (Z.to_nat no) true c p 48 zero_id (objects_ j);
      '(at_, roots) ← restore_roots (Z.to_nat nr) true p objects at_ [] (roots_ j);
      need (Z.of_nat at_ =? len p) "unexpected checkpoint suffix";;
      Ok (mkJournal (repository_ j) (c_sequence c) (c_replay_start c) last_hash roots objects
            (replayed_ j) (tail_ j) (poisoned_ j))
  end.

(** [Journal::Journal(int fd,repo,const Checkpoint& checkpoint)] *)
Definition open (f : Bytes) (repo : Bytes) (c : Checkpoint) : result journal :=
  need (base <=? len f) "truncated container";;
  j ← (if c_offset c =? 0 then Ok (fresh repo) else restore_checkpoint f c (fresh repo));
  let at_ := end_ j in
  (if (base <? at_) && negb ((at_ - base) mod span =? 0) then
     let seg := (at_ - base) / span in
     h ← read_bytes f (base + seg * span) header;
     need (bytes_eqb h (segment_header repo seg)) "invalid replay segment"
   else Ok tt);;
  l ← replay (Z.to_nat (len f)) f (mkLoop at_ 0 0 0 no_rec ∅ ∅ [] j);
  Ok (set_tail (negb (len f =? end_ (j_ l))) (j_ l)).

(** ** Reading *)

(** [Journal::read_object] *)
Definition read_object (f : Bytes) (j : journal) (id : Id) : result Bytes :=
  match objects_ j !! id with
  | None => Err "object not indexed"
  | Some loc =>
      found ← read_record f (payload loc) (payload loc + length_ loc);
      match found with
      | None => Err "invalid indexed object"
      | Some r =>
          let p := rpayload r in
          need ((type r =? 1) && (len (encoded r) =? length_ loc) && (0 <? rseq r)
                && (rseq r <=? seq_ j) && bool_decide (oid r = id) && (4 <=? len p)
                && (len p <=? max_payload + 4) && (load p 2 =? 4) && (load (drop 2 p) 2 =? 0))
            "invalid indexed object";;
          let value := drop 4 p in
          need (bool_decide (object_hash value = id)) "indexed object hash mismatch";;
          Ok value
      end
  end.

Definition alive (j : journal) : result unit :=
  need (negb (poisoned_ j)) "journal requires reopen after write failure".

Definition root_object (j : journal) (key : Bytes) : result Id :=
  alive j;;
  match roots_ j !! key with Some id => Ok id | None => Err "object root not found" end.
Definition get_object (f : Bytes) (j : journal) (id : Id) : result Bytes :=
  alive j;; read_object f j id.
Definition contains (j : journal) (key : Bytes) : result bool :=
  alive j;; Ok (bool_decide (is_Some (roots_ j !! key))).
Definition get (f : Bytes) (j : journal) (key : Bytes) : result Bytes :=
  alive j;;
  match roots_ j !! key with Some id => read_object f j id | None => Err "object root not found" end.

(** [lower_bound] and the loop of [keys]. *)
Fixpoint lower_bound (prefix : Bytes) (l : list Bytes) : list Bytes :=
  match l with
  | [] => []
  | k :: rest => if lex_ltb k prefix then lower_bound prefix rest else l
  end.
Fixpoint while_prefix (prefix : Bytes) (l : list Bytes) : list Bytes :=
  match l with
  | [] => []
  | k :: rest => if starts_with prefix k then k :: while_prefix prefix rest else []
  end.
Definition keys (j : journal) (prefix : Bytes) : result (list Bytes) :=
  alive j;; Ok (while_prefix prefix (lower_bound prefix (in_order (roots_ j)).*1)).

Fixpoint verify_objects (f : Bytes) (j : journal) (ids : list Id) : result unit :=
  match ids with
  | [] => Ok tt
  | id :: rest => read_object f j id;; verify_objects f j rest
  end.
Definition verify (f : Bytes) (j : journal) : result unit :=
  alive j;; verify_objects f j (in_order (objects_ j)).*1.

(** ** Writing *)

Record world := mkWorld { dev : device; jnl : journal }.

Definition on_device {A} (m : ST device A) : ST world A := λ w,
  let '(d, r) := m (dev w) in (mkWorld d (jnl w), r).

Definition poison (j : journal) : journal :=
  mkJournal (repository_ j) (seq_ j) (end_ j) (last_hash_ j) (roots_ j) (objects_ j)
    (replayed_ j) (tail_ j) true.

(** [try {...} catch(...) { poisoned_=true; throw; }] *)
Definition poison_on_error {A} (m : ST world A) : ST world A := λ w,
  match m w with
  | (w', Ok a) => (w', Ok a)
  | (w', r) => (mkWorld (dev w') (poison (jnl w')), r)
  end.

Definition drop_tail (msg : string) : ST world unit :=
  j ← gets jnl;
  if tail_ j then on_device (truncate (end_ j) msg);; on_device sync_file else mret tt.

(** Where the next batch of [required] bytes goes: whether it starts a segment, and
    the offset where that segment (or the batch) starts. *)
Definition placement (j : journal) (required : Z) : bool * Z :=
  let at_ := end_ j in
  let in_ := (at_ - base) mod span in
  let new_segment := (in_ =? 0) || (span - in_ <? required) in
  (new_segment, if new_segment && negb (in_ =? 0) then at_ + (span - in_) else at_).

Definition start_segment (new_segment : bool) (at_ : Z) : ST world unit :=
  if new_segment then
    j ← gets jnl;
    (if end_ j <? at_
     then on_device (write_bytes (end_ j) (zeros (Z.to_nat (at_ - end_ j)))) else mret tt);;
    on_device (write_bytes at_ (segment_header (repository_ j) ((at_ - base) / span)))
  else mret tt.

(** The 136-byte payload of a commit record. *)
Definition commit_payload (j : journal) (prepare_at prepare_size begin_ : Z)
    (pp batch : Bytes) : Bytes :=
  let cp := zeros 136 in
  let cp := memcpy cp 0 (store (seq_ j + 1) 8) in
  let cp := memcpy cp 8 (last_hash_ j) in
  let cp := memcpy cp 40 (store prepare_at 8) in
  let cp := memcpy cp 48 (store prepare_size 4) in
  let cp := memcpy cp 56 (digest pp) in
  let cp := memcpy cp 88 (store begin_ 8) in
  let cp := memcpy cp 96 (store (begin_ + len batch) 8) in
  memcpy cp 104 (digest batch).

(** The durable publication shared by [put] and [transact]: truncate a stale tail,
    start a segment when needed, write the batch, sync, write the commit, sync, and
    only then install the next in-memory state. *)
Definition publish (new_segment : bool) (at_ begin_ : Z) (batch commit : Bytes)
    (next : journal → journal) : ST world unit :=
  poison_on_error (
    drop_tail "truncate uncommitted tail";;
    start_segment new_segment at_;;
    on_device (write_bytes begin_ batch);;
    on_device sync_file;;
    on_device (write_bytes (begin_ + len batch) commit);;
    on_device sync_file;;
    modify (λ w, mkWorld (dev w) (next (jnl w)))).

(** The in-memory state after a commit. *)
Definition committed (objects : gmap Id Location) (roots : gmap Bytes Id) (cp : Bytes)
    (end_at : Z) (j : journal) : journal :=
  mkJournal (repository_ j) (seq_ j + 1) end_at (tagged commit_tag cp) roots objects
    (replayed_ j) false (poisoned_ j).

Definition data_payload (value : Bytes) : Bytes := memcpy (zeros 4) 0 (store 4 2) ++ value.

(** [void Journal::put(const std::string& key,const Bytes& value)] *)
Definition put (key value : Bytes) : ST world unit :=
  j ← gets jnl;
  lift (alive j);;
  st_need (bool_decide (key ≠ []) && (len key <=? 1024)) "root name must be 1..1024 bytes";;
  st_need (len value <=? max_payload) "object exceeds 256 KiB";;
  st_need (negb (seq_ j =? UINT64_MAX)) "transaction sequence exhausted";;
  let oid := object_hash value in
  let object := record 1 (seq_ j + 1) (data_payload value) oid in
  let pp := memcpy (memcpy (zeros 36) 0 (last_hash_ j)) 32 (store (len key) 4) ++ key ++ oid in
  let prepare := record 2 (seq_ j + 1) pp zero_id in
  let '(new_segment, at_) := placement j (len object + len prepare + 216) in
  st_need (at_ <=? OFF_MAX - span) "container offset exhausted";;
  let begin_ := at_ + (if new_segment then header else 0) in
  let batch := object ++ prepare in
  let cp := commit_payload j (begin_ + len object) (len prepare) begin_ pp batch in
  let commit := record 3 (seq_ j + 1) cp zero_id in
  publish new_segment at_ begin_ batch commit
    (λ j, committed (<[oid := mkLocation begin_ (len object)]> (objects_ j))
            (<[key := oid]> (roots_ j)) cp (begin_ + len batch + len commit) j).

(** The mutations of [transact], one at a time. *)
Record plan := mkPlan {
  p_changes : gmap Bytes (option Id); p_values : gmap Id Bytes; p_total : Z; p_references : bool
}.

Definition plan_mutation (f : Bytes) (j : journal) (p : plan) (m : Mutation) : result plan :=
  need (bool_decide (m_key m ≠ []) && (len (m_key m) <=? 1024)) "root name must be 1..1024 bytes";;
  need (bool_decide (p_changes p !! m_key m = None)) "duplicate mutation key";;
  need (negb (bool_decide (is_Some (m_value m)) && bool_decide (is_Some (m_reference m))))
    "mutation has both value and reference";;
  match m_reference m, m_value m with
  | Some id, _ =>
      need (bool_decide (is_Some (objects_ j !! id))) "reference object not committed";;
      read_object f j id;;
      Ok (mkPlan (<[m_key m := Some id]> (p_changes p)) (p_values p) (p_total p) true)
  | None, Some value =>
      need (len value <=? max_payload) "object exceeds 256 KiB";;
      let id := object_hash value in
      let changes := <[m_key m := Some id]> (p_changes p) in
      let p := match p_values p !! id with
               | Some _ => mkPlan changes (p_values p) (p_total p) (p_references p)
               | None => mkPlan changes (<[id := value]> (p_values p)) (p_total p + len value)
                           (p_references p)
               end in
      need (p_total p <=? 1024 * 1024) "batch values exceed 1 MiB";;
      Ok p
  | None, None =>
      need (bool_decide (is_Some (roots_ j !! m_key m))) "cannot delete absent root";;
      Ok (mkPlan (<[m_key m := None]> (p_changes p)) (p_values p) (p_total p) (p_references p))
  end.

Fixpoint plan_mutations (f : Bytes) (j : journal) (p : plan) (ms : list Mutation) : result plan :=
  match ms with
  | [] => Ok p
  | m :: rest => p ← plan_mutation f j p m; plan_mutations f j p rest
  end.

(** The DATA records of a transaction and their locations in the batch. *)
Fixpoint data_records (seq : Z) (values : list (Id * Bytes)) (batch : Bytes)
    (locations : gmap Id Location) : Bytes * gmap Id Location :=
  match values with
  | [] => (batch, locations)
  | (id, value) :: rest =>
      let encoded := record 1 seq (data_payload value) id in
      data_records seq rest (batch ++ encoded)
        (<[id := mkLocation (len batch) (len encoded)]> locations)
  end.

(** One entry of a batch prepare record. *)
Definition batch_entry (key : Bytes) (id : option Id) : Bytes :=
  let e := zeros (8 + length key + 32) in
  let e := memcpy e 0 (store (match id with Some _ => 1 | None => 2 end) 4) in
  let e := memcpy e 4 (store (len key) 4) in
  let e := memcpy e 8 key in
  match id with Some id => memcpy e (8 + length key) id | None => e end.

Definition prepare_payload (j : journal) (expected : Z) (changes : gmap Bytes (option Id)) : Bytes :=
  let pp := zeros 44 in
  let pp := memcpy pp 0 (last_hash_ j) in
  let pp := memcpy pp 32 (store expected 8) in
  let pp := memcpy pp 40 (store (Z.of_nat (size changes)) 4) in
  foldl (λ pp '(key, id), pp ++ batch_entry key id) pp (in_order changes).

Definition shift_locations (begin_ : Z) (locations : gmap Id Location) : gmap Id Location :=
  (λ loc, mkLocation (begin_ + payload loc) (length_ loc)) <$> locations.

(** [void Journal::transact(uint64_t expected,const std::vector<Mutation>& mutations)] *)
Definition transact (expected : Z) (mutations : list Mutation) : ST world unit :=
  w ← get_st;
  let j := jnl w in
  lift (alive j);;
  st_need (expected =? seq_ j) "transaction conflict: sequence changed";;
  st_need (negb (seq_ j =? UINT64_MAX)) "transaction sequence exhausted";;
  st_need ((0 <? len mutations) && (len mutations <=? 64)) "batch requires 1..64 mutations";;
  p ← lift (plan_mutations (file (dev w)) j (mkPlan ∅ ∅ 0 false) mutations);
  let '(data, locations) := data_records (seq_ j + 1) (in_order (p_values p)) [] ∅ in
  let pp := prepare_payload j expected (p_changes p) in
  let prepare := record (if p_references p then 8 else 7) (seq_ j + 1) pp zero_id in
  let batch := data ++ prepare in
  st_need (len batch <=? 2 * 1024 * 1024) "transaction batch too large";;
  let '(new_segment, at_) := placement j (len batch + 216) in
  st_need (at_ <=? OFF_MAX - span) "container offset exhausted";;
  let begin_ := at_ + (if new_segment then header else 0) in
  let cp := commit_payload j (begin_ + len data) (len prepare) begin_ pp batch in
  let commit := record 3 (seq_ j + 1) cp zero_id in
  publish new_segment at_ begin_ batch commit
    (λ j, committed (add_objects (objects_ j) (shift_locations begin_ locations))
            (apply_changes (roots_ j) (p_changes p)) cp (begin_ + len batch + len commit) j).

(** [Checkpoint Journal::checkpoint()] *)
Definition object_entry (id : Id) (loc : Location) : Bytes :=
  let e := zeros 44 in
  let e := memcpy e 0 id in
  let e := memcpy e 32 (store (payload loc) 8) in
  memcpy e 40 (store (length_ loc) 4).
Definition root_entry (key : Bytes) (id : Id) : Bytes := store (len key) 4 ++ key ++ id.

Definition checkpoint_bytes (j : journal) : Z :=
  foldl (λ n '(key, _), n + (4 + len key + 32))
    (48 + Z.of_nat (size (objects_ j)) * 44) (in_order (roots_ j)).

Definition checkpoint_payload (j : journal) : Bytes :=
  let p := zeros 48 in
  let p := memcpy p 0 (store (seq_ j) 8) in
  let p := memcpy p 8 (last_hash_ j) in
  let p := memcpy p 40 (store (Z.of_nat (size (objects_ j))) 4) in
  let p := memcpy p 44 (store (Z.of_nat (size (roots_ j))) 4) in
  let p := foldl (λ p '(id, loc), p ++ object_entry id loc) p (in_order (objects_ j)) in
  foldl (λ p '(key, id), p ++ root_entry key id) p (in_order (roots_ j)).

Definition checkpoint : ST world Checkpoint :=
  j ← gets jnl;
  lift (alive j);;
  st_need (checkpoint_bytes j <=? 1024 * 1024 - 87)
    "checkpoint exceeds single-record profile limit";;
  let payload := checkpoint_payload j in
  let encoded := record 5 (seq_ j) payload zero_id in
  let '(new_segment, at_) := placement j (len encoded) in
  st_need (at_ <=? OFF_MAX - span) "container offset exhausted";;
  poison_on_error (
    drop_tail "truncate checkpoint tail";;
    start_segment new_segment at_;;
    let at_ := if new_segment then at_ + header else at_ in
    on_device (write_bytes at_ encoded);;
    on_device sync_file;;
    modify (λ w, mkWorld (dev w)
      (set_tail false (set_end (at_ + len encoded) (jnl w))));;
    mret (mkCheckpoint at_ (len encoded) (seq_ j) (at_ + len encoded) (digest payload))).
End WithDigest.
End Journal.
