(* ===== verification/JournalRecord.v ===== *)
(** * The record codec of the journal

    [record] lays its fields out as documented, [read_record] reads back exactly what
    [record] wrote wherever it lies in a segment, and any strict prefix of a record at
    the end of a file is the recoverable tail. *)

From S2P Require Import Prelude Codec Journal.
Import Journal.
Local Open Scope Z_scope.

(** ** Layout *)

Definition padding (n : nat) : nat := Z.to_nat (record_length (Z.of_nat n) - 80 - Z.of_nat n).

Lemma record_length_eq n :
  record_length (Z.of_nat n) = Z.of_nat (80 + n + padding n) ∧ (padding n < 8)%nat.
Proof. unfold padding, record_length. Z.to_euclidean_division_equations. lia. Qed.

Lemma record_length_mod n : record_length n mod 8 = 0.
Proof.
  unfold record_length. replace (_ + 16) with (((64 + n + 7) / 8 + 2) * 8) by lia.
  apply Z_mod_mult.
Qed.

(** The fields before the header checksum. *)
Definition head_fields (type seq : Z) (payload : Bytes) (oid : Id) : list Bytes :=
  [record_magic; store type 2; store 1 2; store (record_length (len payload)) 4;
   store (len payload) 4; store seq 8; oid; zeros 4].
(** All fields of a record. *)
Definition record_fields (type seq : Z) (payload : Bytes) (oid : Id) : list Bytes :=
  head_fields type seq payload oid ++
  [store (crc (concat (head_fields type seq payload oid))) 4; payload;
   zeros (padding (length payload)); store (crc payload) 4;
   store (record_length (len payload)) 4; record_end].

(** Offsets of fields by their lengths. *)
Ltac field_lengths :=
  unfold field_offset; cbn [take concat insert list_insert app];
  rewrite ?length_app, ?length_store, ?length_zeros, ?length_nil; simpl length.
(** Resolve the innermost [memcpy] as a write of field [i]. *)
Ltac put_field i :=
  erewrite (memcpy_field i); [|reflexivity|field_lengths; lia|field_lengths; lia];
  cbn [insert list_insert].

Lemma record_eq type seq payload oid :
  length oid = 32%nat →
  record type seq payload oid = concat (record_fields type seq payload oid).
Proof.
  intros Ho. unfold record. cbv zeta.
  destruct (record_length_eq (length payload)) as [HL Hp].
  fold (len payload) in HL. unfold record_fields. set (p := padding (length payload)) in *.
  match goal with |- context [crc (take 60 ?b)] => set (head := b) end.
  assert (head = concat (head_fields type seq payload oid ++
    [zeros 4; zeros (length payload); zeros p; zeros 4; zeros 4; zeros 8])) as ->.
  { unfold head. rewrite HL at 1. rewrite Nat2Z.id.
    replace (80 + length payload + p)%nat with
      (sum_list [4; 2; 2; 4; 4; 8; 32; 4; 4; length payload; p; 4; 4; 8])%nat
      by (simpl; lia).
    rewrite zeros_fields. unfold fmap, list_fmap.
    put_field 0%nat. put_field 1%nat. put_field 2%nat. put_field 3%nat. put_field 4%nat.
    put_field 5%nat. put_field 6%nat. done. }
  assert (∀ k : Z, 0 ≤ k ≤ 16 → Z.to_nat (record_length (len payload) - k) =
    (80 + length payload + p - Z.to_nat k)%nat) as Hend by lia.
  rewrite !Hend by lia.
  rewrite (take_field 8) by (unfold head_fields; field_lengths; lia).
  rewrite take_app_length' by done. unfold head_fields at 1.
  put_field 8%nat. put_field 9%nat. put_field 11%nat. put_field 12%nat. put_field 13%nat.
  done.
Qed.

Lemma length_record type seq payload oid :
  length oid = 32%nat → len (record type seq payload oid) = record_length (len payload).
Proof.
  intros Ho. rewrite record_eq by done. unfold len at 1.
  destruct (record_length_eq (length payload)) as [HL Hp]. fold (len payload) in HL.
  unfold record_fields, head_fields. field_lengths. lia.
Qed.

(** ** Reading at an offset *)

(** The file holds the bytes [b] at offset [at_]. *)
Definition holds (f : Bytes) (at_ : Z) (b : Bytes) : Prop :=
  0 ≤ at_ ∧ at_ + len b ≤ len f ∧ slice (Z.to_nat at_) (length b) f = b.

Lemma holds_read f at_ b n : holds f at_ b → n = len b → read_bytes f at_ n = Ok b.
Proof.
  intros (H0 & Hl & Hs) ->. unfold read_bytes. rewrite (proj2 (Z.leb_le _ _)) by done.
  unfold len. by rewrite Nat2Z.id, Hs.
Qed.

Lemma holds_middle pre b post : holds (pre ++ b ++ post) (len pre) b.
Proof.
  split_and!.
  - apply len_nonneg.
  - rewrite !len_app. pose proof (len_nonneg post). lia.
  - unfold len. rewrite Nat2Z.id. by apply slice_app.
Qed.

Lemma holds_end pre b : holds (pre ++ b) (len pre) b.
Proof. rewrite <- (app_nil_r b) at 1. apply holds_middle. Qed.

Lemma holds_extend f at_ b x : holds f at_ b → holds (f ++ x) at_ b.
Proof.
  intros (H0 & Hl & Hs). unfold holds. rewrite len_app. pose proof (len_nonneg x).
  split_and!; [done|lia|]. rewrite <- Hs at 2. unfold slice, len in *.
  rewrite drop_app_le by lia. apply take_app_le. rewrite length_drop. lia.
Qed.

Lemma holds_app f at_ a b : holds f at_ (a ++ b) → holds f at_ a ∧ holds f (at_ + len a) b.
Proof.
  intros (H0 & Hl & Hs). rewrite len_app in Hl. pose proof (len_nonneg a).
  pose proof (len_nonneg b). unfold holds, slice in *.
  assert (drop (Z.to_nat at_) f = (a ++ b) ++ drop (length (a ++ b)) (drop (Z.to_nat at_) f)) as Hd.
  { rewrite <- Hs at 1. by rewrite take_drop. }
  split; split_and!; try lia.
  - rewrite Hd, <- app_assoc. by rewrite take_app_length.
  - unfold len. rewrite Z2Nat.inj_add, Nat2Z.id by lia.
    rewrite <- drop_drop, Hd, <- app_assoc, drop_app_length. by rewrite take_app_length.
Qed.

Lemma holds_concat f at_ cs i :
  holds f at_ (concat cs) → holds f at_ (concat (take i cs)).
Proof. rewrite <- (take_drop i cs) at 1. rewrite concat_app. intros [? _]%holds_app. done. Qed.

Lemma all_zero_zeros n : all_zero (zeros n) = true.
Proof. induction n as [|n IH]; [done|]. simpl. apply IH. Qed.

Lemma load_field i off cs v n :
  cs !! i = Some (store v n) → off = field_offset i cs → 0 ≤ v < 256 ^ Z.of_nat n →
  load (drop off (concat cs)) n = v.
Proof.
  intros Hc Hoff Hv. rewrite (drop_field i) by done.
  rewrite (drop_S _ _ _ Hc). simpl. by apply load_store.
Qed.

(** What a record must satisfy to be readable. *)
Record recordable (type seq : Z) (payload : Bytes) (oid : Id) : Prop := {
  rec_type : 0 ≤ type < 65536;
  rec_seq : 0 ≤ seq ≤ UINT64_MAX;
  rec_oid : length oid = 32%nat;
  rec_length : record_length (len payload) ≤ 1024 * 1024;
}.

(** The room left in the segment of an offset. *)
Definition room (at_ : Z) : Z := span - (at_ - base) mod span.

Section Read.
Context (type seq : Z) (payload : Bytes) (oid : Id) (Hrec : recordable type seq payload oid).
Let fields := record_fields type seq payload oid.
Let L := record_length (len payload).

Lemma payload_bound : 0 ≤ len payload ∧ len payload + 80 ≤ L ≤ 1024 * 1024.
Proof using Hrec.
  destruct Hrec as [_ _ _ Hl]. pose proof (len_nonneg payload). subst L.
  destruct (record_length_eq (length payload)) as [HL _]. unfold len in *. lia.
Qed.

(** The header of a record passes the checks on the first 64 bytes. *)
Lemma header_checks :
  let h := concat (take 9 fields) in
  len h = 64 ∧ bytes_eqb (slice 0 4 h) record_magic = true ∧
  load (drop 60 h) 4 = crc (take 60 h) ∧ load (drop 8 h) 4 = L ∧ load (drop 12 h) 4 = len payload.
Proof using Hrec.
  pose proof payload_bound as [Hn0 HnL]. destruct Hrec as [_ _ Ho _].
  unfold fields, record_fields, head_fields. cbn [take app]. cbv zeta. split_and!.
  - unfold len. field_lengths. lia.
  - rewrite (slice_field 0 _ _ _ record_magic) by done. by apply bool_decide_eq_true.
  - rewrite (take_field 8) by (field_lengths; lia).
    apply (load_field 8); [done|field_lengths; lia|apply crc_bound].
  - apply (load_field 3); [done|field_lengths; lia|unfold L in *; lia].
  - apply (load_field 4); [done|field_lengths; lia|lia].
Qed.

(** The body of a record passes the remaining checks and yields its contents. *)
Lemma body_checks :
  let b := concat fields in
  load (drop 6 b) 2 = 1 ∧ load (drop 56 b) 4 = 0 ∧
  load (drop (Z.to_nat (L - 12)) b) 4 = L ∧
  slice (Z.to_nat (L - 8)) 8 b = record_end ∧
  load (drop (Z.to_nat (L - 16)) b) 4 = crc payload ∧
  slice 64 (Z.to_nat (len payload)) b = payload ∧
  slice (64 + Z.to_nat (len payload)) (Z.to_nat (L - 16 - (64 + len payload))) b =
    zeros (padding (length payload)) ∧
  load (drop 4 b) 2 = type ∧ load (drop 16 b) 8 = seq ∧ slice 24 32 b = oid.
Proof using Hrec.
  pose proof payload_bound as [Hn0 HnL]. destruct Hrec as [Ht Hs Ho _]. unfold UINT64_MAX in Hs.
  destruct (record_length_eq (length payload)) as [HL _]. fold (len payload) in HL. fold L in HL.
  unfold fields, record_fields, head_fields. cbn [app]. cbv zeta.
  assert (Z.to_nat (len payload) = length payload) as -> by (unfold len; lia).
  assert (Z.to_nat (L - 16 - (64 + len payload)) = padding (length payload)) as ->
    by (unfold len; lia).
  split_and!.
  - apply (load_field 2); [done|field_lengths; lia|lia].
  - rewrite (drop_field 7) by (field_lengths; lia). done.
  - apply (load_field 12); [done|field_lengths; lia|unfold L in *; lia].
  - apply (slice_field 13); [done|field_lengths; lia|done].
  - apply (load_field 11); [done|field_lengths; lia|apply crc_bound].
  - apply (slice_field 9); [done|field_lengths; lia|done].
  - apply (slice_field 10); [done|field_lengths; lia|by rewrite length_zeros].
  - apply (load_field 1); [done|field_lengths; lia|lia].
  - apply (load_field 5); [done|field_lengths; lia|lia].
  - apply (slice_field 6); [done|field_lengths; lia|done].
Qed.

Context (f : Bytes) (at_ size : Z) (Hat : base ≤ at_) (Hroom : L ≤ room at_).

(** The checks on the header, once its 64 bytes are in the file. *)
Lemma read_header :
  holds f at_ (concat (take 9 fields)) → at_ + 64 ≤ size →
  read_record f at_ size =
    if size - at_ <? L then Ok None else
    b ← read_bytes f at_ L;
    let at_end k := Z.to_nat (L - k) in
    need ((load (drop 6 b) 2 =? 1) && (load (drop 56 b) 4 =? 0))
      "unsupported record schema or flags";;
    need ((load (drop (at_end 12) b) 4 =? L)
          && bytes_eqb (slice (at_end 8) 8 b) record_end) "invalid record trailer";;
    need (load (drop (at_end 16) b) 4 =? crc (slice 64 (Z.to_nat (len payload)) b))
      "invalid payload checksum";;
    need (all_zero (slice (64 + Z.to_nat (len payload))
                      (Z.to_nat (L - 16 - (64 + len payload))) b))
      "nonzero record padding";;
    Ok (Some (mkRec (load (drop 4 b) 2) (load (drop 16 b) 8) at_ (slice 24 32 b)
                (slice 64 (Z.to_nat (len payload)) b) b)).
Proof using Hrec Hat Hroom.
  intros Hh Hsize. pose proof header_checks as (Hl & Hm & Hc & HL & Hn). cbv zeta in *.
  pose proof payload_bound as [Hn0 HnL].
  unfold read_record. rewrite need_true_bind by (apply Z.leb_le; lia).
  rewrite (proj2 (Z.ltb_ge _ _)) by lia. rewrite (holds_read _ _ _ 64 Hh) by done.
  cbn [mbind result_bind]. rewrite HL, Hn.
  rewrite need_true_bind by done. rewrite need_true_bind by (by apply Z.eqb_eq).
  rewrite need_true_bind.
  2:{ rewrite !andb_true_iff, !Z.leb_le, !Z.eqb_eq. split_and!; [lia..| |lia|done].
      apply record_length_mod. }
  rewrite need_true_bind by (apply Z.leb_le; done). done.
Qed.

Lemma read_record_whole :
  holds f at_ (record type seq payload oid) → at_ + L ≤ size →
  read_record f at_ size =
    Ok (Some (mkRec type seq at_ oid payload (record type seq payload oid))).
Proof using Hrec Hat Hroom.
  intros Hh Hsize. pose proof (payload_bound) as [Hn0 HnL].
  pose proof (body_checks) as (H6 & H56 & H12 & H8 & H16 & Hp & Hz & Ht & Hs & Ho).
  cbv zeta in *. pose proof (length_record type seq payload oid (rec_oid _ _ _ _ Hrec)) as Hl.
  rewrite record_eq in Hh, Hl |- * by apply Hrec. fold fields in Hh, Hl |- *.
  rewrite read_header; [|by apply holds_concat|lia].
  rewrite (proj2 (Z.ltb_ge _ _)) by lia. rewrite (holds_read _ _ _ L Hh) by done.
  cbn [mbind result_bind]. cbv zeta. rewrite H6, H56, H12, H8, H16, Hp, Hz, Ht, Hs, Ho.
  rewrite need_true_bind by done.
  rewrite need_true_bind by (rewrite Z.eqb_refl; by apply bool_decide_eq_true).
  rewrite need_true_bind by apply Z.eqb_refl.
  by rewrite need_true_bind by apply all_zero_zeros.
Qed.

(** A strict prefix of a record at the end of the file is an incomplete tail. *)
Lemma read_record_torn k :
  holds f at_ (take k (record type seq payload oid)) →
  (Z.of_nat k < L) → size = at_ + Z.of_nat k → read_record f at_ size = Ok None.
Proof using Hrec Hat Hroom.
  intros Hh Hk Hsz. destruct (Z.ltb_spec (Z.of_nat k) 64).
  { unfold read_record. rewrite need_true_bind by (apply Z.leb_le; lia).
    by rewrite (proj2 (Z.ltb_lt _ _)) by lia. }
  rewrite read_header; [by rewrite (proj2 (Z.ltb_lt _ _)) by lia| |lia].
  rewrite record_eq in Hh by apply Hrec. fold fields in Hh.
  pose proof header_checks as (H64 & _). cbv zeta in H64. unfold len in H64.
  replace (concat fields) with (concat (take 9 fields) ++ concat (drop 9 fields)) in Hh
    by (by rewrite <- concat_app, take_drop).
  rewrite take_app_ge in Hh by lia. by apply holds_app in Hh as [? _].
Qed.
End Read.
