(* ===== verification/JournalReplay.v ===== *)
(** * Replaying a log that grows

    The constructor's loop on a file that is extended.  A [unit] is a piece of the log
    (the zero padding of a segment, a segment header, one record) that moves the loop
    from one state to the next whatever follows it, and of which any strict prefix at
    the end of the file is tolerated.  A sequence of units is replayed when it is
    complete and leaves the journal as it was when it is cut anywhere before the last
    one. *)

From S2P Require Import Prelude Codec Journal JournalRecord.
Import Journal.
Local Open Scope Z_scope.

Section Replay.
Context `{Digest}.

Lemma replay_finished fuel f l : len f ≤ at_ l → replay fuel f l = Ok l.
Proof. intros Hl. destruct fuel; simpl; by rewrite (proj2 (Z.ltb_ge _ _)) by lia. Qed.

Lemma replay_next fuel f l l' :
  at_ l < len f → replay_step f l = Ok (Some l') → replay (S fuel) f l = replay fuel f l'.
Proof. intros Hl Hs. cbn [replay]. rewrite (proj2 (Z.ltb_lt _ _)) by lia. by rewrite Hs. Qed.

Lemma replay_break fuel f l :
  at_ l < len f → replay_step f l = Ok None → replay (S fuel) f l = Ok l.
Proof. intros Hl Hs. cbn [replay]. rewrite (proj2 (Z.ltb_lt _ _)) by lia. by rewrite Hs. Qed.

(** The bytes left bound the iterations left. *)
Definition enough (fuel : nat) (f : Bytes) (l : loop) : Prop :=
  (Z.to_nat (len f - at_ l) ≤ fuel)%nat.

(** The replay from [l] succeeds without touching the journal. *)
Definition tolerated (f : Bytes) (l : loop) : Prop :=
  ∀ fuel, enough fuel f l → ∃ l', replay fuel f l = Ok l' ∧ j_ l' = j_ l.

Lemma tolerated_finished f l : len f ≤ at_ l → tolerated f l.
Proof. intros Hl fuel _. exists l. by rewrite replay_finished. Qed.

Lemma tolerated_break f l : at_ l < len f → replay_step f l = Ok None → tolerated f l.
Proof.
  intros Hl Hs fuel Hf. destruct fuel as [|fuel]; [unfold enough in Hf; lia|].
  exists l. by rewrite replay_break.
Qed.

Lemma tolerated_step f l l' :
  at_ l < at_ l' → at_ l < len f → replay_step f l = Ok (Some l') → j_ l' = j_ l →
  tolerated f l' → tolerated f l.
Proof.
  intros Ha Hl Hs Hj Ht fuel Hf. destruct fuel as [|fuel]; [unfold enough in Hf; lia|].
  destruct (Ht fuel) as (l'' & Hr & Hj''); [unfold enough in *; lia|].
  exists l''. rewrite (replay_next _ _ _ _ Hl Hs). split; [done|congruence].
Qed.

(** A piece of the log that leads from [l] to [l'] when it is appended at the end. *)
Record unit_of (f : Bytes) (l : loop) (b : Bytes) (l' : loop) : Prop := {
  unit_start : at_ l = len f;
  unit_end : at_ l' = len f + len b;
  unit_nonempty : b ≠ [];
  unit_whole : ∀ y, replay_step (f ++ b ++ y) l = Ok (Some l');
  unit_torn : ∀ k, (0 < k < length b)%nat → tolerated (f ++ take k b) l;
}.

(** A sequence of units, and whether the journal changes before its last one. *)
Inductive units : Bytes → loop → Bytes → loop → Prop :=
| units_nil f l : at_ l = len f → units f l [] l
| units_cons f l b l1 bs l' :
    unit_of f l b l1 → units (f ++ b) l1 bs l' → units f l (b ++ bs) l'.

(** Sequences of units none of which touches the journal. *)
Inductive silent : Bytes → loop → Bytes → loop → Prop :=
| silent_nil f l : at_ l = len f → silent f l [] l
| silent_cons f l b l1 bs l' :
    unit_of f l b l1 → j_ l1 = j_ l → silent (f ++ b) l1 bs l' → silent f l (b ++ bs) l'.

Lemma silent_units f l b l' : silent f l b l' → units f l b l'.
Proof. induction 1; [by constructor|by econstructor]. Qed.

Lemma silent_journal f l b l' : silent f l b l' → j_ l' = j_ l.
Proof. induction 1; congruence. Qed.

Lemma silent_one f l b l' : unit_of f l b l' → j_ l' = j_ l → silent f l b l'.
Proof.
  intros Hu Hj. rewrite <- (app_nil_r b). econstructor; [done..|].
  constructor. rewrite len_app. apply Hu.
Qed.

Lemma silent_app f l b1 l1 b2 l2 :
  silent f l b1 l1 → silent (f ++ b1) l1 b2 l2 → silent f l (b1 ++ b2) l2.
Proof.
  induction 1 as [|f l b l1 bs l' Hu Hj Hs IH]; intros H2.
  - by rewrite app_nil_r in H2.
  - rewrite <- app_assoc. econstructor; [done..|]. apply IH. by rewrite <- app_assoc.
Qed.

Lemma units_app f l b1 l1 b2 l2 :
  units f l b1 l1 → units (f ++ b1) l1 b2 l2 → units f l (b1 ++ b2) l2.
Proof.
  induction 1 as [|f l b l1 bs l' Hu Hs IH]; intros H2.
  - by rewrite app_nil_r in H2.
  - rewrite <- app_assoc. econstructor; [done..|]. apply IH. by rewrite <- app_assoc.
Qed.

Lemma units_end f l b l' : units f l b l' → at_ l = len f ∧ at_ l' = len f + len b.
Proof.
  induction 1 as [f l Hl|f l b l1 bs l' Hu Hs [_ IH]].
  - split; [done|]. unfold len at 2. simpl. lia.
  - split; [apply Hu|]. rewrite IH, !len_app. lia.
Qed.

Lemma replay_unit fuel f l b l' y :
  unit_of f l b l' → enough fuel (f ++ b ++ y) l →
  ∃ fuel', replay fuel (f ++ b ++ y) l = replay fuel' (f ++ b ++ y) l' ∧
    enough fuel' (f ++ b ++ y) l'.
Proof.
  intros Hu Hf. pose proof (unit_start _ _ _ _ Hu) as Hs. pose proof (unit_end _ _ _ _ Hu) as He.
  assert (0 < len b) as Hb.
  { pose proof (unit_nonempty _ _ _ _ Hu). destruct b; [done|]. unfold len. simpl. lia. }
  pose proof (len_nonneg y). unfold enough in *. rewrite !len_app in *.
  destruct fuel as [|fuel]; [lia|]. exists fuel. split; [|lia].
  apply replay_next; [rewrite !len_app; lia|apply Hu].
Qed.

(** A complete sequence is replayed. *)
Lemma replay_units f l b l' : units f l b l' → ∀ fuel y,
  enough fuel (f ++ b ++ y) l →
  ∃ fuel', replay fuel (f ++ b ++ y) l = replay fuel' (f ++ b ++ y) l' ∧
    enough fuel' (f ++ b ++ y) l'.
Proof.
  induction 1 as [|f l b l1 bs l' Hu Hs IH]; intros fuel y Hf; [by exists fuel|].
  rewrite <- app_assoc in *. destruct (replay_unit _ _ _ _ _ _ Hu Hf) as (f1 & -> & Hf1).
  destruct (IH f1 y) as (f2 & Hr & Hf2); rewrite <- !app_assoc in *; [done|].
  exists f2. by rewrite Hr.
Qed.

(** A silent sequence cut anywhere leaves the journal alone. *)
Lemma silent_torn f l b l' : silent f l b l' → ∀ k,
  tolerated (f ++ take k b) l.
Proof.
  induction 1 as [f l Hl|f l b l1 bs l' Hu Hj Hs IH]; intros k.
  { rewrite take_nil, app_nil_r. apply tolerated_finished. lia. }
  pose proof (unit_start _ _ _ _ Hu) as Ha. pose proof (unit_end _ _ _ _ Hu) as He.
  destruct (decide (k = 0)%nat) as [->|Hk0].
  { rewrite app_nil_r. apply tolerated_finished. lia. }
  destruct (decide (k < length b)%nat) as [Hk|Hk].
  { rewrite take_app_le by lia. apply Hu. lia. }
  rewrite take_app_ge by lia. rewrite app_assoc.
  assert (0 < len b) as Hb.
  { pose proof (unit_nonempty _ _ _ _ Hu). destruct b; [done|]. unfold len. simpl. lia. }
  apply (tolerated_step _ _ l1); [lia| | |done|apply IH].
  - rewrite !len_app. pose proof (len_nonneg (take (k - length b) bs)). lia.
  - rewrite <- app_assoc. apply Hu.
Qed.

(** A silent sequence followed by a last unit, cut before its end. *)
Lemma last_torn f l b l1 c l2 k :
  silent f l b l1 → unit_of (f ++ b) l1 c l2 → (k < length (b ++ c))%nat →
  tolerated (f ++ take k (b ++ c)) l.
Proof.
  intros Hs Hu Hk. destruct (decide (k ≤ length b)%nat) as [Hkb|Hkb].
  { rewrite take_app_le by done. by eapply silent_torn. }
  rewrite take_app_ge by lia. rewrite length_app in Hk.
  set (k' := (k - length b)%nat). assert (0 < k' < length c)%nat as Hk' by lia.
  pose proof (unit_torn _ _ _ _ Hu k' Hk') as Ht. rewrite <- app_assoc in Ht.
  intros fuel Hf. destruct (replay_units _ _ _ _ (silent_units _ _ _ _ Hs) fuel (take k' c) Hf)
    as (f1 & -> & Hf1).
  destruct (Ht f1 Hf1) as (l' & -> & Hj). exists l'. split; [done|].
  rewrite Hj. by eapply silent_journal.
Qed.

(** ** The three kinds of units *)

Lemma read_here f b y n :
  n = len b → read_bytes (f ++ b ++ y) (len f) n = Ok b.
Proof. intros ->. apply holds_read; [apply holds_middle|done]. Qed.

Lemma take_zeros k n : take k (zeros n) = zeros (k `min` n).
Proof. apply take_replicate. Qed.

Lemma room_pos at_ : 0 < room at_ ≤ span.
Proof.
  unfold room, span. pose proof (Z.mod_pos_bound (at_ - base) (16 * 1024 * 1024) ltac:(lia)). lia.
Qed.

Lemma len_zeros n : len (zeros n) = Z.of_nat n.
Proof. unfold len. by rewrite length_zeros. Qed.

(** The step over [m] zeros, which end the file or fill the segment. *)
Lemma padding_step f l (m : nat) (y : Bytes) :
  at_ l = len f → phase l = 0 → (at_ l - base) mod span ≠ 0 → (0 < m)%nat →
  (y = [] ∧ Z.of_nat m ≤ room (at_ l) ∨ Z.of_nat m = room (at_ l) ∧ (4 ≤ m)%nat) →
  replay_step (f ++ zeros m ++ y) l = Ok (Some (loop_at (at_ l + Z.of_nat m) l)).
Proof.
  intros Ha Hp Hin Hm Hy. unfold replay_step. cbv zeta.
  rewrite (proj2 (Z.eqb_neq _ _)) by done. rewrite !len_app, len_zeros, Hp.
  change (span - (at_ l - base) mod span) with (room (at_ l)). rewrite Ha in *.
  assert (len y = 0 ∧ Z.of_nat m ≤ room (len f) ∨
    0 ≤ len y ∧ Z.of_nat m = room (len f) ∧ (4 ≤ m)%nat) as Hy'.
  { destruct Hy as [[-> ?]|[? ?]]; [left|right]; split_and?; auto using len_nonneg. }
  replace (zeros m ++ y) with (zeros (4 `min` m) ++ zeros (m - 4) ++ y) at 1
    by (rewrite app_assoc, <- zeros_add; do 2 f_equal; lia).
  rewrite !read_here by (rewrite len_zeros; lia). cbn [mbind result_bind].
  rewrite !all_zero_zeros. cbv iota. rewrite !need_true_bind by done. by rewrite len_zeros.
Qed.

Lemma unit_padding f l :
  at_ l = len f → phase l = 0 → (at_ l - base) mod span ≠ 0 → 4 ≤ room (at_ l) →
  unit_of f l (zeros (Z.to_nat (room (at_ l)))) (loop_at (at_ l + room (at_ l)) l).
Proof.
  intros Ha Hp Hin Hroom. set (r := room (at_ l)) in *.
  split; [done|rewrite len_zeros; simpl; lia| | |].
  - destruct (Z.to_nat r) eqn:E; [lia|done].
  - intros y. rewrite padding_step; [|done..|lia|right; fold r; lia].
    rewrite Z2Nat.id by lia. done.
  - intros k Hk. rewrite length_zeros in Hk. rewrite take_zeros.
    replace (k `min` Z.to_nat r)%nat with k by lia. rewrite <- (app_nil_r (zeros k)).
    eapply tolerated_step; [| |apply padding_step; [done..|lia|left; fold r; split; [done|lia]]|done|].
    + simpl. lia.
    + rewrite !len_app, len_zeros. change (len []) with 0. lia.
    + apply tolerated_finished. simpl. rewrite !len_app, len_zeros. change (len []) with 0. lia.
Qed.

Lemma length_segment_header repo id :
  length repo = 16%nat → length (segment_header repo id) = 4096%nat.
Proof.
  intros Hr. unfold segment_header. cbv zeta.
  repeat (apply memcpy_length; [|rewrite ?length_store, ?Hr; simpl length; lia]).
  apply length_zeros.
Qed.

Lemma unit_header f l h :
  length (repository_ (j_ l)) = 16%nat →
  at_ l = len f → phase l = 0 → (at_ l - base) mod span = 0 →
  h = segment_header (repository_ (j_ l)) ((at_ l - base) / span) →
  unit_of f l h (loop_at (at_ l + header) l).
Proof.
  intros Hrepo Ha Hp Hin Heq.
  assert (len h = header) as Hh by (unfold len; by rewrite Heq, length_segment_header).
  assert (header = 4096) as Hv by done.
  split; [done|rewrite Hh; simpl; lia| | |].
  - intros E. rewrite E in Hh. done.
  - intros y. unfold replay_step. cbv zeta. rewrite Hin, Hp. cbn [Z.eqb].
    rewrite need_true_bind by done. rewrite !len_app, Hh. pose proof (len_nonneg y).
    rewrite (proj2 (Z.ltb_ge _ _)) by lia. rewrite Ha, read_here by done.
    cbn [mbind result_bind]. rewrite <- Ha, <- Heq.
    by rewrite need_true_bind by (by apply bool_decide_eq_true).
  - intros k Hk. assert (len (take k h) = Z.of_nat k ∧ Z.of_nat k < header) as [Hlk Hkh].
    { unfold len in *. rewrite length_take. lia. }
    apply tolerated_break; [rewrite len_app; lia|].
    unfold replay_step. cbv zeta. rewrite Hin, Hp. cbn [Z.eqb].
    rewrite need_true_bind by done. rewrite len_app. by rewrite (proj2 (Z.ltb_lt _ _)) by lia.
Qed.

(** The loop body on a complete record. *)
Definition record_body (r : Rec) (l : loop) : result loop :=
  let j := j_ l in
  if (phase l =? 0) && (type r =? 5) then
    need ((rseq r =? seq_ j) && bool_decide (oid r = zero_id) && (48 <=? len (rpayload r))
          && (load (rpayload r) 8 =? seq_ j)
          && bytes_eqb (slice 8 32 (rpayload r)) (last_hash_ j))
      "invalid checkpoint in replay";;
    Ok (mkLoop (at_ l + len (encoded r)) (phase l) (begin_ l) (prepare_at l)
                (prep l) (pending_objects l) (changes l) (batch l)
                (set_end (at_ l + len (encoded r)) j))
  else on_record r l.

(** At bytes that cannot be padding the loop reads a record. *)
Lemma record_step f c l :
  at_ l = len f → (at_ l - base) mod span ≠ 0 → take 1 c = [Init.Byte.x46] →
  replay_step (f ++ c) l =
    found ← read_record (f ++ c) (len f) (len (f ++ c));
    match found with
    | None => Ok None
    | Some r => l' ← record_body r l; Ok (Some l')
    end.
Proof.
  intros Ha Hin Hc. destruct c as [|x c]; [done|]. simpl in Hc. injection Hc as ->.
  set (c1 := Init.Byte.x46 :: c).
  unfold replay_step. cbv zeta. rewrite (proj2 (Z.eqb_neq _ _)) by done. rewrite Ha.
  assert (read_bytes (f ++ c1) (len f) (Z.min 4 (len (f ++ c1) - len f)) = Ok (take 4 c1)) as ->.
  { rewrite <- (take_drop 4 c1) at 1. apply read_here. rewrite len_app. unfold len.
    rewrite length_take. lia. }
  cbn [mbind result_bind]. replace (all_zero (take 4 c1)) with false by done. cbv iota.
  destruct (read_record _ _ _) as [[r|]| |]; [|done..]. cbn [mbind result_bind].
  unfold record_body. destruct ((phase l =? 0) && (type r =? 5)); [|done].
  unfold need. rewrite Ha. destruct (_ && _); done.
Qed.

(** A record the loop accepts. *)
Lemma unit_record f l l' type seq payload oid b :
  b = record type seq payload oid →
  at_ l = len f → base ≤ at_ l → (at_ l - base) mod span ≠ 0 →
  recordable type seq payload oid → len b ≤ room (at_ l) →
  record_body (mkRec type seq (at_ l) oid payload b) l = Ok l' →
  at_ l' = at_ l + len b →
  unit_of f l b l'.
Proof.
  intros Hb Ha Hbase Hin Hrec Hroom Hon Hat'.
  pose proof (length_record type seq payload oid (rec_oid _ _ _ _ Hrec)) as Hl. rewrite <- Hb in Hl.
  pose proof (payload_bound _ _ _ _ Hrec) as [Hn HnL].
  assert (take 1 b = [Init.Byte.x46]) as Hfirst by (by rewrite Hb, record_eq by apply Hrec).
  assert (∀ k y, (0 < k)%nat → take 1 (take k b ++ y) = [Init.Byte.x46]) as Hf1.
  { intros k y Hk. destruct b as [|x b']; [done|]. destruct k; [lia|]. done. }
  split; [done|lia| | |].
  - intros E. by rewrite E in Hfirst.
  - intros y. rewrite record_step; [|done..|].
    2:{ rewrite <- (firstn_all b). apply Hf1. unfold len in *. lia. }
    rewrite (read_record_whole type seq payload oid Hrec).
    + cbn [mbind result_bind]. rewrite <- Hb, <- Ha. by rewrite Hon.
    + lia.
    + by rewrite <- Hl, <- Ha.
    + rewrite <- Hb. apply holds_middle.
    + rewrite !len_app. pose proof (len_nonneg y). lia.
  - intros k Hk. assert (len (take k b) = Z.of_nat k ∧ Z.of_nat k < len b) as [Hlk Hkb].
    { unfold len. rewrite length_take. lia. }
    apply tolerated_break; [rewrite len_app; lia|].
    rewrite record_step; [|done..|].
    2:{ rewrite <- (app_nil_r (take k b)). apply Hf1. lia. }
    rewrite (read_record_torn type seq payload oid Hrec) with (k := k); [done|lia| | |lia|].
    + by rewrite <- Hl, <- Ha.
    + rewrite <- Hb. apply holds_end.
    + rewrite len_app. lia.
Qed.
End Replay.
