(* ===== verification/JournalCommit.v ===== *)
(** * Publication and transactions in the log

    What an interrupted publication can leave on the device; and the bytes of a transaction:
    segment lead, DATA records and prepare record form a silent sequence of units, and the
    commit record is a unit that installs exactly the in-memory state the writer installs. *)

From S2P Require Import Prelude Codec Journal JournalRecord JournalReplay.
Import Journal.
Local Open Scope Z_scope.

(** ** What publication leaves on the device

    Whatever operations fail and wherever they stop, the file and its durable contents
    are the old ones or the truncated log followed by a prefix of the bytes being
    published; when publication succeeds, all of them are there and durable. *)

Lemma pwrite_end c b : pwrite c (len c) b = c ++ b.
Proof.
  unfold pwrite, len. rewrite Nat2Z.id. case_bool_decide as Hb; [by rewrite Hb, app_nil_r|].
  rewrite Nat.sub_diag. change (zeros 0) with (@nil byte). rewrite app_nil_r, firstn_all.
  by rewrite drop_ge, app_nil_r by lia.
Qed.

Section Publish.
Context (old olddur f x : Bytes) (j : journal).

(** Contents that can be found after an interruption. *)
Definition interrupted (c : Bytes) : Prop := c = old ∨ c = olddur ∨ ∃ k, c = f ++ take k x.

Definition working (c : Bytes) (w : world) : Prop :=
  jnl w = j ∧ file (dev w) = c ∧ interrupted (durable (dev w)).
Definition stopped (w : world) : Prop :=
  jnl w = j ∧ interrupted (file (dev w)) ∧ interrupted (durable (dev w)).

Lemma interrupted_prefix a b : x = a ++ b → interrupted (f ++ a).
Proof. intros Hx. right. right. exists (length a). by rewrite Hx, take_app_length. Qed.

Lemma working_stopped c w : interrupted c → working c w → stopped w.
Proof. intros Hc (Hj & <- & Hd). done. Qed.

Lemma write_triple a b rest at_ :
  x = a ++ b ++ rest → at_ = len (f ++ a) →
  triple (working (f ++ a)) (on_device (write_bytes at_ b))
    (λ _, working (f ++ a ++ b)) stopped.
Proof.
  intros Hx -> w (Hj & Hf & Hd). unfold on_device, write_bytes.
  destruct (next_outcome (dev w)) as [|k]; simpl.
  - split_and!; [done| |done]. simpl. by rewrite Hf, pwrite_end, app_assoc.
  - split_and!; [done| |done]. simpl. rewrite Hf, pwrite_end, <- app_assoc.
    apply (interrupted_prefix _ (drop k b ++ rest)). rewrite Hx, <- app_assoc. f_equal.
    by rewrite app_assoc, take_drop.
Qed.

Lemma sync_triple c :
  interrupted c →
  triple (working c) (on_device sync_file)
    (λ _ w, working c w ∧ durable (dev w) = c) stopped.
Proof.
  intros Hc w (Hj & Hf & Hd). unfold on_device, sync_file.
  destruct (next_outcome (dev w)) as [|k]; simpl.
  - unfold working. simpl. rewrite Hf. done.
  - split_and!; [done| |done]. simpl. by rewrite Hf.
Qed.

Lemma drop_tail_triple msg :
  (if tail_ j then f = take (Z.to_nat (end_ j)) old else f = old) →
  triple (working old) (drop_tail msg) (λ _, working f) stopped.
Proof.
  intros Ht. unfold drop_tail.
  eapply triple_bind; [apply (triple_gets _ _ (λ j' w, j' = j ∧ working old w));
    intros w Hw; split; [apply Hw|done]|].
  intros j'. intros w [-> Hw]. destruct (tail_ j); [|by rewrite Ht].
  revert w Hw. apply (triple_bind _ _ _ (λ _, working f)).
  - intros w (Hj & Hf & Hd). unfold on_device, truncate.
    destruct (next_outcome (dev w)) as [|k]; simpl.
    + split_and!; [done| |done]. simpl. by rewrite Hf.
    + split_and!; [done| |done]. simpl. rewrite Hf. by left.
  - intros _. eapply triple_weaken; [apply (sync_triple f)|done| |done].
    + rewrite <- (app_nil_r f). by apply (interrupted_prefix _ x).
    + by intros _ w [? _].
Qed.

(** The bytes that start a segment. *)
Definition lead (new_segment : bool) (at_ : Z) : Bytes :=
  if new_segment
  then zeros (Z.to_nat (at_ - end_ j)) ++ segment_header (repository_ j) ((at_ - base) / span)
  else [].

Lemma start_segment_triple new_segment at_ rest :
  x = lead new_segment at_ ++ rest → len f = end_ j → end_ j ≤ at_ →
  triple (working f) (start_segment new_segment at_)
    (λ _, working (f ++ lead new_segment at_)) stopped.
Proof.
  unfold lead, start_segment. intros Hx Hl Hle.
  destruct new_segment; [|apply triple_ret; intros w; by rewrite app_nil_r].
  set (h := segment_header _ _) in *. set (z := zeros _) in *.
  eapply triple_bind; [apply (triple_gets _ _ (λ j' w, j' = j ∧ working f w));
    intros w Hw; split; [apply Hw|done]|].
  intros j' w [-> Hw]. revert w Hw. fold h.
  apply (triple_bind _ _ _ (λ _, working (f ++ z))).
  - destruct (Z.ltb_spec (end_ j) at_).
    + pose proof (write_triple [] z (h ++ rest) (end_ j)) as Hw. rewrite app_nil_r in Hw.
      apply Hw; [by rewrite Hx, <- app_assoc|done].
    + apply triple_ret. intros w. assert (z = []) as ->; [|by rewrite app_nil_r].
      unfold z. by replace (Z.to_nat (at_ - end_ j)) with 0%nat by lia.
  - intros _. apply (write_triple z h rest); [by rewrite Hx, <- app_assoc|].
    rewrite len_app, Hl. unfold z. rewrite len_zeros. lia.
Qed.

Lemma poison_triple {A} (m : ST world A) P Q :
  triple P m Q stopped →
  triple P (poison_on_error m) Q
    (λ w, jnl w = poison j ∧ interrupted (file (dev w)) ∧ interrupted (durable (dev w))).
Proof.
  intros Hm w Hw. specialize (Hm w Hw). unfold poison_on_error.
  destruct (m w) as [w' [a|msg|]]; [done| |done]. destruct Hm as (-> & ? & ?). done.
Qed.

(** The outcome of [publish]. *)
Lemma publish_triple new_segment at_ begin_ batch commit next :
  x = lead new_segment at_ ++ batch ++ commit →
  (if tail_ j then f = take (Z.to_nat (end_ j)) old else f = old) →
  len f = end_ j → end_ j ≤ at_ → begin_ = len (f ++ lead new_segment at_) →
  triple (λ w, jnl w = j ∧ file (dev w) = old ∧ durable (dev w) = olddur)
    (publish new_segment at_ begin_ batch commit next)
    (λ _ w, jnl w = next j ∧ file (dev w) = f ++ x ∧ durable (dev w) = f ++ x)
    (λ w, jnl w = poison j ∧ interrupted (file (dev w)) ∧ interrupted (durable (dev w))).
Proof.
  intros Hx Ht Hl Hle Hb. unfold publish. apply poison_triple.
  eapply (triple_bind _ _ _ (λ _, working f)).
  { eapply triple_weaken; [by apply drop_tail_triple| |done|done].
    intros w (? & ? & ?). split_and!; [done..|]. right. by left. }
  intros []. eapply triple_bind; [by apply (start_segment_triple _ _ (batch ++ commit))|].
  intros []. set (a := lead new_segment at_) in *.
  eapply triple_bind; [apply (write_triple a batch commit); done|].
  intros []. eapply triple_bind; [apply sync_triple|].
  { apply (interrupted_prefix _ commit). by rewrite <- app_assoc. }
  intros []. eapply triple_bind.
  { eapply triple_weaken; [apply (write_triple (a ++ batch) commit [])| |done|done].
    - by rewrite app_nil_r, <- app_assoc.
    - rewrite app_assoc, len_app, <- Hb. done.
    - by intros w [? _]. }
  intros []. eapply triple_bind; [apply sync_triple|].
  { apply (interrupted_prefix _ []). by rewrite app_nil_r, <- app_assoc. }
  intros [] w [(Hj & Hf & _) Hd]. rewrite <- app_assoc, <- Hx in Hf, Hd.
  unfold modify. simpl. by rewrite Hj.
Qed.

(** The same for a single record, as [checkpoint] writes it. *)
Lemma append_triple {A} new_segment at_ begin_ msg e next (a : A) :
  x = lead new_segment at_ ++ e →
  (if tail_ j then f = take (Z.to_nat (end_ j)) old else f = old) →
  len f = end_ j → end_ j ≤ at_ → begin_ = len (f ++ lead new_segment at_) →
  triple (λ w, jnl w = j ∧ file (dev w) = old ∧ durable (dev w) = olddur)
    (poison_on_error (
      drop_tail msg;; start_segment new_segment at_;;
      on_device (write_bytes begin_ e);; on_device sync_file;;
      modify (λ w, mkWorld (dev w) (next (jnl w)));; mret a))
    (λ a' w, a' = a ∧ jnl w = next j ∧ file (dev w) = f ++ x ∧ durable (dev w) = f ++ x)
    (λ w, jnl w = poison j ∧ interrupted (file (dev w)) ∧ interrupted (durable (dev w))).
Proof.
  intros Hx Ht Hl Hle Hb. apply poison_triple.
  eapply (triple_bind _ _ _ (λ _, working f)).
  { eapply triple_weaken; [by apply drop_tail_triple| |done|done].
    intros w (? & ? & ?). split_and!; [done..|]. right. by left. }
  intros []. eapply triple_bind; [by apply (start_segment_triple _ _ e)|].
  intros []. set (l := lead new_segment at_) in *.
  eapply triple_bind; [apply (write_triple l e []); [by rewrite app_nil_r|done]|].
  intros []. eapply triple_bind; [apply sync_triple|].
  { apply (interrupted_prefix _ []). by rewrite app_nil_r. }
  intros [] w [(Hj & Hf & _) Hd]. rewrite <- Hx in Hf, Hd.
  unfold modify, mbind, st_bind, mret, st_ret. simpl. by rewrite Hj.
Qed.
End Publish.

(** ** Offsets and segments *)

Lemma room_shift b k :
  0 ≤ k < room b → room (b + k) = room b - k ∧
  (b + k - base) mod span = (b - base) mod span + k.
Proof.
  intros Hk. unfold room in *.
  pose proof (Z.mod_pos_bound (b - base) span ltac:(done)) as Hm.
  assert ((b + k - base) mod span = (b - base) mod span + k) as ->; [|lia].
  replace (b + k - base) with ((b - base) + k) by lia.
  rewrite Z.add_mod by done. rewrite (Z.mod_small k) by lia. apply Z.mod_small. lia.
Qed.

(** The shape of a journal between operations. *)
Record jwf (j : journal) : Prop := {
  wf_repo : length (repository_ j) = 16%nat;
  wf_seq : 0 ≤ seq_ j ≤ UINT64_MAX;
  wf_end : base ≤ end_ j;
  wf_align : end_ j mod 8 = 0;
  wf_inside : (end_ j - base) mod span = 0 ∨ header ≤ (end_ j - base) mod span;
  wf_last : length (last_hash_ j) = 32%nat;
  wf_ids : ∀ id loc, objects_ j !! id = Some loc → length id = 32%nat;
}.

(** An offset where a record of [required] bytes can start, after a segment header. *)
Record fits (b required : Z) : Prop := {
  fits_base : base ≤ b;
  fits_inside : header ≤ (b - base) mod span;
  fits_room : required ≤ room b;
  fits_align : b mod 8 = 0;
}.

Lemma fits_shift b k required :
  fits b required → 0 ≤ k < required → k mod 8 = 0 → fits (b + k) (required - k).
Proof.
  intros [Hb Hi Hr Ha] Hk Hk8. destruct (room_shift b k) as [Hroom Hin]; [lia|].
  pose proof (Z.mod_pos_bound (b - base) span ltac:(done)).
  split; [lia|lia|lia|]. rewrite Z.add_mod, Ha, Hk8 by done. done.
Qed.

Lemma fits_weaken b r r' : fits b r → r' ≤ r → fits b r'.
Proof. intros [] ?. split; [done..|lia|done]. Qed.

Lemma segment_start e :
  base ≤ e → (e - base) mod span = 0 → fits (e + header) (span - header).
Proof.
  intros He Hm. assert (e = base + span * ((e - base) / span)) as Hd.
  { pose proof (Z.div_mod (e - base) span ltac:(done)). lia. }
  assert ((e + header - base) mod span = header) as Hin.
  { replace (e + header - base) with (header + ((e - base) / span) * span) by lia.
    rewrite Z_mod_plus_full. done. }
  split; [unfold header; lia|rewrite Hin; done|unfold room; rewrite Hin; lia|].
  rewrite Hd. replace (base + span * ((e - base) / span) + header)
    with ((base / 8 + (span / 8) * ((e - base) / span) + header / 8) * 8).
  - apply Z_mod_mult.
  - unfold base, span, header. change (65536 / 8) with 8192.
    change (16 * 1024 * 1024 / 8) with 2097152. change (4096 / 8) with 512. lia.
Qed.

Section Commit.
Context `{DigestOk}.

Lemma len_segment_header repo id : length repo = 16%nat → len (segment_header repo id) = header.
Proof. intros Hr. unfold len. by rewrite length_segment_header. Qed.

Lemma silent_header f l repo :
  at_ l = len f → phase l = 0 → repository_ (j_ l) = repo → length repo = 16%nat →
  (at_ l - base) mod span = 0 →
  silent f l (segment_header repo ((at_ l - base) / span)) (loop_at (at_ l + header) l).
Proof.
  intros Ha Hp <- Hr Hm. apply silent_one; [|done]. by apply unit_header.
Qed.

(** Padding to the next segment and its header. *)
Lemma silent_next_segment f l repo :
  at_ l = len f → phase l = 0 → repository_ (j_ l) = repo → length repo = 16%nat →
  at_ l mod 8 = 0 → (at_ l - base) mod span ≠ 0 →
  let a := at_ l + room (at_ l) in
  silent f l (zeros (Z.to_nat (room (at_ l))) ++ segment_header repo ((a - base) / span))
    (loop_at (a + header) l) ∧ (a - base) mod span = 0.
Proof.
  intros Ha Hp Hre Hr Hal Hm. cbv zeta. set (in_ := (at_ l - base) mod span) in *.
  pose proof (Z.mod_pos_bound (at_ l - base) span ltac:(done)) as Hin. fold in_ in Hin.
  assert (in_ = at_ l - base - span * ((at_ l - base) / span)) as Hdiv.
  { unfold in_. pose proof (Z.div_mod (at_ l - base) span ltac:(done)). lia. }
  assert (room (at_ l) = span - in_) as Hroom by done.
  assert (4 ≤ room (at_ l)) as H4.
  { rewrite Hroom. unfold base, span in *. Z.to_euclidean_division_equations. lia. }
  assert ((at_ l + room (at_ l) - base) mod span = 0) as Hm0.
  { rewrite Hroom. replace (at_ l + (span - in_) - base)
      with ((1 + (at_ l - base) / span) * span) by lia. apply Z_mod_mult. }
  split; [|done]. apply (silent_app _ _ _ (loop_at (at_ l + room (at_ l)) l)).
  - apply silent_one; [|done]. by apply unit_padding.
  - apply (silent_header _ (loop_at (at_ l + room (at_ l)) l)); [|done..].
    simpl. rewrite len_app, len_zeros. lia.
Qed.

(** Where the batch starts, and the silent sequence that leads there. *)
Lemma lead_silent f l j required new_segment at0 :
  placement j required = (new_segment, at0) → jwf j → at_ l = len f → end_ j = len f →
  phase l = 0 → repository_ (j_ l) = repository_ j → required ≤ span - header →
  let b := at0 + (if new_segment then header else 0) in
  silent f l (lead j new_segment at0) (loop_at b l) ∧
  b = len (f ++ lead j new_segment at0) ∧ fits b required ∧ end_ j ≤ at0.
Proof.
  intros Hp [Hrepo _ Hend Hal Hins _ _] Ha He Hph Hre Hreq. unfold placement in Hp.
  assert (at_ l = end_ j) as Hae by lia. rewrite <- Hae in *. unfold lead. rewrite <- Hae.
  pose proof (room_pos (at_ l)) as Hrp.
  destruct (Z.eqb_spec ((at_ l - base) mod span) 0) as [E0|E0]; simpl in Hp.
  - injection Hp as <- <-. cbv zeta. rewrite Z.sub_diag.
    change (zeros (Z.to_nat 0)) with (@nil byte). cbn [app].
    split_and!; [by apply silent_header|rewrite len_app, len_segment_header by done; lia| |lia].
    eapply fits_weaken; [by apply segment_start|done].
  - fold (room (at_ l)) in Hp.
    destruct (Z.ltb_spec (room (at_ l)) required) as [Hs|Hs]; injection Hp as <- <-; cbv zeta.
    + fold (room (at_ l)). set (r := room (at_ l)) in *.
      replace (at_ l + r - at_ l) with r by lia.
      destruct (silent_next_segment f l (repository_ j)) as [Hsil Hm0]; [done..|].
      split_and!; [done| | |lia].
      * rewrite !len_app, len_zeros, len_segment_header by done. lia.
      * eapply fits_weaken; [apply segment_start; [lia|done]|done].
    + rewrite Z.add_0_r, app_nil_r. split_and!; [|lia|split; [done|lia|done|done]|lia].
      replace (loop_at (at_ l) l) with l; [by constructor|by destruct l].
Qed.

(** ** Records of a transaction *)

(** The loop state once a new transaction has been started. *)
Definition reset (l : loop) : loop :=
  if phase l =? 0
  then mkLoop (at_ l) (phase l) (at_ l) (prepare_at l) (prep l) ∅ ∅ [] (j_ l) else l.

(** Replay has read the DATA records [B], indexed as [P], of a transaction that
    starts at [b]. *)
Record in_tx (j : journal) (b : Z) (P : gmap Id Location) (B : Bytes) (l : loop) : Prop := {
  tx_phase : phase l = 0 ∨ phase l = 1;
  tx_journal : j_ l = j;
  tx_pending : pending_objects (reset l) = P;
  tx_changes : changes (reset l) = ∅;
  tx_batch : batch (reset l) = B;
  tx_begin : begin_ (reset l) = b;
  tx_at : at_ l = b + len B;
}.

Lemma in_tx_start l : phase l = 0 → in_tx (j_ l) (at_ l) ∅ [] l.
Proof.
  intros Hp. split; unfold reset; rewrite ?Hp; try done; [by left|]. rewrite len_nil. lia.
Qed.

Lemma reset_fields l : at_ (reset l) = at_ l ∧ j_ (reset l) = j_ l ∧ phase (reset l) = phase l.
Proof. unfold reset. by destruct (phase l =? 0). Qed.

Lemma on_record_eq r l :
  on_record r l = (
  need (negb (seq_ (j_ l) =? UINT64_MAX) && (rseq r =? seq_ (j_ l) + 1)) "journal sequence gap";;
  l2 ← (let l := reset l in
    let j := j_ l in
    let p := rpayload r in
    if (phase l <? 2) && (type r =? 1) then
      need ((4 <=? len p) && (len p <=? max_payload + 4)) "invalid DATA size";;
      need ((load p 2 =? 4) && (load (drop 2 p) 2 =? 0)) "unsupported object type";;
      need (bool_decide (object_hash (drop 4 p) = oid r)) "object identity mismatch";;
      need ((size (pending_objects l) <? 64)%nat
            && bool_decide (pending_objects l !! oid r = None))
        "duplicate or excess batch objects";;
      Ok (mkLoop (at_ l) 1 (begin_ l) (prepare_at l) (prep l)
            (<[oid r := mkLocation (at_ l) (len (encoded r))]> (pending_objects l))
            (changes l) (batch l ++ encoded r) (j_ l))
    else if (phase l <? 2) && ((type r =? 2) || (type r =? 7) || (type r =? 8)) then
      changes ← prepare_changes r l;
      Ok (mkLoop (at_ l) 2 (begin_ l) (at_ l) r (pending_objects l) changes
            (batch l ++ encoded r) (j_ l))
    else
      need ((phase l =? 2) && (type r =? 3) && bool_decide (oid r = zero_id) && (len p =? 136))
        "expected commit record";;
      need ((load p 8 =? rseq r) && bytes_eqb (slice 8 32 p) (last_hash_ j))
        "commit predecessor mismatch";;
      need ((load (drop 40 p) 8 =? prepare_at l) && (load (drop 48 p) 4 =? len (encoded (prep l)))
            && (load (drop 52 p) 4 =? 0)) "commit prepare location mismatch";;
      need (bytes_eqb (slice 56 32 p) (digest (rpayload (prep l)))
            && (load (drop 88 p) 8 =? begin_ l) && (load (drop 96 p) 8 =? at_ l)
            && bytes_eqb (slice 104 32 p) (digest (batch l))) "commit batch mismatch";;
      Ok (mkLoop (at_ l) 0 (begin_ l) (prepare_at l) (prep l) (pending_objects l) (changes l)
            (batch l)
            (mkJournal (repository_ j) (rseq r) (at_ l + len (encoded r)) (tagged commit_tag p)
               (apply_changes (roots_ j) (changes l))
               (add_objects (objects_ j) (pending_objects l))
               (replayed_ j + 1) (tail_ j) (poisoned_ j))));
  need (len (batch l2) <=? 2 * 1024 * 1024) "transaction batch too large";;
  Ok (loop_at (at_ l2 + len (encoded r)) l2)).
Proof.
  unfold on_record, reset. cbv zeta. by destruct (phase l =? 0).
Qed.

Lemma length_data_payload v : len (data_payload v) = 4 + len v.
Proof. unfold data_payload. rewrite len_app. done. Qed.

Lemma data_recordable seq v :
  0 ≤ seq ≤ UINT64_MAX → len v ≤ max_payload →
  recordable 1 seq (data_payload v) (object_hash v).
Proof.
  intros Hs Hv. split; [lia|done|apply length_object_hash|].
  rewrite length_data_payload. unfold record_length, max_payload in *.
  Z.to_euclidean_division_equations. lia.
Qed.

(** The loop accepts a DATA record of the transaction. *)
Lemma data_body l j b P B v e :
  in_tx j b P B l → seq_ j ≠ UINT64_MAX → len v ≤ max_payload →
  P !! object_hash v = None → (size P < 64)%nat → len (B ++ e) ≤ 2 * 1024 * 1024 →
  ∃ l', record_body (mkRec 1 (seq_ j + 1) (at_ l) (object_hash v) (data_payload v) e) l = Ok l' ∧
    in_tx j b (<[object_hash v := mkLocation (b + len B) (len e)]> P) (B ++ e) l' ∧
    at_ l' = at_ l + len e.
Proof.
  intros [Hph Hj HP HC HB Hb Hat] Hseq Hv Hfresh Hsz Hlen.
  pose proof (reset_fields l) as (Hra & Hrj & Hrp).
  eexists. split.
  - unfold record_body. cbn [type]. rewrite andb_false_r, on_record_eq.
    cbn [rseq rpayload encoded oid type]. cbv zeta. rewrite Hrj, Hj, HP, HC, HB, Hb, Hra, Hrp.
    rewrite need_true_bind.
    2:{ rewrite Z.eqb_refl, andb_true_r. apply negb_true_iff, Z.eqb_neq. done. }
    rewrite (proj2 (Z.ltb_lt (phase l) 2)) by lia. cbn [andb Z.eqb Pos.eqb].
    rewrite length_data_payload, need_true_bind.
    2:{ rewrite andb_true_iff, !Z.leb_le. pose proof (len_nonneg v). lia. }
    rewrite need_true_bind by done.
    rewrite need_true_bind by (by apply bool_decide_eq_true).
    rewrite need_true_bind.
    2:{ rewrite andb_true_iff, Nat.ltb_lt. split; [done|]. by apply bool_decide_eq_true. }
    cbn [mbind result_bind batch at_].
    by rewrite need_true_bind by (apply Z.leb_le; done).
  - split; [|simpl; lia]. split; unfold reset; simpl; try done; [by right|by rewrite Hat|].
    rewrite len_app. lia.
Qed.

Lemma record_aligned type seq p o : length o = 32%nat → len (record type seq p o) mod 8 = 0.
Proof. intros Ho. rewrite length_record by done. apply record_length_mod. Qed.

Lemma record_positive type seq p o : length o = 32%nat → 80 ≤ len (record type seq p o).
Proof.
  intros Ho. rewrite length_record by done. destruct (record_length_eq (length p)) as [Hl _].
  unfold len. lia.
Qed.

(** A record of the transaction at its place is a unit. *)
Lemma tx_unit f l l' j b P B req type p o e :
  in_tx j b P B l → at_ l = len f → fits b req → len B mod 8 = 0 →
  e = record type (seq_ j + 1) p o → recordable type (seq_ j + 1) p o →
  len B + len e ≤ req →
  record_body (mkRec type (seq_ j + 1) (at_ l) o p e) l = Ok l' → at_ l' = at_ l + len e →
  unit_of f l e l'.
Proof.
  intros Htx Ha Hfit H8 He Hrec Hreq Hbody Hat.
  pose proof (record_positive type (seq_ j + 1) p o (rec_oid _ _ _ _ Hrec)) as Hpos.
  rewrite <- He in Hpos. pose proof (len_nonneg B).
  destruct (fits_shift b (len B) req Hfit) as [Hb Hi Hr _]; [lia|done|].
  rewrite <- (tx_at _ _ _ _ _ Htx) in *.
  apply (unit_record f l l' type (seq_ j + 1) p o); try done; unfold header in *; lia.
Qed.

Lemma data_records_prefix seq vs : ∀ B L, ∃ y, fst (data_records seq vs B L) = B ++ y.
Proof.
  induction vs as [|[id v] vs IH]; intros B L; simpl; [exists []; by rewrite app_nil_r|].
  destruct (IH (B ++ record 1 seq (data_payload v) id)
    (<[id := mkLocation (len B) (len (record 1 seq (data_payload v) id))]> L)) as [y ->].
  eexists. by rewrite <- app_assoc.
Qed.

Definition sound_value (p : Id * Bytes) : Prop :=
  p.1 = object_hash p.2 ∧ len p.2 ≤ max_payload.

Lemma shift_insert (b k n : Z) (id : Id) (L : gmap Id Location) :
  shift_locations b (<[id := mkLocation k n]> L) =
  <[id := mkLocation (b + k) n]> (shift_locations b L).
Proof. unfold shift_locations. by rewrite fmap_insert. Qed.

Lemma data_silent j b req vs : ∀ f l B L B' L',
  in_tx j b (shift_locations b L) B l → at_ l = len f → fits b req → len B mod 8 = 0 →
  0 ≤ seq_ j < UINT64_MAX →
  Forall sound_value vs → NoDup vs.*1 → (∀ id, id ∈ vs.*1 → L !! id = None) →
  (size L + length vs ≤ 64)%nat → data_records (seq_ j + 1) vs B L = (B', L') →
  len B' ≤ req → len B' ≤ 2 * 1024 * 1024 →
  ∃ l' x, B' = B ++ x ∧ silent f l x l' ∧ in_tx j b (shift_locations b L') B' l' ∧
    len B' mod 8 = 0 ∧ at_ l' = len (f ++ x).
Proof.
  induction vs as [|[id v] vs IH]; intros f l B L B' L' Htx Ha Hfit H8 Hseq Hvs Hnd Hfr Hsz Hdr Hreq Hmax.
  { injection Hdr as <- <-. exists l, []. rewrite !app_nil_r. split_and!; try done. by constructor. }
  apply Forall_cons in Hvs as [[Hid Hv] Hvs]. simpl in Hid, Hv. subst id.
  rewrite fmap_cons in Hnd, Hfr. apply NoDup_cons in Hnd as [Hnotin Hnd]. cbn [fst] in *.
  cbn [data_records] in Hdr. set (e := record 1 (seq_ j + 1) (data_payload v) (object_hash v)) in *.
  destruct (data_records_prefix (seq_ j + 1) vs (B ++ e)
    (<[object_hash v := mkLocation (len B) (len e)]> L)) as [y Hy].
  rewrite Hdr in Hy. simpl in Hy.
  assert (len (B ++ e) ≤ len B') as Hle.
  { rewrite Hy, (len_app (B ++ e)). pose proof (len_nonneg y). lia. }
  destruct (data_body l j b (shift_locations b L) B v e) as (l1 & Hbody & Htx1 & Hat1);
    [done|lia|done| | |lia|].
  { unfold shift_locations. rewrite lookup_fmap, Hfr by set_solver. done. }
  { unfold shift_locations. rewrite map_size_fmap. simpl in Hsz. lia. }
  pose proof (data_recordable (seq_ j + 1) v ltac:(lia) Hv) as Hrec.
  assert (unit_of f l e l1) as Hu.
  { eapply tx_unit; try done. rewrite len_app in Hle. lia. }
  rewrite <- shift_insert in Htx1.
  destruct (IH (f ++ e) l1 (B ++ e) (<[object_hash v := mkLocation (len B) (len e)]> L) B' L')
    as (l' & x & Hx & Hsil & Htx' & H8' & Hat'); try done.
  - rewrite len_app. lia.
  - rewrite len_app, Z.add_mod, H8 by done. unfold e.
    by rewrite record_aligned by apply length_object_hash.
  - intros id Hin. rewrite lookup_insert_ne by set_solver. apply Hfr. set_solver.
  - rewrite map_size_insert_None by (apply Hfr; set_solver). simpl in Hsz. lia.
  - exists l', (e ++ x). split_and!; [by rewrite app_assoc| |done|done|by rewrite app_assoc].
    econstructor; [done| |done]. by rewrite (tx_journal _ _ _ _ _ Htx1), (tx_journal _ _ _ _ _ Htx).
Qed.
End Commit.
