(* ===== verification/JournalTx.v ===== *)
(** * Whole transactions in the log

    The payload of a prepare record and how replay reads it back; then segment lead, DATA
    records, prepare record and commit record: all but the last are silent, and the last
    installs the new state. *)

From S2P Require Import Prelude Codec Journal JournalRecord JournalReplay JournalCommit.
Import Journal.
Local Open Scope Z_scope.

(** ** Prepare records

    The entries of a batch prepare record parse back to the changes they encode, with
    every referenced object accounted for. *)

Lemma drop_past (a b : Bytes) k : drop (length a + k) (a ++ b) = drop k b.
Proof. apply drop_app_add. Qed.

Lemma slice_past (a b : Bytes) k n : slice (length a + k) n (a ++ b) = slice k n b.
Proof. unfold slice. by rewrite drop_past. Qed.

Definition op_of (id : option Id) : Z := match id with Some _ => 1 | None => 2 end.
Definition id_bytes (id : option Id) : Id := default zero_id id.
Definition wide (id : option Id) : Prop := ∀ i, id = Some i → length i = 32%nat.

Lemma length_id_bytes id : wide id → length (id_bytes id) = 32%nat.
Proof. intros Hw. destruct id as [i|]; [by apply Hw|done]. Qed.

Lemma batch_entry_eq key id :
  wide id → batch_entry key id = concat [store (op_of id) 4; store (len key) 4; key; id_bytes id].
Proof.
  intros Hw. unfold batch_entry. cbv zeta.
  replace (8 + length key + 32)%nat with (sum_list [4; 4; length key; 32])%nat by (simpl; lia).
  rewrite zeros_fields. unfold fmap, list_fmap.
  put_field 0%nat. put_field 1%nat. put_field 2%nat.
  destruct id as [i|]; [|done]. specialize (Hw i eq_refl). by put_field 3%nat.
Qed.

Lemma len_batch_entry key id : wide id → len (batch_entry key id) = 40 + len key.
Proof.
  intros Hw. rewrite batch_entry_eq by done. pose proof (length_id_bytes id Hw).
  unfold len. field_lengths. lia.
Qed.

(** Reading one entry. *)
Lemma entry_parse pre key id rest :
  wide id → (0 < length key ≤ 1024)%nat →
  let p := pre ++ batch_entry key id ++ rest in
  let c := length pre in
  load (drop c p) 4 = op_of id ∧ load (drop (c + 4) p) 4 = len key ∧
  slice (c + 8) (length key) p = key ∧ slice (c + 8 + length key) 32 p = id_bytes id ∧
  len p = len pre + 40 + len key + len rest.
Proof.
  intros Hw Hk. cbv zeta. rewrite batch_entry_eq by done. pose proof (length_id_bytes id Hw) as Hi.
  replace (concat [store (op_of id) 4; store (len key) 4; key; id_bytes id] ++ rest)
    with (concat [store (op_of id) 4; store (len key) 4; key; id_bytes id; rest])
    by (cbn [concat]; by rewrite !app_nil_r, <- !app_assoc).
  rewrite <- (Nat.add_0_r (length pre)) at 1. rewrite <- Nat.add_assoc.
  rewrite !drop_past, !slice_past. split_and!.
  - apply (load_field 0); [done..|]. destruct id; simpl; lia.
  - apply (load_field 1); [done|field_lengths; lia|]. unfold len. lia.
  - apply (slice_field 2); [done|field_lengths; lia|done].
  - apply (slice_field 3); [done|field_lengths; lia|done].
  - rewrite len_app. unfold len. field_lengths. lia.
Qed.

Definition add_change {V} (m : gmap Bytes V) (e : Bytes * V) : gmap Bytes V :=
  emplace e.1 e.2 m.

(** The keys strictly increase, from a previous one. *)
Fixpoint ascending {V} (first : bool) (previous : Bytes) (l : list (Bytes * V)) : Prop :=
  match l with
  | [] => True
  | e :: rest => (first = true ∨ lex_lt previous e.1) ∧ ascending false e.1 rest
  end.

Section Entries.
Context (rtype : Z) (j : journal) (pending : gmap Id Location).

(** An entry replay accepts. *)
Definition entry_ok (e : Bytes * option Id) : Prop :=
  (0 < length e.1 ≤ 1024)%nat ∧ wide e.2 ∧
  match e.2 with
  | Some id => is_Some (pending !! id) ∨ rtype = 8 ∧ is_Some (objects_ j !! id)
  | None => is_Some (roots_ j !! e.1)
  end.

Definition note_reference (s : gset Id) (e : Bytes * option Id) : gset Id :=
  match e.2 with
  | Some id => if bool_decide (is_Some (pending !! id)) then {[id]} ∪ s else s
  | None => s
  end.

Lemma batch_entries_run l : ∀ first previous pre p changes referenced,
  p = pre ++ concat ((λ e, batch_entry e.1 e.2) <$> l) →
  Forall entry_ok l → ascending first previous l →
  batch_entries (length l) first rtype p j pending (length pre) previous changes referenced =
  Ok (length p, foldl add_change changes l, foldl note_reference referenced l).
Proof.
  induction l as [|[k v] l IH]; intros first previous pre p changes referenced Hp Hok Hasc.
  { simpl in Hp. rewrite app_nil_r in Hp. by subst. }
  apply Forall_cons in Hok as [(Hk & Hw & Hv) Hok]. simpl in Hk, Hw, Hv.
  destruct Hasc as [Hfirst Hasc]. simpl in Hfirst, Hasc.
  rewrite fmap_cons in Hp. cbn [concat fst snd] in Hp.
  set (rest := concat _) in *.
  pose proof (entry_parse pre k v rest Hw Hk) as Hparse. cbv zeta in Hparse.
  rewrite <- Hp in Hparse. destruct Hparse as (Hop & Hkn & Hkey & Hid & Hlen).
  pose proof (len_nonneg rest). pose proof (len_nonneg pre).
  cbn [length batch_entries]. cbv zeta. rewrite Hop, Hkn.
  assert (Z.to_nat (len k) = length k) as -> by (unfold len; lia). rewrite Hkey, Hid.
  assert (batch_entries (length l) false rtype p j pending
      (length pre + 8 + length k + 32) k (add_change changes (k, v))
      (note_reference referenced (k, v)) =
    Ok (length p, foldl add_change (add_change changes (k, v)) l,
        foldl note_reference (note_reference referenced (k, v)) l)) as Hrec.
  { replace (length pre + 8 + length k + 32)%nat with (length (pre ++ batch_entry k v)).
    - apply IH; [by rewrite <- app_assoc|done..].
    - rewrite length_app. pose proof (len_batch_entry k v Hw). unfold len in *. lia. }
  rewrite need_true_bind.
  2:{ rewrite andb_true_iff, !Z.leb_le. unfold len in *. lia. }
  rewrite need_true_bind.
  2:{ rewrite !andb_true_iff, Z.ltb_lt, !Z.leb_le. split_and!; [by destruct v|unfold len in *; lia..]. }
  rewrite need_true_bind.
  2:{ destruct Hfirst as [->|Hlt]; [done|]. apply orb_true_iff. by right. }
  destruct v as [id|]; cbn [op_of id_bytes default Z.eqb Pos.eqb].
  - rewrite need_true_bind; [exact Hrec|]. apply orb_true_iff. rewrite bool_decide_eq_true.
    destruct Hv as [Hv|[-> Hv]]; [by left|right]. simpl. by apply bool_decide_eq_true.
  - rewrite need_true_bind; [exact Hrec|]. by rewrite !bool_decide_eq_true_2.
Qed.
End Entries.

Lemma foldl_add_change {V} (l : list (Bytes * V)) (m : gmap Bytes V) :
  NoDup l.*1 → (∀ k, k ∈ l.*1 → m !! k = None) →
  ∀ k, foldl add_change m l !! k =
    match (list_to_map l : gmap Bytes V) !! k with Some v => Some v | None => m !! k end.
Proof.
  revert m. induction l as [|[k' v] l IH]; intros m Hnd Hfr k; [done|].
  rewrite fmap_cons in Hnd, Hfr. apply NoDup_cons in Hnd as [Hk' Hnd]. cbn [fst] in *.
  cbn [foldl]. assert (add_change m (k', v) = <[k' := v]> m) as ->.
  { unfold add_change, emplace. simpl. rewrite Hfr by set_solver. done. }
  rewrite IH; [|done|].
  - simpl. destruct (decide (k' = k)) as [->|Hne].
    + rewrite lookup_insert_eq, (not_elem_of_list_to_map_1 l k) by done.
      by rewrite lookup_insert_eq.
    + rewrite !lookup_insert_ne by done. done.
  - intros k2 Hk2. rewrite lookup_insert_ne by set_solver. apply Hfr. set_solver.
Qed.

Lemma foldl_add_change_in_order {V} (C : gmap Bytes V) :
  foldl add_change ∅ (in_order C) = C.
Proof.
  apply map_eq. intros k. rewrite foldl_add_change.
  - rewrite list_to_map_in_order. destruct (C !! k); [done|]. by rewrite lookup_empty.
  - apply NoDup_in_order_keys.
  - intros. apply lookup_empty.
Qed.

Lemma ascending_increasing {V} first previous (l : list (Bytes * V)) :
  (first = true ∨ ∀ k, k ∈ l.*1 → lex_lt previous k) → increasing l.*1 →
  ascending first previous l.
Proof.
  revert first previous. induction l as [|[k v] l IH]; intros first previous Hp Hinc; [done|].
  rewrite fmap_cons in Hinc, Hp. cbn [fst] in *.
  change (k :: l.*1) with ([k] ++ l.*1) in Hinc. apply increasing_app in Hinc as (_ & Hl & Hkl).
  split.
  - destruct Hp as [?|Hp]; [by left|right]. apply Hp. set_solver.
  - apply IH; [|done]. right. intros x Hx. apply Hkl; set_solver.
Qed.

Lemma ascending_in_order {V} (C : gmap Bytes V) : ascending true [] (in_order C).
Proof. apply ascending_increasing; [by left|]. apply increasing_in_order. Qed.

(** The references of the changes are exactly the pending objects. *)
Lemma references_in_order (pending : gmap Id Location) (C : gmap Bytes (option Id)) :
  (∀ id, is_Some (pending !! id) → ∃ k, C !! k = Some (Some id)) →
  foldl (note_reference pending) ∅ (in_order C) = dom pending.
Proof.
  intros Hall.
  assert (∀ l s id, id ∈ foldl (note_reference pending) s l ↔
    id ∈ s ∨ (∃ k, (k, Some id) ∈ l) ∧ is_Some (pending !! id)) as Hmem.
  { intros l. induction l as [|[k v] l IH]; intros s id; cbn [foldl]; [set_solver|].
    rewrite IH. unfold note_reference at 1. cbn [snd].
    destruct v as [i|]; [|set_solver]. case_bool_decide as Hi; [|set_solver].
    rewrite elem_of_union, elem_of_singleton. split.
    - intros [[->|?]|[[k' ?] ?]]; [right|by left|right].
      + split; [exists k; set_solver|done].
      + split; [exists k'; set_solver|done].
    - intros [?|[[k' [[= <- <-]|?]%elem_of_cons] ?]]; [by left; right|by left; left|right].
      split; [by exists k'|done]. }
  apply set_eq. intros id. rewrite Hmem, elem_of_dom. split.
  - intros [?|[_ ?]]; [set_solver|done].
  - intros Hid. right. split; [|done]. destruct (Hall id Hid) as [k Hk]. exists k.
    by apply elem_of_in_order.
Qed.

Lemma foldl_append {A} (h : Bytes → A → Bytes) (g : A → Bytes) l b :
  (∀ b x, h b x = b ++ g x) → foldl h b l = b ++ concat (g <$> l).
Proof.
  intros Hh. revert b. induction l as [|x l IH]; intros b; cbn [foldl]; [by rewrite app_nil_r|].
  rewrite IH, Hh, fmap_cons. cbn [concat]. by rewrite app_assoc.
Qed.

Section Prepare.
Context `{DigestOk}.

Definition prepare_head (j : journal) (expected : Z) (C : gmap Bytes (option Id)) : list Bytes :=
  [last_hash_ j; store expected 8; store (Z.of_nat (size C)) 4].

Lemma prepare_payload_eq j expected C :
  length (last_hash_ j) = 32%nat →
  prepare_payload j expected C =
    concat (prepare_head j expected C) ++
    concat ((λ e, batch_entry e.1 e.2) <$> in_order C).
Proof.
  intros Hl. unfold prepare_payload. cbv zeta.
  rewrite (foldl_append _ (λ e : Bytes * option Id, batch_entry e.1 e.2)) by (by intros b []).
  f_equal. change 44%nat with (sum_list [32; 8; 4]%nat). rewrite zeros_fields.
  unfold fmap, list_fmap. put_field 0%nat. put_field 1%nat. by put_field 2%nat.
Qed.

Lemma prepare_head_length j expected C :
  length (last_hash_ j) = 32%nat → length (concat (prepare_head j expected C)) = 44%nat.
Proof. intros Hl. unfold prepare_head. field_lengths. lia. Qed.

(** A batch prepare record of the writer announces its changes. *)
Lemma prepare_changes_run l j P B b C rtype enc :
  in_tx j b P B l → jwf j → (rtype = 7 ∨ rtype = 8) →
  (0 < size C ≤ 64)%nat → Forall (entry_ok rtype j P) (in_order C) →
  (∀ id, is_Some (P !! id) → ∃ k, C !! k = Some (Some id)) →
  prepare_changes (mkRec rtype (seq_ j + 1) (at_ l) zero_id (prepare_payload j (seq_ j) C) enc)
    (reset l) = Ok C.
Proof.
  intros Htx Hwf Hty Hsz Hok Hall. pose proof (wf_last _ Hwf) as Hlast.
  pose proof (wf_seq _ Hwf) as Hseq. unfold UINT64_MAX in Hseq.
  pose proof (prepare_payload_eq j (seq_ j) C Hlast) as Hp.
  set (p := prepare_payload j (seq_ j) C) in *.
  pose proof (prepare_head_length j (seq_ j) C Hlast) as Hh.
  assert (44 ≤ len p) as Hlen.
  { rewrite Hp. rewrite len_app. unfold len at 1. rewrite Hh. pose proof (len_nonneg
      (concat ((λ e : Bytes * option Id, batch_entry e.1 e.2) <$> in_order C))). lia. }
  assert (∀ i off, (i < 3)%nat → off = field_offset i (prepare_head j (seq_ j) C) →
    drop off p = concat (drop i (prepare_head j (seq_ j) C)) ++
      concat ((λ e, batch_entry e.1 e.2) <$> in_order C)) as Hdrop.
  { intros i off Hi ->. rewrite Hp, drop_app_le.
    - by rewrite (drop_field i).
    - unfold field_offset. rewrite <- (take_drop i (prepare_head j (seq_ j) C)) at 2.
      rewrite concat_app, length_app. lia. }
  unfold prepare_changes. cbn [rpayload oid type]. cbv zeta.
  pose proof (reset_fields l) as (_ & Hrj & _). rewrite Hrj, (tx_journal _ _ _ _ _ Htx).
  rewrite (tx_pending _ _ _ _ _ Htx), (tx_changes _ _ _ _ _ Htx).
  rewrite need_true_bind by (apply andb_true_iff; split; [done|apply Z.leb_le; lia]).
  rewrite need_true_bind.
  2:{ apply bool_decide_eq_true. unfold slice. rewrite (Hdrop 0%nat 0%nat) by (done || lia).
      cbn [drop concat prepare_head]. rewrite <- !app_assoc. by apply take_app_length'. }
  rewrite (proj2 (Z.eqb_neq rtype 2)) by lia.
  rewrite (Hdrop 1%nat 32%nat) by (lia || unfold prepare_head; field_lengths; lia).
  rewrite (Hdrop 2%nat 40%nat) by (lia || unfold prepare_head; field_lengths; lia).
  cbn [drop concat prepare_head]. rewrite <- !app_assoc, !load_store by lia.
  rewrite need_true_bind by (rewrite Z.eqb_refl, andb_true_r; apply Z.leb_le; lia).
  rewrite need_true_bind by (rewrite andb_true_iff, Z.ltb_lt, Z.leb_le; lia).
  pose proof (batch_entries_run rtype j P (in_order C) true [] _ p ∅ ∅ Hp Hok
    (ascending_in_order C)) as Hrun.
  rewrite Hh, length_in_order in Hrun. rewrite Nat2Z.id, Hrun.
  cbn [mbind result_bind]. rewrite foldl_add_change_in_order, references_in_order by done.
  rewrite need_true_bind; [done|]. rewrite andb_true_iff, Z.eqb_eq, Nat.eqb_eq.
  split; [done|]. apply size_dom.
Qed.
End Prepare.

(** ** The whole transaction *)

Section Tx.
Context `{DigestOk}.

(** Replay has read the prepare record [r] of a transaction. *)
Record prepared (j : journal) (b : Z) (P : gmap Id Location) (B : Bytes)
    (C : gmap Bytes (option Id)) (pa : Z) (r : Rec) (l : loop) : Prop := {
  pr_phase : phase l = 2;
  pr_journal : j_ l = j;
  pr_pending : pending_objects l = P;
  pr_changes : changes l = C;
  pr_batch : batch l = B;
  pr_begin : begin_ l = b;
  pr_at : at_ l = b + len B;
  pr_prepare : prepare_at l = pa;
  pr_rec : prep l = r;
}.

Lemma prepare_body l j b P B C rtype pp e :
  let r := mkRec rtype (seq_ j + 1) (at_ l) zero_id pp e in
  in_tx j b P B l → seq_ j ≠ UINT64_MAX → (rtype = 2 ∨ rtype = 7 ∨ rtype = 8) →
  prepare_changes r (reset l) = Ok C → len (B ++ e) ≤ 2 * 1024 * 1024 →
  ∃ l', record_body r l = Ok l' ∧ prepared j b P (B ++ e) C (b + len B) r l' ∧
    at_ l' = at_ l + len e.
Proof.
  intros r [Hph Hj HP HC HB Hb Hat] Hseq Hty Hpc Hlen.
  pose proof (reset_fields l) as (Hra & Hrj & Hrp). eexists. split.
  - unfold record_body, r. cbn [type]. rewrite (proj2 (Z.eqb_neq rtype 5)) by lia.
    rewrite andb_false_r, on_record_eq. fold r.
    cbn [rseq rpayload encoded oid type r]. cbv zeta. rewrite Hrj, Hj, HP, HB, Hb, Hra, Hrp.
    rewrite need_true_bind.
    2:{ rewrite Z.eqb_refl, andb_true_r. apply negb_true_iff, Z.eqb_neq. done. }
    rewrite (proj2 (Z.ltb_lt (phase l) 2)) by lia.
    rewrite (proj2 (Z.eqb_neq rtype 1)) by lia.
    replace ((rtype =? 2) || (rtype =? 7) || (rtype =? 8)) with true
      by (destruct Hty as [->|[->| ->]]; done).
    cbn [andb]. rewrite Hpc. cbn [mbind result_bind batch at_].
    by rewrite need_true_bind by (apply Z.leb_le; done).
  - split; [|done]. split; simpl; try done; rewrite ?len_app; lia.
Qed.

Definition commit_fields (j : journal) (pa ps b : Z) (pp batch : Bytes) : list Bytes :=
  [store (seq_ j + 1) 8; last_hash_ j; store pa 8; store ps 4; zeros 4; digest pp;
   store b 8; store (b + len batch) 8; digest batch].

Lemma commit_payload_eq j pa ps b pp batch :
  length (last_hash_ j) = 32%nat →
  commit_payload j pa ps b pp batch = concat (commit_fields j pa ps b pp batch).
Proof.
  intros Hl. unfold commit_payload. cbv zeta.
  pose proof (digest_length pp) as Hpp. pose proof (digest_length batch) as Hb.
  change 136%nat with (sum_list [8; 32; 8; 4; 4; 32; 8; 8; 32]%nat). rewrite zeros_fields.
  unfold fmap, list_fmap. put_field 0%nat. put_field 1%nat. put_field 2%nat. put_field 3%nat.
  put_field 5%nat. put_field 6%nat. put_field 7%nat. by put_field 8%nat.
Qed.

Lemma len_commit_payload j pa ps b pp batch :
  length (last_hash_ j) = 32%nat → len (commit_payload j pa ps b pp batch) = 136.
Proof.
  intros Hl. rewrite commit_payload_eq by done. unfold len, commit_fields.
  pose proof (digest_length pp). pose proof (digest_length batch). field_lengths. lia.
Qed.

(** The fields of a commit payload read back. *)
Lemma commit_fields_read j pa ps b pp batch :
  jwf j → seq_ j < UINT64_MAX → 0 ≤ pa ≤ UINT64_MAX → 0 ≤ ps < 2 ^ 32 →
  0 ≤ b → b + len batch ≤ UINT64_MAX →
  let p := commit_payload j pa ps b pp batch in
  load p 8 = seq_ j + 1 ∧ slice 8 32 p = last_hash_ j ∧ load (drop 40 p) 8 = pa ∧
  load (drop 48 p) 4 = ps ∧ load (drop 52 p) 4 = 0 ∧ slice 56 32 p = digest pp ∧
  load (drop 88 p) 8 = b ∧ load (drop 96 p) 8 = b + len batch ∧
  slice 104 32 p = digest batch.
Proof.
  intros Hwf Hs Hpa Hps Hb Hbb. pose proof (wf_last _ Hwf) as Hl. pose proof (wf_seq _ Hwf).
  pose proof (len_nonneg batch). unfold UINT64_MAX in *. cbv zeta.
  rewrite commit_payload_eq by done. unfold commit_fields.
  pose proof (digest_length pp) as Hpp. pose proof (digest_length batch) as Hbt.
  split_and!.
  - rewrite <- (drop_0 (concat _)). apply (load_field 0); [done..|lia].
  - apply (slice_field 1); [done|field_lengths; lia|done].
  - apply (load_field 2); [done|field_lengths; lia|lia].
  - apply (load_field 3); [done|field_lengths; lia|lia].
  - rewrite (drop_field 4) by (field_lengths; lia). done.
  - apply (slice_field 5); [done|field_lengths; lia|done].
  - apply (load_field 6); [done|field_lengths; lia|lia].
  - apply (load_field 7); [done|field_lengths; lia|lia].
  - apply (slice_field 8); [done|field_lengths; lia|done].
Qed.

(** The journal after replaying a transaction. *)
Definition replayed_commit (j : journal) (C : gmap Bytes (option Id)) (P : gmap Id Location)
    (cp : Bytes) (e : Z) : journal :=
  mkJournal (repository_ j) (seq_ j + 1) e (tagged commit_tag cp)
    (apply_changes (roots_ j) C) (add_objects (objects_ j) P)
    (replayed_ j + 1) (tail_ j) (poisoned_ j).

Lemma commit_body l j b P B C r e :
  prepared j b P B C (prepare_at l) r l → jwf j → seq_ j < UINT64_MAX →
  0 ≤ prepare_at l ≤ UINT64_MAX → len (encoded r) < 2 ^ 32 → 0 ≤ b → b + len B ≤ UINT64_MAX →
  len B ≤ 2 * 1024 * 1024 →
  let cp := commit_payload j (prepare_at l) (len (encoded r)) b (rpayload r) B in
  ∃ l', record_body (mkRec 3 (seq_ j + 1) (at_ l) zero_id cp e) l = Ok l' ∧
    j_ l' = replayed_commit j C P cp (at_ l + len e) ∧ phase l' = 0 ∧
    at_ l' = at_ l + len e.
Proof.
  intros [Hph Hj HP HC HB Hb Hat Hpa Hr] Hwf Hs Hpa2 He Hb0 Hbb Hmax cp.
  pose proof (commit_fields_read j (prepare_at l) (len (encoded r)) b (rpayload r) B) as Hread.
  destruct Hread as (R1 & R2 & R3 & R4 & R5 & R6 & R7 & R8 & R9); try done;
    [split; [apply len_nonneg|done]|]. fold cp in R1, R2, R3, R4, R5, R6, R7, R8, R9.
  assert (reset l = l) as Hreset by (unfold reset; by rewrite Hph).
  eexists. split.
  - unfold record_body. cbn [type]. rewrite andb_false_r, on_record_eq, Hreset.
    cbn [rseq rpayload encoded oid type]. cbv zeta.
    rewrite Hj, HP, HC, HB, Hb, Hph, Hr, R1, R2, R3, R4, R5, R6, R7, R8, R9.
    unfold cp. rewrite len_commit_payload by apply Hwf. fold cp.
    rewrite need_true_bind.
    2:{ rewrite Z.eqb_refl, andb_true_r. apply negb_true_iff, Z.eqb_neq. lia. }
    cbn [Z.ltb Z.compare Pos.compare Pos.compare_cont andb].
    rewrite need_true_bind by done.
    rewrite need_true_bind by (rewrite Z.eqb_refl; by apply bool_decide_eq_true).
    rewrite need_true_bind by (by rewrite !Z.eqb_refl).
    rewrite need_true_bind.
    2:{ rewrite <- Hat, !Z.eqb_refl. unfold bytes_eqb. by rewrite !bool_decide_eq_true_2. }
    cbn [mbind result_bind batch at_].
    by rewrite need_true_bind by (apply Z.leb_le; done).
  - done.
Qed.

(** The same journal with other bookkeeping flags. *)
Definition flags (r : Z) (t p : bool) (j : journal) : journal :=
  mkJournal (repository_ j) (seq_ j) (end_ j) (last_hash_ j) (roots_ j) (objects_ j) r t p.

Lemma jwf_flags r t p j : jwf j → jwf (flags r t p j).
Proof. intros []. by split. Qed.

Lemma commit_recordable j cp :
  jwf j → seq_ j < UINT64_MAX → len cp = 136 →
  recordable 3 (seq_ j + 1) cp zero_id ∧ len (record 3 (seq_ j + 1) cp zero_id) = 216.
Proof.
  intros Hwf Hs Hl. pose proof (wf_seq _ Hwf). split.
  - split; [lia|lia|done|]. by rewrite Hl.
  - by rewrite length_record, Hl.
Qed.

Lemma batch_silent f l j b vs data locs C rtype pp req :
  jwf j → j_ l = j → phase l = 0 → at_ l = len f → at_ l = b → seq_ j < UINT64_MAX →
  Forall sound_value vs → NoDup vs.*1 → (length vs ≤ 64)%nat →
  data_records (seq_ j + 1) vs [] ∅ = (data, locs) →
  recordable rtype (seq_ j + 1) pp zero_id → (rtype = 2 ∨ rtype = 7 ∨ rtype = 8) →
  let prepare := record rtype (seq_ j + 1) pp zero_id in
  (∀ l', in_tx j b (shift_locations b locs) data l' →
    prepare_changes (mkRec rtype (seq_ j + 1) (at_ l') zero_id pp prepare) (reset l') = Ok C) →
  fits b req → len (data ++ prepare) ≤ req → len (data ++ prepare) ≤ 2 * 1024 * 1024 →
  ∃ l1 r, silent f l (data ++ prepare) l1 ∧
    prepared j b (shift_locations b locs) (data ++ prepare) C (b + len data) r l1 ∧
    encoded r = prepare ∧ rpayload r = pp ∧ len data mod 8 = 0.
Proof.
  intros Hwf Hj Hph Ha Hb Hs Hvs Hnd Hn Hdr Hrec Hty prepare Hpc Hfit Hreq Hmax.
  pose proof (wf_seq _ Hwf) as Hsw. rewrite len_app in Hreq, Hmax.
  pose proof (len_nonneg prepare) as Hp0.
  assert (in_tx j b (shift_locations b ∅) [] l) as Htx0.
  { unfold shift_locations. rewrite fmap_empty, <- Hj, <- Hb. by apply in_tx_start. }
  destruct (data_silent j b req vs f l [] ∅ data locs) as (l1 & x & Hx & Hsil & Htx & H8 & Hat1);
    try done; [set_solver|lia|lia|].
  simpl in Hx. subst x.
  destruct (prepare_body l1 j b (shift_locations b locs) data C rtype pp prepare)
    as (l2 & Hbody & Hpr & Hat2); [done|lia|done|by apply Hpc|rewrite len_app; lia|].
  exists l2. eexists. split_and!; [|exact Hpr|done..].
  eapply silent_app; [done|]. apply silent_one.
  - eapply tx_unit; done.
  - by rewrite (pr_journal _ _ _ _ _ _ _ _ Hpr), (tx_journal _ _ _ _ _ Htx).
Qed.

(** A transaction of the writer [j], appended where replay stands at a state that
    differs from [j] in flags only. *)
Lemma tx_in_log f l j r t p vs (data : Bytes) locs C rtype (pp : Bytes) (new_segment : bool) at0
    prepare batch b cp commit start :
  prepare = record rtype (seq_ j + 1) pp zero_id →
  batch = data ++ prepare →
  b = at0 + (if new_segment then header else 0) →
  cp = commit_payload j (b + len data) (len prepare) b pp batch →
  commit = record 3 (seq_ j + 1) cp zero_id →
  start = lead j new_segment at0 →
  jwf j → j_ l = flags r t p j → phase l = 0 → at_ l = len f → end_ j = len f →
  seq_ j < UINT64_MAX → Forall sound_value vs → NoDup vs.*1 → (length vs ≤ 64)%nat →
  data_records (seq_ j + 1) vs [] ∅ = (data, locs) →
  recordable rtype (seq_ j + 1) pp zero_id → (rtype = 2 ∨ rtype = 7 ∨ rtype = 8) →
  (∀ l', in_tx (j_ l) b (shift_locations b locs) data l' →
    prepare_changes (mkRec rtype (seq_ j + 1) (at_ l') zero_id pp prepare) (reset l') = Ok C) →
  len batch ≤ 2 * 1024 * 1024 → placement j (len batch + 216) = (new_segment, at0) →
  at0 ≤ OFF_MAX - span →
  ∃ l1 l2, silent f l (start ++ batch) l1 ∧ unit_of (f ++ start ++ batch) l1 commit l2 ∧
    j_ l2 = replayed_commit (j_ l) C (shift_locations b locs) cp (b + len batch + len commit) ∧
    phase l2 = 0 ∧ b = len (f ++ start) ∧ end_ j ≤ at0 ∧ fits b (len batch + 216) ∧
    len batch mod 8 = 0 ∧ len commit = 216.
Proof.
  intros Eprep Ebatch Eb Ecp Ecommit Estart Hwf Hj Hph Ha He Hs Hvs Hnd Hn Hdr Hrec Hty Hpc Hmax
    Hpl Hoff.
  destruct (lead_silent f l j (len batch + 216) new_segment at0) as (Hlead & Hb & Hfit & Hle);
    [done..|by rewrite Hj|unfold span, header; lia|].
  rewrite <- Eb in Hlead, Hb, Hfit. rewrite <- Estart in Hlead, Hb.
  assert (b ≤ OFF_MAX - span + header) as Hbo by (destruct new_segment; unfold header in *; lia).
  pose proof (fits_base _ _ Hfit) as Hbase. unfold OFF_MAX, INT64_MAX, span, header, base in Hbo, Hbase.
  pose proof (jwf_flags r t p j Hwf) as Hwf'. rewrite <- Hj in Hwf'.
  assert (seq_ (j_ l) = seq_ j) as Hsq by (by rewrite Hj).
  destruct (batch_silent (f ++ start) (loop_at b l) (j_ l) b vs data locs C rtype pp
    (len batch + 216)) as (l1 & rr & Hsil & Hpr & Her & Hpp & H8);
    rewrite ?Hsq, <- ?Eprep, <- ?Ebatch; [done..|lia|done|].
  rewrite Hsq, <- Eprep, <- Ebatch in Hsil. rewrite Hsq, <- Eprep, <- Ebatch in Hpr.
  rewrite Hsq, <- Eprep in Her.
  pose proof (len_nonneg data) as Hd0. pose proof (len_nonneg prepare) as Hp0.
  assert (len batch = len data + len prepare) as Hlb by (rewrite Ebatch; apply len_app).
  pose proof (pr_prepare _ _ _ _ _ _ _ _ Hpr) as Hpa.
  pose proof (pr_at _ _ _ _ _ _ _ _ Hpr) as Hat1.
  assert (len batch mod 8 = 0) as Hb8.
  { rewrite Hlb, Z.add_mod, H8 by done. rewrite Eprep, record_aligned by done. done. }
  assert (commit_payload (j_ l) (prepare_at l1) (len (encoded rr)) b (rpayload rr) batch = cp) as Hcp.
  { rewrite Hpa, Her, Hpp, Hj, Ecp. reflexivity. }
  destruct (commit_body l1 (j_ l) b (shift_locations b locs) batch C rr commit)
    as (l2 & Hbody & Hj2 & Hph2 & Hat2);
    [rewrite Hpa; exact Hpr|exact Hwf'|lia|unfold UINT64_MAX; lia|rewrite Her; lia|lia|
     unfold UINT64_MAX; lia|exact Hmax|].
  rewrite Hcp in Hbody, Hj2. rewrite Hsq in Hbody. rewrite Hat1 in Hj2.
  destruct (commit_recordable j cp Hwf Hs) as [Hcr Hc216];
    [rewrite Ecp; apply len_commit_payload, Hwf|].
  rewrite <- Ecommit in Hc216.
  exists l1, l2. split_and!; [by eapply silent_app| |done..].
  destruct (fits_shift b (len batch) _ Hfit) as [F1 F2 F3 F4]; [lia|done|].
  eapply unit_record; [exact Ecommit| | | |exact Hcr| |exact Hbody|exact Hat2].
  - rewrite Hat1, app_assoc, len_app, <- Hb. done.
  - by rewrite Hat1.
  - rewrite Hat1. unfold header in F2. lia.
  - rewrite Hat1, Hc216. lia.
Qed.
End Tx.
