(* ===== verification/JournalState.v ===== *)
(** * The journal invariant

    A world whose log replays to the in-memory state, whose file and durable contents
    both reopen to it, and whose indexed objects can all be read back. *)

From S2P Require Import Prelude Codec Journal JournalRecord JournalReplay JournalCommit JournalTx.
Import Journal.
Local Open Scope Z_scope.

(** ** Reads are stable when the file grows *)

Lemma read_bytes_extend f at_ n b y :
  0 ≤ at_ → 0 ≤ n → read_bytes f at_ n = Ok b → read_bytes (f ++ y) at_ n = Ok b.
Proof.
  intros Ha Hn. unfold read_bytes. destruct (Z.leb_spec (at_ + n) (len f)); [|done].
  intros [= <-]. rewrite len_app. pose proof (len_nonneg y).
  rewrite (proj2 (Z.leb_le _ _)) by lia. f_equal. unfold slice, len in *.
  rewrite drop_app_le by lia. apply take_app_le. rewrite length_drop. lia.
Qed.

Lemma read_record_extend f at_ size size' r y :
  0 ≤ at_ → size ≤ size' → read_record f at_ size = Ok (Some r) →
  read_record (f ++ y) at_ size' = Ok (Some r).
Proof.
  intros Ha Hs Hr. unfold read_record in *.
  apply need_bind_Ok in Hr as [Hle Hr]. apply Z.leb_le in Hle.
  rewrite need_true_bind by (apply Z.leb_le; lia).
  destruct (Z.ltb_spec (size - at_) 64); [done|]. rewrite (proj2 (Z.ltb_ge _ _)) by lia.
  apply bind_Ok in Hr as (h & Hh & Hr). rewrite (read_bytes_extend _ _ 64 _ _ Ha ltac:(lia) Hh).
  cbn [mbind result_bind].
  apply need_bind_Ok in Hr as [E1 Hr]. rewrite need_true_bind by done.
  apply need_bind_Ok in Hr as [E2 Hr]. rewrite need_true_bind by done.
  apply need_bind_Ok in Hr as [E3 Hr]. rewrite need_true_bind by done.
  apply need_bind_Ok in Hr as [E4 Hr]. rewrite need_true_bind by done.
  destruct (Z.ltb_spec (size - at_) (load (drop 8 h) 4)); [done|].
  rewrite (proj2 (Z.ltb_ge _ _)) by lia.
  apply bind_Ok in Hr as (b & Hb & Hr).
  rewrite (read_bytes_extend _ _ _ _ _ Ha (load_nonneg _ _) Hb). exact Hr.
Qed.

Section State.
Context `{DigestOk}.

(** ** Opening *)

(** The loop state the constructor starts from. *)
Definition start (f repo : Bytes) (c : Checkpoint) : result loop :=
  need (base <=? len f) "truncated container";;
  j ← (if c_offset c =? 0 then Ok (fresh repo) else restore_checkpoint f c (fresh repo));
  (if (base <? end_ j) && negb ((end_ j - base) mod span =? 0) then
     h ← read_bytes f (base + (end_ j - base) / span * span) header;
     need (bytes_eqb h (segment_header repo ((end_ j - base) / span))) "invalid replay segment"
   else Ok tt);;
  Ok (mkLoop (end_ j) 0 0 0 no_rec ∅ ∅ [] j).

Lemma open_start f repo c :
  open f repo c =
    (l0 ← start f repo c; l ← replay (Z.to_nat (len f)) f l0;
     Ok (set_tail (negb (len f =? end_ (j_ l))) (j_ l))).
Proof.
  unfold open, start. destruct (need _ _) as [[]| |]; [|done..]. cbn [mbind result_bind].
  destruct (if c_offset c =? 0 then _ else _) as [j| |]; [|done..]. cbn [mbind result_bind].
  cbv zeta. destruct (if _ && _ then _ else _) as [[]| |]; done.
Qed.

(** Two journals with the same contents. *)
Definition same_log (j' j : journal) : Prop :=
  ∃ r t, j' = flags r t (poisoned_ j') j.

(** Opening [F] yields the contents of [j]. *)
Definition recovers (F repo : Bytes) (c : Checkpoint) (j : journal) : Prop :=
  ∃ r, open F repo c = Ok (flags r (negb (len F =? end_ j)) false j).

(** The log [f], from where the constructor starts, replays to [j]. *)
Record logged (repo : Bytes) (c : Checkpoint) (f : Bytes) (j : journal) (l : loop) : Prop := {
  lg_start : ∃ g l0 b, f = g ++ b ∧ units g l0 b l ∧ ∀ y, start (f ++ y) repo c = Ok l0;
  lg_phase : phase l = 0;
  lg_journal : ∃ r, j_ l = flags r false false j;
  lg_end : end_ j = len f;
}.

Lemma logged_at repo c f j l : logged repo c f j l → at_ l = len f.
Proof.
  intros [(g & l0 & b & -> & Hu & _) _ _ _]. apply units_end in Hu as [_ ->]. by rewrite len_app.
Qed.

(** A log followed by something replay tolerates reopens to the log's state. *)
Lemma logged_recovers repo c f j l y :
  logged repo c f j l → tolerated (f ++ y) l → recovers (f ++ y) repo c j.
Proof.
  intros Hlg Ht. pose proof (logged_at _ _ _ _ _ Hlg) as Hat.
  destruct Hlg as [(g & l0 & b & Hf & Hu & Hst) _ [r Hj] He].
  unfold recovers. rewrite open_start, Hst. cbn [mbind result_bind].
  assert (enough (Z.to_nat (len (f ++ y))) (f ++ y) l0) as Hen.
  { unfold enough. apply units_end in Hu as [Hg _]. pose proof (len_nonneg g). lia. }
  rewrite Hf in Hen |- *. rewrite <- app_assoc in Hen |- *.
  destruct (replay_units _ _ _ _ Hu _ _ Hen) as (fuel & -> & Hen').
  rewrite Hf, <- app_assoc in Ht. destruct (Ht fuel Hen') as (l' & -> & Hj').
  cbn [mbind result_bind]. rewrite Hj', Hj. exists r. done.
Qed.

Lemma logged_opens repo c f j l : logged repo c f j l → recovers f repo c j.
Proof.
  intros Hlg. rewrite <- (app_nil_r f). eapply logged_recovers; [done|].
  apply tolerated_finished. rewrite app_nil_r, (logged_at _ _ _ _ _ Hlg). done.
Qed.

(** Appending complete units moves the log forward. *)
Lemma logged_append repo c f j l b l' j' :
  logged repo c f j l → units f l b l' → phase l' = 0 → (∃ r, j_ l' = flags r false false j') →
  end_ j' = len (f ++ b) → logged repo c (f ++ b) j' l'.
Proof.
  intros [(g & l0 & b0 & Hf & Hu & Hst) _ _ _] Hub Hph Hj He. split; [|done..].
  exists g, l0, (b0 ++ b). split_and!.
  - by rewrite Hf, app_assoc.
  - eapply units_app; [done|]. by rewrite <- Hf.
  - intros y. rewrite <- app_assoc. apply Hst.
Qed.

(** ** Objects *)

(** An indexed object lies in the log as a DATA record of its value. *)
Definition object_at (f : Bytes) (seq : Z) (id : Id) (loc : Location) (v : Bytes) : Prop :=
  ∃ s, let e := record 1 s (data_payload v) id in
    holds f (payload loc) e ∧ length_ loc = len e ∧ id = object_hash v ∧
    len v ≤ max_payload ∧ 0 < s ≤ seq ∧ seq ≤ UINT64_MAX ∧ fits (payload loc) (len e).

Definition objects_ok (f : Bytes) (j : journal) : Prop :=
  ∀ id loc, objects_ j !! id = Some loc → ∃ v, object_at f (seq_ j) id loc v.
Definition roots_ok (j : journal) : Prop :=
  ∀ k id, roots_ j !! k = Some id →
    is_Some (objects_ j !! id) ∧ (0 < length k ≤ 1024)%nat.

Lemma object_at_read f y j id loc v :
  objects_ j !! id = Some loc → object_at f (seq_ j) id loc v →
  read_object (f ++ y) j id = Ok v.
Proof.
  intros Hl (s & Hh & Hlen & Hid & Hv & Hs & Hmax & [Hb _ Hr _]).
  unfold read_object. rewrite Hl.
  pose proof (data_recordable s v ltac:(lia) Hv) as Hrec. rewrite <- Hid in Hrec.
  assert (len (record 1 s (data_payload v) id) = record_length (len (data_payload v))) as HL.
  { apply length_record, Hrec. }
  assert (read_record (f ++ y) (payload loc) (payload loc + length_ loc) = Ok (Some
    (mkRec 1 s (payload loc) id (data_payload v) (record 1 s (data_payload v) id)))) as ->.
  { apply read_record_whole; [done|done|by rewrite <- HL|by apply holds_extend|lia]. }
  cbn [mbind result_bind type rseq oid rpayload encoded]. cbv zeta.
  rewrite length_data_payload, need_true_bind.
  2:{ pose proof (len_nonneg v). rewrite !andb_true_iff, !Z.leb_le, Z.ltb_lt, !Z.eqb_eq.
      rewrite bool_decide_eq_true. split_and!; done || lia. }
  rewrite need_true_bind; [done|]. by apply bool_decide_eq_true.
Qed.

(** Reading an object does not look past the log. *)
Lemma read_object_stable f y j id :
  objects_ok f j → read_object (f ++ y) j id = read_object f j id.
Proof.
  intros Hok. destruct (objects_ j !! id) as [loc|] eqn:E; [|unfold read_object; by rewrite E].
  destruct (Hok id loc E) as [v Hv]. rewrite (object_at_read f y j id loc v) by done.
  symmetry. rewrite <- (app_nil_r f). by apply (object_at_read f [] j id loc v).
Qed.

Lemma object_at_extend f y seq seq' id loc v :
  object_at f seq id loc v → seq ≤ seq' ≤ UINT64_MAX → object_at (f ++ y) seq' id loc v.
Proof.
  intros (s & Hh & Hlen & Hid & Hv & Hs & Hmax & Hfit) Hle. exists s.
  cbv zeta. split_and!; try done; try lia. by apply holds_extend.
Qed.

(** The header of the segment the log ends in. *)
Definition segment_ok (f : Bytes) (j : journal) : Prop :=
  (end_ j - base) mod span ≠ 0 →
  let seg := (end_ j - base) / span in
  holds f (base + seg * span) (segment_header (repository_ j) seg).

(** A log of a well-formed journal whose indexes point into it. *)
Record stable (c : Checkpoint) (f : Bytes) (j : journal) (l : loop) : Prop := {
  st_wf : jwf j;
  st_logged : logged (repository_ j) c f j l;
  st_objects : objects_ok f j;
  st_roots : roots_ok j;
  st_segment : segment_ok f j;
}.

Lemma stable_flags c f j l r t p : stable c f j l → stable c f (flags r t p j) l.
Proof.
  intros [Hw [Hs Hp [r' Hj] He] Ho Hr Hg]. split; [by apply jwf_flags| |done..].
  split; [done|done|by exists r'|done].
Qed.

(** ** The invariant *)

Record inv (c : Checkpoint) (w : world) (l : loop) (f : Bytes) : Prop := {
  inv_wf : jwf (jnl w);
  inv_alive : poisoned_ (jnl w) = false;
  inv_file : f = take (Z.to_nat (end_ (jnl w))) (file (dev w));
  inv_tail : tail_ (jnl w) = false → f = file (dev w);
  inv_logged : logged (repository_ (jnl w)) c f (jnl w) l;
  inv_reopen : recovers (file (dev w)) (repository_ (jnl w)) c (jnl w);
  inv_durable : recovers (durable (dev w)) (repository_ (jnl w)) c (jnl w);
  inv_objects : objects_ok f (jnl w);
  inv_roots : roots_ok (jnl w);
  inv_segment : segment_ok f (jnl w);
  inv_synced : ∃ y, durable (dev w) = f ++ y;
}.

Lemma inv_stable c w l f : inv c w l f → stable c f (jnl w) l.
Proof. intros []. by split. Qed.

Lemma stable_inv c w l f :
  stable c f (jnl w) l → poisoned_ (jnl w) = false →
  f = take (Z.to_nat (end_ (jnl w))) (file (dev w)) →
  (tail_ (jnl w) = false → f = file (dev w)) →
  recovers (file (dev w)) (repository_ (jnl w)) c (jnl w) →
  recovers (durable (dev w)) (repository_ (jnl w)) c (jnl w) →
  (∃ y, durable (dev w) = f ++ y) → inv c w l f.
Proof. intros []. by split. Qed.

(** After a completed operation the file is exactly the log. *)
Lemma inv_complete c w j l f :
  stable c f j l → jnl w = j → poisoned_ j = false → file (dev w) = f → durable (dev w) = f →
  inv c w l f.
Proof.
  intros Hst Hj Hal Hf Hd. pose proof (st_logged _ _ _ _ Hst) as Hlg.
  assert (recovers f (repository_ j) c j) as Hrec by (by eapply logged_opens).
  apply stable_inv; rewrite ?Hj, ?Hf, ?Hd; try done.
  - rewrite (lg_end _ _ _ _ _ Hlg). unfold len. rewrite Nat2Z.id. by rewrite firstn_all.
  - exists []. by rewrite app_nil_r.
Qed.

(** File contents from which the constructor finds [j] again, with its log [f] intact. *)
Definition reopens (c : Checkpoint) (F : Bytes) (j : journal) (f : Bytes) : Prop :=
  recovers F (repository_ j) c j ∧ ∃ l y, F = f ++ y ∧ stable c f j l.

(** Reopening such contents re-establishes the invariant. *)
Lemma reopens_inv c F j f s :
  reopens c F j f →
  ∃ r, let j' := flags r (negb (len F =? end_ j)) false j in
    open F (repository_ j) c = Ok j' ∧
    ∃ l, inv c (mkWorld (mkDevice F F s) j') l f.
Proof.
  intros [[r Hr] (l & y & HF & Hst)]. exists r. cbv zeta. split; [done|]. exists l.
  pose proof (lg_end _ _ _ _ _ (st_logged _ _ _ _ Hst)) as He.
  apply stable_inv; cbn [jnl dev file durable]; [by apply stable_flags|done| | |by exists r..|by eauto].
  - simpl. rewrite He, HF. unfold len. by rewrite Nat2Z.id, take_app_length.
  - simpl. rewrite He, HF, len_app. intros Ht%negb_false_iff%Z.eqb_eq.
    destruct y; [by rewrite app_nil_r|]. unfold len in Ht. simpl in Ht. lia.
Qed.

Lemma inv_reopens c w l f :
  inv c w l f → reopens c (file (dev w)) (jnl w) f ∧ reopens c (durable (dev w)) (jnl w) f.
Proof.
  intros Hi. pose proof (inv_stable _ _ _ _ Hi) as Hst. split; (split; [apply Hi|]); exists l.
  - eexists. split; [|done]. rewrite (inv_file _ _ _ _ Hi). symmetry. apply take_drop.
  - destruct (inv_synced _ _ _ _ Hi) as [y Hy]. by exists y.
Qed.

Lemma inv_prefix c w l f : inv c w l f → ∃ y, file (dev w) = f ++ y.
Proof. intros Hi. rewrite (inv_file _ _ _ _ Hi). eexists. symmetry. apply take_drop. Qed.

Lemma inv_read c w l f id :
  inv c w l f → is_Some (objects_ (jnl w) !! id) →
  ∃ v, read_object (file (dev w)) (jnl w) id = Ok v ∧ id = object_hash v ∧ len v ≤ max_payload.
Proof.
  intros Hi [loc Hl]. destruct (inv_objects _ _ _ _ Hi id loc Hl) as [v Hv].
  destruct (inv_prefix _ _ _ _ Hi) as [y ->]. exists v.
  split; [by eapply object_at_read|]. by destruct Hv as (s & _ & _ & ? & ? & _).
Qed.
End State.
