(* ===== verification/JournalOps.v ===== *)
(** * Commits preserve the invariant

    A commit either happens entirely, and then the invariant holds of the new state, or
    fails, and then the journal is poisoned and both the file and its durable contents
    reopen to the old state or to the new one. *)

From S2P Require Import Prelude Codec Treap Journal JournalRecord JournalReplay JournalCommit JournalTx.
From S2P Require Import JournalState.
Import Journal.
Local Open Scope Z_scope.

Lemma apply_changes_lookup (roots : gmap Bytes Id) changes k :
  apply_changes roots changes !! k =
  match changes !! k with Some v => v | None => roots !! k end.
Proof. apply patch_in_order. Qed.

Lemma add_objects_lookup (objects pending : gmap Id Location) id :
  add_objects objects pending !! id =
  match pending !! id with Some loc => Some loc | None => objects !! id end.
Proof.
  unfold add_objects. rewrite <- (list_to_map_in_order pending) at 2.
  generalize (NoDup_in_order_keys pending). generalize (in_order pending) as l.
  intros l. revert objects. induction l as [|[k v] l IH]; intros objects Hnd; [done|].
  rewrite fmap_cons in Hnd. apply NoDup_cons in Hnd as [Hk Hnd]. cbn [foldl fst] in *.
  rewrite IH by done. simpl. destruct (decide (k = id)) as [->|Hne].
  - rewrite (not_elem_of_list_to_map_1 l id) by done. by rewrite !lookup_insert_eq.
  - by rewrite !lookup_insert_ne by done.
Qed.

Lemma holds_shift pre data post off e :
  holds data off e → holds (pre ++ data ++ post) (len pre + off) e.
Proof.
  intros Hh. apply (holds_extend _ _ _ post) in Hh. destruct Hh as (H0 & Hl & Hs).
  pose proof (len_nonneg pre). unfold holds. rewrite len_app. split_and!; [lia|lia|].
  unfold len. rewrite Z2Nat.inj_add, Nat2Z.id by lia. by rewrite slice_past.
Qed.

Lemma NoDup_fst_eq {A B} (l : list (A * B)) x a b :
  NoDup l.*1 → (x, a) ∈ l → (x, b) ∈ l → a = b.
Proof.
  induction l as [|[y c] l IH]; [set_solver|]. rewrite fmap_cons, NoDup_cons. intros [Hy Hnd].
  rewrite !elem_of_cons. intros [Ha|Ha] [Hb|Hb]; simplify_eq; [done| | |by apply IH].
  - destruct Hy. apply list_elem_of_fmap. by exists (y, b).
  - destruct Hy. apply list_elem_of_fmap. by exists (y, a).
Qed.

Section Ops.
Context `{DigestOk}.

(** The DATA records of a transaction are where their locations say. *)
Definition located (seq : Z) (data : Bytes) (id : Id) (loc : Location) (v : Bytes) : Prop :=
  holds data (payload loc) (record 1 seq (data_payload v) id) ∧
  length_ loc = len (record 1 seq (data_payload v) id) ∧ payload loc mod 8 = 0.

Lemma data_records_located seq vs0 : Forall sound_value vs0 → ∀ vs B L data locs,
  data_records seq vs B L = (data, locs) → len B mod 8 = 0 →
  (∀ id loc, L !! id = Some loc → ∃ v, located seq B id loc v ∧ (id, v) ∈ vs0) →
  (∀ p, p ∈ vs → p ∈ vs0) →
  (∀ id loc, locs !! id = Some loc → ∃ v, located seq data id loc v ∧ (id, v) ∈ vs0) ∧
  (∀ id, is_Some (locs !! id) ↔ is_Some (L !! id) ∨ id ∈ vs.*1).
Proof.
  intros Hvs0. induction vs as [|[id v] vs IH]; intros B L data locs Hdr H8 HL Hvs.
  { injection Hdr as <- <-. split; [done|]. set_solver. }
  cbn [data_records] in Hdr.
  assert ((id, v) ∈ vs0) as Hin by (apply Hvs; set_solver).
  set (e := record 1 seq (data_payload v) id) in *.
  assert (length id = 32%nat) as Hid.
  { rewrite Forall_forall in Hvs0. destruct (Hvs0 _ Hin) as [Hx _]. simpl in Hx. rewrite Hx.
    apply length_object_hash. }
  destruct (IH _ _ _ _ Hdr) as [Hloc Hdom]; [| |set_solver|].
  - rewrite len_app, Z.add_mod, H8 by done. unfold e. by rewrite record_aligned.
  - intros id' loc'. destruct (decide (id = id')) as [<-|Hne].
    + rewrite lookup_insert_eq. intros [= <-]. exists v. split; [|done].
      split; [apply holds_end|done].
    + rewrite lookup_insert_ne by done. intros (v' & [Hh Hl] & Hs)%HL. exists v'.
      split; [|done]. split; [by apply holds_extend|done].
  - split; [done|]. intros id'. rewrite Hdom, fmap_cons, elem_of_cons. cbn [fst].
    destruct (decide (id = id')) as [<-|Hne].
    + rewrite lookup_insert_eq. split; [by right; left|by left].
    + rewrite lookup_insert_ne by done. naive_solver.
Qed.

(** The records of a whole transaction. *)
Lemma tx_located seq vs data locs :
  Forall sound_value vs → data_records seq vs [] ∅ = (data, locs) →
  (∀ id loc, locs !! id = Some loc → ∃ v, located seq data id loc v ∧ (id, v) ∈ vs) ∧
  (∀ id, is_Some (locs !! id) ↔ id ∈ vs.*1).
Proof.
  intros Hvs Hdr. destruct (data_records_located seq vs Hvs vs [] ∅ data locs Hdr) as [H1' H2'];
    [done|set_solver|done|].
  split; [done|]. intros id. rewrite H2'. split; [|by right].
  intros [[? Hx]|?]; [by rewrite lookup_empty in Hx|done].
Qed.

(** The journal a commit installs. *)
Definition next_journal (j : journal) (C : gmap Bytes (option Id)) (P : gmap Id Location)
    (cp : Bytes) (e : Z) : journal :=
  committed (add_objects (objects_ j) P) (apply_changes (roots_ j) C) cp e j.

(** What a commit needs to know of the changes it makes. *)
Definition changes_ok (j : journal) (locs : gmap Id Location) (C : gmap Bytes (option Id)) : Prop :=
  ∀ k id, C !! k = Some (Some id) →
    (is_Some (locs !! id) ∨ is_Some (objects_ j !! id)) ∧ (0 < length k ≤ 1024)%nat.

Lemma next_objects f j pre data post locs C b req cp e vs :
  objects_ok f j → jwf j → seq_ j < UINT64_MAX → b = len (f ++ pre) → fits b req →
  len data ≤ req → Forall sound_value vs →
  data_records (seq_ j + 1) vs [] ∅ = (data, locs) →
  let j' := next_journal j C (shift_locations b locs) cp e in
  ∀ id loc, objects_ j' !! id = Some loc →
    ∃ v, object_at ((f ++ pre) ++ data ++ post) (seq_ j') id loc v ∧
      ((id, v) ∈ vs ∨ (id ∉ vs.*1) ∧ objects_ j !! id = Some loc ∧ object_at f (seq_ j) id loc v).
Proof.
  intros Hobj Hwf Hs Hb Hfit Hreq Hvs Hdr j' id loc Hl. pose proof (wf_seq _ Hwf). unfold j' in *.
  unfold next_journal, committed in Hl |- *. cbn [objects_ seq_] in *.
  rewrite add_objects_lookup in Hl. unfold shift_locations in Hl. rewrite lookup_fmap in Hl.
  destruct (locs !! id) as [loc0|] eqn:El; simpl in Hl.
  - injection Hl as <-.
    destruct (tx_located _ _ _ _ Hvs Hdr) as [Hloc _].
    destruct (Hloc id loc0 El) as (v & (Hh & Hlen & Hal) & Hin).
    rewrite Forall_forall in Hvs. destruct (Hvs _ Hin) as [Hid Hv]. simpl in Hid, Hv.
    exists v. split; [|by left]. exists (seq_ j + 1).
    cbv zeta. cbn [payload length_].
    pose proof Hh as (Hp0 & Hple & _).
    assert (80 ≤ len (record 1 (seq_ j + 1) (data_payload v) id)) as H80.
    { apply record_positive. rewrite Hid. apply length_object_hash. }
    pose proof (fits_shift b (payload loc0) req Hfit ltac:(lia) Hal) as Hfit'.
    split_and!; try done; try lia; [rewrite Hb; by apply holds_shift|].
    eapply fits_weaken; [exact Hfit'|lia].
  - destruct (Hobj id loc Hl) as [v Hv]. exists v. rewrite <- app_assoc. split.
    + eapply object_at_extend; [done|lia].
    + right. split; [|done]. destruct (tx_located _ _ _ _ Hvs Hdr) as [_ Hdom].
      rewrite <- Hdom, El. by intros [? ?].
Qed.

(** What the reads of a committed state return: the values of the transaction, and
    what they returned before for every other id. *)
Definition stored_values (vs : list (Id * Bytes)) (f : Bytes) (j : journal) (f' : Bytes)
    (j' : journal) : Prop :=
  (∀ id v, (id, v) ∈ vs → read_object f' j' id = Ok v) ∧
  (∀ id, id ∉ vs.*1 → read_object f' j' id = read_object f j id).

Lemma next_values f j F j' vs :
  NoDup vs.*1 →
  (∀ id, is_Some (objects_ j' !! id) ↔ id ∈ vs.*1 ∨ is_Some (objects_ j !! id)) →
  (∀ id loc, objects_ j' !! id = Some loc →
    ∃ v, object_at F (seq_ j') id loc v ∧
      ((id, v) ∈ vs ∨ (id ∉ vs.*1) ∧ objects_ j !! id = Some loc ∧ object_at f (seq_ j) id loc v)) →
  stored_values vs f j F j'.
Proof.
  intros Hnd Hdom Hobj. unfold stored_values.
  assert (∀ id loc v, objects_ j' !! id = Some loc → object_at F (seq_ j') id loc v →
    read_object F j' id = Ok v) as Hread.
  { intros id loc v Hl Hv. rewrite <- (app_nil_r F). by eapply object_at_read. }
  split.
  - intros id v Hin. assert (id ∈ vs.*1) as Hid by (apply list_elem_of_fmap; by exists (id, v)).
    destruct (proj2 (Hdom id)) as [loc Hl]; [by left|].
    destruct (Hobj id loc Hl) as (v' & Hv' & [Hin'|[Hn _]]); [|done].
    replace v with v'; [by eapply Hread|].
    by eapply NoDup_fst_eq.
  - intros id Hn. destruct (objects_ j' !! id) as [loc|] eqn:E.
    + destruct (Hobj id loc E) as (v & Hv & [Hin|(_ & Hl & Hold)]).
      { destruct Hn. apply list_elem_of_fmap. by exists (id, v). }
      rewrite (Hread id loc v E Hv). symmetry. rewrite <- (app_nil_r f). by eapply object_at_read.
    + assert (objects_ j !! id = None) as E'.
      { destruct (objects_ j !! id) eqn:E2; [|done].
        destruct (proj2 (Hdom id)) as [? ?]; [right; eauto|congruence]. }
      unfold read_object. by rewrite E, E'.
Qed.

Lemma next_jwf j C P cp e :
  jwf j → seq_ j < UINT64_MAX → base ≤ e → e mod 8 = 0 →
  ((e - base) mod span = 0 ∨ header ≤ (e - base) mod span) →
  (∀ id loc, P !! id = Some loc → length id = 32%nat) →
  jwf (next_journal j C P cp e).
Proof.
  intros [] Hs He H8 Hin HP. split; simpl; try done; [lia|apply digest_length|].
  intros id loc. rewrite add_objects_lookup. destruct (P !! id) eqn:E; [|by eauto].
  intros _. by eapply HP.
Qed.

Lemma next_roots_ok j C locs b cp e :
  roots_ok j → changes_ok j locs C →
  roots_ok (next_journal j C (shift_locations b locs) cp e).
Proof.
  intros Hr Hc k id. unfold next_journal, committed. cbn [roots_ objects_].
  rewrite apply_changes_lookup, add_objects_lookup. unfold shift_locations. rewrite lookup_fmap.
  intros Hk. destruct (C !! k) as [v|] eqn:EC.
  - subst v. destruct (Hc k id EC) as [Hin Hlen]. split; [|done].
    destruct (locs !! id) eqn:E; [by eexists|]. simpl. destruct Hin as [[? ?]|?]; [done|done].
  - destruct (Hr k id Hk) as [Hin Hlen]. split; [|done]. destruct (locs !! id); [by eexists|done].
Qed.

(** The end of a record that fits is inside its segment or at the next one. *)
Lemma fits_end b k : fits b k → 0 ≤ k →
  ((b + k - base) mod span = 0 ∨ header ≤ (b + k - base) mod span).
Proof.
  intros [Hb Hi Hr Ha] Hk. destruct (Z.eq_dec k (room b)) as [->|Hne].
  - left. unfold room.
    pose proof (Z.div_mod (b - base) span ltac:(done)).
    replace (b + (span - (b - base) mod span) - base)
      with ((1 + (b - base) / span) * span) by lia. apply Z_mod_mult.
  - right. destruct (room_shift b k) as [_ ->]; lia.
Qed.

(** The header of the segment a batch was placed in. *)
Lemma placed_segment f j new_segment at0 req y :
  segment_ok f j → jwf j → placement j req = (new_segment, at0) → end_ j = len f →
  let b := at0 + (if new_segment then header else 0) in
  holds (f ++ lead j new_segment at0 ++ y) (base + (b - base) / span * span)
    (segment_header (repository_ j) ((b - base) / span)) ∧ (b - base) mod span ≠ 0.
Proof.
  intros Hseg Hwf Hpl Hend. unfold placement in Hpl. cbv zeta.
  pose proof (wf_end _ Hwf) as Hbase.
  assert (∀ a, (a - base) mod span = 0 → end_ j ≤ a →
    holds (f ++ (zeros (Z.to_nat (a - end_ j)) ++ segment_header (repository_ j) ((a - base) / span)) ++ y)
      (base + (a + header - base) / span * span)
      (segment_header (repository_ j) ((a + header - base) / span)) ∧
    (a + header - base) mod span ≠ 0) as Hnew.
  { intros a Ha Hle. pose proof (Z.div_mod (a - base) span ltac:(done)) as Hd. rewrite Ha in Hd.
    assert ((a + header - base) / span = (a - base) / span) as ->.
    { replace (a + header - base) with (header + (a - base) / span * span) by lia.
      rewrite Z.div_add by done. done. }
    split.
    - rewrite <- app_assoc. rewrite (app_assoc f).
      replace (base + (a - base) / span * span) with
        (len (f ++ zeros (Z.to_nat (a - end_ j)))).
      + apply holds_middle.
      + rewrite len_app, len_zeros. lia.
    - replace (a + header - base) with (header + (a - base) / span * span) by lia.
      by rewrite Z_mod_plus_full. }
  pose proof (Z.mod_pos_bound (end_ j - base) span ltac:(done)) as Hb.
  destruct (Z.eqb_spec ((end_ j - base) mod span) 0) as [E|E]; cbn [orb negb andb] in Hpl.
  - injection Hpl as <- <-. apply Hnew; [done|lia].
  - destruct (_ <? _); cbn [orb negb andb] in Hpl; injection Hpl as <- <-.
    + apply Hnew; [|lia]. pose proof (Z.div_mod (end_ j - base) span ltac:(done)).
      replace (end_ j + (span - (end_ j - base) mod span) - base)
        with ((1 + (end_ j - base) / span) * span) by lia. apply Z_mod_mult.
    + rewrite Z.add_0_r. split; [|done]. simpl. apply holds_extend. by apply Hseg.
Qed.

(** A log that grew inside a segment still has that segment's header. *)
Lemma segment_ok_grow F j b k :
  holds F (base + (b - base) / span * span) (segment_header (repository_ j) ((b - base) / span)) →
  end_ j = b + k → 0 ≤ k → k ≤ room b → segment_ok F j.
Proof.
  intros Hh He Hk Hr Hne. cbv zeta. rewrite He in *.
  destruct (Z.eq_dec k (room b)) as [->|Hkr].
  - destruct Hne. pose proof (Z.div_mod (b - base) span ltac:(done)). unfold room.
    replace (b + (span - (b - base) mod span) - base) with ((1 + (b - base) / span) * span) by lia.
    apply Z_mod_mult.
  - destruct (room_shift b k) as [_ Hm]; [lia|].
    assert ((b + k - base) / span = (b - base) / span) as ->; [|done].
    pose proof (Z.div_mod (b - base) span ltac:(done)).
    pose proof (Z.div_mod (b + k - base) span ltac:(done)). unfold span in *. lia.
Qed.

(** Either of two states comes back. *)
Definition either (F : Bytes) (c : Checkpoint) (j : journal) (f : Bytes) (j' : journal)
    (f' : Bytes) : Prop :=
  reopens c F j f ∨ reopens c F j' f'.

(** What an operation that replaces [j] with log [f] by [j'] with log [f'] may do:
    succeed and keep the invariant, or fail, poison the journal and leave one of the two
    states behind. *)
Definition all_or_nothing {A} (c : Checkpoint) (j : journal) (f : Bytes) (j' : journal)
    (f' : Bytes) (out : world * result A) : Prop :=
  match out with
  | (w', Ok _) => jnl w' = j' ∧ ∃ l', inv c w' l' f'
  | (w', Err _) =>
      jnl w' = poison j ∧ either (file (dev w')) c j f j' f' ∧
      either (durable (dev w')) c j f j' f'
  | (_, OutOfFuel) => False
  end.

(** Contents left by an interruption of a commit. *)
Lemma interrupted_either c w l f j' l1 l2 pre commit F :
  inv c w l f → silent f l pre l1 → unit_of (f ++ pre) l1 commit l2 →
  stable c (f ++ pre ++ commit) j' l2 →
  interrupted (file (dev w)) (durable (dev w)) f (pre ++ commit) F →
  either F c (jnl w) f j' (f ++ pre ++ commit).
Proof.
  intros Hi Hsil Hu Hst' HF. destruct (inv_reopens _ _ _ _ Hi) as [Hr1 Hr2].
  destruct HF as [->|[->|[k ->]]]; [by left|by left|].
  destruct (decide (k < length (pre ++ commit))%nat) as [Hk|Hk].
  - left. split; [eapply logged_recovers; [apply Hi|]; by eapply last_torn|].
    exists l, (take k (pre ++ commit)). split; [done|]. by apply inv_stable.
  - right. rewrite take_ge by lia. split; [eapply logged_opens, Hst'|].
    exists l2, []. by rewrite app_nil_r.
Qed.

(** The state and the values after a completed commit. *)
Lemma commit_success c w l f vs data locs C b req cp e pre rest l2 F :
  let j := jnl w in
  let j' := next_journal j C (shift_locations b locs) cp e in
  inv c w l f → seq_ j < UINT64_MAX → Forall sound_value vs → NoDup vs.*1 →
  data_records (seq_ j + 1) vs [] ∅ = (data, locs) → changes_ok j locs C →
  b = len (f ++ pre) → fits b req → len data ≤ req → F = (f ++ pre) ++ data ++ rest →
  logged (repository_ j) c F j' l2 → base ≤ e → e mod 8 = 0 →
  ((e - base) mod span = 0 ∨ header ≤ (e - base) mod span) → segment_ok F j' →
  stored_values vs f j F j' ∧ stable c F j' l2.
Proof.
  intros j j' Hi Hs Hvs Hnd Hdr Hch Hb Hfit Hreq HF Hlg He0 He8 Hein Hseg.
  pose proof (next_objects f j pre data rest locs C b req cp e vs (inv_objects _ _ _ _ Hi)
    (inv_wf _ _ _ _ Hi) Hs Hb Hfit Hreq Hvs Hdr) as Hobj. cbv zeta in Hobj. rewrite <- HF in Hobj.
  destruct (tx_located _ _ _ _ Hvs Hdr) as [Hloc Hdom].
  split.
  - apply (next_values f j F j'); try done. intros id. unfold j', next_journal. simpl.
    rewrite add_objects_lookup, <- Hdom. unfold shift_locations. rewrite lookup_fmap.
    destruct (locs !! id) eqn:E; simpl; [naive_solver|].
    split; [by right|]. intros [[? ?]|?]; done.
  - split; try done.
    + apply next_jwf; try done; [apply Hi|]. intros id loc. unfold shift_locations.
      rewrite lookup_fmap. destruct (locs !! id) eqn:E; [|done]. intros _.
      destruct (Hloc id _ E) as (v & _ & Hin). rewrite Forall_forall in Hvs.
      destruct (Hvs _ Hin) as [Hid _]. simpl in Hid. rewrite Hid. apply length_object_hash.
    + intros id loc Hl. destruct (Hobj id loc Hl) as (v & Hv & _). by exists v.
    + apply next_roots_ok; [apply Hi|done].
Qed.

Lemma commit_outcome c w l f vs data locs C rtype pp (new_segment : bool) at0 prepare batch b cp
    commit :
  let j := jnl w in
  let e := b + len batch + len commit in
  let j' := next_journal j C (shift_locations b locs) cp e in
  inv c w l f →
  prepare = record rtype (seq_ j + 1) pp zero_id →
  batch = data ++ prepare →
  b = at0 + (if new_segment then header else 0) →
  cp = commit_payload j (b + len data) (len prepare) b pp batch →
  commit = record 3 (seq_ j + 1) cp zero_id →
  seq_ j < UINT64_MAX → Forall sound_value vs → NoDup vs.*1 → (length vs ≤ 64)%nat →
  data_records (seq_ j + 1) vs [] ∅ = (data, locs) →
  recordable rtype (seq_ j + 1) pp zero_id → (rtype = 2 ∨ rtype = 7 ∨ rtype = 8) →
  (∀ l', in_tx (j_ l) b (shift_locations b locs) data l' →
    prepare_changes (mkRec rtype (seq_ j + 1) (at_ l') zero_id pp prepare) (reset l') = Ok C) →
  len batch ≤ 2 * 1024 * 1024 → placement j (len batch + 216) = (new_segment, at0) →
  at0 ≤ OFF_MAX - span → changes_ok j locs C →
  ∃ f', stored_values vs f j f' j' ∧
    all_or_nothing c j f j' f'
      (publish new_segment at0 b batch commit
         (λ j, next_journal j C (shift_locations b locs) cp e) w).
Proof.
  intros j e j' Hi Eprep Ebatch Eb Ecp Ecommit Hs Hvs Hnd Hn Hdr Hrec Hty Hpc Hmax Hpl Hoff Hch.
  pose proof (inv_logged _ _ _ _ Hi) as Hlg. destruct (lg_journal _ _ _ _ _ Hlg) as [r Hj].
  pose proof (lg_end _ _ _ _ _ Hlg) as Hend. pose proof (logged_at _ _ _ _ _ Hlg) as Hat.
  pose proof (inv_wf _ _ _ _ Hi) as Hwf.
  set (start := lead j new_segment at0).
  destruct (tx_in_log f l j r false false vs data locs C rtype pp new_segment at0 prepare batch b cp
    commit start) as (l1 & l2 & Hsil & Hu & Hj2 & Hph2 & Hb & Hle & Hfit & H8 & H216);
    try done; [apply Hlg|].
  assert (units f l ((start ++ batch) ++ commit) l2) as Hunits.
  { eapply units_app; [by apply silent_units|]. rewrite <- (app_nil_r commit).
    econstructor; [done|]. constructor. rewrite len_app. apply Hu. }
  assert (end_ j' = len (f ++ (start ++ batch) ++ commit)) as Hend'.
  { unfold j', e. simpl. rewrite !len_app in *. lia. }
  assert (logged (repository_ j) c (f ++ (start ++ batch) ++ commit) j' l2) as Hlg'.
  { eapply logged_append; [exact Hlg|exact Hunits|exact Hph2| |exact Hend'].
    exists (r + 1). rewrite Hj2, Hj. reflexivity. }
  assert (segment_ok (f ++ (start ++ batch) ++ commit) j') as Hseg'.
  { destruct (placed_segment f j new_segment at0 (len batch + 216) (batch ++ commit)) as [Hseg _];
      [apply Hi|done..|]. rewrite <- Eb in Hseg. fold start in Hseg. rewrite <- !app_assoc.
    pose proof (len_nonneg batch).
    apply (segment_ok_grow _ j' b (len batch + 216)); [exact Hseg| |lia|apply Hfit].
    simpl. rewrite <- H216. unfold e. lia. }
  destruct (commit_success c w l f vs data locs C b (len batch + 216) cp e start
    (prepare ++ commit) l2 (f ++ (start ++ batch) ++ commit)) as [Hsv Hst']; try done.
  { pose proof (len_nonneg prepare). rewrite Ebatch, len_app. lia. }
  { by rewrite Ebatch, <- !app_assoc. }
  { pose proof (fits_base _ _ Hfit). pose proof (len_nonneg batch). unfold e. lia. }
  { unfold e. rewrite Z.add_mod, (Z.add_mod b), (fits_align _ _ Hfit), H8, H216 by done. done. }
  { unfold e. rewrite H216, <- Z.add_assoc. apply fits_end; [done|]. pose proof (len_nonneg batch). lia. }
  pose proof (publish_triple (file (dev w)) (durable (dev w)) f ((start ++ batch) ++ commit) j
    new_segment at0 b batch commit (λ j, next_journal j C (shift_locations b locs) cp e)) as Hpub.
  specialize (Hpub ltac:(by rewrite <- app_assoc)).
  assert (if tail_ j then f = take (Z.to_nat (end_ j)) (file (dev w)) else f = file (dev w)) as Htail.
  { destruct (tail_ j) eqn:E; [by apply Hi|]. by apply (inv_tail _ _ _ _ Hi). }
  specialize (Hpub Htail (eq_sym Hend) Hle Hb w (conj eq_refl (conj eq_refl eq_refl))).
  exists (f ++ (start ++ batch) ++ commit). split; [exact Hsv|].
  destruct (publish _ _ _ _ _ _ w) as [w' [[]|msg|]]; [| |done].
  - destruct Hpub as (Hjw & Hfw & Hdw). split; [exact Hjw|].
    exists l2. apply (inv_complete c w' j'); try done. apply Hi.
  - destruct Hpub as (Hjw & Hfw & Hdw). split_and!; [done|by eapply interrupted_either..].
Qed.
End Ops.
