(* ===== verification/JournalCheckpoint.v ===== *)
(** * Checkpoints

    The payload of a checkpoint record restores the journal it was taken from, and
    [checkpoint] itself is all or nothing like a commit. *)

From S2P Require Import Prelude Codec Treap Journal JournalRecord JournalReplay JournalCommit JournalTx.
From S2P Require Import JournalState JournalOps.
Import Journal.
Local Open Scope Z_scope.

Lemma object_entry_eq id loc :
  length id = 32%nat →
  object_entry id loc = concat [id; store (payload loc) 8; store (length_ loc) 4].
Proof.
  intros Hi. unfold object_entry. cbv zeta.
  change 44%nat with (sum_list [32; 8; 4]%nat). rewrite zeros_fields. unfold fmap, list_fmap.
  put_field 0%nat. put_field 1%nat. by put_field 2%nat.
Qed.

Lemma length_object_entry id loc : length id = 32%nat → length (object_entry id loc) = 44%nat.
Proof. intros Hi. rewrite object_entry_eq by done. field_lengths. lia. Qed.

(** A location a checkpoint at offset [off] may name. *)
Record location_ok (off : Z) (loc : Location) : Prop := {
  lo_base : base ≤ payload loc;
  lo_before : payload loc + length_ loc ≤ off;
  lo_low : 88 ≤ length_ loc;
  lo_high : length_ loc ≤ max_payload + 88;
  lo_align : payload loc mod 8 = 0;
  lo_align_length : length_ loc mod 8 = 0;
  lo_inside : header ≤ (payload loc - base) mod span;
  lo_room : length_ loc ≤ room (payload loc);
  lo_width : off ≤ UINT64_MAX;
}.

Definition object_ok (off : Z) (e : Id * Location) : Prop :=
  length e.1 = 32%nat ∧ e.1 ≠ zero_id ∧ location_ok off e.2.

Lemma object_entry_parse pre id loc rest off :
  object_ok off (id, loc) →
  let p := pre ++ object_entry id loc ++ rest in
  let c := length pre in
  slice c 32 p = id ∧ load (drop (c + 32) p) 8 = payload loc ∧
  load (drop (c + 40) p) 4 = length_ loc.
Proof.
  intros (Hi & _ & Hlo). cbn [fst snd] in *. cbv zeta. rewrite object_entry_eq by done.
  replace (concat [id; store (payload loc) 8; store (length_ loc) 4] ++ rest)
    with (concat [id; store (payload loc) 8; store (length_ loc) 4; rest])
    by (cbn [concat]; by rewrite !app_nil_r, <- !app_assoc).
  rewrite <- (Nat.add_0_r (length pre)) at 1. rewrite !drop_past, slice_past.
  destruct Hlo. unfold base, max_payload, UINT64_MAX in *. split_and!.
  - apply (slice_field 0); done.
  - apply (load_field 1); [done|field_lengths; lia|lia].
  - apply (load_field 2); [done|field_lengths; lia|lia].
Qed.

Lemma restore_objects_run c rest l : ∀ first previous pre p objects,
  p = pre ++ concat ((λ e, object_entry e.1 e.2) <$> l) ++ rest →
  Forall (object_ok (c_offset c)) l → ascending first previous l →
  restore_objects (length l) first c p (length pre) previous objects =
  Ok (length pre + length (concat ((λ e, object_entry e.1 e.2) <$> l)), foldl add_change objects l)%nat.
Proof.
  induction l as [|[id loc] l IH]; intros first previous pre p objects Hp Hok Hasc.
  { simpl. by rewrite Nat.add_0_r. }
  apply Forall_cons in Hok as [Ho Hok]. destruct Hasc as [Hfirst Hasc]. cbn [fst] in *.
  rewrite fmap_cons in Hp. cbn [concat fst snd] in Hp. rewrite <- app_assoc in Hp.
  pose proof (object_entry_parse pre id loc
    (concat ((λ e, object_entry e.1 e.2) <$> l) ++ rest) _ Ho) as Hparse. cbv zeta in Hparse.
  rewrite <- Hp in Hparse. destruct Hparse as (Hid & Hoff & Hlen).
  destruct Ho as (Hi & Hz & [L1 L2 L3 L4 L5 L6 L7 L8 L9]). cbn [fst snd] in *.
  pose proof (length_object_entry id loc Hi) as He.
  cbn [length restore_objects]. cbv zeta. rewrite Hid, Hoff, Hlen.
  rewrite need_true_bind.
  2:{ apply andb_true_iff. split; [by apply bool_decide_eq_true|].
      destruct Hfirst as [->|Hlt]; [done|]. apply orb_true_iff. by right. }
  rewrite need_true_bind.
  2:{ unfold room in L8. rewrite !andb_true_iff, !Z.leb_le, Z.ltb_lt, !Z.eqb_eq.
      split_and!; done || lia. }
  rewrite fmap_cons. cbn [concat foldl fst snd]. rewrite length_app, He.
  replace (length pre + (44 + length (concat ((λ e, object_entry e.1 e.2) <$> l))))%nat
    with (length (pre ++ object_entry id loc) +
          length (concat ((λ e, object_entry e.1 e.2) <$> l)))%nat
    by (rewrite length_app, He; lia).
  replace (mkLocation (payload loc) (length_ loc)) with loc by (by destruct loc).
  replace (length pre + 44)%nat with (length (pre ++ object_entry id loc))
    by (rewrite length_app, He; lia).
  apply IH; [by rewrite <- app_assoc|done..].
Qed.

Definition root_ok (objects : gmap Id Location) (e : Bytes * Id) : Prop :=
  (0 < length e.1 ≤ 1024)%nat ∧ length e.2 = 32%nat ∧ is_Some (objects !! e.2).

Lemma root_entry_parse pre key id rest :
  (0 < length key ≤ 1024)%nat → length id = 32%nat →
  let p := pre ++ root_entry key id ++ rest in
  let c := length pre in
  load (drop c p) 4 = len key ∧ slice (c + 4) (length key) p = key ∧
  slice (c + 4 + length key) 32 p = id ∧ len p = len pre + 36 + len key + len rest.
Proof.
  intros Hk Hi. cbv zeta. unfold root_entry.
  replace ((store (len key) 4 ++ key ++ id) ++ rest) with (concat [store (len key) 4; key; id; rest])
    by (cbn [concat]; by rewrite !app_nil_r, <- !app_assoc).
  rewrite <- (Nat.add_0_r (length pre)) at 1. rewrite <- Nat.add_assoc.
  rewrite !drop_past, !slice_past. split_and!.
  - apply (load_field 0); [done..|]. unfold len. lia.
  - apply (slice_field 1); [done|field_lengths; lia|done].
  - apply (slice_field 2); [done|field_lengths; lia|done].
  - rewrite len_app. unfold len. field_lengths. lia.
Qed.

Lemma restore_roots_run objects l : ∀ first previous pre p roots,
  p = pre ++ concat ((λ e, root_entry e.1 e.2) <$> l) →
  Forall (root_ok objects) l → ascending first previous l →
  restore_roots (length l) first p objects (length pre) previous roots =
  Ok (length p, foldl add_change roots l).
Proof.
  induction l as [|[k id] l IH]; intros first previous pre p roots Hp Hok Hasc.
  { simpl in Hp. rewrite app_nil_r in Hp. by subst. }
  apply Forall_cons in Hok as [(Hk & Hi & Ho) Hok]. destruct Hasc as [Hfirst Hasc].
  cbn [fst snd] in *. rewrite fmap_cons in Hp. cbn [concat fst snd] in Hp.
  set (rest := concat _) in *.
  pose proof (root_entry_parse pre k id rest Hk Hi) as Hparse. cbv zeta in Hparse.
  rewrite <- Hp in Hparse. destruct Hparse as (Hkn & Hkey & Hid & Hlen).
  pose proof (len_nonneg rest). pose proof (len_nonneg pre).
  cbn [length restore_roots]. cbv zeta. rewrite Hkn.
  assert (Z.to_nat (len k) = length k) as -> by (unfold len; lia). rewrite Hkey, Hid.
  rewrite need_true_bind.
  2:{ rewrite andb_true_iff, !Z.leb_le. unfold len in *. lia. }
  rewrite need_true_bind.
  2:{ rewrite !andb_true_iff, Z.ltb_lt, !Z.leb_le. unfold len in *. lia. }
  rewrite need_true_bind.
  2:{ apply andb_true_iff. split; [|by apply bool_decide_eq_true].
      destruct Hfirst as [->|Hlt]; [done|]. apply orb_true_iff. by right. }
  cbn [foldl].
  replace (length pre + 4 + length k + 32)%nat with (length (pre ++ root_entry k id)).
  - apply IH; [by rewrite <- app_assoc|done..].
  - rewrite length_app. unfold root_entry. rewrite !length_app, length_store. lia.
Qed.

(** ** The payload *)

Definition checkpoint_head (j : journal) : list Bytes :=
  [store (seq_ j) 8; last_hash_ j; store (Z.of_nat (size (objects_ j))) 4;
   store (Z.of_nat (size (roots_ j))) 4].

Lemma checkpoint_payload_eq j :
  length (last_hash_ j) = 32%nat →
  checkpoint_payload j =
    concat (checkpoint_head j) ++ concat ((λ e, object_entry e.1 e.2) <$> in_order (objects_ j)) ++
    concat ((λ e, root_entry e.1 e.2) <$> in_order (roots_ j)).
Proof.
  intros Hl. unfold checkpoint_payload. cbv zeta.
  rewrite (foldl_append _ (λ e : Bytes * Id, root_entry e.1 e.2)) by (by intros b []).
  rewrite (foldl_append _ (λ e : Id * Location, object_entry e.1 e.2)) by (by intros b []).
  rewrite <- app_assoc. f_equal. change 48%nat with (sum_list [8; 32; 4; 4]%nat).
  rewrite zeros_fields. unfold fmap, list_fmap.
  put_field 0%nat. put_field 1%nat. put_field 2%nat. by put_field 3%nat.
Qed.

Lemma checkpoint_head_length j :
  length (last_hash_ j) = 32%nat → length (concat (checkpoint_head j)) = 48%nat.
Proof. intros Hl. unfold checkpoint_head. field_lengths. lia. Qed.

Lemma len_object_entries l :
  Forall (λ e : Id * Location, length e.1 = 32%nat) l →
  len (concat ((λ e, object_entry e.1 e.2) <$> l)) = Z.of_nat (length l) * 44.
Proof.
  induction 1 as [|[id loc] l Hi Hl IH]; [done|]. rewrite fmap_cons. cbn [concat fst snd length] in *.
  rewrite len_app, IH. unfold len. rewrite length_object_entry by done. lia.
Qed.

Lemma len_root_entries n l :
  Forall (λ e : Bytes * Id, length e.2 = 32%nat) l →
  n + len (concat ((λ e, root_entry e.1 e.2) <$> l)) =
  foldl (λ n '(key, _), n + (4 + len key + 32)) n l.
Proof.
  intros Hl. revert n. induction Hl as [|[k id] l Hi Hl IH]; intros n; [simpl; rewrite len_nil; lia|].
  rewrite fmap_cons. cbn [concat fst snd foldl] in *. rewrite <- IH, len_app.
  unfold root_entry. rewrite !len_app, len_store.
  replace (len id) with 32 by (unfold len; by rewrite Hi). lia.
Qed.

(** The size computed in advance is the size of the payload. *)
Lemma len_checkpoint_payload j :
  jwf j → (∀ k id, roots_ j !! k = Some id → length id = 32%nat) →
  len (checkpoint_payload j) = checkpoint_bytes j.
Proof.
  intros Hwf Hr. rewrite checkpoint_payload_eq by apply Hwf. unfold checkpoint_bytes.
  rewrite !len_app. unfold len at 1. rewrite checkpoint_head_length by apply Hwf.
  rewrite len_object_entries.
  - rewrite length_in_order, Z.add_assoc. apply len_root_entries. apply Forall_forall.
    intros [k id] Hin%elem_of_in_order. by apply (Hr k).
  - apply Forall_forall. intros [id loc] Hin%elem_of_in_order. by eapply (wf_ids _ Hwf).
Qed.

Section Checkpoint.
Context `{DigestOk}.

(** No id in the journal is the null id, and the last hash is null exactly at the
    beginning. *)
Definition ids_nonzero (j : journal) : Prop :=
  (∀ id, is_Some (objects_ j !! id) → id ≠ zero_id) ∧ (seq_ j = 0 ↔ last_hash_ j = zero_id).

Lemma object_location_ok f seq id loc v off :
  object_at f seq id loc v → len f ≤ off → off ≤ UINT64_MAX → location_ok off loc.
Proof.
  intros (s & Hh & Hlen & Hid & Hv & _ & _ & [F1 F2 F3 F4]) Hoff Hmax.
  pose proof Hh as (_ & Hle & _).
  assert (length id = 32%nat) as Hi by (rewrite Hid; apply length_object_hash).
  assert (length_ loc = record_length (4 + len v)) as HL.
  { rewrite Hlen, length_record, length_data_payload by done. done. }
  pose proof (len_nonneg v). split; try done; try lia.
  - rewrite HL. unfold record_length. Z.to_euclidean_division_equations. lia.
  - rewrite HL. unfold record_length, max_payload in *. Z.to_euclidean_division_equations. lia.
  - rewrite HL. apply record_length_mod.
Qed.

Lemma len_root_entries_low l :
  Forall (λ e : Bytes * Id, (0 < length e.1)%nat ∧ length e.2 = 32%nat) l →
  Z.of_nat (length l) * 37 ≤ len (concat ((λ e, root_entry e.1 e.2) <$> l)).
Proof.
  induction 1 as [|[k id] l [Hk Hi] Hl IH]; [done|]. rewrite fmap_cons.
  cbn [concat fst snd length] in *. unfold root_entry at 1. rewrite !len_app, len_store.
  unfold len in *. lia.
Qed.

(** The fields of the payload head read back. *)
Lemma checkpoint_head_read j rest :
  jwf j → Z.of_nat (size (objects_ j)) < 2 ^ 32 → Z.of_nat (size (roots_ j)) < 2 ^ 32 →
  let p := concat (checkpoint_head j) ++ rest in
  load p 8 = seq_ j ∧ slice 8 32 p = last_hash_ j ∧
  load (drop 40 p) 4 = Z.of_nat (size (objects_ j)) ∧
  load (drop 44 p) 4 = Z.of_nat (size (roots_ j)).
Proof.
  intros Hwf Hno Hnr. pose proof (wf_last _ Hwf) as Hl. pose proof (wf_seq _ Hwf) as Hs.
  unfold UINT64_MAX in Hs. cbv zeta. unfold checkpoint_head.
  set (cs := [store (seq_ j) 8; last_hash_ j; store (Z.of_nat (size (objects_ j))) 4;
    store (Z.of_nat (size (roots_ j))) 4]).
  replace (concat cs ++ rest) with (concat (cs ++ [rest])).
  2:{ rewrite concat_app. cbn [concat]. by rewrite app_nil_r. }
  unfold cs. cbn [app]. split_and!.
  - rewrite <- (drop_0 (concat _)). apply (load_field 0); [done|done|lia].
  - apply (slice_field 1); [done|field_lengths; lia|done].
  - apply (load_field 2); [done|field_lengths; lia|lia].
  - apply (load_field 3); [done|field_lengths; lia|lia].
Qed.

(** A journal whose checkpoint can be taken and restored. *)
Record restorable (f : Bytes) (j : journal) : Prop := {
  rs_wf : jwf j;
  rs_objects : objects_ok f j;
  rs_roots : roots_ok j;
  rs_ids : ids_nonzero j;
  rs_size : checkpoint_bytes j ≤ 1024 * 1024 - 87;
}.

Lemma root_ids f j k id : restorable f j → roots_ j !! k = Some id → length id = 32%nat.
Proof.
  intros Hr Hk. destruct (rs_roots _ _ Hr k id Hk) as [[loc Hl] _].
  by eapply (wf_ids _ (rs_wf _ _ Hr)).
Qed.

(** The sizes of the parts of the payload. *)
Lemma checkpoint_sizes f j :
  restorable f j →
  let n := len (checkpoint_payload j) in
  n = checkpoint_bytes j ∧ 48 ≤ n ∧ Z.of_nat (size (objects_ j)) ≤ (n - 48) / 44 ∧
  Z.of_nat (size (roots_ j)) ≤ (n - 48 - Z.of_nat (size (objects_ j)) * 44) / 37.
Proof.
  intros Hr. pose proof (rs_wf _ _ Hr) as Hwf. cbv zeta.
  assert (len (checkpoint_payload j) = checkpoint_bytes j) as Hn.
  { apply len_checkpoint_payload; [done|]. intros k id. by apply (root_ids f). }
  split; [done|]. rewrite checkpoint_payload_eq by apply Hwf. rewrite !len_app.
  rewrite len_object_entries.
  2:{ apply Forall_forall. intros [id loc] Hin%elem_of_in_order. by eapply (wf_ids _ Hwf). }
  unfold len at 1 3 5. rewrite checkpoint_head_length by apply Hwf. rewrite length_in_order.
  pose proof (len_root_entries_low (in_order (roots_ j))) as Hlow.
  rewrite length_in_order in Hlow.
  specialize (Hlow ltac:(apply Forall_forall; intros [k id] Hin%elem_of_in_order;
    split; [apply (rs_roots _ _ Hr k id Hin)|by apply (root_ids f j k)])).
  split; [lia|]. split; apply Z.div_le_lower_bound; lia.
Qed.

(** The payload restores the indexes. *)
Lemma restore_payload f j off :
  restorable f j → len f ≤ off → off ≤ UINT64_MAX → ∀ c, c_offset c = off →
  let p := checkpoint_payload j in
  ∃ n, restore_objects (size (objects_ j)) true c p 48 zero_id ∅ = Ok (n, objects_ j) ∧
    restore_roots (size (roots_ j)) true p (objects_ j) n [] ∅ = Ok (length p, roots_ j).
Proof.
  intros Hr Hf Hmax c Hc. pose proof (rs_wf _ _ Hr) as Hwf. cbv zeta.
  pose proof (checkpoint_payload_eq j (wf_last _ Hwf)) as Hp.
  pose proof (checkpoint_head_length j (wf_last _ Hwf)) as Hh.
  set (p := checkpoint_payload j) in *. eexists. split.
  - rewrite <- length_in_order, <- Hh.
    rewrite (restore_objects_run c _ (in_order (objects_ j)) true zero_id _ p ∅ Hp).
    + by rewrite foldl_add_change_in_order.
    + apply Forall_forall. intros [id loc] Hin%elem_of_in_order.
      destruct (rs_objects _ _ Hr id loc Hin) as [v Hv]. split_and!; cbn [fst snd].
      * by eapply (wf_ids _ Hwf).
      * apply (rs_ids _ _ Hr). eauto.
      * rewrite Hc. by eapply object_location_ok.
    + apply ascending_increasing; [by left|]. apply increasing_in_order.
  - rewrite <- length_in_order, <- length_app.
    rewrite (restore_roots_run (objects_ j) (in_order (roots_ j)) true [] _ p ∅).
    + by rewrite foldl_add_change_in_order.
    + by rewrite <- app_assoc.
    + apply Forall_forall. intros [k id] Hin%elem_of_in_order.
      destruct (rs_roots _ _ Hr k id Hin). split; [done|]. split; [by apply (root_ids f j k)|done].
    + apply ascending_in_order.
Qed.

Lemma checkpoint_recordable f j :
  restorable f j → recordable 5 (seq_ j) (checkpoint_payload j) zero_id.
Proof.
  intros Hr. destruct (checkpoint_sizes f j Hr) as (Hn & _). pose proof (rs_size _ _ Hr) as Hsz.
  split; [lia|apply Hr|done|]. rewrite Hn. unfold record_length.
  Z.to_euclidean_division_equations. lia.
Qed.

(** Restoring the checkpoint of [j] yields [j], positioned after the record. *)
Lemma restore_run F f j b e p h c :
  restorable f j → p = checkpoint_payload j → e = record 5 (seq_ j) p zero_id →
  h = segment_header (repository_ j) ((b - base) / span) →
  c = mkCheckpoint b (len e) (seq_ j) (b + len e) (digest p) →
  holds F b e → holds F (base + (b - base) / span * span) h →
  len f ≤ b → b ≤ UINT64_MAX → fits b (len e) →
  restore_checkpoint F c (fresh (repository_ j)) =
  Ok (flags 0 false false (set_end (b + len e) j)).
Proof.
  intros Hr Ep He Eh Ec Hh Hseg Hf Hmax Hfit. pose proof (rs_wf _ _ Hr) as Hwf.
  pose proof (checkpoint_recordable f j Hr) as Hrec. rewrite <- Ep in Hrec.
  destruct (checkpoint_sizes f j Hr) as (Hn & H48 & Hno & Hnr). pose proof (rs_size _ _ Hr) as Hsz.
  pose proof (checkpoint_payload_eq j (wf_last _ Hwf)) as Hp.
  destruct (checkpoint_head_read j
    (concat ((λ e, object_entry e.1 e.2) <$> in_order (objects_ j)) ++
     concat ((λ e, root_entry e.1 e.2) <$> in_order (roots_ j))) Hwf) as (R1 & R2 & R3 & R4).
  { Z.to_euclidean_division_equations. lia. } { Z.to_euclidean_division_equations. lia. }
  rewrite <- Hp, <- Ep in R1, R2, R3, R4. rewrite <- Ep in Hn, H48, Hno, Hnr.
  assert (c_offset c = b) as Hco by (by rewrite Ec).
  destruct (restore_payload f j b Hr Hf Hmax c Hco) as (n & Hobj & Hroots).
  rewrite <- Ep in Hobj, Hroots.
  pose proof Hh as (_ & Hle & _). pose proof (len_nonneg e) as Hlen0.
  destruct Hfit as [F1 F2 F3 F4].
  assert (len e = record_length (len p)) as HLe by (rewrite He; by apply length_record).
  assert (read_record F b (len F) = Ok (Some (mkRec 5 (seq_ j) b zero_id p e))) as Hread.
  { rewrite He. apply read_record_whole; [done|done|lia|by rewrite <- He|lia]. }
  assert (read_bytes F (base + (b - base) / span * span) header = Ok h) as Hreadh.
  { apply holds_read; [done|]. by rewrite Eh, len_segment_header by apply Hwf. }
  clear Hh Hseg Hrec Hp. unfold restore_checkpoint. cbv zeta. rewrite Hco.
  replace (c_length c) with (len e) by (by rewrite Ec).
  replace (c_sequence c) with (seq_ j) by (by rewrite Ec).
  replace (c_replay_start c) with (b + len e) by (by rewrite Ec).
  replace (c_hash c) with (digest p) by (by rewrite Ec). clear Ec.
  cbn [repository_ fresh objects_ roots_ replayed_ tail_ poisoned_].
  rewrite need_true_bind by (rewrite !andb_true_iff, !Z.leb_le, Z.eqb_eq; lia).
  rewrite need_true_bind by (apply Z.leb_le; lia).
  rewrite Hreadh, <- Eh. cbn [mbind result_bind].
  rewrite need_true_bind by (by apply bool_decide_eq_true). rewrite Hread.
  cbn [mbind result_bind type rseq oid rpayload encoded].
  rewrite need_true_bind.
  2:{ rewrite !Z.eqb_refl. by rewrite bool_decide_eq_true_2; [apply bool_decide_eq_true|]. }
  rewrite R1, R2, R3, R4. rewrite need_true_bind.
  2:{ rewrite Z.eqb_refl, andb_true_r. apply Z.leb_le. lia. }
  rewrite need_true_bind by (apply bool_decide_eq_true, Hr).
  rewrite need_true_bind by (apply andb_true_iff; by rewrite !Z.leb_le).
  rewrite !Nat2Z.id, Hobj. cbn [mbind result_bind].
  rewrite Hroots. cbn [mbind result_bind]. rewrite need_true_bind by (apply Z.eqb_refl). done.
Qed.

(** ** The operation *)

(** The state after a checkpoint record that ends at [e]. *)
Definition checkpointed (j : journal) (e : Z) : journal := set_tail false (set_end e j).

Lemma checkpoint_body l j r f p e :
  j_ l = flags r false false j → phase l = 0 → restorable f j → p = checkpoint_payload j →
  ∃ l', record_body (mkRec 5 (seq_ j) (at_ l) zero_id p e) l = Ok l' ∧
    j_ l' = flags r false false (checkpointed j (at_ l + len e)) ∧ phase l' = 0 ∧
    at_ l' = at_ l + len e.
Proof.
  intros Hj Hph Hr Ep. pose proof (rs_wf _ _ Hr) as Hwf.
  destruct (checkpoint_sizes f j Hr) as (Hn & H48 & Hno & Hnr). pose proof (rs_size _ _ Hr) as Hsz.
  pose proof (checkpoint_payload_eq j (wf_last _ Hwf)) as Hp.
  destruct (checkpoint_head_read j
    (concat ((λ e, object_entry e.1 e.2) <$> in_order (objects_ j)) ++
     concat ((λ e, root_entry e.1 e.2) <$> in_order (roots_ j))) Hwf) as (R1 & R2 & _ & _).
  { Z.to_euclidean_division_equations. lia. } { Z.to_euclidean_division_equations. lia. }
  rewrite <- Hp, <- Ep in R1, R2. rewrite <- Ep in H48.
  eexists. split.
  - unfold record_body. cbn [type rseq oid rpayload encoded]. rewrite Hph, Hj. cbn [Z.eqb Pos.eqb andb].
    cbv zeta. cbn [seq_ last_hash_ flags]. rewrite R1, R2, !Z.eqb_refl.
    rewrite need_true_bind; [reflexivity|].
    rewrite bool_decide_eq_true_2 by done. cbn [andb].
    rewrite (proj2 (Z.leb_le _ _)) by lia. by apply bool_decide_eq_true.
  - by split_and!.
Qed.

Lemma checkpoint_jwf j e :
  jwf j → base ≤ e → e mod 8 = 0 →
  ((e - base) mod span = 0 ∨ header ≤ (e - base) mod span) → jwf (checkpointed j e).
Proof. intros [] He H8 Hin. by split. Qed.

(** The state after a completed checkpoint. *)
Lemma checkpointed_stable c l' f x j e :
  let j' := checkpointed j e in
  logged (repository_ j) c (f ++ x) j' l' → jwf j' → objects_ok f j → roots_ok j →
  segment_ok (f ++ x) j' → seq_ j ≤ UINT64_MAX → stable c (f ++ x) j' l'.
Proof.
  intros j' Hlg Hwf Hobj Hroot Hseg Hs. split; try done.
  intros id loc Hl. destruct (Hobj id loc Hl) as [v Hv]. exists v.
  eapply object_at_extend; [done|]. simpl. lia.
Qed.

(** Opening at a checkpoint that was just taken. *)
Lemma checkpoint_start F f j b e p c y :
  restorable f j → p = checkpoint_payload j → e = record 5 (seq_ j) p zero_id →
  c = mkCheckpoint b (len e) (seq_ j) (b + len e) (digest p) →
  holds F b e →
  holds F (base + (b - base) / span * span) (segment_header (repository_ j) ((b - base) / span)) →
  segment_ok F (checkpointed j (b + len e)) →
  len f ≤ b → b ≤ UINT64_MAX → fits b (len e) → len F = b + len e →
  start (F ++ y) (repository_ j) c =
    Ok (mkLoop (b + len e) 0 0 0 no_rec ∅ ∅ [] (flags 0 false false (checkpointed j (b + len e)))).
Proof.
  intros Hr Ep He Ec Hh Hseg Hok Hf Hmax Hfit HF. pose proof (fits_base _ _ Hfit) as Hb.
  pose proof (len_nonneg y). pose proof (len_nonneg e) as Hle.
  assert (restore_checkpoint (F ++ y) c (fresh (repository_ j)) =
    Ok (flags 0 false false (checkpointed j (b + len e)))) as Hres.
  { eapply restore_run; try done; [by apply holds_extend..]. }
  unfold start. rewrite need_true_bind by (apply Z.leb_le; rewrite len_app; unfold base in *; lia).
  rewrite (proj2 (Z.eqb_neq (c_offset c) 0)) by (rewrite Ec; simpl; unfold base in *; lia).
  rewrite Hres. cbn [mbind result_bind end_ flags set_end checkpointed set_tail].
  destruct (Z.eqb_spec ((b + len e - base) mod span) 0) as [E|E]; cbn [negb].
  { rewrite andb_false_r. done. }
  specialize (Hok E). cbn [end_ repository_ checkpointed set_tail set_end] in Hok. cbv zeta in Hok.
  destruct (base <? b + len e); cbn [andb]; [|done].
  rewrite (holds_read _ _ _ header (holds_extend _ _ _ y Hok)).
  - cbn [mbind result_bind]. by rewrite need_true_bind by (by apply bool_decide_eq_true).
  - by rewrite len_segment_header by apply Hr.
Qed.

(** The checkpoint record in the log of [j]. *)
Lemma checkpoint_in_log c w l f p e new_segment at0 b :
  let j := jnl w in
  inv c w l f → restorable f j → p = checkpoint_payload j → e = record 5 (seq_ j) p zero_id →
  placement j (len e) = (new_segment, at0) → at0 ≤ OFF_MAX - span →
  b = at0 + (if new_segment then header else 0) →
  ∃ l', silent f l (lead j new_segment at0) (loop_at b l) ∧
    unit_of (f ++ lead j new_segment at0) (loop_at b l) e l' ∧
    logged (repository_ j) c (f ++ lead j new_segment at0 ++ e) (checkpointed j (b + len e)) l' ∧
    b = len (f ++ lead j new_segment at0) ∧ fits b (len e) ∧ end_ j ≤ at0 ∧ b ≤ UINT64_MAX.
Proof.
  intros j Hi Hr Ep He Hpl Hoff Hb. pose proof (inv_logged _ _ _ _ Hi) as Hlg.
  destruct (lg_journal _ _ _ _ _ Hlg) as [r Hj]. pose proof (lg_end _ _ _ _ _ Hlg) as Hend.
  pose proof (logged_at _ _ _ _ _ Hlg) as Hat. pose proof (checkpoint_recordable f j Hr) as Hrec.
  rewrite <- Ep in Hrec.
  assert (len e ≤ 1024 * 1024) as Hle by (rewrite He, length_record by done; apply Hrec).
  destruct (lead_silent f l j (len e) new_segment at0) as (Hsil & Hb' & Hfit & Hle');
    [done|apply Hi|done|done|apply Hlg|by rewrite Hj|unfold span, header; lia|].
  rewrite <- Hb in Hsil, Hb', Hfit.
  destruct (checkpoint_body (loop_at b l) j r f p e) as (l' & Hbody & Hj' & Hph' & Hat');
    [done|apply Hlg|done|done|]. cbn [at_ loop_at] in *.
  assert (unit_of (f ++ lead j new_segment at0) (loop_at b l) e l') as Hu.
  { destruct Hfit as [F1 F2 F3 F4].
    apply (unit_record _ _ _ 5 (seq_ j) p zero_id); try done. cbn [at_ loop_at].
    unfold header in F2. lia. }
  assert (b ≤ UINT64_MAX) as Hbm.
  { rewrite Hb. unfold OFF_MAX, INT64_MAX, UINT64_MAX, span in *. destruct new_segment; unfold header; lia. }
  exists l'. split_and!; try done.
  eapply logged_append; [exact Hlg| |exact Hph'|by exists r|].
  - eapply units_app; [by apply silent_units|]. rewrite <- (app_nil_r e).
    econstructor; [done|]. constructor. rewrite len_app. apply Hu.
  - simpl. rewrite app_assoc, len_app, <- Hb'. done.
Qed.

Lemma checkpoint_unfold w p e new_segment at0 b :
  let j := jnl w in
  poisoned_ j = false → checkpoint_bytes j ≤ 1024 * 1024 - 87 →
  p = checkpoint_payload j → e = record 5 (seq_ j) p zero_id →
  placement j (len e) = (new_segment, at0) →
  b = at0 + (if new_segment then header else 0) →
  checkpoint w =
    (if at0 <=? OFF_MAX - span then
       poison_on_error (
         drop_tail "truncate checkpoint tail";; start_segment new_segment at0;;
         on_device (write_bytes b e);; on_device sync_file;;
         modify (λ w, mkWorld (dev w) (set_tail false (set_end (b + len e) (jnl w))));;
         mret (mkCheckpoint b (len e) (seq_ j) (b + len e) (digest p))) w
     else (w, Err "container offset exhausted")).
Proof.
  intros j Hal Hsz Ep He Hpl Hb. unfold checkpoint. rewrite (st_bind_run _ _ w w j eq_refl).
  rewrite (st_bind_run _ _ w w tt) by (unfold lift, alive; by rewrite Hal).
  rewrite (st_bind_run _ _ w w tt).
  2:{ unfold st_need, lift. by rewrite (proj2 (Z.leb_le _ _)). }
  cbv zeta. rewrite <- Ep, <- He, Hpl.
  destruct (Z.leb_spec at0 (OFF_MAX - span)).
  - rewrite (st_bind_run _ _ w w tt eq_refl), Hb.
    destruct new_segment; [done|]. by rewrite Z.add_0_r.
  - done.
Qed.

(** The descriptor points behind the checkpoint record. *)
Lemma checkpoint_descriptor w w' cp :
  checkpoint w = (w', Ok cp) → c_replay_start cp = end_ (jnl w').
Proof.
  unfold checkpoint. intros Hc. apply st_bind_Ok in Hc as (j & w1 & _ & Hc).
  apply st_bind_Ok in Hc as ([] & w2 & _ & Hc). apply st_bind_Ok in Hc as ([] & w3 & _ & Hc).
  cbv zeta in Hc. destruct (placement _ _) as [ns at0].
  apply st_bind_Ok in Hc as ([] & w4 & _ & Hc). unfold poison_on_error in Hc.
  match type of Hc with context [match ?m with _ => _ end] => destruct m as [w5 [c| |]] eqn:E end;
    [|done..]. injection Hc as <- <-.
  do 4 (apply st_bind_Ok in E as ([] & ? & _ & E)). apply st_bind_Ok in E as ([] & w6 & Hlast & E).
  injection Hlast as <-. by injection E as <- <-.
Qed.

Lemma checkpoint_run c w l f :
  let j := jnl w in
  inv c w l f → ids_nonzero j → checkpoint_bytes j ≤ 1024 * 1024 - 87 →
  checkpoint w = (w, Err "container offset exhausted") ∨
  ∃ e f', (∀ id, read_object f' (checkpointed j e) id = read_object f j id) ∧
    all_or_nothing c j f (checkpointed j e) f' (checkpoint w) ∧
    ∀ w' cp, checkpoint w = (w', Ok cp) → ∃ l', inv cp w' l' f'.
Proof.
  intros j Hi Hids Hsz.
  assert (restorable f j) as Hr by (split; [apply Hi..|done|done]).
  pose proof (inv_logged _ _ _ _ Hi) as Hlg. pose proof (lg_end _ _ _ _ _ Hlg) as Hend.
  remember (checkpoint_payload j) as p eqn:Ep.
  remember (record 5 (seq_ j) p zero_id) as e eqn:He.
  destruct (placement j (len e)) as [new_segment at0] eqn:Hpl.
  remember (at0 + (if new_segment then header else 0)) as b eqn:Hb.
  rewrite (checkpoint_unfold w p e new_segment at0 b) by (done || apply Hi).
  destruct (Z.leb_spec at0 (OFF_MAX - span)) as [Hoff|]; [right|by left].
  destruct (checkpoint_in_log c w l f p e new_segment at0 b)
    as (l' & Hsil & Hu & Hlg' & Hb' & Hfit & Hle & Hbm); [done..|].
  fold j in Hsil, Hu, Hlg', Hb', Hle.
  set (x := lead j new_segment at0 ++ e) in *.
  assert (if tail_ j then f = take (Z.to_nat (end_ j)) (file (dev w)) else f = file (dev w)) as Htail.
  { destruct (tail_ j) eqn:E; [by apply Hi|]. by apply (inv_tail _ _ _ _ Hi). }
  assert (jwf (checkpointed j (b + len e))) as Hwf'.
  { pose proof (fits_base _ _ Hfit). pose proof (len_nonneg e).
    apply checkpoint_jwf; [apply Hi|lia| |by apply fits_end; [|apply len_nonneg]].
    rewrite Z.add_mod, (fits_align _ _ Hfit) by done.
    rewrite He, record_aligned by done. done. }
  destruct (placed_segment f j new_segment at0 (len e) e) as [Hseg _];
    [apply Hi|apply Hi|done|done|]. rewrite <- Hb in Hseg. fold x in Hseg.
  assert (segment_ok (f ++ x) (checkpointed j (b + len e))) as Hseg'.
  { apply (segment_ok_grow _ _ b (len e)); [exact Hseg|done|apply len_nonneg|apply Hfit]. }
  pose proof (append_triple (file (dev w)) (durable (dev w)) f x j new_segment at0 b
    "truncate checkpoint tail" e (λ j, set_tail false (set_end (b + len e) j))
    (mkCheckpoint b (len e) (seq_ j) (b + len e) (digest p)) eq_refl Htail (eq_sym Hend) Hle Hb'
    w (conj eq_refl (conj eq_refl eq_refl))) as Hout.
  pose proof (wf_seq _ (inv_wf _ _ _ _ Hi)) as Hs.
  assert (stable c (f ++ x) (checkpointed j (b + len e)) l') as Hst.
  { apply checkpointed_stable; try done; [apply Hi..|apply Hs]. }
  exists (b + len e), (f ++ x). split.
  { intros id. rewrite <- (read_object_stable f x) by apply Hi. reflexivity. }
  destruct (poison_on_error _ w) as [w' [cp|msg|]]; [| |done].
  - destruct Hout as (-> & Hjw & Hfw & Hdw). split.
    + split; [done|]. exists l'. eapply inv_complete; try done; apply Hi.
    + intros w2 cp [= <- <-].
      exists (mkLoop (b + len e) 0 0 0 no_rec ∅ ∅ []
        (flags 0 false false (checkpointed j (b + len e)))).
      eapply inv_complete; [|done|apply Hi|done|done].
      apply checkpointed_stable; try done; [|apply Hi..|apply Hs].
      split; [|done|by exists 0|exact (lg_end _ _ _ _ _ Hlg')].
      eexists (f ++ x), _, []. split_and!; [by rewrite app_nil_r| |].
      * constructor. cbn [at_]. unfold x. rewrite app_assoc, len_app, <- Hb'. done.
      * intros y. eapply checkpoint_start; try done; rewrite ?app_assoc.
        -- rewrite Hb'. unfold x. rewrite app_assoc. apply holds_end.
        -- rewrite Hb', len_app. pose proof (len_nonneg (lead j new_segment at0)). lia.
        -- unfold x. rewrite app_assoc, len_app, <- Hb'. done.
  - destruct Hout as (Hjw & Hfw & Hdw). split; [|done].
    unfold x. split_and!; [done|by eapply interrupted_either..].
Qed.
End Checkpoint.
