(* ===== verification/JournalTransact.v ===== *)
(** * [put] and [transact]

    The commit of a single object and of a batch: what the mutations mean, and that what is
    accepted is committed all or nothing. *)

From S2P Require Import Prelude Codec Treap Journal JournalRecord JournalReplay JournalCommit JournalTx.
From S2P Require Import JournalState JournalOps.
Import Journal.
Local Open Scope Z_scope.

(** ** The single-object commit, with its legacy prepare record *)

Section Put.
Context `{DigestOk}.

Definition put_fields (j : journal) (key : Bytes) (oid : Id) : list Bytes :=
  [last_hash_ j; store (len key) 4; key; oid].

Lemma put_payload_eq j key oid :
  length (last_hash_ j) = 32%nat →
  memcpy (memcpy (zeros 36) 0 (last_hash_ j)) 32 (store (len key) 4) ++ key ++ oid =
  concat (put_fields j key oid).
Proof.
  intros Hl. change 36%nat with (sum_list [32; 4]%nat). rewrite zeros_fields.
  unfold fmap, list_fmap. put_field 0%nat. put_field 1%nat. unfold put_fields.
  cbn [concat]. by rewrite !app_nil_r, <- !app_assoc.
Qed.

Lemma len_put_payload j key oid :
  length (last_hash_ j) = 32%nat → length oid = 32%nat →
  len (concat (put_fields j key oid)) = 68 + len key.
Proof. intros Hl Ho. unfold put_fields, len. field_lengths. lia. Qed.

(** The legacy prepare record announces one change. *)
Lemma put_prepare l j b key oid loc B enc :
  in_tx j b {[oid := loc]} B l → jwf j → length oid = 32%nat → (0 < length key ≤ 1024)%nat →
  prepare_changes (mkRec 2 (seq_ j + 1) (at_ l) zero_id (concat (put_fields j key oid)) enc)
    (reset l) = Ok {[key := Some oid]}.
Proof.
  intros Htx Hwf Ho Hk. pose proof (wf_last _ Hwf) as Hl.
  pose proof (len_put_payload j key oid Hl Ho) as Hlen.
  set (p := concat (put_fields j key oid)) in *.
  assert (load (drop 32 p) 4 = len key) as Hn.
  { apply (load_field 1); [done|unfold put_fields; field_lengths; lia|]. unfold len. lia. }
  assert (Z.to_nat (len key) = length key) as Hkn by (unfold len; lia).
  unfold prepare_changes. cbn [rpayload Journal.oid type]. cbv zeta.
  pose proof (reset_fields l) as (_ & Hrj & _). rewrite Hrj, (tx_journal _ _ _ _ _ Htx).
  rewrite (tx_pending _ _ _ _ _ Htx), (tx_changes _ _ _ _ _ Htx), Hn, Hkn, Hlen.
  rewrite need_true_bind by (apply andb_true_iff; split; [done|apply Z.leb_le; unfold len; lia]).
  rewrite need_true_bind.
  2:{ apply bool_decide_eq_true. apply (slice_field 0); [done|done|by rewrite Hl]. }
  cbn [Z.eqb Pos.eqb].
  rewrite need_true_bind.
  2:{ rewrite !andb_true_iff, Z.ltb_lt, Z.leb_le, Z.eqb_eq, Nat.eqb_eq.
      rewrite map_size_singleton. unfold len. lia. }
  assert (slice (36 + length key) 32 p = oid) as ->.
  { apply (slice_field 3); [done|unfold put_fields; field_lengths; lia|done]. }
  assert (slice 36 (length key) p = key) as ->.
  { apply (slice_field 2); [done|unfold put_fields; field_lengths; lia|done]. }
  rewrite need_true_bind; [done|]. apply bool_decide_eq_true. rewrite lookup_singleton_eq. eauto.
Qed.

(** Only the values of the installed state matter. *)
Lemma publish_ext new_segment at0 b batch commit next next' w :
  (∀ j, next j = next' j) →
  publish new_segment at0 b batch commit next w = publish new_segment at0 b batch commit next' w.
Proof.
  intros Hn. unfold publish, poison_on_error, mbind, st_bind.
  destruct (drop_tail _ w) as [w1 [[]| |]]; try done.
  destruct (start_segment _ _ w1) as [w2 [[]| |]]; try done.
  destruct (on_device _ w2) as [w3 [[]| |]]; try done.
  destruct (on_device _ w3) as [w4 [[]| |]]; try done.
  destruct (on_device _ w4) as [w5 [[]| |]]; try done.
  destruct (on_device _ w5) as [w6 [[]| |]]; try done. unfold modify. by rewrite Hn.
Qed.

(** What [put] refuses. *)
Definition put_ok (j : journal) (key value : Bytes) : Prop :=
  key ≠ [] ∧ len key ≤ 1024 ∧ len value ≤ max_payload ∧ seq_ j ≠ UINT64_MAX.

#[global] Instance put_ok_dec j key value : Decision (put_ok j key value).
Proof. unfold put_ok. apply _. Defined.

Lemma put_batch_bound j key value oid :
  jwf j → length oid = 32%nat → len value ≤ max_payload → len key ≤ 1024 →
  len (record 1 (seq_ j + 1) (data_payload value) oid ++
       record 2 (seq_ j + 1) (concat (put_fields j key oid)) zero_id) ≤ 2 * 1024 * 1024 ∧
  record_length (len (concat (put_fields j key oid))) ≤ 1024 * 1024.
Proof.
  intros Hwf Ho Hv Hk. rewrite len_app, !length_record by done.
  rewrite length_data_payload, len_put_payload by (done || apply Hwf).
  unfold record_length, max_payload in *. Z.to_euclidean_division_equations. lia.
Qed.

(** One change and one object, as maps. *)
Lemma next_put j key oid loc cp e :
  committed (<[oid := loc]> (objects_ j)) (<[key := oid]> (roots_ j)) cp e j =
  next_journal j {[key := Some oid]} {[oid := loc]} cp e.
Proof.
  unfold next_journal. f_equal; apply map_eq; intros i; symmetry.
  - rewrite add_objects_lookup.
    destruct (decide (oid = i)) as [<-|Hne]; [by rewrite lookup_singleton_eq, lookup_insert_eq|].
    by rewrite lookup_insert_ne, lookup_singleton_ne by done.
  - rewrite apply_changes_lookup.
    destruct (decide (key = i)) as [<-|Hne]; [by rewrite lookup_singleton_eq, lookup_insert_eq|].
    by rewrite lookup_insert_ne, lookup_singleton_ne by done.
Qed.

(** [put] once its arguments are accepted. *)
Lemma put_unfold key value w object pp prepare batch new_segment at0 b cp commit :
  let j := jnl w in
  jwf j → poisoned_ j = false → put_ok j key value →
  pp = concat (put_fields j key (object_hash value)) →
  object = record 1 (seq_ j + 1) (data_payload value) (object_hash value) →
  prepare = record 2 (seq_ j + 1) pp zero_id → batch = object ++ prepare →
  placement j (len batch + 216) = (new_segment, at0) →
  b = at0 + (if new_segment then header else 0) →
  cp = commit_payload j (b + len object) (len prepare) b pp batch →
  commit = record 3 (seq_ j + 1) cp zero_id →
  put key value w =
    (if at0 <=? OFF_MAX - span then
       publish new_segment at0 b batch commit
         (λ j, next_journal j {[key := Some (object_hash value)]}
                 {[object_hash value := mkLocation b (len object)]} cp
                 (b + len batch + len commit)) w
     else (w, Err "container offset exhausted")).
Proof.
  intros j Hwf Hal (Hk & Hkl & Hv & Hs) Epp Eo Ep Eb Epl Ebb Ecp Ecm.
  unfold put. rewrite (st_bind_run _ _ w w j eq_refl).
  rewrite (st_bind_run _ _ w w tt) by (unfold lift, alive; by rewrite Hal).
  rewrite (st_bind_run _ _ w w tt).
  2:{ unfold st_need, lift. rewrite bool_decide_eq_true_2 by done.
      by rewrite (proj2 (Z.leb_le _ _)) by lia. }
  rewrite (st_bind_run _ _ w w tt).
  2:{ unfold st_need, lift. by rewrite (proj2 (Z.leb_le _ _)) by lia. }
  rewrite (st_bind_run _ _ w w tt).
  2:{ unfold st_need, lift. by rewrite (proj2 (Z.eqb_neq _ _)). }
  cbv zeta. rewrite (put_payload_eq j key (object_hash value)) by apply Hwf.
  rewrite <- Epp, <- Eo, <- Ep, <- len_app, <- Eb, Epl, <- Ebb, <- Ecp, <- Ecm.
  destruct (at0 <=? OFF_MAX - span); [|done]. rewrite (st_bind_run _ _ w w tt eq_refl).
  apply publish_ext. intros j0. apply next_put.
Qed.

Lemma put_run c w l f key value :
  inv c w l f → put_ok (jnl w) key value →
  (put key value w = (w, Err "container offset exhausted")) ∨
  ∃ loc cp e f',
    let j' := next_journal (jnl w) {[key := Some (object_hash value)]}
                {[object_hash value := loc]} cp e in
    stored_values [(object_hash value, value)] f (jnl w) f' j' ∧
    all_or_nothing c (jnl w) f j' f' (put key value w).
Proof.
  intros Hi Hok. set (j := jnl w) in *. pose proof Hok as (Hk & Hkl & Hv & Hs).
  pose proof (inv_wf _ _ _ _ Hi) as Hwf. fold j in Hwf. pose proof (wf_seq _ Hwf) as Hsr.
  set (oid := object_hash value). assert (length oid = 32%nat) as Ho by apply length_object_hash.
  destruct (put_batch_bound j key value oid Hwf Ho Hv Hkl) as [Hbb Hpl].
  remember (concat (put_fields j key oid)) as pp eqn:Epp.
  remember (record 1 (seq_ j + 1) (data_payload value) oid) as object eqn:Eo.
  remember (record 2 (seq_ j + 1) pp zero_id) as prepare eqn:Ep.
  remember (object ++ prepare) as batch eqn:Eb.
  destruct (placement j (len batch + 216)) as [new_segment at0] eqn:Epl.
  remember (at0 + (if new_segment then header else 0)) as b eqn:Ebb.
  remember (commit_payload j (b + len object) (len prepare) b pp batch) as cp eqn:Ecp.
  remember (record 3 (seq_ j + 1) cp zero_id) as commit eqn:Ecm.
  rewrite (put_unfold key value w object pp prepare batch new_segment at0 b cp commit)
    by (done || apply Hi).
  destruct (Z.leb_spec at0 (OFF_MAX - span)) as [Hoff|Hoff]; [right|by left].
  exists (mkLocation b (len object)), cp, (b + len batch + len commit). cbv zeta.
  assert (shift_locations b {[oid := mkLocation 0 (len object)]} =
    {[oid := mkLocation b (len object)]}) as Hshift.
  { unfold shift_locations. rewrite map_fmap_singleton. simpl. by rewrite Z.add_0_r. }
  assert (0 < length key ≤ 1024)%nat as Hkn.
  { unfold len in Hkl. destruct key; [done|]. simpl in *. lia. }
  fold oid. rewrite <- Hshift. destruct (commit_outcome c w l f [(oid, value)] object
    {[oid := mkLocation 0 (len object)]} {[key := Some oid]} 2 pp new_segment at0 prepare batch b cp
    commit) as (f' & Hsv & Hout); fold j; try done.
  10: { exists f'. split; [exact Hsv|exact Hout]. }
  - lia.
  - by apply Forall_singleton.
  - apply NoDup_singleton.
  - simpl. lia.
  - simpl. by rewrite <- Eo, insert_empty.
  - split; [lia|lia|done|done].
  - by left.
  - intros l' Htx. destruct (lg_journal _ _ _ _ _ (inv_logged _ _ _ _ Hi)) as [r Hj].
    fold j in Hj. rewrite Hshift in Htx. rewrite Hj in Htx. rewrite Epp.
    by apply (put_prepare l' (flags r false false j) b key oid _ _ prepare) in Htx;
      [|apply jwf_flags|..].
  - intros k id Hkid. apply lookup_singleton_Some in Hkid as [<- [= <-]]. split; [|done].
    left. rewrite lookup_singleton_eq. eauto.
Qed.
End Put.

(** ** The batch commit *)

Set Warnings "-clear-no-such-hyp".
Local Open Scope Z_scope.

Section Transact.
Context `{DigestOk}.

(** The id a mutation binds its key to, or a deletion. *)
Definition target (m : Mutation) : option Id :=
  match m_reference m with
  | Some id => Some id
  | None => object_hash <$> m_value m
  end.

(** The changes of a batch with distinct keys. *)
Definition targets (ms : list Mutation) : gmap Bytes (option Id) :=
  list_to_map ((λ m, (m_key m, target m)) <$> ms).

(** A mutation [transact] accepts in state [j]. *)
Definition mutation_ok (j : journal) (m : Mutation) : Prop :=
  (0 < length (m_key m) ≤ 1024)%nat ∧
  match m_reference m, m_value m with
  | Some id, None => is_Some (objects_ j !! id)
  | None, Some v => len v ≤ max_payload
  | None, None => is_Some (roots_ j !! m_key m)
  | Some _, Some _ => False
  end.

(** The mutation stores a value under the given id. *)
Definition stores (m : Mutation) (id : Id) : Prop :=
  m_reference m = None ∧ ∃ v, m_value m = Some v ∧ object_hash v = id.
Definition stored_by (ms : list Mutation) (id : Id) : Prop := ∃ m, m ∈ ms ∧ stores m id.

Lemma stored_by_snoc ms m id : stored_by (ms ++ [m]) id ↔ stored_by ms id ∨ stores m id.
Proof.
  unfold stored_by. split.
  - intros (m0 & [?| ->%list_elem_of_singleton]%elem_of_app & ?); [left|right]; eauto.
  - intros [(m0 & ? & ?)|?]; [exists m0|exists m]; rewrite elem_of_app, list_elem_of_singleton; auto.
Qed.

(** The values a batch stores, by id: the first value of an id is the one written. *)
Definition store_value (vs : gmap Id Bytes) (m : Mutation) : gmap Id Bytes :=
  match m_reference m, m_value m with
  | None, Some v => emplace (object_hash v) v vs
  | _, _ => vs
  end.
Definition batch_values (ms : list Mutation) : gmap Id Bytes := foldl store_value ∅ ms.

Lemma batch_values_snoc ms m : batch_values (ms ++ [m]) = store_value (batch_values ms) m.
Proof. unfold batch_values. by rewrite foldl_snoc. Qed.

(** What is known of a plan once the mutations [ms] are in it. *)
Record planned (j : journal) (ms : list Mutation) (p : plan) : Prop := {
  pl_changes : p_changes p = targets ms;
  pl_nodup : NoDup (m_key <$> ms);
  pl_ok : Forall (mutation_ok j) ms;
  pl_values : ∀ id, is_Some (p_values p !! id) ↔ stored_by ms id;
  pl_batch : p_values p = batch_values ms;
  pl_sound : ∀ id v, p_values p !! id = Some v → sound_value (id, v);
  pl_references : p_references p = true ∨ ∀ m, m ∈ ms → m_reference m = None;
}.

Lemma targets_snoc ms m :
  m_key m ∉ m_key <$> ms → targets (ms ++ [m]) = <[m_key m := target m]> (targets ms).
Proof.
  intros Hk. unfold targets. rewrite fmap_app, list_to_map_app. simpl.
  rewrite <- insert_union_r; [by rewrite (right_id_L ∅ (∪))|].
  apply not_elem_of_list_to_map_1. rewrite <- list_fmap_compose. done.
Qed.

Lemma targets_lookup_None ms k : targets ms !! k = None ↔ k ∉ m_key <$> ms.
Proof.
  unfold targets. rewrite <- not_elem_of_list_to_map. rewrite <- list_fmap_compose. done.
Qed.

Lemma planned_nil j : planned j [] (mkPlan ∅ ∅ 0 false).
Proof.
  split; simpl; [done|apply NoDup_nil_2|apply Forall_nil_2| |done| |right; set_solver].
  - intros id. rewrite lookup_empty. split; [by intros [? ?]|].
    intros (m & Hm & _). by apply elem_of_nil in Hm.
  - intros id v. by rewrite lookup_empty.
Qed.

(** Adding one accepted mutation to a plan. *)
Lemma planned_snoc j ms p m p' :
  planned j ms p → mutation_ok j m → m_key m ∉ m_key <$> ms →
  p_changes p' = <[m_key m := target m]> (p_changes p) →
  (p_references p' = true ∨
    m_reference m = None ∧ p_references p' = p_references p) →
  (p_values p' = p_values p ∧ (∀ id, stores m id → is_Some (p_values p !! id)) ∨
   ∃ v, m_reference m = None ∧ m_value m = Some v ∧ len v ≤ max_payload ∧
     p_values p !! object_hash v = None ∧ p_values p' = <[object_hash v := v]> (p_values p)) →
  planned j (ms ++ [m]) p'.
Proof.
  intros [Hc Hnd Hok Hval Hbatch Hsound Href] Hm Hk Hc' Href' Hval'. split.
  - by rewrite targets_snoc, <- Hc.
  - rewrite fmap_app. apply NoDup_app. split_and!; [done| |apply NoDup_singleton]. set_solver.
  - apply Forall_app. split; [done|]. by apply Forall_singleton.
  - intros id. rewrite stored_by_snoc, <- Hval.
    destruct Hval' as [[-> Hst]|(v & Er & Ev & _ & _ & ->)]; [naive_solver|].
    rewrite lookup_insert_is_Some'. unfold stores. rewrite Er, Ev. naive_solver.
  - rewrite batch_values_snoc, <- Hbatch. unfold store_value, emplace.
    destruct Hval' as [[-> Hst]|(v & Er & Ev & _ & En & ->)]; [|by rewrite Er, Ev, En].
    destruct (m_reference m) eqn:Er; [done|]. destruct (m_value m) as [v|] eqn:Ev; [|done].
    destruct (Hst (object_hash v)) as [? ->]; [|done]. split; eauto.
  - intros id v. destruct Hval' as [[-> _]|(v' & _ & _ & Hv' & _ & ->)]; [apply Hsound|].
    destruct (decide (object_hash v' = id)) as [<-|Hne].
    + rewrite lookup_insert_eq. by intros [= <-].
    + rewrite lookup_insert_ne by done. apply Hsound.
  - destruct Href' as [?|[Er ->]]; [by left|]. destruct Href as [?|Href]; [by left|right].
    intros m0 [?| ->%list_elem_of_singleton]%elem_of_app; auto.
Qed.

Lemma plan_mutation_step f j ms p m p' :
  planned j ms p → plan_mutation f j p m = Ok p' → planned j (ms ++ [m]) p'.
Proof.
  intros Hpl Hp. unfold plan_mutation in Hp.
  apply need_bind_Ok in Hp as [Hkey Hp]. apply need_bind_Ok in Hp as [Hdup Hp].
  apply need_bind_Ok in Hp as [Hboth Hp].
  rewrite andb_true_iff, bool_decide_eq_true, Z.leb_le in Hkey. destruct Hkey as [Hk0 Hk1].
  apply bool_decide_eq_true in Hdup.
  rewrite (pl_changes _ _ _ Hpl), targets_lookup_None in Hdup.
  assert (0 < length (m_key m) ≤ 1024)%nat as Hklen.
  { destruct (m_key m); [done|]. unfold len in Hk1. simpl in *. lia. }
  destruct (m_reference m) as [id|] eqn:Er; [|destruct (m_value m) as [v|] eqn:Ev].
  - apply need_bind_Ok in Hp as [Hobj Hp]. apply bool_decide_eq_true in Hobj.
    apply bind_Ok in Hp as (v & _ & [= <-]). destruct (m_value m) eqn:Ev; [done|].
    apply (planned_snoc j ms p); cbn [p_changes p_values p_references];
      [done|split; [done|by rewrite Er, Ev]|done|unfold target; by rewrite Er|by left|left].
    split; [done|]. intros i [? _]. congruence.
  - apply need_bind_Ok in Hp as [Hlen Hp]. apply Z.leb_le in Hlen. cbv zeta in Hp.
    apply need_bind_Ok in Hp as [_ [= <-]].
    apply (planned_snoc j ms p); [done|split; [done|by rewrite Er, Ev]|done|..];
      destruct (p_values p !! object_hash v) as [v'|] eqn:E;
      cbn [p_changes p_values p_references]; try (by right);
      try (unfold target; by rewrite Er, Ev).
    + left. split; [done|]. intros i (_ & v0 & ? & <-). by simplify_eq; eauto.
    + right. exists v. done.
  - apply need_bind_Ok in Hp as [Hroot [= <-]]. apply bool_decide_eq_true in Hroot.
    apply (planned_snoc j ms p); cbn [p_changes p_values p_references];
      [done|split; [done|by rewrite Er, Ev]|done|unfold target; by rewrite Er, Ev|by right|left].
    split; [done|]. intros i (_ & v & ? & _). congruence.
Qed.

Lemma plan_mutations_planned f j ms : ∀ done_ p p',
  planned j done_ p → plan_mutations f j p ms = Ok p' → planned j (done_ ++ ms) p'.
Proof.
  induction ms as [|m ms IH]; intros done_ p p' Hp Hr.
  { injection Hr as <-. by rewrite app_nil_r. }
  cbn [plan_mutations] in Hr. apply bind_Ok in Hr as (p1 & Hp1 & Hr).
  replace (done_ ++ m :: ms) with ((done_ ++ [m]) ++ ms) by (by rewrite <- app_assoc).
  eapply IH; [|done]. by eapply plan_mutation_step.
Qed.

(** ** From a plan to a commit *)

Lemma read_bytes_total f a n : total (read_bytes f a n).
Proof. unfold read_bytes. solve_total. Qed.
#[local] Hint Resolve read_bytes_total : forkfs.

Lemma read_record_total f a size : total (read_record f a size).
Proof. unfold read_record. solve_total. Qed.
#[local] Hint Resolve read_record_total : forkfs.

Lemma read_object_total f j id : total (read_object f j id).
Proof. unfold read_object. solve_total. Qed.
#[local] Hint Resolve read_object_total : forkfs.

Lemma plan_mutations_total f j ms : ∀ p, total (plan_mutations f j p ms).
Proof.
  induction ms as [|m ms IH]; intros p; cbn [plan_mutations]; [apply total_Ok|].
  apply total_bind; [|intros ? _; apply IH]. unfold plan_mutation. solve_total.
Qed.

Lemma size_targets ms : NoDup (m_key <$> ms) → size (targets ms) = length ms.
Proof.
  intros Hnd. rewrite <- length_in_order. unfold targets.
  transitivity (length ((λ m, (m_key m, target m)) <$> ms)); [|apply length_fmap].
  apply Permutation_length. rewrite in_order_perm. apply map_to_list_to_map.
  by rewrite <- list_fmap_compose.
Qed.

Lemma targets_elem ms k v :
  targets ms !! k = Some v → ∃ m, m ∈ ms ∧ m_key m = k ∧ target m = v.
Proof.
  intros Hk%elem_of_list_to_map_2. apply list_elem_of_fmap in Hk as (m & [= -> ->] & Hm). eauto.
Qed.

Lemma elem_targets ms m : NoDup (m_key <$> ms) → m ∈ ms → targets ms !! m_key m = Some (target m).
Proof.
  intros Hnd Hm. apply elem_of_list_to_map_1.
  - by rewrite <- list_fmap_compose.
  - apply list_elem_of_fmap. by exists m.
Qed.

Lemma stores_target m id : stores m id → target m = Some id.
Proof. intros (Hr & v & Hv & <-). unfold target. by rewrite Hr, Hv. Qed.

Lemma stored_by_size j ms p :
  planned j ms p → (size (p_values p) ≤ length ms)%nat.
Proof.
  intros Hp. rewrite <- length_in_order, <- (length_fmap fst).
  transitivity (length (omap target ms)).
  - apply submseteq_length, NoDup_submseteq; [apply NoDup_in_order_keys|].
    intros id ([id' v] & -> & Hin)%list_elem_of_fmap. apply elem_of_in_order in Hin. cbn [fst].
    assert (is_Some (p_values p !! id')) as (m & Hm & Hs)%(pl_values _ _ _ Hp) by eauto.
    apply list_elem_of_omap. exists m. split; [done|]. by apply stores_target.
  - clear Hp. induction ms as [|m ms IH]; [done|].
    change (omap target (m :: ms)) with
      (match target m with Some y => y :: omap target ms | None => omap target ms end).
    destruct (target m); cbn [length]; lia.
Qed.

(** Every planned change is an entry replay accepts. *)
Lemma planned_entries (j : journal) (ms : list Mutation) (p : plan) (P : gmap Id Location) (rtype : Z) :
  planned j ms p → jwf j → (∀ id, is_Some (P !! id) ↔ is_Some (p_values p !! id)) →
  rtype = (if p_references p then 8 else 7) →
  Forall (entry_ok rtype j P) (in_order (p_changes p)).
Proof.
  intros Hp Hwf HP Hty. apply Forall_forall. intros [k v] Hin%elem_of_in_order.
  rewrite (pl_changes _ _ _ Hp) in Hin. apply targets_elem in Hin as (m & Hm & <- & <-).
  pose proof (pl_ok _ _ _ Hp) as Hok. rewrite Forall_forall in Hok.
  destruct (Hok m Hm) as [Hk Hmut]. unfold entry_ok, target. cbn [fst snd].
  destruct (m_reference m) as [id|] eqn:Er; [|destruct (m_value m) as [w|] eqn:Ev]; cbn [fmap option_fmap option_map].
  - destruct (m_value m); [done|]. split; [done|split].
    + intros i [= <-]. destruct Hmut as [loc Hloc]. by eapply (wf_ids _ Hwf).
    + right. split; [|done]. destruct (pl_references _ _ _ Hp) as [Hr|Hr]; [by rewrite Hty, Hr|].
      rewrite (Hr m Hm) in Er. done.
  - split; [done|split].
    + intros i [= <-]. apply length_object_hash.
    + left. apply HP, (pl_values _ _ _ Hp). exists m. split; [done|]. split; [done|]. eauto.
  - split; [done|by split].
Qed.

Lemma prepare_length (j : journal) (e : Z) (C : gmap Bytes (option Id)) :
  jwf j → Forall (λ x, len x.1 ≤ 1024 ∧ wide x.2) (in_order C) → (size C ≤ 64)%nat →
  len (prepare_payload j e C) ≤ 44 + 64 * 1064.
Proof.
  intros Hwf Hok Hsz. rewrite prepare_payload_eq by apply Hwf. rewrite len_app.
  unfold len at 1. rewrite prepare_head_length by apply Hwf.
  assert (∀ l, Forall (λ x : Bytes * option Id, len x.1 ≤ 1024 ∧ wide x.2) l →
    len (concat ((λ e, batch_entry e.1 e.2) <$> l)) ≤ Z.of_nat (length l) * 1064) as Hl.
  { intros l. induction 1 as [|[k v] l [Hk Hw] Hl IH]; [done|].
    rewrite fmap_cons. cbn [concat length fst snd] in *. rewrite len_app, len_batch_entry by done. lia. }
  specialize (Hl _ Hok). rewrite length_in_order in Hl. lia.
Qed.

(** What a committed batch has done. *)
Record batch_commit (j : journal) (expected : Z) (ms : list Mutation) (locs : gmap Id Location)
    : Prop := {
  bc_sequence : expected = seq_ j;
  bc_count : (0 < length ms ≤ 64)%nat;
  bc_nodup : NoDup (m_key <$> ms);
  bc_ok : Forall (mutation_ok j) ms;
  bc_stored : ∀ id, is_Some (locs !! id) ↔ stored_by ms id;
}.

Lemma transact_guards expected ms w :
  (∃ msg, transact expected ms w = (w, Err msg)) ∨
  poisoned_ (jnl w) = false ∧ expected = seq_ (jnl w) ∧ seq_ (jnl w) ≠ UINT64_MAX ∧
  (0 < length ms ≤ 64)%nat ∧
  ∃ p, plan_mutations (file (dev w)) (jnl w) (mkPlan ∅ ∅ 0 false) ms = Ok p.
Proof.
  unfold transact, mbind, st_bind, get_st, lift, alive, st_need, lift, need.
  destruct (poisoned_ (jnl w)); [left; by eexists|]. cbn [negb].
  destruct (Z.eqb_spec expected (seq_ (jnl w))); [|left; by eexists].
  destruct (Z.eqb_spec (seq_ (jnl w)) UINT64_MAX); [left; by eexists|]. cbn [negb].
  destruct ((0 <? len ms) && (len ms <=? 64)) eqn:E; [|left; by eexists].
  pose proof (plan_mutations_total (file (dev w)) (jnl w) ms (mkPlan ∅ ∅ 0 false)) as Ht.
  destruct (plan_mutations _ _ _ _) as [p|m|]; [right|left; by eexists|done].
  rewrite andb_true_iff, Z.ltb_lt, Z.leb_le in E. unfold len in E. split_and!; eauto; lia.
Qed.

(** What [transact] does once the plan is made. *)
Definition publish_plan (j : journal) (p : plan) (data : Bytes) (locs : gmap Id Location)
    (expected : Z) : ST world unit :=
  let pp := prepare_payload j expected (p_changes p) in
  let prepare := record (if p_references p then 8 else 7) (seq_ j + 1) pp zero_id in
  let batch := data ++ prepare in
  st_need (len batch <=? 2 * 1024 * 1024) "transaction batch too large";;
  let '(new_segment, at_) := placement j (len batch + 216) in
  st_need (at_ <=? OFF_MAX - span) "container offset exhausted";;
  let begin_ := at_ + (if new_segment then header else 0) in
  let cp := commit_payload j (begin_ + len data) (len prepare) begin_ pp batch in
  let commit := record 3 (seq_ j + 1) cp zero_id in
  publish new_segment at_ begin_ batch commit
    (λ j, next_journal j (p_changes p) (shift_locations begin_ locs) cp
            (begin_ + len batch + len commit)).

Lemma transact_plan expected ms w p data locs :
  let j := jnl w in
  poisoned_ j = false → expected = seq_ j → seq_ j ≠ UINT64_MAX → (0 < length ms ≤ 64)%nat →
  plan_mutations (file (dev w)) j (mkPlan ∅ ∅ 0 false) ms = Ok p →
  data_records (seq_ j + 1) (in_order (p_values p)) [] ∅ = (data, locs) →
  transact expected ms w = publish_plan j p data locs expected w.
Proof.
  intros j Hal Hexp Hseq Hn Hplan Edata. unfold transact.
  rewrite (st_bind_run _ _ w w w eq_refl). cbv zeta. fold j.
  rewrite (st_bind_run _ _ w w tt) by (unfold lift, alive; by rewrite Hal).
  rewrite (st_bind_run _ _ w w tt).
  2:{ unfold st_need, lift. by rewrite (proj2 (Z.eqb_eq _ _) Hexp). }
  rewrite (st_bind_run _ _ w w tt).
  2:{ unfold st_need, lift. by rewrite (proj2 (Z.eqb_neq _ _) Hseq). }
  rewrite (st_bind_run _ _ w w tt).
  2:{ unfold st_need, lift, len. rewrite (proj2 (Z.ltb_lt _ _)), (proj2 (Z.leb_le _ _)) by lia. done. }
  rewrite (st_bind_run _ _ w w p) by (unfold lift; by rewrite Hplan).
  rewrite Edata. reflexivity.
Qed.

(** The prepare record of a plan fits a record. *)
Lemma planned_recordable (j : journal) (ms : list Mutation) (p : plan) (expected : Z) (pp : Bytes)
    (rtype : Z) (P : gmap Id Location) :
  planned j ms p → jwf j → seq_ j < UINT64_MAX → (length ms ≤ 64)%nat →
  (∀ id, is_Some (P !! id) ↔ is_Some (p_values p !! id)) →
  rtype = (if p_references p then 8 else 7) → pp = prepare_payload j expected (p_changes p) →
  recordable rtype (seq_ j + 1) pp zero_id.
Proof.
  intros Hp Hwf Hs Hn HP Ety Epp. pose proof (wf_seq _ Hwf) as Hsr.
  split; [rewrite Ety; destruct (p_references p); lia|lia|done|]. rewrite Epp.
  pose proof (planned_entries j ms p P rtype Hp Hwf HP Ety) as Hent.
  pose proof (prepare_length j expected (p_changes p) Hwf) as Hpl.
  specialize (Hpl ltac:(eapply Forall_impl; [exact Hent|]; intros [k v] (? & ? & _);
    simpl in *; split; [unfold len; lia|done])).
  assert (size (p_changes p) = length ms) as Hsz.
  { rewrite (pl_changes _ _ _ Hp). apply size_targets, Hp. }
  specialize (Hpl ltac:(lia)).
  unfold record_length in *. Z.to_euclidean_division_equations. lia.
Qed.

(** Replay reads the planned changes back. *)
Lemma planned_replayed (j : journal) (ms : list Mutation) (p : plan) (expected : Z) (pp : Bytes)
    (rtype : Z) (P : gmap Id Location) (data : Bytes) (b r : Z) (l : loop) (enc : Bytes) :
  planned j ms p → jwf j → expected = seq_ j → (0 < length ms ≤ 64)%nat →
  (∀ id, is_Some (P !! id) ↔ is_Some (p_values p !! id)) →
  rtype = (if p_references p then 8 else 7) → pp = prepare_payload j expected (p_changes p) →
  in_tx (flags r false false j) b P data l →
  prepare_changes (mkRec rtype (seq_ j + 1) (at_ l) zero_id pp enc) (reset l) = Ok (p_changes p).
Proof.
  intros Hp Hwf Hexp Hn HP Ety Epp Htx. rewrite Epp, Hexp. pose proof (pl_changes _ _ _ Hp) as HC.
  apply (prepare_changes_run l (flags r false false j) P data b); [done|by apply jwf_flags|..].
  - rewrite Ety. destruct (p_references p); lia.
  - rewrite HC, size_targets by apply Hp. lia.
  - by apply (planned_entries j ms).
  - intros id Hid. apply HP, (pl_values _ _ _ Hp) in Hid as (m & Hm & Hst).
    exists (m_key m). rewrite HC, (elem_targets ms m) by (done || apply Hp).
    by rewrite (stores_target m id).
Qed.

Lemma planned_changes_ok (j : journal) (ms : list Mutation) (p : plan) (locs : gmap Id Location) :
  planned j ms p → (∀ id, is_Some (locs !! id) ↔ is_Some (p_values p !! id)) →
  changes_ok j locs (p_changes p).
Proof.
  intros Hp Hlocs k id Hk. rewrite (pl_changes _ _ _ Hp) in Hk.
  apply targets_elem in Hk as (m & Hm & <- & Ht).
  pose proof (pl_ok _ _ _ Hp) as Hok. rewrite Forall_forall in Hok.
  destruct (Hok m Hm) as [Hkl Hmut]. unfold target in Ht. split; [|done].
  destruct (m_reference m) as [i|] eqn:Er.
  - injection Ht as ->. destruct (m_value m); [done|]. by right.
  - destruct (m_value m) as [v|] eqn:Ev; [|done]. injection Ht as <-. left.
    apply Hlocs, (pl_values _ _ _ Hp). exists m. split; [done|]. split; eauto.
Qed.

Lemma planned_keys j ms p id : planned j ms p → id ∈ (in_order (p_values p)).*1 ↔ stored_by ms id.
Proof.
  intros Hp. rewrite <- (pl_values _ _ _ Hp), list_elem_of_fmap. split.
  - intros ([id' v] & -> & Hin%elem_of_in_order). by exists v.
  - intros [v Hv]. exists (id, v). by rewrite elem_of_in_order.
Qed.

Lemma transact_run c w l f expected ms :
  inv c w l f →
  (∃ msg, transact expected ms w = (w, Err msg)) ∨
  ∃ locs cp e f', let j' := next_journal (jnl w) (targets ms) locs cp e in
    batch_commit (jnl w) expected ms locs ∧
    stored_values (in_order (batch_values ms)) f (jnl w) f' j' ∧
    all_or_nothing c (jnl w) f j' f' (transact expected ms w).
Proof.
  intros Hi. destruct (transact_guards expected ms w) as [?|(Hal & Hexp & Hseq & Hn & p & Hplan)];
    [by left|].
  pose proof (inv_wf _ _ _ _ Hi) as Hwf. pose proof (wf_seq _ Hwf) as Hsr.
  pose proof (plan_mutations_planned _ _ _ [] _ _ (planned_nil (jnl w)) Hplan) as Hp.
  cbn [app] in Hp. pose proof (pl_changes _ _ _ Hp) as HC.
  destruct (data_records (seq_ (jnl w) + 1) (in_order (p_values p)) [] ∅) as [data locs] eqn:Edata.
  rewrite (transact_plan expected ms w p data locs) by done. clear Hplan.
  assert (Forall sound_value (in_order (p_values p))) as Hsound.
  { apply Forall_forall. intros [id v] Hin%elem_of_in_order. by apply (pl_sound _ _ _ Hp). }
  destruct (tx_located _ _ _ _ Hsound Edata) as [_ Hdom].
  assert (∀ id, is_Some (locs !! id) ↔ is_Some (p_values p !! id)) as Hlocs.
  { intros id. rewrite Hdom, (planned_keys _ _ _ id Hp), (pl_values _ _ _ Hp). done. }
  unfold publish_plan. cbv zeta. set (j := jnl w) in *.
  remember (if p_references p then 8 else 7) as rtype eqn:Ety.
  remember (prepare_payload j expected (p_changes p)) as pp eqn:Epp.
  remember (record rtype (seq_ j + 1) pp zero_id) as prepare eqn:Ep.
  remember (data ++ prepare) as batch eqn:Eb.
  destruct (Z.leb_spec (len batch) (2 * 1024 * 1024)) as [Hmax|]; [|left; by eexists].
  rewrite (st_bind_run _ _ w w tt eq_refl).
  destruct (placement j (len batch + 216)) as [new_segment at0] eqn:Epl.
  destruct (Z.leb_spec at0 (OFF_MAX - span)) as [Hoff|]; [right|left; by eexists].
  rewrite (st_bind_run _ _ w w tt eq_refl).
  remember (at0 + (if new_segment then header else 0)) as b eqn:Ebb.
  remember (commit_payload j (b + len data) (len prepare) b pp batch) as cp eqn:Ecp.
  remember (record 3 (seq_ j + 1) cp zero_id) as commit eqn:Ecm.
  exists (shift_locations b locs), cp, (b + len batch + len commit). cbv zeta.
  assert (∀ id, is_Some (shift_locations b locs !! id) ↔ is_Some (p_values p !! id)) as HP.
  { intros id. unfold shift_locations. rewrite lookup_fmap, fmap_is_Some. apply Hlocs. }
  assert (batch_commit j expected ms (shift_locations b locs)) as Hbc.
  { split; [done|done|apply Hp|apply Hp|]. intros id. rewrite HP. apply Hp. }
  rewrite <- HC, <- (pl_batch _ _ _ Hp).
  destruct (commit_outcome c w l f (in_order (p_values p)) data locs (p_changes p) rtype pp
    new_segment at0 prepare batch b cp commit) as (f' & Hsv & Hout); fold j; try done.
  8: { exists f'. split; [done|]. split; [done|]. exact Hout. }
  - lia.
  - apply NoDup_in_order_keys.
  - rewrite length_in_order. pose proof (stored_by_size _ _ _ Hp). lia.
  - apply (planned_recordable j ms p expected pp rtype (shift_locations b locs)); try done; lia.
  - right. rewrite Ety. destruct (p_references p); lia.
  - intros l' Htx. destruct (lg_journal _ _ _ _ _ (inv_logged _ _ _ _ Hi)) as [r Hj].
    fold j in Hj. rewrite Hj in Htx. by eapply (planned_replayed j ms p).
  - by apply (planned_changes_ok j ms).
Qed.
End Transact.
