(* ===== verification/JournalStore.v ===== *)
(** * The journal as an atomic key-value store

    The abstract store a journal represents (a sequence number, named roots, and
    immutable objects), its transitions, and the executions of a journal under crashes:
    operations that complete, operations that fail and are followed by a reopen, and
    reopens at any time from the visible or from the durable contents of the file. *)

From S2P Require Import Prelude Codec Treap Journal JournalRecord JournalReplay JournalCommit JournalTx.
From S2P Require Import JournalState JournalOps JournalCheckpoint JournalTransact.
Import Journal.
Local Open Scope Z_scope.

(** ** The abstract store *)

Record kv := mkKv { kv_seq : Z; kv_roots : gmap Bytes Id; kv_objects : gmap Id Bytes }.

Definition kv_get (s : kv) (k : Bytes) : option Bytes := kv_roots s !! k ≫= λ id, kv_objects s !! id.

(** Binding and unbinding keys. *)
Definition rebind (changes : gmap Bytes (option Id)) (roots : gmap Bytes Id) : gmap Bytes Id :=
  merge (λ c r, match c with Some v => v | None => r end) changes roots.

Definition kv_commit (changes : gmap Bytes (option Id)) (values : gmap Id Bytes) (s : kv) : kv :=
  mkKv (kv_seq s + 1) (rebind changes (kv_roots s)) (values ∪ kv_objects s).

(** A store whose counters fit in 64 bits. *)
Definition counts_fit (s : kv) : Prop :=
  Z.of_nat (size (kv_objects s)) ≤ UINT64_MAX ∧ Z.of_nat (size (kv_roots s)) ≤ UINT64_MAX.

Definition ok_value {A} (r : result A) : option A :=
  match r with Ok a => Some a | _ => None end.

Lemma apply_changes_rebind roots changes : apply_changes roots changes = rebind changes roots.
Proof.
  apply map_eq. intros k. rewrite apply_changes_lookup. unfold rebind.
  rewrite lookup_merge. unfold diag_None. by destruct (changes !! k), (roots !! k).
Qed.

Section Store.
Context `{DigestOk}.

(** The effect of a batch of mutations. *)
Definition kv_batch (ms : list Mutation) : kv → kv := kv_commit (targets ms) (batch_values ms).

(** The store a journal with log [f] represents. *)
Definition abs (f : Bytes) (j : journal) : kv :=
  mkKv (seq_ j) (roots_ j)
    (map_imap (λ id _, ok_value (read_object f j id)) (objects_ j)).

Lemma abs_object f j id : kv_objects (abs f j) !! id = ok_value (read_object f j id).
Proof.
  unfold abs. cbn [kv_objects]. rewrite map_lookup_imap. unfold read_object at 2.
  destruct (objects_ j !! id) as [loc|] eqn:E; [|done]. cbn [mbind option_bind].
  unfold read_object. by rewrite E.
Qed.

Lemma abs_seq f j : kv_seq (abs f j) = seq_ j.
Proof. reflexivity. Qed.
Lemma abs_roots f j : kv_roots (abs f j) = roots_ j.
Proof. reflexivity. Qed.

Lemma abs_flags f r t p j : abs f (flags r t p j) = abs f j.
Proof. done. Qed.

Lemma kv_eq s s' :
  kv_seq s = kv_seq s' → kv_roots s = kv_roots s' →
  (∀ id, kv_objects s !! id = kv_objects s' !! id) → s = s'.
Proof. destruct s, s'. simpl. intros -> -> Ho. f_equal. by apply map_eq. Qed.

(** Bytes past the log do not matter. *)
Lemma abs_extend f y j : objects_ok f j → abs (f ++ y) j = abs f j.
Proof.
  intros Hok. apply kv_eq; [by rewrite !abs_seq|by rewrite !abs_roots|]. intros id. by rewrite !abs_object, read_object_stable.
Qed.

Lemma inv_abs c w l f : inv c w l f → abs (file (dev w)) (jnl w) = abs f (jnl w).
Proof.
  intros Hi. destruct (inv_prefix _ _ _ _ Hi) as [y ->]. apply abs_extend, Hi.
Qed.

(** The store after a commit. *)
Lemma abs_next (f : Bytes) (j : journal) (f' : Bytes) (C : gmap Bytes (option Id))
    (P : gmap Id Location) (cp : Bytes) (e : Z) (vs : gmap Id Bytes) :
  stored_values (in_order vs) f j f' (next_journal j C P cp e) →
  abs f' (next_journal j C P cp e) = kv_commit C vs (abs f j).
Proof.
  intros [Hnew Hold]. apply kv_eq; cbn [kv_commit kv_seq kv_roots].
  { by rewrite !abs_seq. }
  { rewrite !abs_roots. apply apply_changes_rebind. }
  intros id. rewrite abs_object. cbn [kv_commit kv_objects]. rewrite lookup_union, abs_object.
  destruct (vs !! id) as [v|] eqn:E.
  - rewrite (Hnew id v) by (by apply elem_of_in_order). cbn [ok_value]. symmetry. apply union_Some_l.
  - rewrite (Hold id); [by destruct (ok_value _)|].
    intros ([id' v] & -> & Hin%elem_of_in_order)%list_elem_of_fmap. simpl in E. congruence.
Qed.

Lemma abs_checkpointed f j f' e :
  (∀ id, read_object f' (checkpointed j e) id = read_object f j id) →
  abs f' (checkpointed j e) = abs f j.
Proof. intros Hr. apply kv_eq; [by rewrite !abs_seq|by rewrite !abs_roots|]. intros id. by rewrite !abs_object, Hr. Qed.

(** [put] is the batch of one value. *)
Definition put_mutation (key value : Bytes) : Mutation := mkMutation key (Some value) None.

Lemma put_batch key value s :
  kv_batch [put_mutation key value] s =
  kv_commit {[key := Some (object_hash value)]} {[object_hash value := value]} s.
Proof. done. Qed.

(** ** Reading *)

Definition read_result (v : option Bytes) : result Bytes :=
  match v with Some v => Ok v | None => Err "object root not found" end.

Lemma get_abs c w l f k :
  inv c w l f → get (file (dev w)) (jnl w) k = read_result (kv_get (abs f (jnl w)) k).
Proof.
  intros Hi. unfold get, alive. rewrite (inv_alive _ _ _ _ Hi). cbn [negb need mbind result_bind].
  unfold kv_get. cbn [kv_roots abs].
  destruct (roots_ (jnl w) !! k) as [id|] eqn:E; [|done]. cbn [mbind option_bind].
  rewrite <- (inv_abs _ _ _ _ Hi), abs_object.
  destruct (inv_roots _ _ _ _ Hi k id E) as [Hid _].
  destruct (inv_read _ _ _ _ id Hi Hid) as (v & Hv & _). by rewrite Hv.
Qed.

(** ** Outcomes *)

(** What a reopen finds in contents [F]: a live journal that represents [s]. *)
Definition reopens_to (c : Checkpoint) (repo F : Bytes) (s : kv) : Prop :=
  ∀ script, ∃ j l f, open F repo c = Ok j ∧
    inv c (mkWorld (mkDevice F F script) j) l f ∧ abs f j = s.

Lemma reopens_abs c F j f : reopens c F j f → reopens_to c (repository_ j) F (abs f j).
Proof.
  intros Hr s. destruct (reopens_inv c F j f s Hr) as (r & Ho & l & Hi). by eexists _, l, f.
Qed.

(** The outcome of an operation that commits [s'] on top of [s]. *)
Definition atomic {A} (c : Checkpoint) (w : world) (s s' : kv) (out : world * result A) : Prop :=
  match out with
  | (w', Ok _) =>
      (∃ l f, inv c w' l f ∧ abs f (jnl w') = s') ∧ repository_ (jnl w') = repository_ (jnl w)
  | (w', Err _) =>
      w' = w ∨
      poisoned_ (jnl w') = true ∧
      ∀ F, F = file (dev w') ∨ F = durable (dev w') →
        reopens_to c (repository_ (jnl w)) F s ∨ reopens_to c (repository_ (jnl w)) F s'
  | (_, OutOfFuel) => False
  end.

Lemma all_or_nothing_atomic {A} c w j' f f' (out : world * result A) :
  repository_ j' = repository_ (jnl w) →
  all_or_nothing c (jnl w) f j' f' out → atomic c w (abs f (jnl w)) (abs f' j') out.
Proof.
  intros Hrepo. destruct out as [w' [a|m|]]; [| |done].
  - intros [Hj [l Hi]]. split; [exists l, f'; split; [exact Hi|by rewrite Hj]|by rewrite Hj].
  - intros (Hj & Hf & Hd). right. split; [by rewrite Hj|].
    assert (∀ F, either F c (jnl w) f j' f' →
      reopens_to c (repository_ (jnl w)) F (abs f (jnl w)) ∨
      reopens_to c (repository_ (jnl w)) F (abs f' j')) as He.
    { intros F [Hr|Hr]; [left|right; rewrite <- Hrepo]; by apply reopens_abs. }
    intros F [->| ->]; by apply He.
Qed.

Lemma transact_atomic c w l f expected ms :
  inv c w l f →
  atomic c w (abs f (jnl w)) (kv_batch ms (abs f (jnl w))) (transact expected ms w).
Proof.
  intros Hi. destruct (transact_run c w l f expected ms Hi) as [[m ->]|Hrun]; [by left|].
  destruct Hrun as (locs & cp & e & f' & Hbc & Hsv & Hout).
  unfold kv_batch. rewrite <- (abs_next _ _ _ _ _ _ _ _ Hsv). by apply all_or_nothing_atomic.
Qed.

Lemma put_atomic c w l f key value :
  inv c w l f →
  atomic c w (abs f (jnl w)) (kv_batch [put_mutation key value] (abs f (jnl w)))
    (put key value w).
Proof.
  intros Hi. destruct (decide (put_ok (jnl w) key value)) as [Hok|Hno].
  - destruct (put_run c w l f key value Hi Hok) as [->|(loc & cp & e & f' & Hsv & Hout)]; [by left|].
    rewrite put_batch, <- (abs_next f (jnl w) f' _ {[object_hash value := loc]} cp e).
    + by apply all_or_nothing_atomic.
    + by rewrite in_order_singleton.
  - assert (∃ m, put key value w = (w, Err m)) as [m ->]; [|by left].
    unfold put, put_ok, mbind, st_bind, gets, lift, alive, st_need, lift, need in *.
    rewrite (inv_alive _ _ _ _ Hi). cbn [negb].
    destruct (bool_decide_reflect (key ≠ [])); cbn [andb]; [|by eexists].
    destruct (Z.leb_spec (len key) 1024); [|by eexists].
    destruct (Z.leb_spec (len value) max_payload); [|by eexists].
    destruct (Z.eqb_spec (seq_ (jnl w)) UINT64_MAX); [by eexists|]. by destruct Hno.
Qed.

Lemma checkpoint_atomic c w l f :
  inv c w l f → ids_nonzero (jnl w) →
  atomic c w (abs f (jnl w)) (abs f (jnl w)) (checkpoint w) ∧
  ∀ w' cp, checkpoint w = (w', Ok cp) → ∃ l' f', inv cp w' l' f' ∧ abs f' (jnl w') = abs f (jnl w).
Proof.
  intros Hi Hids. destruct (Z.le_gt_cases (checkpoint_bytes (jnl w)) (1024 * 1024 - 87)) as [Hsz|Hsz].
  - destruct (checkpoint_run c w l f Hi Hids Hsz) as [->|(e & f' & Hrd & Hout & Hcp)].
    { split; [by left|done]. }
    split.
    + rewrite <- (abs_checkpointed f (jnl w) f' e Hrd) at 2. by apply all_or_nothing_atomic.
    + intros w' cp Hc. destruct (Hcp w' cp Hc) as [l' Hl']. exists l', f'. split; [done|].
      rewrite Hc in Hout. destruct Hout as [-> _]. by apply abs_checkpointed.
  - assert (checkpoint w = (w, Err "checkpoint exceeds single-record profile limit")) as ->;
      [|split; [by left|done]].
    unfold checkpoint, mbind, st_bind, gets, lift, alive, st_need, lift, need.
    rewrite (inv_alive _ _ _ _ Hi). cbn [negb]. by rewrite (proj2 (Z.leb_gt _ _)) by lia.
Qed.
End Store.
