(* ===== verification/JournalRuns.v ===== *)
(** * Executions of a journal

    The loop of the constructor terminates on any contents; a new container satisfies
    the invariant; and every execution, with failing operations and crashes anywhere,
    is explained by the abstract store. *)

From S2P Require Import Prelude Codec Treap Journal JournalRecord JournalReplay JournalCommit JournalTx.
From S2P Require Import JournalState JournalOps JournalCheckpoint JournalTransact JournalStore.
Import Journal.
Local Open Scope Z_scope.

(** ** Termination of the replay *)

Lemma read_bytes_length f a n b : 0 ≤ a → 0 ≤ n → read_bytes f a n = Ok b → len b = n.
Proof.
  intros Ha Hn. unfold read_bytes. destruct (Z.leb_spec (a + n) (len f)) as [Hl|]; [|done].
  intros [= <-]. unfold len in *. rewrite length_slice by lia. lia.
Qed.

Lemma read_record_size f a size r :
  0 ≤ a → read_record f a size = Ok (Some r) → 80 ≤ len (encoded r).
Proof.
  intros Ha Hr. unfold read_record in Hr. apply need_bind_Ok in Hr as [_ Hr].
  destruct (_ <? 64); [done|]. apply bind_Ok in Hr as (h & _ & Hr).
  do 2 apply need_bind_Ok in Hr as [_ Hr]. apply need_bind_Ok in Hr as [Hl Hr].
  apply need_bind_Ok in Hr as [_ Hr]. destruct (_ <? _); [done|].
  apply bind_Ok in Hr as (b & Hb & Hr). do 4 apply need_bind_Ok in Hr as [_ Hr].
  injection Hr as <-. cbn [encoded]. rewrite !andb_true_iff, Z.leb_le in Hl.
  rewrite (read_bytes_length _ _ _ _ Ha (load_nonneg _ _) Hb). lia.
Qed.

Section Termination.
Context `{Digest}.

Lemma batch_entries_total n : ∀ first rtype p j pending cursor previous changes referenced,
  total (batch_entries n first rtype p j pending cursor previous changes referenced).
Proof.
  induction n as [|n IH]; intros; cbn [batch_entries]; [apply total_Ok|].
  repeat (solve_total_step || apply IH).
Qed.
#[local] Hint Resolve batch_entries_total read_bytes_total read_record_total : forkfs.

Lemma prepare_changes_total r l : total (prepare_changes r l).
Proof. unfold prepare_changes. solve_total. Qed.
#[local] Hint Resolve prepare_changes_total : forkfs.

Lemma on_record_total r l : total (on_record r l).
Proof. unfold on_record. solve_total. Qed.
#[local] Hint Resolve on_record_total : forkfs.

Lemma replay_step_total f l : total (replay_step f l).
Proof. unfold replay_step. solve_total. Qed.

Lemma on_record_at r l l' : on_record r l = Ok l' → at_ l' = at_ l + len (encoded r).
Proof.
  unfold on_record. intros Hr. apply need_bind_Ok in Hr as [_ Hr]. cbv zeta in Hr.
  apply bind_Ok in Hr as (l1 & Hl1 & Hr). apply need_bind_Ok in Hr as [_ [= <-]]. cbn [at_ loop_at].
  f_equal. set (l0 := if phase l =? 0 then _ else l) in *.
  assert (at_ l0 = at_ l) as <- by (unfold l0; by destruct (phase l =? 0)).
  destruct (_ && _) in Hl1; [|destruct (_ && _) in Hl1].
  - repeat apply need_bind_Ok in Hl1 as [_ Hl1]. by injection Hl1 as <-.
  - apply bind_Ok in Hl1 as (? & _ & [= <-]). done.
  - repeat apply need_bind_Ok in Hl1 as [_ Hl1]. by injection Hl1 as <-.
Qed.

(** Every iteration of the loop advances. *)
Lemma replay_step_advances f l l' :
  0 ≤ at_ l → at_ l < len f → replay_step f l = Ok (Some l') → at_ l < at_ l'.
Proof.
  intros H0 Hlt Hs. unfold replay_step in Hs. destruct (Z.eqb_spec ((at_ l - base) mod span) 0).
  - apply need_bind_Ok in Hs as [_ Hs]. destruct (_ <? header); [done|].
    apply bind_Ok in Hs as (h & _ & Hs). apply need_bind_Ok in Hs as [_ [= <-]].
    cbn [at_ loop_at]. unfold header. lia.
  - apply bind_Ok in Hs as (p & _ & Hs). destruct (all_zero p).
    + apply need_bind_Ok in Hs as [_ Hs]. apply bind_Ok in Hs as (pad & Hpad & Hs).
      apply need_bind_Ok in Hs as [_ [= <-]]. cbn [at_ loop_at].
      pose proof (Z.mod_pos_bound (at_ l - base) span ltac:(done)).
      apply (read_bytes_length _ _ _ _ H0) in Hpad; lia.
    + apply bind_Ok in Hs as ([r|] & Hr & Hs); [|done].
      apply (read_record_size _ _ _ _ H0) in Hr. destruct (_ && _).
      * apply need_bind_Ok in Hs as [_ [= <-]]. cbn [at_]. lia.
      * apply bind_Ok in Hs as (l2 & Hl2%on_record_at & [= <-]). lia.
Qed.

Lemma replay_total fuel : ∀ f l, 0 ≤ at_ l → enough fuel f l → total (replay fuel f l).
Proof.
  induction fuel as [|fuel IH]; intros f l H0 He; cbn [replay];
    destruct (Z.ltb_spec (at_ l) (len f)) as [Hlt|]; try apply total_Ok.
  - unfold enough in He. lia.
  - apply total_bind; [apply replay_step_total|]. intros [l'|] Hl'; [|apply total_Ok].
    pose proof (replay_step_advances _ _ _ H0 Hlt Hl'). apply IH; [lia|]. unfold enough in *. lia.
Qed.

Lemma restore_objects_total n : ∀ first c p at_ previous objects,
  total (restore_objects n first c p at_ previous objects).
Proof.
  induction n as [|n IH]; intros; cbn [restore_objects]; repeat (solve_total_step || apply IH).
Qed.
Lemma restore_roots_total n : ∀ first p objects at_ previous roots,
  total (restore_roots n first p objects at_ previous roots).
Proof.
  induction n as [|n IH]; intros; cbn [restore_roots]; repeat (solve_total_step || apply IH).
Qed.
#[local] Hint Resolve restore_objects_total restore_roots_total : forkfs.

Lemma restore_checkpoint_total f c j : total (restore_checkpoint f c j).
Proof. unfold restore_checkpoint. solve_total. Qed.
#[local] Hint Resolve restore_checkpoint_total : forkfs.

Lemma restore_checkpoint_end f c j j' :
  restore_checkpoint f c j = Ok j' → base ≤ end_ j'.
Proof.
  intros Hr. unfold restore_checkpoint in Hr. apply need_bind_Ok in Hr as [Hc Hr].
  apply need_bind_Ok in Hr as [_ Hr]. apply bind_Ok in Hr as (h & _ & Hr).
  apply need_bind_Ok in Hr as [_ Hr]. apply bind_Ok in Hr as ([r|] & _ & Hr); [|done].
  apply need_bind_Ok in Hr as [Hlen Hr]. repeat apply need_bind_Ok in Hr as [_ Hr].
  apply bind_Ok in Hr as ([a o] & _ & Hr). apply bind_Ok in Hr as ([a' o'] & _ & Hr).
  apply need_bind_Ok in Hr as [_ [= <-]]. cbn [end_].
  rewrite !andb_true_iff, !Z.leb_le, !Z.eqb_eq in *. pose proof (len_nonneg (encoded r)). lia.
Qed.

Lemma open_total f repo c : total (open f repo c).
Proof.
  unfold open. apply total_bind; [apply total_need|]. intros _ Hb%need_Ok%Z.leb_le.
  apply total_bind; [destruct (_ =? 0); [apply total_Ok|apply restore_checkpoint_total]|].
  intros j Hj. cbv zeta.
  assert (base ≤ end_ j) as Hend.
  { destruct (c_offset c =? 0); [by injection Hj as <-|by eapply restore_checkpoint_end]. }
  apply total_bind; [solve_total|]. intros _ _.
  apply total_bind; [|intros; apply total_Ok].
  apply replay_total; cbn [at_]; unfold enough, base in *; cbn [at_]; lia.
Qed.
End Termination.

(** ** Listing and verifying *)

Lemma while_prefix_filter prefix l :
  increasing l → (∀ k, k ∈ l → lex_le prefix k) →
  while_prefix prefix l = filter (λ k, starts_with prefix k = true) l.
Proof.
  induction l as [|k l IH]; [done|]. intros [Hk Hl] Hge. cbn [while_prefix].
  destruct (starts_with prefix k) eqn:E.
  - rewrite filter_cons_True by done. f_equal. apply IH; [done|]. set_solver.
  - rewrite filter_cons_False by congruence. symmetry.
    apply list_filter_none, Forall_forall. intros k' Hk' Hp.
    rewrite Forall_forall in Hk. specialize (Hk _ Hk').
    assert (starts_with prefix k = true); [|congruence].
    apply (starts_with_between prefix k k'); [apply Hge; set_solver|by apply lex_le_lt_eq; left|done].
Qed.

Lemma lower_bound_filter prefix l :
  increasing l → lower_bound prefix l = filter (λ k, lex_ltb k prefix = false) l.
Proof.
  induction l as [|k l IH]; [done|]. intros [Hk Hl]. cbn [lower_bound].
  destruct (lex_ltb k prefix) eqn:E.
  - rewrite filter_cons_False by congruence. by apply IH.
  - symmetry. rewrite list_filter_every; [done|]. constructor; [done|].
    eapply Forall_impl; [exact Hk|]. intros k' Hkk'. apply lex_not_lt.
    apply lex_not_lt in E. etrans; [exact E|]. apply lex_le_lt_eq. by left.
Qed.

Lemma keys_filter prefix l :
  increasing l →
  while_prefix prefix (lower_bound prefix l) = filter (λ k, starts_with prefix k = true) l.
Proof.
  intros Hl. rewrite lower_bound_filter by done. rewrite while_prefix_filter.
  - rewrite list_filter_filter. apply list_filter_iff. intros k. split; [by intros [? _]|].
    intros Hk. split; [done|]. by apply lex_not_lt, lex_le_prefix.
  - by apply increasing_filter.
  - intros k [Hk _]%list_elem_of_filter. by apply lex_not_lt.
Qed.

Section Runs.
Context `{DigestOk}.

Lemma verify_objects_ok f j ids :
  (∀ id, id ∈ ids → is_ok (read_object f j id) = true) → verify_objects f j ids = Ok tt.
Proof.
  induction ids as [|id ids IH]; intros Hall; [done|]. cbn [verify_objects].
  specialize (Hall id ltac:(set_solver)) as Hid. destruct (read_object f j id); [|done..].
  cbn [mbind result_bind]. apply IH. set_solver.
Qed.

Lemma verify_inv c w l f : inv c w l f → verify (file (dev w)) (jnl w) = Ok tt.
Proof.
  intros Hi. unfold verify, alive. rewrite (inv_alive _ _ _ _ Hi). cbn [negb need mbind result_bind].
  apply verify_objects_ok. intros id ([id' loc] & -> & Hin%elem_of_in_order)%list_elem_of_fmap.
  destruct (inv_read _ _ _ _ id' Hi ltac:(by eexists)) as (v & Hv & _). cbn [fst]. by rewrite Hv.
Qed.

Lemma keys_inv c w l f prefix :
  inv c w l f →
  keys (jnl w) prefix =
    Ok (filter (λ k, starts_with prefix k = true) (in_order (kv_roots (abs f (jnl w)))).*1).
Proof.
  intros Hi. unfold keys, alive. rewrite (inv_alive _ _ _ _ Hi). cbn [negb need mbind result_bind].
  rewrite keys_filter by apply increasing_in_order. by rewrite abs_roots.
Qed.

(** ** A new container *)

Definition fresh_loop (repo : Bytes) : loop := mkLoop base 0 0 0 no_rec ∅ ∅ [] (fresh repo).

Lemma start_fresh F repo : base ≤ len F → start F repo no_checkpoint = Ok (fresh_loop repo).
Proof. intros HF. unfold start. by rewrite need_true_bind by (by apply Z.leb_le). Qed.

Lemma fresh_inv F repo script :
  len F = base → length repo = 16%nat →
  inv no_checkpoint (mkWorld (mkDevice F F script) (fresh repo)) (fresh_loop repo) F.
Proof.
  intros HF Hrepo. apply (inv_complete _ _ (fresh repo)); [|done..]. split.
  - split; cbn; [done|unfold UINT64_MAX; lia|done|done|by left|done|].
    intros id loc. by rewrite lookup_empty.
  - split; [|done|by exists 0|done]. exists F, (fresh_loop repo), [].
    split_and!; [by rewrite app_nil_r|by constructor|].
    intros y. apply start_fresh. rewrite len_app. pose proof (len_nonneg y). lia.
  - intros id loc. cbn. by rewrite lookup_empty.
  - intros k id. cbn. by rewrite lookup_empty.
  - intros Hne. by destruct Hne.
Qed.

Lemma abs_fresh F repo : abs F (fresh repo) = mkKv 0 ∅ ∅.
Proof.
  apply kv_eq; [done|done|]. intros id. rewrite abs_object. cbn [kv_objects].
  rewrite lookup_empty. unfold read_object. cbn [objects_ fresh]. by rewrite lookup_empty.
Qed.

(** ** Executions *)

Inductive op :=
| OpPut (key value : Bytes)
| OpTransact (expected : Z) (ms : list Mutation)
| OpCheckpoint.

Definition run_op (o : op) : ST world (option Checkpoint) :=
  match o with
  | OpPut key value => put key value;; mret None
  | OpTransact expected ms => transact expected ms;; mret None
  | OpCheckpoint => c ← checkpoint; mret (Some c)
  end.

(** The effect of an operation on the store. *)
Definition effect (o : op) : kv → kv :=
  match o with
  | OpPut key value => kv_batch [put_mutation key value]
  | OpTransact _ ms => kv_batch ms
  | OpCheckpoint => λ s, s
  end.

(** No indexed object and no commit has the all-zero id, which a checkpoint cannot
    describe. *)
Definition may_run (o : op) (w : world) : Prop :=
  match o with OpCheckpoint => ids_nonzero (jnl w) | _ => True end.

Inductive event := Acknowledged (o : op) | Refused (o : op) | Interrupted (o : op) | Crashed.

(** A journal in use, with the checkpoint it would be reopened from. *)
Inductive step : Checkpoint * world → event → Checkpoint * world → Prop :=
| step_done o c w w' r :
    may_run o w → run_op o w = (w', Ok r) → step (c, w) (Acknowledged o) (c, w')
| step_adopt c w w' cp :
    ids_nonzero (jnl w) → checkpoint w = (w', Ok cp) →
    step (c, w) (Acknowledged OpCheckpoint) (cp, w')
| step_refused o c w w' m :
    may_run o w → run_op o w = (w', Err m) → poisoned_ (jnl w') = false →
    step (c, w) (Refused o) (c, w')
| step_interrupted o c w w' m F script j :
    may_run o w → run_op o w = (w', Err m) → poisoned_ (jnl w') = true →
    F = file (dev w') ∨ F = durable (dev w') →
    open F (repository_ (jnl w)) c = Ok j →
    step (c, w) (Interrupted o) (c, mkWorld (mkDevice F F script) j)
| step_crashed c w F script j :
    F = file (dev w) ∨ F = durable (dev w) →
    open F (repository_ (jnl w)) c = Ok j →
    step (c, w) Crashed (c, mkWorld (mkDevice F F script) j).

Inductive steps : Checkpoint * world → list event → Checkpoint * world → Prop :=
| steps_refl s : steps s [] s
| steps_step s e s1 es s' : step s e s1 → steps s1 es s' → steps s (e :: es) s'.

Lemma steps_snoc s es s1 e s' : steps s es s1 → step s1 e s' → steps s (es ++ [e]) s'.
Proof. induction 1; intros He; simpl; econstructor; eauto using steps. Qed.

(** The stores a list of events may lead to: acknowledged operations count, refused ones
    do not, interrupted ones may. *)
Inductive explains : list event → kv → kv → Prop :=
| explains_nil s : explains [] s s
| explains_ack o es s s' : explains es (effect o s) s' → explains (Acknowledged o :: es) s s'
| explains_refused o es s s' : explains es s s' → explains (Refused o :: es) s s'
| explains_kept o es s s' : explains es (effect o s) s' → explains (Interrupted o :: es) s s'
| explains_lost o es s s' : explains es s s' → explains (Interrupted o :: es) s s'
| explains_crashed es s s' : explains es s s' → explains (Crashed :: es) s s'.

Lemma atomic_map {A B} (g : A → B) c w s s' (m : ST world A) :
  atomic c w s s' (m w) → atomic c w s s' ((a ← m; mret (g a)) w).
Proof. unfold mbind, st_bind. by destruct (m w) as [w' [a|e|]]. Qed.

Lemma run_op_atomic o c w l f :
  inv c w l f → may_run o w →
  atomic c w (abs f (jnl w)) (effect o (abs f (jnl w))) (run_op o w).
Proof.
  intros Hi Hm. destruct o; cbn [run_op effect]; apply (atomic_map (λ _, _)).
  - by apply (put_atomic c w l).
  - by apply (transact_atomic c w l).
  - by apply (checkpoint_atomic c w l).
Qed.

Lemma step_explained c w l f e c' w' :
  inv c w l f → step (c, w) e (c', w') →
  ∃ l' f', inv c' w' l' f' ∧ explains [e] (abs f (jnl w)) (abs f' (jnl w')).
Proof.
  intros Hi Hs. inversion Hs as [o ? ? ? r Hm Hr|? ? ? cp Hids Hc|o ? ? ? m Hm Hr Hp
    |o ? ? w1 m F script j Hm Hr Hp HF Ho|? ? F script j HF Ho]; subst.
  - pose proof (run_op_atomic o _ _ _ _ Hi Hm) as Ha. rewrite Hr in Ha.
    destruct Ha as [(l' & f' & Hi' & Hf') _]. exists l', f'. split; [done|].
    rewrite Hf'. by repeat constructor.
  - destruct (proj2 (checkpoint_atomic _ _ _ _ Hi Hids) _ _ Hc) as (l' & f' & Hi' & Hf').
    exists l', f'. split; [done|]. rewrite Hf'. apply explains_ack. apply explains_nil.
  - pose proof (run_op_atomic o _ _ _ _ Hi Hm) as Ha. rewrite Hr in Ha.
    destruct Ha as [->|[? _]]; [|congruence]. exists l, f. split; [done|]. by repeat constructor.
  - pose proof (run_op_atomic o _ _ _ _ Hi Hm) as Ha. rewrite Hr in Ha.
    destruct Ha as [->|[_ Ha]]; [by rewrite (inv_alive _ _ _ _ Hi) in Hp|].
    destruct (Ha F HF) as [Hre|Hre]; destruct (Hre script) as (j' & l' & f' & Ho' & Hi' & Hf');
      rewrite Ho in Ho'; injection Ho' as <-; exists l', f'; (split; [done|]); cbn [jnl]; rewrite Hf'.
    + apply explains_lost, explains_nil.
    + apply explains_kept, explains_nil.
  - assert (reopens c' F (jnl w) f) as Hre.
    { destruct (inv_reopens _ _ _ _ Hi) as [H1' H2']. by destruct HF as [->| ->]. }
    destruct (reopens_abs _ _ _ _ Hre script) as (j' & l' & f' & Ho' & Hi' & Hf').
    rewrite Ho in Ho'. injection Ho' as <-. exists l', f'. split; [done|]. cbn [jnl]. rewrite Hf'.
    apply explains_crashed, explains_nil.
Qed.

Lemma explains_app es es' s s1 s' : explains es s s1 → explains es' s1 s' → explains (es ++ es') s s'.
Proof. induction 1; simpl; eauto using explains. Qed.

Lemma steps_explained c w l f es c' w' :
  inv c w l f → steps (c, w) es (c', w') →
  ∃ l' f', inv c' w' l' f' ∧ explains es (abs f (jnl w)) (abs f' (jnl w')).
Proof.
  intros Hi Hs. remember (c, w) as s eqn:Es. remember (c', w') as s' eqn:Es'.
  revert c w l f Hi Es. induction Hs as [s|s e [c1 w1] es s' Hstep Hs IH]; intros c w l f Hi Es; subst.
  - injection Es as <- <-. exists l, f. split; [done|constructor].
  - destruct (step_explained _ _ _ _ _ _ _ Hi Hstep) as (l1 & f1 & Hi1 & He1).
    destruct (IH eq_refl _ _ _ _ Hi1 eq_refl) as (l' & f' & Hi' & He').
    exists l', f'. split; [done|]. change (e :: es) with ([e] ++ es). by eapply explains_app.
Qed.

(** The states an execution from a new container can reach. *)
Definition reachable (c : Checkpoint) (w : world) : Prop :=
  ∃ F repo script es, len F = base ∧ length repo = 16%nat ∧
    steps (no_checkpoint, mkWorld (mkDevice F F script) (fresh repo)) es (c, w).

Lemma reachable_inv c w : reachable c w → ∃ l f, inv c w l f.
Proof.
  intros (F & repo & script & es & HF & Hr & Hs).
  destruct (steps_explained _ _ _ _ _ _ _ (fresh_inv F repo script HF Hr) Hs) as (l & f & Hi & _).
  eauto.
Qed.

(** The store a live journal represents. *)
Definition store_of (w : world) : kv := abs (file (dev w)) (jnl w).

Lemma reopens_to_store c repo F s script :
  reopens_to c repo F s →
  ∃ j, open F repo c = Ok j ∧ poisoned_ j = false ∧ store_of (mkWorld (mkDevice F F script) j) = s.
Proof.
  intros Hre. destruct (Hre script) as (j & l & f & Ho & Hi & Hf). exists j.
  split; [done|]. split; [apply (inv_alive _ _ _ _ Hi)|].
  unfold store_of. by rewrite (inv_abs _ _ _ _ Hi).
Qed.

(** An acknowledged operation as a step. *)
Lemma acknowledged_step o c w :
  may_run o w → is_ok (run_op o w).2 = true → step (c, w) (Acknowledged o) (c, (run_op o w).1).
Proof.
  intros Hm Hok. destruct (run_op o w) as [w' [r| |]] eqn:E; [|done..].
  by eapply step_done.
Qed.
End Runs.
