(* ===== verification/JournalHeader.v ===== *)
(** * The journal and the first 64 KiB of its file

    The journal lies behind the anchors of the container: it reads nothing before [base] and
    writes nothing there.  So the state it comes back to does not depend on what the anchors
    say, and its operations leave the anchors as they are, also when they are interrupted. *)

From S2P Require Import Prelude Codec Treap Journal JournalRecord JournalReplay JournalCommit JournalTx.
From S2P Require Import JournalState JournalOps JournalCheckpoint JournalTransact JournalStore JournalRuns.
Import Journal.
Local Open Scope Z_scope.

(** ** Reading behind the anchors *)

(** The size of the region of the anchors, and two files that differ there only. *)
Definition nbase : nat := Z.to_nat base.
Definition beyond (f g : Bytes) : Prop := len f = len g ∧ drop nbase f = drop nbase g.

Lemma nbase_base : Z.of_nat nbase = base.
Proof. apply Z2Nat.id. unfold base. lia. Qed.
#[global] Opaque nbase.

Lemma beyond_refl f : beyond f f.
Proof. done. Qed.

Lemma beyond_sym f g : beyond f g → beyond g f.
Proof. intros [Hl Hd]. by split. Qed.

Lemma beyond_app f g y : (nbase ≤ length f)%nat → beyond f g → beyond (f ++ y) (g ++ y).
Proof.
  intros Hf [Hl Hd]. assert (length f = length g) as El by (unfold len in Hl; lia).
  split; [by rewrite !len_app, Hl|]. rewrite !drop_app_le by lia. by rewrite Hd.
Qed.

Lemma read_bytes_beyond f g a n : beyond f g → base ≤ a → read_bytes f a n = read_bytes g a n.
Proof.
  intros [Hl Hd] Ha. unfold read_bytes. rewrite Hl. destruct (_ <=? _); [|done]. f_equal. unfold slice. f_equal.
  replace (Z.to_nat a) with (nbase + (Z.to_nat a - nbase))%nat by (pose proof nbase_base; lia).
  by rewrite <- !drop_drop, Hd.
Qed.

Lemma bind_cong {A B} (m : result A) (f g : A → result B) : (∀ a, m = Ok a → f a = g a) → m ≫= f = m ≫= g.
Proof. intros E. destruct m; [by apply E|done..]. Qed.

Lemma bind_cong_fst {A B} (m m' : result A) (f : A → result B) : m = m' → m ≫= f = m' ≫= f.
Proof. by intros ->. Qed.

(** Two computations that differ in reads that agree. *)
Ltac same_reads :=
  repeat first
    [reflexivity
    |match goal with |- context [read_bytes ?f ?a ?n] => rewrite (read_bytes_beyond f _ a n) by (eassumption || lia) end
    |apply bind_cong; intros ? ?
    |case_match].

Lemma read_record_beyond f g a size : beyond f g → base ≤ a → read_record f a size = read_record g a size.
Proof. intros Hfg Ha. unfold read_record. same_reads. Qed.

Section Header.
Context `{DigestOk}.

Lemma replay_step_beyond f g l : beyond f g → base ≤ at_ l → replay_step f l = replay_step g l.
Proof.
  intros Hfg Ha. unfold replay_step. rewrite (proj1 Hfg), (read_record_beyond f g) by done.
  case_match; same_reads.
Qed.

Lemma replay_beyond fuel f g l : beyond f g → base ≤ at_ l → replay fuel f l = replay fuel g l.
Proof.
  intros Hfg. revert l. induction fuel as [|fuel IH]; intros l Ha; cbn [replay]; rewrite (proj1 Hfg); [done|].
  destruct (Z.ltb_spec (at_ l) (len g)); [|done]. rewrite (replay_step_beyond f g) by done.
  apply bind_cong. intros [l'|] Hs; [|done]. apply IH.
  apply replay_step_advances in Hs; [lia|..]. all: unfold base in *; lia.
Qed.

(** Segments start behind the anchors. *)
Lemma segment_above at_ : base ≤ at_ → base ≤ base + (at_ - base) / span * span.
Proof. intros Ha. pose proof (Z.div_pos (at_ - base) span ltac:(lia) ltac:(done)). unfold span in *. lia. Qed.

Lemma restore_beyond f g c j : beyond f g → restore_checkpoint f c j = restore_checkpoint g c j.
Proof.
  intros Hfg. unfold restore_checkpoint. rewrite (proj1 Hfg). cbv zeta. apply bind_cong.
  intros [] Hn%need_Ok. rewrite !andb_true_iff, !Z.leb_le in Hn. destruct Hn as [[[Hb _] _] _].
  apply bind_cong. intros [] _.
  pose proof (segment_above (c_offset c) Hb) as Hseg.
  rewrite (read_bytes_beyond f g), (read_record_beyond f g) by done. done.
Qed.

Lemma start_beyond f g repo c : beyond f g → start f repo c = start g repo c.
Proof.
  intros Hfg. unfold start. rewrite (proj1 Hfg), (restore_beyond f g) by done. apply bind_cong. intros [] _.
  apply bind_cong. intros j _. apply bind_cong_fst. destruct (_ && _) eqn:E; [|done].
  apply andb_prop in E as [E%Z.ltb_lt _].
  by rewrite (read_bytes_beyond f g) by (done || apply segment_above; lia).
Qed.

Lemma start_at f repo c l : start f repo c = Ok l → base ≤ at_ l.
Proof.
  intros Hs. unfold start in Hs. apply need_bind_Ok in Hs as [_ Hs]. apply bind_Ok in Hs as (j & Hj & Hs).
  apply bind_Ok in Hs as (u & _ & Hs). apply Ok_inj in Hs as <-. cbn [at_].
  destruct (c_offset c =? 0); [apply Ok_inj in Hj as <-; apply Z.le_refl|by eapply restore_checkpoint_end].
Qed.

Lemma open_beyond f g repo c : beyond f g → open f repo c = open g repo c.
Proof.
  intros Hfg. rewrite !open_start, (proj1 Hfg), (start_beyond f g) by done. apply bind_cong. intros l Hl%start_at.
  by rewrite (replay_beyond _ f g).
Qed.

(** ** The repository of an opened journal *)

Lemma on_record_repository r l l' : on_record r l = Ok l' → repository_ (j_ l') = repository_ (j_ l).
Proof.
  intros Hr. unfold on_record in Hr. apply need_bind_Ok in Hr as [_ Hr]. cbv zeta in Hr.
  set (l0 := if phase l =? 0 then _ else l) in *. assert (j_ l0 = j_ l) as E0 by (unfold l0; by destruct (phase l =? 0)).
  apply bind_Ok in Hr as (l1 & Hl1 & Hr). apply need_bind_Ok in Hr as [_ Hr]. apply Ok_inj in Hr as <-. cbn [j_ loop_at].
  rewrite <- E0. destruct (_ && _) in Hl1; [|destruct (_ && _) in Hl1].
  - repeat apply need_bind_Ok in Hl1 as [_ Hl1]. by apply Ok_inj in Hl1 as <-.
  - apply bind_Ok in Hl1 as (? & _ & Hl1). by apply Ok_inj in Hl1 as <-.
  - repeat apply need_bind_Ok in Hl1 as [_ Hl1]. apply Ok_inj in Hl1 as <-. cbn [j_ repository_]. by rewrite E0.
Qed.

Lemma replay_step_repository f l l' : replay_step f l = Ok (Some l') → repository_ (j_ l') = repository_ (j_ l).
Proof.
  intros Hs. unfold replay_step in Hs. cbv zeta in Hs. destruct (_ =? 0).
  - apply need_bind_Ok in Hs as [_ Hs]. destruct (_ <? header); [done|]. apply bind_Ok in Hs as (h & _ & Hs).
    apply need_bind_Ok in Hs as [_ Hs]. by injection Hs as <-.
  - apply bind_Ok in Hs as (p & _ & Hs). destruct (all_zero p).
    + apply need_bind_Ok in Hs as [_ Hs]. apply bind_Ok in Hs as (pad & _ & Hs). apply need_bind_Ok in Hs as [_ Hs].
      by injection Hs as <-.
    + apply bind_Ok in Hs as ([r|] & _ & Hs); [|done]. destruct (_ && _).
      * apply need_bind_Ok in Hs as [_ Hs]. by injection Hs as <-.
      * apply bind_Ok in Hs as (l2 & Hl2%on_record_repository & Hs). by injection Hs as <-.
Qed.

Lemma replay_repository fuel f l l' : replay fuel f l = Ok l' → repository_ (j_ l') = repository_ (j_ l).
Proof.
  revert l. induction fuel as [|fuel IH]; intros l Hr; cbn [replay] in Hr; destruct (_ <? _);
    [done|by injection Hr as <-| |by injection Hr as <-].
  apply bind_Ok in Hr as ([l1|] & Hs & Hr); [|by injection Hr as <-].
  rewrite (IH _ Hr). by eapply replay_step_repository.
Qed.

Lemma open_repository f repo c j : open f repo c = Ok j → repository_ j = repo.
Proof.
  rewrite open_start. intros Ho. apply bind_Ok in Ho as (l0 & Hs & Ho). apply bind_Ok in Ho as (l & Hr & Ho).
  apply Ok_inj in Ho as <-. cbn [set_tail repository_]. rewrite (replay_repository _ _ _ _ Hr).
  unfold start in Hs. apply need_bind_Ok in Hs as [_ Hs]. apply bind_Ok in Hs as (j0 & Hj & Hs).
  apply bind_Ok in Hs as (u & _ & Hs). apply Ok_inj in Hs as <-. cbn [j_].
  destruct (c_offset c =? 0); [by apply Ok_inj in Hj as <-|]. unfold restore_checkpoint in Hj.
  apply need_bind_Ok in Hj as [_ Hj]. apply need_bind_Ok in Hj as [_ Hj]. apply bind_Ok in Hj as (h & _ & Hj).
  apply need_bind_Ok in Hj as [_ Hj]. apply bind_Ok in Hj as ([r|] & _ & Hj); [|done].
  repeat apply need_bind_Ok in Hj as [_ Hj]. apply bind_Ok in Hj as ([a o] & _ & Hj).
  apply bind_Ok in Hj as ([a' o'] & _ & Hj). apply need_bind_Ok in Hj as [_ Hj]. by apply Ok_inj in Hj as <-.
Qed.

(** ** The invariant and the anchors *)

Lemma tolerated_beyond f g l : beyond f g → base ≤ at_ l → tolerated f l → tolerated g l.
Proof.
  intros Hfg Ha Ht fuel Hen. unfold enough in *. rewrite <- (proj1 Hfg) in Hen.
  destruct (Ht fuel Hen) as (l' & Hr & Hj). exists l'. by rewrite <- (replay_beyond _ f g).
Qed.

Lemma units_beyond f g l b l' : beyond f g → base ≤ len f → units f l b l' → units g l b l'.
Proof.
  intros Hfg Hb Hu. revert g Hfg. induction Hu as [f l Hl|f l b l1 bs l' Hu Hs IH]; intros g Hfg.
  { constructor. by rewrite <- (proj1 Hfg). }
  assert (nbase ≤ length f)%nat as Hn by (pose proof nbase_base; unfold len in Hb; lia).
  destruct Hu as [Hstart Hend Hne Hwhole Htorn].
  econstructor; [|apply IH; [rewrite len_app; pose proof (len_nonneg b); lia|by apply beyond_app]].
  split; [by rewrite <- (proj1 Hfg)|by rewrite <- (proj1 Hfg)|done| |].
  - intros y. rewrite <- (replay_step_beyond (f ++ b ++ y)); [done|by apply beyond_app|lia].
  - intros k Hk. eapply tolerated_beyond; [by apply beyond_app|lia|by apply Htorn].
Qed.

Lemma holds_beyond f g a b : beyond f g → base ≤ a → holds f a b → holds g a b.
Proof.
  intros Hfg Ha Hh. pose proof (holds_read f a b _ Hh eq_refl) as Hr. destruct Hh as (H0' & Hl & Hs).
  rewrite (read_bytes_beyond f g) in Hr by done. rewrite (proj1 Hfg) in Hl. split_and!; [done..|].
  unfold read_bytes in Hr. rewrite (proj2 (Z.leb_le _ _)) in Hr by done. apply Ok_inj in Hr.
  unfold len in Hr. by rewrite Nat2Z.id in Hr.
Qed.

Lemma logged_beyond repo c f g j l : beyond f g → base ≤ len f → logged repo c f j l → logged repo c g j l.
Proof.
  intros Hfg Hb [(f0 & l0 & b & -> & Hu & Hst) Hp Hj He].
  assert (base ≤ at_ l0) as Hat by (apply (start_at ((f0 ++ b) ++ []) repo c), Hst).
  pose proof (proj1 (units_end _ _ _ _ Hu)) as Hlen.
  assert (nbase ≤ length f0)%nat as Hn by (pose proof nbase_base; unfold len in Hlen; lia).
  assert (∃ g0, g = g0 ++ b ∧ beyond f0 g0) as (g0 & -> & Hfg0).
  { destruct Hfg as [Hl Hd]. unfold len in Hl. rewrite length_app in Hl. exists (take (length f0) g).
    assert (drop (length f0) g = b) as Hb'.
    { replace (length f0) with (nbase + (length f0 - nbase))%nat by lia.
      rewrite <- drop_drop, <- Hd, drop_app_le by lia. apply drop_app_length'. rewrite length_drop. lia. }
    split; [rewrite <- Hb' at 1; by rewrite take_drop|]. split; [unfold len; rewrite length_take; lia|].
    rewrite skipn_firstn_comm, <- Hd, drop_app_le by lia. symmetry. apply take_app_length'. rewrite length_drop. lia. }
  split; [|done|done|by rewrite He, (proj1 Hfg)].
  exists g0, l0, b. split_and!; [done|by apply (units_beyond f0 g0); [|lia|]|].
  intros y. rewrite <- (start_beyond ((f0 ++ b) ++ y)); [done|]. apply beyond_app; [rewrite length_app; lia|done].
Qed.

Lemma stable_beyond c f g j l : beyond f g → stable c f j l → stable c g j l.
Proof.
  intros Hfg [Hw Hlg Ho Hr Hs]. assert (base ≤ len f) as Hb by (rewrite <- (lg_end _ _ _ _ _ Hlg); apply Hw).
  split; [done|by eapply logged_beyond| |done|].
  - intros id loc Hl. destruct (Ho id loc Hl) as (v & s & Hh & Hrest). exists v, s. cbv zeta.
    split; [eapply holds_beyond; [done| |done]; apply Hrest|done].
  - intros Hne. eapply holds_beyond; [done| |by apply Hs]. apply segment_above, Hw.
Qed.

(** The log of a journal with other anchors in front. *)
Definition relabel (h f : Bytes) : Bytes := h ++ drop nbase f.

Lemma relabel_beyond h f : length h = nbase → (nbase ≤ length f)%nat → beyond f (relabel h f).
Proof.
  intros Hh Hf. unfold relabel. split; [unfold len; rewrite length_app, length_drop; lia|].
  rewrite <- Hh, drop_app_length. by rewrite Hh.
Qed.

Lemma beyond_relabel f g : beyond f g → g = relabel (take nbase g) f.
Proof. intros [_ Hd]. unfold relabel. by rewrite Hd, take_drop. Qed.

Lemma abs_beyond f g j : objects_ok f j → beyond f g → abs g j = abs f j.
Proof.
  intros Ho Hfg. apply kv_eq; [by rewrite !abs_seq|by rewrite !abs_roots|]. intros id. rewrite !abs_object. apply (f_equal ok_value).
  unfold read_object. destruct (objects_ j !! id) as [loc|] eqn:E; [|done].
  destruct (Ho id loc E) as (v & s & _ & _ & _ & _ & _ & _ & Hfit).
  by rewrite (read_record_beyond f g) by (done || apply Hfit).
Qed.

(** A live journal stays one when other anchors are put in front of its log. *)
Lemma inv_beyond c w l f G D script :
  inv c w l f → beyond (file (dev w)) G → beyond (durable (dev w)) D → take nbase D = take nbase G →
  ∃ f', inv c (mkWorld (mkDevice G D script) (jnl w)) l f' ∧ abs f' (jnl w) = abs f (jnl w).
Proof.
  intros Hi HG HD Ht. pose proof (inv_stable _ _ _ _ Hi) as Hst.
  pose proof (wf_end _ (st_wf _ _ _ _ Hst)) as Hend. pose proof (inv_file _ _ _ _ Hi) as Hf.
  set (e := Z.to_nat (end_ (jnl w))) in *. assert (nbase ≤ e)%nat as He by (pose proof nbase_base; lia).
  assert (beyond f (take e G)) as Hfg.
  { rewrite Hf. destruct HG as [Hl Hd]. unfold len in Hl. split; [unfold len; rewrite !length_take; lia|].
    by rewrite !skipn_firstn_comm, Hd. }
  exists (take e G). split; [|eapply abs_beyond; [apply Hst|done]].
  apply stable_inv; cbn [jnl dev file durable]; [by eapply stable_beyond|apply Hi|done| |..].
  - intros Hl%(inv_tail _ _ _ _ Hi). rewrite take_ge; [done|].
    rewrite Hl in Hf at 1. apply (f_equal length) in Hf. rewrite length_take in Hf.
    destruct HG as [HG _]. unfold len in HG. lia.
  - destruct (inv_reopen _ _ _ _ Hi) as [r Hr]. exists r. by rewrite <- (open_beyond _ _ _ _ HG), <- (proj1 HG).
  - destruct (inv_durable _ _ _ _ Hi) as [r Hr]. exists r. by rewrite <- (open_beyond _ _ _ _ HD), <- (proj1 HD).
  - destruct (inv_synced _ _ _ _ Hi) as [y Hy]. exists y.
    rewrite (beyond_relabel _ _ HD), (beyond_relabel _ _ Hfg), Ht, Hy. unfold relabel.
    rewrite take_take, Nat.min_l by done. rewrite drop_app_le; [by rewrite app_assoc|].
    destruct Hfg as [Hfl _]. pose proof (lg_end _ _ _ _ _ (st_logged _ _ _ _ Hst)) as Hle.
    pose proof nbase_base. unfold len in Hle. lia.
Qed.

(** A live journal whose file has been synced. *)
Lemma inv_sync c w l f script :
  inv c w l f → inv c (mkWorld (mkDevice (file (dev w)) (file (dev w)) script) (jnl w)) l f.
Proof.
  intros Hi. apply stable_inv; cbn [jnl dev file durable]; [by apply inv_stable|apply Hi|apply Hi|apply Hi|apply Hi..|].
  by apply (inv_prefix c w l).
Qed.

Lemma reopens_to_beyond c repo F G s : beyond F G → reopens_to c repo F s → reopens_to c repo G s.
Proof.
  intros HFG Hre script. destruct (Hre script) as (j & l & f & Ho & Hi & Hs).
  destruct (inv_beyond c _ l f G G script Hi) as (f' & Hi' & Ha); [done..|].
  exists j, l, f'. split_and!; [by rewrite <- (open_beyond F G)|done|by rewrite <- Hs].
Qed.

(** ** What the operations leave in front of the log *)

(** The first 64 KiB of the file and of its durable contents are [h]. *)
Definition fronted (h : Bytes) (w : world) : Prop :=
  take nbase (file (dev w)) = h ∧ take nbase (durable (dev w)) = h.

Lemma pwrite_front h f at_ b : length h = nbase → base ≤ at_ → take nbase f = h → take nbase (pwrite f at_ b) = h.
Proof.
  intros Hh Ha Hf. unfold pwrite. case_bool_decide; [done|]. pose proof nbase_base.
  assert (nbase ≤ length f)%nat as Hl by (rewrite <- Hh, <- Hf, length_take; lia).
  rewrite take_app_le by (rewrite length_take, length_app, length_zeros; lia).
  rewrite take_take, Nat.min_l, take_app_le by lia. done.
Qed.

Section Front.
Context (h : Bytes) (Hh : length h = nbase).

(** A computation that keeps the front, from a journal [j]. *)
Abbreviation keeps j m := (triple (λ w, jnl w = j ∧ fronted h w) m (λ _ w, jnl w = j ∧ fronted h w) (λ w, fronted h w)).

Lemma write_keeps j at_ b : base ≤ at_ → keeps j (on_device (write_bytes at_ b)).
Proof.
  intros Ha w [Hj [Hf Hd]]. unfold on_device, write_bytes. destruct (next_outcome (dev w)) as [|k].
  - split; [exact Hj|]. split; [|exact Hd]. cbn [dev file with_file]. apply pwrite_front; assumption.
  - split; [|exact Hd]. cbn [dev file with_file]. apply pwrite_front; assumption.
Qed.

Lemma sync_keeps j : keeps j (on_device sync_file).
Proof.
  intros w [Hj [Hf Hd]]. unfold on_device, sync_file.
  destruct (next_outcome (dev w)) as [|k]; [split; [exact Hj|]|]; (split; [exact Hf|]); [exact Hf|exact Hd].
Qed.

Lemma drop_tail_keeps j msg : base ≤ end_ j → keeps j (drop_tail msg).
Proof.
  intros He. unfold drop_tail. eapply triple_bind.
  { apply (triple_gets _ _ (λ j' w, j' = j ∧ jnl w = j ∧ fronted h w)). intros w Hw. split; [apply Hw|exact Hw]. }
  intros j' w [-> Hw]. revert w Hw. destruct (tail_ j); [|apply triple_ret; intros w Hw; exact Hw].
  eapply (triple_bind _ _ _ (λ _ w, jnl w = j ∧ fronted h w)); [|intros []; apply sync_keeps].
  intros w [Hj [Hf Hd]]. unfold on_device, truncate. destruct (next_outcome (dev w)) as [|k]; [|split; [exact Hf|exact Hd]].
  split; [exact Hj|]. split; [|exact Hd]. cbn [file with_file dev]. rewrite take_take, Nat.min_l; [exact Hf|].
  pose proof nbase_base. lia.
Qed.

Lemma start_segment_keeps j new_segment at_ : base ≤ end_ j → base ≤ at_ → keeps j (start_segment new_segment at_).
Proof.
  intros He Ha. unfold start_segment. destruct new_segment; [|apply triple_ret; intros w Hw; exact Hw]. eapply triple_bind.
  { apply (triple_gets _ _ (λ j' w, j' = j ∧ jnl w = j ∧ fronted h w)). intros w Hw. split; [apply Hw|exact Hw]. }
  intros j' w [-> Hw]. revert w Hw. eapply (triple_bind _ _ _ (λ _ w, jnl w = j ∧ fronted h w)); [|intros []; apply write_keeps; assumption].
  destruct (_ <? _); [apply write_keeps; assumption|apply triple_ret; intros w Hw; exact Hw].
Qed.

Lemma poison_keeps {A} P (m : ST world A) Q : triple P m Q (fronted h) → triple P (poison_on_error m) Q (fronted h).
Proof.
  intros Hm w Hw. specialize (Hm w Hw). unfold poison_on_error. destruct (m w) as [w' [a|msg|]]; exact Hm.
Qed.

Lemma publish_keeps j new_segment at_ begin_ batch commit next : base ≤ end_ j → base ≤ at_ → base ≤ begin_ →
  triple (λ w, jnl w = j ∧ fronted h w) (publish new_segment at_ begin_ batch commit next) (λ _ w, fronted h w) (fronted h).
Proof.
  intros He Ha Hb. unfold publish. apply poison_keeps. pose proof (len_nonneg batch).
  eapply triple_bind; [apply drop_tail_keeps; assumption|intros []].
  eapply triple_bind; [apply start_segment_keeps; assumption|intros []].
  eapply triple_bind; [apply write_keeps; assumption|intros []].
  eapply triple_bind; [apply sync_keeps|intros []].
  eapply triple_bind; [apply write_keeps; lia|intros []].
  eapply triple_bind; [apply sync_keeps|intros []]. intros w [_ Hw]. exact Hw.
Qed.

Lemma keeps_run {A} P (m : ST world A) w : triple P m (λ _ w, fronted h w) (fronted h) → P w → fronted h (m w).1.
Proof. intros Hm Hw. specialize (Hm w Hw). destruct (m w) as [w' [a|msg|]]; [exact Hm|exact Hm|destruct Hm]. Qed.

Lemma guard_front {A B} (r : result A) (f : A → ST world B) w :
  fronted h w → (∀ a, fronted h (f a w).1) → fronted h ((lift r ≫= f) w).1.
Proof. intros Hw Hf. unfold mbind, st_bind, lift. destruct r; [apply Hf|exact Hw..]. Qed.

Lemma placement_base j required new_segment at0 : base ≤ end_ j → placement j required = (new_segment, at0) →
  base ≤ at0 ∧ base ≤ at0 + (if new_segment then header else 0).
Proof.
  clear Hh h. intros He. unfold placement. intros [= <- <-]. pose proof (Z.mod_pos_bound (end_ j - base) span ltac:(done)).
  unfold header. destruct (_ && _), (_ || _); lia.
Qed.

Lemma put_front key value w : base ≤ end_ (jnl w) → fronted h w → fronted h (put key value w).1.
Proof.
  intros He Hw. unfold put. rewrite (st_bind_run _ _ w w (jnl w) eq_refl).
  do 4 (apply guard_front; [exact Hw|intros []]). cbv zeta. destruct (placement _ _) as [ns at0] eqn:Ep.
  destruct (placement_base _ _ _ _ He Ep). apply guard_front; [exact Hw|intros []].
  eapply keeps_run; [apply (publish_keeps (jnl w)); assumption|split; [reflexivity|exact Hw]].
Qed.

Lemma transact_front expected ms w : base ≤ end_ (jnl w) → fronted h w → fronted h (transact expected ms w).1.
Proof.
  intros He Hw. unfold transact. rewrite (st_bind_run _ _ w w w eq_refl). cbv zeta.
  do 4 (apply guard_front; [exact Hw|intros []]). apply guard_front; [exact Hw|intros p].
  destruct (data_records _ _ _ _) as [data locations]. apply guard_front; [exact Hw|intros []].
  destruct (placement _ _) as [ns at0] eqn:Ep. destruct (placement_base _ _ _ _ He Ep).
  apply guard_front; [exact Hw|intros []].
  eapply keeps_run; [apply (publish_keeps (jnl w)); assumption|split; [reflexivity|exact Hw]].
Qed.

Lemma checkpoint_front w : base ≤ end_ (jnl w) → fronted h w → fronted h (checkpoint w).1.
Proof.
  intros He Hw. unfold checkpoint. rewrite (st_bind_run _ _ w w (jnl w) eq_refl).
  do 2 (apply guard_front; [exact Hw|intros []]). cbv zeta. destruct (placement _ _) as [ns at0] eqn:Ep.
  destruct (placement_base _ _ _ _ He Ep) as [Ha Hb]. apply guard_front; [exact Hw|intros []].
  apply (keeps_run (λ w', jnl w' = jnl w ∧ fronted h w')); [|split; [reflexivity|exact Hw]]. apply poison_keeps.
  eapply triple_bind; [apply drop_tail_keeps; assumption|intros []].
  eapply triple_bind; [apply start_segment_keeps; assumption|intros []].
  eapply triple_bind; [apply write_keeps; destruct ns; lia|intros []].
  eapply triple_bind; [apply sync_keeps|intros []]. intros w' [_ Hw']. exact Hw'.
Qed.
End Front.
End Header.
