(* ===== verification/JournalLive.v ===== *)
(** * Commits succeed on a reliable device

    A batch [transact] may accept commits when no device operation fails: the guards of
    the code refuse nothing else. *)

From S2P Require Import Prelude Codec Treap Journal JournalRecord JournalReplay JournalCommit JournalTx.
From S2P Require Import JournalState JournalOps JournalCheckpoint JournalTransact JournalStore.
Import Journal.
Local Open Scope Z_scope.

(** A device on which every operation to come completes. *)
Definition reliable (w : world) : Prop := script (dev w) = [].

(** A stateful action that returns on a reliable device and leaves it reliable. *)
Definition returns {A} (m : ST world A) : Prop :=
  ∀ w, reliable w → ∃ w' a, m w = (w', Ok a) ∧ reliable w' ∧ jnl w' = jnl w.

Lemma returns_bind {A B} (m : ST world A) (f : A → ST world B) :
  returns m → (∀ a, returns (f a)) → returns (m ≫= f).
Proof.
  intros Hm Hf w Hw. destruct (Hm w Hw) as (w1 & a & E1 & Hw1 & Hj1).
  destruct (Hf a w1 Hw1) as (w2 & b & E2 & Hw2 & Hj2). exists w2, b.
  unfold mbind, st_bind. rewrite E1, E2. split_and!; [done|done|congruence].
Qed.
Lemma returns_ret {A} (a : A) : returns (mret a).
Proof. intros w Hw. by exists w, a. Qed.
Lemma returns_gets {A} (f : world → A) : returns (gets f).
Proof. intros w Hw. by exists w, (f w). Qed.
Lemma returns_write at_ b : returns (on_device (write_bytes at_ b)).
Proof.
  intros [[f d s] j] Hw. unfold reliable in Hw. cbn in Hw. subst s. by eexists _, _.
Qed.
Lemma returns_truncate size msg : returns (on_device (truncate size msg)).
Proof. intros [[f d s] j] Hw. unfold reliable in Hw. cbn in Hw. subst s. by eexists _, _. Qed.
Lemma returns_sync : returns (on_device sync_file).
Proof. intros [[f d s] j] Hw. unfold reliable in Hw. cbn in Hw. subst s. by eexists _, _. Qed.
#[local] Hint Resolve returns_ret returns_gets returns_write returns_truncate returns_sync : forkfs.

Lemma returns_drop_tail msg : returns (drop_tail msg).
Proof.
  apply returns_bind; [auto with forkfs|]. intros j. destruct (tail_ j); [|auto with forkfs].
  apply returns_bind; auto with forkfs.
Qed.
Lemma returns_start_segment new_segment at_ : returns (start_segment new_segment at_).
Proof.
  unfold start_segment. destruct new_segment; [|auto with forkfs].
  apply returns_bind; [auto with forkfs|]. intros j.
  apply returns_bind; [destruct (_ <? _); auto with forkfs|auto with forkfs].
Qed.
#[local] Hint Resolve returns_drop_tail returns_start_segment : forkfs.

Lemma publish_returns new_segment at_ b batch commit next w :
  reliable w → ∃ w', publish new_segment at_ b batch commit next w = (w', Ok tt).
Proof.
  intros Hw. unfold publish, poison_on_error.
  assert (∀ (m : ST world unit) k, returns m →
    (∀ w1, reliable w1 → ∃ w', k tt w1 = (w', Ok tt)) →
    ∀ w1, reliable w1 → ∃ w' : world, (m ≫= k) w1 = (w', Ok tt)) as Hstep.
  { intros m k Hm Hk w1 Hw1. destruct (Hm w1 Hw1) as (w2 & [] & E & Hw2 & _).
    unfold mbind, st_bind. rewrite E. by apply Hk. }
  assert (∃ w', (drop_tail "truncate uncommitted tail";;
    start_segment new_segment at_;; on_device (write_bytes b batch);; on_device sync_file;;
    on_device (write_bytes (b + len batch) commit);; on_device sync_file;;
    modify (λ w, mkWorld (dev w) (next (jnl w)))) w = (w', Ok tt)) as [w' ->]; [|by exists w'].
  revert w Hw. do 6 (apply Hstep; [auto with forkfs|]). intros w Hw. by eexists.
Qed.

(** ** The size of a batch *)

Definition values_size (l : list (Id * Bytes)) : Z := foldr (λ e n, len e.2 + n) 0 l.

Lemma values_size_perm l l' : l ≡ₚ l' → values_size l = values_size l'.
Proof. induction 1; cbn [values_size foldr] in *; unfold values_size in *; simpl in *; lia. Qed.

Lemma values_size_insert (m : gmap Id Bytes) id v :
  m !! id = None → values_size (in_order (<[id := v]> m)) = len v + values_size (in_order m).
Proof.
  intros Hm. rewrite (values_size_perm _ ((id, v) :: in_order m)); [done|].
  by rewrite !in_order_perm, map_to_list_insert.
Qed.

Section Live.
Context `{DigestOk}.

Lemma data_records_length seq vs : ∀ B L data locs,
  Forall sound_value vs → data_records seq vs B L = (data, locs) →
  len data ≤ len B + values_size vs + 91 * Z.of_nat (length vs).
Proof.
  induction vs as [|[id v] vs IH]; intros B L data locs Hs Hd.
  { injection Hd as <- <-. cbn [values_size foldr length]. lia. }
  cbn [data_records] in Hd. apply Forall_cons in Hs as [[Hid _] Hs]. cbn [fst] in Hid.
  specialize (IH _ _ _ _ Hs Hd). rewrite len_app in IH.
  rewrite length_record, length_data_payload in IH by (rewrite Hid; apply length_object_hash).
  cbn [values_size foldr length snd]. unfold values_size in IH. unfold record_length in IH.
  Z.to_euclidean_division_equations. lia.
Qed.

(** The bytes of the values of a batch. *)
Definition payload_bytes (ms : list Mutation) : Z :=
  foldr (λ m n, match m_value m with Some v => len v + n | None => n end) 0 ms.

(** A plan whose total is the size of its values. *)
Definition counted (p : plan) : Prop := p_total p = values_size (in_order (p_values p)).

Lemma plan_mutation_accepts (f : Bytes) (j : journal) (done_ : list Mutation) (p : plan)
    (m : Mutation) (rest : list Mutation) :
  planned j done_ p → counted p → (∀ id, is_Some (objects_ j !! id) → is_ok (read_object f j id) = true) →
  mutation_ok j m → m_key m ∉ m_key <$> done_ →
  p_total p + payload_bytes (m :: rest) ≤ 1024 * 1024 → 0 ≤ payload_bytes rest →
  ∃ p', plan_mutation f j p m = Ok p' ∧ counted p' ∧
    p_total p' + payload_bytes rest ≤ 1024 * 1024.
Proof.
  intros Hp Hct Hread [Hk Hm] Hfresh Hsz Hrest. unfold plan_mutation.
  rewrite need_true_bind.
  2:{ rewrite andb_true_iff, bool_decide_eq_true, Z.leb_le. unfold len. destruct (m_key m); simpl in *; [lia|].
      split; [done|lia]. }
  rewrite need_true_bind.
  2:{ apply bool_decide_eq_true. by rewrite (pl_changes _ _ _ Hp), targets_lookup_None. }
  cbn [payload_bytes foldr] in Hsz. fold (payload_bytes rest) in Hsz.
  destruct (m_reference m) as [id|], (m_value m) as [v|]; try done; cbn [negb andb].
  - rewrite need_true_bind by done. rewrite need_true_bind by (by apply bool_decide_eq_true).
    specialize (Hread id Hm). destruct (read_object f j id); [|done..].
    eexists. split; [reflexivity|]. by split.
  - rewrite need_true_bind by done. rewrite need_true_bind by (by apply Z.leb_le). cbv zeta.
    pose proof (len_nonneg v).
    destruct (p_values p !! object_hash v) as [v'|] eqn:E; rewrite need_true_bind; cbn [p_total].
    1,3: eexists; split; [reflexivity|]; split; cbn [p_total p_values].
    + done.
    + lia.
    + unfold counted in *. cbn [p_total p_values]. rewrite values_size_insert by done. lia.
    + lia.
    + apply Z.leb_le. lia.
    + apply Z.leb_le. lia.
  - rewrite need_true_bind by done. rewrite need_true_bind by (by apply bool_decide_eq_true).
    eexists. split; [reflexivity|]. by split.
Qed.

Lemma payload_bytes_nonneg ms : 0 ≤ payload_bytes ms.
Proof.
  induction ms as [|m ms IH]; [done|]. cbn [payload_bytes foldr].
  fold (payload_bytes ms). destruct (m_value m) as [v|]; [pose proof (len_nonneg v)|]; lia.
Qed.

Lemma plan_mutations_accepts (f : Bytes) (j : journal) (ms : list Mutation) :
  (∀ id, is_Some (objects_ j !! id) → is_ok (read_object f j id) = true) →
  ∀ (done_ : list Mutation) (p : plan),
  planned j done_ p → counted p → Forall (mutation_ok j) ms → NoDup (m_key <$> done_ ++ ms) →
  p_total p + payload_bytes ms ≤ 1024 * 1024 →
  ∃ p', plan_mutations f j p ms = Ok p' ∧ counted p' ∧ p_total p' ≤ 1024 * 1024.
Proof.
  intros Hread. induction ms as [|m ms IH]; intros done_ p Hp Hc Hok Hnd Hsz.
  { exists p. cbn in Hsz |- *. split_and!; [done..|lia]. }
  apply Forall_cons in Hok as [Hm Hok].
  pose proof (payload_bytes_nonneg ms).
  destruct (plan_mutation_accepts f j done_ p m ms) as (p1 & Hp1 & Hc1 & Hsz1); try done.
  { rewrite fmap_app, fmap_cons in Hnd. apply NoDup_app in Hnd as (_ & Hx & _).
    intros Hin. apply (Hx _ Hin). set_solver. }
  pose proof (plan_mutation_step _ _ _ _ _ _ Hp Hp1) as Hp'.
  destruct (IH (done_ ++ [m]) p1) as (p' & Hr & Hrest); try done.
  { by rewrite <- app_assoc. }
  exists p'. cbn [plan_mutations]. rewrite Hp1. by cbn [mbind result_bind].
Qed.

(** A batch the code accepts. *)
Record acceptable (j : journal) (expected : Z) (ms : list Mutation) : Prop := {
  ac_sequence : expected = seq_ j;
  ac_room : seq_ j ≠ UINT64_MAX;
  ac_count : (0 < length ms ≤ 64)%nat;
  ac_nodup : NoDup (m_key <$> ms);
  ac_ok : Forall (mutation_ok j) ms;
  ac_bytes : payload_bytes ms ≤ 1024 * 1024;
  ac_offset : end_ j ≤ OFF_MAX - 2 * span;
}.

Lemma placement_bound j required new_segment at0 :
  placement j required = (new_segment, at0) → at0 ≤ end_ j + span.
Proof.
  unfold placement. cbv zeta. pose proof (Z.mod_pos_bound (end_ j - base) span ltac:(done)).
  intros [= <- <-]. destruct (_ && _); unfold span in *; lia.
Qed.

Lemma publish_plan_returns (j : journal) (ms : list Mutation) (p : plan) (data : Bytes)
    (locs : gmap Id Location) (expected : Z) (w : world) :
  jwf j → acceptable j expected ms → planned j ms p → counted p → p_total p ≤ 1024 * 1024 →
  data_records (seq_ j + 1) (in_order (p_values p)) [] ∅ = (data, locs) → reliable w →
  ∃ w', publish_plan j p data locs expected w = (w', Ok tt).
Proof.
  intros Hwf Hac Hp Hct Hsz Hdata Hrel. pose proof (wf_seq _ Hwf) as Hsr.
  pose proof (ac_room _ _ _ Hac) as Hroom. pose proof (ac_count _ _ _ Hac) as Hn.
  assert (Forall sound_value (in_order (p_values p))) as Hsound.
  { apply Forall_forall. intros [id v] Hin%elem_of_in_order. by apply (pl_sound _ _ _ Hp). }
  pose proof (data_records_length _ _ _ _ _ _ Hsound Hdata) as Hlen.
  destruct (tx_located _ _ _ _ Hsound Hdata) as [_ Hdom].
  assert (∀ id, is_Some (locs !! id) ↔ is_Some (p_values p !! id)) as Hlocs.
  { intros id. rewrite Hdom, (planned_keys _ _ _ id Hp), (pl_values _ _ _ Hp). done. }
  pose proof (planned_entries j ms p locs _ Hp Hwf Hlocs eq_refl) as Hent.
  pose proof (prepare_length j expected (p_changes p) Hwf
    ltac:(eapply Forall_impl; [exact Hent|]; intros [k v] (? & ? & _); simpl in *;
      split; [unfold len; lia|done])) as Hpl.
  rewrite (pl_changes _ _ _ Hp) in Hpl at 1. rewrite size_targets in Hpl by apply Hp.
  specialize (Hpl ltac:(lia)). pose proof (stored_by_size _ _ _ Hp) as Hvals.
  rewrite length_in_order, len_nil in Hlen. unfold counted in Hct.
  unfold publish_plan. cbv zeta. rewrite (st_bind_run _ _ w w tt).
  2:{ unfold st_need, lift. rewrite len_app, length_record by done. rewrite (proj2 (Z.leb_le _ _)); [done|].
      unfold record_length. Z.to_euclidean_division_equations. lia. }
  destruct (placement _ _) as [ns at0] eqn:Epl. apply placement_bound in Epl.
  pose proof (ac_offset _ _ _ Hac).
  rewrite (st_bind_run _ _ w w tt).
  2:{ unfold st_need, lift. rewrite (proj2 (Z.leb_le _ _)); [done|]. unfold span in *. lia. }
  by apply publish_returns.
Qed.

Lemma transact_commits c w l f expected ms :
  inv c w l f → acceptable (jnl w) expected ms → reliable w →
  ∃ w', transact expected ms w = (w', Ok tt).
Proof.
  intros Hi Hac Hrel.
  assert (∀ id, is_Some (objects_ (jnl w) !! id) →
    is_ok (read_object (file (dev w)) (jnl w) id) = true) as Hread.
  { intros id Hid. destruct (inv_read _ _ _ _ id Hi Hid) as (v & -> & _). done. }
  destruct (plan_mutations_accepts (file (dev w)) (jnl w) ms Hread [] (mkPlan ∅ ∅ 0 false))
    as (p & Hplan & Hct & Hsz); [apply planned_nil|done|apply Hac|apply Hac|apply Hac|].
  pose proof (plan_mutations_planned _ _ _ [] _ _ (planned_nil (jnl w)) Hplan) as Hp.
  cbn [app] in Hp.
  destruct (data_records (seq_ (jnl w) + 1) (in_order (p_values p)) [] ∅) as [data locs] eqn:Edata.
  rewrite (transact_plan expected ms w p data locs); try done; [|apply Hi|apply Hac..].
  by apply (publish_plan_returns (jnl w) ms p); [apply Hi|..].
Qed.
End Live.
