(* ===== verification/MetadataTree.v ===== *)
(** * The copy-on-write metadata treap ([daemon/metadata_tree.cpp])

    A persistent ordered index from metadata keys to object ids, stored as
    content-addressed nodes.  [Module MetadataTree] translates the class: its
    mutable caches, the node codec, the iterative [set] and [merge], the pruned
    prefix and page walks, the validating [entries], the memoised [height] and
    the publication plan of [apply].  The object store behind it is the
    interface [ObjectStore], implemented by both storage backends. *)

From S2P Require Import Prelude Codec.
Local Open Scope Z_scope.

(** What the tree asks of a journal: [get_object], and the finite set of ids
    for which it can answer. *)
Class ObjectStore (J : Type) := {
  get_object : J → Id → result Bytes;
  object_ids : J → gset Id;
}.
Class ObjectStoreOk (J : Type) `{ObjectStore J} : Prop := {
  get_object_ids : ∀ j id b, get_object j id = Ok b → id ∈ object_ids j;
  get_object_total : ∀ j id, get_object j id ≠ OutOfFuel;
}.

Module MetadataTree.

Record Node := mkNode { key : Bytes; value : Id; left : Id; right : Id }.

#[global] Instance Node_eq_dec : EqDecision Node.
Proof. solve_decision. Defined.

(** The members [root_], [cache_], [heights_] and [pending_]. *)
Record editor := mkEditor {
  root_ : Id;
  cache_ : gmap Id Node;
  heights_ : gmap Id Z;
  pending_ : gmap Id Bytes;
}.

(** [MetadataTree(const Journal& store,Id root={})] *)
Definition fresh (root : Id) : editor := mkEditor root ∅ ∅ ∅.

Definition set_cache (c : gmap Id Node) (e : editor) : editor :=
  mkEditor (root_ e) c (heights_ e) (pending_ e).
Definition set_heights (h : gmap Id Z) (e : editor) : editor :=
  mkEditor (root_ e) (cache_ e) h (pending_ e).
Definition set_root (r : Id) (e : editor) : editor :=
  mkEditor r (cache_ e) (heights_ e) (pending_ e).

Definition node_magic : Bytes := bs "FFTRNO01".
Definition tree_magic : Bytes := bs "FFTREE01".
Definition key_prefix : Bytes := x00 :: bs "forkfs/".
Definition namespace_root : Bytes := x00 :: bs "forkfs/root".

(** [bool valid_key(const std::string& key)] *)
Definition valid_key (k : Bytes) : bool :=
  (8 <=? len k) && (len k <=? 1024) && starts_with key_prefix k.

(** The bytes written by [make]. *)
Definition encode_node (n : Node) : Bytes :=
  let b := zeros (108 + length (key n)) in
  let b := memcpy b 0 node_magic in
  let b := memcpy b 8 (store (len (key n)) 4) in
  let b := memcpy b 12 (value n) in
  let b := memcpy b 44 (left n) in
  let b := memcpy b 76 (right n) in
  memcpy b 108 (key n).

(** The checks and field reads of [node] on a loaded payload. *)
Definition decode_node (b : Bytes) : result Node :=
  need ((108 <=? len b) && bytes_eqb (slice 0 8 b) node_magic)
    "invalid metadata tree node";;
  let n := load (drop 8 b) 4 in
  need ((8 <=? n) && (n <=? 1024) && (len b =? 108 + n))
    "invalid metadata node length";;
  let k := drop 108 b in
  need (valid_key k) "invalid metadata node key";;
  let result := mkNode k (slice 12 32 b) (slice 44 32 b) (slice 76 32 b) in
  need (bool_decide (value result ≠ zero_id)) "zero metadata value reference";;
  Ok result.

(** The exclusive upper bound of the keys with a given prefix: the last byte
    that is not 255 incremented and the rest dropped, unbounded when there is
    none.  Walks the prefix from its end, as the [for] loop does. *)
Fixpoint upper_loop (rev_prefix : Bytes) : option Bytes :=
  match rev_prefix with
  | [] => None
  | c :: rest =>
      if b2z c =? 255 then upper_loop rest
      else Some (rev (z2b (b2z c + 1) :: rest))
  end.
Definition upper_bound (prefix : Bytes) : option Bytes := upper_loop (rev prefix).

(** [!bounded || n.key<upper] *)
Definition below (k : Bytes) (upper : option Bytes) : bool :=
  match upper with None => true | Some u => lex_ltb k u end.

Record Plan := mkPlan { manifest : Bytes; objects : list Bytes }.

Section Tree.
Context `{Digest} {J : Type} `{ObjectStore J} (store_ : J).

(** [Id priority(const std::string& key)] *)
Definition priority (k : Bytes) : Id :=
  object_hash (bs "forkfs.metadata.priority.v1" ++ k).

(** [bool MetadataTree::higher(const Node& a,const Node& b)]: on keys. *)
Definition higher_key (a b : Bytes) : bool :=
  let pa := priority a in let pb := priority b in
  if bool_decide (pa = pb) then lex_ltb b a else lex_ltb pb pa.
Definition higher (a b : Node) : bool := higher_key (key a) (key b).

(** [const Node& MetadataTree::node(const Id& id) const] *)
Definition node (id : Id) : ST editor Node := λ e,
  match cache_ e !! id with
  | Some n => (e, Ok n)
  | None =>
      match get_object store_ id ≫= decode_node with
      | Ok n => (set_cache (<[id := n]> (cache_ e)) e, Ok n)
      | Err m => (e, Err m)
      | OutOfFuel => (e, OutOfFuel)
      end
  end.

(** [Id MetadataTree::make(const Node& n)] *)
Definition make (n : Node) : ST editor Id :=
  st_need (valid_key (key n) && bool_decide (value n ≠ zero_id))
    "invalid metadata node";;
  let b := encode_node n in
  let id := object_hash b in
  modify (λ e, mkEditor (root_ e) (<[id := n]> (cache_ e)) (heights_ e)
                 (match pending_ e !! id with
                  | Some _ => pending_ e
                  | None => <[id := b]> (pending_ e)
                  end));;
  mret id.

(** [unsigned MetadataTree::height(Id root,unsigned depth)]: [fuel] is
    [256-depth]. *)
Fixpoint height (fuel : nat) (root : Id) : ST editor Z :=
  if bool_decide (root = zero_id) then mret 0 else
  match fuel with
  | O => throw "metadata tree depth limit"
  | S fuel' =>
      known ← gets (λ e, heights_ e !! root);
      match known with
      | Some h =>
          st_need (h <=? Z.of_nat fuel) "metadata tree depth limit";; mret h
      | None =>
          n ← node root;
          hl ← height fuel' (left n);
          hr ← height fuel' (right n);
          let result := 1 + Z.max hl hr in
          modify (λ e, set_heights
            (match heights_ e !! root with
             | Some _ => heights_ e
             | None => <[root := result]> (heights_ e)
             end) e);;
          mret result
      end
  end.

(** The number of ids a node can be loaded from bounds the iterations of the
    loops that refuse to visit an id twice. *)
Definition loadable (e : editor) : gset Id := dom (cache_ e) ∪ object_ids store_.
Definition loop_bound (e : editor) : nat := S (size (loadable e)).

(** [Id MetadataTree::merge(Id left,Id right)]: the first loop, the path with
    its last step first. *)
Fixpoint merge_descend (fuel : nat) (l r : Id) (path : list (Node * bool))
    (visited : gset Id) : ST editor (Id * list (Node * bool)) :=
  if bool_decide (l = zero_id) then mret (r, path) else
  if bool_decide (r = zero_id) then mret (l, path) else
  match fuel with
  | O => lift OutOfFuel
  | S fuel' =>
      a ← node l;
      b ← node r;
      if higher a b then
        st_need (bool_decide (l ∉ visited)) "metadata tree cycle";;
        merge_descend fuel' (right a) r ((a, true) :: path) ({[l]} ∪ visited)
      else
        st_need (bool_decide (r ∉ visited)) "metadata tree cycle";;
        merge_descend fuel' l (left b) ((b, false) :: path) ({[r]} ∪ visited)
  end.

Definition with_left (n : Node) (l : Id) : Node := mkNode (key n) (value n) l (right n).
Definition with_right (n : Node) (r : Id) : Node := mkNode (key n) (value n) (left n) r.
Definition with_value (n : Node) (v : Id) : Node := mkNode (key n) v (left n) (right n).

(** The second loop of [merge], over the reversed path. *)
Fixpoint merge_rebuild (path : list (Node * bool)) (result : Id) : ST editor Id :=
  match path with
  | [] => mret result
  | (n, replace_right) :: rest =>
      r ← make (if replace_right : bool then with_right n result else with_left n result);
      merge_rebuild rest r
  end.

Definition merge (l r : Id) : ST editor Id :=
  e ← get_st;
  '(result, path) ← merge_descend (loop_bound e) l r [] ∅;
  merge_rebuild path result.

(** [Id MetadataTree::set(Id root,const std::string& key,const std::optional<Id>& value)]:
    the descent; [None] is the early [return root]. *)
Fixpoint set_descend (fuel : nat) (k : Bytes) (v : option Id) (current : Id)
    (path : list (Node * bool)) (visited : gset Id)
    : ST editor (option (Id * list (Node * bool))) :=
  if bool_decide (current = zero_id) then
    match v with
    | None => mret None
    | Some v' => r ← make (mkNode k v' zero_id zero_id); mret (Some (r, path))
    end
  else
  match fuel with
  | O => lift OutOfFuel
  | S fuel' =>
      st_need (bool_decide (current ∉ visited)) "metadata tree cycle";;
      n ← node current;
      if bool_decide (k = key n) then
        match v with
        | Some v' =>
            if bool_decide (value n = v') then mret None
            else r ← make (with_value n v'); mret (Some (r, path))
        | None => r ← merge (left n) (right n); mret (Some (r, path))
        end
      else
        let went_left := lex_ltb k (key n) in
        set_descend fuel' k v (if went_left then left n else right n)
          ((n, went_left) :: path) ({[current]} ∪ visited)
  end.

(** One iteration of the rebuilding loop of [set], with its rotation. *)
Definition set_rebuild_step (n : Node) (went_left : bool) (result : Id) : ST editor Id :=
  if went_left then
    let n := with_left n result in
    if bool_decide (left n = zero_id) then make n else
    top ← node (left n);
    if higher top n then
      r ← make (with_left n (right top)); make (with_right top r)
    else make n
  else
    let n := with_right n result in
    if bool_decide (right n = zero_id) then make n else
    top ← node (right n);
    if higher top n then
      r ← make (with_right n (left top)); make (with_left top r)
    else make n.

Fixpoint set_rebuild (path : list (Node * bool)) (result : Id) : ST editor Id :=
  match path with
  | [] => mret result
  | (n, went_left) :: rest =>
      r ← set_rebuild_step n went_left result; set_rebuild rest r
  end.

Definition set (root : Id) (k : Bytes) (v : option Id) : ST editor Id :=
  e ← get_st;
  found ← set_descend (loop_bound e) k v root [] ∅;
  match found with
  | None => mret root
  | Some (result, path) => set_rebuild path result
  end.

(** [std::optional<Id> MetadataTree::lookup(const std::string& key) const]:
    [fuel] is [256-depth]. *)
Fixpoint lookup_loop (fuel : nat) (k : Bytes) (current : Id) : ST editor (option Id) :=
  if bool_decide (current = zero_id) then mret None else
  match fuel with
  | O => throw "metadata tree depth limit"
  | S fuel' =>
      n ← node current;
      if bool_decide (k = key n) then mret (Some (value n))
      else lookup_loop fuel' k (if lex_ltb k (key n) then left n else right n)
  end.
Definition lookup (k : Bytes) : ST editor (option Id) :=
  r ← gets root_; lookup_loop 256 k r.

(** [std::vector<std::string> MetadataTree::keys(const std::string& prefix) const] *)
Fixpoint keys_walk (fuel : nat) (prefix : Bytes) (upper : option Bytes) (id : Id)
    (result : list Bytes) : ST editor (list Bytes) :=
  if bool_decide (id = zero_id) then mret result else
  match fuel with
  | O => throw "metadata tree depth limit"
  | S fuel' =>
      n ← node id;
      result ← (if lex_leb prefix (key n)
                then keys_walk fuel' prefix upper (left n) result else mret result);
      let result := if starts_with prefix (key n) then result ++ [key n] else result in
      if below (key n) upper then keys_walk fuel' prefix upper (right n) result
      else mret result
  end.
Definition keys (prefix : Bytes) : ST editor (list Bytes) :=
  r ← gets root_; keys_walk 256 prefix (upper_bound prefix) r [].

(** [std::vector<std::string> MetadataTree::page(...) const] *)
Fixpoint page_walk (fuel : nat) (prefix after lower : Bytes) (upper : option Bytes)
    (limit : Z) (id : Id) (result : list Bytes) : ST editor (list Bytes) :=
  if bool_decide (id = zero_id) || (len result =? limit) then mret result else
  match fuel with
  | O => throw "metadata tree depth limit"
  | S fuel' =>
      n ← node id;
      result ← (if lex_ltb lower (key n)
                then page_walk fuel' prefix after lower upper limit (left n) result
                else mret result);
      if len result =? limit then mret result else
      let result :=
        if starts_with prefix (key n) && (bool_decide (after = []) || lex_ltb after (key n))
        then result ++ [key n] else result in
      if (len result <? limit) && below (key n) upper
      then page_walk fuel' prefix after lower upper limit (right n) result
      else mret result
  end.
Definition page (prefix after : Bytes) (limit : Z) : ST editor (list Bytes) :=
  st_need ((0 <? limit) && (limit <=? 1025)
           && (bool_decide (after = []) || starts_with prefix after))
    "invalid metadata page request";;
  let lower := if bool_decide (after = []) then prefix else after in
  r ← gets root_;
  page_walk 256 prefix after lower (upper_bound prefix) limit r [].

(** [MetadataTree::Map MetadataTree::entries() const] *)
Definition bound_ok (lo hi : option Bytes) (k : Bytes) : bool :=
  match lo with None => true | Some l => lex_ltb l k end
  && match hi with None => true | Some h => lex_ltb k h end.
Definition heap_check (child : Id) (n : Node) : ST editor unit :=
  if bool_decide (child = zero_id) then mret tt else
  c ← node child; st_need (negb (higher c n)) "metadata tree heap mismatch".
Fixpoint entries_walk (fuel : nat) (id : Id) (lo hi : option Bytes)
    (result : gmap Bytes Id) (visited : gset Id)
    : ST editor (gmap Bytes Id * gset Id) :=
  if bool_decide (id = zero_id) then mret (result, visited) else
  match fuel with
  | O => throw "metadata tree cycle/depth"
  | S fuel' =>
      st_need (bool_decide (id ∉ visited)) "metadata tree cycle/depth";;
      n ← node id;
      st_need (bound_ok lo hi (key n)) "metadata tree ordering mismatch";;
      heap_check (left n) n;;
      heap_check (right n) n;;
      '(result, visited) ← entries_walk fuel' (left n) lo (Some (key n)) result
                             ({[id]} ∪ visited);
      let result := match result !! key n with
                    | Some _ => result
                    | None => <[key n := value n]> result
                    end in
      entries_walk fuel' (right n) (Some (key n)) hi result visited
  end.
Definition entries : ST editor (gmap Bytes Id) :=
  r ← gets root_;
  '(result, _) ← entries_walk 256 r None None ∅ ∅;
  mret result.

(** The validation loop of [apply]. *)
Fixpoint check_changes (changes : list (Bytes * option Id)) : result unit :=
  match changes with
  | [] => Ok tt
  | (k, v) :: rest =>
      need (valid_key k) "invalid metadata change key";;
      need (match v with None => true | Some v' => bool_decide (v' ≠ zero_id) end)
        "zero metadata value reference";;
      need (bool_decide (k ≠ namespace_root) || match v with None => false | Some _ => true end)
        "cannot delete namespace root";;
      check_changes rest
  end.

Fixpoint set_all (candidate : Id) (changes : list (Bytes * option Id)) : ST editor Id :=
  match changes with
  | [] => mret candidate
  | (k, v) :: rest => c ← set candidate k v; set_all c rest
  end.

(** The post-order [collect] of the pending nodes below the candidate. *)
Fixpoint collect (fuel : nat) (id : Id) (visited : gset Id) (out : list Bytes)
    : ST editor (gset Id * list Bytes) :=
  p ← gets (λ e, pending_ e !! id);
  match p with
  | None => mret (visited, out)
  | Some b =>
      if bool_decide (id ∈ visited) then mret (visited, out) else
      match fuel with
      | O => lift OutOfFuel
      | S fuel' =>
          n ← node id;
          '(visited, out) ← collect fuel' (left n) ({[id]} ∪ visited) out;
          '(visited, out) ← collect fuel' (right n) visited out;
          mret (visited, out ++ [b])
      end
  end.

Definition encode_manifest (root : Id) : Bytes :=
  memcpy (memcpy (zeros 40) 0 tree_magic) 8 root.

(** [MetadataTree::Plan MetadataTree::apply(const Changes& changes)] *)
Definition apply (changes : gmap Bytes (option Id)) : ST editor Plan :=
  lift (check_changes (in_order changes));;
  (if bool_decide (is_Some (changes !! namespace_root)) then mret tt
   else r ← lookup namespace_root;
        st_need (bool_decide (is_Some r)) "metadata tree missing namespace root");;
  root ← gets root_;
  candidate ← set_all root (in_order changes);
  (if bool_decide (candidate = root) then mret tt
   else height 256 candidate;; mret tt);;
  bound ← gets (λ e, S (size (pending_ e)));
  '(_, out) ← collect bound candidate ∅ [];
  modify (set_root candidate);;
  mret (mkPlan (encode_manifest candidate) out).
End Tree.
End MetadataTree.
