(* ===== verification/MetadataTreeProofs.v ===== *)
(** * Refinement of the metadata treap

    The mutable, content-addressed class of [MetadataTree] against the trees of
    [Treap]: the node codec, what it means for an id to represent a tree, and the
    correctness of every operation. *)

From S2P Require Import Prelude Codec Treap MetadataTree.
Import MetadataTree.
Local Open Scope Z_scope.

(** ** The node codec *)

Definition node_ok (n : Node) : Prop :=
  valid_key (key n) = true ∧ value n ≠ zero_id ∧
  length (value n) = 32%nat ∧ length (left n) = 32%nat ∧ length (right n) = 32%nat.

Lemma valid_key_length k : valid_key k = true → (8 ≤ length k ≤ 1024)%nat.
Proof. unfold valid_key, len. rewrite !andb_true_iff, !Z.leb_le. lia. Qed.

Lemma encode_node_eq n :
  node_ok n →
  encode_node n = node_magic ++ store (len (key n)) 4 ++ value n ++ left n ++ right n ++ key n.
Proof.
  intros (_ & _ & Hv & Hl & Hr). unfold encode_node.
  change (108 + length (key n))%nat with (8 + (4 + (32 + (32 + (32 + length (key n))))))%nat.
  rewrite !zeros_add.
  rewrite memcpy_here by done.
  repeat (rewrite (memcpy_skip _ 8) by (done || lia); simpl Nat.sub).
  rewrite memcpy_here by done.
  repeat (rewrite (memcpy_skip _ 4) by (apply length_store || lia); simpl Nat.sub).
  rewrite memcpy_here by (by rewrite Hv).
  repeat (rewrite (memcpy_skip _ 32) by (done || lia); simpl Nat.sub).
  rewrite memcpy_here by (by rewrite Hl).
  repeat (rewrite (memcpy_skip _ 32) by (done || lia); simpl Nat.sub).
  rewrite memcpy_here by (by rewrite Hr).
  repeat (rewrite (memcpy_skip _ 32) by (done || lia); simpl Nat.sub).
  rewrite memcpy_here_end by (by rewrite length_zeros). done.
Qed.

Lemma length_encode_node n : node_ok n → len (encode_node n) = 108 + len (key n).
Proof.
  intros Hn. rewrite encode_node_eq by done. destruct Hn as (_ & _ & Hv & Hl & Hr).
  unfold len. autorewrite with forkfs. rewrite Hv, Hl, Hr.
  change (length node_magic) with 8%nat. lia.
Qed.

Lemma decode_encode_node n : node_ok n → decode_node (encode_node n) = Ok n.
Proof.
  intros Hn. unfold decode_node. rewrite length_encode_node by done.
  rewrite encode_node_eq by done.
  destruct Hn as (Hk & Hnz & Hv & Hl & Hr). destruct n as [k v l r].
  cbn [key value left right] in *. pose proof (valid_key_length k Hk) as Hlen.
  rewrite slice_here, (drop_skip 8 8) by (done || lia).
  change (8 - 8)%nat with 0%nat. rewrite drop_0, load_store by (unfold len; lia).
  rewrite !(drop_skip 108 8), (drop_skip _ 4), !(drop_skip _ 32)
    by (done || apply length_store || lia).
  change (108 - 8 - 4 - 32 - 32 - 32)%nat with 0%nat. rewrite drop_0.
  rewrite (slice_skip 12 _ 8), (slice_skip _ _ 4) by (done || apply length_store || lia).
  change (12 - 8 - 4)%nat with 0%nat. rewrite (slice_here 32 v) by done.
  rewrite (slice_skip 44 _ 8), (slice_skip _ _ 4), (slice_skip _ _ 32 v)
    by (done || apply length_store || lia).
  change (44 - 8 - 4 - 32)%nat with 0%nat. rewrite (slice_here 32 l) by done.
  rewrite (slice_skip 76 _ 8), (slice_skip _ _ 4), (slice_skip _ _ 32 v),
    (slice_skip _ _ 32 l) by (done || apply length_store || lia).
  change (76 - 8 - 4 - 32 - 32)%nat with 0%nat. rewrite (slice_here 32 r) by done.
  rewrite need_true_bind.
  2:{ apply andb_true_iff. split; [apply Z.leb_le; unfold len; lia|done]. }
  rewrite need_true_bind.
  2:{ rewrite !andb_true_iff, !Z.leb_le, Z.eqb_eq. unfold len. lia. }
  rewrite need_true_bind by done.
  rewrite need_true_bind by by apply bool_decide_eq_true. done.
Qed.

Lemma drop_split n m (b : Bytes) : drop n b = slice n m b ++ drop (n + m) b.
Proof. unfold slice. by rewrite <- drop_drop, take_drop. Qed.

(** Decoding is canonical: an accepted payload is the encoding of its node. *)
Lemma decode_node_sound b n :
  decode_node b = Ok n → node_ok n ∧ encode_node n = b.
Proof.
  intros H. unfold decode_node in H. inv_ok H. simplify_eq.
  rewrite !andb_true_iff, !Z.leb_le, Z.eqb_eq in *. destruct_and!.
  unfold bytes_eqb in *. rewrite !bool_decide_eq_true in *.
  assert (node_ok (mkNode (drop 108 b) (slice 12 32 b) (slice 44 32 b) (slice 76 32 b))) as Hok.
  { split_and!; simpl; [done..| | |]; apply length_slice; unfold len in *; lia. }
  split; [done|]. rewrite encode_node_eq by done. cbn [key value left right].
  replace (len (drop 108 b)) with (load (drop 8 b) 4).
  2:{ unfold len in *. rewrite length_drop. lia. }
  rewrite store_load by (rewrite length_drop; unfold len in *; lia).
  fold (slice 8 4 b). transitivity (drop 0 b); [|by rewrite drop_0].
  rewrite (drop_split 0 8), (drop_split (0 + 8) 4), (drop_split (0 + 8 + 4) 32),
    (drop_split (0 + 8 + 4 + 32) 32), (drop_split (0 + 8 + 4 + 32 + 32) 32).
  cbn [Nat.add]. rewrite H3. done.
Qed.

(** ** Ids of trees *)

Section Merkle.
Context `{Digest}.

(** The id under which a tree is published. *)
Fixpoint mid (t : tree) : Id :=
  match t with
  | Leaf => zero_id
  | Branch l k v r => object_hash (encode_node (mkNode k v (mid l) (mid r)))
  end.
Definition root_node (l : tree) (k : Bytes) (v : Id) (r : tree) : Node :=
  mkNode k v (mid l) (mid r).

(** All non-empty subtrees. *)
Fixpoint subtrees (t : tree) : list tree :=
  match t with
  | Leaf => []
  | Branch l k v r => t :: subtrees l ++ subtrees r
  end.

(** The finitely many search trees over a list [U] of admissible entries. *)
Definition tree_in (U : list (Bytes * Id)) (t : tree) : Prop :=
  bst t ∧ ∀ p, p ∈ elements_of t → p ∈ U.

(** SHA-256 separates those trees. *)
Definition collision_free (U : list (Bytes * Id)) : Prop :=
  ∀ t1 t2, tree_in U t1 → tree_in U t2 → mid t1 = mid t2 → t1 = t2.

(** The entries are ones the code accepts. *)
Definition entries_ok (U : list (Bytes * Id)) : Prop :=
  ∀ k v, (k, v) ∈ U → valid_key k = true ∧ v ≠ zero_id ∧ length v = 32%nat.

Lemma tree_in_Branch U l k v r :
  tree_in U (Branch l k v r) → tree_in U l ∧ tree_in U r ∧ (k, v) ∈ U.
Proof.
  intros [Hb HU]. apply bst_Branch in Hb as (Hl & Hr & _). simpl in HU.
  split_and!; [split; [done|]|split; [done|]|]; intros; apply HU;
    rewrite elem_of_app, elem_of_cons; auto.
Qed.

Lemma tree_in_Leaf U : tree_in U Leaf.
Proof. split; [apply bst_Leaf|]. simpl. set_solver. Qed.

Lemma tree_in_subtrees U t s : tree_in U t → s ∈ subtrees t → tree_in U s.
Proof.
  induction t as [|l IHl k v r IHr]; simpl; [set_solver|]. intros Ht.
  apply tree_in_Branch in Ht as Ht'. destruct Ht' as (Hl & Hr & _).
  intros [->|[|]%elem_of_app]%elem_of_cons; auto.
Qed.

Lemma subtrees_count s t : s ∈ subtrees t → (count s ≤ count t)%nat.
Proof.
  induction t as [|l IHl k v r IHr]; simpl; [set_solver|].
  intros [->|[Hs|Hs]%elem_of_app]%elem_of_cons; [done|apply IHl in Hs|apply IHr in Hs]; lia.
Qed.

Lemma subtrees_keys s t : s ∈ subtrees t → ∃ x, x ∈ keys_of s ∧ x ∈ keys_of t.
Proof.
  induction t as [|l IHl k v r IHr]; simpl; [set_solver|].
  rewrite keys_of_Branch. intros [->|[Hs|Hs]%elem_of_app]%elem_of_cons.
  - exists k. rewrite keys_of_Branch. set_solver.
  - destruct (IHl Hs) as (x & ? & ?). exists x. set_solver.
  - destruct (IHr Hs) as (x & ? & ?). exists x. set_solver.
Qed.

Lemma subtrees_keys_sub s t x : s ∈ subtrees t → x ∈ keys_of s → x ∈ keys_of t.
Proof.
  induction t as [|l IHl k v r IHr]; simpl; [set_solver|].
  intros [->|[Hs|Hs]%elem_of_app]%elem_of_cons Hx; [done|..];
    rewrite keys_of_Branch; set_solver.
Qed.

Lemma length_subtrees t : length (subtrees t) = count t.
Proof. induction t; simpl; [done|]. rewrite length_app. lia. Qed.

Context (U : list (Bytes * Id)) (HU : collision_free U).

Lemma mid_nonzero l k v r :
  tree_in U (Branch l k v r) → mid (Branch l k v r) ≠ zero_id.
Proof. intros Ht He. by apply (HU _ Leaf Ht (tree_in_Leaf U)) in He. Qed.

Lemma mid_zero t : tree_in U t → mid t = zero_id ↔ t = Leaf.
Proof.
  intros Ht. destruct t as [|l k v r]; [done|]. split; [|done].
  by intros ?%mid_nonzero.
Qed.

Lemma mid_fresh_sub t s u :
  tree_in U t → tree_in U u → s ∈ subtrees u → (count u < count t)%nat → mid s ≠ mid t.
Proof.
  intros Ht Hu Hs Hc He.
  apply HU in He as ->; [|by eapply tree_in_subtrees|done].
  apply subtrees_count in Hs. lia.
Qed.

Lemma mid_fresh_keys t s u :
  tree_in U t → tree_in U u → s ∈ subtrees u →
  (∀ x, x ∈ keys_of t → x ∈ keys_of u → False) → mid s ≠ mid t.
Proof.
  intros Ht Hu Hs Hd He.
  apply HU in He as ->; [|by eapply tree_in_subtrees|done].
  apply subtrees_keys in Hs as (x & ? & ?). eauto.
Qed.

Lemma NoDup_subtrees t : tree_in U t → NoDup (mid <$> subtrees t).
Proof.
  induction t as [|l IHl k v r IHr]; intros Ht; [constructor|].
  apply tree_in_Branch in Ht as Ht'. destruct Ht' as (Hl & Hr & _).
  destruct Ht as [Hb HUt]. apply bst_Branch in Hb as Hb'. destruct Hb' as (_ & _ & Hlt & Hgt).
  cbn [subtrees]. rewrite fmap_cons, fmap_app.
  assert (∀ s u, s ∈ subtrees u → tree_in U u → (count u < count (Branch l k v r))%nat →
    mid s ≠ mid (Branch l k v r)) as Hfresh.
  { intros s u Hs Hu Hc. by apply (mid_fresh_sub _ _ u). }
  apply NoDup_cons. split.
  - rewrite <- fmap_app. intros (s & He & Hs)%list_elem_of_fmap. symmetry in He.
    apply elem_of_app in Hs as [Hs|Hs];
      eapply Hfresh; try exact He; try exact Hs; try done; simpl; lia.
  - apply NoDup_app. split_and!; [auto| |auto].
    intros id (s & -> & Hs)%list_elem_of_fmap (s' & He & Hs')%list_elem_of_fmap.
    assert (s' = s) as ->.
    { apply HU; [by apply (tree_in_subtrees U r)|by apply (tree_in_subtrees U l)|done]. }
    apply subtrees_keys in Hs as (x & Hx & Hxl).
    eapply (subtrees_keys_sub _ _ x) in Hs'; [|done].
    apply Hlt in Hxl. apply Hgt in Hs'. by destruct (lex_lt_asym x k).
Qed.
End Merkle.

(** ** What an editor represents *)

Section Editor.
Context `{Digest} {J : Type} `{ObjectStore J} (j : J).

(** The node an id denotes, whether or not it is cached. *)
Definition peek (e : editor) (id : Id) : result Node :=
  match cache_ e !! id with
  | Some n => Ok n
  | None => get_object j id ≫= decode_node
  end.

(** Every subtree can be loaded under its id. *)
Fixpoint stored (e : editor) (t : tree) : Prop :=
  match t with
  | Leaf => True
  | Branch l k v r => peek e (mid t) = Ok (root_node l k v r) ∧ stored e l ∧ stored e r
  end.

(** Caching a node changes nothing observable. *)
Definition same (e e' : editor) : Prop :=
  (∀ id, peek e' id = peek e id) ∧ root_ e' = root_ e ∧ pending_ e' = pending_ e ∧
  heights_ e' = heights_ e ∧ loadable j e ⊆ loadable j e' ∧
  (∀ id n, cache_ e' !! id = Some n →
     cache_ e !! id = Some n ∨ get_object j id ≫= decode_node = Ok n).

#[global] Instance same_preorder : PreOrder same.
Proof.
  split; [intros e; split_and!; auto|].
  intros e1 e2 e3 (Hp & Hr & Hd & Hh & Hl & Hc) (Hp' & Hr' & Hd' & Hh' & Hl' & Hc').
  split_and!; [|congruence..|set_solver|].
  - intros id. by rewrite Hp', Hp.
  - intros id n [Hn|?]%Hc'; [by apply Hc|by right].
Qed.

Lemma node_run e id : ∃ e', node j id e = (e', peek e id) ∧ same e e'.
Proof.
  unfold node, peek. destruct (cache_ e !! id) as [n|] eqn:Hc; [by exists e|].
  destruct (get_object j id ≫= decode_node) as [n|m|] eqn:Hg; [|by exists e..].
  eexists. split; [done|]. split_and!; [|done..| |].
  - intros id'. unfold peek, set_cache. cbn [cache_]. destruct (decide (id = id')) as [<-|].
    + by rewrite lookup_insert_eq, Hc, Hg.
    + by rewrite lookup_insert_ne.
  - unfold loadable, set_cache. cbn [cache_]. rewrite dom_insert_L. set_solver.
  - unfold set_cache. cbn [cache_]. intros id' n'. destruct (decide (id = id')) as [<-|].
    + rewrite lookup_insert_eq. intros [= <-]. by right.
    + rewrite lookup_insert_ne by done. by left.
Qed.

Lemma node_Ok e id n : peek e id = Ok n → ∃ e', node j id e = (e', Ok n) ∧ same e e'.
Proof. intros Hn. destruct (node_run e id) as (e' & Hr & Hs). rewrite Hn in Hr. eauto. Qed.

Lemma stored_same e e' t : same e e' → stored e t → stored e' t.
Proof.
  intros [Hp _]. induction t as [|l IHl k v r IHr]; [done|].
  intros (Hx1 & Hx2 & Hx3). simpl. rewrite Hp. auto.
Qed.

Lemma stored_subtrees e t s : stored e t → s ∈ subtrees t → stored e s.
Proof.
  induction t as [|l IHl k v r IHr]; simpl; [set_solver|]. intros (Hx1 & Hx2 & Hx3).
  intros [->|[|]%elem_of_app]%elem_of_cons; [by split_and!|auto..].
Qed.

Context (U : list (Bytes * Id)).

(** The invariant of an editing session: pending payloads and cached nodes are
    encodings of trees over [U] or of nodes already in the store. *)
Definition session (e : editor) : Prop :=
  (∀ id b, pending_ e !! id = Some b →
     ∃ l k v r, tree_in U (Branch l k v r) ∧ id = mid (Branch l k v r) ∧
       b = encode_node (root_node l k v r)) ∧
  (∀ id n, cache_ e !! id = Some n →
     pending_ e !! id = Some (encode_node n) ∨
     get_object j id = Ok (encode_node n)).

(** A later state of the same session. *)
Definition extends (e e' : editor) : Prop :=
  root_ e' = root_ e ∧ heights_ e' = heights_ e ∧ pending_ e ⊆ pending_ e' ∧
  loadable j e ⊆ loadable j e' ∧ (session e → session e') ∧
  (∀ t, tree_in U t → stored e t → stored e' t).

#[global] Instance extends_preorder : PreOrder extends.
Proof.
  split; [by intros e|].
  intros e1 e2 e3 (Hr & Hh & Hp & Hl & Hs & Ht) (Hr' & Hh' & Hp' & Hl' & Hs' & Ht').
  split_and!; [congruence..|by etrans|set_solver|auto|auto].
Qed.

Lemma same_session e e' : same e e' → session e → session e'.
Proof.
  intros (_ & _ & Hd & _ & _ & Hc) [Hp Hb]. unfold session. rewrite Hd. split; [done|].
  intros id n [Hn|Hn]%Hc; [by apply Hb|]. right.
  apply bind_Ok in Hn as (b & Hg & [_ <-]%decode_node_sound). done.
Qed.

Lemma node_extends e t l k v r :
  t = Branch l k v r → stored e t →
  ∃ e', node j (mid t) e = (e', Ok (root_node l k v r)) ∧ extends e e' ∧ same e e'.
Proof.
  intros -> (Hpk & Hl & Hr). destruct (node_Ok _ _ _ Hpk) as (e' & Hn & Hs).
  exists e'. split; [done|]. split; [|done]. pose proof Hs as (Hp & Hrt & Hd & Hh & Hld & _).
  split_and!; [done..|by rewrite Hd|done|by apply same_session|].
  intros t _. by apply stored_same.
Qed.

Context (HU : collision_free U) (HUok : entries_ok U).

Lemma root_node_ok `{!DigestOk} l k v r :
  tree_in U (Branch l k v r) → node_ok (root_node l k v r).
Proof.
  intros Ht. apply tree_in_Branch in Ht as (_ & _ & Hkv).
  apply HUok in Hkv as (Hk & Hv & Hlen).
  assert (∀ t, length (mid t) = 32%nat) as Hm by (intros []; apply digest_length || done).
  split_and!; simpl; auto.
Qed.

Lemma make_run `{!DigestOk} e l k v r :
  tree_in U (Branch l k v r) → stored e l → stored e r →
  ∃ e', make (root_node l k v r) e = (e', Ok (mid (Branch l k v r))) ∧
    (session e → extends e e' ∧ stored e' (Branch l k v r)).
Proof.
  intros Ht Hl Hr. pose proof (root_node_ok _ _ _ _ Ht) as Hok.
  unfold make. rewrite (st_bind_run _ _ e e tt).
  2:{ unfold st_need, lift, need. destruct Hok as (Hk & Hv & _). rewrite Hk.
      by rewrite bool_decide_eq_true_2. }
  eexists. split; [reflexivity|]. intros [Hp Hc].
  set (id := mid (Branch l k v r)). set (b := encode_node (root_node l k v r)).
  change (object_hash b) with id in *.
  set (e' := mkEditor _ _ _ _).
  assert (pending_ e' !! id = Some b) as Hpid.
  { unfold e'. cbn [pending_]. destruct (pending_ e !! id) as [b'|] eqn:Hpe.
    - apply Hp in Hpe as Hpe'. destruct Hpe' as (l' & k' & v' & r' & Ht' & Hid & Hb).
      apply HU in Hid; [|done..]. injection Hid as <- <- <- <-. by rewrite Hpe, Hb.
    - apply lookup_insert_eq. }
  assert (∀ id', id' ≠ id → pending_ e' !! id' = pending_ e !! id') as Hpne.
  { intros id' Hne. unfold e'. cbn [pending_]. destruct (pending_ e !! id); [done|].
    by rewrite lookup_insert_ne. }
  assert (∀ id', id' ≠ id → peek e' id' = peek e id') as Hpk.
  { intros id' Hne. unfold peek, e'. cbn [cache_]. by rewrite lookup_insert_ne. }
  assert (peek e' id = Ok (root_node l k v r)) as Hpki.
  { unfold peek, e'. cbn [cache_]. by rewrite lookup_insert_eq. }
  assert (∀ t, tree_in U t → stored e t → stored e' t) as Hst.
  { induction t as [|tl IHl tk tv tr IHr]; [done|]. intros HtU (Hx1 & Hx2 & Hx3).
    apply tree_in_Branch in HtU as HtU'. destruct HtU' as (? & ? & _).
    split_and!; [|auto..]. destruct (decide (mid (Branch tl tk tv tr) = id)) as [He|Hne].
    - rewrite He, Hpki. apply HU in He; [|done..]. by injection He as -> -> -> ->.
    - by rewrite Hpk. }
  split; [split_and!; [done..| | | |done]|].
  - unfold e'. cbn [pending_]. destruct (pending_ e !! id) eqn:Hpe; [done|].
    by apply insert_subseteq.
  - unfold loadable, e'. cbn [cache_]. rewrite dom_insert_L. set_solver.
  - intros _. split.
    + intros id' b' Hb'. destruct (decide (id' = id)) as [->|Hne].
      * rewrite Hpid in Hb'. injection Hb' as <-. by exists l, k, v, r.
      * rewrite Hpne in Hb' by done. by apply Hp.
    + intros id' n' Hn'. destruct (decide (id' = id)) as [->|Hne].
      * unfold e' in Hn'. cbn [cache_] in Hn'. rewrite lookup_insert_eq in Hn'.
        injection Hn' as <-. by left.
      * rewrite Hpne by done. apply Hc. unfold e' in Hn'. cbn [cache_] in Hn'.
        by rewrite lookup_insert_ne in Hn'.
  - apply tree_in_Branch in Ht as (? & ? & _). split_and!; [done|by apply Hst..].
Qed.
End Editor.
