(* ===== verification/MetadataTreeRead.v ===== *)
(** * Correctness of the read operations of the metadata treap

    [lookup], [keys], [page], [entries] and [height] of [MetadataTree] on an editor
    that represents a search tree: each returns what the mathematical tree
    determines, and the pruning of the walks loses nothing. *)

From S2P Require Import Prelude Codec Treap MetadataTree MetadataTreeProofs.
Import MetadataTree.
Local Open Scope Z_scope.

(** ** The exclusive upper bound of a prefix *)

Lemma upper_loop_spec r u :
  upper_loop r = Some u →
  ∃ r1 c r2, r = r1 ++ c :: r2 ∧ u = rev (z2b (b2z c + 1) :: r2) ∧ b2z c ≠ 255.
Proof.
  induction r as [|c r IH]; simpl; [done|].
  destruct (b2z c =? 255) eqn:E.
  - intros Hu. destruct (IH Hu) as (r1 & c' & r2 & -> & -> & Hc).
    by exists (c :: r1), c', r2.
  - intros [= <-]. exists [], c, r. split_and!; [done..|]. by apply Z.eqb_neq.
Qed.

Lemma lex_lt_common q a b : lex_lt a b → lex_lt (q ++ a) (q ++ b).
Proof.
  intros Hab. induction q as [|x q IH]; [done|].
  unfold lex_lt, lex_ltb in *. simpl. by rewrite Z.compare_refl.
Qed.

(** Every key with the prefix lies below the bound. *)
Lemma below_upper_bound p k : starts_with p k = true → below k (upper_bound p) = true.
Proof.
  intros [t ->]%starts_with_spec. unfold upper_bound.
  destruct (upper_loop (rev p)) as [u|] eqn:Hu; [|done]. simpl.
  apply upper_loop_spec in Hu as (r1 & c & r2 & Hr & -> & Hc).
  assert (p = rev r2 ++ c :: rev r1) as ->.
  { rewrite <- (rev_involutive p), Hr, rev_app_distr. simpl. by rewrite <- app_assoc. }
  simpl. rewrite <- app_assoc. apply lex_lt_common.
  unfold lex_lt, lex_ltb. simpl. pose proof (b2z_range c) as Hrange.
  rewrite b2z_z2b, Z.mod_small by lia.
  by rewrite (proj2 (Z.compare_lt_iff (b2z c) (b2z c + 1))) by lia.
Qed.

Lemma below_mono a b u : lex_lt a b → below a u = false → below b u = false.
Proof.
  destruct u as [u|]; [|done]. simpl. intros Hab Ha%lex_not_lt. apply lex_not_lt.
  etrans; [exact Ha|]. apply lex_le_lt_eq. by left.
Qed.

Lemma filter_none {A} (f : A → bool) l : (∀ x, x ∈ l → f x = false) → List.filter f l = [].
Proof.
  induction l as [|x l IH]; simpl; [done|]. intros Hf.
  rewrite Hf by set_solver. apply IH. set_solver.
Qed.

Section Read.
Context `{Digest} {J : Type} `{ObjectStore J} (j : J).

(** Ids of non-empty trees are not the null id. *)
Definition nonnull (t : tree) : Prop := ∀ s, s ∈ subtrees t → mid s ≠ zero_id.

Lemma nonnull_Branch l k v r :
  nonnull (Branch l k v r) →
  bool_decide (mid (Branch l k v r) = zero_id) = false ∧ nonnull l ∧ nonnull r.
Proof.
  intros Hn. split_and!.
  - apply bool_decide_eq_false_2, Hn. simpl. set_solver.
  - intros s Hs. apply Hn. simpl. set_solver.
  - intros s Hs. apply Hn. simpl. set_solver.
Qed.

Lemma tree_in_nonnull U t : collision_free U → tree_in U t → nonnull t.
Proof.
  intros HU Ht s Hs. pose proof (tree_in_subtrees U t s Ht Hs) as Hts.
  destruct s; [|by eapply mid_nonzero].
  exfalso. clear -Hs. induction t; simpl in *; set_solver.
Qed.

(** The representation a read relies on. *)
Definition shows (e : editor) (t : tree) : Prop := stored j e t ∧ nonnull t.

Lemma shows_Branch e l k v r :
  shows e (Branch l k v r) →
  bool_decide (mid (Branch l k v r) = zero_id) = false ∧
  ∃ e', node j (mid (Branch l k v r)) e = (e', Ok (root_node l k v r)) ∧ same j e e' ∧
    shows e' l ∧ shows e' r.
Proof.
  intros [Hs Hn]. apply nonnull_Branch in Hn as (Hz & Hl & Hr). split; [done|].
  pose proof Hs as (Hp & Hsl & Hsr).
  destruct (node_Ok j _ _ _ Hp) as (e' & Hrun & Hsame). exists e'.
  split; [done|]. split; [done|]. split; (split; [by eapply stored_same|done]).
Qed.

Lemma shows_same e e' t : same j e e' → shows e t → shows e' t.
Proof. intros Hs [??]. split; [by eapply stored_same|done]. Qed.

Lemma lookup_loop_run k t : ∀ fuel e,
  (depth t ≤ fuel)%nat → shows e t →
  ∃ e', lookup_loop j fuel k (mid t) e = (e', Ok (tlookup k t)) ∧ same j e e'.
Proof.
  induction t as [|l IHl k' v r IHr]; intros fuel e Hd Hs.
  { exists e. by destruct fuel. }
  destruct fuel as [|fuel]; [simpl in Hd; lia|].
  destruct (shows_Branch _ _ _ _ _ Hs) as (Hz & e1 & Hn & Hs1 & Hl & Hr).
  cbn [lookup_loop tlookup]. rewrite Hz, (st_bind_run _ _ _ _ _ Hn).
  cbn [key value left right root_node]. clear Hz. case_bool_decide; [by exists e1|].
  destruct (lex_ltb k k').
  - destruct (IHl fuel e1) as (e2 & Hrun & Hs2); [simpl in Hd; lia|done|].
    exists e2. split; [done|by etrans].
  - destruct (IHr fuel e1) as (e2 & Hrun & Hs2); [simpl in Hd; lia|done|].
    exists e2. split; [done|by etrans].
Qed.

(** ** [keys] *)

Lemma keys_walk_run prefix t : ∀ fuel e acc,
  (depth t ≤ fuel)%nat → bst t → shows e t →
  ∃ e', keys_walk j fuel prefix (upper_bound prefix) (mid t) acc e =
      (e', Ok (acc ++ List.filter (starts_with prefix) (keys_of t))) ∧ same j e e'.
Proof.
  induction t as [|l IHl k v r IHr]; intros fuel e acc Hd Hb Hs.
  { exists e. rewrite app_nil_r. by destruct fuel. }
  destruct fuel as [|fuel]; [simpl in Hd; lia|].
  destruct (shows_Branch _ _ _ _ _ Hs) as (Hz & e1 & Hn & Hs1 & Hl & Hr).
  apply bst_Branch in Hb as (Hbl & Hbr & Hlt & Hgt).
  cbn [keys_walk]. rewrite Hz, (st_bind_run _ _ _ _ _ Hn).
  cbn [key value left right root_node].
  rewrite keys_of_Branch, List.filter_app. cbn [List.filter].
  assert (∃ e2, (if lex_leb prefix k
      then keys_walk j fuel prefix (upper_bound prefix) (mid l) acc else mret acc) e1 =
      (e2, Ok (acc ++ List.filter (starts_with prefix) (keys_of l))) ∧ same j e1 e2)
    as (e2 & Hrun2 & Hs2).
  { destruct (lex_leb prefix k) eqn:E; [apply IHl; [simpl in Hd; lia|done..]|].
    exists e1. rewrite filter_none, app_nil_r; [done|]. intros x Hx.
    destruct (starts_with prefix x) eqn:Ex; [|done]. apply lex_le_prefix in Ex.
    assert (lex_le prefix k); [|unfold lex_le in *; congruence].
    etrans; [exact Ex|]. apply lex_le_lt_eq. left. auto. }
  rewrite (st_bind_run _ _ _ _ _ Hrun2).
  set (acc' := if starts_with prefix k then _ else _).
  assert (acc ++ List.filter (starts_with prefix) (keys_of l) ++
    (if starts_with prefix k then k :: List.filter (starts_with prefix) (keys_of r)
     else List.filter (starts_with prefix) (keys_of r)) =
    acc' ++ List.filter (starts_with prefix) (keys_of r)) as ->.
  { unfold acc'. destruct (starts_with prefix k); by rewrite <- !app_assoc. }
  destruct (below k (upper_bound prefix)) eqn:E.
  - destruct (IHr fuel e2 acc') as (e3 & Hrun3 & Hs3); [simpl in Hd; lia|done|by eapply shows_same|].
    exists e3. split; [done|]. by do 2 (etrans; [eassumption|]).
  - exists e2. rewrite filter_none, app_nil_r; [split; [done|by etrans]|]. intros x Hx.
    destruct (starts_with prefix x) eqn:Ex; [|done]. apply below_upper_bound in Ex.
    apply (below_mono k x) in E; [congruence|auto].
Qed.

(** ** [page] *)

(** The keys a page request may return. *)
Definition page_filter (prefix after : Bytes) (k : Bytes) : bool :=
  starts_with prefix k && (bool_decide (after = []) || lex_ltb after k).
Definition page_lower (prefix after : Bytes) : Bytes :=
  if bool_decide (after = []) then prefix else after.

Lemma page_filter_lower prefix after k :
  page_filter prefix after k = true → lex_le (page_lower prefix after) k.
Proof.
  unfold page_filter, page_lower. rewrite andb_true_iff, orb_true_iff. intros [Hp Ha].
  case_bool_decide; [by apply lex_le_prefix|]. destruct Ha as [|Ha]; [done|].
  apply lex_le_lt_eq. by left.
Qed.

Lemma take_app_split {A} n (a b : list A) :
  take n (a ++ b) = take n a ++ take (n - length (take n a)) b.
Proof.
  rewrite take_app, length_take. f_equal.
  destruct (decide (n ≤ length a)%nat).
  - rewrite Nat.min_l by done. replace (n - length a)%nat with 0%nat by lia.
    by rewrite Nat.sub_diag.
  - by rewrite Nat.min_r by lia.
Qed.

Lemma take_all {A} n (l : list A) : n = 0%nat → take n l = [].
Proof. by intros ->. Qed.

Definition quota (limit : Z) (acc : list Bytes) : nat := Z.to_nat (limit - len acc).

Lemma quota_app limit acc new :
  (length new ≤ quota limit acc)%nat → len acc ≤ limit →
  quota limit (acc ++ new) = (quota limit acc - length new)%nat ∧ len (acc ++ new) ≤ limit.
Proof. unfold quota. rewrite len_app. unfold len. lia. Qed.

Lemma page_walk_run prefix after limit t : ∀ fuel e acc,
  (depth t ≤ fuel)%nat → bst t → shows e t → len acc ≤ limit →
  ∃ e', page_walk j fuel prefix after (page_lower prefix after) (upper_bound prefix) limit
      (mid t) acc e =
      (e', Ok (acc ++ take (quota limit acc) (List.filter (page_filter prefix after) (keys_of t))))
    ∧ same j e e'.
Proof.
  induction t as [|l IHl k v r IHr]; intros fuel e acc Hd Hb Hs Hlim.
  { exists e. simpl. rewrite take_nil, app_nil_r. by destruct fuel. }
  destruct fuel as [|fuel]; [simpl in Hd; lia|].
  destruct (shows_Branch _ _ _ _ _ Hs) as (Hz & e1 & Hn & Hs1 & Hl & Hr).
  apply bst_Branch in Hb as (Hbl & Hbr & Hlt & Hgt).
  cbn [page_walk]. rewrite Hz. cbn [orb].
  destruct (len acc =? limit) eqn:Efull.
  { exists e. rewrite take_all, app_nil_r; [done|]. apply Z.eqb_eq in Efull. unfold quota. lia. }
  rewrite (st_bind_run _ _ _ _ _ Hn). cbn [key value left right root_node].
  rewrite keys_of_Branch, List.filter_app. cbn [List.filter].
  set (fl := List.filter (page_filter prefix after) (keys_of l)).
  set (fr := List.filter (page_filter prefix after) (keys_of r)).
  assert (∃ e2, (if lex_ltb (page_lower prefix after) k
      then page_walk j fuel prefix after (page_lower prefix after) (upper_bound prefix) limit
             (mid l) acc else mret acc) e1 =
      (e2, Ok (acc ++ take (quota limit acc) fl)) ∧ same j e1 e2) as (e2 & Hrun2 & Hs2).
  { destruct (lex_ltb (page_lower prefix after) k) eqn:E;
      [apply IHl; [simpl in Hd; lia|done..]|].
    exists e1. unfold fl. rewrite filter_none, take_nil, app_nil_r; [done|]. intros x Hx.
    destruct (page_filter prefix after x) eqn:Ex; [|done]. apply page_filter_lower in Ex.
    assert (lex_lt (page_lower prefix after) k); [|unfold lex_lt in *; congruence].
    apply lex_le_lt_eq in Ex as [Ex| ->]; [etrans; [exact Ex|]|]; auto. }
  rewrite (st_bind_run _ _ _ _ _ Hrun2). rewrite take_app_split.
  set (acc1 := acc ++ take (quota limit acc) fl).
  destruct (quota_app limit acc (take (quota limit acc) fl)) as [Hq1 Hl1];
    [rewrite length_take; lia|done|]. fold acc1 in Hq1, Hl1.
  rewrite <- Hq1, app_assoc. fold acc1. fold (page_filter prefix after k).
  destruct (len acc1 =? limit) eqn:Efull1.
  { exists e2. rewrite take_all, app_nil_r; [split; [done|by etrans]|].
    apply Z.eqb_eq in Efull1. unfold quota. lia. }
  apply Z.eqb_neq in Efull1.
  set (acc2 := if page_filter prefix after k then acc1 ++ [k] else acc1).
  assert (acc1 ++ take (quota limit acc1)
      (if page_filter prefix after k then k :: fr else fr) =
      acc2 ++ take (quota limit acc2) fr ∧ len acc2 ≤ limit) as [-> Hl2].
  { unfold acc2. destruct (page_filter prefix after k); [|done].
    destruct (quota limit acc1) as [|q] eqn:Hq; [unfold quota in Hq; lia|].
    destruct (quota_app limit acc1 [k]) as [Hq2 ?]; [simpl; lia|done|].
    simpl in Hq2. rewrite Hq2, Hq, <- app_assoc. split; [|done]. simpl. by rewrite Nat.sub_0_r. }
  destruct ((len acc2 <? limit) && below k (upper_bound prefix)) eqn:E.
  - destruct (IHr fuel e2 acc2) as (e3 & Hrun3 & Hs3);
      [simpl in Hd; lia|done|by eapply shows_same|done|].
    exists e3. split; [done|]. by do 2 (etrans; [eassumption|]).
  - exists e2. split; [|by etrans]. apply andb_false_iff in E as [E|E].
    + rewrite take_all, app_nil_r; [done|]. apply Z.ltb_ge in E. unfold quota. lia.
    + unfold fr. rewrite filter_none, take_nil, app_nil_r; [done|]. intros x Hx.
      destruct (page_filter prefix after x) eqn:Ex; [|done].
      apply andb_true_iff in Ex as [Ex _]. apply below_upper_bound in Ex.
      apply (below_mono k x) in E; [congruence|auto].
Qed.

(** ** [entries] *)

(** The tree an id unfolds to in any editor, well-formed or not. *)
Inductive loads (e : editor) : Id → tree → Prop :=
| loads_null : loads e zero_id Leaf
| loads_node id n l r :
    id ≠ zero_id → peek j e id = Ok n → loads e (left n) l → loads e (right n) r →
    loads e id (Branch l (key n) (value n) r).

Lemma loads_same e e' id t : same j e e' → loads e' id t → loads e id t.
Proof.
  intros [Hp _]. induction 1; [constructor|].
  rewrite Hp in *. by econstructor.
Qed.

Lemma stored_loads e t : shows e t → loads e (mid t) t.
Proof.
  intros [Hs Hn]. induction t as [|l IHl k v r IHr]; [constructor|].
  destruct Hs as (Hp & Hl & Hr). apply nonnull_Branch in Hn as (Hz & Hnl & Hnr).
  apply bool_decide_eq_false in Hz.
  apply (loads_node e _ (root_node l k v r)); auto.
Qed.

(** A child slot that passes the heap check. *)
Definition child_ok (e : editor) (child : Id) (n : Node) : Prop :=
  child = zero_id ∨ ∃ c, peek j e child = Ok c ∧ higher c n = false.

Lemma child_ok_same e e' child n : same j e e' → child_ok e' child n → child_ok e child n.
Proof.
  intros [Hp _] [?|(c & Hc & Hh)]; [by left|]. right. exists c. by rewrite <- Hp.
Qed.

Lemma heap_check_inv e e' child n :
  heap_check j child n e = (e', Ok tt) →
  same j e e' ∧ child_ok e child n.
Proof.
  unfold heap_check. case_bool_decide as Hc; [intros [= <-]; split; [done|by left]|].
  intros (c & e1 & Hn & Hm)%st_bind_Ok. unfold st_need, lift, need in Hm.
  destruct (node_run j e child) as (e2 & Hr & Hs). rewrite Hr in Hn.
  injection Hn as -> Hpk. destruct (higher c n) eqn:Hh; simpl in Hm; [done|].
  injection Hm as <-. split; [done|]. right. eauto.
Qed.

(** The keys collected so far lie at or below the lower bound. *)
Definition collected_below (m : gmap Bytes Id) (lo : option Bytes) : Prop :=
  ∀ x, is_Some (m !! x) → ∃ l, lo = Some l ∧ lex_le x l.

Lemma bound_ok_lo lo hi k : bound_ok lo hi k = true → ∀ l, lo = Some l → lex_lt l k.
Proof. intros [Hlo _]%andb_true_iff ? ->. done. Qed.
Lemma bound_ok_hi lo hi k : bound_ok lo hi k = true → ∀ h, hi = Some h → lex_lt k h.
Proof. intros [_ Hhi]%andb_true_iff ? ->. done. Qed.

Lemma collected_fresh m lo hi k :
  collected_below m lo → bound_ok lo hi k = true → m !! k = None.
Proof.
  intros Hc Hb. destruct (m !! k) as [w|] eqn:E; [|done]. exfalso.
  destruct (Hc k) as (l & Hlo & Hle); [eauto|]. apply (bound_ok_lo _ _ _ Hb) in Hlo.
  apply lex_le_lt_eq in Hle as [?| ->]; [by apply (lex_lt_asym k l)|].
  by apply (irreflexivity lex_lt l).
Qed.

(** A child that passed the heap check is outranked by its parent. *)
Lemma beats_checked `{!PriorityOrder higher_key} e child n t :
  loads e child t → key n ∉ keys_of t →
  child_ok e child n →
  beats higher_key (key n) t.
Proof.
  intros Hl Hk Hc. destruct Hl as [|id c l r Hz Hp ? ?]; [done|]. simpl.
  destruct Hc as [?|(c' & Hp' & Hh)]; [done|]. rewrite Hp in Hp'. injection Hp' as <-.
  destruct (higher_total (key n) (key c)) as [|Hx]; [|done|].
  - intros Heq. apply Hk. rewrite keys_of_Branch, Heq. set_solver.
  - unfold higher in Hh. congruence.
Qed.

Lemma to_map_Branch_union (l : tree) (k : Bytes) (v : Id) (r : tree) (acc : gmap Bytes Id) :
  (list_to_map (elements_of r) : gmap Bytes Id) ∪
    <[k := v]> ((list_to_map (elements_of l) : gmap Bytes Id) ∪ acc) =
  (list_to_map (elements_of (Branch l k v r)) : gmap Bytes Id) ∪ acc ∨
  ¬ bst (Branch l k v r).
Proof.
  destruct (decide (NoDup (keys_of (Branch l k v r)))) as [Hnd|Hnd];
    [left|right; by intros ?%bst_NoDup].
  rewrite keys_of_Branch in Hnd. simpl. rewrite list_to_map_app. simpl.
  apply NoDup_app in Hnd as (_ & Hlr & Hr). apply NoDup_cons in Hr as [Hkr _].
  apply map_eq. intros x. rewrite !lookup_union. rewrite !lookup_insert, lookup_union.
  destruct (list_to_map (elements_of r) !! x) as [w|] eqn:Er.
  - apply elem_of_list_to_map_2 in Er.
    assert (x ∈ keys_of r) as Hxr by (apply list_elem_of_fmap; by exists (x, w)).
    assert (k ≠ x) by (intros ->; done). rewrite !decide_False by done.
    rewrite (not_elem_of_list_to_map_1 (M := gmap Bytes) (elements_of l) x).
    + by destruct (acc !! x).
    + intros Hxl. apply (Hlr x Hxl). by right.
  - case_decide; [|by destruct (list_to_map (elements_of l) !! x), (acc !! x)].
    subst x. rewrite (not_elem_of_list_to_map_1 (M := gmap Bytes) (elements_of l) k).
    + by destruct (acc !! k).
    + intros Hxl. apply (Hlr k Hxl). by left.
Qed.

Lemma bound_ok_left lo hi k x :
  bound_ok lo hi k = true → bound_ok lo (Some k) x = true → bound_ok lo hi x = true.
Proof.
  intros Hk Hx. apply andb_true_iff. split.
  - destruct lo; [|done]. by apply (bound_ok_lo _ _ _ Hx).
  - destruct hi as [h|]; [|done]. change (lex_lt x h).
    etrans; [by apply (bound_ok_hi _ _ _ Hx)|by apply (bound_ok_hi _ _ _ Hk)].
Qed.

Lemma bound_ok_right lo hi k x :
  bound_ok lo hi k = true → bound_ok (Some k) hi x = true → bound_ok lo hi x = true.
Proof.
  intros Hk Hx. apply andb_true_iff. split.
  - destruct lo as [l|]; [|done]. change (lex_lt l x).
    etrans; [by apply (bound_ok_lo _ _ _ Hk)|by apply (bound_ok_lo _ _ _ Hx)].
  - destruct hi; [|done]. by apply (bound_ok_hi _ _ _ Hx).
Qed.

(** What one accepted visit of [entries] checked, and its two recursive calls. *)
Lemma entries_walk_step fuel id lo hi acc vis e e' out :
  entries_walk j (S fuel) id lo hi acc vis e = (e', Ok out) → id ≠ zero_id →
  ∃ n e1 e2 res1 vis1,
    peek j e id = Ok n ∧ bound_ok lo hi (key n) = true ∧ same j e e1 ∧
    child_ok e (left n) n ∧ child_ok e (right n) n ∧
    entries_walk j fuel (left n) lo (Some (key n)) acc ({[id]} ∪ vis) e1 =
      (e2, Ok (res1, vis1)) ∧
    entries_walk j fuel (right n) (Some (key n)) hi
      (match res1 !! key n with Some _ => res1 | None => <[key n := value n]> res1 end)
      vis1 e2 = (e', Ok out).
Proof.
  intros Hrun Hz. cbn [entries_walk] in Hrun. rewrite bool_decide_eq_false_2 in Hrun by done.
  apply st_bind_Ok in Hrun as ([] & e0 & Hvis & Hrun).
  unfold st_need, lift, need in Hvis. case_bool_decide; simplify_eq/=.
  apply st_bind_Ok in Hrun as (n & e1 & Hn & Hrun).
  destruct (node_run j e0 id) as (e1' & Hr & Hs1). rewrite Hr in Hn. injection Hn as -> Hpk.
  apply st_bind_Ok in Hrun as ([] & e2 & Hb & Hrun).
  unfold st_need, lift, need in Hb. destruct (bound_ok lo hi (key n)) eqn:Hbound; [|done].
  injection Hb as <-.
  apply st_bind_Ok in Hrun as ([] & e3 & [Hs3 Hchk]%heap_check_inv & Hrun).
  apply st_bind_Ok in Hrun as ([] & e4 & [Hs4 Hchk']%heap_check_inv & Hrun).
  apply st_bind_Ok in Hrun as ([res1 vis1] & e5 & Hleft & Hright).
  assert (same j e0 e3) as Hs03 by (by etrans).
  exists n, e4, e5, res1, vis1. split_and!; [done|done|by etrans|..|done|done].
  - by apply (child_ok_same e0 e1).
  - by apply (child_ok_same e0 e3).
Qed.

Lemma collected_below_insert (lo hi : option Bytes) (n : Node) (l : tree) (acc : gmap Bytes Id) :
  collected_below acc lo → bound_ok lo hi (key n) = true →
  (∀ x, x ∈ keys_of l → lex_lt x (key n)) →
  collected_below (<[key n := value n]> ((list_to_map (elements_of l) : gmap Bytes Id) ∪ acc))
    (Some (key n)).
Proof.
  intros Hacc Hbound Hlt x Hx. exists (key n). split; [done|].
  apply lookup_insert_is_Some in Hx.
  destruct Hx as [->|[_ Hx]]; apply lex_le_lt_eq; [by right|].
  apply lookup_union_is_Some in Hx as [[w Hx]|Hx].
  - apply elem_of_list_to_map_2 in Hx. left. apply Hlt.
    apply list_elem_of_fmap. by exists (x, w).
  - destruct (Hacc x Hx) as (l0 & Hl0 & Hle%lex_le_lt_eq). left.
    pose proof (bound_ok_lo _ _ _ Hbound _ Hl0) as Hl0k.
    destruct Hle as [?| ->]; [by etrans|done].
Qed.

(** Whatever the store contains, [entries] accepts only a treap, and returns its map. *)
Lemma entries_walk_sound `{!PriorityOrder higher_key} fuel : ∀ id lo hi acc vis e e' res vis',
  entries_walk j fuel id lo hi acc vis e = (e', Ok (res, vis')) → collected_below acc lo →
  same j e e' ∧ ∃ t, loads e id t ∧ treap higher_key t ∧ (depth t ≤ fuel)%nat ∧
    (∀ x, x ∈ keys_of t → bound_ok lo hi x = true) ∧
    res = (list_to_map (elements_of t) : gmap Bytes Id) ∪ acc.
Proof.
  induction fuel as [|fuel IH]; intros id lo hi acc vis e e' res vis' Hrun Hacc;
    destruct (decide (id = zero_id)) as [->|Hz].
  1,3: cbn [entries_walk] in Hrun; rewrite bool_decide_eq_true_2 in Hrun by done;
    injection Hrun as <- <- <-; split; [done|]; exists Leaf;
    split_and!; [apply loads_null|apply treap_Leaf|simpl; lia|set_solver|];
    simpl; by rewrite (left_id_L ∅ (∪)).
  { cbn [entries_walk] in Hrun. by rewrite bool_decide_eq_false_2 in Hrun. }
  apply entries_walk_step in Hrun
    as (n & e1 & e2 & res1 & vis1 & Hpk & Hbound & Hs1 & Hcl & Hcr & Hleft & Hright); [|done].
  destruct (IH _ _ _ _ _ _ _ _ _ Hleft Hacc) as (Hs2 & l & Hll & [Hbl Hhl] & Hdl & Hlo & ->).
  assert (∀ x, x ∈ keys_of l → lex_lt x (key n)) as Hlt.
  { intros x Hx. by apply (bound_ok_hi _ _ _ (Hlo x Hx)). }
  assert (((list_to_map (elements_of l) : gmap Bytes Id) ∪ acc) !! key n = None) as Hfresh.
  { apply lookup_union_None. split; [|by eapply collected_fresh].
    apply not_elem_of_list_to_map_1. intros Hx%Hlt. by apply (irreflexivity lex_lt (key n)). }
  rewrite Hfresh in Hright.
  destruct (IH _ _ _ _ _ _ _ _ _ Hright) as (Hs3 & r & Hlr & [Hbr Hhr] & Hdr & Hlo' & ->).
  { by eapply collected_below_insert. }
  assert (∀ x, x ∈ keys_of r → lex_lt (key n) x) as Hgt.
  { intros x Hx. by apply (bound_ok_lo _ _ _ (Hlo' x Hx)). }
  assert (loads e (left n) l) as Hl0 by (by eapply loads_same).
  assert (loads e (right n) r) as Hr0 by (eapply loads_same; [|exact Hlr]; by etrans).
  split; [etrans; [exact Hs1|]; by etrans|].
  exists (Branch l (key n) (value n) r).
  assert (bst (Branch l (key n) (value n) r)) as Hb by (by apply bst_Branch).
  split_and!; [by apply (loads_node e id n)|split; [done|]|simpl; lia| |].
  - split_and!; [| |done|done]; (eapply beats_checked; [eassumption| |done]).
    + intros Hx%Hlt. by apply (irreflexivity lex_lt (key n)).
    + intros Hx%Hgt. by apply (irreflexivity lex_lt (key n)).
  - intros x. rewrite keys_of_Branch, elem_of_app, elem_of_cons. intros [Hx|[->|Hx]]; [|done|].
    + eapply bound_ok_left; [exact Hbound|auto].
    + eapply bound_ok_right; [exact Hbound|auto].
  - by destruct (to_map_Branch_union l (key n) (value n) r acc).
Qed.
End Read.
