(* ===== verification/MetadataTreeEdit.v ===== *)
(** * Correctness of the editing operations of the metadata treap

    [merge], [set], the batch loop and [apply] of [MetadataTree] compute, on every
    search tree the editor represents, the id of the tree that [Treap] computes;
    the plan of [apply] publishes exactly what the new root needs. *)

From S2P Require Import Prelude Codec Treap MetadataTree MetadataTreeProofs.
Import MetadataTree.
Local Open Scope Z_scope.

#[global] Instance higher_key_order `{Digest} : PriorityOrder higher_key.
Proof.
  unfold higher_key. split.
  - intros a. rewrite bool_decide_eq_true_2 by done.
    apply lex_not_lt, lex_le_lt_eq. by right.
  - intros a b c.
    destruct (decide (priority a = priority b)) as [Hab|Hab],
      (decide (priority b = priority c)) as [Hbc|Hbc].
    + rewrite !bool_decide_eq_true_2 by congruence.
      intros Hba Hcb. by apply (lex_lt_trans c b a).
    + rewrite bool_decide_eq_true_2, !bool_decide_eq_false_2 by congruence.
      by rewrite Hab.
    + rewrite bool_decide_eq_false_2, bool_decide_eq_true_2, bool_decide_eq_false_2
        by congruence. by rewrite Hbc.
    + rewrite !bool_decide_eq_false_2 by done. intros Hba Hcb.
      assert (lex_lt (priority c) (priority a)) as Hca by (by etrans).
      case_bool_decide as Hac; [|done]. rewrite Hac in Hca.
      by destruct (irreflexivity lex_lt (priority c)).
  - intros a b Hne. case_bool_decide as Hab.
    + rewrite bool_decide_eq_true_2 by done.
      destruct (lex_trichotomy b a) as [|[|]]; [by left|congruence|by right].
    + rewrite bool_decide_eq_false_2 by congruence.
      destruct (lex_trichotomy (priority b) (priority a)) as [|[|]]; [by left|congruence|by right].
Qed.

Section Edit.
Context `{DigestOk} {J : Type} `{ObjectStore J} (j : J).
Context (U : list (Bytes * Id)) (HU : collision_free U).

Abbreviation tmerge := (tmerge higher_key).
Abbreviation tset_opt := (tset_opt higher_key).
Abbreviation tset := (tset higher_key).
Abbreviation tset_all := (tset_all higher_key).
Abbreviation extends := (extends j U).
Abbreviation session := (session j U).
Abbreviation stored := (stored j).

(** No subtree of [t] has been visited. *)
Definition unseen (visited : gset Id) (t : tree) : Prop :=
  ∀ s, s ∈ subtrees t → mid s ∉ visited.

Lemma unseen_left visited l k v r : unseen visited (Branch l k v r) → unseen visited l.
Proof. intros Hs s Hin. apply Hs. simpl. set_solver. Qed.
Lemma unseen_right visited l k v r : unseen visited (Branch l k v r) → unseen visited r.
Proof. intros Hs s Hin. apply Hs. simpl. set_solver. Qed.
Lemma unseen_add visited id t :
  unseen visited t → (∀ s, s ∈ subtrees t → mid s ≠ id) → unseen ({[id]} ∪ visited) t.
Proof. intros Hs Hne s Hin. specialize (Hs s Hin). specialize (Hne s Hin). set_solver. Qed.
Lemma unseen_empty t : unseen ∅ t.
Proof. intros s _. set_solver. Qed.
Lemma unseen_root visited l k v r :
  unseen visited (Branch l k v r) → mid (Branch l k v r) ∉ visited.
Proof. intros Hs. apply Hs. simpl. set_solver. Qed.

Lemma bool_decide_mid l k v r :
  tree_in U (Branch l k v r) → bool_decide (mid (Branch l k v r) = zero_id) = false.
Proof. intros Ht. apply bool_decide_eq_false_2. by eapply mid_nonzero. Qed.

Lemma tree_in_tmerge l r :
  tree_in U l → tree_in U r → (∀ x y, x ∈ keys_of l → y ∈ keys_of r → lex_lt x y) →
  tree_in U (tmerge l r).
Proof.
  intros [Hbl HUl] [Hbr HUr] Hlr. split.
  - unfold bst. rewrite keys_tmerge. by apply increasing_app.
  - intros p. rewrite elements_tmerge, elem_of_app. intros [|]; auto.
Qed.

Lemma tmerge_Branch ll lk lv lr rl rk rv rr :
  tmerge (Branch ll lk lv lr) (Branch rl rk rv rr) =
  if higher_key lk rk then Branch ll lk lv (tmerge lr (Branch rl rk rv rr))
  else Branch (tmerge (Branch ll lk lv lr) rl) rk rv rr.
Proof. done. Qed.

Lemma unseen_child_left visited l k v r :
  tree_in U (Branch l k v r) → unseen visited (Branch l k v r) →
  unseen ({[mid (Branch l k v r)]} ∪ visited) l.
Proof.
  intros Ht Hs. apply tree_in_Branch in Ht as Ht'. destruct Ht' as (Hl & _).
  apply unseen_add; [by eapply unseen_left|]. intros s Hin.
  apply (mid_fresh_sub U HU _ _ l); [done..|simpl; lia].
Qed.

Lemma unseen_child_right visited l k v r :
  tree_in U (Branch l k v r) → unseen visited (Branch l k v r) →
  unseen ({[mid (Branch l k v r)]} ∪ visited) r.
Proof.
  intros Ht Hs. apply tree_in_Branch in Ht as Ht'. destruct Ht' as (_ & Hr & _).
  apply unseen_add; [by eapply unseen_right|]. intros s Hin.
  apply (mid_fresh_sub U HU _ _ r); [done..|simpl; lia].
Qed.

Lemma unseen_disjoint visited t u :
  tree_in U t → tree_in U u → (∀ x, x ∈ keys_of t → x ∈ keys_of u → False) →
  unseen visited u → unseen ({[mid t]} ∪ visited) u.
Proof.
  intros Ht Hu Hd Hs. apply unseen_add; [done|]. intros s Hin.
  by apply (mid_fresh_keys U HU _ _ u).
Qed.

Lemma extends_session e e' : extends e e' → session e → session e'.
Proof. by intros (_ & _ & _ & _ & ? & _). Qed.

Lemma extends_stored e e' t : extends e e' → tree_in U t → stored e t → stored e' t.
Proof. intros (_ & _ & _ & _ & _ & ?). auto. Qed.

Context (HUok : entries_ok U).

(** Building the node of a tree whose children are represented. *)
Lemma make_extends e l k v r :
  session e → tree_in U (Branch l k v r) → stored e l → stored e r →
  ∃ e', make (root_node l k v r) e = (e', Ok (mid (Branch l k v r))) ∧
    extends e e' ∧ stored e' (Branch l k v r).
Proof.
  intros Hse Ht Hl Hr. destruct (make_run j U HU HUok e l k v r Ht Hl Hr) as (e' & Hm & Hx).
  destruct (Hx Hse). eauto.
Qed.

Lemma check_unseen visited l k v r (msg : string) (e : editor) :
  unseen visited (Branch l k v r) →
  st_need (bool_decide (mid (Branch l k v r) ∉ visited)) msg e = (e, Ok tt).
Proof.
  intros Hs. unfold st_need, lift. rewrite bool_decide_eq_true_2; [done|].
  by apply unseen_root.
Qed.

(** The outcome of the descent of [merge]: rebuilding the recorded path gives
    the merged tree. *)
Definition merge_done (e : editor) (l r : tree) (path : list (Node * bool))
    (out : editor * result (Id * list (Node * bool))) : Prop :=
  ∃ e1 res new, out = (e1, Ok (res, new ++ path)) ∧ extends e e1 ∧
    ∀ e2 rest, extends e1 e2 → session e2 →
      ∃ e3, merge_rebuild (new ++ rest) res e2 = merge_rebuild rest (mid (tmerge l r)) e3 ∧
        extends e2 e3 ∧ stored e3 (tmerge l r).

Lemma merge_done_here e t l r path :
  tree_in U t → stored e t → tmerge l r = t →
  merge_done e l r path (e, Ok (mid t, path)).
Proof.
  intros Ht Hs <-. exists e, (mid (tmerge l r)), []. split_and!; [done..|].
  intros e2 rest Hx _. exists e2. split_and!; [done..|]. by eapply extends_stored.
Qed.

Lemma merge_done_right e e1 ll lk lv lr r path out :
  tree_in U (Branch ll lk lv (tmerge lr r)) → stored e ll → tree_in U ll →
  tmerge (Branch ll lk lv lr) r = Branch ll lk lv (tmerge lr r) → extends e e1 →
  merge_done e1 lr r ((root_node ll lk lv lr, true) :: path) out →
  merge_done e (Branch ll lk lv lr) r path out.
Proof.
  intros Hm Hsl Hll He Hx1 (e3 & res & new & -> & Hx3 & Hreb).
  exists e3, res, (new ++ [(root_node ll lk lv lr, true)]).
  split_and!; [by rewrite <- app_assoc|by etrans|].
  intros e4 rest Hx4 Hse4. rewrite <- app_assoc.
  destruct (Hreb e4 ((root_node ll lk lv lr, true) :: rest) Hx4 Hse4) as (e5 & Hrb & Hx5 & Hst5).
  assert (stored e5 ll) as Hll5.
  { eapply extends_stored; [|done..]. do 3 (etrans; [eassumption|]). done. }
  destruct (make_extends e5 ll lk lv _ (extends_session _ _ Hx5 Hse4) Hm Hll5 Hst5)
    as (e6 & Hmk & Hx6 & Hst6).
  exists e6. rewrite He. split_and!; [|by etrans|done].
  cbn [app]. rewrite Hrb. cbn [merge_rebuild]. by rewrite (st_bind_run _ _ _ _ _ Hmk).
Qed.

Lemma merge_done_left e e1 l rl rk rv rr path out :
  tree_in U (Branch (tmerge l rl) rk rv rr) → stored e rr → tree_in U rr →
  tmerge l (Branch rl rk rv rr) = Branch (tmerge l rl) rk rv rr → extends e e1 →
  merge_done e1 l rl ((root_node rl rk rv rr, false) :: path) out →
  merge_done e l (Branch rl rk rv rr) path out.
Proof.
  intros Hm Hsr Hrr He Hx1 (e3 & res & new & -> & Hx3 & Hreb).
  exists e3, res, (new ++ [(root_node rl rk rv rr, false)]).
  split_and!; [by rewrite <- app_assoc|by etrans|].
  intros e4 rest Hx4 Hse4. rewrite <- app_assoc.
  destruct (Hreb e4 ((root_node rl rk rv rr, false) :: rest) Hx4 Hse4) as (e5 & Hrb & Hx5 & Hst5).
  assert (stored e5 rr) as Hrr5.
  { eapply extends_stored; [|done..]. do 3 (etrans; [eassumption|]). done. }
  destruct (make_extends e5 _ rk rv rr (extends_session _ _ Hx5 Hse4) Hm Hst5 Hrr5)
    as (e6 & Hmk & Hx6 & Hst6).
  exists e6. rewrite He. split_and!; [|by etrans|done].
  cbn [app]. rewrite Hrb. cbn [merge_rebuild]. by rewrite (st_bind_run _ _ _ _ _ Hmk).
Qed.

Lemma merge_descend_run l r : ∀ fuel path visited e,
  (count l + count r ≤ fuel)%nat →
  tree_in U l → tree_in U r → (∀ x y, x ∈ keys_of l → y ∈ keys_of r → lex_lt x y) →
  stored e l → stored e r → unseen visited l → unseen visited r →
  merge_done e l r path (merge_descend j fuel (mid l) (mid r) path visited e).
Proof.
  revert r. induction l as [|ll IHll lk lv lr IHlr]; intros r.
  { intros [|fuel] path visited e Hf Hl Hr Hlr Hsl Hsr _ _; by apply merge_done_here. }
  induction r as [|rl IHrl rk rv rr IHrr];
    intros fuel path visited e Hf Hl Hr Hlr Hsl Hsr Hul Hur.
  { pose proof (bool_decide_mid _ _ _ _ Hl) as Hd.
    replace (merge_descend j fuel (mid (Branch ll lk lv lr)) (mid Leaf) path visited e)
      with (e, Ok (mid (Branch ll lk lv lr), path)); [by apply merge_done_here|].
    destruct fuel; simpl in Hd |- *; by rewrite Hd. }
  destruct fuel as [|fuel]; [simpl in Hf; lia|].
  apply tree_in_Branch in Hl as Hl'. destruct Hl' as (Hll & Hlr' & Hlkv).
  apply tree_in_Branch in Hr as Hr'. destruct Hr' as (Hrl & Hrr & Hrkv).
  destruct (node_extends j U e _ _ _ _ _ eq_refl Hsl) as (e1 & Hn1 & Hx1 & Hs1).
  assert (stored e1 (Branch rl rk rv rr)) as Hsr1 by (by eapply stored_same).
  destruct (node_extends j U e1 _ _ _ _ _ eq_refl Hsr1) as (e2 & Hn2 & Hx2 & Hs2).
  assert (same j e e2) as Hs12 by (by etrans).
  assert (extends e e2) as Hx12 by (by etrans).
  assert (∀ x, x ∈ keys_of (Branch ll lk lv lr) → x ∈ keys_of (Branch rl rk rv rr) → False) as Hdis.
  { intros x Hx Hx'. apply (irreflexivity lex_lt x). by apply Hlr. }
  pose proof (tree_in_tmerge _ _ Hl Hr Hlr) as Hm.
  cbn [merge_descend]. rewrite !bool_decide_mid by done.
  rewrite (st_bind_run _ _ _ _ _ Hn1), (st_bind_run _ _ _ _ _ Hn2).
  unfold higher. cbn [key root_node]. rewrite tmerge_Branch in Hm.
  destruct Hsl as (Hpl & Hsll & Hslr), Hsr as (Hpr & Hsrl & Hsrr).
  destruct (higher_key lk rk) eqn:Hh.
  - rewrite (st_bind_run _ _ _ _ _ (check_unseen _ _ _ _ _ _ _ Hul)).
    eapply merge_done_right; [done..|by rewrite tmerge_Branch, Hh|exact Hx12|].
    apply IHlr; [simpl in Hf |- *; lia|done..| | | | |].
    + intros x y Hx. apply Hlr. rewrite keys_of_Branch. set_solver.
    + by eapply stored_same.
    + by eapply stored_same; [|by split_and!].
    + by apply unseen_child_right.
    + by apply unseen_disjoint.
  - rewrite (st_bind_run _ _ _ _ _ (check_unseen _ _ _ _ _ _ _ Hur)).
    eapply merge_done_left; [done..|by rewrite tmerge_Branch, Hh|exact Hx12|].
    apply IHrl; [simpl in Hf |- *; lia|done..| | | | |].
    + intros x y Hx Hy. apply Hlr; [done|]. rewrite keys_of_Branch. set_solver.
    + by eapply stored_same; [|by split_and!].
    + by eapply stored_same.
    + apply unseen_disjoint; [done..| |done]. intros x Hx Hx'. by apply (Hdis x).
    + by apply unseen_child_left.
Qed.

(** The loop bound is never reached on a represented tree. *)
Lemma count_loadable e t :
  ObjectStoreOk J → tree_in U t → stored e t → (count t ≤ size (loadable j e))%nat.
Proof.
  intros Hok Ht Hs. rewrite <- length_subtrees, <- (length_fmap mid).
  pose proof (NoDup_subtrees U HU t Ht) as Hnd.
  rewrite <- (size_list_to_set (C := gset Id)) by done.
  apply subseteq_size. intros id (s & -> & Hin)%elem_of_list_to_set%list_elem_of_fmap.
  pose proof (stored_subtrees j _ _ _ Hs Hin) as Hss.
  destruct s as [|l k v r].
  { clear -Hin. induction t; simpl in *; set_solver. }
  destruct Hss as (Hp & _). unfold peek in Hp. unfold loadable.
  destruct (cache_ e !! _) eqn:Hc.
  - apply elem_of_union_l, elem_of_dom. eauto.
  - apply elem_of_union_r. apply bind_Ok in Hp as (b & Hg & _). by eapply get_object_ids.
Qed.

Context `{!ObjectStoreOk J}.

(** [merge] of the children of a represented node. *)
Lemma merge_run e l k v r :
  session e → tree_in U (Branch l k v r) → stored e (Branch l k v r) →
  ∃ e', merge j (mid l) (mid r) e = (e', Ok (mid (tmerge l r))) ∧
    extends e e' ∧ stored e' (tmerge l r).
Proof.
  intros Hse Ht Hs. pose proof (count_loadable e _ _ Ht Hs) as Hc.
  destruct Ht as [Hb HUt]. apply bst_Branch in Hb as Hb'.
  destruct Hb' as (_ & _ & Hlt & Hgt).
  destruct (tree_in_Branch U l k v r (conj Hb HUt)) as (Hl & Hr & _).
  destruct Hs as (_ & Hsl & Hsr). unfold merge.
  rewrite (st_bind_run _ _ e e e) by done.
  destruct (merge_descend_run l r (loop_bound j e) [] ∅ e) as (e1 & res & new & Hrun & Hx1 & Hreb);
    [..|].
  { unfold loop_bound. simpl in Hc. lia. }
  { done. } { done. }
  { intros x y Hx Hy. etrans; [by apply Hlt|by apply Hgt]. }
  { done. } { done. } { apply unseen_empty. } { apply unseen_empty. }
  destruct (Hreb e1 []) as (e3 & Hrb & Hx3 & Hst3); [done|by eapply extends_session|].
  exists e3. split_and!; [|by etrans|done].
  rewrite (st_bind_run _ _ _ _ _ Hrun). by rewrite Hrb.
Qed.

(** One iteration of the rebuilding loop of [set]. *)
Lemma rebuild_step_left e l l' k v r :
  session e → tree_in U l' → tree_in U (attach_left higher_key l' k v r) →
  stored e l' → stored e r →
  ∃ e', set_rebuild_step j (root_node l k v r) true (mid l') e =
      (e', Ok (mid (attach_left higher_key l' k v r))) ∧
    extends e e' ∧ stored e' (attach_left higher_key l' k v r).
Proof.
  intros Hse Hl' Ht Hs' Hsr. unfold set_rebuild_step.
  change (with_left (root_node l k v r) (mid l')) with (root_node l' k v r).
  destruct l' as [|tl tk tv tr]; [by apply make_extends|]. cbn [left root_node attach_left] in *.
  rewrite bool_decide_mid by done.
  destruct (node_extends j U e _ _ _ _ _ eq_refl Hs') as (e1 & Hn1 & Hx1 & Hs1).
  rewrite (st_bind_run _ _ _ _ _ Hn1). unfold higher. cbn [key root_node].
  pose proof (extends_session _ _ Hx1 Hse) as Hse1.
  assert (stored e1 r) as Hsr1 by (by eapply stored_same).
  assert (stored e1 (Branch tl tk tv tr)) as Hs1' by (by eapply stored_same).
  destruct (higher_key tk k).
  - destruct Hs1' as (_ & Hstl & Hstr).
    apply tree_in_Branch in Ht as Ht'. destruct Ht' as (Htl & Hin & _).
    destruct (make_extends e1 tr k v r Hse1 Hin Hstr Hsr1) as (e2 & Hm2 & Hx2 & Hs2).
    rewrite (st_bind_run _ _ _ _ _ Hm2).
    destruct (make_extends e2 tl tk tv (Branch tr k v r) (extends_session _ _ Hx2 Hse1) Ht)
      as (e3 & Hm3 & Hx3 & Hs3); [by eapply extends_stored|done|].
    exists e3. split_and!; [done|by do 2 (etrans; [eassumption|])|done].
  - destruct (make_extends e1 _ k v r Hse1 Ht Hs1' Hsr1) as (e2 & Hm2 & Hx2 & Hs2).
    exists e2. split_and!; [done|by etrans|done].
Qed.

Lemma rebuild_step_right e l k v r r' :
  session e → tree_in U r' → tree_in U (attach_right higher_key l k v r') →
  stored e l → stored e r' →
  ∃ e', set_rebuild_step j (root_node l k v r) false (mid r') e =
      (e', Ok (mid (attach_right higher_key l k v r'))) ∧
    extends e e' ∧ stored e' (attach_right higher_key l k v r').
Proof.
  intros Hse Hr' Ht Hsl Hs'. unfold set_rebuild_step.
  change (with_right (root_node l k v r) (mid r')) with (root_node l k v r').
  destruct r' as [|tl tk tv tr]; [by apply make_extends|]. cbn [right root_node attach_right] in *.
  rewrite bool_decide_mid by done.
  destruct (node_extends j U e _ _ _ _ _ eq_refl Hs') as (e1 & Hn1 & Hx1 & Hs1).
  rewrite (st_bind_run _ _ _ _ _ Hn1). unfold higher. cbn [key root_node].
  pose proof (extends_session _ _ Hx1 Hse) as Hse1.
  assert (stored e1 l) as Hsl1 by (by eapply stored_same).
  assert (stored e1 (Branch tl tk tv tr)) as Hs1' by (by eapply stored_same).
  destruct (higher_key tk k).
  - destruct Hs1' as (_ & Hstl & Hstr).
    apply tree_in_Branch in Ht as Ht'. destruct Ht' as (Hin & Htr & _).
    destruct (make_extends e1 l k v tl Hse1 Hin Hsl1 Hstl) as (e2 & Hm2 & Hx2 & Hs2).
    rewrite (st_bind_run _ _ _ _ _ Hm2).
    destruct (make_extends e2 (Branch l k v tl) tk tv tr (extends_session _ _ Hx2 Hse1) Ht)
      as (e3 & Hm3 & Hx3 & Hs3); [done|by eapply extends_stored|].
    exists e3. split_and!; [done|by do 2 (etrans; [eassumption|])|done].
  - destruct (make_extends e1 l k v _ Hse1 Ht Hsl1 Hs1') as (e2 & Hm2 & Hx2 & Hs2).
    exists e2. split_and!; [done|by etrans|done].
Qed.

(** The outcome of the descent of [set]. *)
Definition set_done (e : editor) (t' : option tree) (path : list (Node * bool))
    (out : editor * result (option (Id * list (Node * bool)))) : Prop :=
  match t' with
  | None => ∃ e1, out = (e1, Ok None) ∧ extends e e1
  | Some t' =>
      ∃ e1 res new, out = (e1, Ok (Some (res, new ++ path))) ∧ extends e e1 ∧
        ∀ e2 rest, extends e1 e2 → session e2 →
          ∃ e3, set_rebuild j (new ++ rest) res e2 = set_rebuild j rest (mid t') e3 ∧
            extends e2 e3 ∧ stored e3 t'
  end.

Lemma set_done_here e e1 t' path :
  tree_in U t' → extends e e1 → stored e1 t' →
  set_done e (Some t') path (e1, Ok (Some (mid t', path))).
Proof.
  intros Ht Hx Hs. exists e1, (mid t'), []. split_and!; [done..|].
  intros e2 rest Hx2 _. exists e2. split_and!; [done..|]. by eapply extends_stored.
Qed.

Lemma set_done_left e e1 (ol : option tree) l k v r path out :
  (∀ l', ol = Some l' → tree_in U l' ∧ tree_in U (attach_left higher_key l' k v r)) →
  tree_in U r → stored e r → extends e e1 →
  set_done e1 ol ((root_node l k v r, true) :: path) out →
  set_done e ((λ l', attach_left higher_key l' k v r) <$> ol) path out.
Proof.
  intros HT Hr Hsr Hx1. destruct ol as [l'|]; simpl.
  - intros (e2 & res & new & -> & Hx2 & Hreb). destruct (HT l' eq_refl) as [Hl' Ht].
    exists e2, res, (new ++ [(root_node l k v r, true)]).
    split_and!; [by rewrite <- app_assoc|by etrans|].
    intros e3 rest Hx3 Hse3. rewrite <- app_assoc.
    destruct (Hreb e3 ((root_node l k v r, true) :: rest) Hx3 Hse3) as (e4 & Hrb & Hx4 & Hs4).
    destruct (rebuild_step_left e4 l l' k v r) as (e5 & Hst & Hx5 & Hs5);
      [by eapply extends_session|done..| |].
    { eapply extends_stored; [|done..]. by do 3 (etrans; [eassumption|]). }
    exists e5. split_and!; [|by etrans|done].
    cbn [app]. rewrite Hrb. cbn [set_rebuild]. by rewrite (st_bind_run _ _ _ _ _ Hst).
  - intros (e2 & -> & Hx2). exists e2. split; [done|by etrans].
Qed.

Lemma set_done_right e e1 (or : option tree) l k v r path out :
  (∀ r', or = Some r' → tree_in U r' ∧ tree_in U (attach_right higher_key l k v r')) →
  tree_in U l → stored e l → extends e e1 →
  set_done e1 or ((root_node l k v r, false) :: path) out →
  set_done e ((λ r', attach_right higher_key l k v r') <$> or) path out.
Proof.
  intros HT Hl Hsl Hx1. destruct or as [r'|]; simpl.
  - intros (e2 & res & new & -> & Hx2 & Hreb). destruct (HT r' eq_refl) as [Hr' Ht].
    exists e2, res, (new ++ [(root_node l k v r, false)]).
    split_and!; [by rewrite <- app_assoc|by etrans|].
    intros e3 rest Hx3 Hse3. rewrite <- app_assoc.
    destruct (Hreb e3 ((root_node l k v r, false) :: rest) Hx3 Hse3) as (e4 & Hrb & Hx4 & Hs4).
    destruct (rebuild_step_right e4 l k v r r') as (e5 & Hst & Hx5 & Hs5);
      [by eapply extends_session|done..| |done|].
    { eapply extends_stored; [|done..]. by do 3 (etrans; [eassumption|]). }
    exists e5. split_and!; [|by etrans|done].
    cbn [app]. rewrite Hrb. cbn [set_rebuild]. by rewrite (st_bind_run _ _ _ _ _ Hst).
  - intros (e2 & -> & Hx2). exists e2. split; [done|by etrans].
Qed.

Definition value_in (k : Bytes) (v : option Id) : Prop := ∀ w, v = Some w → (k, w) ∈ U.

Lemma tree_in_tset t k v : tree_in U t → value_in k v → tree_in U (tset t k v).
Proof.
  intros [Hb HUt] Hv. split; [by apply bst_tset|]. intros p.
  rewrite elements_tset by done. intros [Hp|?]%elem_of_upd; [|auto].
  destruct v as [w|]; simpl in Hp; [|set_solver].
  apply list_elem_of_singleton in Hp as ->. by apply Hv.
Qed.

Lemma tree_in_tset_opt t k v t' :
  tree_in U t → value_in k v → tset_opt t k v = Some t' → tree_in U t'.
Proof.
  intros Ht Hv He. pose proof (tree_in_tset t k v Ht Hv) as Hx.
  unfold Treap.tset in Hx. by rewrite He in Hx.
Qed.

Lemma set_descend_run k v t : ∀ fuel path visited e,
  (count t ≤ fuel)%nat → session e → tree_in U t → value_in k v →
  stored e t → unseen visited t →
  set_done e (tset_opt t k v) path (set_descend j fuel k v (mid t) path visited e).
Proof.
  induction t as [|l IHl k' v' r IHr]; intros fuel path visited e Hf Hse Ht Hv Hs Hu.
  { destruct v as [w|]; simpl; [|exists e; by destruct fuel].
    assert (tree_in U (Branch Leaf k w Leaf)) as Hn.
    { split; [by repeat constructor|]. intros p Hp. simpl in Hp.
      apply list_elem_of_singleton in Hp as ->. by apply Hv. }
    destruct (make_extends e Leaf k w Leaf Hse Hn I I) as (e1 & Hm & Hx & Hst).
    change (mkNode k w zero_id zero_id) with (root_node Leaf k w Leaf).
    destruct fuel; simpl; rewrite (st_bind_run _ _ _ _ _ Hm);
      by apply (set_done_here e e1 (Branch Leaf k w Leaf)). }
  destruct fuel as [|fuel]; [simpl in Hf; lia|].
  apply tree_in_Branch in Ht as Ht'. destruct Ht' as (Hl & Hr & Hkv).
  pose proof (tree_in_tset_opt (Branch l k' v' r) k v) as Htin.
  destruct (node_extends j U e _ _ _ _ _ eq_refl Hs) as (e1 & Hn & Hx & Hsame).
  cbn [set_descend]. rewrite bool_decide_mid by done.
  rewrite (st_bind_run _ _ _ _ _ (check_unseen _ _ _ _ _ _ _ Hu)), (st_bind_run _ _ _ _ _ Hn).
  cbn [key value left right root_node Treap.tset_opt] in Htin |- *.
  pose proof (extends_session _ _ Hx Hse) as Hse1.
  assert (stored e1 (Branch l k' v' r)) as Hs1 by (by eapply stored_same).
  pose proof Hs1 as (_ & Hsl1 & Hsr1).
  pose proof Hs as (_ & Hsl & Hsr).
  case_bool_decide as Hk.
  { destruct v as [w|].
    - case_bool_decide; [by exists e1|].
      specialize (Htin _ Ht Hv eq_refl).
      destruct (make_extends e1 l k' w r Hse1 Htin Hsl1 Hsr1) as (e2 & Hm & Hx2 & Hst).
      change (with_value (root_node l k' v' r) w) with (root_node l k' w r).
      rewrite (st_bind_run _ _ _ _ _ Hm).
      apply (set_done_here e e2 (Branch l k' w r)); [done|by etrans|done].
    - destruct (merge_run e1 l k' v' r Hse1 Ht Hs1) as (e2 & Hm & Hx2 & Hst).
      rewrite (st_bind_run _ _ _ _ _ Hm).
      apply set_done_here; [by apply Htin|by etrans|done]. }
  destruct (lex_ltb k k') eqn:E.
  - apply (set_done_left e e1 _ l); [|done..|].
    { intros l' Hl'. rewrite Hl' in Htin. split; [by apply (tree_in_tset_opt l k v)|by apply Htin]. }
    apply IHl; [simpl in Hf; lia|done..|by apply unseen_child_left].
  - apply (set_done_right e e1 _ l k' v' r); [|done..|].
    { intros r' Hr'. rewrite Hr' in Htin. split; [by apply (tree_in_tset_opt r k v)|by apply Htin]. }
    apply IHr; [simpl in Hf; lia|done..|by apply unseen_child_right].
Qed.

(** [set] computes the id of the updated tree and leaves it represented. *)
Lemma set_run e t k v :
  session e → tree_in U t → value_in k v → stored e t →
  ∃ e', set j (mid t) k v e = (e', Ok (mid (tset t k v))) ∧
    extends e e' ∧ stored e' (tset t k v).
Proof.
  intros Hse Ht Hv Hs. pose proof (count_loadable e t _ Ht Hs) as Hc.
  unfold set. rewrite (st_bind_run _ _ e e e) by done.
  pose proof (set_descend_run k v t (loop_bound j e) [] ∅ e
    ltac:(unfold loop_bound; lia) Hse Ht Hv Hs (unseen_empty t)) as Hd.
  unfold Treap.tset. destruct (tset_opt t k v) as [t'|]; simpl in Hd |- *.
  - destruct Hd as (e1 & res & new & Hrun & Hx1 & Hreb).
    destruct (Hreb e1 []) as (e3 & Hrb & Hx3 & Hst3); [done|by eapply extends_session|].
    exists e3. split_and!; [|by etrans|done].
    rewrite (st_bind_run _ _ _ _ _ Hrun). by rewrite Hrb.
  - destruct Hd as (e1 & Hrun & Hx1). exists e1. split_and!; [|done|by eapply extends_stored].
    by rewrite (st_bind_run _ _ _ _ _ Hrun).
Qed.

Lemma set_all_run e t changes :
  session e → tree_in U t → (∀ k v, (k, v) ∈ changes → value_in k v) → stored e t →
  ∃ e', set_all j (mid t) changes e = (e', Ok (mid (tset_all t changes))) ∧
    extends e e' ∧ stored e' (tset_all t changes) ∧ tree_in U (tset_all t changes).
Proof.
  revert e t. induction changes as [|[k v] changes IH]; intros e t Hse Ht Hv Hs.
  { exists e. by split_and!. }
  destruct (set_run e t k v) as (e1 & Hrun & Hx1 & Hs1); [done..|apply Hv; set_solver|done|].
  destruct (IH e1 (tset t k v)) as (e2 & Hrun2 & Hx2 & Hs2 & Ht2);
    [by eapply extends_session|apply tree_in_tset; [done|apply Hv; set_solver]|
     intros k' v' Hin; apply Hv; set_solver|done|].
  exists e2. cbn [set_all Treap.tset_all]. rewrite (st_bind_run _ _ _ _ _ Hrun).
  split_and!; [done|by etrans|done..].
Qed.
End Edit.
