(* ===== verification/MetadataTreeApply.v ===== *)
(** * Publication and use of metadata trees

    The memoised [height], the [collect] of pending nodes and the whole [apply]:
    it returns a plan exactly when the batch is acceptable and the new tree stays
    within the depth limit, the plan names the id of the updated map's treap, and
    together with the store it holds every node of that treap.  The last part states
    what a client of a published tree relies on. *)

From S2P Require Import Prelude Codec Treap MetadataTree MetadataTreeProofs MetadataTreeRead MetadataTreeEdit.
Import MetadataTree.
Local Open Scope Z_scope.

(** The payload under which a non-empty tree is published. *)
Definition payload `{Digest} (t : tree) : Bytes :=
  match t with Leaf => [] | Branch l k v r => encode_node (root_node l k v r) end.

Section Apply.
Context `{DigestOk} {J : Type} `{ObjectStore J} (j : J).
Context (U : list (Bytes * Id)) (HU : collision_free U) (HUok : entries_ok U).

Abbreviation session := (session j U).
Abbreviation stored := (stored j).

(** The height memo agrees with the trees of the universe. *)
Definition heights_ok (e : editor) : Prop :=
  ∀ t h, tree_in U t → heights_ e !! mid t = Some h → h = Z.of_nat (depth t).

(** A step that only fills caches and memos. *)
Definition quiet (e e' : editor) : Prop :=
  (∀ id, peek j e' id = peek j e id) ∧ root_ e' = root_ e ∧ pending_ e' = pending_ e ∧
  (session e → session e') ∧ (heights_ok e → heights_ok e').

#[global] Instance quiet_preorder : PreOrder quiet.
Proof.
  split; [by intros e|].
  intros e1 e2 e3 (Hp & Hr & Hd & Hs & Hh) (Hp' & Hr' & Hd' & Hs' & Hh').
  split_and!; [|congruence..|auto|auto]. intros id. by rewrite Hp', Hp.
Qed.

Lemma stored_quiet e e' t : quiet e e' → stored e t → stored e' t.
Proof.
  intros [Hp _]. induction t as [|l IHl k v r IHr]; [done|].
  intros (Hx1 & Hx2 & Hx3). simpl. rewrite Hp. auto.
Qed.

Lemma node_quiet e l k v r :
  stored e (Branch l k v r) →
  ∃ e', node j (mid (Branch l k v r)) e = (e', Ok (root_node l k v r)) ∧ quiet e e'.
Proof.
  intros Hs. destruct (node_extends j U e _ _ _ _ _ eq_refl Hs) as (e' & Hn & Hx & Hsame).
  exists e'. split; [done|]. destruct Hsame as (Hp & Hr & Hd & Hh & _), Hx as (_ & _ & _ & _ & Hse & _).
  split_and!; [done..|]. unfold heights_ok. by rewrite Hh.
Qed.

Lemma same_quiet e e' : same j e e' → quiet e e'.
Proof.
  intros Hs. pose proof Hs as (Hp & Hr & Hd & Hh & _).
  split_and!; [done..|by apply same_session|]. unfold heights_ok. by rewrite Hh.
Qed.

(** ** [height] *)

Definition height_result (fuel : nat) (t : tree) : result Z :=
  if decide (depth t ≤ fuel)%nat then Ok (Z.of_nat (depth t))
  else Err "metadata tree depth limit".

Lemma height_memo e t :
  tree_in U t → quiet e (set_heights
    (match heights_ e !! mid t with
     | Some _ => heights_ e
     | None => <[mid t := Z.of_nat (depth t)]> (heights_ e)
     end) e).
Proof.
  intros Ht. split_and!; [done..|]. intros Hh t' h Ht'. cbn [heights_ set_heights].
  destruct (heights_ e !! mid t) eqn:E; [by apply Hh|].
  destruct (decide (mid t = mid t')) as [He|Hne].
  - apply HU in He as <-; [|done..]. rewrite lookup_insert_eq. congruence.
  - rewrite lookup_insert_ne by done. by apply Hh.
Qed.

Lemma height_run t : ∀ fuel e,
  tree_in U t → stored e t → heights_ok e →
  ∃ e', height j fuel (mid t) e = (e', height_result fuel t) ∧ quiet e e'.
Proof.
  induction t as [|l IHl k v r IHr]; intros fuel e Ht Hs Hh.
  { exists e. split; [|done]. unfold height_result. rewrite decide_True by (simpl; lia).
    by destruct fuel. }
  apply tree_in_Branch in Ht as Ht'. destruct Ht' as (Hl & Hr & _).
  unfold height_result. destruct fuel as [|fuel].
  { exists e. split; [|done]. simpl height. rewrite decide_False by (simpl; lia).
    pose proof (bool_decide_mid U HU _ _ _ _ Ht) as Hz. simpl in Hz. by rewrite Hz. }
  cbn [height]. rewrite (bool_decide_mid U HU) by done.
  rewrite (st_bind_run _ _ e e _ eq_refl).
  destruct (heights_ e !! mid (Branch l k v r)) as [h|] eqn:Ek.
  { apply Hh in Ek as ->; [|done]. exists e. split; [|done].
    unfold st_need, lift, need, mbind, st_bind. destruct (decide _) as [Hd|Hd].
    - by rewrite (proj2 (Z.leb_le _ _)) by lia.
    - by rewrite (proj2 (Z.leb_gt _ _)) by lia. }
  destruct (node_quiet e l k v r Hs) as (e1 & Hn & Hq1).
  pose proof (stored_quiet _ _ _ Hq1 Hs) as (_ & Hsl & Hsr).
  rewrite (st_bind_run _ _ _ _ _ Hn). cbn [left right root_node].
  destruct (IHl fuel e1 Hl Hsl) as (e2 & Hrun2 & Hq2); [by apply Hq1|].
  assert (quiet e e2) as Hq12 by (by etrans). unfold height_result in Hrun2.
  unfold mbind at 1, st_bind at 1. rewrite Hrun2.
  destruct (decide (depth l ≤ fuel)%nat) as [Hdl|Hdl].
  2:{ exists e2. split; [|done]. by rewrite decide_False by (simpl; lia). }
  destruct (IHr fuel e2 Hr) as (e3 & Hrun3 & Hq3); [by apply (stored_quiet e1 e2)|by apply Hq12|].
  assert (quiet e e3) as Hq13 by (by etrans). unfold height_result in Hrun3.
  unfold mbind at 1, st_bind at 1. rewrite Hrun3.
  destruct (decide (depth r ≤ fuel)%nat) as [Hdr|Hdr].
  2:{ exists e3. split; [|done]. by rewrite decide_False by (simpl; lia). }
  rewrite decide_True by (simpl; lia).
  replace (1 + Z.max (Z.of_nat (depth l)) (Z.of_nat (depth r)))
    with (Z.of_nat (depth (Branch l k v r))) by (simpl; lia).
  eexists. split; [reflexivity|]. etrans; [exact Hq13|]. by apply height_memo.
Qed.

(** ** [collect] *)

(** A node already in the store has its whole tree in the store. *)
Definition closed_store : Prop :=
  ∀ t, tree_in U t → t ≠ Leaf → get_object j (mid t) = Ok (payload t) →
    ∀ s, s ∈ subtrees t → get_object j (mid s) = Ok (payload s).

Definition waiting (e : editor) (t : tree) : list tree :=
  filter (λ s, is_Some (pending_ e !! mid s)) (subtrees t).

(** Where a node of the new tree can be found. *)
Definition published (out : list Bytes) (s : tree) : Prop :=
  payload s ∈ out ∨ get_object j (mid s) = Ok (payload s).

Lemma not_pending_stored e l k v r :
  session e → stored e (Branch l k v r) →
  pending_ e !! mid (Branch l k v r) = None →
  get_object j (mid (Branch l k v r)) = Ok (payload (Branch l k v r)).
Proof.
  intros [_ Hc] (Hp & _) Hnp. unfold peek in Hp.
  destruct (cache_ e !! _) as [n|] eqn:Hci.
  - injection Hp as ->. destruct (Hc _ _ Hci) as [?|?]; [congruence|done].
  - apply bind_Ok in Hp as (b & Hg & Hd). apply decode_node_sound in Hd as [_ <-]. done.
Qed.

Lemma pending_payload e t b :
  session e → tree_in U t → pending_ e !! mid t = Some b → b = payload t.
Proof.
  intros [Hp _] Ht Hb. apply Hp in Hb as (l & k & v & r & Hin & He & ->).
  apply HU in He as ->; done.
Qed.

(** A walk over a tree marks only ids of its subtrees. *)
Definition marks (t : tree) (vis vis' : gset Id) : Prop :=
  ∀ id, id ∈ vis' → id ∈ vis ∨ ∃ s, s ∈ subtrees t ∧ id = mid s.

Lemma marks_Branch l k v r vis vis2 vis3 :
  marks l ({[mid (Branch l k v r)]} ∪ vis) vis2 → marks r vis2 vis3 →
  marks (Branch l k v r) vis vis3.
Proof.
  intros Hv2 Hv3 id Hid. cbn [subtrees].
  apply Hv3 in Hid as [Hid|(s & Hin & ->)]; [|right; exists s; set_solver].
  apply Hv2 in Hid as [Hid|(s & Hin & ->)]; [|right; exists s; set_solver].
  apply elem_of_union in Hid as [->%elem_of_singleton|?]; [|by left].
  right. exists (Branch l k v r). set_solver.
Qed.

(** The effect of collecting a tree: the ids marked, and the payloads listed. *)
Definition collected (e : editor) (t : tree) (vis : gset Id) (e' : editor) (vis' : gset Id)
    (new : list Bytes) : Prop :=
  quiet e e' ∧
  marks t vis vis' ∧
  (∀ b, b ∈ new → ∃ s, s ∈ subtrees t ∧ b = payload s) ∧
  (∀ s, s ∈ subtrees t → published new s).

Lemma collected_nothing e t vis :
  (∀ s, s ∈ subtrees t → get_object j (mid s) = Ok (payload s)) →
  collected e t vis e vis [].
Proof. intros Ht. split_and!; [done|by left|set_solver|]. intros s Hs. right. auto. Qed.

Lemma collected_Branch e e1 e2 e3 l k v r vis vis2 vis3 new2 new3 :
  quiet e e1 →
  collected e1 l ({[mid (Branch l k v r)]} ∪ vis) e2 vis2 new2 →
  collected e2 r vis2 e3 vis3 new3 →
  collected e (Branch l k v r) vis e3 vis3 (new2 ++ new3 ++ [payload (Branch l k v r)]).
Proof.
  intros Hq1 (Hq2 & Hv2 & Hn2 & Hp2) (Hq3 & Hv3 & Hn3 & Hp3).
  split_and!; [by do 2 (etrans; [eassumption|])|by eapply marks_Branch|..]; cbn [subtrees].
  - intros b' Hb'. rewrite !elem_of_app, list_elem_of_singleton in Hb'.
    destruct Hb' as [Hx|[Hx| ->]]; [apply Hn2 in Hx as (s & ? & ?)|
      apply Hn3 in Hx as (s & ? & ?)|]; [exists s; set_solver..|].
    exists (Branch l k v r). set_solver.
  - intros s [->|[Hin|Hin]%elem_of_app]%elem_of_cons.
    + left. rewrite !elem_of_app, list_elem_of_singleton. auto.
    + destruct (Hp2 s Hin) as [?|?]; [left; set_solver|by right].
    + destruct (Hp3 s Hin) as [?|?]; [left; set_solver|by right].
Qed.

(** Marking the left child marks nothing of the right one. *)
Lemma unseen_after_left l k v r vis vis2 :
  tree_in U (Branch l k v r) → unseen vis (Branch l k v r) →
  marks l ({[mid (Branch l k v r)]} ∪ vis) vis2 → unseen vis2 r.
Proof.
  intros Ht Hu Hv2 s Hin Hvis.
  apply tree_in_Branch in Ht as Ht'. destruct Ht' as (Hl & Hr & _).
  apply Hv2 in Hvis as [Hvis|(s' & Hs' & He)].
  - by apply (unseen_child_right U HU vis l k v r Ht Hu s Hin).
  - revert He. apply (mid_fresh_keys U HU s' s r); [|done..|].
    + by apply (tree_in_subtrees U l).
    + intros x Hx Hxr. apply (subtrees_keys_sub _ _ _ Hs') in Hx.
      destruct Ht as [Hbst _]. apply bst_Branch in Hbst as (_ & _ & Hlt & Hgt).
      apply Hlt in Hx. apply Hgt in Hxr. by destruct (lex_lt_asym x k).
Qed.

Lemma null_not_pending e : session e → pending_ e !! zero_id = None.
Proof.
  intros [Hp _]. destruct (pending_ e !! zero_id) eqn:E; [|done].
  apply Hp in E as (l' & k' & v' & r' & Hin & He & _).
  symmetry in He. by apply (mid_nonzero U HU) in He.
Qed.

Lemma waiting_Branch e l k v r :
  is_Some (pending_ e !! mid (Branch l k v r)) →
  length (waiting e (Branch l k v r)) = S (length (waiting e l) + length (waiting e r)).
Proof.
  intros Hp. unfold waiting. cbn [subtrees]. rewrite filter_cons_True by done.
  rewrite filter_app. simpl. by rewrite length_app.
Qed.

Lemma collect_run t : ∀ fuel e vis out,
  tree_in U t → stored e t → session e → closed_store → unseen vis t →
  (length (waiting e t) ≤ fuel)%nat →
  ∃ e' vis' new,
    collect j fuel (mid t) vis out e = (e', Ok (vis', out ++ new)) ∧
    collected e t vis e' vis' new.
Proof.
  induction t as [|l IHl k v r IHr]; intros fuel e vis out Ht Hs Hse Hcl Hu Hf.
  { exists e, vis, []. rewrite app_nil_r. split; [|apply collected_nothing; simpl; set_solver].
    destruct fuel; cbn [collect mid]; rewrite (st_bind_run _ _ e e _ eq_refl);
      by rewrite null_not_pending. }
  destruct (pending_ e !! mid (Branch l k v r)) as [b|] eqn:Hb.
  2:{ exists e, vis, []. rewrite app_nil_r. split.
      - destruct fuel; cbn [collect]; rewrite (st_bind_run _ _ e e _ eq_refl); by rewrite Hb.
      - apply collected_nothing, Hcl; [done|done|]. by eapply not_pending_stored. }
  rewrite waiting_Branch in Hf by eauto. destruct fuel as [|fuel]; [lia|].
  apply tree_in_Branch in Ht as Ht'. destruct Ht' as (Hl & Hr & _).
  destruct (node_quiet e l k v r Hs) as (e1 & Hn & Hq1).
  assert (∀ e' t', quiet e e' → waiting e' t' = waiting e t') as Hw.
  { intros e' t' (_ & _ & Hp & _). unfold waiting. by rewrite Hp. }
  pose proof (stored_quiet _ _ _ Hq1 Hs) as (_ & Hsl & Hsr).
  destruct (IHl fuel e1 ({[mid (Branch l k v r)]} ∪ vis) out)
    as (e2 & vis2 & new2 & Hrun2 & Hc2);
    [done..|by apply Hq1|done|by apply (unseen_child_left U HU)|rewrite Hw by done; lia|].
  assert (quiet e1 e2) as Hq2 by apply Hc2.
  assert (quiet e e2) as Hq12 by (by etrans).
  destruct (IHr fuel e2 vis2 (out ++ new2)) as (e3 & vis3 & new3 & Hrun3 & Hc3);
    [done|by apply (stored_quiet e1 e2)|by apply Hq12|done|by eapply unseen_after_left, Hc2|
     rewrite Hw by done; lia|].
  exists e3, vis3, (new2 ++ new3 ++ [payload (Branch l k v r)]).
  split; [|by apply (collected_Branch e e1 e2 e3 l k v r vis vis2)].
  apply (pending_payload e _ b Hse Ht) in Hb as Hbp. rewrite <- Hbp.
  cbn [collect]. rewrite (st_bind_run _ _ e e _ eq_refl), Hb.
  rewrite bool_decide_eq_false_2 by (by eapply (unseen_root U)).
  rewrite (st_bind_run _ _ _ _ _ Hn), (st_bind_run _ _ _ _ _ Hrun2),
    (st_bind_run _ _ _ _ _ Hrun3). by rewrite <- !app_assoc.
Qed.

Lemma waiting_bound e t :
  tree_in U t → (length (waiting e t) ≤ size (pending_ e))%nat.
Proof.
  intros Ht. rewrite <- (length_fmap mid). pose proof (NoDup_subtrees U HU t Ht) as Hnd.
  assert (NoDup (mid <$> waiting e t)) as Hnd'.
  { unfold waiting. revert Hnd. generalize (subtrees t) as ts. intros ts.
    induction ts as [|s ts IH]; [done|]. rewrite fmap_cons. intros [Hs Hnd]%NoDup_cons.
    rewrite filter_cons. case_decide; [|auto]. rewrite fmap_cons. apply NoDup_cons.
    split; [|auto]. intros (s' & He & [_ Hs']%list_elem_of_filter)%list_elem_of_fmap.
    apply Hs, list_elem_of_fmap. eauto. }
  rewrite <- (size_list_to_set (C := gset Id)) by done. rewrite <- size_dom.
  apply subseteq_size. intros id (s & -> & [Hs _]%list_elem_of_filter)%elem_of_list_to_set%list_elem_of_fmap.
  by apply elem_of_dom.
Qed.

(** ** [entries] on a represented treap *)

Lemma heap_check_run e k v l r c :
  tree_in U c → stored e c → beats higher_key k c →
  ∃ e', heap_check j (mid c) (root_node l k v r) e = (e', Ok tt) ∧ same j e e'.
Proof.
  intros Ht Hs Hb. unfold heap_check. destruct c as [|cl ck cv cr]; [by exists e|].
  rewrite (bool_decide_mid U HU) by done.
  destruct (node_Ok j e _ _ (proj1 Hs)) as (e' & Hn & Hsame).
  exists e'. split; [|done]. rewrite (st_bind_run _ _ _ _ _ Hn).
  unfold st_need, lift, need, higher. cbn [key root_node]. simpl in Hb.
  destruct (higher_key ck k) eqn:E; [|done].
  exfalso. by apply (higher_asym higher_key k ck).
Qed.

Lemma bounds_left lo hi l k v r :
  bst (Branch l k v r) → (∀ x, x ∈ keys_of (Branch l k v r) → bound_ok lo hi x = true) →
  ∀ x, x ∈ keys_of l → bound_ok lo (Some k) x = true.
Proof.
  intros (_ & _ & Hlt & _)%bst_Branch Hb x Hx. rewrite keys_of_Branch in Hb.
  apply andb_true_iff. split; [|by apply Hlt]. specialize (Hb x). unfold bound_ok in Hb.
  apply andb_true_iff in Hb; [apply Hb|set_solver].
Qed.

Lemma bounds_right lo hi l k v r :
  bst (Branch l k v r) → (∀ x, x ∈ keys_of (Branch l k v r) → bound_ok lo hi x = true) →
  ∀ x, x ∈ keys_of r → bound_ok (Some k) hi x = true.
Proof.
  intros (_ & _ & _ & Hgt)%bst_Branch Hb x Hx. rewrite keys_of_Branch in Hb.
  apply andb_true_iff. split; [by apply Hgt|]. specialize (Hb x). unfold bound_ok in Hb.
  apply andb_true_iff in Hb; [apply Hb|set_solver].
Qed.

Lemma entries_walk_run t : ∀ fuel lo hi acc vis e,
  (depth t ≤ fuel)%nat → tree_in U t → heap higher_key t → stored e t →
  (∀ x, x ∈ keys_of t → bound_ok lo hi x = true) → unseen vis t →
  ∃ e' res vis', entries_walk j fuel (mid t) lo hi acc vis e = (e', Ok (res, vis')) ∧
    same j e e' ∧ marks t vis vis'.
Proof.
  induction t as [|l IHl k v r IHr]; intros fuel lo hi acc vis e Hd Ht Hh Hs Hb Hu.
  { exists e, acc, vis. split_and!; [by destruct fuel|done|by left]. }
  destruct fuel as [|fuel]; [simpl in Hd; lia|].
  apply tree_in_Branch in Ht as Ht'. destruct Ht' as (Hl & Hr & _).
  destruct Hh as (Hbl & Hbr & Hhl & Hhr).
  destruct (node_Ok j e _ _ (proj1 Hs)) as (e1 & Hn & Hs1).
  pose proof (stored_same j _ _ _ Hs1 Hs) as (_ & Hsl & Hsr).
  destruct (heap_check_run e1 k v l r l Hl Hsl Hbl) as (e2 & Hc2 & Hs2).
  destruct (heap_check_run e2 k v l r r Hr) as (e3 & Hc3 & Hs3); [by eapply stored_same|done|].
  assert (same j e1 e3) as Hs13 by (by etrans).
  destruct (IHl fuel lo (Some k) acc ({[mid (Branch l k v r)]} ∪ vis) e3)
    as (e4 & res4 & vis4 & Hrun4 & Hs4 & Hm4);
    [simpl in Hd; lia|done..|by eapply stored_same|by eapply bounds_left; [apply Ht|]|
     by apply (unseen_child_left U HU)|].
  set (res := match res4 !! k with Some _ => res4 | None => <[k := v]> res4 end).
  destruct (IHr fuel (Some k) hi res vis4 e4) as (e5 & res5 & vis5 & Hrun5 & Hs5 & Hm5);
    [simpl in Hd; lia|done..|do 2 (eapply stored_same; [eassumption|]); done|
     by eapply bounds_right; [apply Ht|]|by eapply unseen_after_left|].
  exists e5, res5, vis5. split_and!;
    [|by do 3 (etrans; [eassumption|])|by eapply marks_Branch].
  cbn [entries_walk]. rewrite (bool_decide_mid U HU) by done.
  rewrite (st_bind_run _ _ e e tt).
  2:{ unfold st_need, lift. by rewrite bool_decide_eq_true_2 by (by eapply (unseen_root U)). }
  rewrite (st_bind_run _ _ _ _ _ Hn), (st_bind_run _ _ e1 e1 tt).
  2:{ unfold st_need, lift. cbn [key root_node]. rewrite Hb; [done|].
      rewrite keys_of_Branch. set_solver. }
  cbn [left right key value root_node].
  by rewrite (st_bind_run _ _ _ _ _ Hc2), (st_bind_run _ _ _ _ _ Hc3),
    (st_bind_run _ _ _ _ _ Hrun4).
Qed.

(** What an id unfolds to is unique. *)
Lemma loads_functional e id t1 t2 : loads j e id t1 → loads j e id t2 → t1 = t2.
Proof.
  intros H1'. revert t2. induction H1' as [|id n l r Hz Hp Hl IHl Hr IHr];
    intros t2 H2'; inversion H2'; subst; try done.
  match goal with Hx : peek j e id = Ok ?m |- _ =>
    rewrite Hp in Hx; injection Hx as <- end.
  f_equal; auto.
Qed.

(** ** [apply] *)

Context `{!ObjectStoreOk J}.
Abbreviation tset_all := (tset_all higher_key).

(** An editor at the root of a represented treap within the depth limit. *)
Record editing (e : editor) (t : tree) : Prop := {
  editing_root : root_ e = mid t;
  editing_in : tree_in U t;
  editing_heap : heap higher_key t;
  editing_depth : (depth t ≤ 256)%nat;
  editing_stored : stored e t;
  editing_session : session e;
  editing_heights : heights_ok e;
}.

Lemma quiet_editing e e' t : quiet e e' → editing e t → editing e' t.
Proof.
  intros Hq []. pose proof Hq as (_ & Hr & _ & Hs & Hh).
  split; auto; [congruence|by eapply stored_quiet].
Qed.

(** The batches [apply] accepts. *)
Definition acceptable (t : tree) (changes : gmap Bytes (option Id)) : Prop :=
  check_changes (in_order changes) = Ok tt ∧
  (∀ k w, changes !! k = Some (Some w) → (k, w) ∈ U) ∧
  (is_Some (changes !! namespace_root) ∨ is_Some (to_map t !! namespace_root)).

Definition updated (t : tree) (changes : gmap Bytes (option Id)) : tree :=
  tset_all t (in_order changes).

Lemma to_map_updated t changes k :
  bst t →
  to_map (updated t changes) !! k =
  match changes !! k with Some v => v | None => to_map t !! k end.
Proof.
  intros Hb. unfold updated. rewrite to_map_tset_all by done. apply patch_in_order.
Qed.

Lemma root_check_run e t changes :
  editing e t → acceptable t changes →
  ∃ e', (if bool_decide (is_Some (changes !! namespace_root)) then mret tt
         else r ← lookup j namespace_root;
              st_need (bool_decide (is_Some r)) "metadata tree missing namespace root") e =
    (e', Ok tt) ∧ quiet e e'.
Proof.
  intros He (_ & _ & Hroot). case_bool_decide as Hc; [by exists e|].
  destruct Hroot as [?|Hroot]; [done|]. unfold lookup.
  destruct (lookup_loop_run j namespace_root t 256 e) as (e' & Hrun & Hs).
  { apply He. }
  { split; [apply He|]. eapply tree_in_nonnull; [exact HU|apply He]. }
  exists e'. rewrite <- (editing_root _ _ He) in Hrun. split; [|by apply same_quiet].
  assert ((r ← gets root_; lookup_loop j 256 namespace_root r) e =
    (e', Ok (tlookup namespace_root t))) as Hl.
  { by rewrite (st_bind_run _ _ e e (root_ e)). }
  rewrite (st_bind_run _ _ _ _ _ Hl). unfold st_need, lift.
  rewrite tlookup_to_map by apply He. by rewrite bool_decide_eq_true_2.
Qed.

Lemma acceptable_values t changes k v :
  acceptable t changes → (k, v) ∈ in_order changes → value_in U k v.
Proof. intros (_ & Hv & _) Hin%elem_of_in_order w ->. by apply Hv. Qed.

(** The edits of a batch leave the old tree and the new one represented. *)
Lemma edit_run e t changes :
  editing e t → acceptable t changes →
  ∃ e', set_all j (mid t) (in_order changes) e = (e', Ok (mid (updated t changes))) ∧
    editing e' t ∧ stored e' (updated t changes) ∧ tree_in U (updated t changes) ∧
    heap higher_key (updated t changes).
Proof.
  intros He Ha. pose proof He as [Hr Ht Hh Hd Hs Hse Hhs].
  destruct (set_all_run j U HU HUok e t (in_order changes)) as (e' & Hrun & Hx & Hs' & Ht');
    [done..|by intros k v; apply (acceptable_values t)|done|].
  exists e'. pose proof Hx as (Hr' & Hh' & _ & _ & Hse' & Hst').
  assert (treap higher_key (updated t changes)) as [_ Hheap]
    by (apply (treap_tset_all higher_key); split; [exact (proj1 Ht)|done]).
  split_and!; [done| |done..].
  split; [congruence|done..|auto|auto|]. unfold heights_ok. by rewrite Hh'.
Qed.

(** The depth check, which runs only when the root id changes. *)
Lemma depth_check_run e t t' :
  editing e t → tree_in U t' → stored e t' →
  ∃ e', (if bool_decide (mid t' = mid t) then mret tt
         else height j 256 (mid t');; mret tt) e =
    (e', if decide (depth t' ≤ 256)%nat then Ok tt else Err "metadata tree depth limit") ∧
    quiet e e'.
Proof.
  intros He Ht' Hs'. case_bool_decide as Hm.
  - apply HU in Hm as ->; [|done|apply He].
    exists e. by rewrite decide_True by apply He.
  - destruct (height_run t' 256 e Ht' Hs') as (e' & Hrun & Hq); [apply He|].
    exists e'. split; [|done]. unfold mbind, st_bind. rewrite Hrun.
    unfold height_result. by destruct (decide _).
Qed.

(** The common prefix of the two outcomes of [apply]. *)
Lemma apply_prefix e t changes :
  editing e t → acceptable t changes →
  ∃ e', editing e' t ∧ stored e' (updated t changes) ∧ tree_in U (updated t changes) ∧
    heap higher_key (updated t changes) ∧
    apply j changes e =
      if decide (depth (updated t changes) ≤ 256)%nat
      then (bound ← gets (λ e, S (size (pending_ e)));
            '(_, out) ← collect j bound (mid (updated t changes)) ∅ [];
            modify (set_root (mid (updated t changes)));;
            mret (mkPlan (encode_manifest (mid (updated t changes))) out)) e'
      else (e', Err "metadata tree depth limit").
Proof.
  intros He Ha. destruct (root_check_run e t changes He Ha) as (e1 & Hrun1 & Hq1).
  pose proof (quiet_editing _ _ _ Hq1 He) as He1.
  destruct (edit_run e1 t changes He1 Ha) as (e2 & Hrun2 & He2 & Hs2 & Ht2 & Hh2).
  destruct (depth_check_run e2 t _ He2 Ht2 Hs2) as (e3 & Hrun3 & Hq3).
  exists e3. split_and!; [by eapply quiet_editing|by eapply stored_quiet|done..|].
  unfold apply. rewrite (st_bind_run _ _ e e tt) by (unfold lift; by rewrite (proj1 Ha)).
  rewrite (st_bind_run _ _ _ _ _ Hrun1), (st_bind_run _ _ e1 e1 (root_ e1) eq_refl).
  rewrite (editing_root _ _ He1), (st_bind_run _ _ _ _ _ Hrun2).
  destruct (decide _); [by rewrite (st_bind_run _ _ _ _ _ Hrun3)|].
  unfold mbind at 1, st_bind at 1. by rewrite Hrun3.
Qed.

Lemma set_root_editing e t' :
  tree_in U t' → heap higher_key t' → (depth t' ≤ 256)%nat → stored e t' →
  session e → heights_ok e → editing (set_root (mid t') e) t'.
Proof.
  intros. split; [done..| |done|done].
  assert (∀ t, stored e t → stored (set_root (mid t') e) t) as Hs; [|auto].
  induction t; [done|]. intros (? & ? & ?). by split_and!; [|auto..].
Qed.

Lemma apply_run e t changes :
  editing e t → acceptable t changes → closed_store →
  (depth (updated t changes) ≤ 256)%nat →
  ∃ e' out,
    apply j changes e =
      (e', Ok (mkPlan (encode_manifest (mid (updated t changes))) out)) ∧
    editing e' (updated t changes) ∧
    (∀ s, s ∈ subtrees (updated t changes) → published out s) ∧
    (∀ b, b ∈ out → ∃ s, s ∈ subtrees (updated t changes) ∧ b = payload s).
Proof.
  intros He Ha Hcl Hd.
  destruct (apply_prefix e t changes He Ha) as (e1 & He1 & Hs1 & Ht1 & Hh1 & ->).
  rewrite decide_True by done. rewrite (st_bind_run _ _ e1 e1 _ eq_refl).
  destruct (collect_run (updated t changes) (S (size (pending_ e1))) e1 ∅ [])
    as (e2 & vis & new & Hrun & Hq & _ & Hnew & Hpub);
    [done..|apply He1|done|by apply (unseen_empty U HU)|by pose proof (waiting_bound e1 _ Ht1); lia|].
  exists (set_root (mid (updated t changes)) e2), new.
  split_and!; [|apply set_root_editing|done..]; try done.
  - rewrite (st_bind_run _ _ _ _ _ Hrun). done.
  - by eapply stored_quiet.
  - apply Hq, He1.
  - apply Hq, He1.
Qed.

Lemma apply_too_deep e t changes :
  editing e t → acceptable t changes → (256 < depth (updated t changes))%nat →
  ∃ e', apply j changes e = (e', Err "metadata tree depth limit") ∧ editing e' t.
Proof.
  intros He Ha Hd.
  destruct (apply_prefix e t changes He Ha) as (e1 & He1 & _ & _ & _ & ->).
  rewrite decide_False by lia. by exists e1.
Qed.
End Apply.

(** ** The metadata tree in use

    What each operation of an editor positioned at a represented treap returns, in the form
    the clients of the tree use. *)

Section Use.
Context `{DigestOk} {J : Type} `{ObjectStoreOk J} (j : J).
Context (U : list (Bytes * Id)) (HU : collision_free U) (HUok : entries_ok U).

Lemma editing_shows e t : editing j U e t → shows j e t.
Proof. intros He. split; [apply He|]. eapply tree_in_nonnull; [exact HU|apply He]. Qed.

Lemma at_root {A} (f : Id → ST editor A) e t e' r :
  editing j U e t → f (mid t) e = (e', r) → (x ← gets root_; f x) e = (e', r).
Proof.
  intros He Hf. rewrite (st_bind_run _ _ e e (root_ e) eq_refl).
  by rewrite (editing_root _ _ _ _ He).
Qed.

Lemma editing_keys e t : editing j U e t → (in_order (to_map t)).*1 = keys_of t.
Proof. intros He. by rewrite in_order_to_map by (exact (proj1 (editing_in _ _ _ _ He))). Qed.

Lemma lookup_editing e t k :
  editing j U e t → ∃ e', lookup j k e = (e', Ok (to_map t !! k)) ∧ editing j U e' t.
Proof.
  intros He. destruct (lookup_loop_run j k t 256 e) as (e' & Hrun & Hs);
    [apply He|by apply editing_shows|].
  exists e'. split; [|by eapply quiet_editing, He; apply same_quiet].
  rewrite <- tlookup_to_map by apply He. exact (at_root (lookup_loop j 256 k) e t _ _ He Hrun).
Qed.

Lemma keys_editing e t prefix :
  editing j U e t →
  ∃ e', keys j prefix e = (e', Ok (List.filter (starts_with prefix) (in_order (to_map t)).*1)) ∧
    editing j U e' t.
Proof.
  intros He. destruct (keys_walk_run j prefix t 256 e []) as (e' & Hrun & Hs);
    [apply He..|by apply editing_shows|].
  exists e'. split; [|by eapply quiet_editing, He; apply same_quiet].
  rewrite (editing_keys e t He).
  exact (at_root (λ r, keys_walk j 256 prefix (upper_bound prefix) r []) e t _ _ He Hrun).
Qed.

Lemma quota_nil limit : quota limit [] = Z.to_nat limit.
Proof. unfold quota, len. f_equal. simpl. lia. Qed.

Lemma page_at_root e prefix after limit :
  page j prefix after limit e =
  if (0 <? limit) && (limit <=? 1025)
     && (bool_decide (after = []) || starts_with prefix after)
  then page_walk j 256 prefix after (page_lower prefix after) (upper_bound prefix) limit
         (root_ e) [] e
  else (e, Err "invalid metadata page request").
Proof. unfold page, mbind at 1, st_bind at 1, st_need, lift. by destruct (_ && _). Qed.

Lemma page_walk_at_root e t prefix after limit :
  editing j U e t → 0 < limit →
  ∃ e', page_walk j 256 prefix after (page_lower prefix after) (upper_bound prefix) limit
          (root_ e) [] e =
      (e', Ok (take (Z.to_nat limit) (List.filter (page_filter prefix after) (keys_of t)))) ∧
    editing j U e' t.
Proof.
  intros He Hl. rewrite (editing_root _ _ _ _ He).
  destruct (page_walk_run j prefix after limit t 256 e []) as (e' & Hrun & Hs);
    [apply He..|by apply editing_shows|unfold len; simpl; lia|].
  exists e'. split; [|by eapply quiet_editing, He; apply same_quiet].
  by rewrite Hrun, app_nil_l, quota_nil.
Qed.

Lemma page_editing e t prefix after limit :
  editing j U e t →
  ∃ e', page j prefix after limit e = (e',
      if (0 <? limit) && (limit <=? 1025)
         && (bool_decide (after = []) || starts_with prefix after)
      then Ok (take (Z.to_nat limit)
                 (List.filter (page_filter prefix after) (in_order (to_map t)).*1))
      else Err "invalid metadata page request") ∧
    editing j U e' t.
Proof.
  intros He. rewrite page_at_root.
  destruct ((0 <? limit) && (limit <=? 1025) && _) eqn:E; [|by exists e].
  rewrite !andb_true_iff, Z.ltb_lt in E. destruct E as [[E _] _].
  pose proof (page_walk_at_root e t prefix after limit He E) as Hx.
  rewrite (editing_keys e t He). exact Hx.
Qed.

Lemma entries_editing e t :
  editing j U e t → ∃ e', entries j e = (e', Ok (to_map t)) ∧ editing j U e' t.
Proof.
  intros He.
  destruct (entries_walk_run j U HU HUok t 256 None None ∅ ∅ e)
    as (e' & res & vis & Hrun & Hs & _);
    [apply He..|done|by apply (unseen_empty U HU)|].
  exists e'. split; [|by eapply quiet_editing, He; apply same_quiet].
  pose proof Hrun as Hw. apply entries_walk_sound in Hw as (_ & t' & Hl & _ & _ & _ & ->);
    [|apply higher_key_order|intros x [w Hx]; by rewrite lookup_empty in Hx].
  assert (t' = t) as ->.
  { eapply loads_functional; [exact Hl|]. by apply stored_loads, editing_shows. }
  rewrite (right_id_L ∅ (∪)) in Hrun. unfold entries.
  rewrite (st_bind_run _ _ e e (root_ e) eq_refl), (editing_root _ _ _ _ He).
  by rewrite (st_bind_run _ _ _ _ _ Hrun).
Qed.

(** An editor opened at the id of a treap the store holds. *)
Lemma stored_fresh r s :
  (∀ u, u ∈ subtrees s → get_object j (mid u) = Ok (payload u)) → tree_in U s → stored j (fresh r) s.
Proof.
  induction s as [|sl IHl k v sr IHr]; intros Hsub Ht; [done|].
  pose proof (tree_in_Branch _ _ _ _ _ Ht) as (Hl & Hr & _).
  split_and!; [|apply IHl; [|done]; intros u Hu; apply Hsub; simpl; set_solver
                |apply IHr; [|done]; intros u Hu; apply Hsub; simpl; set_solver].
  unfold peek, fresh. cbn [cache_]. rewrite lookup_empty, Hsub by (simpl; set_solver).
  by apply decode_encode_node, (root_node_ok U HUok).
Qed.

Lemma open_editing t :
  (∀ u, u ∈ subtrees t → get_object j (mid u) = Ok (payload u)) → tree_in U t → heap higher_key t →
  (depth t ≤ 256)%nat → editing j U (fresh (mid t)) t.
Proof.
  intros Hsub Ht Hh Hd. split; [done..|by apply stored_fresh| |].
  - split; intros id x Hx; unfold fresh in Hx; simpl in Hx; by rewrite lookup_empty in Hx.
  - intros t' h _ Hx. unfold fresh in Hx. simpl in Hx. by rewrite lookup_empty in Hx.
Qed.
End Use.
