(* ===== verification/Instances.v ===== *)
(** * Concrete instances

    The parameters of the model at concrete values: an executable digest in
    place of SHA-256, an object store that is a finite map, and a small universe of
    metadata entries over which that digest is checked, by evaluation, to separate
    every search tree.  The examples of the other files run on these. *)

From S2P Require Import Prelude Codec Treap MetadataTree MetadataTreeProofs MetadataTreeEdit.
From S2P Require Import MetadataTreeApply.
Import MetadataTree.
Local Open Scope Z_scope.

(** The FNV-1a hash at 32 bits, padded to the width of an id. *)
Definition fnv_digest (b : Bytes) : Bytes :=
  store (foldl (λ h c, Z.land (16777619 * Z.lxor h (b2z c)) 4294967295)
           2166136261 b) 32.
#[global] Instance fnv : Digest := fnv_digest.
#[global] Instance fnv_ok : DigestOk.
Proof. intros b. apply length_store. Qed.

(** A store that holds exactly the objects of a map. *)
Abbreviation table := (gmap (list Init.Byte.byte) (list Init.Byte.byte)).
#[global] Instance table_store : ObjectStore table := {
  get_object j id := match j !! id with Some b => Ok b | None => Err "object not found" end;
  object_ids j := dom j;
}.
#[global] Instance table_store_ok : ObjectStoreOk table.
Proof.
  split.
  - intros j id b Hb. apply elem_of_dom. simpl in Hb. destruct (j !! id) eqn:E; [|discriminate].
    by exists l.
  - intros j id. simpl. by destruct (j !! id).
Qed.

(** ** Enumerating the search trees of a universe *)

(** The search trees over the entries of [U] up to a depth, each with its id. *)
Fixpoint trees `{Digest} (n : nat) (U : list (Bytes * Id)) : list (tree * Id) :=
  match n with
  | O => [(Leaf, zero_id)]
  | S n' => (Leaf, zero_id) :: (
      '(k, v) ← U;
      let ls := trees n' (filter (λ e, lex_lt e.1 k) U) in
      let rs := trees n' (filter (λ e, lex_lt k e.1) U) in
      '(l, i) ← ls; '(r, i') ← rs; [(Branch l k v r, object_hash (encode_node (mkNode k v i i')))])
  end.

Lemma tree_in_sides U l k v r : tree_in U (Branch l k v r) →
  tree_in (filter (λ e, lex_lt e.1 k) U) l ∧ (k, v) ∈ U ∧ tree_in (filter (λ e, lex_lt k e.1) U) r.
Proof.
  intros [(Hl & Hr & Hlt & Hgt)%bst_Branch HU]. cbn [elements_of] in HU. split_and!.
  - split; [done|]. intros p Hp. apply list_elem_of_filter. split; [apply Hlt; by apply list_elem_of_fmap_2|set_solver].
  - set_solver.
  - split; [done|]. intros p Hp. apply list_elem_of_filter. split; [apply Hgt; by apply list_elem_of_fmap_2|set_solver].
Qed.

Lemma trees_complete `{Digest} n t : ∀ U, (depth t ≤ n)%nat → tree_in U t → (t, mid t) ∈ trees n U.
Proof.
  revert n. induction t as [|l IHl k v r IHr]; intros [|n] U Hd Ht; cbn [depth] in Hd; try lia; cbn [trees]; try by left.
  right. destruct (tree_in_sides _ _ _ _ _ Ht) as (Hl & Hkv & Hr). apply list_elem_of_bind. exists (k, v). split; [|done].
  apply list_elem_of_bind. exists (l, mid l). split; [|apply IHl; [lia|done]].
  apply list_elem_of_bind. exists (r, mid r). split; [by left|apply IHr; [lia|done]].
Qed.

Lemma tree_in_depth U t : tree_in U t → (depth t ≤ length (remove_dups U.*1))%nat.
Proof.
  intros [Hb HU]. etrans; [apply depth_count|].
  assert (count t = length (keys_of t)) as ->.
  { unfold keys_of. rewrite length_fmap. induction t as [|l IHl k v r IHr]; [done|].
    apply bst_Branch in Hb as (? & ? & _). simpl in *. rewrite length_app. simpl.
    rewrite IHl, IHr; [lia|done|set_solver|done|set_solver]. }
  apply submseteq_length, NoDup_submseteq.
  - by apply increasing_NoDup.
  - intros x (p & -> & Hp)%list_elem_of_fmap. apply elem_of_remove_dups, list_elem_of_fmap. eauto.
Qed.

Definition separated {A B} `{EqDecision B} (f : A → B) (l : list A) : bool :=
  bool_decide (NoDup (f <$> l)).

Lemma separated_inj {A B} `{EqDecision B} (f : A → B) l x y :
  separated f l = true → x ∈ l → y ∈ l → f x = f y → x = y.
Proof.
  unfold separated. rewrite bool_decide_eq_true.
  induction l as [|z l IH]; [set_solver|]. rewrite fmap_cons, NoDup_cons. intros [Hz Hnd].
  rewrite !elem_of_cons. intros [->|Hx] [->|Hy] He; [done| | |by apply IH].
  - destruct Hz. rewrite He. by apply list_elem_of_fmap_2.
  - destruct Hz. rewrite <- He. by apply list_elem_of_fmap_2.
Qed.

Lemma collision_free_check `{Digest} U :
  separated snd (trees (length (remove_dups U.*1)) U) = true → collision_free U.
Proof.
  intros Hsep t1 t2 H1 H2 He. pose proof (tree_in_depth _ _ H1). pose proof (tree_in_depth _ _ H2).
  enough ((t1, mid t1) = (t2, mid t2)) by congruence.
  apply (separated_inj _ _ _ _ Hsep); [by apply trees_complete..|done].
Qed.

(** ** A small world *)

Definition id_of (c : Z) : Id := z2b c :: zeros 31.
Definition key_a : Bytes := key_prefix ++ bs "a".
Definition small : list (Bytes * Id) :=
  [(namespace_root, id_of 1); (key_a, id_of 2); (key_a, id_of 3)].

Lemma small_ok : entries_ok small.
Proof.
  intros k v Hin. unfold small in Hin.
  repeat (apply elem_of_cons in Hin; destruct Hin as [[= -> ->]|Hin]; [by vm_compute|]).
  set_solver.
Qed.

Lemma small_free : collision_free small.
Proof. apply collision_free_check. vm_compute. reflexivity. Qed.

(** ** Stores that hold exactly one tree *)

Definition table_of `{Digest} (t : tree) : table :=
  list_to_map ((λ s, (mid s, payload s)) <$> subtrees t).

Section TableOf.
Context `{DigestOk} (U : list (Bytes * Id)) (HU : collision_free U) (HUok : entries_ok U).

Lemma table_of_lookup t s :
  tree_in U t → s ∈ subtrees t → get_object (table_of t) (mid s) = Ok (payload s).
Proof.
  intros Ht Hs. simpl. unfold table_of. erewrite elem_of_list_to_map_1; [done| |].
  - rewrite <- list_fmap_compose. by apply (NoDup_subtrees U HU).
  - apply list_elem_of_fmap. by exists s.
Qed.

Lemma subtrees_trans s t u : s ∈ subtrees t → t ∈ subtrees u → s ∈ subtrees u.
Proof.
  intros Hs. induction u as [|l IHl k v r IHr]; simpl; [set_solver|].
  rewrite elem_of_cons, elem_of_app. intros [->|[Ht|Ht]]; [done|set_solver..].
Qed.

Lemma table_of_closed t : tree_in U t → closed_store (table_of t) U.
Proof.
  intros Ht t' Ht' _ Hg s Hs.
  assert (t' ∈ subtrees t) as Hin.
  { simpl in Hg. destruct (table_of t !! mid t') as [b|] eqn:E; [|discriminate].
    apply elem_of_list_to_map_2, list_elem_of_fmap in E as (u & [= He _] & Hu).
    apply HU in He as ->; [done..|]. by apply (tree_in_subtrees U t). }
  apply table_of_lookup; [done|]. by eapply subtrees_trans.
Qed.

Lemma table_of_stored t r s :
  tree_in U t → (∀ u, u ∈ subtrees s → u ∈ subtrees t) → stored (table_of t) (fresh r) s.
Proof.
  intros Ht. induction s as [|sl IHl k v sr IHr]; intros Hsub; [done|].
  assert (Branch sl k v sr ∈ subtrees t) as Hin by (apply Hsub; simpl; set_solver).
  split_and!; [|apply IHl; intros u Hu; apply Hsub; simpl; set_solver
                |apply IHr; intros u Hu; apply Hsub; simpl; set_solver].
  unfold peek, fresh. cbn [cache_]. rewrite lookup_empty.
  rewrite (table_of_lookup t (Branch sl k v sr)) by done.
  apply decode_encode_node, (root_node_ok U HUok). by apply (tree_in_subtrees U t).
Qed.

(** A fresh editor at a published root is in a good state. *)
Lemma fresh_editing t :
  tree_in U t → heap higher_key t → (depth t ≤ 256)%nat →
  editing (table_of t) U (fresh (mid t)) t.
Proof.
  intros Ht Hh Hd. split; [done..|by apply table_of_stored| |].
  - split; intros id x Hx; unfold fresh in Hx; simpl in Hx; by rewrite lookup_empty in Hx.
  - intros t' h _ Hx. unfold fresh in Hx. simpl in Hx. by rewrite lookup_empty in Hx.
Qed.
End TableOf.

(** The treap of [{root ↦ 1, a ↦ 2}], published, and an editor opened on it. *)
Definition tree1 : tree :=
  tset_all higher_key Leaf [(namespace_root, Some (id_of 1)); (key_a, Some (id_of 2))].
Definition store1 : table := table_of tree1.
Definition editor1 : editor := fresh (mid tree1).

Lemma tree1_treap : treap higher_key tree1.
Proof. exact (treap_tset_all higher_key Leaf _ (treap_Leaf higher_key)). Qed.

Lemma tree1_in : tree_in small tree1.
Proof.
  split; [exact (proj1 tree1_treap)|].
  apply Forall_forall, (bool_decide_eq_true_1 (Forall (λ p, p ∈ small) (elements_of tree1))).
  vm_compute. reflexivity.
Qed.

Lemma editing1 : editing store1 small editor1 tree1.
Proof.
  apply (fresh_editing small small_free small_ok tree1 tree1_in (proj2 tree1_treap)).
  apply (bool_decide_eq_true_1 (depth tree1 ≤ 256)%nat). vm_compute. reflexivity.
Qed.

Lemma closed1 : closed_store store1 small.
Proof. exact (table_of_closed small small_free small_ok tree1 tree1_in). Qed.

(** A batch that overwrites one entry. *)
Definition change_a : gmap Bytes (option Id) := {[ key_a := Some (id_of 3) ]}.

Lemma change_a_acceptable : acceptable small tree1 change_a.
Proof.
  split_and!; [vm_compute; reflexivity| |right].
  2:{ apply (bool_decide_eq_true_1 (is_Some (to_map tree1 !! namespace_root))).
      vm_compute. reflexivity. }
  intros k w Hk. unfold change_a in Hk. apply lookup_singleton_Some in Hk as [<- [= <-]]. unfold small. set_solver.
Qed.
