(* ===== verification/JournalSpec.v ===== *)
(** * What the single-file journal promises

    The properties of the journal, stated on the states an execution with failures and
    crashes can reach from a new container, each with an example on a concrete
    container. *)

From S2P Require Import Prelude Codec Treap Journal JournalRecord JournalReplay JournalCommit JournalTx.
From S2P Require Import JournalState JournalOps JournalCheckpoint JournalTransact JournalStore JournalRuns.
From S2P Require Import JournalLive Instances.
Import Journal.
Local Open Scope Z_scope.

Section Spec.
Context `{DigestOk}.

(** C1: Crash refinement of the journal.  Whatever sequence of put, transact and
    checkpoint operations runs from a new container, with device failures and torn
    writes in any of them, crashes in between, and reopens from the visible or only from
    the durable contents, what the journal then answers to get and keys, its sequence
    number, and the success of verify are those of one abstract store, in which every
    acknowledged operation has happened, in order, every refused one has not, and an
    interrupted one has happened entirely or not at all. *)
Theorem journal_crash_refinement (F repo : Bytes) (script : list outcome) (es : list event)
    (c : Checkpoint) (w : world) :
  len F = base → length repo = 16%nat →
  steps (no_checkpoint, mkWorld (mkDevice F F script) (fresh repo)) es (c, w) →
  ∃ s, explains es (mkKv 0 ∅ ∅) s ∧ seq_ (jnl w) = kv_seq s ∧
    (∀ k, get (file (dev w)) (jnl w) k = read_result (kv_get s k)) ∧
    (∀ prefix, keys (jnl w) prefix =
      Ok (filter (λ k, starts_with prefix k = true) (in_order (kv_roots s)).*1)) ∧
    verify (file (dev w)) (jnl w) = Ok tt.
Proof.
  intros HF Hr Hs.
  destruct (steps_explained _ _ _ _ _ _ _ (fresh_inv F repo script HF Hr) Hs) as (l & f & Hi & He).
  cbn [jnl] in He. rewrite abs_fresh in He. exists (abs f (jnl w)).
  split_and!; [exact He|by rewrite abs_seq| | |].
  - intros k. by apply (get_abs c w l).
  - intros prefix. by apply (keys_inv c w l).
  - by apply (verify_inv c w l f).
Qed.

(** C2: Atomicity of transact.  On a reachable journal, transact either returns, and
    then its sequence precondition held, the keys of the batch were distinct, and the
    store is the old one with exactly the batch applied; or throws and has changed
    nothing; or throws, marks the journal unusable, and leaves a file that, as seen
    now or as it survives a loss of power, reopens to the old store or to the store with
    the whole batch. *)
Theorem transact_all_or_nothing (c : Checkpoint) (w : world) (expected : Z) (ms : list Mutation)
    (script : list outcome) :
  reachable c w →
  let s := store_of w in
  match transact expected ms w with
  | (w', Ok _) =>
      expected = kv_seq s ∧ NoDup (m_key <$> ms) ∧ store_of w' = kv_batch ms s ∧ reachable c w'
  | (w', Err _) =>
      w' = w ∨
      poisoned_ (jnl w') = true ∧
      ∀ F, F = file (dev w') ∨ F = durable (dev w') →
        ∃ j, open F (repository_ (jnl w)) c = Ok j ∧ poisoned_ j = false ∧
          let s' := store_of (mkWorld (mkDevice F F script) j) in s' = s ∨ s' = kv_batch ms s
  | (_, OutOfFuel) => False
  end.
Proof.
  intros Hreach. destruct (reachable_inv _ _ Hreach) as (l & f & Hi). cbv zeta.
  assert (store_of w = abs f (jnl w)) as -> by apply (inv_abs _ _ _ _ Hi).
  pose proof (transact_atomic c w l f expected ms Hi) as Ha.
  assert (∀ w', transact expected ms w = (w', Ok tt) → reachable c w') as Hnext.
  { intros w' Hw'. destruct Hreach as (F & repo & sc & es & HF & Hr & Hs).
    exists F, repo, sc, (es ++ [Acknowledged (OpTransact expected ms)]).
    split_and!; [done..|]. eapply steps_snoc; [exact Hs|].
    apply (step_done _ c w w' None); [done|]. cbn [run_op]. unfold mbind, st_bind. by rewrite Hw'. }
  assert (∀ w', transact expected ms w = (w', Ok tt) →
    expected = seq_ (jnl w) ∧ NoDup (m_key <$> ms)) as Hguard.
  { intros w' Hw'. destruct (transact_run c w l f expected ms Hi) as [[m Hm]|Hrun]; [congruence|].
    destruct Hrun as (locs & cp & e & f' & Hbc & _). split; [apply Hbc|apply Hbc]. }
  destruct (transact expected ms w) as [w' [[]|m|]]; [| |done].
  - destruct Ha as [(l' & f' & Hi' & Hf') _]. destruct (Hguard w' eq_refl) as [Hg1 Hg2].
    split_and!; [by rewrite abs_seq|done| |by apply Hnext].
    unfold store_of. by rewrite (inv_abs _ _ _ _ Hi').
  - destruct Ha as [->|[Hp Ha]]; [by left|right]. split; [done|]. intros F HF.
    destruct (Ha F HF) as [Hre|Hre];
      destruct (reopens_to_store _ _ _ _ script Hre) as (j & Ho & Hal & Hst); exists j;
      (split; [done|]; split; [done|]); [left|right]; exact Hst.
Qed.

(** C39: Progress of transact.  On a reachable journal with an up-to-date sequence
    number, a batch of 1 to 64 mutations of distinct valid keys, whose references and
    deletions exist and whose values are within the limits, commits when no device
    operation fails, as long as sequence numbers and file offsets are not exhausted. *)
Theorem transact_progress (c : Checkpoint) (w : world) (expected : Z) (ms : list Mutation) :
  reachable c w → acceptable (jnl w) expected ms → reliable w →
  ∃ w', transact expected ms w = (w', Ok tt) ∧ store_of w' = kv_batch ms (store_of w).
Proof.
  intros Hreach Hac Hrel. destruct (reachable_inv _ _ Hreach) as (l & f & Hi).
  destruct (transact_commits c w l f expected ms Hi Hac Hrel) as [w' Hw']. exists w'.
  split; [done|]. pose proof (transact_atomic c w l f expected ms Hi) as Ha. rewrite Hw' in Ha.
  destruct Ha as [(l' & f' & Hi' & Hf') _].
  unfold store_of. by rewrite (inv_abs _ _ _ _ Hi'), (inv_abs _ _ _ _ Hi).
Qed.

(** Checkpoint round trip.  The descriptor a checkpoint returns opens the file at
    once, to the same store and the same end of the log as the live journal, without
    replaying the log before it. *)
Theorem checkpoint_roundtrip (c : Checkpoint) (w w' : world) (cp : Checkpoint) :
  reachable c w → ids_nonzero (jnl w) → checkpoint w = (w', Ok cp) →
  ∃ j, open (file (dev w')) (repository_ (jnl w')) cp = Ok j ∧
    abs (file (dev w')) j = store_of w ∧ end_ j = end_ (jnl w') ∧
    last_hash_ j = last_hash_ (jnl w') ∧ c_replay_start cp = end_ (jnl w').
Proof.
  intros Hreach Hids Hc. destruct (reachable_inv _ _ Hreach) as (l & f & Hi).
  destruct (proj2 (checkpoint_atomic _ _ _ _ Hi Hids) _ _ Hc) as (l' & f' & Hi' & Hf').
  destruct (inv_reopen _ _ _ _ Hi') as [r Ho]. eexists. split; [exact Ho|].
  rewrite abs_flags, (inv_abs _ _ _ _ Hi'), Hf'. unfold store_of. rewrite (inv_abs _ _ _ _ Hi).
  split_and!; [done..|]. by eapply checkpoint_descriptor.
Qed.

(** C40: Opening terminates.  The constructor returns a journal or an error on every
    file, repository id and checkpoint descriptor: every iteration of its replay loop
    advances, so a fuel of the size of the file is never exhausted. *)
Theorem open_terminates (f repo : Bytes) (c : Checkpoint) :
  (∃ j, open f repo c = Ok j) ∨ (∃ m, open f repo c = Err m).
Proof. pose proof (open_total f repo c) as Ht. destruct (open f repo c); eauto; done. Qed.

(** Record round trip and torn tails.  A record written at an offset with room for
    it in its segment is read back with all its fields, whatever surrounds it in the
    file, and any strict prefix of it at the end of the file is reported as an incomplete
    tail rather than as corruption. *)
Theorem record_roundtrip (type seq : Z) (payload : Bytes) (oid : Id) (pre post : Bytes) (k : nat) :
  recordable type seq payload oid →
  let e := record type seq payload oid in
  base ≤ len pre → len e ≤ room (len pre) →
  read_record (pre ++ e ++ post) (len pre) (len (pre ++ e ++ post)) =
    Ok (Some (mkRec type seq (len pre) oid payload e)) ∧
  ((k < length e)%nat →
   read_record (pre ++ take k e) (len pre) (len (pre ++ take k e)) = Ok None).
Proof.
  intros Hrec e Hb Hroom. pose proof (len_nonneg post). pose proof (len_nonneg pre).
  assert (len e = record_length (len payload)) as HL by (apply length_record, Hrec).
  split.
  - apply read_record_whole; [done|done|by rewrite <- HL|apply holds_middle|].
    rewrite !len_app. lia.
  - intros Hk.
    apply (read_record_torn type seq payload oid Hrec _ _ _ ltac:(done) ltac:(by rewrite <- HL) k).
    + apply holds_end.
    + rewrite <- HL. unfold len. lia.
    + rewrite len_app. unfold len at 2. rewrite length_take. lia.
Qed.
End Spec.

(** ** Examples

    A container of 64 KiB of zeros, and the journal after one [put]. *)

Definition repo0 : Bytes := zeros 16.
Definition file0 : Bytes := zeros (Z.to_nat base).
Definition world0 : world := mkWorld (mkDevice file0 file0 []) (fresh repo0).
Definition put0 : op := OpPut (bs "a") (bs "hello").
Definition world1 : world := (run_op put0 world0).1.
Definition log0 : Bytes := zeros (Z.to_nat 69640).
Definition torn1 : world := mkWorld (mkDevice file0 file0 [Done; Torn 7]) (fresh repo0).

Lemma file0_length : len file0 = base.
Proof. unfold file0, len. rewrite length_zeros. apply Z2Nat.id. unfold base. lia. Qed.

Lemma put0_step : step (no_checkpoint, world0) (Acknowledged put0) (no_checkpoint, world1).
Proof.
  refine (acknowledged_step put0 no_checkpoint world0 I _). vm_compute. reflexivity.
Qed.

Lemma put0_steps : steps (no_checkpoint, world0) [Acknowledged put0] (no_checkpoint, world1).
Proof. exact (steps_step _ _ _ _ _ put0_step (steps_refl _)). Qed.

Lemma reachable0 script :
  reachable no_checkpoint (mkWorld (mkDevice file0 file0 script) (fresh repo0)).
Proof.
  exists file0, repo0, script, []. split; [exact file0_length|]. split; [reflexivity|].
  apply steps_refl.
Qed.

Lemma reachable1 : reachable no_checkpoint world1.
Proof.
  exists file0, repo0, [], [Acknowledged put0]. split; [exact file0_length|].
  split; [reflexivity|]. exact put0_steps.
Qed.

Lemma ids_nonzero1 : ids_nonzero (jnl world1).
Proof.
  split.
  - intros id [loc Hl]. revert id loc Hl.
    refine (bool_decide_eq_true_1 (map_Forall (λ id _, id ≠ zero_id) (objects_ (jnl world1))) _).
    vm_compute. reflexivity.
  - refine (bool_decide_eq_true_1 (seq_ (jnl world1) = 0 ↔ last_hash_ (jnl world1) = zero_id) _).
    vm_compute. reflexivity.
Qed.

Lemma checkpoint1_run : ∃ w' cp, checkpoint world1 = (w', Ok cp).
Proof.
  destruct (checkpoint world1) as [w' r] eqn:E.
  assert (is_ok (checkpoint world1).2 = true) as Hok by (vm_compute; reflexivity).
  rewrite E in Hok. destruct r as [cp| |]; [|discriminate..]. exists w', cp. reflexivity.
Qed.

Lemma journal_crash_refinement_witness :
  ∃ s, explains [Acknowledged put0] (mkKv 0 ∅ ∅) s ∧ seq_ (jnl world1) = kv_seq s ∧
    get (file (dev world1)) (jnl world1) (bs "a") = read_result (kv_get s (bs "a")).
Proof.
  destruct (journal_crash_refinement file0 repo0 [] [Acknowledged put0] no_checkpoint world1
    file0_length eq_refl put0_steps) as (s & He & Hs & Hg & _).
  exists s. split; [exact He|]. split; [exact Hs|]. exact (Hg (bs "a")).
Defined.

Lemma transact_all_or_nothing_witness :
  poisoned_ (jnl (transact 0 [put_mutation (bs "b") (bs "world")] torn1).1) = true ∧
  ∃ j, open (file (dev (transact 0 [put_mutation (bs "b") (bs "world")] torn1).1)) repo0
         no_checkpoint = Ok j ∧ poisoned_ j = false.
Proof.
  assert (is_ok (transact 0 [put_mutation (bs "b") (bs "world")] torn1).2 = false) as Hno
    by (vm_compute; reflexivity).
  assert (poisoned_ (jnl (transact 0 [put_mutation (bs "b") (bs "world")] torn1).1) = true) as Hp
    by (vm_compute; reflexivity).
  split; [exact Hp|].
  pose proof (transact_all_or_nothing no_checkpoint torn1 0 [put_mutation (bs "b") (bs "world")] []
    (reachable0 _)) as Ha. cbv zeta in Ha.
  destruct (transact 0 [put_mutation (bs "b") (bs "world")] torn1) as [w' [[]|m|]];
    [discriminate| |contradiction].
  destruct Ha as [->|[_ Ha]]; [discriminate|].
  destruct (Ha (file (dev w')) (or_introl eq_refl)) as (j & Ho & Hal & _).
  exists j. split; [exact Ho|exact Hal].
Defined.

Lemma acceptable0 : acceptable (fresh repo0) 0 [put_mutation (bs "a") (bs "hello")].
Proof.
  split; [reflexivity|discriminate|simpl; lia|apply NoDup_singleton| | |].
  - apply Forall_singleton. split; [simpl; lia|]. vm_compute. discriminate.
  - vm_compute. discriminate.
  - vm_compute. discriminate.
Qed.

Lemma transact_progress_witness :
  ∃ w', transact 0 [put_mutation (bs "a") (bs "hello")] world0 = (w', Ok tt) ∧
    store_of w' = kv_batch [put_mutation (bs "a") (bs "hello")] (store_of world0).
Proof.
  exact (transact_progress no_checkpoint world0 0 [put_mutation (bs "a") (bs "hello")]
    (reachable0 []) acceptable0 eq_refl).
Defined.

Lemma checkpoint_roundtrip_witness :
  ∃ w' cp j, checkpoint world1 = (w', Ok cp) ∧
    open (file (dev w')) (repository_ (jnl w')) cp = Ok j ∧
    abs (file (dev w')) j = store_of world1.
Proof.
  destruct checkpoint1_run as (w' & cp & Hc).
  destruct (checkpoint_roundtrip no_checkpoint world1 w' cp reachable1 ids_nonzero1 Hc)
    as (j & Ho & Ha & _).
  exists w', cp, j. split; [exact Hc|]. split; [exact Ho|exact Ha].
Defined.

Lemma hello_recordable : recordable 1 1 (bs "hello") zero_id.
Proof. split; [lia|unfold UINT64_MAX; lia|reflexivity|vm_compute; discriminate]. Qed.

Lemma record_roundtrip_witness :
  read_record (log0 ++ record 1 1 (bs "hello") zero_id ++ [])
    (len log0) (len (log0 ++ record 1 1 (bs "hello") zero_id ++ [])) =
  Ok (Some (mkRec 1 1 (len log0) zero_id (bs "hello") (record 1 1 (bs "hello") zero_id))).
Proof.
  refine (proj1 (record_roundtrip 1 1 (bs "hello") zero_id log0 [] 0 hello_recordable _ _)).
  - vm_compute. discriminate.
  - vm_compute. discriminate.
Defined.
