(* ===== verification/LevelStore.v ===== *)
(** * The LevelDB-backed store ([daemon/level_store.cpp], [daemon/level_store.h])

    One LevelDB database per repository: immutable objects under [O/], named roots under
    [R/], the repository metadata and the counters under [M/], all changed by one
    synchronous write batch per transaction.  LevelDB and its LRU cache are library code:
    the classes [LevelDB] and [Cache] are the calls the source makes, and their [Ok]
    companions the documented behaviour relied upon.  [Module LevelStore] translates the
    class: the constructor, the epoch-checked root cache of [read], the object cache of
    [object], and [keys], [transact], [verify], [compact] and [collect].  The timing
    counters of [StoreIoMetrics] do not influence any of them and are left out. *)

From S2P Require Import Prelude Codec Journal.
Local Open Scope Z_scope.

(** ** Library code *)

(** A status message, [None] when the status is [ok()]. *)
Abbreviation db_status := (option string).

(** [leveldb::DB]: [Get] ([inr None] is [IsNotFound]), an iterator positioned by [Seek]
    with the entries it visits and its final status, [Write] of a batch (a value is a
    [Put], [None] a [Delete]), and [CompactRange] over everything.  [contents] names the
    entries a database holds, for the laws below; no operation computes with it. *)
Class LevelDB (db : Type) := {
  db_get : db → Bytes → string + option Bytes;
  db_iter : db → Bytes → list (Bytes * Bytes) * db_status;
  db_write : db → list (Bytes * option Bytes) → db * db_status;
  db_compact : db → db;
  contents : db → gmap Bytes Bytes;
}.

(** The effect of a write batch on the entries of a database. *)
Definition write_entry (m : gmap Bytes Bytes) (e : Bytes * option Bytes) : gmap Bytes Bytes :=
  match e.2 with Some v => <[e.1 := v]> m | None => delete e.1 m end.
Definition write_batch (b : list (Bytes * option Bytes)) (m : gmap Bytes Bytes) : gmap Bytes Bytes :=
  foldl write_entry m b.

(** LevelDB as documented: reads see the entries, an iterator that ends with an ok status
    has visited every entry from the sought key on in key order, a synchronous write
    batch is atomic, and compaction keeps the entries. *)
Class LevelDBOk (db : Type) `{LevelDB db} : Prop := {
  db_get_ok : ∀ d k v, db_get d k = inr v → v = contents d !! k;
  db_iter_ok : ∀ d k l, db_iter d k = (l, None) →
    l = filter (λ e, lex_ltb e.1 k = false) (in_order (contents d));
  db_write_ok : ∀ d b d', db_write d b = (d', None) → contents d' = write_batch b (contents d);
  db_write_failed : ∀ d b d' m, db_write d b = (d', Some m) →
    contents d' = contents d ∨ contents d' = write_batch b (contents d);
  db_compact_ok : ∀ d, contents (db_compact d) = contents d;
}.

(** [leveldb::Cache]: [Lookup], [Insert] with a charge, and [Prune]; [held] names its
    entries. *)
Class Cache (cache : Type) := {
  cache_new : Z → cache;
  cache_lookup : cache → Bytes → cache * option Bytes;
  cache_insert : cache → Bytes → Bytes → Z → cache;
  cache_prune : cache → cache;
  held : cache → gmap Bytes Bytes;
}.

(** An LRU cache returns what was last inserted under a key, and may drop entries when
    it inserts one; pruning drops every entry that is not pinned. *)
Class CacheOk (cache : Type) `{Cache cache} : Prop := {
  cache_new_ok : ∀ n, held (cache_new n) = ∅;
  cache_lookup_ok : ∀ c k c' r, cache_lookup c k = (c', r) → r = held c !! k ∧ held c' = held c;
  cache_insert_ok : ∀ c k v n, held (cache_insert c k v n) ⊆ <[k := v]> (held c);
  cache_prune_ok : ∀ c, held (cache_prune c) = ∅;
}.

Module LevelStore.

(** [std::string integer(uint64_t n)] *)
Definition integer (n : Z) : Bytes := store n 8.

(** [uint64_t number(const std::string& b)] *)
Definition number (b : Bytes) : result Z :=
  need (len b =? 8) "invalid LevelDB counter";; Ok (load b 8).

(** [Id id(const std::string& value)] *)
Definition to_id (value : Bytes) : result Id :=
  need (len value =? 32) "invalid object reference";; Ok value.

Definition R_ : Bytes := bs "R/".
Definition O_ : Bytes := bs "O/".
Definition M_format : Bytes := bs "M/format".
Definition M_repository : Bytes := bs "M/repository".
Definition M_sequence : Bytes := bs "M/sequence".
Definition M_objects : Bytes := bs "M/objects".
Definition M_roots : Bytes := bs "M/roots".
Definition format : Bytes := bs "FFLDB001".

Definition default_object_cache_bytes : Z := 8 * 1024 * 1024.

Section WithLibraries.
Context {db cache : Type} `{LevelDB db} `{Cache cache} `{Digest}.

(** [struct RootFact {bool found;std::string value;}] *)
Record RootFact := mkRootFact { found : bool; fact : Bytes }.

Record level := mkLevel {
  db_ : db;
  sequence_ : Z;
  objects_ : Z;
  roots_ : Z;
  poisoned_ : bool;
  repository_ : Bytes;
  root_cache_ : gmap Bytes RootFact;
  root_cache_sequence_ : Z;
  object_cache_ : cache;
  object_cache_bytes_ : Z;
  cache_hits_ : Z;
  cache_misses_ : Z;
}.

Definition set_db (d : db) (s : level) : level :=
  mkLevel d (sequence_ s) (objects_ s) (roots_ s) (poisoned_ s) (repository_ s) (root_cache_ s)
    (root_cache_sequence_ s) (object_cache_ s) (object_cache_bytes_ s) (cache_hits_ s) (cache_misses_ s).
Definition set_counts (q o r : Z) (s : level) : level :=
  mkLevel (db_ s) q o r (poisoned_ s) (repository_ s) (root_cache_ s)
    (root_cache_sequence_ s) (object_cache_ s) (object_cache_bytes_ s) (cache_hits_ s) (cache_misses_ s).
Definition set_poisoned (s : level) : level :=
  mkLevel (db_ s) (sequence_ s) (objects_ s) (roots_ s) true (repository_ s) (root_cache_ s)
    (root_cache_sequence_ s) (object_cache_ s) (object_cache_bytes_ s) (cache_hits_ s) (cache_misses_ s).
Definition set_root_cache (c : gmap Bytes RootFact) (q : Z) (s : level) : level :=
  mkLevel (db_ s) (sequence_ s) (objects_ s) (roots_ s) (poisoned_ s) (repository_ s) c
    q (object_cache_ s) (object_cache_bytes_ s) (cache_hits_ s) (cache_misses_ s).
Definition set_object_cache (c : cache) (hits misses : Z) (s : level) : level :=
  mkLevel (db_ s) (sequence_ s) (objects_ s) (roots_ s) (poisoned_ s) (repository_ s) (root_cache_ s)
    (root_cache_sequence_ s) c (object_cache_bytes_ s) hits misses.

(** [void status(const leveldb::Status& s,const char* operation)] *)
Definition status (s : db_status) (operation : string) : result unit :=
  match s with None => Ok tt | Some m => Err (operation ++ ": " ++ m)%string end.

(** [void LevelStore::healthy() const] *)
Definition healthy : ST level unit :=
  p ← gets poisoned_; st_need (negb p) "LevelDB store requires reopen after write failure".

(** ** The root cache *)

(** The first critical section of [read]: the epoch, and the cached fact if any. *)
Definition cache_begin (key : Bytes) : ST level (Z * option RootFact) := λ s,
  let epoch := sequence_ s in
  let s := if root_cache_sequence_ s =? epoch then s else set_root_cache ∅ epoch s in
  (s, Ok (epoch, root_cache_ s !! key)).

(** The second critical section: install what the database answered, unless a commit
    has moved the epoch. *)
Definition cache_install (key : Bytes) (epoch : Z) (v : option Bytes) : ST level unit := λ s,
  if (sequence_ s =? epoch) && (root_cache_sequence_ s =? epoch) then
    let c := if 4096 <=? Z.of_nat (size (root_cache_ s)) then ∅ else root_cache_ s in
    (set_root_cache (<[key := mkRootFact (bool_decide (is_Some v)) (default [] v)]> c)
       (root_cache_sequence_ s) s, Ok tt)
  else (s, Ok tt).

(** [db_->Get] with its error handling. *)
Definition fetch (key : Bytes) : ST level (option Bytes) :=
  d ← gets db_;
  match db_get d key with
  | inr v => mret v
  | inl m => throw ("read LevelDB: " ++ m)%string
  end.

Definition cacheable (key : Bytes) (v : option Bytes) : bool :=
  (len key <=? 1026) && match v with None => true | Some b => len b =? 32 end.

(** [bool LevelStore::read(const std::string& key,std::string& value) const]: the value
    when the result is [true]. *)
Definition read (key : Bytes) : ST level (option Bytes) :=
  healthy;;
  if starts_with R_ key then
    '(epoch, hit) ← cache_begin key;
    match hit with
    | Some f => mret (if found f then Some (fact f) else None)
    | None =>
        v ← fetch key;
        (if cacheable key v then cache_install key epoch v else mret tt);;
        mret v
    end
  else fetch key.

(** [Id LevelStore::root(const std::string& key) const] *)
Definition root (key : Bytes) : ST level Id :=
  v ← read (R_ ++ key);
  match v with Some b => lift (to_id b) | None => throw "object root not found" end.

(** [bool LevelStore::contains(const std::string& key) const] *)
Definition contains (key : Bytes) : ST level bool :=
  v ← read (R_ ++ key); mret (bool_decide (is_Some v)).

(** [Bytes LevelStore::object(const Id& object_id) const]; the charge of an entry adds
    the size of a [std::vector] (24 bytes) and 32 bytes. *)
Definition object (object_id : Id) : ST level Bytes :=
  healthy;;
  s ← get_st;
  match cache_lookup (object_cache_ s) object_id with
  | (c, Some v) => modify (set_object_cache c (cache_hits_ s + 1) (cache_misses_ s));; mret v
  | (c, None) =>
      modify (set_object_cache c (cache_hits_ s) (cache_misses_ s + 1));;
      value ← read (O_ ++ object_id);
      match value with
      | None => throw "object not indexed"
      | Some result =>
          st_need (bool_decide (object_hash result = object_id)) "LevelDB object hash mismatch";;
          let charge := len result + 24 + 32 in
          (if charge <=? object_cache_bytes_ s / 16 then
             modify (λ s, set_object_cache (cache_insert (object_cache_ s) object_id result charge)
                            (cache_hits_ s) (cache_misses_ s) s)
           else mret tt);;
          mret result
      end
  end.

(** The entries an iterator yields while the keys keep a prefix. *)
Fixpoint while_keys (search : Bytes) (l : list (Bytes * Bytes)) : list Bytes :=
  match l with
  | [] => []
  | (key, _) :: rest => if starts_with search key then drop 2 key :: while_keys search rest else []
  end.

(** [std::vector<std::string> LevelStore::keys(const std::string& prefix) const] *)
Definition keys (prefix : Bytes) : ST level (list Bytes) :=
  healthy;;
  d ← gets db_;
  let search := R_ ++ prefix in
  let '(l, st) := db_iter d search in
  lift (status st "scan LevelDB roots");;
  mret (while_keys search l).

(** ** Transactions *)

Record batch := mkBatch {
  b_seen : gset Bytes; b_values : gmap Id Bytes; b_updates : gmap Bytes (option Id);
  b_total : Z; b_roots : Z
}.

(** One iteration of the loop over the mutations. *)
Definition plan_change (b : batch) (m : Journal.Mutation) : ST level batch :=
  let key := Journal.m_key m in
  st_need (bool_decide (key ≠ []) && (len key <=? 1024) && bool_decide (key ∉ b_seen b))
    "invalid or duplicate root key";;
  let seen := {[key]} ∪ b_seen b in
  st_need (negb (bool_decide (is_Some (Journal.m_value m))
                 && bool_decide (is_Some (Journal.m_reference m))))
    "mutation has both value and reference";;
  contains key ≫= λ exists_ : bool,
  let more := if exists_ then b_roots b else u64 (b_roots b + 1) in
  match Journal.m_reference m, Journal.m_value m with
  | Some id, _ =>
      object id;;
      mret (mkBatch seen (b_values b) (<[key := Some id]> (b_updates b)) (b_total b) more)
  | None, Some value =>
      st_need (len value <=? 256 * 1024) "object exceeds 256 KiB";;
      let hash := object_hash value in
      let '(values, total) :=
        match b_values b !! hash with
        | Some _ => (b_values b, b_total b)
        | None => (<[hash := value]> (b_values b), b_total b + len value)
        end in
      st_need (total <=? 16 * 1024 * 1024) "LevelDB batch exceeds 16 MiB";;
      mret (mkBatch seen values (<[key := Some hash]> (b_updates b)) total more)
  | None, None =>
      st_need exists_ "cannot delete absent root";;
      mret (mkBatch seen (b_values b) (<[key := None]> (b_updates b)) (b_total b)
              (u64 (b_roots b - 1)))
  end.

Fixpoint plan_changes (b : batch) (ms : list Journal.Mutation) : ST level batch :=
  match ms with
  | [] => mret b
  | m :: rest => b ← plan_change b m; plan_changes b rest
  end.

(** The writes of the new objects, and the object count after them. *)
Fixpoint object_writes (values : list (Id * Bytes)) (objects : Z)
    : ST level (list (Bytes * option Bytes) * Z) :=
  match values with
  | [] => mret ([], objects)
  | (hash, value) :: rest =>
      previous ← read (O_ ++ hash);
      match previous with
      | Some p =>
          st_need (bytes_eqb p value) "immutable object collision/corruption";;
          object_writes rest objects
      | None =>
          '(w, n) ← object_writes rest (u64 (objects + 1));
          mret ((O_ ++ hash, Some value) :: w, n)
      end
  end.

Definition root_writes (updates : gmap Bytes (option Id)) : list (Bytes * option Bytes) :=
  (λ '(key, hash), (R_ ++ key, hash)) <$> in_order updates.

Definition count_writes (sequence objects roots : Z) : list (Bytes * option Bytes) :=
  [(M_sequence, Some (integer sequence)); (M_objects, Some (integer objects));
   (M_roots, Some (integer roots))].

(** The synchronous write of a batch, which poisons the store when it fails. *)
Definition commit (b : list (Bytes * option Bytes)) (operation : string) : ST level unit := λ s,
  match db_write (db_ s) b with
  | (d, None) => (set_db d s, Ok tt)
  | (d, Some m) => (set_poisoned (set_db d s), status (Some m) operation)
  end.

(** [void LevelStore::transact(uint64_t expected,const std::vector<Mutation>& changes)] *)
Definition transact (expected : Z) (changes : list Journal.Mutation) : ST level unit :=
  healthy;;
  s ← get_st;
  st_need (expected =? sequence_ s) "transaction conflict: sequence changed";;
  st_need (negb (sequence_ s =? UINT64_MAX)) "transaction sequence exhausted";;
  st_need ((0 <? len changes) && (len changes <=? 4096)) "LevelDB batch requires 1..4096 mutations";;
  b ← plan_changes (mkBatch ∅ ∅ ∅ 0 (roots_ s)) changes;
  '(w, objects) ← object_writes (in_order (b_values b)) (objects_ s);
  commit (w ++ root_writes (b_updates b)
            ++ count_writes (sequence_ s + 1) objects (b_roots b)) "commit LevelDB batch";;
  modify (λ s, set_counts (sequence_ s + 1) objects (b_roots b) s).

(** ** Verification and collection *)

(** The loop of [verify] over the entries: the roots and objects counted. *)
Fixpoint verify_entries (l : list (Bytes * Bytes)) (roots objects : Z) : ST level (Z * Z) :=
  match l with
  | [] => mret (roots, objects)
  | (key, value) :: rest =>
      if starts_with O_ key then
        st_need (len key =? 34) "invalid object key";;
        i ← lift (to_id (drop 2 key));
        st_need (bool_decide (object_hash value = i)) "object checksum mismatch";;
        verify_entries rest roots (u64 (objects + 1))
      else if starts_with R_ key then
        i ← lift (to_id value);
        object i;;
        verify_entries rest (u64 (roots + 1)) objects
      else
        st_need (bytes_eqb key M_format || bytes_eqb key M_repository || bytes_eqb key M_sequence
                 || bytes_eqb key M_objects || bytes_eqb key M_roots) "unknown metadata key";;
        verify_entries rest roots objects
  end.

(** [void LevelStore::verify() const] *)
Definition verify : ST level unit :=
  healthy;;
  d ← gets db_;
  let '(l, st) := db_iter d [] in
  '(roots, objects) ← verify_entries l 0 0;
  lift (status st "verify LevelDB");;
  s ← get_st;
  st_need ((roots =? roots_ s) && (objects =? objects_ s)) "LevelDB count mismatch".

(** [void LevelStore::compact()] *)
Definition compact : ST level unit :=
  healthy;;
  modify (λ s, set_db (db_compact (db_ s)) s);;
  verify.

Fixpoint check_live (live : list Id) : ST level unit :=
  match live with
  | [] => mret tt
  | hash :: rest =>
      v ← read (O_ ++ hash);
      st_need (bool_decide (is_Some v)) "GC live object missing";;
      check_live rest
  end.

(** The scan of [collect] over the objects: the keys to delete. *)
Fixpoint sweep (live : gset Id) (l : list (Bytes * Bytes)) : result (list Bytes) :=
  match l with
  | [] => Ok []
  | (key, _) :: rest =>
      if starts_with O_ key then
        need (len key =? 34) "invalid object key";;
        i ← to_id (drop 2 key);
        dead ← sweep live rest;
        Ok (if bool_decide (i ∈ live) then dead else key :: dead)
      else Ok []
  end.

Fixpoint check_roots (obsolete : list Bytes) : ST level unit :=
  match obsolete with
  | [] => mret tt
  | key :: rest =>
      c ← contains key;
      st_need c "GC root disappeared";;
      check_roots rest
  end.

(** [size_t LevelStore::collect(uint64_t expected,const std::set<Id>& live,
    const std::vector<std::string>& obsolete_roots)] *)
Definition collect (expected : Z) (live : gset Id) (obsolete_roots : list Bytes) : ST level Z :=
  healthy;;
  s ← get_st;
  st_need ((sequence_ s =? expected) && negb (expected =? UINT64_MAX)) "GC sequence conflict";;
  check_live (in_order (gset_to_gmap tt live)).*1;;
  let '(l, st) := db_iter (db_ s) O_ in
  dead ← lift (sweep live l);
  lift (status st "scan GC objects");;
  check_roots obsolete_roots;;
  let removed := len dead in
  st_need ((removed <=? objects_ s) && (len obsolete_roots <=? roots_ s)) "invalid GC counters";;
  commit (((λ k, (k, None)) <$> dead) ++ ((λ k, (R_ ++ k, None)) <$> obsolete_roots)
            ++ count_writes (expected + 1) (objects_ s - removed) (roots_ s - len obsolete_roots))
    "commit GC";;
  modify (λ s, set_counts (expected + 1) (objects_ s - removed) (roots_ s - len obsolete_roots) s);;
  modify (λ s, set_object_cache (cache_prune (object_cache_ s)) (cache_hits_ s) (cache_misses_ s) s);;
  mret removed.

(** ** Opening *)

(** The batch that initialises a repository with 16 random bytes. *)
Definition initial_batch (repository : Bytes) : list (Bytes * option Bytes) :=
  (M_format, Some format) :: (M_repository, Some repository) :: count_writes 0 0 0.

Definition required (key : Bytes) (message : string) : ST level Bytes :=
  v ← read key; match v with Some b => mret b | None => throw message end.

(** [if(initialize) {...}] with the 16 bytes read from the entropy source. *)
Definition initialize (e : Bytes) : ST level unit := λ s,
  match db_write (db_ s) (initial_batch e) with
  | (d, None) => (set_db d s, Ok tt)
  | (d, Some m) => (set_db d s, status (Some m) "initialize LevelDB repository")
  end.

(** The rest of the constructor: the metadata of the repository. *)
Definition read_metadata : ST level unit :=
  f ← read M_format;
  st_need (bool_decide (f = Some format)) "unsupported LevelDB repository format";;
  r ← read M_repository;
  st_need (match r with Some v => len v =? 16 | None => false end) "invalid repository identity";;
  q ← (v ← required M_sequence "missing sequence"; lift (number v));
  o ← (v ← required M_objects "missing object count"; lift (number v));
  n ← (v ← required M_roots "missing root count"; lift (number v));
  modify (λ s, mkLevel (db_ s) q o n (poisoned_ s) (hex_id (default [] r)) (root_cache_ s)
    (root_cache_sequence_ s) (object_cache_ s) (object_cache_bytes_ s) (cache_hits_ s)
    (cache_misses_ s)).

(** [LevelStore::LevelStore(path,initialize,object_cache_bytes)] on a database that
    [DB::Open] returned; [entropy] is [Some] of 16 random bytes when it initialises. *)
Definition open_store (entropy : option Bytes) (object_cache_bytes : Z) (d : db) : result level :=
  let s0 := mkLevel d 0 0 0 false [] ∅ UINT64_MAX (cache_new object_cache_bytes) object_cache_bytes 0 0 in
  match ((match entropy with Some e => initialize e | None => mret tt end);; read_metadata) s0 with
  | (s, Ok _) => Ok s
  | (_, Err m) => Err m
  | (_, OutOfFuel) => OutOfFuel
  end.
End WithLibraries.
Arguments level : clear implicits.
End LevelStore.
