(* ===== verification/LevelStoreProofs.v ===== *)
(** * The LevelDB store represents the abstract store

    The database entries that stand for an abstract store, what a live object of the
    class must satisfy, and that its reads answer from the store, whatever the caches
    hold. *)

From S2P Require Import Prelude Codec Treap Journal JournalOps JournalTransact JournalStore.
From S2P Require Import JournalRuns LevelStore.
Import LevelStore.
Local Open Scope Z_scope.

(** ** Write batches *)

Lemma write_batch_app b c m : write_batch (b ++ c) m = write_batch c (write_batch b m).
Proof. unfold write_batch. by rewrite foldl_app. Qed.

Lemma write_batch_lookup b m k :
  NoDup b.*1 →
  write_batch b m !! k =
  match (list_to_map b : gmap Bytes (option Bytes)) !! k with Some v => v | None => m !! k end.
Proof.
  revert m. induction b as [|[k' v] b IH]; intros m Hnd; [done|].
  rewrite fmap_cons in Hnd. apply NoDup_cons in Hnd as [Hk' Hnd]. cbn [fst] in Hk'.
  unfold write_batch in *. cbn [foldl list_to_map foldr]. rewrite IH by done.
  destruct (decide (k' = k)) as [->|Hne].
  - rewrite not_elem_of_list_to_map_1 by done. unfold write_entry. cbn [fst snd curry].
    rewrite (lookup_insert_eq (list_to_map b)). destruct v; [by rewrite lookup_insert_eq|by rewrite lookup_delete_eq].
  - rewrite (lookup_insert_ne (list_to_map b)) by done. destruct (_ !! k); [done|].
    unfold write_entry. cbn [fst snd]. destruct v; [by rewrite lookup_insert_ne|by rewrite lookup_delete_ne].
Qed.

(** ** Keys of the database *)

(** Roots, objects, and the rest. *)
Inductive key_kind : Bytes → Prop :=
| kind_root k : key_kind (R_ ++ k)
| kind_object id : key_kind (O_ ++ id)
| kind_other k : starts_with R_ k = false → starts_with O_ k = false → key_kind k.

Lemma key_kinds k : key_kind k.
Proof.
  destruct (starts_with R_ k) eqn:ER.
  { apply starts_with_spec in ER as [t ->]. constructor. }
  destruct (starts_with O_ k) eqn:EO; [|by constructor].
  apply starts_with_spec in EO as [t ->]. constructor.
Qed.

#[global] Instance app_R_inj : Inj (=) (=) (app R_).
Proof. intros a b. apply app_inv_head. Qed.
#[global] Instance app_O_inj : Inj (=) (=) (app O_).
Proof. intros a b. apply app_inv_head. Qed.

(** The metadata entries. *)
Definition meta (repo : Bytes) (sequence objects roots : Z) : gmap Bytes Bytes :=
  <[M_sequence := integer sequence]> (<[M_objects := integer objects]> (<[M_roots := integer roots]>
    {[M_format := format; M_repository := repo]})).

(** The entries that stand for a store. *)
Definition image (repo : Bytes) (s : kv) : gmap Bytes Bytes :=
  meta repo (kv_seq s) (Z.of_nat (size (kv_objects s))) (Z.of_nat (size (kv_roots s)))
  ∪ (kmap (app R_) (kv_roots s) ∪ kmap (app O_) (kv_objects s)).

Lemma meta_other repo q o r k : meta repo q o r !! k ≠ None →
  starts_with R_ k = false ∧ starts_with O_ k = false.
Proof.
  unfold meta. intros Hk.
  destruct (decide (M_sequence = k)) as [<-|H1]; [done|].
  destruct (decide (M_objects = k)) as [<-|H2]; [done|].
  destruct (decide (M_roots = k)) as [<-|H3]; [done|].
  destruct (decide (M_format = k)) as [<-|H4]; [done|].
  destruct (decide (M_repository = k)) as [<-|H5]; [done|].
  by rewrite !lookup_insert_ne, lookup_singleton_ne in Hk.
Qed.

Lemma image_root repo s k : image repo s !! (R_ ++ k) = kv_roots s !! k.
Proof.
  unfold image. rewrite !lookup_union.
  destruct (meta _ _ _ _ !! (R_ ++ k)) eqn:E.
  { assert (starts_with R_ (R_ ++ k) = false) as Hx by (eapply meta_other; by rewrite E).
    by rewrite starts_with_app in Hx. }
  rewrite (lookup_kmap (app R_)).
  destruct (kmap (app O_) _ !! _) eqn:EO.
  { apply lookup_kmap_Some in EO as (i & Hi & _); [done|apply _]. }
  by destruct (kv_roots s !! k).
Qed.

Lemma image_object repo s id : image repo s !! (O_ ++ id) = kv_objects s !! id.
Proof.
  unfold image. rewrite !lookup_union.
  destruct (meta _ _ _ _ !! (O_ ++ id)) eqn:E.
  { assert (starts_with O_ (O_ ++ id) = false) as Hx by (eapply meta_other; by rewrite E).
    by rewrite starts_with_app in Hx. }
  rewrite (lookup_kmap (app O_)).
  destruct (kmap (app R_) _ !! _) eqn:ER.
  { apply lookup_kmap_Some in ER as (i & Hi & _); [done|apply _]. }
  by destruct (kv_objects s !! id).
Qed.

Lemma image_other repo s k :
  starts_with R_ k = false → starts_with O_ k = false →
  image repo s !! k =
  meta repo (kv_seq s) (Z.of_nat (size (kv_objects s))) (Z.of_nat (size (kv_roots s))) !! k.
Proof.
  intros HR HO. unfold image. rewrite !lookup_union.
  destruct (kmap (app R_) _ !! k) eqn:ER.
  { apply lookup_kmap_Some in ER as (i & -> & _); [|apply _]. by rewrite starts_with_app in HR. }
  destruct (kmap (app O_) _ !! k) eqn:EO.
  { apply lookup_kmap_Some in EO as (i & -> & _); [|apply _]. by rewrite starts_with_app in HO. }
  by destruct (meta _ _ _ _ !! k).
Qed.

(** The roots in order are the root entries in order. *)
Lemma lex_compare_app p a b : lex_compare (p ++ a) (p ++ b) = lex_compare a b.
Proof. induction p as [|x p IH]; [done|]. simpl. by rewrite Z.compare_refl. Qed.

Lemma lex_ltb_app p a b : lex_ltb (p ++ a) (p ++ b) = lex_ltb a b.
Proof. unfold lex_ltb. by rewrite lex_compare_app. Qed.

Lemma starts_with_app_head p q k : starts_with (p ++ q) (p ++ k) = starts_with q k.
Proof.
  induction p as [|x p IH]; [done|]. simpl. by rewrite bool_decide_eq_true_2.
Qed.

Lemma increasing_strip p l : increasing (app p <$> l) → increasing l.
Proof.
  induction l as [|x l IH]; [done|]. rewrite fmap_cons. intros [Hx Hl]. split; [|by apply IH].
  rewrite Forall_fmap in Hx. eapply Forall_impl; [exact Hx|]. intros y Hy. unfold compose, lex_lt in *.
  by rewrite lex_ltb_app in Hy.
Qed.

Lemma while_keys_spec search l :
  increasing l.*1 → (∀ k v, (k, v) ∈ l → lex_ltb k search = false) →
  while_keys search l = (λ e, drop 2 e.1) <$> filter (λ e, starts_with search e.1 = true) l.
Proof.
  induction l as [|[k v] l IH]; [done|]. intros [Hk Hl] Hge. cbn [while_keys].
  destruct (starts_with search k) eqn:E.
  - rewrite filter_cons_True, fmap_cons by done. f_equal. apply IH; [done|]. set_solver.
  - rewrite filter_cons_False by (cbn [fst]; congruence). rewrite list_filter_none; [done|].
    apply Forall_forall. intros [k' v'] Hin Hp. cbn [fst] in Hp.
    assert (lex_lt k k') as Hlt.
    { rewrite Forall_forall in Hk. apply Hk. apply list_elem_of_fmap. by exists (k', v'). }
    assert (starts_with search k = true); [|congruence].
    apply (starts_with_between search k k'); [|apply lex_le_lt_eq; by left|done].
    apply lex_not_lt. apply (Hge k v). set_solver.
Qed.

Lemma image_keys repo s prefix :
  while_keys (R_ ++ prefix)
    (filter (λ e, lex_ltb e.1 (R_ ++ prefix) = false) (in_order (image repo s))) =
  filter (λ k, starts_with prefix k = true) (in_order (kv_roots s)).*1.
Proof.
  set (l := filter (λ e, lex_ltb e.1 (R_ ++ prefix) = false) (in_order (image repo s))).
  assert (increasing l.*1) as Hl by (apply increasing_sublist, increasing_in_order).
  rewrite while_keys_spec.
  2: done.
  2: intros k v [Hk _]%list_elem_of_filter; exact Hk.
  assert (∀ k v, (k, v) ∈ filter (λ e, starts_with (R_ ++ prefix) e.1 = true) l ↔
    ∃ k', k = R_ ++ k' ∧ starts_with prefix k' = true ∧ kv_roots s !! k' = Some v) as Hin.
  { intros k v. rewrite list_elem_of_filter. unfold l. rewrite list_elem_of_filter, elem_of_in_order.
    cbn [fst]. split.
    - intros (Hp & _ & Hk). apply starts_with_spec in Hp as [t ->]. rewrite <- app_assoc in *.
      rewrite image_root in Hk. exists (prefix ++ t). by rewrite starts_with_app.
    - intros (k' & -> & Hp & Hk). rewrite starts_with_app_head, lex_ltb_app, image_root.
      split_and!; [done| |done]. by apply lex_not_lt, lex_le_prefix. }
  apply increasing_unique.
  - apply (increasing_strip R_). rewrite <- list_fmap_compose.
    eapply (eq_rect _ increasing); [apply (increasing_sublist l (λ e, starts_with (R_ ++ prefix) e.1 = true) Hl)|].
    apply list_fmap_ext. intros i [k v] Hi. apply list_elem_of_lookup_2, Hin in Hi as (k' & -> & _).
    reflexivity.
  - apply increasing_filter, increasing_in_order.
  - intros k. rewrite list_elem_of_fmap, list_elem_of_filter, list_elem_of_fmap. split.
    + intros ([k0 v] & -> & (k' & -> & Hp & Hk)%Hin). cbn [fst]. change (drop 2 (R_ ++ k')) with k'.
      split; [done|]. exists (k', v). by rewrite elem_of_in_order.
    + intros (Hp & [k' v] & -> & Hk%elem_of_in_order). exists (R_ ++ k', v).
      split; [done|]. apply Hin. eauto.
Qed.

(** ** The invariant *)

(** A store that a repository can hold. *)
Record kv_ok `{Digest} (s : kv) : Prop := {
  ok_seq : 0 ≤ kv_seq s ≤ UINT64_MAX;
  ok_objects : ∀ id v, kv_objects s !! id = Some v → id = object_hash v ∧ len v ≤ 256 * 1024;
  ok_roots : ∀ k id, kv_roots s !! k = Some id →
    is_Some (kv_objects s !! id) ∧ (0 < length k ≤ 1024)%nat;
  ok_counts : Z.of_nat (size (kv_objects s)) ≤ UINT64_MAX ∧ Z.of_nat (size (kv_roots s)) ≤ UINT64_MAX;
}.

Section Level.
Context {db cache : Type} `{LevelDBOk db} `{CacheOk cache} `{DigestOk}.
Implicit Types st : level db cache.

(** The root cache holds facts of its own epoch, which a commit leaves behind. *)
Record root_cache_ok (repo : Bytes) (s : kv) st : Prop := {
  rc_facts : root_cache_sequence_ st = sequence_ st → ∀ key f, root_cache_ st !! key = Some f →
    image repo s !! key = (if found f then Some (fact f) else None);
  rc_epoch : root_cache_sequence_ st ≤ sequence_ st ∨ root_cache_ st = ∅;
}.

(** A live object of the class stands for [s]. *)
Record level_ok (repo : Bytes) (s : kv) st : Prop := {
  lv_kv : kv_ok s;
  lv_alive : poisoned_ st = false;
  lv_contents : contents (db_ st) = image repo s;
  lv_sequence : sequence_ st = kv_seq s;
  lv_objects : objects_ st = Z.of_nat (size (kv_objects s));
  lv_roots : roots_ st = Z.of_nat (size (kv_roots s));
  lv_repo : length repo = 16%nat ∧ repository_ st = hex_id repo;
  lv_root_cache : root_cache_ok repo s st;
  lv_object_cache : ∀ id v, held (object_cache_ st) !! id = Some v → kv_objects s !! id = Some v;
}.

(** Everything but the caches. *)
Definition same_core st st' : Prop :=
  db_ st' = db_ st ∧ sequence_ st' = sequence_ st ∧ objects_ st' = objects_ st ∧
  roots_ st' = roots_ st ∧ poisoned_ st' = poisoned_ st ∧ repository_ st' = repository_ st.

#[global] Instance same_core_refl : Reflexive same_core.
Proof. intros st. done. Qed.
#[global] Instance same_core_trans : Transitive same_core.
Proof. intros s1 s2 s3 (?&?&?&?&?&?) (?&?&?&?&?&?). unfold same_core. split_and!; congruence. Qed.

(** [m] only fills caches, and answers [Q] or reports a database error. *)
Definition answers {A} (repo : Bytes) (s : kv) (m : ST (level db cache) A) (Q : A → Prop) : Prop :=
  ∀ st, level_ok repo s st →
    let '(st', r) := m st in
    level_ok repo s st' ∧ same_core st st' ∧
    match r with Ok a => Q a | Err _ => True | OutOfFuel => False end.

Section Answers.
Context (repo : Bytes) (s : kv).

Lemma answers_bind {A B} (m : ST _ A) (f : A → ST _ B) Q R :
  answers repo s m Q → (∀ a, Q a → answers repo s (f a) R) → answers repo s (m ≫= f) R.
Proof.
  intros Hm Hf st Hst. specialize (Hm st Hst). unfold mbind, st_bind.
  destruct (m st) as [st1 [a|e|]]; destruct Hm as (H1' & Hc & HQ); [|done..].
  specialize (Hf a HQ st1 H1'). destruct (f a st1) as [st2 r]. destruct Hf as (H2' & Hc2 & HR).
  split_and!; [done|by etrans|done].
Qed.

Lemma answers_ret {A} (a : A) (Q : A → Prop) : Q a → answers repo s (mret a) Q.
Proof. intros HQ st Hst. done. Qed.
Lemma answers_throw {A} msg (Q : A → Prop) : answers repo s (throw msg) Q.
Proof. intros st Hst. done. Qed.
Lemma answers_lift {A} (r : result A) (Q : A → Prop) :
  total r → (∀ a, r = Ok a → Q a) → answers repo s (lift r) Q.
Proof. intros Ht HQ st Hst. unfold lift. destruct r; [|done|by destruct Ht]. split_and!; auto. done. Qed.
Lemma answers_need ok msg : answers repo s (st_need ok msg) (λ _, ok = true).
Proof. apply answers_lift; [apply total_need|]. intros [] H'. by apply need_Ok in H'. Qed.
Lemma answers_gets {A} (f : level db cache → A) Q :
  (∀ st, level_ok repo s st → Q (f st)) → answers repo s (gets f) Q.
Proof. intros HQ st Hst. split_and!; [done|done|]. by apply HQ. Qed.
Lemma answers_get Q : (∀ st, level_ok repo s st → Q st) → answers repo s get_st Q.
Proof. intros HQ st Hst. split_and!; [done|done|]. by apply HQ. Qed.
Lemma answers_weaken {A} (m : ST _ A) (Q R : A → Prop) :
  answers repo s m Q → (∀ a, Q a → R a) → answers repo s m R.
Proof.
  intros Hm HQR st Hst. specialize (Hm st Hst). destruct (m st) as [st' [a|e|]];
    destruct Hm as (? & ? & ?); split_and!; auto.
Qed.

Lemma healthy_answers : answers repo s healthy (λ _, True).
Proof.
  apply (answers_bind _ _ (λ p, p = false)); [apply answers_gets; intros st Hst; apply Hst|].
  intros p ->. by apply answers_weaken with (λ _, negb false = true); [apply answers_need|].
Qed.

Lemma set_root_cache_ok st c q :
  level_ok repo s st → root_cache_ok repo s (set_root_cache c q st) →
  level_ok repo s (set_root_cache c q st).
Proof. intros [] Hc. by split. Qed.

Lemma cache_begin_answers key :
  answers repo s (cache_begin key) (λ '(epoch, hit), ∀ f, hit = Some f →
    image repo s !! key = (if found f then Some (fact f) else None)).
Proof.
  intros st Hst. unfold cache_begin. cbv zeta.
  destruct (Z.eqb_spec (root_cache_sequence_ st) (sequence_ st)) as [E|E].
  - split_and!; [done|done|]. intros f Hf. by apply (rc_facts _ _ _ (lv_root_cache _ _ _ Hst) E).
  - split_and!; [|done|].
    + apply set_root_cache_ok; [done|]. split; cbn; [|by right].
      intros _ k f. by rewrite lookup_empty.
    + cbn. intros f. by rewrite lookup_empty.
Qed.

Lemma cache_install_answers key epoch v :
  v = image repo s !! key → answers repo s (cache_install key epoch v) (λ _, True).
Proof.
  intros Hv st Hst. unfold cache_install.
  destruct (Z.eqb_spec (sequence_ st) epoch) as [E1|]; [|done].
  destruct (Z.eqb_spec (root_cache_sequence_ st) epoch) as [E2|]; [|done]. cbn [andb].
  split_and!; [|done|done]. apply set_root_cache_ok; [done|]. split; cbn [root_cache_ set_root_cache root_cache_sequence_ sequence_]; [|left; lia].
  intros _ k f Hf. destruct (decide (key = k)) as [<-|Hne].
  - rewrite lookup_insert_eq in Hf. injection Hf as <-. cbn [found fact].
    rewrite <- Hv. by destruct v.
  - rewrite lookup_insert_ne in Hf by done.
    apply (rc_facts _ _ _ (lv_root_cache _ _ _ Hst)); [congruence|].
    destruct (_ <=? _); [by rewrite lookup_empty in Hf|done].
Qed.

Lemma fetch_answers key : answers repo s (fetch key) (λ v, v = image repo s !! key).
Proof.
  apply (answers_bind _ _ (λ d, contents d = image repo s)).
  { apply answers_gets. intros st Hst. apply Hst. }
  intros d Hd. destruct (db_get d key) as [m|v] eqn:E; [apply answers_throw|].
  apply answers_ret. rewrite <- Hd. by apply db_get_ok.
Qed.

Lemma read_answers key : answers repo s (read key) (λ v, v = image repo s !! key).
Proof.
  eapply answers_bind; [apply healthy_answers|]. intros _ _.
  destruct (starts_with R_ key); [|apply fetch_answers].
  eapply answers_bind; [apply cache_begin_answers|]. intros [epoch [f|]] Hf.
  - apply answers_ret. symmetry. by apply Hf.
  - eapply answers_bind; [apply fetch_answers|]. intros v Hv.
    apply (answers_bind _ _ (λ _, True)); [|intros _ _; by apply answers_ret].
    destruct (cacheable key v); [by apply cache_install_answers|by apply answers_ret].
Qed.

Lemma contains_answers key :
  answers repo s (contains key) (λ b, b = bool_decide (is_Some (kv_roots s !! key))).
Proof.
  eapply answers_bind; [apply read_answers|]. intros v ->. apply answers_ret.
  by rewrite image_root.
Qed.

Lemma root_answers key : answers repo s (root key) (λ id, kv_roots s !! key = Some id).
Proof.
  eapply answers_bind; [apply read_answers|]. intros v Hv. rewrite image_root in Hv.
  destruct v as [b|]; [|apply answers_throw]. apply answers_lift.
  - unfold to_id. solve_total.
  - intros a Ha. unfold to_id in Ha. apply need_bind_Ok in Ha as [_ [= <-]]. done.
Qed.

Lemma set_object_cache_ok st c h m :
  level_ok repo s st → (∀ id v, held c !! id = Some v → kv_objects s !! id = Some v) →
  level_ok repo s (set_object_cache c h m st).
Proof. intros [] Hc. split; try done. by destruct lv_root_cache0. Qed.

Lemma modify_answers (f : level db cache → level db cache) :
  (∀ st, level_ok repo s st → level_ok repo s (f st) ∧ same_core st (f st)) →
  answers repo s (modify f) (λ _, True).
Proof. intros Hf st Hst. unfold modify. by destruct (Hf st Hst). Qed.

Lemma object_answers id : answers repo s (object id) (λ v, kv_objects s !! id = Some v).
Proof.
  eapply answers_bind; [apply healthy_answers|]. intros _ _.
  apply (answers_bind _ _ (level_ok repo s)); [by apply answers_get|]. intros st0 Hst0.
  destruct (cache_lookup (object_cache_ st0) id) as [c r] eqn:E.
  apply cache_lookup_ok in E as [Er Ec].
  assert (∀ id v, held c !! id = Some v → kv_objects s !! id = Some v) as Hheld.
  { intros i v. rewrite Ec. apply Hst0. }
  destruct r as [v|].
  - eapply answers_bind; [apply modify_answers; intros st Hst; split; [by apply set_object_cache_ok|done]|].
    intros _ _. apply answers_ret. by apply Hst0.
  - eapply answers_bind; [apply modify_answers; intros st Hst; split; [by apply set_object_cache_ok|done]|].
    intros _ _. eapply answers_bind; [apply read_answers|]. intros value Hv. rewrite image_object in Hv.
    destruct value as [result|]; [|apply answers_throw].
    eapply answers_bind; [apply answers_need|]. intros _ _. cbv zeta.
    apply (answers_bind _ _ (λ _, True)); [|intros _ _; by apply answers_ret].
    destruct (_ <=? _); [|by apply answers_ret].
    apply modify_answers. intros st Hst. split; [|done]. apply set_object_cache_ok; [done|].
    intros i v Hi. pose proof (cache_insert_ok (object_cache_ st) id result (len result + 24 + 32)) as Hsub.
    eapply lookup_weaken in Hi; [|exact Hsub].
    destruct (decide (id = i)) as [<-|Hne]; [rewrite lookup_insert_eq in Hi; congruence|].
    rewrite lookup_insert_ne in Hi by done. by apply Hst.
Qed.

Lemma keys_answers prefix :
  answers repo s (keys prefix)
    (λ l, l = filter (λ k, starts_with prefix k = true) (in_order (kv_roots s)).*1).
Proof.
  eapply answers_bind; [apply healthy_answers|]. intros _ _.
  apply (answers_bind _ _ (λ d, contents d = image repo s)).
  { apply answers_gets. intros st Hst. apply Hst. }
  intros d Hd. cbv zeta. destruct (db_iter d (R_ ++ prefix)) as [l [m|]] eqn:E.
  - apply (answers_bind _ _ (λ _, False)); [|done]. apply answers_lift; [apply total_Err|done].
  - apply (answers_bind _ _ (λ _, True)); [apply answers_lift; [apply total_Ok|done]|].
    intros _ _. apply answers_ret. apply db_iter_ok in E as ->. rewrite Hd. apply image_keys.
Qed.
End Answers.
End Level.
