(* ===== verification/LevelStoreTransact.v ===== *)
(** * Transactions, collection and opening of the LevelDB store

    [transact] writes exactly the entries by which the image of the store changes;
    [collect] removes exactly the unmarked objects and the given roots; the constructor
    reads back what they leave. *)

From S2P Require Import Prelude Codec Treap Journal JournalOps JournalTransact JournalStore JournalRuns.
From S2P Require Import LevelStore LevelStoreProofs.
Import LevelStore.
Local Open Scope Z_scope.

(** ** Counters *)

Lemma u64_small z : 0 ≤ z ≤ UINT64_MAX → u64 z = z.
Proof. intros Hz. unfold u64, UINT64_MAX in *. apply Z.mod_small. lia. Qed.
Lemma u64_add a b : u64 (u64 a + b) = u64 (a + b).
Proof. unfold u64. by rewrite Zplus_mod_idemp_l. Qed.

(** ** Rebinding keys *)

Lemma rebind_lookup C R k :
  rebind C R !! k = match C !! k with Some v => v | None => R !! k end.
Proof.
  unfold rebind. rewrite lookup_merge. unfold diag_None. by destruct (C !! k), (R !! k).
Qed.

Lemma rebind_insert k t C R :
  rebind (<[k := t]> C) R =
  match t with Some id => <[k := id]> (rebind C R) | None => delete k (rebind C R) end.
Proof.
  apply map_eq. intros i. rewrite rebind_lookup. destruct (decide (k = i)) as [<-|Hne].
  - rewrite lookup_insert_eq. destruct t; [by rewrite lookup_insert_eq|by rewrite lookup_delete_eq].
  - rewrite lookup_insert_ne by done.
    destruct t; [rewrite lookup_insert_ne by done|rewrite lookup_delete_ne by done]; by rewrite rebind_lookup.
Qed.

Lemma rebind_empty R : rebind ∅ R = R.
Proof. apply map_eq. intros k. by rewrite rebind_lookup, lookup_empty. Qed.

(** The number of keys after one more change of a key not changed yet. *)
Lemma size_rebind_insert k t C R :
  C !! k = None → (t = None → is_Some (R !! k)) →
  Z.of_nat (size (rebind (<[k := t]> C) R)) =
  Z.of_nat (size (rebind C R)) +
    match t with Some _ => if bool_decide (is_Some (R !! k)) then 0 else 1 | None => -1 end.
Proof.
  intros HC Ht. rewrite rebind_insert.
  assert (rebind C R !! k = R !! k) as Hk by (by rewrite rebind_lookup, HC).
  destruct t as [id|].
  - destruct (R !! k) as [id'|] eqn:E.
    + rewrite map_size_insert_Some by (by rewrite Hk; eauto). simpl. lia.
    + rewrite map_size_insert_None by done. rewrite bool_decide_eq_false_2 by (by intros [? ?]). lia.
  - destruct (Ht eq_refl) as [id' E].
    assert (size (rebind C R) = S (size (delete k (rebind C R)))) as ->; [|lia].
    rewrite map_size_delete_Some by (rewrite Hk; eauto).
    assert (size (rebind C R) ≠ 0%nat); [|lia].
    intros H0%map_size_empty_inv. rewrite H0, lookup_empty in Hk. congruence.
Qed.

Section LevelTransact.
Context {db cache : Type} `{LevelDBOk db} `{CacheOk cache} `{DigestOk}.
Implicit Types st : level db cache.

(** ** Planning *)

(** A mutation the store accepts. *)
Definition change_ok (s : kv) (m : Journal.Mutation) : Prop :=
  (0 < length (Journal.m_key m) ≤ 1024)%nat ∧
  match Journal.m_reference m, Journal.m_value m with
  | Some id, None => is_Some (kv_objects s !! id)
  | None, Some v => len v ≤ 256 * 1024
  | None, None => is_Some (kv_roots s !! Journal.m_key m)
  | Some _, Some _ => False
  end.

Record level_planned (s : kv) (ms : list Journal.Mutation) (b : batch) : Prop := {
  lp_updates : b_updates b = targets ms;
  lp_seen : ∀ k, k ∈ b_seen b ↔ k ∈ Journal.m_key <$> ms;
  lp_nodup : NoDup (Journal.m_key <$> ms);
  lp_ok : Forall (change_ok s) ms;
  lp_values : b_values b = batch_values ms;
  lp_roots : b_roots b = u64 (Z.of_nat (size (rebind (targets ms) (kv_roots s))));
}.

Lemma level_planned_nil s :
  Z.of_nat (size (kv_roots s)) ≤ UINT64_MAX →
  level_planned s [] (mkBatch ∅ ∅ ∅ 0 (Z.of_nat (size (kv_roots s)))).
Proof.
  intros Hs. split; cbn; [done|set_solver|apply NoDup_nil_2|apply Forall_nil_2|done|].
  unfold targets. cbn. rewrite rebind_empty, u64_small; [done|lia].
Qed.

Lemma level_planned_snoc (s : kv) (ms : list Journal.Mutation) (b b' : batch) (m : Journal.Mutation) :
  level_planned s ms b → change_ok s m → Journal.m_key m ∉ b_seen b →
  b_updates b' = <[Journal.m_key m := target m]> (b_updates b) →
  b_seen b' = {[Journal.m_key m]} ∪ b_seen b →
  b_values b' = store_value (b_values b) m →
  b_roots b' = u64 (b_roots b + match target m with
    | Some _ => if bool_decide (is_Some (kv_roots s !! Journal.m_key m)) then 0 else 1
    | None => -1 end) →
  level_planned s (ms ++ [m]) b'.
Proof.
  intros [Hu Hs Hnd Hok Hv Hr] Hm Hk Hu' Hs' Hv' Hr'. rewrite Hs in Hk. split.
  - by rewrite targets_snoc, <- Hu.
  - intros k. rewrite Hs', fmap_app, elem_of_app. set_solver.
  - rewrite fmap_app. apply NoDup_app. split_and!; [done| |apply NoDup_singleton]. set_solver.
  - apply Forall_app. split; [done|]. by apply Forall_singleton.
  - by rewrite batch_values_snoc, <- Hv.
  - rewrite Hr', Hr, u64_add, targets_snoc by done. f_equal.
    rewrite size_rebind_insert; [done|by apply targets_lookup_None|].
    intros Ht. destruct Hm as [_ Hm]. unfold target in Ht.
    destruct (Journal.m_reference m); [done|]. by destruct (Journal.m_value m).
Qed.

Lemma more_roots s ms b (e : bool) :
  level_planned s ms b →
  (if e then b_roots b else u64 (b_roots b + 1)) = u64 (b_roots b + if e then 0 else 1).
Proof.
  intros Hb. destruct e; [|done]. rewrite (lp_roots _ _ _ Hb), u64_add. f_equal. lia.
Qed.

Lemma plan_change_answers repo s ms b m :
  level_planned s ms b → answers repo s (plan_change b m : ST (level db cache) batch)
    (level_planned s (ms ++ [m])).
Proof.
  intros Hb. unfold plan_change. cbv zeta.
  eapply answers_bind; [apply answers_need|]. intros [] Hk. rewrite !andb_true_iff, !bool_decide_eq_true, Z.leb_le in Hk.
  destruct Hk as [[Hk0 Hk1] Hseen].
  assert (0 < length (Journal.m_key m) ≤ 1024)%nat as Hkl.
  { unfold len in Hk1. destruct (Journal.m_key m); [done|]. simpl in *. lia. }
  eapply answers_bind; [apply answers_need|]. intros [] Hboth.
  eapply answers_bind; [apply contains_answers|]. intros e ->.
  destruct (Journal.m_reference m) as [id|] eqn:Er.
  { destruct (Journal.m_value m) eqn:Ev; [done|].
    eapply answers_bind; [apply object_answers|]. intros v Hv. apply answers_ret.
    apply (level_planned_snoc s ms b); cbn [b_updates b_seen b_values b_roots]; try done.
    - split; [done|]. rewrite Er, Ev. by exists v.
    - unfold target. by rewrite Er.
    - unfold store_value. by rewrite Er.
    - unfold target. rewrite Er. by eapply more_roots. }
  destruct (Journal.m_value m) as [value|] eqn:Ev.
  - eapply answers_bind; [apply answers_need|]. intros [] Hlen%Z.leb_le.
    set (vt := match b_values b !! object_hash value with Some _ => _ | None => _ end).
    destruct vt as [values total] eqn:Evt. unfold vt in Evt.
    eapply answers_bind; [apply answers_need|]. intros [] _. apply answers_ret.
    apply (level_planned_snoc s ms b); cbn [b_updates b_seen b_values b_roots]; try done.
    + split; [done|]. by rewrite Er, Ev.
    + unfold target. by rewrite Er, Ev.
    + unfold store_value, Journal.emplace. rewrite Er, Ev.
      destruct (b_values b !! object_hash value); by injection Evt as <- <-.
    + unfold target. rewrite Er, Ev. by eapply more_roots.
  - eapply answers_bind; [apply answers_need|]. intros [] He%bool_decide_eq_true. apply answers_ret.
    apply (level_planned_snoc s ms b); cbn [b_updates b_seen b_values b_roots]; try done.
    + split; [done|]. by rewrite Er, Ev.
    + unfold target. by rewrite Er, Ev.
    + unfold store_value. by rewrite Er, Ev.
    + unfold target. rewrite Er, Ev. done.
Qed.

Lemma plan_changes_answers repo s rest : ∀ ms b,
  level_planned s ms b →
  answers repo s (plan_changes b rest : ST (level db cache) batch) (level_planned s (ms ++ rest)).
Proof.
  induction rest as [|m rest IH]; intros ms b Hb; cbn [plan_changes].
  { apply answers_ret. by rewrite app_nil_r. }
  eapply answers_bind; [by apply plan_change_answers|]. intros b' Hb'.
  replace (ms ++ m :: rest) with ((ms ++ [m]) ++ rest) by (by rewrite <- app_assoc). by apply IH.
Qed.

(** ** The batch *)

(** The values of a batch that are new to the store. *)
Definition new_values (s : kv) (vs : list (Id * Bytes)) : list (Id * Bytes) :=
  filter (λ e, kv_objects s !! e.1 = None) vs.
Definition object_write (e : Id * Bytes) : Bytes * option Bytes := (O_ ++ e.1, Some e.2).

Lemma object_writes_answers repo s vs : ∀ n,
  answers repo s (object_writes vs (u64 n) : ST (level db cache) _) (λ '(w, n'),
    w = object_write <$> new_values s vs ∧ n' = u64 (n + len (new_values s vs)) ∧
    ∀ id v p, (id, v) ∈ vs → kv_objects s !! id = Some p → p = v).
Proof.
  induction vs as [|[id v] vs IH]; intros n; cbn [object_writes].
  { apply answers_ret. split_and!; [done| |set_solver]. cbn. by rewrite Z.add_0_r. }
  eapply answers_bind; [apply read_answers|]. intros p Hp. rewrite image_object in Hp.
  unfold new_values. destruct p as [p|].
  - eapply answers_bind; [apply answers_need|]. intros [] Hpv%bool_decide_eq_true. subst p.
    eapply answers_weaken; [apply IH|]. intros [w n'] (-> & -> & Hold).
    rewrite filter_cons_False by (cbn [fst]; congruence). split_and!; [done|done|].
    intros id' v' p' [[= -> ->]|Hin]%elem_of_cons Hp'; [congruence|by eapply Hold].
  - rewrite u64_add. eapply answers_bind; [apply IH|]. intros [w n'] (-> & -> & Hold). apply answers_ret.
    rewrite filter_cons_True by done. split_and!; [done| |].
    + unfold len. rewrite length_cons, Nat2Z.inj_succ. f_equal. unfold new_values. lia.
    + intros id' v' p' [[= -> ->]|Hin]%elem_of_cons Hp'; [congruence|by eapply Hold].
Qed.

(** The objects after the batch. *)
Lemma new_objects_size_list (s : kv) (vs : list (Id * Bytes)) :
  NoDup vs.*1 →
  Z.of_nat (size ((list_to_map vs : gmap Id Bytes) ∪ kv_objects s)) =
  Z.of_nat (size (kv_objects s)) + len (new_values s vs).
Proof.
  induction vs as [|[id v] vs IH]; intros Hnd.
  { cbn. rewrite map_empty_union, Z.add_0_r. done. }
  rewrite fmap_cons in Hnd. apply NoDup_cons in Hnd as [Hid Hnd]. cbn [fst] in Hid.
  specialize (IH Hnd). cbn [list_to_map foldr curry fst snd]. rewrite <- insert_union_l.
  assert (((list_to_map vs : gmap Id Bytes) ∪ kv_objects s) !! id = kv_objects s !! id) as Hl.
  { rewrite lookup_union, not_elem_of_list_to_map_1 by done. by destruct (kv_objects s !! id). }
  unfold new_values in *. destruct (kv_objects s !! id) as [p|] eqn:E.
  - rewrite filter_cons_False by (cbn [fst]; congruence).
    rewrite map_size_insert_Some by (rewrite Hl; eauto). exact IH.
  - rewrite filter_cons_True by done. rewrite map_size_insert_None by done.
    unfold len in *. rewrite length_cons. lia.
Qed.

Lemma new_objects_size (s : kv) (vs : gmap Id Bytes) :
  Z.of_nat (size (vs ∪ kv_objects s)) =
  Z.of_nat (size (kv_objects s)) + len (new_values s (in_order vs)).
Proof.
  rewrite <- new_objects_size_list by apply NoDup_in_order_keys. by rewrite list_to_map_in_order.
Qed.

(** Writes under a prefix. *)
Definition prefixed {A B} (p : Bytes) (g : A → B) (l : list (Bytes * A)) : list (Bytes * B) :=
  (λ e, (p ++ e.1, g e.2)) <$> l.

Lemma prefixed_keys {A B} p (g : A → B) l : (prefixed p g l).*1 = app p <$> l.*1.
Proof. unfold prefixed. by rewrite <- !list_fmap_compose. Qed.

Lemma prefixed_NoDup {A B} p (g : A → B) l : NoDup l.*1 → NoDup (prefixed p g l).*1.
Proof. intros Hnd. rewrite prefixed_keys. apply NoDup_fmap_2; [|done]. intros a b. apply app_inv_head. Qed.

Lemma prefixed_lookup {A B} p (g : A → B) (l : list (Bytes * A)) k :
  NoDup l.*1 →
  (list_to_map (prefixed p g l) : gmap Bytes B) !! (p ++ k) =
  g <$> (list_to_map l : gmap Bytes A) !! k.
Proof.
  intros Hnd. destruct ((list_to_map l : gmap Bytes A) !! k) as [a|] eqn:E.
  - apply elem_of_list_to_map_2 in E. apply elem_of_list_to_map_1; [by apply prefixed_NoDup|].
    apply list_elem_of_fmap. by exists (k, a).
  - apply not_elem_of_list_to_map_2 in E. apply not_elem_of_list_to_map_1.
    rewrite prefixed_keys. by intros (k' & <-%app_inv_head & Hin)%list_elem_of_fmap.
Qed.

Lemma prefixed_other {A B} p (g : A → B) (l : list (Bytes * A)) k :
  starts_with p k = false → (list_to_map (prefixed p g l) : gmap Bytes B) !! k = None.
Proof.
  intros Hk. apply not_elem_of_list_to_map_1. rewrite prefixed_keys.
  intros (k' & -> & _)%list_elem_of_fmap. by rewrite starts_with_app in Hk.
Qed.

Lemma write_prefixed {A} p (g : A → option Bytes) l m k :
  NoDup l.*1 →
  write_batch (prefixed p g l) m !! (p ++ k) =
  match (list_to_map l : gmap Bytes A) !! k with Some a => g a | None => m !! (p ++ k) end.
Proof.
  intros Hnd. rewrite write_batch_lookup by (by apply prefixed_NoDup).
  rewrite prefixed_lookup by done. by destruct (_ !! k).
Qed.

Lemma write_prefixed_other {A} p (g : A → option Bytes) l m k :
  NoDup l.*1 → starts_with p k = false → write_batch (prefixed p g l) m !! k = m !! k.
Proof.
  intros Hnd Hk. rewrite write_batch_lookup by (by apply prefixed_NoDup). by rewrite prefixed_other.
Qed.

Lemma write_counts q o r m k :
  write_batch (count_writes q o r) m !! k =
  (<[M_roots := integer r]> (<[M_objects := integer o]> (<[M_sequence := integer q]> m))) !! k.
Proof. done. Qed.

Lemma root_writes_prefixed C : root_writes C = prefixed R_ id (in_order C).
Proof. unfold root_writes, prefixed. apply list_fmap_ext. by intros i [k v] _. Qed.

(** A batch of object, root and counter writes, applied to the image of a store. *)
Lemma image_write repo (s s' : kv) (objs rts : list (Bytes * option Bytes)) :
  NoDup objs.*1 → NoDup rts.*1 →
  (∀ k, kv_roots s' !! k =
    match (list_to_map rts : gmap Bytes (option Bytes)) !! k with
    | Some v => v | None => kv_roots s !! k end) →
  (∀ id, kv_objects s' !! id =
    match (list_to_map objs : gmap Bytes (option Bytes)) !! id with
    | Some v => v | None => kv_objects s !! id end) →
  write_batch (prefixed O_ id objs ++ prefixed R_ id rts ++
    count_writes (kv_seq s') (Z.of_nat (size (kv_objects s'))) (Z.of_nat (size (kv_roots s'))))
    (image repo s) = image repo s'.
Proof.
  intros Hno Hnr Hr Ho. apply map_eq. intros k. rewrite !write_batch_app, write_counts.
  destruct (key_kinds k) as [k|i|k HR HO].
  - rewrite !lookup_insert_ne by done. rewrite write_prefixed by done.
    rewrite write_prefixed_other, !image_root, Hr by done. done.
  - rewrite !lookup_insert_ne by done. rewrite write_prefixed_other by done.
    rewrite write_prefixed, !image_object, Ho by done. done.
  - rewrite (image_other _ s') by done. unfold meta.
    destruct (decide (M_roots = k)) as [<-|H1']; [by rewrite lookup_insert_eq|].
    rewrite (lookup_insert_ne _ M_roots) by done.
    destruct (decide (M_objects = k)) as [<-|H2']; [by rewrite lookup_insert_eq|].
    rewrite (lookup_insert_ne _ M_objects) by done.
    destruct (decide (M_sequence = k)) as [<-|H3']; [by rewrite lookup_insert_eq|].
    rewrite !(lookup_insert_ne _ M_sequence), (lookup_insert_ne _ M_objects), (lookup_insert_ne _ M_roots)
      by done.
    rewrite !write_prefixed_other, image_other by done. unfold meta.
    by rewrite !(lookup_insert_ne _ M_sequence), (lookup_insert_ne _ M_objects), (lookup_insert_ne _ M_roots).
Qed.

(** ** The stores after a batch *)

Lemma batch_values_dom ms id : is_Some (batch_values ms !! id) ↔ stored_by ms id.
Proof.
  induction ms as [|m ms IH] using rev_ind.
  { split; [intros [v Hv]; exact (False_ind _ (lookup_empty_Some _ _ Hv))|]. intros (m & Hm & _). by apply elem_of_nil in Hm. }
  rewrite batch_values_snoc, stored_by_snoc, <- IH. unfold store_value, Journal.emplace, stores.
  destruct (Journal.m_reference m) as [i|]; [naive_solver|].
  destruct (Journal.m_value m) as [v|]; [|naive_solver].
  destruct (batch_values ms !! object_hash v) as [p|] eqn:E.
  - split; [by left|]. intros [?|(_ & v' & [= <-] & <-)]; [done|by rewrite E].
  - rewrite lookup_insert_is_Some'. naive_solver.
Qed.

Lemma batch_values_sound s ms id v :
  Forall (change_ok s) ms → batch_values ms !! id = Some v →
  id = object_hash v ∧ len v ≤ 256 * 1024.
Proof.
  induction ms as [|m ms IH] using rev_ind; [intros _ Hv; exact (False_ind _ (lookup_empty_Some _ _ Hv))|].
  rewrite Forall_app, Forall_singleton. intros [Hms [_ Hm]]. specialize (IH Hms).
  rewrite batch_values_snoc. unfold store_value, Journal.emplace.
  destruct (Journal.m_reference m) as [i|]; [done|].
  destruct (Journal.m_value m) as [w|]; [|done].
  destruct (batch_values ms !! object_hash w) as [p|] eqn:E; [done|].
  destruct (decide (object_hash w = id)) as [<-|Hne].
  - rewrite lookup_insert_eq. by intros [= <-].
  - by rewrite lookup_insert_ne.
Qed.

Lemma kv_batch_ok s ms :
  kv_ok s → Forall (change_ok s) ms → NoDup (Journal.m_key <$> ms) → kv_seq s ≠ UINT64_MAX →
  counts_fit (kv_batch ms s) → kv_ok (kv_batch ms s).
Proof.
  intros [Hq Ho Hr Hc] Hok Hnd Hseq Hfit. split; [simpl; lia| | |done].
  - intros id v. cbn [kv_batch kv_commit kv_objects]. rewrite lookup_union_Some_raw.
    intros [Hv|[_ Hv]]; [by eapply batch_values_sound|by apply Ho].
  - intros k id. cbn [kv_batch kv_commit kv_objects kv_roots]. rewrite rebind_lookup, lookup_union_is_Some.
    destruct (targets ms !! k) as [t|] eqn:E.
    + intros ->. apply targets_elem in E as (m & Hm & <- & Ht). rewrite Forall_forall in Hok.
      destruct (Hok m Hm) as [Hk Hmut]. split; [|done]. unfold target in Ht.
      rewrite batch_values_dom. destruct (Journal.m_reference m) as [i|] eqn:Er.
      { injection Ht as ->. destruct (Journal.m_value m); [done|]. by right. }
      destruct (Journal.m_value m) as [v|] eqn:Ev; [|done]. injection Ht as <-.
      left. exists m. split; [done|]. split; [done|]. eauto.
    + intros Hk. destruct (Hr k id Hk) as [? ?]. split; [by right|done].
Qed.

(** ** Outcomes *)

(** What an operation that takes [s] to [s'] may do: return a result in [P] and stand
    for [s'], report an error and still stand for [s], or report an error, refuse further
    use, and leave the entries of [s] or of [s'] behind. *)
Definition level_outcome {A} (repo : Bytes) (s s' : kv) (P : A → Prop)
    (out : level db cache * result A) : Prop :=
  match out with
  | (st', Ok a) => P a ∧ level_ok repo s' st'
  | (st', Err _) =>
      level_ok repo s st' ∨
      poisoned_ st' = true ∧ kv_ok s' ∧
      (contents (db_ st') = image repo s ∨ contents (db_ st') = image repo s')
  | (_, OutOfFuel) => False
  end.

Lemma answers_outcome {A B} repo s s' (P : B → Prop) (m : ST (level db cache) A) (f : A → ST _ B)
    (Q : A → Prop) st :
  answers repo s m Q → level_ok repo s st →
  (∀ a st1, Q a → level_ok repo s st1 → level_outcome repo s s' P (f a st1)) →
  level_outcome repo s s' P ((m ≫= f) st).
Proof.
  intros Hm Hst Hf. specialize (Hm st Hst). unfold mbind, st_bind.
  destruct (m st) as [st1 [a|e|]]; destruct Hm as (H1' & _ & HQ); [by apply Hf|by left|done].
Qed.

(** Writing a batch that turns the image of [s] into that of [s']. *)
Lemma commit_outcome_level {A} repo s s' (P : A → Prop) b op (k : unit → ST (level db cache) A) st :
  level_ok repo s st → kv_ok s' → write_batch b (image repo s) = image repo s' →
  (∀ d, contents d = image repo s' → level_outcome repo s s' P (k tt (set_db d st))) →
  level_outcome repo s s' P ((commit b op ≫= k) st).
Proof.
  intros Hst Hok Hw Hk. unfold mbind, st_bind, commit.
  destruct (db_write (db_ st) b) as [d [m|]] eqn:E.
  - right. split_and!; [done|done|]. cbn [db_ set_poisoned set_db]. rewrite <- Hw, <- (lv_contents _ _ _ Hst).
    by eapply db_write_failed.
  - apply Hk. apply db_write_ok in E. by rewrite (lv_contents _ _ _ Hst), Hw in E.
Qed.

(** The object once its counters have followed the database. *)
Lemma level_ok_advance repo s s' st d c h m :
  level_ok repo s st → contents d = image repo s' → kv_ok s' → kv_seq s' = kv_seq s + 1 →
  (∀ id v, held c !! id = Some v → kv_objects s' !! id = Some v) →
  level_ok repo s' (set_object_cache c h m (set_counts (kv_seq s')
    (Z.of_nat (size (kv_objects s'))) (Z.of_nat (size (kv_roots s'))) (set_db d st))).
Proof.
  intros [] Hd Hok Hq Hc. split; try done.
  destruct lv_root_cache as [_ Hep]. rewrite lv_sequence in Hep.
  split; cbn [root_cache_sequence_ sequence_ root_cache_ set_counts set_db set_object_cache].
  - intros He key f Hf. destruct Hep as [?|Hemp]; [lia|]. by rewrite Hemp, lookup_empty in Hf.
  - destruct Hep as [?|?]; [left; lia|by right].
Qed.

Lemma set_object_cache_id st : set_object_cache (object_cache_ st) (cache_hits_ st) (cache_misses_ st) st = st.
Proof. by destruct st. Qed.

(** The guards a committed transaction has passed. *)
Record level_accepts (s : kv) (expected : Z) (ms : list Journal.Mutation) : Prop := {
  la_sequence : expected = kv_seq s;
  la_room : kv_seq s ≠ UINT64_MAX;
  la_count : (0 < length ms ≤ 4096)%nat;
  la_nodup : NoDup (Journal.m_key <$> ms);
  la_ok : Forall (change_ok s) ms;
}.

Lemma new_values_objects (s : kv) (vs : gmap Id Bytes) (id : Id) :
  (∀ i v p, (i, v) ∈ in_order vs → kv_objects s !! i = Some p → p = v) →
  (vs ∪ kv_objects s) !! id =
  match (list_to_map ((λ e, (e.1, Some e.2)) <$> new_values s (in_order vs)) : gmap Bytes (option Bytes))
        !! id with
  | Some v => v | None => kv_objects s !! id end.
Proof.
  intros Hold. unfold new_values.
  assert (NoDup (((λ e, (e.1, Some e.2)) <$> filter (λ e, kv_objects s !! e.1 = None) (in_order vs)).*1
    : list Id)) as Hnd.
  { rewrite <- list_fmap_compose. apply increasing_NoDup.
    apply (increasing_sublist (in_order vs)), increasing_in_order. }
  rewrite lookup_union. destruct (vs !! id) as [v|] eqn:E.
  - assert ((id, v) ∈ in_order vs) as Hin by (by apply elem_of_in_order).
    destruct (kv_objects s !! id) as [p|] eqn:Eo.
    + rewrite (Hold _ _ _ Hin Eo). rewrite not_elem_of_list_to_map_1; [done|].
      rewrite <- list_fmap_compose. intros ([i w] & -> & [Hn _]%list_elem_of_filter)%list_elem_of_fmap.
      cbn [fst compose] in *. congruence.
    + rewrite (elem_of_list_to_map_1 _ id (Some v)); [done|done|].
      apply list_elem_of_fmap. exists (id, v). split; [done|]. by apply list_elem_of_filter.
  - rewrite not_elem_of_list_to_map_1; [by destruct (kv_objects s !! id)|].
    rewrite <- list_fmap_compose. intros ([i w] & -> & [_ Hin]%list_elem_of_filter)%list_elem_of_fmap.
    cbn [fst compose] in *. apply elem_of_in_order in Hin. congruence.
Qed.

Lemma object_write_prefixed l : object_write <$> l = prefixed O_ id ((λ e, (e.1, Some e.2)) <$> l).
Proof. unfold prefixed. rewrite <- list_fmap_compose. apply list_fmap_ext. by intros i [k v] _. Qed.

Lemma level_transact repo s st expected ms :
  level_ok repo s st → counts_fit (kv_batch ms s) →
  level_outcome repo s (kv_batch ms s) (λ _, level_accepts s expected ms) (transact expected ms st).
Proof.
  intros Hst Hfit. unfold transact.
  eapply answers_outcome; [apply healthy_answers|done|]. intros _ st1 _ Hst1. clear st Hst.
  eapply answers_outcome; [apply (answers_get _ _ (level_ok repo s)); done|done|]. intros st0 st2 Hst0 Hst2.
  eapply answers_outcome; [apply answers_need|done|]. intros [] st3 Hexp%Z.eqb_eq Hst3.
  eapply answers_outcome; [apply answers_need|exact Hst3|]. intros [] st4 Hseq%negb_true_iff%Z.eqb_neq Hst4.
  eapply answers_outcome; [apply answers_need|exact Hst4|]. intros [] st5 Hn Hst5.
  rewrite andb_true_iff, Z.ltb_lt, Z.leb_le in Hn. unfold len in Hn.
  rewrite (lv_sequence _ _ _ Hst0) in *. rewrite (lv_roots _ _ _ Hst0), (lv_objects _ _ _ Hst0).
  pose proof (lv_kv _ _ _ Hst0) as Hkv. pose proof (ok_counts _ Hkv) as [Hco Hcr].
  eapply answers_outcome; [apply (plan_changes_answers repo s ms []), level_planned_nil; done|exact Hst5|].
  intros b st6 Hb Hst6. cbn [app] in Hb.
  rewrite <- (u64_small (Z.of_nat (size (kv_objects s)))) by lia.
  eapply answers_outcome; [apply object_writes_answers|exact Hst6|].
  intros [w n] st7 (Hw & Hcount & Hold) Hst7. rewrite (lp_values _ _ _ Hb) in *.
  rewrite <- new_objects_size in Hcount. rewrite u64_small in Hcount by (destruct Hfit; simpl in *; lia).
  pose proof (lp_roots _ _ _ Hb) as Hr. rewrite u64_small in Hr by (destruct Hfit; simpl in *; lia).
  assert (kv_ok (kv_batch ms s)) as Hok'.
  { apply kv_batch_ok; try done; apply Hb. }
  change (n = Z.of_nat (size (kv_objects (kv_batch ms s)))) in Hcount.
  change (b_roots b = Z.of_nat (size (kv_roots (kv_batch ms s)))) in Hr.
  change (kv_seq s + 1) with (kv_seq (kv_batch ms s)).
  eapply commit_outcome_level; [exact Hst7|exact Hok'| |].
  - rewrite Hw, Hcount, Hr, (lp_updates _ _ _ Hb), object_write_prefixed, root_writes_prefixed.
    rewrite image_write; [reflexivity| |apply NoDup_in_order_keys| |].
    + rewrite <- list_fmap_compose. apply increasing_NoDup.
      apply (increasing_sublist (in_order (batch_values ms))), increasing_in_order.
    + intros k. rewrite list_to_map_in_order. apply rebind_lookup.
    + intros id. by apply new_values_objects.
  - intros d Hd. split; [split; [done|done|lia|apply Hb|apply Hb]|].
    cbn [sequence_ set_db]. rewrite Hcount, Hr, (lv_sequence _ _ _ Hst7).
    change (kv_seq s + 1) with (kv_seq (kv_batch ms s)).
    rewrite <- (set_object_cache_id (set_counts _ _ _ _)).
    apply level_ok_advance with (s := s); try done.
    + cbn [object_cache_ set_counts set_db]. intros id v Hv.
      apply (lv_object_cache _ _ _ Hst7) in Hv. cbn [kv_batch kv_commit kv_objects].
      rewrite lookup_union_Some_raw. destruct (batch_values ms !! id) as [v'|] eqn:E; [|by right].
      left. f_equal. symmetry. eapply Hold; [|exact Hv]. by apply elem_of_in_order.
Qed.

(** ** Collection *)

(** The store without the unmarked objects and the obsolete roots. *)
Definition kv_collect (live : gset Id) (obsolete : list Bytes) (s : kv) : kv :=
  mkKv (kv_seq s + 1) (filter (λ e, e.1 ∉ obsolete) (kv_roots s))
    (filter (λ e, e.1 ∈ live) (kv_objects s)).

Lemma sweep_spec live l :
  increasing l.*1 → (∀ k v, (k, v) ∈ l → lex_ltb k O_ = false) →
  (∀ k v, (k, v) ∈ l → starts_with O_ k = true → length k = 34%nat) →
  sweep live l = Ok (filter (λ k, starts_with O_ k = true ∧ drop 2 k ∉ live) l.*1).
Proof.
  induction l as [|[k v] l IH]; [done|]. intros [Hk Hl] Hge H34. cbn [sweep].
  rewrite fmap_cons, filter_cons. cbn [fst] in *. destruct (starts_with O_ k) eqn:E.
  - assert (length k = 34%nat) as Hk34 by (eapply (H34 k v); [set_solver|done]).
    rewrite need_true_bind by (unfold len; by rewrite Hk34). unfold to_id.
    rewrite need_true_bind by (unfold len; by rewrite length_drop, Hk34). cbn [mbind result_bind].
    rewrite IH by set_solver. cbn [mbind result_bind]. f_equal.
    destruct (bool_decide_reflect (drop 2 k ∈ live)); destruct (decide _); naive_solver.
  - destruct (decide _) as [[? _]|_]; [congruence|]. rewrite list_filter_none; [done|].
    apply Forall_forall. intros k' Hin [Hp _]. rewrite Forall_forall in Hk.
    assert (starts_with O_ k = true); [|congruence].
    apply (starts_with_between O_ k k'); [|apply lex_le_lt_eq; left; by apply Hk|done].
    apply lex_not_lt. apply (Hge k v). set_solver.
Qed.

(** The keys [collect] deletes. *)
Definition dead_objects (live : gset Id) (s : kv) : list Id :=
  filter (λ i, i ∉ live) (in_order (kv_objects s)).*1.

Lemma sweep_image repo s live :
  kv_ok s →
  sweep live (filter (λ e, lex_ltb e.1 O_ = false) (in_order (image repo s))) =
  Ok (app O_ <$> dead_objects live s).
Proof.
  intros Hok. set (l := filter _ _).
  assert (increasing l.*1) as Hl by (apply increasing_sublist, increasing_in_order).
  assert (∀ k v, (k, v) ∈ l → lex_ltb k O_ = false ∧ image repo s !! k = Some v) as Hin.
  { intros k v [Hk Hx]%list_elem_of_filter. by rewrite elem_of_in_order in Hx. }
  rewrite sweep_spec; [|done|intros k v Hk; by eapply Hin|].
  2:{ intros k v Hk Hp. apply Hin in Hk as [_ Hk]. apply starts_with_spec in Hp as [i ->].
      rewrite image_object in Hk. rewrite length_app, (proj1 (ok_objects _ Hok i v Hk)).
      by rewrite length_object_hash. }
  f_equal. apply increasing_unique.
  - by apply increasing_filter.
  - assert (∀ d : list Id, increasing d → increasing (app O_ <$> d)) as Happ.
    { intros d. induction d as [|x d IH]; [done|]. intros [Hx Hd]. rewrite fmap_cons. split; [|by apply IH].
      rewrite Forall_fmap. eapply Forall_impl; [exact Hx|]. intros y Hy. unfold compose, lex_lt.
      by rewrite lex_ltb_app. }
    apply Happ, increasing_filter, increasing_in_order.
  - intros k. rewrite list_elem_of_filter, !list_elem_of_fmap. unfold dead_objects. split.
    + intros ([Hp Hd] & [k' v] & -> & Hk). cbn [fst] in *. apply Hin in Hk as [_ Hk].
      apply starts_with_spec in Hp as [i ->]. rewrite image_object in Hk. exists i. split; [done|].
      change (drop 2 (O_ ++ i)) with i in Hd.
      apply list_elem_of_filter. split; [done|]. apply list_elem_of_fmap. exists (i, v).
      by rewrite elem_of_in_order.
    + intros (i & -> & [Hd ([i' v] & -> & Hi%elem_of_in_order)%list_elem_of_fmap]%list_elem_of_filter).
      cbn [fst] in *. split; [split; [apply starts_with_app|done]|].
      exists (O_ ++ i', v). split; [done|]. unfold l.
      rewrite list_elem_of_filter, elem_of_in_order, image_object. split; [|done]. cbn [fst]. apply lex_not_lt, lex_le_prefix, starts_with_app.
Qed.

Lemma check_live_answers repo s ids :
  answers repo s (check_live ids : ST (level db cache) unit)
    (λ _, ∀ i, i ∈ ids → is_Some (kv_objects s !! i)).
Proof.
  induction ids as [|i ids IH]; cbn [check_live]; [apply answers_ret; set_solver|].
  eapply answers_bind; [apply read_answers|]. intros v ->. rewrite image_object.
  eapply answers_bind; [apply answers_need|]. intros [] Hi%bool_decide_eq_true.
  eapply answers_weaken; [exact IH|]. intros [] Hall j [->|?]%elem_of_cons; auto.
Qed.

Lemma check_roots_answers repo s ks :
  answers repo s (check_roots ks : ST (level db cache) unit)
    (λ _, ∀ k, k ∈ ks → is_Some (kv_roots s !! k)).
Proof.
  induction ks as [|k ks IH]; cbn [check_roots]; [apply answers_ret; set_solver|].
  eapply answers_bind; [apply contains_answers|]. intros v ->.
  eapply answers_bind; [apply answers_need|]. intros [] Hi%bool_decide_eq_true.
  eapply answers_weaken; [exact IH|]. intros [] Hall j [->|?]%elem_of_cons; auto.
Qed.

(** Deleting some keys of a map. *)
Lemma deleted_lookup {A} (ks : list Bytes) k :
  (list_to_map ((λ k, (k, @None A)) <$> ks) : gmap Bytes (option A)) !! k =
  if decide (k ∈ ks) then Some None else None.
Proof.
  induction ks as [|k' ks IH]; [done|]. rewrite fmap_cons. cbn [list_to_map foldr curry fst snd].
  destruct (decide (k' = k)) as [->|Hne].
  - rewrite lookup_insert_eq, decide_True; [done|set_solver].
  - rewrite lookup_insert_ne by done. rewrite IH. apply decide_ext. set_solver.
Qed.

Lemma filter_keys_size {A} (m : gmap Bytes A) (ks : list Bytes) :
  NoDup ks → (∀ k, k ∈ ks → is_Some (m !! k)) →
  Z.of_nat (size (filter (λ e, e.1 ∉ ks) m)) = Z.of_nat (size m) - len ks.
Proof.
  revert m. induction ks as [|k ks IH]; intros m Hnd Hin.
  { rewrite map_filter_id; [rewrite len_nil; lia|]. set_solver. }
  apply NoDup_cons in Hnd as [Hk Hnd]. destruct (Hin k) as [a Ha]; [set_solver|].
  assert (filter (λ e, e.1 ∉ k :: ks) m = filter (λ e, e.1 ∉ ks) (delete k m)) as ->.
  { apply map_eq. intros i. apply option_eq. intros x.
    rewrite !map_lookup_filter_Some, lookup_delete_Some. cbn [fst]. set_solver. }
  rewrite IH; [|done|].
  - rewrite map_size_delete_Some by eauto. unfold len. rewrite length_cons.
    assert (size m ≠ 0%nat); [|lia]. intros H0'%map_size_empty_inv. by rewrite H0', lookup_empty in Ha.
  - intros i Hi. rewrite lookup_delete_ne by set_solver. apply Hin. set_solver.
Qed.

Lemma dead_objects_NoDup live s : NoDup (dead_objects live s).
Proof. apply increasing_NoDup, increasing_filter, increasing_in_order. Qed.

Lemma elem_of_dead live s i : i ∈ dead_objects live s ↔ is_Some (kv_objects s !! i) ∧ i ∉ live.
Proof.
  unfold dead_objects. rewrite list_elem_of_filter, list_elem_of_fmap. split.
  - intros (Hd & [i' v] & -> & Hi%elem_of_in_order). split; [by eexists|done].
  - intros [[v Hv] Hd]. split; [done|]. exists (i, v). by rewrite elem_of_in_order.
Qed.

Lemma live_objects live s :
  filter (λ e, e.1 ∈ live) (kv_objects s) = filter (λ e, e.1 ∉ dead_objects live s) (kv_objects s).
Proof.
  apply map_filter_ext. intros i v Hi. cbn [fst]. rewrite elem_of_dead.
  split; [by intros ? [_ ?]|]. intros Hd. destruct (decide (i ∈ live)); [done|]. destruct Hd. eauto.
Qed.

(** What the caller of [collect] must have marked: the objects of the roots it keeps. *)
Definition marks (s : kv) (live : gset Id) (obsolete : list Bytes) : Prop :=
  ∀ k id, kv_roots s !! k = Some id → k ∉ obsolete → id ∈ live.

Lemma kv_collect_ok live obsolete s :
  kv_ok s → kv_seq s ≠ UINT64_MAX → marks s live obsolete → kv_ok (kv_collect live obsolete s).
Proof.
  intros [Hq Ho Hr [Hco Hcr]] Hseq Hm. split; cbn [kv_collect kv_seq kv_objects kv_roots].
  - lia.
  - intros id v [Hv _]%map_lookup_filter_Some. by apply Ho.
  - intros k id [Hk Hobs]%map_lookup_filter_Some. cbn [fst] in Hobs.
    destruct (Hr k id Hk) as [[v Hv] Hlen]. split; [|done]. exists v.
    apply map_lookup_filter_Some. split; [done|]. by eapply Hm.
  - pose proof (map_size_filter (λ e, e.1 ∈ live) (kv_objects s)).
    pose proof (map_size_filter (λ e, e.1 ∉ obsolete) (kv_roots s)). lia.
Qed.

Lemma filter_lookup_kept {A} (m : gmap Bytes A) (ks : list Bytes) k :
  k ∉ ks → filter (λ e, e.1 ∉ ks) m !! k = m !! k.
Proof.
  intros Hk. destruct (m !! k) as [v|] eqn:E.
  - by apply map_lookup_filter_Some.
  - apply map_lookup_filter_None. by left.
Qed.

Lemma collect_image repo s live obsolete :
  NoDup obsolete →
  write_batch (((λ k, (k, None)) <$> (app O_ <$> dead_objects live s)) ++
    ((λ k, (R_ ++ k, None)) <$> obsolete) ++
    count_writes (kv_seq s + 1) (Z.of_nat (size (kv_objects (kv_collect live obsolete s))))
      (Z.of_nat (size (kv_roots (kv_collect live obsolete s))))) (image repo s) =
  image repo (kv_collect live obsolete s).
Proof.
  intros Hnd. change (kv_seq s + 1) with (kv_seq (kv_collect live obsolete s)).
  assert ((λ k, (k, None)) <$> (app O_ <$> dead_objects live s) =
    prefixed O_ id ((λ k, (k, None)) <$> dead_objects live s)) as ->.
  { unfold prefixed. by rewrite <- !list_fmap_compose. }
  assert ((λ k, (R_ ++ k, None)) <$> obsolete = prefixed R_ id ((λ k, (k, None)) <$> obsolete)) as ->.
  { unfold prefixed. by rewrite <- !list_fmap_compose. }
  apply image_write.
  - rewrite <- list_fmap_compose. cbn [compose fst]. rewrite list_fmap_id. apply dead_objects_NoDup.
  - rewrite <- list_fmap_compose. cbn [compose fst]. by rewrite list_fmap_id.
  - intros k. rewrite deleted_lookup. cbn [kv_collect kv_roots].
    destruct (decide (k ∈ obsolete)) as [Hk|Hk].
    + apply map_lookup_filter_None. right. intros v _ Hx. by apply Hx.
    + by apply filter_lookup_kept.
  - intros i. rewrite deleted_lookup. cbn [kv_collect kv_objects]. rewrite live_objects.
    destruct (decide (i ∈ dead_objects live s)) as [Hk|Hk].
    + apply map_lookup_filter_None. right. intros v _ Hx. by apply Hx.
    + by apply filter_lookup_kept.
Qed.

Lemma level_collect repo s st expected live obsolete :
  level_ok repo s st → NoDup obsolete → marks s live obsolete →
  level_outcome repo s (kv_collect live obsolete s)
    (λ removed, removed = len (dead_objects live s) ∧ expected = kv_seq s ∧
      ∀ i, i ∈ live → is_Some (kv_objects s !! i))
    (collect expected live obsolete st).
Proof.
  intros Hst Hnd Hmarks. unfold collect.
  eapply answers_outcome; [apply healthy_answers|exact Hst|]. intros [] st1 _ Hst1.
  eapply answers_outcome; [apply (answers_get _ _ (level_ok repo s)); done|exact Hst1|].
  intros st0 st2 Hst0 Hst2.
  eapply answers_outcome; [apply answers_need|exact Hst2|]. intros [] st3 Hg Hst3.
  rewrite andb_true_iff, Z.eqb_eq, negb_true_iff, Z.eqb_neq in Hg. destruct Hg as [Hq Hmax].
  eapply answers_outcome; [apply check_live_answers|exact Hst3|]. intros [] st4 Hlive Hst4.
  destruct (db_iter (db_ st0) O_) as [l ist] eqn:Eiter.
  rewrite (lv_sequence _ _ _ Hst0) in Hq. subst expected.
  rewrite (lv_objects _ _ _ Hst0), (lv_roots _ _ _ Hst0).
  destruct ist as [m|].
  { assert (total (sweep live l)) as Hts.
    { clear. induction l as [|[k v] l IH]; cbn [sweep]; [apply total_Ok|].
      destruct (starts_with O_ k); [|apply total_Ok]. unfold to_id. solve_total. }
    eapply (answers_outcome _ _ _ _ _ _ (λ _, True)); [by apply answers_lift|exact Hst4|].
    intros dead st5 _ Hst5. eapply (answers_outcome _ _ _ _ _ _ (λ _, False)).
    - apply answers_lift; [apply total_Err|done].
    - exact Hst5.
    - done. }
  apply db_iter_ok in Eiter. rewrite (lv_contents _ _ _ Hst0) in Eiter.
  pose proof (lv_kv _ _ _ Hst0) as Hkv. rewrite Eiter, sweep_image by done.
  eapply (answers_outcome _ _ _ _ _ _ (λ d, d = app O_ <$> dead_objects live s)).
  { apply answers_lift; [apply total_Ok|]. by intros a [= <-]. }
  { exact Hst4. }
  intros dead st5 -> Hst5. eapply (answers_outcome _ _ _ _ _ _ (λ _, True)).
  { apply answers_lift; [apply total_Ok|done]. }
  { exact Hst5. }
  intros [] st6 _ Hst6.
  eapply answers_outcome; [apply check_roots_answers|exact Hst6|]. intros [] st7 Hobs Hst7.
  eapply answers_outcome; [apply answers_need|exact Hst7|]. intros [] st8 _ Hst8.
  assert (len (app O_ <$> dead_objects live s) = len (dead_objects live s)) as Hlen
    by (unfold len; by rewrite length_fmap). rewrite Hlen.
  assert (Z.of_nat (size (kv_objects s)) - len (dead_objects live s) =
    Z.of_nat (size (kv_objects (kv_collect live obsolete s)))) as Hno.
  { cbn [kv_collect kv_objects]. rewrite live_objects, filter_keys_size; [done|apply dead_objects_NoDup|].
    intros i Hi. by apply elem_of_dead in Hi as [? _]. }
  assert (Z.of_nat (size (kv_roots s)) - len obsolete =
    Z.of_nat (size (kv_roots (kv_collect live obsolete s)))) as Hnr.
  { cbn [kv_collect kv_roots]. by rewrite filter_keys_size. }
  rewrite Hno, Hnr.
  eapply commit_outcome_level; [exact Hst8|by apply kv_collect_ok|by apply collect_image|].
  intros d Hd. split.
  - split_and!; [done|done|]. intros i Hi. apply Hlive. apply list_elem_of_fmap. exists (i, tt).
    split; [done|]. apply elem_of_in_order. by apply lookup_gset_to_gmap_Some.
  - cbn [set_db objects_ roots_]. rewrite (lv_objects _ _ _ Hst8), (lv_roots _ _ _ Hst8), Hno, Hnr.
    change (kv_seq s + 1) with (kv_seq (kv_collect live obsolete s)).
    apply level_ok_advance with (s := s); try done.
    + by apply kv_collect_ok.
    + intros i v. by rewrite cache_prune_ok, lookup_empty.
Qed.
End LevelTransact.

(** ** Opening

    The constructor of [LevelStore]: on the database that stands for an abstract store it
    yields an object of the class that stands for the same store, and the initial batch
    makes the empty store.  A store whose last write failed is reopened this way, so the
    outcome of a commit whose write failed is decided here. *)

Definition empty_kv : kv := mkKv 0 ∅ ∅.

Section LevelOpen.
Context {db cache : Type} `{LevelDBOk db} `{CacheOk cache} `{DigestOk}.
Implicit Types st : level db cache.

(** The database answers the point reads. *)
Definition responsive (d : db) : Prop := ∀ k, ∃ v, db_get d k = inr v.

Lemma number_integer n : 0 ≤ n ≤ UINT64_MAX → number (integer n) = Ok n.
Proof.
  intros Hn. unfold number, integer. rewrite len_store. cbn [need mbind result_bind Z.eqb Z.of_nat].
  rewrite load_store_end; [done|]. unfold UINT64_MAX in Hn. lia.
Qed.

Lemma read_meta st key :
  poisoned_ st = false → starts_with R_ key = false →
  read key st = match db_get (db_ st) key with
                | inr v => (st, Ok v)
                | inl m => (st, Err ("read LevelDB: " ++ m)%string)
                end.
Proof.
  intros Hp HR. unfold read, healthy, gets, st_need, lift, mbind, st_bind. rewrite Hp, HR.
  cbn. unfold fetch, gets, mbind, st_bind. by destruct (db_get (db_ st) key).
Qed.

Lemma image_meta repo s :
  image repo s !! M_format = Some format ∧ image repo s !! M_repository = Some repo ∧
  image repo s !! M_sequence = Some (integer (kv_seq s)) ∧
  image repo s !! M_objects = Some (integer (Z.of_nat (size (kv_objects s)))) ∧
  image repo s !! M_roots = Some (integer (Z.of_nat (size (kv_roots s)))).
Proof. rewrite !image_other by done. unfold meta. split_and!; by simplify_map_eq. Qed.

(** What the constructor may leave behind. *)
Definition opened (repo : Bytes) (s : kv) (d : db) (out : level db cache * result unit) : Prop :=
  match out.2 with Ok _ => level_ok repo s out.1 | Err _ => ¬ responsive d | OutOfFuel => False end.

(** One read of the metadata in the constructor. *)
Lemma opened_read repo s d st key (k : option Bytes → ST (level db cache) unit) :
  db_ st = d → poisoned_ st = false → contents d = image repo s → starts_with R_ key = false →
  opened repo s d (k (image repo s !! key) st) → opened repo s d ((read key ≫= k) st).
Proof.
  intros Edb Hp Hd HR Hk. unfold mbind, st_bind. rewrite read_meta by done. rewrite Edb.
  destruct (db_get d key) as [m|v] eqn:E.
  - intros Hr. destruct (Hr key) as [v Ev]. congruence.
  - apply db_get_ok in E as ->. by rewrite Hd.
Qed.

Lemma opened_number repo s d st key msg n (k : Z → ST (level db cache) unit) :
  db_ st = d → poisoned_ st = false → contents d = image repo s → starts_with R_ key = false →
  image repo s !! key = Some (integer n) → 0 ≤ n ≤ UINT64_MAX →
  opened repo s d (k n st) → opened repo s d (((v ← required key msg; lift (number v)) ≫= k) st).
Proof.
  intros Edb Hp Hd HR Ek Hn Hk. unfold required.
  unfold mbind, st_bind. rewrite read_meta by done. rewrite Edb.
  destruct (db_get d key) as [m|v] eqn:E.
  - intros Hr. destruct (Hr key) as [v Ev]. congruence.
  - apply db_get_ok in E as ->. rewrite Hd, Ek. cbn [mret st_ret]. unfold lift. by rewrite number_integer.
Qed.

Lemma opened_need repo s d st b msg (k : unit → ST (level db cache) unit) :
  b = true → opened repo s d (k tt st) → opened repo s d ((st_need b msg ≫= k) st).
Proof. by intros -> Hk. Qed.

(** The metadata reads of the constructor, from any database that stands for [s]. *)
Lemma open_reads repo s n d :
  contents d = image repo s → kv_ok s → length repo = 16%nat →
  opened repo s d
    (read_metadata (mkLevel d 0 0 0 false [] ∅ UINT64_MAX (cache_new n) n 0 0)).
Proof.
  intros Hd Hkv Hrepo. destruct (image_meta repo s) as (Ef & Er & Eq & Eo & En).
  pose proof (ok_counts s Hkv). pose proof (ok_seq s Hkv).
  apply opened_read; [done..|]. rewrite Ef. apply opened_need; [by apply bool_decide_eq_true_2|].
  apply opened_read; [done..|]. rewrite Er. apply opened_need; [unfold len; by rewrite Hrepo|].
  eapply opened_number; [done..|exact Eq|lia|].
  eapply opened_number; [done..|exact Eo|lia|].
  eapply opened_number; [done..|exact En|lia|].
  unfold opened, modify. cbn [fst snd default]. split; try done.
  - split; [|by right]. intros _ key f. cbn [root_cache_]. by rewrite lookup_empty.
  - intros id v. cbn [object_cache_]. by rewrite cache_new_ok, lookup_empty.
Qed.

(** The constructor on the database of [s]. *)
Lemma open_store_image repo s n d :
  contents d = image repo s → kv_ok s → length repo = 16%nat →
  match open_store None n d : result (level db cache) with
  | Ok st => level_ok repo s st
  | Err _ => ¬ responsive d
  | OutOfFuel => False
  end.
Proof.
  intros Hd Hkv Hrepo. pose proof (open_reads repo s n d Hd Hkv Hrepo) as Ho. unfold opened in Ho.
  unfold open_store, mbind, st_bind, mret, st_ret. by destruct (read_metadata _) as [st [[]|m|]].
Qed.

(** The batch of a new repository makes the empty store. *)
Lemma initial_batch_image repo : write_batch (initial_batch repo) ∅ = image repo empty_kv.
Proof.
  apply map_eq. intros k. destruct (key_kinds k) as [k|i|k HR HO].
  - rewrite image_root. unfold initial_batch, count_writes, write_batch. cbn [foldl write_entry fst snd].
    rewrite !lookup_insert_ne by done. by rewrite !lookup_empty.
  - rewrite image_object. unfold initial_batch, count_writes, write_batch. cbn [foldl write_entry fst snd].
    rewrite !lookup_insert_ne by done. by rewrite !lookup_empty.
  - rewrite image_other by done. unfold meta, initial_batch, count_writes, write_batch, empty_kv.
    cbn [foldl write_entry fst snd kv_seq kv_roots kv_objects]. rewrite !map_size_empty.
    change (Z.of_nat 0) with 0. f_equal.
Qed.

Lemma empty_kv_ok : kv_ok empty_kv.
Proof.
  split; cbn [empty_kv kv_seq kv_objects kv_roots].
  - unfold UINT64_MAX. lia.
  - intros id v. by rewrite lookup_empty.
  - intros k id. by rewrite lookup_empty.
  - rewrite !map_size_empty. unfold UINT64_MAX. lia.
Qed.

(** Creating a repository in a fresh database. *)
Lemma create_store repo n d :
  contents d = ∅ → length repo = 16%nat →
  match open_store (Some repo) n d : result (level db cache) with
  | Ok st => level_ok repo empty_kv st
  | Err _ => (∃ d' m, db_write d (initial_batch repo) = (d', Some m)) ∨
      ∃ d', db_write d (initial_batch repo) = (d', None) ∧ ¬ responsive d'
  | OutOfFuel => False
  end.
Proof.
  intros Hd Hrepo. unfold open_store, mbind, st_bind, initialize. cbn [db_].
  destruct (db_write d (initial_batch repo)) as [d' [m|]] eqn:E; [left; eauto|].
  pose proof E as Ed. apply db_write_ok in Ed. rewrite Hd, initial_batch_image in Ed.
  pose proof (open_reads repo empty_kv n d' Ed empty_kv_ok Hrepo) as Ho. unfold opened in Ho.
  unfold set_db. cbn [sequence_ objects_ roots_ poisoned_ repository_ root_cache_
    root_cache_sequence_ object_cache_ object_cache_bytes_ cache_hits_ cache_misses_].
  destruct (read_metadata _) as [st [[]|e|]]; [done|right; eauto|done].
Qed.
End LevelOpen.
