(* ===== verification/LevelStoreRace.v ===== *)
(** * The root cache under concurrent readers ([LevelStore::read] against a commit)

    [read] enters the root cache twice, once to look a key up and once to install what
    the database answered, and holds no lock while it asks the database; a transaction
    writes its batch and afterwards publishes the new sequence number.  The relation
    [race] interleaves any number of readers with the writer at these points: each critical
    section under [root_cache_mutex_], each database call and the publication of the counters
    is one step.  (The publication may fall between the test and the insertion of the second
    critical section; the insertion then goes to a cache whose epoch has passed, as it does
    when the section precedes the publication.)  The invariant shows that no fact of an
    earlier epoch is served once the commit is published. *)

From S2P Require Import Prelude Codec Journal LevelStore.
Import LevelStore.
Local Open Scope Z_scope.

(** What a cached fact says about its key. *)
Definition says (f : RootFact) : option Bytes := if found f then Some (fact f) else None.

(** Where a reader is between its critical sections. *)
Inductive reader :=
| Fetching (key : Bytes) (epoch : Z)
| Installing (key : Bytes) (epoch : Z) (v : option Bytes).

Definition epoch_of (r : reader) : Z := match r with Fetching _ e | Installing _ e _ => e end.

Section Race.
Context {db cache : Type} `{LevelDBOk db} `{CacheOk cache} `{DigestOk}.
Implicit Types st : level db cache.

(** The shared object, the readers under way, and a commit that is written and not yet
    published, with the entries before it (a history variable) and the counts to publish. *)
Record world := mkRace {
  shared : level db cache;
  readers : gmap nat reader;
  writer : option (gmap Bytes Bytes * Z * Z);
}.

Inductive race : world → world → Prop :=
| race_hit st rs w i key st' e f :
    rs !! i = None → poisoned_ st = false → starts_with R_ key = true →
    cache_begin key st = (st', Ok (e, Some f)) →
    race (mkRace st rs w) (mkRace st' rs w)
| race_miss st rs w i key st' e :
    rs !! i = None → poisoned_ st = false → starts_with R_ key = true →
    cache_begin key st = (st', Ok (e, None)) →
    race (mkRace st rs w) (mkRace st' (<[i := Fetching key e]> rs) w)
| race_fetch st rs w i key e st' v :
    rs !! i = Some (Fetching key e) → fetch key st = (st', Ok v) →
    race (mkRace st rs w) (mkRace st' (<[i := Installing key e v]> rs) w)
| race_fetch_error st rs w i key e st' m :
    rs !! i = Some (Fetching key e) → fetch key st = (st', Err m) →
    race (mkRace st rs w) (mkRace st' (delete i rs) w)
| race_install st rs w i key e v st' :
    rs !! i = Some (Installing key e v) → cacheable key v = true →
    cache_install key e v st = (st', Ok tt) →
    race (mkRace st rs w) (mkRace st' (delete i rs) w)
| race_return st rs w i key e v :
    rs !! i = Some (Installing key e v) → cacheable key v = false →
    race (mkRace st rs w) (mkRace st (delete i rs) w)
| race_write st rs b op st' o n :
    poisoned_ st = false → sequence_ st ≠ UINT64_MAX → commit b op st = (st', Ok tt) →
    race (mkRace st rs None) (mkRace st' rs (Some (contents (db_ st), o, n)))
| race_write_failed st rs b op st' m :
    poisoned_ st = false → sequence_ st ≠ UINT64_MAX → commit b op st = (st', Err m) →
    race (mkRace st rs None) (mkRace st' rs None)
| race_publish st rs old o n :
    race (mkRace st rs (Some (old, o, n))) (mkRace (set_counts (sequence_ st + 1) o n st) rs None).

(** The entries a fact of the current epoch may describe. *)
Definition current (w : world) : list (gmap Bytes Bytes) :=
  contents (db_ (shared w)) :: match writer w with Some (old, _, _) => [old] | None => [] end.

Definition describes (w : world) (key : Bytes) (v : option Bytes) : Prop :=
  ∃ m, m ∈ current w ∧ m !! key = v.

Record coherent (w : world) : Prop := {
  co_facts : root_cache_sequence_ (shared w) = sequence_ (shared w) →
    ∀ key f, root_cache_ (shared w) !! key = Some f → describes w key (says f);
  co_cache_epoch : root_cache_sequence_ (shared w) ≤ sequence_ (shared w) ∨ root_cache_ (shared w) = ∅;
  co_installs : ∀ i key e v, readers w !! i = Some (Installing key e v) →
    e = sequence_ (shared w) → describes w key v;
  co_epochs : ∀ i r, readers w !! i = Some r → epoch_of r ≤ sequence_ (shared w);
}.

(** A freshly constructed object, before any reader starts. *)
Definition quiet (w : world) : Prop :=
  root_cache_ (shared w) = ∅ ∧ readers w = ∅ ∧ writer w = None.

Lemma quiet_coherent w : quiet w → coherent w.
Proof.
  intros (Hc & Hr & Hw). split.
  - intros _ key f. by rewrite Hc, lookup_empty.
  - by right.
  - intros i key e v. by rewrite Hr, lookup_empty.
  - intros i r. by rewrite Hr, lookup_empty.
Qed.

(** The first critical section keeps the cache coherent and answers from it. *)
Lemma cache_begin_inv key st st' e hit :
  cache_begin key st = (st', Ok (e, hit)) →
  db_ st' = db_ st ∧ sequence_ st' = sequence_ st ∧ poisoned_ st' = poisoned_ st ∧ e = sequence_ st ∧
  root_cache_sequence_ st' = sequence_ st ∧ hit = root_cache_ st' !! key ∧
  (root_cache_sequence_ st = sequence_ st ∧ root_cache_ st' = root_cache_ st ∨ root_cache_ st' = ∅).
Proof.
  unfold cache_begin. cbv zeta. destruct (Z.eqb_spec (root_cache_sequence_ st) (sequence_ st)) as [E|E];
    intros [= <- <- <-]; cbn [set_root_cache db_ sequence_ poisoned_ root_cache_sequence_ root_cache_];
    split_and!; auto.
Qed.

Lemma coherent_begin st rs w key st' e hit :
  coherent (mkRace st rs w) → cache_begin key st = (st', Ok (e, hit)) →
  coherent (mkRace st' rs w) ∧ e = sequence_ st'.
Proof.
  intros [Hf He Hi Hep] (Hd & Hs & _ & -> & Hq & _ & Hc)%cache_begin_inv. cbn in *.
  unfold describes, current in *. cbn in *. split; [|done].
  split; unfold describes, current; cbn; rewrite ?Hd, ?Hs, ?Hq; [|left; lia|done..].
  intros _ key' f. destruct Hc as [[Eq ->]| ->]; [by apply Hf|by rewrite lookup_empty].
Qed.

Lemma coherent_reader st rs w i r :
  coherent (mkRace st rs w) → epoch_of r ≤ sequence_ st →
  (∀ key e v, r = Installing key e v → e = sequence_ st → describes (mkRace st rs w) key v) →
  coherent (mkRace st (<[i := r]> rs) w).
Proof.
  intros [Hf He Hi Hep] Hr Hd. split; cbn [readers]; [done|done| |].
  - intros i' key e v [[_ ->]|[_ Hx]]%lookup_insert_Some; [by apply Hd|by eapply Hi].
  - intros i' r' [[_ <-]|[_ Hx]]%lookup_insert_Some; [done|by eapply Hep].
Qed.

Lemma coherent_leave st rs w i :
  coherent (mkRace st rs w) → coherent (mkRace st (delete i rs) w).
Proof.
  intros [Hf He Hi Hep]. split; cbn [readers]; [done|done| |].
  - intros i' key e v [_ Hx]%lookup_delete_Some. by eapply Hi.
  - intros i' r [_ Hx]%lookup_delete_Some. by eapply Hep.
Qed.

Lemma coherent_install st rs w i key e v st' :
  coherent (mkRace st rs w) → rs !! i = Some (Installing key e v) →
  cache_install key e v st = (st', Ok tt) → coherent (mkRace st' rs w).
Proof.
  intros Hw Ei. unfold cache_install.
  destruct (Z.eqb_spec (sequence_ st) e) as [E1|]; [|by intros [= <-]].
  destruct (Z.eqb_spec (root_cache_sequence_ st) e) as [E2|]; [|by intros [= <-]].
  cbn [andb]. intros [= <-]. destruct Hw as [Hf He Hi Hep].
  split; cbn [shared readers root_cache_sequence_ sequence_ set_root_cache root_cache_];
    [|left; lia|done..].
  intros _ key' f [[<- <-]|[_ Hx]]%lookup_insert_Some.
  - assert (says (mkRootFact (bool_decide (is_Some v)) (default [] v)) = v) as -> by (by destruct v).
    by eapply Hi.
  - apply Hf; [cbn [shared]; lia|]. by destruct (4096 <=? _).
Qed.

(** Publishing moves the epoch past every fact and every reader. *)
Lemma coherent_publish st rs old o n :
  coherent (mkRace st rs (Some (old, o, n))) →
  coherent (mkRace (set_counts (sequence_ st + 1) o n st) rs None).
Proof.
  intros [Hf He Hi Hep]. cbn in He.
  split; cbn [shared readers root_cache_sequence_ sequence_ set_counts root_cache_].
  - intros Eq key f. destruct He as [?| ->]; [lia|by rewrite lookup_empty].
  - destruct He; [left; lia|by right].
  - intros i key e v Ei ->. specialize (Hep i _ Ei). cbn in Hep. lia.
  - intros i r Ei. specialize (Hep i r Ei). cbn in Hep. lia.
Qed.

Lemma coherent_write st rs b op st' o n :
  coherent (mkRace st rs None) → commit b op st = (st', Ok tt) →
  coherent (mkRace st' rs (Some (contents (db_ st), o, n))).
Proof.
  intros [Hf He Hi Hep] Hc. unfold commit in Hc.
  destruct (db_write (db_ st) b) as [d [m|]]; [done|]. injection Hc as <-.
  assert (∀ key v, describes (mkRace st rs None) key v →
    describes (mkRace (set_db d st) rs (Some (contents (db_ st), o, n))) key v) as Hmono.
  { intros key v (m & Hm%list_elem_of_singleton & <-). subst m. exists (contents (db_ st)).
    split; [unfold current; cbn; set_solver|done]. }
  split; [|done| |done].
  - intros Eq key f Ef. by apply Hmono, Hf.
  - intros i key e v Ei Ee. by eapply Hmono, Hi.
Qed.

Lemma fetch_inv key st st' v :
  fetch key st = (st', Ok v) → st' = st ∧ contents (db_ st) !! key = v.
Proof.
  unfold fetch, gets, mbind, st_bind. destruct (db_get (db_ st) key) as [m|u] eqn:E; [done|].
  intros [= <- <-]. split; [done|]. symmetry. by apply db_get_ok.
Qed.

Lemma fetch_error_inv key st st' m : fetch key st = (st', Err m) → st' = st.
Proof.
  unfold fetch, gets, mbind, st_bind. destruct (db_get (db_ st) key) as [e|u]; by intros [= <-].
Qed.

(** A failed write poisons the object; until then every step keeps coherence. *)
Lemma race_coherent w w' :
  race w w' → coherent w → poisoned_ (shared w') = false → coherent w'.
Proof.
  intros Hr Hw Hp. destruct Hr as [st rs w i key st' e f _ _ _ Hb|st rs w i key st' e _ _ _ Hb
    |st rs w i key e st' v Ei Hf|st rs w i key e st' m Ei Hf|st rs w i key e v st' Ei _ Hin
    |st rs w i key e v Ei _|st rs b op st' o n _ _ Hc|st rs b op st' m _ _ Hc|st rs old o n].
  - by apply (coherent_begin _ _ _ _ _ _ _ Hw Hb).
  - destruct (coherent_begin _ _ _ _ _ _ _ Hw Hb) as [Hw' ->].
    apply coherent_reader; [done|cbn; lia|done].
  - apply fetch_inv in Hf as [-> Ev]. apply coherent_reader; [done|by apply (co_epochs _ Hw i _ Ei)|].
    intros key' e' v' [= <- <- <-] _. exists (contents (db_ st)). split; [|done]. unfold current. set_solver.
  - apply fetch_error_inv in Hf as ->. by apply coherent_leave.
  - apply coherent_leave. by eapply coherent_install.
  - by apply coherent_leave.
  - by eapply coherent_write.
  - unfold commit in Hc. destruct (db_write (db_ st) b) as [d [e|]]; [|done]. by injection Hc as <- _.
  - by eapply coherent_publish.
Qed.

Lemma race_poisoned w w' : race w w' → poisoned_ (shared w) = true → poisoned_ (shared w') = true.
Proof.
  intros Hr Hp. destruct Hr; cbn in *; try congruence.
  - by apply fetch_inv in H6 as [-> _].
  - by apply fetch_error_inv in H6 as ->.
  - unfold cache_install in H7. destruct (_ && _); by injection H7 as <-.
Qed.

Lemma race_reachable w w' :
  rtc race w w' → coherent w → poisoned_ (shared w') = false → coherent w'.
Proof.
  intros Hr. induction Hr as [w|w w1 w' Hs Hr IH]; [done|]. intros Hw Hp. apply IH; [|done].
  eapply race_coherent; [done..|]. destruct (poisoned_ (shared w1)) eqn:E; [|done].
  assert (poisoned_ (shared w') = true); [|congruence]. clear IH Hs Hw Hp.
  induction Hr as [|? ? ? Hs _ IH']; [done|]. eapply IH', race_poisoned; done.
Qed.
End Race.
Arguments world : clear implicits.
