(* ===== verification/LevelStoreSpec.v ===== *)
(** * What the LevelDB-backed store promises

    The properties of [LevelStore], stated against the abstract store [kv] that the journal
    implements too, with examples on a database and a cache that are finite maps. *)

From S2P Require Import Prelude Codec Treap Journal JournalTransact JournalStore MetadataTree Instances.
From S2P Require Import LevelStore LevelStoreProofs LevelStoreTransact LevelStoreRace.
Import LevelStore.
Local Open Scope Z_scope.

Section LevelSpec.
Context {db cache : Type} `{LevelDBOk db} `{CacheOk cache} `{DigestOk}.
Implicit Types st : level db cache.

(** Reopening the database of [st] yields one of the given stores. *)
Definition reopens_as (repo : Bytes) (ss : list kv) st : Prop :=
  ∀ n, responsive (db_ st) →
    ∃ st', open_store None n (db_ st) = Ok st' ∧ ∃ s, s ∈ ss ∧ level_ok (cache := cache) repo s st'.

Lemma reopens_image repo ss s st :
  contents (db_ st) = image repo s → kv_ok s → length repo = 16%nat → s ∈ ss → reopens_as repo ss st.
Proof.
  intros Hd Hk Hr Hs n Hresp. pose proof (open_store_image repo s n (db_ st) Hd Hk Hr) as Ho.
  destruct (open_store None n (db_ st)) as [st'|m|]; [|done..]. eauto.
Qed.

(** C7: Refinement of [LevelStore::transact].  On an object that stands for the abstract
    store [s], transact either returns, and then the sequence number and every mutation
    were acceptable and the object stands for [s] with exactly the batch applied; or throws
    and still stands for [s]; or throws, refuses further use, and its database reopens as [s]
    or as [s] with the whole batch.  It always returns or throws. *)
Theorem level_transact_refinement (repo : Bytes) (s : kv) (st : level db cache) (expected : Z)
    (ms : list Journal.Mutation) :
  level_ok repo s st → counts_fit (kv_batch ms s) →
  match transact expected ms st with
  | (st', Ok _) => level_accepts s expected ms ∧ level_ok repo (kv_batch ms s) st'
  | (st', Err _) =>
      level_ok repo s st' ∨
      poisoned_ st' = true ∧ reopens_as repo [s; kv_batch ms s] st'
  | (_, OutOfFuel) => False
  end.
Proof.
  intros Hst Hfit. pose proof (level_transact repo s st expected ms Hst Hfit) as Ho.
  unfold level_outcome in Ho. destruct (transact expected ms st) as [st' [a|m|]]; [done| |done].
  destruct Ho as [?|(Hp & Hk & Hd)]; [by left|right]. split; [done|].
  destruct Hd as [Hd|Hd]; eapply reopens_image; try exact Hd; try done; try set_solver.
  - by destruct Hst.
  - by destruct (lv_repo _ _ _ Hst).
  - by destruct (lv_repo _ _ _ Hst).
Qed.

(** Reads of [LevelStore].  On an object that stands for [s], contains, root, object and
    keys answer what [s] says, through the root cache and the object cache, and leave an
    object that stands for [s]; an error leaves it standing for [s] too. *)
Theorem level_reads (repo : Bytes) (s : kv) (k prefix : Bytes) (i : Id) :
  answers (db := db) (cache := cache) repo s (contains k) (λ b, b = bool_decide (is_Some (kv_roots s !! k))) ∧
  answers (db := db) (cache := cache) repo s (root k) (λ id, kv_roots s !! k = Some id) ∧
  answers (db := db) (cache := cache) repo s (object i) (λ v, kv_objects s !! i = Some v) ∧
  answers (db := db) (cache := cache) repo s (keys prefix)
    (λ l, l = filter (λ k, starts_with prefix k = true) (in_order (kv_roots s)).*1).
Proof.
  split_and!; [apply contains_answers|apply root_answers|apply object_answers|apply keys_answers].
Qed.

(** C23: Creation and reopening.  A repository created in an empty database stands for
    the empty store, and the database of any object that stands for [s] opens again to an
    object that stands for [s], for any cache size, as long as the database answers. *)
Theorem level_open_roundtrip (repo : Bytes) (s : kv) (st : level db cache) (d : db) (n : Z) :
  length repo = 16%nat → contents d = ∅ → level_ok repo s st → responsive (db_ st) →
  (∀ st', open_store (Some repo) n d = Ok st' → level_ok (cache := cache) repo empty_kv st') ∧
  ∃ st', open_store None n (db_ st) = Ok st' ∧ level_ok (cache := cache) repo s st'.
Proof.
  intros Hr Hd Hst Hresp. split.
  - intros st' E. pose proof (create_store (cache := cache) repo n d Hd Hr) as Hc. by rewrite E in Hc.
  - destruct (reopens_image repo [s] s st (lv_contents _ _ _ Hst) (lv_kv _ _ _ Hst) Hr
      (list_elem_of_here _ _) n Hresp) as (st' & Ho & s' & ->%list_elem_of_singleton & Hok). eauto.
Qed.

(** Safety of the garbage collection.  When the mark holds the object of every root that
    is kept, collect either removes exactly the unmarked objects and the obsolete roots, at
    the sequence number it was told and with every marked object present, leaving an object that
    stands for the collected store; or changes nothing; or refuses further use and its
    database reopens as the old or the collected store.  No kept root ever loses its object. *)
Theorem level_collect_safe (repo : Bytes) (s : kv) (st : level db cache) (expected : Z)
    (live : gset Id) (obsolete : list Bytes) :
  level_ok repo s st → NoDup obsolete → marks s live obsolete →
  (∀ k, k ∉ obsolete → kv_get (kv_collect live obsolete s) k = kv_get s k) ∧
  match collect expected live obsolete st with
  | (st', Ok removed) =>
      expected = kv_seq s ∧ (∀ i, i ∈ live → is_Some (kv_objects s !! i)) ∧
      removed = len (dead_objects live s) ∧ level_ok repo (kv_collect live obsolete s) st'
  | (st', Err _) =>
      level_ok repo s st' ∨
      poisoned_ st' = true ∧ reopens_as repo [s; kv_collect live obsolete s] st'
  | (_, OutOfFuel) => False
  end.
Proof.
  intros Hst Hnd Hm. split.
  { intros k Hk. unfold kv_get, kv_collect. cbn [kv_roots kv_objects]. rewrite filter_lookup_kept by done.
    destruct (kv_roots s !! k) as [id|] eqn:E; [|done]. cbn [mbind option_bind].
    destruct (kv_objects s !! id) as [v|] eqn:Ev.
    - apply map_lookup_filter_Some. split; [done|]. by eapply Hm.
    - apply map_lookup_filter_None. by left. }
  pose proof (level_collect repo s st expected live obsolete Hst Hnd Hm) as Ho.
  unfold level_outcome in Ho. destruct (collect expected live obsolete st) as [st' [a|m|]]; [naive_solver| |done].
  destruct Ho as [?|(Hp & Hk & Hd)]; [by left|right]. split; [done|].
  destruct Hd as [Hd|Hd]; eapply reopens_image; try exact Hd; try done; try set_solver.
  - by destruct Hst.
  - by destruct (lv_repo _ _ _ Hst).
  - by destruct (lv_repo _ _ _ Hst).
Qed.

(** C20: Coherence of the root cache.  Whatever readers and commits interleave from a
    freshly opened object, whenever no commit is between its write and its publication and
    the object is healthy, a reader that hits the cache gets exactly what the database
    holds for the key, and what a reader of the current epoch is about to install is what
    the database holds; a snapshot read across a commit is never installed. *)
Theorem root_cache_coherent (w w' : world db cache) (key : Bytes) :
  quiet w → rtc race w w' → writer w' = None → poisoned_ (shared w') = false →
  (∀ st' e f, cache_begin key (shared w') = (st', Ok (e, Some f)) →
    contents (db_ (shared w')) !! key = says f) ∧
  (∀ i e v st', readers w' !! i = Some (Installing key e v) → e = sequence_ (shared w') →
    cache_install key e v (shared w') = (st', Ok tt) → contents (db_ (shared w')) !! key = v) ∧
  (∀ i e v, readers w' !! i = Some (Installing key e v) → e ≠ sequence_ (shared w') →
    cache_install key e v (shared w') = (shared w', Ok tt)).
Proof.
  intros Hq Hr Hw Hp. apply quiet_coherent in Hq.
  destruct (race_reachable w w' Hr Hq Hp) as [Hf He Hi Hep].
  assert (∀ k v, describes w' k v → contents (db_ (shared w')) !! k = v) as Hd.
  { intros k v (m & Hm & <-). unfold current in Hm. rewrite Hw in Hm.
    by apply list_elem_of_singleton in Hm as ->. }
  split_and!.
  - intros st' e f (_ & _ & _ & _ & _ & Eh & Hc)%cache_begin_inv. symmetry in Eh. apply Hd.
    destruct Hc as [[Eq Ec]|Ec]; rewrite Ec in Eh; [by apply Hf|by rewrite lookup_empty in Eh].
  - intros i e v st' Ei Ee _. by eapply Hd, Hi.
  - intros i e v Ei Ee. unfold cache_install. by rewrite (proj2 (Z.eqb_neq _ _)) by done.
Qed.
End LevelSpec.

(** ** Examples *)

(** A database that is a finite map, and one that fails its writes. *)
#[global] Instance map_db : LevelDB (gmap Bytes Bytes) := {
  db_get m k := inr (m !! k);
  db_iter m k := (filter (λ e, lex_ltb e.1 k = false) (in_order m), None);
  db_write m b := (write_batch b m, None);
  db_compact m := m;
  contents m := m;
}.
#[global] Program Instance map_db_ok : LevelDBOk (gmap Bytes Bytes).
Next Obligation. by intros d k v [= <-]. Qed.
Next Obligation. by intros d k l [= <-]. Qed.
Next Obligation. by intros d b d' [= <-]. Qed.
Next Obligation. done. Qed.
Next Obligation. done. Qed.

#[global] Instance map_cache : Cache (gmap Bytes Bytes) := {
  cache_new _ := ∅;
  cache_lookup c k := (c, c !! k);
  cache_insert c k v _ := <[k := v]> c;
  cache_prune _ := ∅;
  held c := c;
}.
#[global] Program Instance map_cache_ok : CacheOk (gmap Bytes Bytes).
Next Obligation. done. Qed.
Next Obligation. by intros c k c' r [= <- <-]. Qed.
Next Obligation. done. Qed.
Next Obligation. done. Qed.

Definition repo0 : Bytes := zeros 16.
Definition db0 : gmap Bytes Bytes := image repo0 empty_kv.
Definition level0 : level (gmap Bytes Bytes) (gmap Bytes Bytes) :=
  mkLevel db0 0 0 0 false (hex_id repo0) ∅ UINT64_MAX ∅ default_object_cache_bytes 0 0.
Definition batch0 : list Journal.Mutation :=
  [Journal.mkMutation (bs "a") (Some (bs "x")) None; Journal.mkMutation (bs "b") (Some (bs "y")) None].

Lemma level0_ok : level_ok repo0 empty_kv level0.
Proof.
  split; try done; try apply empty_kv_ok.
  - split; [|by right]. intros _ key f Hf. cbn [level0 root_cache_] in Hf. by rewrite lookup_empty in Hf.
Qed.

Lemma map_responsive (d : gmap Bytes Bytes) : responsive d.
Proof. intros k. by eexists. Qed.

Lemma level_transact_witness :
  level_ok repo0 empty_kv level0 ∧
  match transact 0 batch0 level0 with
  | (st', Ok _) => level_accepts empty_kv 0 batch0 ∧ level_ok repo0 (kv_batch batch0 empty_kv) st'
  | (st', Err _) => level_ok repo0 empty_kv st' ∨
      poisoned_ st' = true ∧ reopens_as repo0 [empty_kv; kv_batch batch0 empty_kv] st'
  | (_, OutOfFuel) => False
  end.
Proof.
  split; [apply level0_ok|]. apply (level_transact_refinement repo0 empty_kv level0 0 batch0).
  - apply level0_ok.
  - split; apply Z.leb_le; vm_compute; reflexivity.
Defined.

(** The batch is accepted, and its roots are then read back. *)
Example level_transact_runs :
  ((transact 0 batch0;; a ← root (bs "a"); object a) level0).2 = Ok (bs "x").
Proof. vm_compute. reflexivity. Qed.

Lemma level_open_witness :
  ∃ st', open_store None 0 (db_ level0) = Ok st' ∧
    level_ok (db := gmap Bytes Bytes) (cache := gmap Bytes Bytes) repo0 empty_kv st'.
Proof.
  apply (level_open_roundtrip repo0 empty_kv level0 ∅ 0); [done|done|apply level0_ok|].
  apply map_responsive.
Defined.

Lemma level_collect_witness :
  match collect 0 ∅ [] level0 with
  | (st', Ok removed) =>
      0 = kv_seq empty_kv ∧ (∀ i : Id, i ∈ (∅ : gset Id) → is_Some (kv_objects empty_kv !! i)) ∧
      removed = len (dead_objects ∅ empty_kv) ∧ level_ok repo0 (kv_collect ∅ [] empty_kv) st'
  | (st', Err _) =>
      level_ok repo0 empty_kv st' ∨
      poisoned_ st' = true ∧ reopens_as repo0 [empty_kv; kv_collect ∅ [] empty_kv] st'
  | (_, OutOfFuel) => False
  end.
Proof.
  apply (level_collect_safe repo0 empty_kv level0 0 ∅ []); [apply level0_ok|apply NoDup_nil_2|].
  intros k id Hk. cbn [empty_kv kv_roots] in Hk. by rewrite lookup_empty in Hk.
Defined.

Lemma level_reads_witness :
  answers (db := gmap Bytes Bytes) (cache := gmap Bytes Bytes) repo0 empty_kv (keys [])
    (λ l, l = filter (λ k, starts_with [] k = true) (in_order (kv_roots empty_kv)).*1).
Proof. apply (level_reads repo0 empty_kv [] [] zero_id). Defined.

(** A reader that crosses a commit: it fetched before the batch was written and installs
    after it was published. *)
Definition key0 : Bytes := R_ ++ bs "a".
Definition begun : level (gmap Bytes Bytes) (gmap Bytes Bytes) := (cache_begin key0 level0).1.
Definition written : level (gmap Bytes Bytes) (gmap Bytes Bytes) :=
  (commit [(key0, Some (zeros 32))] "commit LevelDB batch" begun).1.
Definition race0 : world (gmap Bytes Bytes) (gmap Bytes Bytes) := mkRace level0 ∅ None.
Definition race1 : world (gmap Bytes Bytes) (gmap Bytes Bytes) :=
  mkRace (set_counts 1 0 1 written) (<[0%nat := Installing key0 0 None]> (<[0%nat := Fetching key0 0]> ∅)) None.

Lemma race0_race1 : rtc race race0 race1.
Proof.
  eapply rtc_l; [by eapply (race_miss level0 ∅ None 0%nat key0 begun 0)|].
  eapply rtc_l; [by eapply (race_fetch begun _ None 0%nat key0 0 begun None)|].
  eapply rtc_l; [by eapply (race_write begun _ [(key0, Some (zeros 32))] "commit LevelDB batch" written 0 1)|].
  eapply rtc_l; [by eapply race_publish|]. apply rtc_refl.
Qed.

Lemma root_cache_witness :
  cache_install key0 0 None (shared race1) = (shared race1, Ok tt).
Proof.
  apply (root_cache_coherent race0 race1 key0) with (i := 0%nat); [done|apply race0_race1|done|done|done|done].
Defined.
