(* ===== verification/Store.v ===== *)
(** * The journal as its clients see it

    [Journal] offers one interface over two storage backends.  [JournalLike] lists the
    calls the metadata views, the container and the namespace make; [JournalLaws] is what
    they rely upon, stated against the abstract store [kv].  The reads of the class are the
    answers of the backend; that a backend's caches change while it answers is invisible
    through it. *)

From S2P Require Import Prelude Codec Journal JournalTransact JournalStore MetadataTree.
Local Open Scope Z_scope.

Class JournalLike (J : Type) := {
  j_objects :: ObjectStore J;
  j_contains : J → Bytes → result bool;
  j_root : J → Bytes → result Id;
  j_get : J → Bytes → result Bytes;
  j_keys : J → Bytes → result (list Bytes);
  j_sequence : J → Z;
  j_leveldb : J → bool;
  j_repository : J → result Bytes;
  j_verify : J → result unit;
  j_put : Bytes → Bytes → ST J unit;
  j_transact : Z → list Journal.Mutation → ST J unit;
  j_checkpoint : ST J Journal.Checkpoint;
  j_compact : ST J unit;
  j_collect : Z → gset Id → list Bytes → ST J Z;
  j_poison : J → J;
}.

(** The answers of a store to a root and to an object id. *)
Definition root_result (v : option Id) : result Id :=
  match v with Some id => Ok id | None => Err "object root not found" end.
Definition object_result (v : option Bytes) : result Bytes :=
  match v with Some b => Ok b | None => Err "object not indexed" end.

Definition kv_keys (s : kv) (prefix : Bytes) : list Bytes :=
  filter (λ k, starts_with prefix k = true) (in_order (kv_roots s)).*1.

(** A read answers as specified, or throws because the backend is not [ready]. *)
Definition answered {A} (ready : Prop) (r spec : result A) : Prop :=
  r = spec ∨ ¬ ready ∧ ∃ m, r = Err m.

Class JournalLaws (J : Type) `{JournalLike J} `{Digest} := {
  laws_objects :: ObjectStoreOk J;
  (** The journal is healthy and represents a store. *)
  stands : J → kv → Prop;
  (** The device answers every read. *)
  ready : J → Prop;
  (** The journal refuses every use. *)
  dead : J → Prop;
  stands_sequence : ∀ j s, stands j s → j_sequence j = kv_seq s;
  stands_contains : ∀ j s k, stands j s →
    answered (ready j) (j_contains j k) (Ok (bool_decide (is_Some (kv_roots s !! k))));
  stands_root : ∀ j s k, stands j s → answered (ready j) (j_root j k) (root_result (kv_roots s !! k));
  stands_get : ∀ j s k, stands j s → answered (ready j) (j_get j k) (read_result (kv_get s k));
  stands_object : ∀ j s id, stands j s →
    answered (ready j) (get_object j id) (object_result (kv_objects s !! id));
  stands_keys : ∀ j s p, stands j s → answered (ready j) (j_keys j p) (Ok (kv_keys s p));
  stands_hashed : ∀ j s id v, stands j s → kv_objects s !! id = Some v → object_hash v = id;
  stands_roots : ∀ j s k id, stands j s → kv_roots s !! k = Some id → is_Some (kv_objects s !! id);
  stands_transact : ∀ j s e ms, stands j s → counts_fit (kv_batch ms s) →
    match j_transact e ms j with
    | (j', Ok _) => e = kv_seq s ∧ NoDup (Journal.m_key <$> ms) ∧ stands j' (kv_batch ms s) ∧
        j_leveldb j' = j_leveldb j
    | (j', Err _) => stands j' s ∨ dead j'
    | (_, OutOfFuel) => False
    end;
  dead_reads : ∀ j k, dead j → ∃ m, j_get j k = Err m;
}.

(** ** Consequences used by the clients *)

Section Answers.
Context {J : Type} `{JournalLaws J}.
Implicit Types (j : J) (s : kv).

Lemma answered_Ok {A} (P : Prop) (r : result A) spec a : answered P r spec → r = Ok a → spec = Ok a.
Proof. intros [->|[_ [m ->]]]; congruence. Qed.

Lemma answered_ready {A} (P : Prop) (r : result A) spec : P → answered P r spec → r = spec.
Proof. intros HP [->|[? _]]; done. Qed.

Lemma answered_total {A} (P : Prop) (r : result A) spec : answered P r spec → total spec → total r.
Proof. intros [->|[_ [m ->]]] Hs; [done|apply total_Err]. Qed.

Lemma object_stands j s id b : stands j s → get_object j id = Ok b → kv_objects s !! id = Some b.
Proof.
  intros Hs Hg. apply (answered_Ok _ _ _ _ (stands_object j s id Hs)) in Hg.
  destruct (kv_objects s !! id) as [v|]; cbn [object_result] in Hg; congruence.
Qed.

Lemma object_hashed j s id b : stands j s → get_object j id = Ok b → object_hash b = id.
Proof. intros Hs Hg. eapply stands_hashed; [done|]. by eapply object_stands. Qed.

Lemma contains_stands j s k b : stands j s → j_contains j k = Ok b → b = bool_decide (is_Some (kv_roots s !! k)).
Proof. intros Hs Hc. apply (answered_Ok _ _ _ _ (stands_contains j s k Hs)) in Hc. congruence. Qed.

Lemma root_stands j s k id : stands j s → j_root j k = Ok id → kv_roots s !! k = Some id.
Proof.
  intros Hs Hg. apply (answered_Ok _ _ _ _ (stands_root j s k Hs)) in Hg.
  destruct (kv_roots s !! k); cbn [root_result] in Hg; congruence.
Qed.

Lemma get_stands j s k b : stands j s → j_get j k = Ok b → kv_get s k = Some b.
Proof.
  intros Hs Hg. apply (answered_Ok _ _ _ _ (stands_get j s k Hs)) in Hg.
  destruct (kv_get s k); cbn [read_result] in Hg; congruence.
Qed.

Lemma keys_stands j s p l : stands j s → j_keys j p = Ok l → l = kv_keys s p.
Proof. intros Hs Hk. apply (answered_Ok _ _ _ _ (stands_keys j s p Hs)) in Hk. congruence. Qed.

Lemma contains_total j s k : stands j s → total (j_contains j k).
Proof. intros Hs. eapply answered_total; [by apply stands_contains|apply total_Ok]. Qed.
Lemma root_total j s k : stands j s → total (j_root j k).
Proof. intros Hs. eapply answered_total; [by apply stands_root|]. unfold root_result. solve_total. Qed.
Lemma get_total j s k : stands j s → total (j_get j k).
Proof. intros Hs. eapply answered_total; [by apply stands_get|]. unfold read_result. solve_total. Qed.
Lemma keys_total j s p : stands j s → total (j_keys j p).
Proof. intros Hs. eapply answered_total; [by apply stands_keys|apply total_Ok]. Qed.
Lemma object_total j id : total (get_object j id).
Proof. apply get_object_total. Qed.
End Answers.

#[export] Hint Resolve contains_total root_total get_total keys_total object_total : forkfs.
