(* ===== verification/StoreMemory.v ===== *)
(** * A journal in memory

    The simplest journal: the abstract store itself, with the checks of [transact].  It
    satisfies the laws of [JournalLaws] and lets the clients of the journal be run on concrete
    inputs. *)

From S2P Require Import Prelude Codec Journal JournalTransact JournalStore LevelStoreProofs LevelStoreTransact.
From S2P Require Import MetadataTree Store.
Local Open Scope Z_scope.

Record memory := mkMemory { mem_kv : kv; mem_leveldb : bool }.

Section Memory.
Context `{Digest}.

Definition change_okb (s : kv) (m : Journal.Mutation) : bool :=
  (0 <? len (Journal.m_key m)) && (len (Journal.m_key m) <=? 1024) &&
  match Journal.m_reference m, Journal.m_value m with
  | Some id, None => bool_decide (is_Some (kv_objects s !! id))
  | None, Some v => len v <=? 256 * 1024
  | None, None => bool_decide (is_Some (kv_roots s !! Journal.m_key m))
  | Some _, Some _ => false
  end.

Lemma change_okb_ok s m : change_okb s m = true → change_ok s m.
Proof.
  unfold change_okb, change_ok, len. rewrite !andb_true_iff, Z.ltb_lt, Z.leb_le. intros [[Hl Hu] Hm].
  split; [lia|]. destruct (Journal.m_reference m), (Journal.m_value m); [done| | |];
    rewrite ?bool_decide_eq_true, ?Z.leb_le in Hm; done.
Qed.

Definition memory_transact (e : Z) (ms : list Journal.Mutation) : ST memory unit := λ m,
  let s := mem_kv m in
  if (e =? kv_seq s) && negb (kv_seq s =? UINT64_MAX) && bool_decide (NoDup (Journal.m_key <$> ms))
     && forallb (change_okb s) ms
  then (mkMemory (kv_batch ms s) (mem_leveldb m), Ok tt)
  else (m, Err "transaction refused").

#[global] Instance memory_objects : ObjectStore memory := {
  get_object m id := object_result (kv_objects (mem_kv m) !! id);
  object_ids m := dom (kv_objects (mem_kv m));
}.

#[global] Instance memory_objects_ok : ObjectStoreOk memory.
Proof.
  split.
  - intros m id b Hb. cbn in Hb. apply elem_of_dom. destruct (kv_objects (mem_kv m) !! id); [by eexists|done].
  - intros m id. cbn. by destruct (kv_objects (mem_kv m) !! id).
Qed.

#[global] Instance memory_journal : JournalLike memory := {
  j_contains m k := Ok (bool_decide (is_Some (kv_roots (mem_kv m) !! k)));
  j_root m k := root_result (kv_roots (mem_kv m) !! k);
  j_get m k := read_result (kv_get (mem_kv m) k);
  j_keys m p := Ok (kv_keys (mem_kv m) p);
  j_sequence m := kv_seq (mem_kv m);
  j_leveldb := mem_leveldb;
  j_repository m := Ok (zeros 32);
  j_verify m := Ok tt;
  j_put k v := λ m, memory_transact (kv_seq (mem_kv m)) [Journal.mkMutation k (Some v) None] m;
  j_transact := memory_transact;
  j_checkpoint := mret Journal.no_checkpoint;
  j_compact := mret tt;
  j_collect e live obsolete := λ m, (mkMemory (kv_collect live obsolete (mem_kv m)) (mem_leveldb m), Ok 0);
  j_poison m := m;
}.

#[global] Program Instance memory_laws : JournalLaws memory := {|
  stands m s := mem_kv m = s ∧ kv_ok s; ready m := True; dead m := False
|}.
Next Obligation. by intros m s [<- _]. Qed.
Next Obligation. intros m s k [<- _]. by left. Qed.
Next Obligation. intros m s k [<- _]. by left. Qed.
Next Obligation. intros m s k [<- _]. by left. Qed.
Next Obligation. intros m s id [<- _]. by left. Qed.
Next Obligation. intros m s p [<- _]. by left. Qed.
Next Obligation. intros m s id v [_ Hok] Hv. by destruct (ok_objects s Hok id v Hv) as [-> _]. Qed.
Next Obligation. intros m s k id [_ Hok] Hk. by destruct (ok_roots s Hok k id Hk). Qed.
Next Obligation.
  intros m s e ms [<- Hok] Hfit. cbn. unfold memory_transact.
  destruct (_ && _) eqn:E; [|left; done].
  rewrite !andb_true_iff, Z.eqb_eq, negb_true_iff, Z.eqb_neq, bool_decide_eq_true, forallb_forall in E.
  destruct E as [[[-> Hmax] Hnd] Hms]. split_and!; [done|done|done| |done]. cbn.
  apply kv_batch_ok; [done| |done|done|done]. apply Forall_forall. intros x Hx.
  apply change_okb_ok, Hms. by apply list_elem_of_In.
Qed.
Next Obligation. done. Qed.
End Memory.

(** A check of [kv_ok] by evaluation. *)
Definition kv_okb `{Digest} (s : kv) : bool :=
  (0 <=? kv_seq s) && (kv_seq s <=? UINT64_MAX)
  && bool_decide (map_Forall (λ id v, id = object_hash v ∧ (len v <=? 256 * 1024) = true) (kv_objects s))
  && bool_decide (map_Forall (λ k id, is_Some (kv_objects s !! id) ∧ (0 <? len k) && (len k <=? 1024) = true)
       (kv_roots s))
  && (Z.of_nat (size (kv_objects s)) <=? UINT64_MAX) && (Z.of_nat (size (kv_roots s)) <=? UINT64_MAX).

Lemma kv_okb_ok `{Digest} s : kv_okb s = true → kv_ok s.
Proof.
  unfold kv_okb. rewrite !andb_true_iff, !bool_decide_eq_true, !Z.leb_le.
  intros (((([Hq1 Hq2] & Ho) & Hr) & Hco) & Hcr). split; [done| | |done].
  - intros id v Hv. destruct (Ho id v Hv) as [-> Hl%Z.leb_le]. done.
  - intros k id Hk. destruct (Hr k id Hk) as [Hid Hl]. split; [done|].
    rewrite andb_true_iff, Z.ltb_lt, Z.leb_le in Hl. unfold len in Hl. lia.
Qed.
