(* ===== verification/JournalFacade.v ===== *)
(** * The two backends behind [Journal]

    Every operation of [Journal] starts with [if(leveldb_)return leveldb_->...].  [backend]
    is the choice the constructors make, [Module JournalFacade] the dispatch, and the
    instances at the end show that either backend is the [JournalLike] its clients
    expect. *)

From S2P Require Import Prelude Codec Journal JournalReplay JournalState JournalTransact JournalStore.
From S2P Require Import JournalRuns MetadataTree LevelStore LevelStoreProofs LevelStoreTransact Store.
Local Open Scope Z_scope.

(** [std::unique_ptr<LevelStore> leveldb_], null or not. *)
Inductive backend (db cache : Type) :=
| FileBacked (w : Journal.world)
| LevelBacked (st : LevelStore.level db cache).
Arguments FileBacked {db cache} w.
Arguments LevelBacked {db cache} st.

Module JournalFacade.
Section Dispatch.
Context {db cache : Type} `{LevelDB db} `{Cache cache} `{Digest}.
Abbreviation journal := (backend db cache).

(** Running an operation on the member it is forwarded to. *)
Definition on_file {A} (m : ST Journal.world A) (w : Journal.world) : journal * result A :=
  let '(w', r) := m w in (FileBacked w', r).
Definition on_level {A} (m : ST (LevelStore.level db cache) A) (st : LevelStore.level db cache)
    : journal * result A :=
  let '(st', r) := m st in (LevelBacked st', r).

Definition is_leveldb (j : journal) : bool :=
  match j with FileBacked _ => false | LevelBacked _ => true end.

(** [std::string Journal::repository() const] *)
Definition repository (j : journal) : result Bytes :=
  match j with
  | FileBacked _ => Err "repository API requires LevelDB"
  | LevelBacked st => Ok (LevelStore.repository_ st)
  end.

(** [uint64_t Journal::sequence() const] *)
Definition sequence (j : journal) : Z :=
  match j with FileBacked w => Journal.seq_ (Journal.jnl w) | LevelBacked st => LevelStore.sequence_ st end.

(** [size_t Journal::objects() const] *)
Definition objects (j : journal) : Z :=
  match j with
  | FileBacked w => Z.of_nat (size (Journal.objects_ (Journal.jnl w)))
  | LevelBacked st => LevelStore.objects_ st
  end.

(** [size_t Journal::count() const] *)
Definition count (j : journal) : Z :=
  match j with
  | FileBacked w => Z.of_nat (size (Journal.roots_ (Journal.jnl w)))
  | LevelBacked st => LevelStore.roots_ st
  end.

(** [void Journal::poison()] *)
Definition poison (j : journal) : journal :=
  match j with
  | FileBacked w => FileBacked (Journal.mkWorld (Journal.dev w) (Journal.poison (Journal.jnl w)))
  | LevelBacked st => LevelBacked (LevelStore.set_poisoned st)
  end.

(** [void Journal::compact()] *)
Definition compact : ST journal unit := λ j,
  match j with
  | FileBacked w => (j, Err "direct compaction requires LevelDB")
  | LevelBacked st => on_level LevelStore.compact st
  end.

(** [void Journal::put(const std::string& key,const Bytes& value)] *)
Definition put (key value : Bytes) : ST journal unit := λ j,
  match j with
  | FileBacked w => on_file (Journal.put key value) w
  | LevelBacked st =>
      on_level (LevelStore.transact (LevelStore.sequence_ st) [Journal.mkMutation key (Some value) None]) st
  end.

(** [void Journal::transact(uint64_t expected,const std::vector<Mutation>& mutations)] *)
Definition transact (expected : Z) (ms : list Journal.Mutation) : ST journal unit := λ j,
  match j with
  | FileBacked w => on_file (Journal.transact expected ms) w
  | LevelBacked st => on_level (LevelStore.transact expected ms) st
  end.

(** [Checkpoint Journal::checkpoint()] *)
Definition checkpoint : ST journal Journal.Checkpoint := λ j,
  match j with
  | FileBacked w => on_file Journal.checkpoint w
  | LevelBacked st => on_level (LevelStore.compact;; mret Journal.no_checkpoint) st
  end.

(** [std::array<unsigned char,32> Journal::root_object(const std::string& key) const] *)
Definition root_object (j : journal) (key : Bytes) : result Id :=
  match j with
  | FileBacked w => Journal.root_object (Journal.jnl w) key
  | LevelBacked st => (LevelStore.root key st).2
  end.

(** [Bytes Journal::get_object(const Hash& id) const] *)
Definition get_object (j : journal) (id : Id) : result Bytes :=
  match j with
  | FileBacked w => Journal.get_object (Journal.file (Journal.dev w)) (Journal.jnl w) id
  | LevelBacked st => (LevelStore.object id st).2
  end.

(** [bool Journal::contains(const std::string& key) const] *)
Definition contains (j : journal) (key : Bytes) : result bool :=
  match j with
  | FileBacked w => Journal.contains (Journal.jnl w) key
  | LevelBacked st => (LevelStore.contains key st).2
  end.

(** [std::vector<std::string> Journal::keys(const std::string& prefix) const] *)
Definition keys (j : journal) (prefix : Bytes) : result (list Bytes) :=
  match j with
  | FileBacked w => Journal.keys (Journal.jnl w) prefix
  | LevelBacked st => (LevelStore.keys prefix st).2
  end.

(** [void Journal::verify() const] *)
Definition verify (j : journal) : result unit :=
  match j with
  | FileBacked w => Journal.verify (Journal.file (Journal.dev w)) (Journal.jnl w)
  | LevelBacked st => (LevelStore.verify st).2
  end.

(** [std::vector<unsigned char> Journal::get(const std::string& key) const] *)
Definition get (j : journal) (key : Bytes) : result Bytes :=
  match j with
  | FileBacked w => Journal.get (Journal.file (Journal.dev w)) (Journal.jnl w) key
  | LevelBacked st => ((id ← LevelStore.root key; LevelStore.object id) st).2
  end.

(** [size_t Journal::collect(uint64_t expected,const std::set<Id>& live,const std::vector<std::string>& roots)] *)
Definition collect (expected : Z) (live : gset Id) (roots : list Bytes) : ST journal Z := λ j,
  match j with
  | FileBacked w => (j, Err "physical GC requires LevelDB")
  | LevelBacked st => on_level (LevelStore.collect expected live roots) st
  end.

(** The ids for which [get_object] may answer. *)
Definition indexed (j : journal) : gset Id :=
  match j with
  | FileBacked w => dom (Journal.objects_ (Journal.jnl w))
  | LevelBacked st =>
      dom (held (LevelStore.object_cache_ st)) ∪
      set_map (drop 2) (dom (contents (LevelStore.db_ st)))
  end.
End Dispatch.
End JournalFacade.

(** ** The instances *)

Section Instance_.
Context {db cache : Type} `{LevelDB db} `{Cache cache} `{Digest}.

#[global] Instance backend_objects : ObjectStore (backend db cache) := {
  get_object := JournalFacade.get_object;
  object_ids := JournalFacade.indexed;
}.

#[global] Instance backend_journal : JournalLike (backend db cache) := {
  j_contains := JournalFacade.contains;
  j_root := JournalFacade.root_object;
  j_get := JournalFacade.get;
  j_keys := JournalFacade.keys;
  j_sequence := JournalFacade.sequence;
  j_leveldb := JournalFacade.is_leveldb;
  j_repository := JournalFacade.repository;
  j_verify := JournalFacade.verify;
  j_put := JournalFacade.put;
  j_transact := JournalFacade.transact;
  j_checkpoint := JournalFacade.checkpoint;
  j_compact := JournalFacade.compact;
  j_collect := JournalFacade.collect;
  j_poison := JournalFacade.poison;
}.
End Instance_.

(** ** Reads of a database that answers *)

Section Exact.
Context {db cache : Type} `{LevelDBOk db} `{CacheOk cache} `{DigestOk}.
Implicit Types st : LevelStore.level db cache.
Import LevelStore.

Definition level_ready st : Prop :=
  responsive (db_ st) ∧ ∀ k, ∃ l, db_iter (db_ st) k = (l, None).

(** From a ready object [m] returns: it neither throws nor runs out of fuel. *)
Definition returns {A} (repo : Bytes) (s : kv) (m : ST (level db cache) A) : Prop :=
  ∀ st, level_ok repo s st → level_ready st → ∃ st' a, m st = (st', Ok a).

Lemma level_returns_bind {A B} repo s (m : ST _ A) (f : A → ST _ B) Q :
  returns repo s m → answers repo s m Q → (∀ a, Q a → returns repo s (f a)) → returns repo s (m ≫= f).
Proof.
  intros Hm Ha Hf st Hst Hr. destruct (Hm st Hst Hr) as (st1 & a & E). specialize (Ha st Hst).
  rewrite E in Ha. destruct Ha as (Hst1 & Hcore & HQ). rewrite (st_bind_run _ _ _ _ _ E).
  apply Hf; [done|done|]. destruct Hcore as (Hd & _). unfold level_ready. by rewrite Hd.
Qed.

Lemma level_returns_ret {A} repo s (a : A) : returns repo s (mret a).
Proof. intros st _ _. by eexists _, _. Qed.
Lemma returns_need repo s b msg : b = true → returns repo s (st_need b msg).
Proof. intros -> st _ _. by eexists _, _. Qed.

Lemma healthy_returns repo s : returns repo s healthy.
Proof.
  intros st Hst _. unfold healthy, mbind, st_bind, gets. rewrite (lv_alive _ _ _ Hst). by eexists _, _.
Qed.

Lemma fetch_returns repo s key : returns repo s (fetch key).
Proof.
  intros st Hst [Hr _]. unfold fetch, mbind, st_bind, gets. destruct (Hr key) as [v ->]. by eexists _, _.
Qed.

Lemma read_returns repo s key : returns repo s (read key).
Proof.
  eapply level_returns_bind; [apply healthy_returns|apply healthy_answers|]. intros [] _.
  destruct (starts_with R_ key); [|apply fetch_returns].
  eapply level_returns_bind; [intros st _ _; by eexists _, _|apply cache_begin_answers|]. intros [e [f|]] _; [apply level_returns_ret|].
  eapply level_returns_bind; [apply fetch_returns|apply fetch_answers|]. intros v Hv.
  eapply level_returns_bind.
  - destruct (cacheable key v); [|apply level_returns_ret]. intros st _ _. unfold cache_install.
    destruct (_ && _); by eexists _, _.
  - destruct (cacheable key v); [by apply cache_install_answers|by apply (answers_ret _ _ _ (λ _, True))].
  - intros ? _. apply level_returns_ret.
Qed.

(** A computation that returns when it can has its answer, or the database has failed. *)
Lemma answers_cases {A} repo s (m : ST _ A) (Q : A → Prop) st :
  returns repo s m → answers repo s m Q → level_ok repo s st →
  (∃ st1 a, m st = (st1, Ok a) ∧ Q a ∧ level_ok repo s st1 ∧ same_core st st1) ∨
  (¬ level_ready st ∧ ∃ st1 msg, m st = (st1, Err msg)).
Proof.
  intros Hm Ha Hst. specialize (Ha st Hst). destruct (m st) as [st1 [a|msg|]] eqn:E;
    destruct Ha as (Hst1 & Hc & Hq); [left; eauto 10|right|done].
  split; [|eauto]. intros Hr. destruct (Hm st Hst Hr) as (st2 & a & E2). congruence.
Qed.

Lemma same_core_ready st st' : same_core st st' → level_ready st' → level_ready st.
Proof. intros (Hd & _). unfold level_ready. by rewrite Hd. Qed.

(** The reads, exactly. *)
Lemma contains_exact repo s st k :
  level_ok repo s st → answered (level_ready st) (contains k st).2 (Ok (bool_decide (is_Some (kv_roots s !! k)))).
Proof.
  intros Hst. unfold contains.
  destruct (answers_cases repo s _ _ st (read_returns repo s (R_ ++ k)) (read_answers repo s (R_ ++ k)) Hst)
    as [(st1 & a & E & -> & _)|(Hr & st1 & m & E)]; unfold mbind, st_bind; rewrite E.
  - left. cbn. by rewrite image_root.
  - right. split; [done|]. by exists m.
Qed.

Lemma root_cases repo s st k :
  level_ok repo s st →
  (∃ st1, root k st = (st1, root_result (kv_roots s !! k)) ∧ level_ok repo s st1 ∧ same_core st st1) ∨
  (¬ level_ready st ∧ ∃ st1 m, root k st = (st1, Err m)).
Proof.
  intros Hst. unfold root.
  destruct (answers_cases repo s _ _ st (read_returns repo s (R_ ++ k)) (read_answers repo s (R_ ++ k)) Hst)
    as [(st1 & a & E & -> & Hst1 & Hc)|(Hr & st1 & m & E)]; unfold mbind, st_bind; rewrite E.
  - left. rewrite image_root. exists st1. split_and!; [|done|done].
    destruct (kv_roots s !! k) as [id|] eqn:Ek; [|done]. cbn [root_result]. unfold lift, to_id.
    destruct (ok_roots s (lv_kv _ _ _ Hst) k id Ek) as [[v Hv] _].
    destruct (ok_objects s (lv_kv _ _ _ Hst) id v Hv) as [-> _].
    rewrite need_true_bind; [done|]. unfold len. by rewrite length_object_hash.
  - right. split; [done|]. by exists st1, m.
Qed.

Lemma object_cases repo s st id :
  level_ok repo s st →
  (object id st).2 = object_result (kv_objects s !! id) ∨
  (¬ level_ready st ∧ ∃ m, (object id st).2 = Err m).
Proof.
  intros Hst. unfold object.
  destruct (answers_cases repo s _ _ st (healthy_returns repo s) (healthy_answers repo s) Hst)
    as [(st1 & [] & E & _ & Hst1 & Hc1)|(Hr & st1 & m & E)];
    [|right; split; [done|]; exists m; unfold mbind at 1, st_bind at 1; by rewrite E].
  rewrite (st_bind_run _ _ _ _ _ E). rewrite (st_bind_run _ _ _ st1 st1 eq_refl).
  destruct (cache_lookup (object_cache_ st1) id) as [c r] eqn:El.
  pose proof El as El'. apply cache_lookup_ok in El' as [Er Ec].
  destruct r as [v|].
  { left. unfold modify, mbind, st_bind, mret, st_ret. cbn [snd]. symmetry in Er.
    by rewrite (lv_object_cache _ _ _ Hst1 id v Er). }
  set (st2 := set_object_cache c (cache_hits_ st1) (cache_misses_ st1 + 1) st1).
  rewrite (st_bind_run _ _ _ st2 tt eq_refl).
  assert (level_ok repo s st2) as Hst2.
  { apply set_object_cache_ok; [done|]. intros i v. rewrite Ec. apply Hst1. }
  destruct (answers_cases repo s _ _ st2 (read_returns repo s (O_ ++ id)) (read_answers repo s (O_ ++ id)) Hst2)
    as [(st3 & a & E3 & -> & Hst3 & Hc3)|(Hr & st3 & m & E3)].
  - left. rewrite (st_bind_run _ _ _ _ _ E3), image_object.
    destruct (kv_objects s !! id) as [v|] eqn:Ev; [|done].
    destruct (ok_objects s (lv_kv _ _ _ Hst) id v Ev) as [-> _].
    rewrite bool_decide_eq_true_2 by done. unfold st_need, lift, need, mbind, st_bind.
    by destruct (_ <=? _).
  - right. split.
    + intros Hx. apply Hr. destruct Hc1 as (Hd & _). unfold level_ready, st2 in *.
      cbn [db_ set_object_cache]. by rewrite Hd.
    + exists m. unfold mbind at 1, st_bind at 1. by rewrite E3.
Qed.

Lemma keys_exact repo s st p :
  level_ok repo s st → answered (level_ready st) (keys p st).2 (Ok (kv_keys s p)).
Proof.
  intros Hst. assert (returns repo s (keys (db := db) (cache := cache) p)) as Hret.
  { eapply level_returns_bind; [apply healthy_returns|apply healthy_answers|]. intros [] _ st1 Hst1 [_ Hr].
    destruct (Hr (R_ ++ p)) as [l E]. unfold mbind, st_bind, gets. cbv zeta. rewrite E. by eexists _, _. }
  destruct (answers_cases repo s _ _ st Hret (keys_answers repo s p) Hst)
    as [(st1 & a & E & -> & _)|(Hr & st1 & m & E)].
  - left. by rewrite E.
  - right. split; [done|]. exists m. by rewrite E.
Qed.

Lemma get_exact repo s st k :
  level_ok repo s st →
  answered (level_ready st) ((id ← root k; object id) st).2 (read_result (kv_get s k)).
Proof.
  intros Hst. destruct (root_cases repo s st k Hst) as [(st1 & E & Hst1 & Hc)|(Hr & st1 & m & E)];
    unfold mbind at 1, st_bind at 1; rewrite E; [|right; split; [done|by exists m]].
  unfold kv_get. destruct (kv_roots s !! k) as [id|] eqn:Ek; cbn [root_result mbind option_bind]; [|by left].
  destruct (ok_roots s (lv_kv _ _ _ Hst) k id Ek) as [[v Hv] _].
  destruct (object_cases repo s st1 id Hst1) as [Eo|(Hr & m & Eo)].
  - left. rewrite Eo, Hv. done.
  - right. split; [|by exists m]. intros Hx. apply Hr. unfold level_ready in *. destruct Hc as (Hd & _). by rewrite Hd.
Qed.
End Exact.

(** ** The laws *)

Section Laws.
Context {db cache : Type} `{LevelDBOk db} `{CacheOk cache} `{DigestOk}.
Abbreviation journal := (backend db cache).

(** What [get_object] can find, from any state. *)
Lemma level_read_object st id :
  match (LevelStore.read (db := db) (cache := cache) (LevelStore.O_ ++ id) st).2 with
  | Ok (Some v) => contents (LevelStore.db_ st) !! (LevelStore.O_ ++ id) = Some v
  | Ok None | Err _ => True
  | OutOfFuel => False
  end.
Proof.
  unfold LevelStore.read, LevelStore.healthy, LevelStore.fetch, gets, st_need, lift, need, mbind, st_bind.
  destruct (LevelStore.poisoned_ st); cbn [negb]; [done|].
  change (starts_with LevelStore.R_ (LevelStore.O_ ++ id)) with false. cbn iota.
  cbn beta. destruct (db_get (LevelStore.db_ st) (LevelStore.O_ ++ id)) as [m|[v|]] eqn:E; cbn [snd mret st_ret throw]; [done| |done].
  apply db_get_ok in E. by rewrite <- E.
Qed.

Lemma level_object_ids st id :
  match (LevelStore.object (db := db) (cache := cache) id st).2 with
  | Ok _ => id ∈ JournalFacade.indexed (LevelBacked st)
  | Err _ => True
  | OutOfFuel => False
  end.
Proof.
  unfold LevelStore.object, LevelStore.healthy, gets, st_need, lift, need, get_st, modify, mbind, st_bind.
  destruct (LevelStore.poisoned_ st); cbn [negb]; [done|].
  destruct (cache_lookup (LevelStore.object_cache_ st) id) as [c [v|]] eqn:El.
  - apply cache_lookup_ok in El as [El _]. cbn [snd mret st_ret JournalFacade.indexed].
    apply elem_of_union_l, elem_of_dom. by exists v.
  - match goal with |- context [LevelStore.read _ ?x] => pose proof (level_read_object x id) as Hr end.
    destruct (LevelStore.read _ _) as [st1 [[v|]|m|]]; cbn [snd] in Hr; [|done..].
    destruct (bool_decide _); cbn [negb]; [|done]. cbn [JournalFacade.indexed].
    assert (id ∈ dom (held (LevelStore.object_cache_ st)) ∪
      (set_map (drop 2) (dom (contents (LevelStore.db_ st))) : gset Id)).
    { apply elem_of_union_r, elem_of_map. exists (LevelStore.O_ ++ id). split; [done|].
      apply elem_of_dom. by exists v. }
    by destruct (_ <=? _).
Qed.

Lemma file_object_ids w id :
  match JournalFacade.get_object (FileBacked w : journal) id with
  | Ok _ => id ∈ JournalFacade.indexed (FileBacked w : journal)
  | Err _ => True
  | OutOfFuel => False
  end.
Proof.
  cbn [JournalFacade.get_object JournalFacade.indexed]. unfold Journal.get_object, Journal.alive.
  destruct (Journal.poisoned_ (Journal.jnl w)); [done|]. cbn [negb need mbind result_bind].
  pose proof (read_object_total (Journal.file (Journal.dev w)) (Journal.jnl w) id) as Ht.
  destruct (Journal.read_object _ _ id) as [v|m|] eqn:E; [|done|by destruct Ht].
  apply elem_of_dom. unfold Journal.read_object in E.
  destruct (Journal.objects_ (Journal.jnl w) !! id) as [loc|]; [by exists loc|done].
Qed.

#[global] Instance backend_objects_ok : ObjectStoreOk journal.
Proof.
  split.
  - intros [w|st] id b Hb; [pose proof (file_object_ids w id) as Hf|pose proof (level_object_ids st id) as Hf].
    + change (JournalFacade.get_object (FileBacked w : journal) id = Ok b) in Hb. by rewrite Hb in Hf.
    + change ((LevelStore.object id st).2 = Ok b) in Hb. by rewrite Hb in Hf.
  - intros [w|st] id Hx; [pose proof (file_object_ids w id) as Hf|pose proof (level_object_ids st id) as Hf].
    + change (JournalFacade.get_object (FileBacked w : journal) id = OutOfFuel) in Hx. by rewrite Hx in Hf.
    + change ((LevelStore.object id st).2 = OutOfFuel) in Hx. by rewrite Hx in Hf.
Qed.

(** A healthy backend represents a store. *)
Definition backend_stands (j : journal) (s : kv) : Prop :=
  match j with
  | FileBacked w => ∃ c l f, inv c w l f ∧ abs f (Journal.jnl w) = s
  | LevelBacked st => ∃ repo, level_ok repo s st
  end.
Definition backend_ready (j : journal) : Prop :=
  match j with FileBacked _ => True | LevelBacked st => level_ready st end.
Definition backend_dead (j : journal) : Prop :=
  match j with
  | FileBacked w => Journal.poisoned_ (Journal.jnl w) = true
  | LevelBacked st => LevelStore.poisoned_ st = true
  end.

Lemma file_contains c w l f k :
  inv c w l f →
  Journal.contains (Journal.jnl w) k = Ok (bool_decide (is_Some (kv_roots (abs f (Journal.jnl w)) !! k))).
Proof.
  intros Hi. unfold Journal.contains, Journal.alive. rewrite (inv_alive _ _ _ _ Hi).
  cbn [negb need mbind result_bind]. by rewrite abs_roots.
Qed.

Lemma file_root c w l f k :
  inv c w l f →
  Journal.root_object (Journal.jnl w) k = root_result (kv_roots (abs f (Journal.jnl w)) !! k).
Proof.
  intros Hi. unfold Journal.root_object, Journal.alive. rewrite (inv_alive _ _ _ _ Hi).
  cbn [negb need mbind result_bind]. by rewrite abs_roots.
Qed.

Lemma file_object c w l f id :
  inv c w l f →
  Journal.get_object (Journal.file (Journal.dev w)) (Journal.jnl w) id =
  object_result (kv_objects (abs f (Journal.jnl w)) !! id).
Proof.
  intros Hi. unfold Journal.get_object, Journal.alive. rewrite (inv_alive _ _ _ _ Hi).
  cbn [negb need mbind result_bind]. rewrite <- (inv_abs _ _ _ _ Hi), abs_object.
  destruct (Journal.objects_ (Journal.jnl w) !! id) as [loc|] eqn:El.
  - destruct (inv_read _ _ _ _ id Hi) as (v & -> & _); [by exists loc|done].
  - unfold Journal.read_object. by rewrite El.
Qed.

Lemma file_objects_hashed c w l f id v :
  inv c w l f → kv_objects (abs f (Journal.jnl w)) !! id = Some v → object_hash v = id.
Proof.
  intros Hi. rewrite <- (inv_abs _ _ _ _ Hi), abs_object.
  destruct (Journal.objects_ (Journal.jnl w) !! id) as [loc|] eqn:El.
  - destruct (inv_read _ _ _ _ id Hi) as (v' & -> & -> & _); [by exists loc|]. by intros [= ->].
  - unfold Journal.read_object. by rewrite El.
Qed.

Lemma file_roots_stored c w l f k id :
  inv c w l f → kv_roots (abs f (Journal.jnl w)) !! k = Some id →
  is_Some (kv_objects (abs f (Journal.jnl w)) !! id).
Proof.
  intros Hi. rewrite abs_roots. intros Hk. destruct (inv_roots _ _ _ _ Hi k id Hk) as [Hid _].
  destruct (inv_read _ _ _ _ id Hi Hid) as (v & Hv & _). exists v.
  by rewrite <- (inv_abs _ _ _ _ Hi), abs_object, Hv.
Qed.

Lemma backend_transact (j : journal) s e ms :
  backend_stands j s → counts_fit (kv_batch ms s) →
  match JournalFacade.transact e ms j with
  | (j', Ok _) => e = kv_seq s ∧ NoDup (Journal.m_key <$> ms) ∧ backend_stands j' (kv_batch ms s) ∧
      JournalFacade.is_leveldb j' = JournalFacade.is_leveldb j
  | (j', Err _) => backend_stands j' s ∨ backend_dead j'
  | (_, OutOfFuel) => False
  end.
Proof.
  destruct j as [w|st]; cbn [backend_stands JournalFacade.transact].
  - intros (c & l & f & Hi & <-) _. unfold JournalFacade.on_file.
    pose proof (transact_atomic c w l f e ms Hi) as Ha.
    destruct (transact_run c w l f e ms Hi) as [[m ->]|(locs & cp & e' & f' & Hbc & _)];
      [left; by exists c, l, f|].
    destruct (Journal.transact e ms w) as [w' [[]|m|]]; [| |done].
    + destruct Ha as [(l' & f2 & Hi' & Hf2) _]. rewrite abs_seq.
      split_and!; [apply Hbc|apply Hbc|by exists c, l', f2|done].
    + destruct Ha as [->|[Hp _]]; [left; by exists c, l, f|by right].
  - intros [repo Hst] Hfit. unfold JournalFacade.on_level.
    pose proof (level_transact repo s st e ms Hst Hfit) as Ho. unfold level_outcome in Ho.
    destruct (LevelStore.transact e ms st) as [st' [[]|m|]]; [| |done].
    + destruct Ho as [Ha Hok]. split_and!; [apply Ha|apply Ha|by exists repo|done].
    + destruct Ho as [Hok|[Hp _]]; [left; by exists repo|by right].
Qed.

#[global] Program Instance backend_laws : JournalLaws journal := {|
  stands := backend_stands; ready := backend_ready; dead := backend_dead
|}.
Next Obligation.
  intros [w|st] s; cbn; [intros (c & l & f & _ & <-); by rewrite abs_seq|intros [repo Hst]; apply Hst].
Qed.
Next Obligation.
  intros [w|st] s k; cbn [backend_stands]; [intros (c & l & f & Hi & <-); left; by eapply file_contains|].
  intros [repo Hst]. by apply (contains_exact repo).
Qed.
Next Obligation.
  intros [w|st] s k; cbn [backend_stands]; [intros (c & l & f & Hi & <-); left; by eapply file_root|].
  intros [repo Hst]. cbn. destruct (root_cases repo s st k Hst) as [(st1 & E & _)|(Hr & st1 & m & E)].
  - left. by rewrite E.
  - right. split; [done|]. exists m. by rewrite E.
Qed.
Next Obligation.
  intros [w|st] s k; cbn [backend_stands]; [intros (c & l & f & Hi & <-); left; by eapply get_abs|].
  intros [repo Hst]. by apply (get_exact repo).
Qed.
Next Obligation.
  intros [w|st] s id; cbn [backend_stands]; [intros (c & l & f & Hi & <-); left; by eapply file_object|].
  intros [repo Hst]. destruct (object_cases repo s st id Hst) as [E|(Hr & m & E)]; [by left|right; eauto].
Qed.
Next Obligation.
  intros [w|st] s p; cbn [backend_stands]; [intros (c & l & f & Hi & <-); left; by eapply keys_inv|].
  intros [repo Hst]. by apply (keys_exact repo).
Qed.
Next Obligation.
  intros [w|st] s id v; cbn [backend_stands]; [intros (c & l & f & Hi & <-); by eapply file_objects_hashed|].
  intros [repo Hst] Hv. by destruct (ok_objects s (lv_kv _ _ _ Hst) id v Hv) as [-> _].
Qed.
Next Obligation.
  intros [w|st] s k id; cbn [backend_stands]; [intros (c & l & f & Hi & <-); by eapply file_roots_stored|].
  intros [repo Hst] Hk. by destruct (ok_roots s (lv_kv _ _ _ Hst) k id Hk).
Qed.
Next Obligation. intros j s e ms. apply backend_transact. Qed.
Next Obligation.
  intros [w|st] k Hd; cbn in Hd.
  - cbn. unfold Journal.get, Journal.alive. rewrite Hd. by eexists.
  - unfold j_get, backend_journal, JournalFacade.get, LevelStore.root, LevelStore.read,
      LevelStore.healthy, gets, st_need, lift, need, mbind, st_bind. rewrite Hd. by eexists.
Qed.
End Laws.
