(* ===== verification/MetadataView.v ===== *)
(** * Versioned views of a namespace ([daemon/metadata_view.cpp], [daemon/metadata_view.h])

    A view reads one world or revision: the flat roots of the journal for an original main
    world, a list of immutable sorted runs whose first entry for a key wins, or a
    copy-on-write tree.  [Module NamespaceView] translates the class: name validation, the
    loading of manifests, the run codec, the reads, and the planning of a new version.  The
    journal is any [JournalLike]; the members [tree_] and [cache_] are memo tables that reads
    update. *)

From S2P Require Import Prelude Codec Journal MetadataTree Store.
Local Open Scope Z_scope.

Module NamespaceView.

Abbreviation Map := (gmap Bytes Id).
Abbreviation Changes := (gmap Bytes (option Id)).

Definition soft_run_limit : Z := 16.
Definition hard_run_limit : Z := 32.

Definition prefix : Bytes := MetadataTree.key_prefix.
Definition history : Bytes := x00 :: bs "forkfs-history/".
Definition root_key : Bytes := prefix ++ bs "root".

Record Frozen := mkFrozen { flat : Map; frozen_runs : list Bytes }.
Record Plan := mkPlan { objects : list Bytes; manifest : Bytes; run_count_ : Z }.

Record view := mkView {
  tree_ : option MetadataTree.editor;
  legacy_ : bool;
  runs_ : list Id;
  cache_ : gmap Id Changes;
}.

(** [uint32_t u32(const Bytes& b,size_t at)] *)
Definition u32 (b : Bytes) (at_ : Z) : result Z :=
  need ((at_ <=? len b) && (4 <=? len b - at_)) "truncated metadata integer";;
  Ok (load (drop (Z.to_nat at_) b) 4).

(** [bool magic(const Bytes& b,const char* text)] *)
Definition magic (b : Bytes) (text : string) : bool :=
  (12 <=? len b) && bytes_eqb (slice 0 8 b) (bs text).

(** The characters of a world or revision name. *)
Definition name_char (c : byte) : bool :=
  let z := b2z c in
  ((97 <=? z) && (z <=? 122)) || ((65 <=? z) && (z <=? 90)) || ((48 <=? z) && (z <=? 57))
  || (z =? 95) || (z =? 45) || (z =? 46).

(** [void NamespaceView::valid_name(const std::string& name)] *)
Definition valid_name (name : Bytes) : result unit :=
  need (bool_decide (name ≠ []) && (len name <=? 64) && bool_decide (name ≠ bs ".")
        && bool_decide (name ≠ bs "..") && forallb name_char name) "invalid World/revision name".

(** ** The run codec *)

(** One iteration of the loop of [decode_run], then the rest. *)
Fixpoint run_entries (full : bool) (b : Bytes) (n : nat) (first : bool) (at_ : Z) (previous : Bytes)
    (acc : Changes) : result (Z * Changes) :=
  match n with
  | O => Ok (at_, acc)
  | S n' =>
      op ← (if full then Ok 1 else u32 b at_);
      let at_ := if full then at_ else at_ + 4 in
      size ← u32 b at_;
      let at_ := at_ + 4 in
      need (((op =? 1) || (op =? 2)) && (8 <=? size) && (size <=? 1024) && (size + 32 <=? len b - at_))
        "invalid run entry";;
      let key := slice (Z.to_nat at_) (Z.to_nat size) b in
      let at_ := at_ + size in
      let target := slice (Z.to_nat at_) 32 b in
      let at_ := at_ + 32 in
      need (starts_with prefix key && (first || lex_ltb previous key)) "unordered run keys";;
      v ← (if op =? 1 then need (bool_decide (target ≠ zero_id)) "zero PUT reference";; Ok (Some target)
           else need (bool_decide (target = zero_id)) "nonzero tombstone reference";; Ok None);
      run_entries full b n' false at_ key (Journal.emplace key v acc)
  end.

(** [NamespaceView::Changes NamespaceView::decode_run(const Bytes& b)] *)
Definition decode_run (b : Bytes) : result Changes :=
  let full := magic b "FFMAN001" in
  need (full || magic b "FFRUN001") "unsupported sorted run";;
  count ← u32 b 8;
  need ((0 <? count) && (count <=? (len b - 12) / (if full then 44 else 48))) "invalid sorted run count";;
  '(at_, result) ← run_entries full b (Z.to_nat count) true 12 [] ∅;
  need (at_ =? len b) "unexpected sorted run suffix";;
  Ok result.

(** The entries [encode_run] writes one after the other. *)
Definition encode_entry (key : Bytes) (id : option Id) : Bytes :=
  store (match id with Some _ => 1 | None => 2 end) 4 ++ store (len key) 4 ++ key ++ default zero_id id.

(** The size [encode_run] computes while it checks the keys. *)
Fixpoint run_size (l : list (Bytes * option Id)) (bytes : Z) : result Z :=
  match l with
  | [] => Ok bytes
  | (key, _) :: rest =>
      need (starts_with prefix key && (len key <=? 1024)) "invalid run key";;
      run_size rest (bytes + (40 + len key))
  end.

(** [Bytes NamespaceView::encode_run(const Changes& changes)] *)
Definition encode_run (changes : Changes) : result Bytes :=
  need (bool_decide (changes ≠ ∅)) "cannot encode empty run";;
  bytes ← run_size (in_order changes) 12;
  need (bytes <=? 256 * 1024) "sorted run exceeds 256 KiB";;
  Ok (bs "FFRUN001" ++ store (Z.of_nat (size changes)) 4
        ++ concat ((λ '(key, id), encode_entry key id) <$> in_order changes)).

(** [Bytes NamespaceView::encode_manifest(const std::vector<Id>& runs)] *)
Definition encode_manifest (runs : list Id) : result Bytes :=
  need (bool_decide (runs ≠ []) && (len runs <=? 32)) "manifest run count exceeds prototype limit";;
  Ok (bs "FFMAN002" ++ store (len runs) 4 ++ concat runs).

(** The run ids of a manifest. *)
Fixpoint manifest_runs (b : Bytes) (n : nat) (i : nat) (unique : gset Id) : result (list Id) :=
  match n with
  | O => Ok []
  | S n' =>
      let id := slice (12 + i * 32) 32 b in
      need (bool_decide (id ≠ zero_id) && bool_decide (id ∉ unique)) "duplicate or zero run reference";;
      rest ← manifest_runs b n' (S i) ({[id]} ∪ unique);
      Ok (id :: rest)
  end.

(** Later entries win: the update of a complete map by the entries of one run. *)
Definition apply_run (changes : Changes) (m : Map) : Map :=
  foldl (λ m '(key, id), match id with Some v => <[key := v]> m | None => delete key m end)
    m (in_order changes).

(** The part of [plan] and [compact_frozen] that packs a complete map into runs of at
    most 64 KiB: [flush], and the loop around it. *)
Record packing := mkPacking { p_runs : list Id; p_objects : list Bytes; p_part : Changes; p_bytes : Z }.

Section Packing.
Context `{Digest}.

Definition flush (p : packing) : result packing :=
  if bool_decide (p_part p = ∅) then Ok p else
  b ← encode_run (p_part p);
  Ok (mkPacking (p_runs p ++ [object_hash b]) (p_objects p ++ [b]) ∅ 12).

Fixpoint pack (l : list (Bytes * Id)) (p : packing) : result packing :=
  match l with
  | [] => flush p
  | (key, id) :: rest =>
      p ← (if 64 * 1024 <? p_bytes p + 40 + len key then flush p else Ok p);
      pack rest (mkPacking (p_runs p) (p_objects p) (Journal.emplace key (Some id) (p_part p))
                   (p_bytes p + (40 + len key)))
  end.

Definition pack_map (complete : Map) : result Plan :=
  p ← pack (in_order complete) (mkPacking [] [] ∅ 12);
  m ← encode_manifest (p_runs p);
  Ok (mkPlan (p_objects p) m (len (p_runs p))).

(** [NamespaceView::Plan NamespaceView::compact_frozen(const Frozen& input)] *)
Definition compact_frozen (input : Frozen) : result Plan :=
  let step (acc : result Map) (b : Bytes) := m ← acc; c ← decode_run b; Ok (apply_run c m) in
  complete ← foldl step (Ok (flat input)) (rev (frozen_runs input));
  need (bool_decide (is_Some (complete !! root_key))) "compaction would lose namespace root";;
  pack_map complete.
End Packing.

(** ** Views of a journal *)

Section View.
Context `{Digest} {J : Type} `{JournalLike J} (journal_ : J).

Definition set_tree (t : option MetadataTree.editor) (v : view) : view :=
  mkView t (legacy_ v) (runs_ v) (cache_ v).

(** Running a tree operation on the member [tree_]. *)
Definition on_tree {A} (e : MetadataTree.editor) (m : ST MetadataTree.editor A) : ST view A := λ v,
  let '(e', r) := m e in (set_tree (Some e') v, r).

(** [const NamespaceView::Changes& NamespaceView::run(const Id& id) const] *)
Definition run (id : Id) : ST view Changes := λ v,
  match cache_ v !! id with
  | Some c => (v, Ok c)
  | None =>
      match get_object journal_ id ≫= decode_run with
      | Ok c => (mkView (tree_ v) (legacy_ v) (runs_ v) (<[id := c]> (cache_ v)), Ok c)
      | Err m => (v, Err m)
      | OutOfFuel => (v, OutOfFuel)
      end
  end.

(** The loop of [lookup] over the runs. *)
Fixpoint lookup_runs (ids : list Id) (key : Bytes) : ST view (option Id) :=
  match ids with
  | [] => mret None
  | id :: rest =>
      entries ← run id;
      match entries !! key with Some v => mret v | None => lookup_runs rest key end
  end.

(** [std::optional<Id> NamespaceView::lookup(const std::string& key) const] *)
Definition lookup (key : Bytes) : ST view (option Id) :=
  v ← get_st;
  match tree_ v with
  | Some e => on_tree e (MetadataTree.lookup journal_ key)
  | None =>
      if legacy_ v then
        lift (j_contains journal_ key) ≫= λ c : bool,
        if c then id ← lift (j_root journal_ key); mret (Some id) else mret None
      else lookup_runs (runs_ v) key
  end.

(** [bool NamespaceView::contains(const std::string& key) const] *)
Definition contains (key : Bytes) : ST view bool :=
  let allocations := prefix ++ bs "allocated/" in
  (if starts_with allocations key then
     lift (j_contains journal_ key) ≫= λ a : bool,
     if a then mret true
     else lift (j_contains journal_ (history ++ bs "allocated/" ++ drop (length allocations) key))
   else mret false) ≫= λ allocated : bool,
  if allocated then mret true
  else v ← lookup key; mret (bool_decide (is_Some v)).

(** [Bytes NamespaceView::get(const std::string& key) const] *)
Definition get (key : Bytes) : ST view Bytes :=
  id ← lookup key;
  match id with
  | Some id => lift (get_object journal_ id)
  | None => throw "namespace key not found"
  end.

(** The inner loop of [keys]: the entries of one run from [lower_bound] on and under the
    prefix, emplaced where no newer run has the key. *)
Fixpoint lower_bound {A} (key_prefix : Bytes) (l : list (Bytes * A)) : list (Bytes * A) :=
  match l with
  | [] => []
  | e :: rest => if lex_ltb e.1 key_prefix then lower_bound key_prefix rest else l
  end.
Fixpoint while_prefix {A} (key_prefix : Bytes) (l : list (Bytes * A)) : list (Bytes * A) :=
  match l with
  | [] => []
  | e :: rest => if starts_with key_prefix e.1 then e :: while_prefix key_prefix rest else []
  end.
Definition select_run (key_prefix : Bytes) (entries selected : Changes) : Changes :=
  foldl (λ s '(k, v), Journal.emplace k v s) selected
    (while_prefix key_prefix (lower_bound key_prefix (in_order entries))).

Fixpoint select_runs (ids : list Id) (key_prefix : Bytes) (selected : Changes) : ST view Changes :=
  match ids with
  | [] => mret selected
  | id :: rest => entries ← run id; select_runs rest key_prefix (select_run key_prefix entries selected)
  end.

(** [std::vector<std::string> NamespaceView::keys(const std::string& key_prefix) const] *)
Definition keys (key_prefix : Bytes) : ST view (list Bytes) :=
  v ← get_st;
  match tree_ v with
  | Some e => on_tree e (MetadataTree.keys journal_ key_prefix)
  | None =>
      if legacy_ v then lift (j_keys journal_ key_prefix)
      else
        selected ← select_runs (runs_ v) key_prefix ∅;
        mret (filter (λ e, is_Some e.2) (in_order selected)).*1
  end.

(** [std::vector<std::string> NamespaceView::page(prefix,after,limit) const] *)
Definition page (key_prefix after : Bytes) (limit : Z) : ST view (list Bytes) :=
  v ← get_st;
  match tree_ v with
  | Some e => on_tree e (MetadataTree.page journal_ key_prefix after limit)
  | None => throw "paged directory enumeration requires a CoW tree"
  end.

Fixpoint flat_references (ks : list Bytes) (acc : Map) : result Map :=
  match ks with
  | [] => Ok acc
  | k :: rest => id ← j_root journal_ k; flat_references rest (<[k := id]> acc)
  end.

Fixpoint apply_runs (ids : list Id) (acc : Map) : ST view Map :=
  match ids with
  | [] => mret acc
  | id :: rest => c ← run id; apply_runs rest (apply_run c acc)
  end.

(** [NamespaceView::Map NamespaceView::references() const] *)
Definition references : ST view Map :=
  v ← get_st;
  match tree_ v with
  | Some e => on_tree e (MetadataTree.entries journal_)
  | None =>
      if legacy_ v then ks ← lift (j_keys journal_ prefix); lift (flat_references ks ∅)
      else apply_runs (rev (runs_ v)) ∅
  end.

(** [size_t run_count() const] *)
Definition run_count (v : view) : Z :=
  match tree_ v with Some _ => 1 | None => len (runs_ v) end.

(** [void NamespaceView::load(const ObjectId& manifest,bool validate_root)] on a view under
    construction. *)
Definition load (manifest_id : Id) (validate_root : bool) : ST view unit :=
  b ← lift (get_object journal_ manifest_id);
  (if (len b =? 40) && bytes_eqb (slice 0 8 b) (bs "FFTREE01") then
     let root := slice 8 32 b in
     st_need (bool_decide (root ≠ zero_id)) "empty metadata tree root";;
     modify (set_tree (Some (MetadataTree.fresh root)))
   else if magic b "FFMAN001" then
     modify (λ v, mkView (tree_ v) (legacy_ v) [manifest_id] (cache_ v))
   else
     st_need (magic b "FFMAN002") "unsupported namespace manifest";;
     n ← lift (u32 b 8);
     st_need ((0 <? n) && (n <=? 32) && (len b =? 12 + n * 32)) "invalid manifest run count";;
     runs ← lift (manifest_runs b (Z.to_nat n) 0 ∅);
     modify (λ v, mkView (tree_ v) (legacy_ v) runs (cache_ v)));;
  if validate_root then
    r ← lookup root_key;
    st_need (bool_decide (is_Some r)) "manifest missing namespace root"
  else mret tt.

Definition unloaded : view := mkView None false [] ∅.

(** A constructor returns the constructed object or throws. *)
Definition constructed (out : view * result unit) : result view :=
  match out with (v, Ok _) => Ok v | (_, Err m) => Err m | (_, OutOfFuel) => OutOfFuel end.

(** [NamespaceView(const Journal& journal,const ObjectId& manifest)] *)
Definition of_manifest (manifest_id : Id) : result view := constructed (load manifest_id true unloaded).

(** [NamespaceView(const Journal& journal,const std::string& name,bool revision,bool validate_root)] *)
Definition open (name : Bytes) (revision validate_root : bool) : result view :=
  valid_name name;;
  legacy ← (if bool_decide (name = bs "main") && negb revision
            then c ← j_contains journal_ (history ++ bs "world/main"); Ok (negb c) else Ok false);
  if (legacy : bool) then Ok (mkView None true [] ∅) else
  manifest_id ←
    (if revision then
       descriptor ← j_get journal_ (history ++ bs "revision/" ++ name);
       need ((len descriptor =? 80) && bytes_eqb (slice 0 8 descriptor) (bs "FFREV001"))
         "invalid revision record";;
       Ok (slice 8 32 descriptor)
     else j_root journal_ (history ++ bs "world/" ++ name));
  constructed (load manifest_id validate_root unloaded).

(** The changes of a migration to a tree: the given ones, and every other entry. *)
Definition with_references (changes : Changes) (refs : Map) : Changes := changes ∪ (Some <$> refs).

(** [NamespaceView::Plan NamespaceView::plan(const Changes& changes,bool compact) const] *)
Definition plan (changes : Changes) (compact : bool) : ST view Plan :=
  if j_leveldb journal_ then
    v ← get_st;
    match tree_ v with
    | Some e =>
        p ← on_tree e (MetadataTree.apply journal_ changes);
        mret (mkPlan (MetadataTree.objects p) (MetadataTree.manifest p) 1)
    | None =>
        refs ← references;
        let all := with_references changes refs in
        p ← lift (MetadataTree.apply journal_ all (MetadataTree.fresh zero_id)).2;
        mret (mkPlan (MetadataTree.objects p) (MetadataTree.manifest p) 1)
    end
  else
    v ← get_st;
    if legacy_ v || compact then
      refs ← references;
      let complete := apply_run changes refs in
      st_need (bool_decide (is_Some (complete !! root_key))) "compaction would lose namespace root";;
      lift (pack_map complete)
    else if bool_decide (changes ≠ ∅) then
      b ← lift (encode_run changes);
      let id := object_hash b in
      let '(runs, out) :=
        if bool_decide (head (runs_ v) = Some id) then (runs_ v, [])
        else (id :: filter (λ i, i ≠ id) (runs_ v), [b]) in
      m ← lift (encode_manifest runs);
      mret (mkPlan out m (len runs))
    else
      m ← lift (encode_manifest (runs_ v));
      mret (mkPlan [] m (len (runs_ v))).

Fixpoint load_objects (ids : list Id) : result (list Bytes) :=
  match ids with
  | [] => Ok []
  | id :: rest => b ← get_object journal_ id; bs ← load_objects rest; Ok (b :: bs)
  end.

(** [NamespaceView::Frozen NamespaceView::freeze() const] *)
Definition freeze : ST view Frozen :=
  v ← get_st;
  if legacy_ v then m ← references; mret (mkFrozen m [])
  else l ← lift (load_objects (runs_ v)); mret (mkFrozen ∅ l).
End View.
End NamespaceView.
