(* ===== verification/MetadataViewRuns.v ===== *)
(** * The codec of sorted runs

    [encode_run] and [decode_run] are inverse to each other on the changes a run may hold,
    and so are [encode_manifest] and the loop that reads the run ids of a manifest. *)

From S2P Require Import Prelude Codec Journal JournalRecord JournalTx MetadataTree Store MetadataView.
Import NamespaceView.
Local Open Scope Z_scope.

(** The entries a run may hold: its ids are ids, and none is the zero id. *)
Definition value_ok (v : option Id) : Prop := ∀ i, v = Some i → length i = 32%nat ∧ i ≠ zero_id.
Definition run_key (k : Bytes) : Prop := starts_with prefix k = true ∧ len k ≤ 1024.
Definition changes_ok (c : Changes) : Prop := ∀ k v, c !! k = Some v → run_key k ∧ value_ok v.

Lemma value_ok_wide v : value_ok v → wide v.
Proof. intros Hv i Hi. by apply Hv. Qed.

Lemma run_key_length k : run_key k → 8 ≤ len k ≤ 1024.
Proof.
  intros [[t ->]%starts_with_spec Hk]. rewrite len_app in *. pose proof (len_nonneg t).
  change (len prefix) with 8 in *. lia.
Qed.

Lemma len_encode_entry k v : wide v → len (encode_entry k v) = 40 + len k.
Proof.
  intros Hw. unfold encode_entry. rewrite !len_app, !len_store.
  change (default zero_id v) with (id_bytes v). unfold len at 2. rewrite length_id_bytes by done. lia.
Qed.

Definition encode_entries (l : list (Bytes * option Id)) : Bytes :=
  concat ((λ '(key, id), encode_entry key id) <$> l).

Lemma encode_entries_cons k v l : encode_entries ((k, v) :: l) = encode_entry k v ++ encode_entries l.
Proof. done. Qed.

Lemma u32_at pre v rest :
  0 ≤ v < 2 ^ 32 → u32 (pre ++ store v 4 ++ rest) (len pre) = Ok v.
Proof.
  intros Hv. unfold u32. rewrite need_true_bind.
  - unfold len. rewrite Nat2Z.id, drop_app_length, load_store by lia. done.
  - rewrite andb_true_iff, !Z.leb_le, !len_app, len_store. pose proof (len_nonneg rest). lia.
Qed.

(** One entry read back. *)
Lemma run_entry_step pre k v rest n first previous acc :
  run_key k → value_ok v → first = true ∨ lex_lt previous k →
  let b := pre ++ encode_entry k v ++ rest in
  run_entries false b (S n) first (len pre) previous acc =
  run_entries false b n false (len (pre ++ encode_entry k v)) k (Journal.emplace k v acc).
Proof.
  intros Hk Hv Hfirst b. pose proof (run_key_length k Hk) as Hlen.
  assert (Hb : b = pre ++ store (op_of v) 4 ++ store (len k) 4 ++ k ++ id_bytes v ++ rest)
    by (unfold b, encode_entry; by rewrite <- !app_assoc).
  assert (Hc : b = concat [pre; store (op_of v) 4; store (len k) 4; k; id_bytes v; rest])
    by (rewrite Hb; cbn [concat]; by rewrite app_nil_r).
  pose proof (length_id_bytes v (value_ok_wide v Hv)) as Hid. cbn [run_entries].
  assert (u32 b (len pre) = Ok (op_of v)) as -> by (rewrite Hb; apply u32_at; by destruct v).
  cbn [mbind result_bind].
  assert (u32 b (len pre + 4) = Ok (len k)) as ->.
  { rewrite Hb, app_assoc. replace (len pre + 4) with (len (pre ++ store (op_of v) 4))
      by (rewrite len_app, len_store; lia). apply u32_at. lia. }
  cbn [mbind result_bind].
  assert (slice (Z.to_nat (len pre + 4 + 4)) (Z.to_nat (len k)) b = k) as ->.
  { rewrite Hc. apply (slice_field 3); [done|unfold field_offset; cbn [take concat]|unfold len; lia].
    rewrite !length_app, !length_store. cbn [length]. unfold len. lia. }
  assert (slice (Z.to_nat (len pre + 4 + 4 + len k)) 32 b = id_bytes v) as ->.
  { rewrite Hc. apply (slice_field 4); [done|unfold field_offset; cbn [take concat]|by rewrite Hid].
    rewrite !length_app, !length_store. cbn [length]. unfold len. lia. }
  assert (len pre + 4 + 4 + len k + 32 = len (pre ++ encode_entry k v)) as ->.
  { rewrite len_app, len_encode_entry by by apply value_ok_wide. lia. }
  rewrite need_true_bind.
  2:{ rewrite !andb_true_iff, !Z.leb_le. split_and!; [by destruct v|lia|lia|].
      rewrite Hb, !len_app, !len_store. assert (len (id_bytes v) = 32) by (unfold len; by rewrite Hid).
      pose proof (len_nonneg rest). lia. }
  rewrite need_true_bind.
  2:{ rewrite andb_true_iff. split; [apply Hk|]. destruct Hfirst as [->|Hlt]; [done|].
      apply orb_true_iff. by right. }
  destruct v as [i|]; cbn [op_of id_bytes default Z.eqb Pos.eqb].
  - rewrite need_true_bind; [done|]. apply bool_decide_eq_true. by apply Hv.
  - by rewrite need_true_bind by by apply bool_decide_eq_true.
Qed.

Lemma run_entries_encode l : ∀ pre first previous acc,
  Forall (λ e, run_key e.1 ∧ value_ok e.2) l → ascending first previous l →
  run_entries false (pre ++ encode_entries l) (length l) first (len pre) previous acc =
  Ok (len (pre ++ encode_entries l), foldl add_change acc l).
Proof.
  induction l as [|[k v] l IH]; intros pre first previous acc Hok Hasc.
  { unfold encode_entries. cbn. by rewrite app_nil_r. }
  apply Forall_cons in Hok as [[Hk Hv] Hok]. destruct Hasc as [Hfirst Hasc].
  rewrite encode_entries_cons. cbn [length]. rewrite (run_entry_step pre k v (encode_entries l)) by done.
  rewrite app_assoc. by rewrite IH.
Qed.

(** ** Runs *)

Definition entries_size (l : list (Bytes * option Id)) : Z :=
  Z.of_nat (sum_list_with (λ e, 40 + length e.1)%nat l).

Lemma entries_size_cons k v l : entries_size ((k, v) :: l) = 40 + len k + entries_size l.
Proof. unfold entries_size, len. cbn [sum_list_with fst]. lia. Qed.

Lemma run_size_Ok l : ∀ n m, run_size l n = Ok m →
  Forall (λ e, run_key e.1) l ∧ m = n + entries_size l.
Proof.
  induction l as [|[k v] l IH]; intros n m Hm; cbn [run_size] in Hm.
  { injection Hm as ->. split; [constructor|]. unfold entries_size. cbn. lia. }
  apply need_bind_Ok in Hm as [Hk Hm]. rewrite andb_true_iff, Z.leb_le in Hk.
  apply IH in Hm as [Hl ->]. split; [by constructor|]. rewrite entries_size_cons. lia.
Qed.

Lemma len_encode_entries l :
  Forall (λ e, value_ok e.2) l → len (encode_entries l) = entries_size l.
Proof.
  induction l as [|[k v] l IH]; [done|]. intros [Hv Hl]%Forall_cons.
  rewrite encode_entries_cons, len_app, IH, len_encode_entry by (try apply value_ok_wide; done).
  rewrite entries_size_cons. lia.
Qed.

Lemma magic_here (text : string) rest :
  length (bs text) = 8%nat → 4 ≤ len rest → magic (bs text ++ rest) text = true.
Proof.
  intros Ht Hr. unfold magic. rewrite andb_true_iff, Z.leb_le. split.
  - rewrite len_app. unfold len at 1. lia.
  - apply bool_decide_eq_true. by apply slice_here.
Qed.

Lemma magic_other (text other : string) rest :
  length (bs other) = 8%nat → bs other ≠ bs text → magic (bs other ++ rest) text = false.
Proof.
  intros Ho Hne. unfold magic. apply andb_false_iff. right. apply bool_decide_eq_false.
  by rewrite slice_here.
Qed.

Definition values_ok (c : Changes) : Prop := ∀ k v, c !! k = Some v → value_ok v.

Lemma sum_entries_bound l :
  Forall (λ e, run_key e.1) l → 48 * len l ≤ entries_size l.
Proof.
  induction l as [|[k v] l IH]; [done|]. intros [Hk%run_key_length Hl]%Forall_cons.
  specialize (IH Hl). rewrite entries_size_cons. cbn [fst] in Hk. unfold len in *. cbn [length]. lia.
Qed.

Lemma encode_run_Ok c b :
  encode_run c = Ok b →
  c ≠ ∅ ∧ Forall (λ e, run_key e.1) (in_order c) ∧
  b = bs "FFRUN001" ++ store (Z.of_nat (size c)) 4 ++ encode_entries (in_order c) ∧
  (values_ok c → len b ≤ 256 * 1024).
Proof.
  unfold encode_run. intros Hb. apply need_bind_Ok in Hb as [Hne%bool_decide_eq_true Hb].
  apply bind_Ok in Hb as (n & Hn & Hb). apply run_size_Ok in Hn as [Hk ->].
  apply need_bind_Ok in Hb as [Hsz%Z.leb_le <-%Ok_inj]. split_and!; [done..|]. intros Hv.
  rewrite !len_app, len_store. change (concat _) with (encode_entries (in_order c)).
  rewrite len_encode_entries; [change (len (bs "FFRUN001")) with 8; lia|].
  apply Forall_forall. intros [k v] Hin%elem_of_in_order. by eapply Hv.
Qed.

(** Decoding what was encoded. *)
Lemma decode_encode_run c b : values_ok c → encode_run c = Ok b → decode_run b = Ok c.
Proof.
  intros Hv Hb. destruct (encode_run_Ok c b Hb) as (Hne & Hk & -> & Hsz). specialize (Hsz Hv).
  rewrite <- length_in_order in *. change (Z.of_nat (length (in_order c))) with (len (in_order c)) in *.
  assert (Forall (λ e, value_ok e.2) (in_order c)) as Hvs.
  { apply Forall_forall. intros [k v] Hin%elem_of_in_order. by eapply Hv. }
  assert (0 < len (in_order c)) as Hpos.
  { unfold len. rewrite length_in_order.
    assert (size c ≠ 0%nat) by (by intros ?%map_size_empty_iff). lia. }
  pose proof (sum_entries_bound _ Hk) as Hsum. pose proof (len_encode_entries _ Hvs) as Hlen.
  rewrite !len_app, len_store, Hlen in Hsz. change (len (bs "FFRUN001")) with 8 in Hsz.
  unfold decode_run. rewrite magic_other by done. cbn [orb].
  rewrite magic_here by (try done; rewrite len_app, len_store; pose proof (len_nonneg (encode_entries (in_order c))); lia).
  rewrite need_true_bind by done. change 8 with (len (bs "FFRUN001")) at 1.
  rewrite u32_at by lia. cbn [mbind result_bind]. rewrite need_true_bind.
  2:{ rewrite andb_true_iff, Z.ltb_lt, Z.leb_le. split; [done|]. apply Z.div_le_lower_bound; [lia|].
      rewrite !len_app, len_store, Hlen. change (len (bs "FFRUN001")) with 8. lia. }
  assert (12 = len (bs "FFRUN001" ++ store (len (in_order c)) 4)) as -> by (rewrite len_app, len_store; done).
  assert (Z.to_nat (len (in_order c)) = length (in_order c)) as -> by (unfold len; lia).
  rewrite app_assoc, run_entries_encode.
  - cbn [mbind result_bind]. rewrite need_true_bind by apply Z.eqb_refl.
    by rewrite foldl_add_change_in_order.
  - apply Forall_and. done.
  - apply ascending_in_order.
Qed.

(** Whatever decodes is well formed. *)
Lemma run_entries_ok full b n : ∀ first at_ previous acc at' c,
  0 ≤ at_ → run_entries full b n first at_ previous acc = Ok (at', c) → changes_ok acc →
  changes_ok c ∧ (acc ≠ ∅ ∨ (0 < n)%nat → c ≠ ∅).
Proof.
  induction n as [|n IH]; intros first at_ previous acc at' c Hat Hrun Hacc; cbn [run_entries] in Hrun.
  { injection Hrun as _ <-. split; [done|]. intros [?|?]; [done|lia]. }
  apply bind_Ok in Hrun as (op & _ & Hrun). cbv zeta in Hrun.
  apply bind_Ok in Hrun as (sz & _ & Hrun).
  apply need_bind_Ok in Hrun as [Hg Hrun]. rewrite !andb_true_iff, !Z.leb_le in Hg.
  destruct Hg as [[[_ Hlo] Hhi] Hroom]. apply need_bind_Ok in Hrun as [Hp Hrun].
  apply andb_true_iff in Hp as [Hp _]. apply bind_Ok in Hrun as (v & Hv & Hrun).
  set (a := (if full then at_ else at_ + 4) + 4) in *.
  assert (0 ≤ a) by (unfold a; destruct full; lia).
  assert (value_ok v) as Hvok.
  { destruct (op =? 1); apply need_bind_Ok in Hv as [Hz [= <-]]; [|done].
    intros i [= <-]. apply bool_decide_eq_true in Hz. split; [|done].
    apply length_slice. unfold len in Hroom. lia. }
  assert (run_key (slice (Z.to_nat a) (Z.to_nat sz) b)) as Hkok.
  { split; [done|]. unfold len in *. rewrite length_slice; lia. }
  apply IH in Hrun as [Hc Hne]; [|lia|].
  - split; [done|]. intros _. apply Hne. left. unfold Journal.emplace.
    destruct (acc !! _) eqn:E; [intros ->; by rewrite lookup_empty in E|apply insert_non_empty].
  - intros k w. unfold Journal.emplace. destruct (acc !! slice _ _ _) eqn:E; [apply Hacc|].
    intros [[<- <-]|[_ Hw]]%lookup_insert_Some; [done|by apply Hacc].
Qed.

Lemma decode_run_ok b c : decode_run b = Ok c → changes_ok c ∧ c ≠ ∅.
Proof.
  unfold decode_run. intros Hd. apply need_bind_Ok in Hd as [_ Hd].
  apply bind_Ok in Hd as (n & Hn & Hd). apply need_bind_Ok in Hd as [Hc Hd].
  rewrite andb_true_iff, Z.ltb_lt in Hc. apply bind_Ok in Hd as ([at' c'] & Hrun & Hd).
  apply need_bind_Ok in Hd as [_ [= <-]]. apply run_entries_ok in Hrun as [Hok Hne]; [|lia|].
  - split; [done|]. apply Hne. right. lia.
  - intros k v. by rewrite lookup_empty.
Qed.

(** ** Manifests *)

Definition run_id (id : Id) : Prop := length id = 32%nat ∧ id ≠ zero_id.

Lemma len_concat_ids ids : Forall run_id ids → len (concat ids) = 32 * len ids.
Proof.
  induction ids as [|id ids IH]; [done|]. intros [[Hl _] Hids]%Forall_cons.
  cbn [concat]. rewrite len_app, IH by done. unfold len in *. cbn [length]. lia.
Qed.

Lemma manifest_runs_concat pre ids : ∀ done_ unique,
  length pre = 12%nat → Forall run_id (done_ ++ ids) → NoDup ids → (∀ id, id ∈ ids → id ∉ unique) →
  manifest_runs (pre ++ concat (done_ ++ ids)) (length ids) (length done_) unique = Ok ids.
Proof.
  induction ids as [|id ids IH]; intros done_ unique Hpre Hok Hnd Hu; [done|].
  cbn [length manifest_runs]. apply NoDup_cons in Hnd as [Hid Hnd].
  pose proof Hok as Hok'. apply Forall_app in Hok' as [Hd [[Hl Hz] Hr]%Forall_cons].
  assert (slice (12 + length done_ * 32) 32 (pre ++ concat (done_ ++ id :: ids)) = id) as ->.
  { rewrite concat_app. cbn [concat]. rewrite app_assoc. apply slice_app; [|done].
    pose proof (len_concat_ids done_ Hd). unfold len in *. rewrite length_app. lia. }
  rewrite need_true_bind.
  2:{ rewrite andb_true_iff, !bool_decide_eq_true. split; [done|]. apply Hu. set_solver. }
  replace (done_ ++ id :: ids) with ((done_ ++ [id]) ++ ids) by (by rewrite <- app_assoc).
  replace (S (length done_)) with (length (done_ ++ [id])) by (rewrite length_app; cbn; lia).
  rewrite IH; [done|done| |done|set_solver]. by rewrite <- app_assoc.
Qed.

Lemma encode_manifest_Ok ids b :
  encode_manifest ids = Ok b →
  ids ≠ [] ∧ len ids ≤ 32 ∧ b = bs "FFMAN002" ++ store (len ids) 4 ++ concat ids.
Proof.
  unfold encode_manifest. intros Hb. apply need_bind_Ok in Hb as [Hg <-%Ok_inj].
  rewrite andb_true_iff, bool_decide_eq_true, Z.leb_le in Hg. by destruct Hg.
Qed.

(** What [load] reads from an encoded manifest. *)
Lemma manifest_roundtrip ids b :
  encode_manifest ids = Ok b → Forall run_id ids → NoDup ids →
  bytes_eqb (slice 0 8 b) (bs "FFTREE01") = false ∧ magic b "FFMAN001" = false ∧
  magic b "FFMAN002" = true ∧ u32 b 8 = Ok (len ids) ∧ 0 < len ids ≤ 32 ∧
  len b = 12 + len ids * 32 ∧ manifest_runs b (Z.to_nat (len ids)) 0 ∅ = Ok ids.
Proof.
  intros (Hne & Hmax & ->)%encode_manifest_Ok Hok Hnd. pose proof (len_concat_ids ids Hok) as Hl.
  assert (0 < len ids) by (unfold len; destruct ids; [done|cbn; lia]).
  split_and!; [|by apply magic_other| | |lia|lia| |].
  - apply bool_decide_eq_false. by rewrite slice_here.
  - apply magic_here; [done|]. rewrite len_app, len_store. lia.
  - change 8 with (len (bs "FFMAN002")). apply u32_at. lia.
  - rewrite !len_app, len_store, Hl. change (len (bs "FFMAN002")) with 8. lia.
  - assert (Z.to_nat (len ids) = length ids) as -> by (unfold len; lia). rewrite app_assoc.
    apply (manifest_runs_concat (bs "FFMAN002" ++ store (len ids) 4) ids [] ∅); try done.
    all: rewrite ?length_app, ?length_store; try done; set_solver.
Qed.
