(* ===== verification/MetadataViewProofs.v ===== *)
(** * What a view shows

    A view made of runs shows the map in which the first run that mentions a key decides; a
    flat view the roots of the journal; a tree view the map of its treap.  [shows j m v] says
    that [v] shows the map [m], and the lemmas that follow that every read of the class answers
    from [m] and leaves a view that shows [m]. *)

From S2P Require Import Prelude Codec Treap Journal JournalRecord JournalTx JournalStore MetadataTree.
From S2P Require Import MetadataTreeProofs MetadataTreeEdit MetadataTreeApply Store MetadataView.
From S2P Require Import MetadataViewRuns.
Import NamespaceView.
Local Open Scope Z_scope.

(** ** Merging runs *)

(** The first run that mentions a key decides, a tombstone included. *)
Definition merged (cs : list Changes) : Changes := foldr (∪) ∅ cs.
Definition live (c : Changes) : Map := omap id c.

Lemma lookup_live (c : Changes) (k : Bytes) : live c !! k = mjoin (c !! k).
Proof. unfold live. rewrite lookup_omap. by destruct (c !! k). Qed.

Lemma lookup_merged_cons (c : Changes) cs (k : Bytes) :
  merged (c :: cs) !! k = match c !! k with Some v => Some v | None => merged cs !! k end.
Proof.
  cbn [merged foldr]. fold (merged cs). rewrite lookup_union.
  destruct (c !! k); [apply union_Some_l|]. by destruct (merged cs !! k).
Qed.

Lemma foldl_apply_entries (l : list (Bytes * option Id)) (m : Map) (k : Bytes) :
  NoDup l.*1 →
  foldl (λ m '(key, id), match id with Some v => <[key := v]> m | None => delete key m end) m l !! k =
  match (list_to_map l : Changes) !! k with Some v => v | None => m !! k end.
Proof.
  revert m. induction l as [|[k' v] l IH]; intros m Hnd; [done|].
  rewrite fmap_cons in Hnd. apply NoDup_cons in Hnd as [Hk' Hnd]. cbn [fst] in Hk'.
  cbn [foldl list_to_map foldr]. rewrite IH by done. destruct (decide (k' = k)) as [->|Hne].
  - rewrite (not_elem_of_list_to_map_1 l k Hk'). cbn [fst snd]. rewrite lookup_insert_eq.
    destruct v; [apply lookup_insert_eq|apply lookup_delete_eq].
  - cbn [fst snd]. rewrite lookup_insert_ne by done. destruct (list_to_map l !! k); [done|].
    destruct v; [by apply lookup_insert_ne|by apply lookup_delete_ne].
Qed.

Lemma lookup_apply_run (c : Changes) (m : Map) (k : Bytes) :
  apply_run c m !! k = match c !! k with Some v => v | None => m !! k end.
Proof.
  unfold apply_run. rewrite foldl_apply_entries by apply NoDup_in_order_keys. by rewrite list_to_map_in_order.
Qed.

Lemma apply_run_live (c : Changes) cs : apply_run c (live (merged cs)) = live (merged (c :: cs)).
Proof.
  apply map_eq. intros k. rewrite lookup_apply_run, !lookup_live, lookup_merged_cons. by destruct (c !! k).
Qed.

(** The inner loop of [keys] is a filter. *)
Lemma under_prefix {A} p (l : list (Bytes * A)) :
  increasing l.*1 →
  while_prefix p (lower_bound p l) = filter (λ e, starts_with p e.1 = true) l.
Proof.
  induction l as [|[k v] l IH]; [done|]. intros Hinc. pose proof Hinc as [Hk Hl].
  cbn [lower_bound fst]. destruct (lex_ltb k p) eqn:E.
  - rewrite filter_cons_False; [by apply IH|]. cbn [fst]. intros Hp.
    pose proof (lex_le_prefix p k Hp) as Hle. apply lex_not_lt in Hle. congruence.
  - clear IH. apply lex_not_lt in E. revert k v Hk Hl E Hinc.
    induction l as [|[k' v'] l IH]; intros k v Hk Hl E Hinc.
    { cbn [while_prefix fst]. rewrite filter_cons. cbn [fst]. by destruct (starts_with p k). }
    cbn [while_prefix fst] in *. destruct (starts_with p k) eqn:Ek.
    + rewrite filter_cons_True by done. f_equal. rewrite fmap_cons in Hk, Hl.
      apply Forall_cons in Hk as [Hkk' Hk]. cbn [fst] in Hkk'. destruct Hl as [Hk' Hl].
      rewrite <- (IH k' v'); [done|done|done| |by split].
      etrans; [exact E|]. apply lex_le_lt_eq. by left.
    + rewrite filter_cons_False by (cbn [fst]; congruence). symmetry. apply list_filter_none.
      apply Forall_forall. intros [k2 v2] Hin Hs. cbn [fst] in *.
      assert (lex_lt k k2) as Hlt.
      { rewrite Forall_forall in Hk. apply Hk. apply list_elem_of_fmap. by exists (k2, v2). }
      assert (starts_with p k = true); [|congruence].
      apply (starts_with_between p k k2); [done| |done]. apply lex_le_lt_eq. by left.
Qed.

Lemma select_run_lookup (p : Bytes) (entries selected : Changes) (k : Bytes) :
  select_run p entries selected !! k =
  match selected !! k with
  | Some v => Some v
  | None => if starts_with p k then entries !! k else None
  end.
Proof.
  unfold select_run. rewrite under_prefix by apply increasing_in_order.
  assert (NoDup (filter (λ e, starts_with p e.1 = true) (in_order entries)).*1) as Hnd.
  { apply increasing_NoDup, increasing_sublist, increasing_in_order. }
  assert ((list_to_map (filter (λ e, starts_with p e.1 = true) (in_order entries)) : Changes) !! k =
    if starts_with p k then entries !! k else None) as Hlk.
  { destruct (starts_with p k) eqn:Ep.
    - destruct (entries !! k) as [v|] eqn:E.
      + apply elem_of_list_to_map_1; [done|]. apply list_elem_of_filter. by rewrite elem_of_in_order.
      + apply not_elem_of_list_to_map_1. intros ([k' v] & -> & [_ Hin]%list_elem_of_filter)%list_elem_of_fmap.
        apply elem_of_in_order in Hin. cbn in E. congruence.
    - apply not_elem_of_list_to_map_1. intros ([k' v] & -> & [Hs _]%list_elem_of_filter)%list_elem_of_fmap.
      cbn in Hs, Ep. congruence. }
  rewrite <- Hlk. clear Hlk. revert Hnd. generalize (filter (λ e, starts_with p e.1 = true) (in_order entries)).
  intros l. revert selected. induction l as [|[k' v] l IH]; intros selected Hnd.
  { cbn [foldl list_to_map foldr]. rewrite lookup_empty. by destruct (selected !! k). }
  rewrite fmap_cons in Hnd. apply NoDup_cons in Hnd as [Hk' Hnd]. cbn [fst] in Hk'.
  cbn [foldl list_to_map foldr fst snd]. rewrite IH by done. unfold Journal.emplace.
  destruct (decide (k' = k)) as [->|Hne].
  - rewrite (not_elem_of_list_to_map_1 l k Hk'), lookup_insert_eq.
    destruct (selected !! k) eqn:E; rewrite ?E; [done|]. by rewrite lookup_insert_eq.
  - rewrite lookup_insert_ne by done. destruct (selected !! k') eqn:E; [done|]. by rewrite lookup_insert_ne.
Qed.

(** The keys a selection lists. *)
Lemma selected_keys (p : Bytes) (selected : Changes) (m : Map) :
  (∀ k, selected !! k = None ∨ starts_with p k = true) →
  (∀ k, starts_with p k = true → mjoin (selected !! k) = m !! k) →
  (filter (λ e, is_Some e.2) (in_order selected)).*1 =
  filter (λ k, starts_with p k = true) (in_order m).*1.
Proof.
  intros Hp Hm. apply increasing_unique.
  - apply increasing_sublist, increasing_in_order.
  - apply increasing_filter, increasing_in_order.
  - intros k. rewrite list_elem_of_filter, !list_elem_of_fmap. split.
    + intros ([k' v] & -> & [[i Hi] Hin%elem_of_in_order]%list_elem_of_filter). cbn in Hi, Hin |- *. subst v.
      destruct (Hp k') as [?|Hs]; [congruence|]. split; [done|]. exists (k', i). split; [done|].
      apply elem_of_in_order. by rewrite <- Hm, Hin.
    + intros (Hs & [k' i] & -> & Hin%elem_of_in_order). cbn in *. rewrite <- Hm in Hin by done.
      destruct (selected !! k') as [v|] eqn:E; [|done]. cbn in Hin. subst v. exists (k', Some i).
      split; [done|]. apply list_elem_of_filter. split; [by eexists|]. by apply elem_of_in_order.
Qed.

Section Shows.
Context `{DigestOk} {J : Type} `{JournalLike J, !ObjectStoreOk J} (j : J).
Implicit Types v : view.

(** An object that decodes to the entries of a run. *)
Definition loads_run (id : Id) (c : Changes) : Prop := get_object j id ≫= decode_run = Ok c.

Record run_view (cs : list Changes) v : Prop := {
  rv_tree : tree_ v = None;
  rv_legacy : legacy_ v = false;
  rv_runs : Forall2 loads_run (runs_ v) cs;
  rv_cache : ∀ id c, cache_ v !! id = Some c → loads_run id c;
}.

(** The next view of the same version: reads change the caches only. *)
Definition same_version v v' : Prop :=
  runs_ v' = runs_ v ∧ legacy_ v' = legacy_ v ∧ (is_Some (tree_ v') ↔ is_Some (tree_ v)).

#[global] Instance same_version_refl : Reflexive same_version.
Proof. intros v. done. Qed.
#[global] Instance same_version_trans : Transitive same_version.
Proof. intros v1 v2 v3 (?&?&?) (?&?&?). unfold same_version. split_and!; [congruence..|]. by etrans. Qed.

Lemma run_run cs v id c :
  run_view cs v → loads_run id c → ∃ v', run j id v = (v', Ok c) ∧ run_view cs v' ∧ same_version v v'.
Proof.
  intros Hv Hl. unfold run. destruct (cache_ v !! id) as [c'|] eqn:E.
  - apply (rv_cache _ _ Hv) in E. unfold loads_run in *. rewrite Hl in E. injection E as ->. by exists v.
  - unfold loads_run in Hl. rewrite Hl. eexists. split_and!; [done| |done]. destruct Hv as [? ? Hr Hc].
    split; [done..|]. cbn [cache_].
    intros id' c' [[<- <-]|[_ Hx]]%lookup_insert_Some; [done|by apply Hc].
Qed.

Lemma lookup_runs_run k ids : ∀ cs cs' v,
  run_view cs v → Forall2 loads_run ids cs' →
  ∃ v', lookup_runs j ids k v = (v', Ok (live (merged cs') !! k)) ∧ run_view cs v' ∧ same_version v v'.
Proof.
  induction ids as [|id ids IH]; intros cs cs' v Hv Hl; inversion Hl as [|? c ? cs0 Hc Hcs]; subst.
  { exists v. rewrite lookup_live. cbn [lookup_runs merged foldr]. by rewrite lookup_empty. }
  cbn [lookup_runs]. destruct (run_run cs v id c Hv Hc) as (v1 & E & Hv1 & Hs1).
  rewrite (st_bind_run _ _ _ _ _ E). rewrite lookup_live, lookup_merged_cons.
  destruct (c !! k) as [r|] eqn:Ek; [by exists v1|].
  destruct (IH cs cs0 v1 Hv1 Hcs) as (v2 & E2 & Hv2 & Hs2). exists v2. rewrite E2, lookup_live.
  split_and!; [done..|by etrans].
Qed.

Lemma select_runs_run p ids : ∀ cs cs' v sel,
  run_view cs v → Forall2 loads_run ids cs' →
  ∃ v' sel', select_runs j ids p sel v = (v', Ok sel') ∧ run_view cs v' ∧ same_version v v' ∧
    ∀ k : Bytes, sel' !! k = match sel !! k with
                             | Some r => Some r
                             | None => if starts_with p k then merged cs' !! k else None
                             end.
Proof.
  induction ids as [|id ids IH]; intros cs cs' v sel Hv Hl; inversion Hl as [|? c ? cs0 Hc Hcs]; subst.
  { exists v, sel. split_and!; [done..|]. intros k. cbn [merged foldr].
    destruct (sel !! k); [done|]. rewrite lookup_empty. by destruct (starts_with p k). }
  cbn [select_runs]. destruct (run_run cs v id c Hv Hc) as (v1 & E & Hv1 & Hs1).
  rewrite (st_bind_run _ _ _ _ _ E).
  destruct (IH cs cs0 v1 (select_run p c sel) Hv1 Hcs) as (v2 & sel' & E2 & Hv2 & Hs2 & Hsel).
  exists v2, sel'. split_and!; [done..|by etrans|]. intros k. rewrite Hsel, select_run_lookup.
  destruct (sel !! k); [done|]. destruct (starts_with p k); [|done]. rewrite lookup_merged_cons.
  by destruct (c !! k).
Qed.

Lemma apply_runs_run ids : ∀ cs cs' v m,
  run_view cs v → Forall2 loads_run ids cs' →
  ∃ v', apply_runs j ids m v = (v', Ok (foldl (λ m c, apply_run c m) m cs')) ∧ run_view cs v' ∧
    same_version v v'.
Proof.
  induction ids as [|id ids IH]; intros cs cs' v m Hv Hl; inversion Hl as [|? c ? cs0 Hc Hcs]; subst.
  { by exists v. }
  cbn [apply_runs foldl]. destruct (run_run cs v id c Hv Hc) as (v1 & E & Hv1 & Hs1).
  rewrite (st_bind_run _ _ _ _ _ E). destruct (IH cs cs0 v1 (apply_run c m) Hv1 Hcs) as (v2 & E2 & Hv2 & Hs2).
  exists v2. split_and!; [done..|by etrans].
Qed.

(** Applying the runs from the oldest to the newest. *)
Lemma oldest_first cs : foldl (λ m c, apply_run c m) ∅ (rev cs) = live (merged cs).
Proof.
  induction cs as [|c cs IH]; [done|]. cbn [rev]. rewrite foldl_app. cbn [foldl]. by rewrite IH, apply_run_live.
Qed.
End Shows.
