(* ===== verification/MetadataViewPlan.v ===== *)
(** * Reading a view and planning the next version

    A complete map packed into runs; and [shows m v]: the view [v] shows the map [m],
    whichever of its three forms it has.  Every read answers from [m]; and the plan of a
    change set, once its objects and its manifest are in the store, opens as a view that
    shows the changed map. *)

From S2P Require Import Prelude Codec Treap Journal JournalRecord JournalTx JournalStore MetadataTree.
From S2P Require Import MetadataTreeProofs MetadataTreeEdit MetadataTreeApply Store MetadataView.
From S2P Require Import MetadataViewRuns MetadataViewProofs.
Import NamespaceView.
Local Open Scope Z_scope.

(** ** Packing a complete map into runs

    [pack_map], the common end of [plan] and [compact_frozen], partitions a map into runs of
    bounded size.  The runs it emits are distinct and together hold exactly the map. *)

Lemma merged_None (cs : list Changes) (k : Bytes) : merged cs !! k = None ↔ ∀ c, c ∈ cs → c !! k = None.
Proof.
  induction cs as [|c cs IH]; [split; [set_solver|intros; apply lookup_empty]|].
  rewrite lookup_merged_cons. split.
  - destruct (c !! k) eqn:E; [done|]. intros Hm c' [->|Hc]%elem_of_cons; [done|by apply IH].
  - intros Hc. rewrite (Hc c) by set_solver. apply IH. set_solver.
Qed.

Lemma merged_snoc (cs : list Changes) (c : Changes) : merged (cs ++ [c]) = merged cs ∪ c.
Proof.
  induction cs as [|c' cs IH]; cbn [merged foldr app]; [by rewrite (right_id_L ∅ (∪)), (left_id_L ∅ (∪))|].
  unfold merged in IH. rewrite IH. apply (assoc_L (∪)).
Qed.

Section Pack.
Context `{DigestOk}.

(** The entries packed so far, the parts they were cut into and the part being filled. *)
Record packed (done : list (Bytes * Id)) (parts : list Changes) (p : packing) : Prop := {
  pk_runs : p_runs p = object_hash <$> p_objects p;
  pk_objects : Forall2 (λ b c, encode_run c = Ok b) (p_objects p) parts;
  pk_values : Forall values_ok parts ∧ values_ok (p_part p);
  pk_entries : ∀ k : Bytes, (merged parts ∪ p_part p) !! k = Some <$> ((list_to_map done : Map) !! k);
  pk_apart : ∀ c, c ∈ parts → c ##ₘ p_part p;
  pk_nodup : NoDup parts;
}.

Lemma packed_start : packed [] [] (mkPacking [] [] ∅ 12).
Proof.
  split; cbn [p_runs p_objects p_part]; [done|done| | |set_solver|apply NoDup_nil_2].
  - split; [done|]. intros k v. by rewrite lookup_empty.
  - intros k. cbn [merged foldr list_to_map]. by rewrite (left_id_L ∅ (∪)), !lookup_empty.
Qed.

Lemma flush_packed done parts p p' :
  packed done parts p → flush p = Ok p' →
  ∃ parts', packed done parts' p' ∧ p_part p' = ∅.
Proof.
  intros [Hr Ho [Hv Hvp] He Ha Hnd] Hf. unfold flush in Hf.
  destruct (bool_decide_reflect (p_part p = ∅)) as [E|E].
  { injection Hf as <-. by exists parts. }
  apply bind_Ok in Hf as (b & Hb & <-%Ok_inj). exists (parts ++ [p_part p]). split; [|done].
  split; cbn [p_runs p_objects p_part].
  - by rewrite Hr, fmap_app.
  - apply Forall2_app; [done|]. by constructor.
  - split; [apply Forall_app; split; [done|by constructor]|]. intros k v. by rewrite lookup_empty.
  - intros k. rewrite (right_id_L ∅ (∪)), merged_snoc. apply He.
  - intros c _. apply map_disjoint_empty_r.
  - apply NoDup_app. split_and!; [done| |apply NoDup_singleton].
    intros c Hc ->%list_elem_of_singleton. apply Ha in Hc. apply E. apply map_empty. intros k.
    destruct (p_part p !! k) eqn:Ek; [|done]. by destruct (map_disjoint_spec (p_part p) (p_part p)) as [Hd _];
      destruct (Hd Hc k o o).
Qed.

Lemma fill_packed done parts p k i :
  packed done parts p → value_ok (Some i) → k ∉ done.*1 →
  packed (done ++ [(k, i)]) parts
    (mkPacking (p_runs p) (p_objects p) (Journal.emplace k (Some i) (p_part p)) (p_bytes p + (40 + len k))).
Proof.
  intros [Hr Ho [Hv Hvp] He Ha Hnd] Hi Hk.
  assert ((list_to_map done : Map) !! k = None) as Hnone by (by apply not_elem_of_list_to_map_1).
  pose proof (He k) as Hek. rewrite Hnone in Hek. apply lookup_union_None in Hek as [Hmk Hpk].
  unfold Journal.emplace. rewrite Hpk. split; cbn [p_runs p_objects p_part]; [done|done| | | |done].
  - split; [done|]. intros k' v [[<- <-]|[_ Hx]]%lookup_insert_Some; [done|by eapply Hvp].
  - intros k'. rewrite list_to_map_app, lookup_union. cbn [list_to_map foldr fst snd].
    specialize (He k'). rewrite lookup_union in He. rewrite lookup_union.
    destruct (decide (k = k')) as [<-|Hne].
    + rewrite !lookup_insert_eq, Hmk, Hnone. done.
    + rewrite !lookup_insert_ne by done. rewrite lookup_empty, He.
      by destruct ((list_to_map done : Map) !! k').
  - intros c Hc. apply map_disjoint_insert_r_2; [by eapply merged_None|by apply Ha].
Qed.

Lemma pack_packed l : ∀ done parts p p',
  packed done parts p → NoDup (done ++ l).*1 → Forall (λ e, value_ok (Some e.2)) l → pack l p = Ok p' →
  ∃ parts', packed (done ++ l) parts' p' ∧ p_part p' = ∅.
Proof.
  induction l as [|[k i] l IH]; intros done parts p p' Hp Hnd Hok Hrun; cbn [pack] in Hrun.
  { rewrite app_nil_r. by eapply flush_packed. }
  apply Forall_cons in Hok as [Hi Hok]. apply bind_Ok in Hrun as (p1 & Hp1 & Hrun).
  assert (∃ parts1, packed done parts1 p1) as [parts1 Hpk].
  { destruct (64 * 1024 <? _); [|injection Hp1 as <-; by eexists].
    destruct (flush_packed _ _ _ _ Hp Hp1) as (parts1 & ? & _). by eexists. }
  replace (done ++ (k, i) :: l) with ((done ++ [(k, i)]) ++ l) in * by (by rewrite <- app_assoc).
  eapply IH; [|exact Hnd|exact Hok|exact Hrun]. apply fill_packed; [done|done|].
  rewrite fmap_app in Hnd. apply NoDup_app in Hnd as [Hnd _]. rewrite fmap_app in Hnd.
  apply NoDup_app in Hnd as (_ & Hd & _). intros Hin. by apply (Hd k Hin), list_elem_of_here.
Qed.

(** What a plan packed from a complete map contains. *)
Lemma pack_map_plan (complete : Map) p :
  pack_map complete = Ok p → (∀ k i, complete !! k = Some i → value_ok (Some i)) →
  ∃ parts, encode_manifest (object_hash <$> objects p) = Ok (manifest p) ∧
    run_count_ p = len (objects p) ∧
    Forall2 (λ b c, decode_run b = Ok c) (objects p) parts ∧ NoDup parts ∧ merged parts = Some <$> complete.
Proof.
  unfold pack_map. intros Hrun Hok. apply bind_Ok in Hrun as (q & Hq & Hrun).
  apply bind_Ok in Hrun as (m & Hm & <-%Ok_inj). cbn [objects manifest run_count_].
  assert (∃ parts, packed ([] ++ in_order complete) parts q ∧ p_part q = ∅) as (parts & Hp & Hpart).
  { eapply pack_packed; [apply packed_start| | |exact Hq].
    - cbn [app]. apply NoDup_in_order_keys.
    - apply Forall_forall. intros [k i] Hin%elem_of_in_order. by eapply Hok. }
  cbn [app] in Hp. destruct Hp as [Hr Ho [Hv _] He _ Hnd]. exists parts. split_and!; [by rewrite <- Hr| | |done|].
  - rewrite Hr. unfold len. by rewrite length_fmap.
  - clear -Ho Hv. induction Ho as [|b c bs cs Hb Ho IH]; [constructor|].
    apply Forall_cons in Hv as [Hc Hv]. constructor; [by apply decode_encode_run|by apply IH].
  - apply map_eq. intros k. specialize (He k). rewrite Hpart, (right_id_L ∅ (∪)) in He.
    by rewrite He, lookup_fmap, list_to_map_in_order.
Qed.

(** Distinct parts have distinct ids in a store that holds them. *)
Lemma packed_ids_nodup (os : list Bytes) (parts : list Changes) (holds : Id → Bytes → Prop) :
  Forall2 (λ b c, decode_run b = Ok c) os parts → NoDup parts →
  (∀ b, b ∈ os → holds (object_hash b) b) → (∀ id b b', holds id b → holds id b' → b = b') →
  NoDup (object_hash <$> os).
Proof.
  intros Ho Hnd Hh Hf. assert (NoDup os) as Hnd'.
  { clear Hh. induction Ho as [|b c bs cs Hb Ho IH]; [apply NoDup_nil_2|].
    apply NoDup_cons in Hnd as [Hc Hnd]. apply NoDup_cons. split; [|by apply IH].
    intros [i Hi]%list_elem_of_lookup. destruct (Forall2_lookup_l _ _ _ _ _ Ho Hi) as (c' & Hc' & Hd).
    apply Hc. rewrite Hb in Hd. injection Hd as ->. by eapply list_elem_of_lookup_2. }
  apply NoDup_fmap_2_strong; [|done]. intros b b' Hb Hb' E. eapply Hf; [by apply Hh|]. rewrite E. by apply Hh.
Qed.
End Pack.

(** ** Views that show a map *)

Lemma List_filter_filter {A} (f : A → bool) l : List.filter f l = filter (λ x, f x = true) l.
Proof. induction l as [|x l IH]; [done|]. rewrite filter_cons. cbn [List.filter]. rewrite IH. by destruct (f x). Qed.

(** The keys of a map under a prefix, in order. *)
Definition map_keys (m : Map) (p : Bytes) : list Bytes :=
  filter (λ k, starts_with p k = true) (in_order m).*1.

(** The namespace entries among the roots of a store. *)
Definition flat_map (s : kv) : Map := filter (λ e, starts_with prefix e.1 = true) (kv_roots s).

Lemma lookup_flat_map s k : starts_with prefix k = true → flat_map s !! k = kv_roots s !! k.
Proof.
  intros Hk. unfold flat_map. destruct (kv_roots s !! k) as [i|] eqn:E.
  - by apply map_lookup_filter_Some.
  - apply map_lookup_filter_None. by left.
Qed.

Lemma starts_with_trans p q k : starts_with p q = true → starts_with q k = true → starts_with p k = true.
Proof.
  rewrite !starts_with_spec. intros [t ->] [u ->]. exists (t ++ u). by rewrite app_assoc.
Qed.

Lemma flat_map_keys s p : starts_with prefix p = true → kv_keys s p = map_keys (flat_map s) p.
Proof.
  intros Hp. apply increasing_unique; [apply increasing_filter, increasing_in_order..|].
  intros k. unfold kv_keys, map_keys. rewrite !list_elem_of_filter, !list_elem_of_fmap. split.
  - intros (Hk & [k' i] & -> & Hin%elem_of_in_order). split; [done|]. exists (k', i). split; [done|].
    apply elem_of_in_order. rewrite lookup_flat_map; [done|]. by eapply starts_with_trans.
  - intros (Hk & [k' i] & -> & Hin%elem_of_in_order). split; [done|]. exists (k', i). split; [done|].
    apply elem_of_in_order. rewrite lookup_flat_map in Hin; [done|]. by eapply starts_with_trans.
Qed.

Section Shows.
Context `{DigestOk} {J : Type} `{JournalLike J, !JournalLaws J} (j : J) (s : kv).
Context (Hs : stands j s) (Hready : ready j).
Implicit Types (v : view) (m : Map).

Inductive shows m v : Prop :=
| shows_runs cs :
    run_view j cs v → NoDup (runs_ v) → Forall run_id (runs_ v) → runs_ v ≠ [] → m = live (merged cs) → shows m v
| shows_flat :
    tree_ v = None → legacy_ v = true → runs_ v = [] → m = flat_map s → shows m v
| shows_tree U e t :
    collision_free U → entries_ok U → closed_store j U → tree_ v = Some e → legacy_ v = false →
    editing j U e t → m = to_map t → shows m v.

(** An operation on a view that shows [m] returns [a] and leaves a view that shows [m]. *)
Definition reads {A} m (op : ST view A) (a : A) : Prop :=
  ∀ v, shows m v → ∃ v', op v = (v', Ok a) ∧ shows m v' ∧ same_version v v'.

Lemma reads_bind {A B} m (op : ST view A) (f : A → ST view B) a b :
  reads m op a → reads m (f a) b → reads m (op ≫= f) b.
Proof.
  intros Ho Hf v Hv. destruct (Ho v Hv) as (v1 & E1 & Hv1 & Hc1). destruct (Hf v1 Hv1) as (v2 & E2 & Hv2 & Hc2).
  exists v2. rewrite (st_bind_run _ _ _ _ _ E1). split_and!; [done..|by etrans].
Qed.

Lemma reads_ret {A} m (a : A) : reads m (mret a) a.
Proof. intros v Hv. by exists v. Qed.
Lemma reads_lift {A} m (r : result A) a : r = Ok a → reads m (lift r) a.
Proof. intros -> v Hv. by exists v. Qed.

Lemma exact_contains k : j_contains j k = Ok (bool_decide (is_Some (kv_roots s !! k))).
Proof. by eapply answered_ready, stands_contains. Qed.
Lemma exact_root k i : kv_roots s !! k = Some i → j_root j k = Ok i.
Proof. intros Hk. erewrite (answered_ready _ _ _ Hready (stands_root j s k Hs)). by rewrite Hk. Qed.
Lemma exact_keys p : j_keys j p = Ok (kv_keys s p).
Proof. by eapply answered_ready, stands_keys. Qed.
Lemma exact_object i b : kv_objects s !! i = Some b → get_object j i = Ok b.
Proof. intros Hi. erewrite (answered_ready _ _ _ Hready (stands_object j s i Hs)). by rewrite Hi. Qed.

Lemma shows_runs_same m v v' cs :
  run_view j cs v' → same_version v v' → NoDup (runs_ v) → Forall run_id (runs_ v) → runs_ v ≠ [] →
  m = live (merged cs) → shows m v'.
Proof. intros Hv' (Hr & _) Hnd Hid Hne ->. apply (shows_runs _ _ cs); [done|by rewrite Hr..|done]. Qed.

(** A tree operation that keeps the editor at its treap. *)
Lemma shows_on_tree {A} (op : ST MetadataTree.editor A) a m v U e e' t :
  collision_free U → entries_ok U → closed_store j U → tree_ v = Some e → legacy_ v = false →
  m = to_map t → op e = (e', Ok a) → editing j U e' t →
  ∃ v', on_tree e op v = (v', Ok a) ∧ shows m v' ∧ same_version v v'.
Proof.
  intros HU HUok Hcl Et El -> Hop He'. unfold on_tree. rewrite Hop. eexists. split_and!; [done| |].
  - by apply (shows_tree _ _ U e' t).
  - split_and!; [done..|]. cbn [tree_ set_tree]. rewrite Et. by split; eexists.
Qed.

Lemma lookup_reads m k : starts_with prefix k = true → reads m (lookup j k) (m !! k).
Proof.
  intros Hk v Hv. unfold lookup. rewrite (st_bind_run _ _ _ v v eq_refl).
  destruct Hv as [cs Hv Hnd Hid Hne ->|Et El Er ->|U e t HU HUok Hcl Et El He ->].
  - rewrite (rv_tree _ _ _ Hv), (rv_legacy _ _ _ Hv).
    destruct (lookup_runs_run j k (runs_ v) cs cs v Hv (rv_runs _ _ _ Hv)) as (v' & E & Hv' & Hsv).
    exists v'. split_and!; [done| |done]. by eapply shows_runs_same.
  - rewrite Et, El. exists v. split_and!; [|by apply shows_flat|done]. rewrite lookup_flat_map by done.
    unfold lift, mbind, st_bind. rewrite exact_contains. destruct (kv_roots s !! k) as [i|] eqn:E; [|done].
    rewrite bool_decide_eq_true_2 by (by eexists). by rewrite (exact_root k i E).
  - rewrite Et. destruct (lookup_editing j U HU e t k He) as (e' & E & He').
    by eapply shows_on_tree.
Qed.

Lemma keys_reads m p : starts_with prefix p = true → reads m (keys j p) (map_keys m p).
Proof.
  intros Hp v Hv. unfold keys. rewrite (st_bind_run _ _ _ v v eq_refl).
  destruct Hv as [cs Hv Hnd Hid Hne ->|Et El Er ->|U e t HU HUok Hcl Et El He ->].
  - rewrite (rv_tree _ _ _ Hv), (rv_legacy _ _ _ Hv).
    destruct (select_runs_run j p (runs_ v) cs cs v ∅ Hv (rv_runs _ _ _ Hv)) as (v' & sel & E & Hv' & Hsv & Hsel).
    exists v'. rewrite (st_bind_run _ _ _ _ _ E). split_and!; [|by eapply shows_runs_same|done].
    unfold mret, st_ret. do 2 f_equal. apply selected_keys; intros k; rewrite Hsel, lookup_empty.
    + destruct (starts_with p k); [by right|by left].
    + intros ->. by rewrite lookup_live.
  - rewrite Et, El. exists v. split_and!; [|by apply shows_flat|done]. unfold lift.
    by rewrite exact_keys, flat_map_keys.
  - rewrite Et. destruct (keys_editing j U HU e t p He) as (e' & E & He').
    unfold map_keys. rewrite <- List_filter_filter. by eapply shows_on_tree.
Qed.

Lemma flat_references_run ks : ∀ acc,
  (∀ k, k ∈ ks → is_Some (kv_roots s !! k)) →
  ∃ m, flat_references j ks acc = Ok m ∧
    ∀ k, m !! k = if bool_decide (k ∈ ks) then kv_roots s !! k else acc !! k.
Proof.
  induction ks as [|k ks IH]; intros acc Hks; [by exists acc|]. cbn [flat_references].
  destruct (Hks k (list_elem_of_here _ _)) as [i Hi]. rewrite (exact_root k i Hi). cbn [mbind result_bind].
  destruct (IH (<[k := i]> acc)) as (m & E & Hm); [set_solver|]. exists m. split; [done|].
  intros k'. rewrite Hm. destruct (bool_decide_reflect (k' ∈ ks)) as [Hin|Hin].
  - rewrite bool_decide_eq_true_2 by set_solver. done.
  - destruct (decide (k = k')) as [<-|Hne].
    + rewrite bool_decide_eq_true_2 by set_solver. by rewrite lookup_insert_eq.
    + rewrite bool_decide_eq_false_2 by set_solver. by rewrite lookup_insert_ne.
Qed.

Lemma references_reads m : reads m (references j) m.
Proof.
  intros v Hv. unfold references. rewrite (st_bind_run _ _ _ v v eq_refl).
  destruct Hv as [cs Hv Hnd Hid Hne ->|Et El Er ->|U e t HU HUok Hcl Et El He ->].
  - rewrite (rv_tree _ _ _ Hv), (rv_legacy _ _ _ Hv).
    assert (Forall2 (loads_run j) (rev (runs_ v)) (rev cs)) as Hrev.
    { rewrite !rev_alt. by apply Forall2_reverse, Hv. }
    destruct (apply_runs_run j (rev (runs_ v)) cs (rev cs) v ∅ Hv Hrev) as (v' & E & Hv' & Hsv).
    rewrite oldest_first in E. exists v'. split_and!; [done|by eapply shows_runs_same|done].
  - rewrite Et, El. exists v. split_and!; [|by apply shows_flat|done]. unfold lift, mbind, st_bind.
    rewrite exact_keys. assert (∀ k, k ∈ kv_keys s prefix → is_Some (kv_roots s !! k)) as Hks.
    { intros k. unfold kv_keys. rewrite list_elem_of_filter, list_elem_of_fmap.
      intros (_ & [k' i] & -> & Hin%elem_of_in_order). by exists i. }
    destruct (flat_references_run (kv_keys s prefix) ∅ Hks) as (m & -> & Hm). do 2 f_equal. apply map_eq.
    intros k. rewrite Hm, lookup_empty. destruct (bool_decide_reflect (k ∈ kv_keys s prefix)) as [Hin|Hin].
    + apply list_elem_of_filter in Hin as [Ep _]. by rewrite lookup_flat_map.
    + symmetry. apply map_lookup_filter_None. right. intros i Hi Hp. apply Hin.
      apply list_elem_of_filter. split; [done|]. apply list_elem_of_fmap. exists (k, i). by rewrite elem_of_in_order.
  - rewrite Et. destruct (entries_editing j U HU HUok e t He) as (e' & E & He').
    by eapply shows_on_tree.
Qed.
End Shows.

(** ** Opening a manifest *)

Section Opening.
Context `{DigestOk} {J : Type} `{JournalLike J, !JournalLaws J}.
Implicit Types (j : J) (s : kv).

Lemma unloaded_view j : run_view j [] unloaded.
Proof. split; [done|done|constructor|]. intros id c. cbn. by rewrite lookup_empty. Qed.

(** A manifest of runs that the store holds opens as a view of those runs. *)
Lemma of_manifest_runs j ids cs idm b :
  get_object j idm = Ok b → encode_manifest ids = Ok b → Forall2 (loads_run j) ids cs →
  Forall run_id ids → NoDup ids → is_Some (live (merged cs) !! root_key) →
  ∃ v, of_manifest j idm = Ok v ∧ run_view j cs v ∧ runs_ v = ids.
Proof.
  intros Hg Hb Hcs Hid Hnd Hroot.
  destruct (manifest_roundtrip ids b Hb Hid Hnd) as (Ht & H1' & H2' & Hn & Hpos & Hlen & Hruns).
  unfold of_manifest, load. rewrite (st_bind_run _ _ unloaded unloaded b) by (unfold lift; by rewrite Hg).
  rewrite Ht, andb_false_r, H1', H2'.
  set (v1 := mkView None false ids ∅).
  assert (run_view j cs v1) as Hv1.
  { split; [done|done|exact Hcs|]. intros id c. cbn. by rewrite lookup_empty. }
  match goal with |- context [mbind ?f ?op unloaded] => assert (op unloaded = (v1, Ok tt)) as E end.
  { unfold st_need, lift, mbind, st_bind, modify. cbn [need]. rewrite Hn, Hruns.
    replace ((0 <? len ids) && (len ids <=? 32) && (len b =? 12 + len ids * 32)) with true; [done|].
    symmetry. rewrite !andb_true_iff, Z.ltb_lt, Z.leb_le, Z.eqb_eq. lia. }
  rewrite (st_bind_run _ _ _ _ _ E).
  destruct (lookup_runs_run j root_key ids cs cs v1 Hv1 Hcs) as (v2 & E2 & Hv2 & Hsv).
  assert (lookup j root_key v1 = (v2, Ok (live (merged cs) !! root_key))) as El by exact E2.
  rewrite (st_bind_run _ _ _ _ _ El). rewrite bool_decide_eq_true_2 by done. cbn [constructed st_need need lift].
  exists v2. split_and!; [done|done|]. by destruct Hsv as (-> & _).
Qed.

(** A later store holds what an earlier one held. *)
Definition extends j j' : Prop := ∀ id b, get_object j id = Ok b → get_object j' id = Ok b.

(** No stored object has the all-zero id, which the formats reserve. *)
Definition no_zero_object j : Prop := ∀ b, get_object j zero_id ≠ Ok b.

(** The store after a plan has been committed. *)
Record publishes j j' (p : Plan) : Prop := {
  pb_extends : extends j j';
  pb_objects : ∀ b, b ∈ objects p → get_object j' (object_hash b) = Ok b;
  pb_manifest : get_object j' (object_hash (manifest p)) = Ok (manifest p);
}.

Lemma run_id_hash j b : no_zero_object j → get_object j (object_hash b) = Ok b → run_id (object_hash b).
Proof.
  intros Hz Hg. split; [apply length_object_hash|]. intros E. rewrite E in Hg. by apply Hz in Hg.
Qed.

(** Opening the plan of a packed map. *)
Lemma packed_opens j j' complete p :
  publishes j j' p → no_zero_object j' → pack_map complete = Ok p →
  (∀ k i, complete !! k = Some i → value_ok (Some i)) → is_Some (complete !! root_key) →
  ∃ cs v, of_manifest j' (object_hash (manifest p)) = Ok v ∧ run_view j' cs v ∧
    NoDup (runs_ v) ∧ Forall run_id (runs_ v) ∧ runs_ v ≠ [] ∧ live (merged cs) = complete.
Proof.
  intros [_ Ho Hm] Hz Hp Hok Hroot.
  destruct (pack_map_plan complete p Hp Hok) as (parts & He & _ & Hd & Hnd & Hmerged).
  assert (NoDup (object_hash <$> objects p)) as Hids.
  { apply (packed_ids_nodup _ parts (λ id b, get_object j' id = Ok b)); [done..|]. congruence. }
  assert (Forall run_id (object_hash <$> objects p)) as Hrid.
  { apply Forall_fmap, Forall_forall. intros b Hb. by eapply run_id_hash, Ho. }
  assert (live (merged parts) = complete) as Hlive.
  { apply map_eq. intros k. rewrite lookup_live, Hmerged, lookup_fmap. by destruct (complete !! k). }
  destruct (of_manifest_runs j' (object_hash <$> objects p) parts (object_hash (manifest p)) (manifest p))
    as (v & Hv & Hrv & Er); [done|done| |done|done|by rewrite Hlive|].
  - clear -Ho Hd. induction Hd as [|b c bs cs Hb Hd IH]; [constructor|]. constructor.
    + unfold loads_run. rewrite Ho by set_solver. done.
    + apply IH. set_solver.
  - exists parts, v. rewrite Er. apply encode_manifest_Ok in He as [Hne _]. done.
Qed.

Section Plan_.
Context (j j' : J) (s s' : kv) (Hs : stands j s) (Hready : ready j) (Hs' : stands j' s').
Context (Hfile : j_leveldb j = false) (Hz : no_zero_object j').

Lemma loads_extend id c : extends j j' → loads_run j id c → loads_run j' id c.
Proof.
  unfold loads_run. intros He Hl. apply bind_Ok in Hl as (b & Hb & Hd). by rewrite (He id b Hb).
Qed.

Lemma merged_value_ok cs : Forall changes_ok cs → ∀ k i, live (merged cs) !! k = Some i → value_ok (Some i).
Proof.
  intros Hcs k i. rewrite lookup_live. induction Hcs as [|c cs Hc Hcs IH].
  - cbn [merged foldr]. by rewrite lookup_empty.
  - rewrite lookup_merged_cons. destruct (c !! k) as [w|] eqn:E; [|done]. cbn. intros ->.
    by apply Hc in E as [_ ?].
Qed.

Lemma runs_changes_ok ids cs : Forall2 (loads_run j) ids cs → Forall changes_ok cs.
Proof.
  induction 1 as [|id c ids cs Hl _ IH]; constructor; [|done].
  apply bind_Ok in Hl as (b & _ & Hd). by apply decode_run_ok in Hd as [? _].
Qed.

(** The ids a view shows are ids of stored objects or come from a run. *)
Lemma shown_value_ok m v k i : extends j j' → shows j s m v → tree_ v = None →
  m !! k = Some i → value_ok (Some i).
Proof.
  intros He Hv Ht. destruct Hv as [cs Hv _ _ _ ->|_ _ _ ->|U e t _ _ _ Et]; [| |congruence].
  - eapply merged_value_ok, runs_changes_ok. apply Hv.
  - intros [Hk _]%map_lookup_filter_Some. destruct (stands_roots j s k i Hs Hk) as [b Hb].
    intros i' [= <-]. split; [rewrite <- (stands_hashed j s i b Hs Hb); apply length_object_hash|].
    intros ->. apply (Hz b), He. by apply (exact_object j s Hs Hready).
Qed.

Lemma apply_run_value_ok changes m :
  values_ok changes → (∀ k i, m !! k = Some i → value_ok (Some i)) →
  ∀ k i, apply_run changes m !! k = Some i → value_ok (Some i).
Proof.
  intros Hc Hm k i. rewrite lookup_apply_run. destruct (changes !! k) as [w|] eqn:E; [|apply Hm].
  intros ->. by eapply Hc.
Qed.

(** Dropping the older copies of a run that goes to the front. *)
Lemma drop_copies (id : Id) (changes : Changes) ids : ∀ cs,
  Forall2 (loads_run j') ids cs → (∀ c, loads_run j' id c → c = changes) →
  ∃ cs', Forall2 (loads_run j') (filter (λ i, i ≠ id) ids) cs' ∧
    ∀ k : Bytes, changes !! k = None → merged cs' !! k = merged cs !! k.
Proof.
  induction ids as [|i ids IH]; intros cs Hcs Hid; inversion Hcs as [|? c ? cs0 Hc Hcs0]; subst.
  { exists []. split; [constructor|done]. }
  destruct (IH cs0 Hcs0 Hid) as (cs' & Hcs' & Hm). destruct (decide (i = id)) as [->|Hne].
  - exists cs'. rewrite filter_cons_False by (intros Hx; by apply Hx). split; [done|].
    intros k Hk. rewrite lookup_merged_cons, (Hid c Hc), Hk. by apply Hm.
  - exists (c :: cs'). rewrite filter_cons_True by done. split; [by constructor|].
    intros k Hk. rewrite !lookup_merged_cons. destruct (c !! k); [done|]. by apply Hm.
Qed.

Lemma apply_run_again changes m : apply_run changes (apply_run changes m) = apply_run changes m.
Proof. apply map_eq. intros k. rewrite !lookup_apply_run. by destruct (changes !! k). Qed.

(** A new run in front of the others. *)
Lemma front_run_opens changes cs v b :
  run_view j cs v → NoDup (runs_ v) → Forall run_id (runs_ v) → values_ok changes → encode_run changes = Ok b →
  (∀ b0, get_object j' (object_hash b) = Ok b0 → b0 = b) → extends j j' →
  let '(runs, out) := if bool_decide (head (runs_ v) = Some (object_hash b)) then (runs_ v, [])
                      else (object_hash b :: filter (λ i, i ≠ object_hash b) (runs_ v), [b]) in
  (∀ b, b ∈ out → get_object j' (object_hash b) = Ok b) →
  ∃ cs', Forall2 (loads_run j') runs cs' ∧ NoDup runs ∧ Forall run_id runs ∧
    live (merged cs') = apply_run changes (live (merged cs)).
Proof.
  intros Hv Hnd Hid Hvals Hb Hsep He.
  assert (Forall2 (loads_run j') (runs_ v) cs) as Hcs.
  { eapply Forall2_impl; [apply Hv|]. intros i c. by apply loads_extend. }
  assert (∀ c, loads_run j' (object_hash b) c → c = changes) as Honly.
  { intros c Hl. apply bind_Ok in Hl as (b0 & Hb0 & Hd). apply Hsep in Hb0 as ->.
    rewrite (decode_encode_run changes b Hvals Hb) in Hd. congruence. }
  destruct (bool_decide_reflect (head (runs_ v) = Some (object_hash b))) as [Eh|Eh]; intros Hout.
  - exists cs. split_and!; [done..|]. destruct (runs_ v) as [|i ids]; [done|]. injection Eh as ->.
    inversion Hcs as [|? c ? cs0 Hc Hcs0]; subst. rewrite (Honly c Hc).
    by rewrite <- apply_run_live, apply_run_again.
  - destruct (drop_copies (object_hash b) changes (runs_ v) cs Hcs Honly) as (cs' & Hcs' & Hm).
    assert (get_object j' (object_hash b) = Ok b) as Hg by (apply Hout; set_solver).
    exists (changes :: cs'). split_and!.
    + constructor; [|done]. unfold loads_run. rewrite Hg. by apply decode_encode_run.
    + apply NoDup_cons. split; [|by apply NoDup_filter]. intros [Hx _]%list_elem_of_filter. done.
    + constructor; [by eapply run_id_hash|]. apply Forall_forall. intros i [_ Hi]%list_elem_of_filter.
      rewrite Forall_forall in Hid. by apply Hid.
    + apply map_eq. intros k. rewrite lookup_apply_run, !lookup_live, lookup_merged_cons.
      destruct (changes !! k) eqn:Ek; [done|]. by rewrite Hm.
Qed.

(** The plan of a change set on the single-file backend. *)
Lemma plan_opens m v v' changes compact p :
  shows j s m v → plan j changes compact v = (v', Ok p) → values_ok changes → publishes j j' p →
  (∀ b b0, encode_run changes = Ok b → get_object j' (object_hash b) = Ok b0 → b0 = b) →
  is_Some (apply_run changes m !! root_key) → tree_ v = None →
  ∃ v'', of_manifest j' (object_hash (manifest p)) = Ok v'' ∧ shows j' s' (apply_run changes m) v''.
Proof.
  intros Hv Hp Hvals Hpub Hsep Hroot Ht. unfold plan in Hp. rewrite Hfile in Hp.
  rewrite (st_bind_run _ _ _ v v eq_refl) in Hp.
  destruct (legacy_ v || compact) eqn:Epack.
  - destruct (references_reads j s Hs Hready m v Hv) as (v1 & E1 & Hv1 & _).
    rewrite (st_bind_run _ _ _ _ _ E1) in Hp. rewrite bool_decide_eq_true_2 in Hp by done.
    unfold st_need, lift, need, mbind, st_bind in Hp. injection Hp as <- Hp.
    destruct (packed_opens j j' (apply_run changes m) p Hpub Hz Hp) as (cs & w & Hw & Hrw & Hnd & Hid & Hne & Hl).
    + apply apply_run_value_ok; [done|]. intros k i Hk. apply (shown_value_ok m v k i); [apply Hpub|exact Hv|exact Ht|exact Hk].
    + done.
    + exists w. split; [done|]. by apply (shows_runs _ _ _ _ cs).
  - apply orb_false_iff in Epack as [El Ec].
    destruct Hv as [cs Hv Hnd Hid Hne ->|_ El' _ _|U e t _ _ _ Et]; [|congruence..].
    destruct (bool_decide_reflect (changes ≠ ∅)) as [Hc|Hc].
    + destruct (encode_run changes) as [b|msg|] eqn:Eb; [|done..].
      rewrite (st_bind_run _ _ v v b eq_refl) in Hp.
      pose proof (front_run_opens changes cs v b Hv Hnd Hid Hvals Eb (λ b0, Hsep b b0 eq_refl)
        (pb_extends _ _ _ Hpub)) as Hfront.
      destruct (if bool_decide (head (runs_ v) = Some (object_hash b)) then _ else _) as [runs out].
      destruct (encode_manifest runs) as [mb|msg|] eqn:Em; [|done..].
      unfold lift, mbind, st_bind, mret, st_ret in Hp. injection Hp as <- <-.
      destruct Hfront as (cs' & Hcs' & Hnd' & Hid' & Hl'); [exact (pb_objects _ _ _ Hpub)|].
      destruct (of_manifest_runs j' runs cs' _ mb (pb_manifest _ _ _ Hpub) Em Hcs' Hid' Hnd')
        as (w & Hw & Hrw & Er); [by rewrite Hl'|].
      exists w. split; [exact Hw|]. apply (shows_runs _ _ _ _ cs'); rewrite ?Er; try done.
      by apply encode_manifest_Ok in Em as [? _].
    + apply dec_stable in Hc as ->.
      destruct (encode_manifest (runs_ v)) as [mb|msg|] eqn:Em; [|done..].
      unfold lift, mbind, st_bind, mret, st_ret in Hp. injection Hp as <- <-.
      assert (Forall2 (loads_run j') (runs_ v) cs) as Hcs.
      { eapply Forall2_impl; [apply Hv|]. intros i c. by apply loads_extend, Hpub. }
      assert (apply_run ∅ (live (merged cs)) = live (merged cs)) as Enop.
      { apply map_eq. intros k. by rewrite lookup_apply_run, lookup_empty. }
      rewrite Enop in *.
      destruct (of_manifest_runs j' (runs_ v) cs _ mb (pb_manifest _ _ _ Hpub) Em Hcs Hid Hnd Hroot)
        as (w & Hw & Hrw & Er).
      exists w. split; [exact Hw|]. by apply (shows_runs _ _ _ _ cs); rewrite ?Er.
Qed.
End Plan_.

(** ** Trees *)

Lemma Leaf_not_subtree t : Leaf ∉ subtrees t.
Proof. induction t as [|l IHl k v r IHr]; simpl; set_solver. Qed.

Lemma tree_manifest root : length root = 32%nat →
  len (MetadataTree.encode_manifest root) = 40 ∧
  slice 0 8 (MetadataTree.encode_manifest root) = bs "FFTREE01" ∧
  slice 8 32 (MetadataTree.encode_manifest root) = root.
Proof.
  intros Hl. assert (MetadataTree.encode_manifest root = bs "FFTREE01" ++ root) as ->.
  { unfold MetadataTree.encode_manifest. change 40%nat with (8 + 32)%nat. rewrite zeros_add.
    rewrite memcpy_here by done. rewrite (memcpy_skip _ 8) by (done || lia).
    by rewrite memcpy_here_end by (rewrite length_zeros; lia). }
  split_and!; [unfold len; by rewrite length_app, Hl|by apply slice_here|by apply slice_app_end].
Qed.

(** The manifest of a treap that the store holds opens as a view that edits it. *)
Lemma of_manifest_editing (j : J) (U : list (Bytes * Id)) (HU : collision_free U) t idm :
  get_object j idm = Ok (MetadataTree.encode_manifest (mid t)) → editing j U (MetadataTree.fresh (mid t)) t →
  mid t ≠ zero_id → length (mid t) = 32%nat → is_Some (to_map t !! root_key) →
  ∃ v e, of_manifest j idm = Ok v ∧ tree_ v = Some e ∧ legacy_ v = false ∧ editing j U e t.
Proof.
  intros Hg He Hnz Hl Hroot. destruct (tree_manifest (mid t) Hl) as (H40 & Hm & Hr).
  unfold of_manifest, load.
  rewrite (st_bind_run _ _ unloaded unloaded (MetadataTree.encode_manifest (mid t))) by (unfold lift; by rewrite Hg).
  rewrite H40, Hm, Hr. unfold bytes_eqb. rewrite bool_decide_eq_true_2 by done. cbn [Z.eqb Pos.eqb andb].
  set (v1 := mkView (Some (MetadataTree.fresh (mid t))) false [] ∅).
  rewrite (st_bind_run _ _ unloaded v1 tt).
  2:{ unfold st_need, lift, mbind, st_bind, modify. by rewrite bool_decide_eq_true_2. }
  destruct (lookup_editing j U HU _ t root_key He) as (e' & E & He').
  assert (lookup j root_key v1 = (set_tree (Some e') v1, Ok (to_map t !! root_key))) as El.
  { unfold lookup. rewrite (st_bind_run _ _ _ v1 v1 eq_refl). cbn [tree_ v1]. unfold on_tree. by rewrite E. }
  rewrite (st_bind_run _ _ _ _ _ El). rewrite bool_decide_eq_true_2 by done.
  eexists _, e'. by split_and!.
Qed.

(** The plan of a change set on a tree opens as a view that edits the changed tree. *)
Lemma tree_plan_editing (j j' : J) (U : list (Bytes * Id)) (HU : collision_free U) (HUok : entries_ok U)
    (Hcl : closed_store j U) v v' e t changes compact p :
  tree_ v = Some e → j_leveldb j = true → editing j U e t → acceptable U t changes →
  plan j changes compact v = (v', Ok p) → publishes j j' p → is_Some (apply_run changes (to_map t) !! root_key) →
  ∃ v'' e' t', of_manifest j' (object_hash (manifest p)) = Ok v'' ∧ tree_ v'' = Some e' ∧ legacy_ v'' = false ∧
    editing j' U e' t' ∧ to_map t' = apply_run changes (to_map t).
Proof.
  intros Et Hl He Ha Hp [Hx Ho Hm] Hroot. unfold plan in Hp. rewrite Hl in Hp.
  rewrite (st_bind_run _ _ _ v v eq_refl), Et in Hp.
  assert (to_map (updated t changes) = apply_run changes (to_map t)) as Hmap.
  { apply map_eq. intros k. rewrite to_map_updated by apply He. by rewrite lookup_apply_run. }
  destruct (decide (depth (updated t changes) ≤ 256)%nat) as [Hd|Hd].
  2:{ destruct (apply_too_deep j U HU HUok e t changes He Ha) as (e1 & Hrun & _); [lia|].
      unfold on_tree, mbind, st_bind in Hp. by rewrite Hrun in Hp. }
  destruct (MetadataTreeApply.apply_run j U HU HUok e t changes He Ha Hcl Hd) as (e1 & out & Hrun & He1 & Hpub & _).
  unfold on_tree, mbind, st_bind in Hp. rewrite Hrun in Hp. injection Hp as _ <-.
  cbn [objects manifest MetadataTree.objects MetadataTree.manifest] in *.
  assert (editing j' U (MetadataTree.fresh (mid (updated t changes))) (updated t changes)) as He'.
  { destruct He1 as [_ Hin1 Hheap1 Hdepth1 _ _ _]. apply (open_editing j' U HU HUok); [|done..]. intros u Hu.
    destruct (Hpub u Hu) as [Hin|Hg]; [|by apply Hx]. apply Ho in Hin.
    destruct u; [by apply Leaf_not_subtree in Hu|exact Hin]. }
  rewrite <- Hmap in *.
  destruct (of_manifest_editing j' U HU (updated t changes) _ Hm He') as (w & e' & Hw & Et' & El' & Hee);
    [| |done|by exists w, e', (updated t changes)].
  - destruct (updated t changes) as [|l k i r] eqn:Eu; [by destruct Hroot as [x Hx']; vm_compute in Hx'|].
    intros Ez. assert (Branch l k i r = Leaf) as E; [|done]. apply HU; [apply He1|apply tree_in_Leaf|done].
  - destruct (updated t changes); [done|apply length_object_hash].
Qed.

Section Trees.
Context (j j' : J) (s s' : kv) (U : list (Bytes * Id)).
Context (HU : collision_free U) (HUok : entries_ok U) (Hcl : closed_store j U) (Hcl' : closed_store j' U).

(** The plan of a change set on a tree. *)
Lemma tree_plan_opens v v' e t changes compact p :
  tree_ v = Some e → j_leveldb j = true → editing j U e t → acceptable U t changes →
  plan j changes compact v = (v', Ok p) → publishes j j' p → is_Some (apply_run changes (to_map t) !! root_key) →
  ∃ v'', of_manifest j' (object_hash (manifest p)) = Ok v'' ∧ shows j' s' (apply_run changes (to_map t)) v''.
Proof.
  intros Et Hl He Ha Hp Hpub Hroot.
  destruct (tree_plan_editing j j' U HU HUok Hcl v v' e t changes compact p Et Hl He Ha Hp Hpub Hroot)
    as (w & e' & t' & Hw & Et' & El' & He' & <-).
  exists w. split; [done|]. by apply (shows_tree _ _ _ _ U e' t').
Qed.
End Trees.
End Opening.
