(* ===== verification/MetadataViewSpec.v ===== *)
(** * What views promise

    The three forms of a view read alike, a planned version opens as the changed map, and
    compaction changes the form but not the map.  The examples run on a journal in memory. *)

From S2P Require Import Prelude Codec Treap Journal JournalRecord JournalTx JournalStore MetadataTree.
From S2P Require Import MetadataTreeProofs MetadataTreeEdit MetadataTreeApply Instances LevelStoreProofs.
From S2P Require Import LevelStoreTransact Store StoreMemory MetadataView MetadataViewRuns MetadataViewProofs.
From S2P Require Import MetadataViewPlan.
Import NamespaceView.
Local Open Scope Z_scope.

(** Round trip of sorted runs.  What [encode_run] accepts, [decode_run] reads back as the
    same changes, tombstones included; and whatever [decode_run] accepts, from any bytes, is
    non-empty, has its keys under the namespace prefix and at most 1024 bytes long, and only
    32-byte non-zero references. *)
Theorem run_codec_roundtrip (c : Changes) (b : Bytes) (b' : Bytes) (c' : Changes) :
  (values_ok c → encode_run c = Ok b → decode_run b = Ok c ∧ len b ≤ 256 * 1024) ∧
  (decode_run b' = Ok c' → changes_ok c' ∧ c' ≠ ∅).
Proof.
  split; [|apply decode_run_ok]. intros Hv Hb. split; [by apply decode_encode_run|].
  by apply encode_run_Ok in Hb as (_ & _ & _ & Hl); apply Hl.
Qed.

Section Spec.
Context `{DigestOk} {J : Type} `{JournalLike J, !JournalLaws J}.

(** C22: The forms of a view are equivalent.  On a journal that answers, a flat view, a view
    of runs and a view of a tree that show the same map answer lookup, keys and references
    alike: lookup returns the id the map has, keys the keys under the prefix in order, and
    references the map itself; and they still show the map afterwards. *)
Theorem view_reads_map (j : J) (s : kv) (m : Map) (v : view) (k p : Bytes) :
  stands j s → ready j → shows j s m v → starts_with prefix k = true → starts_with prefix p = true →
  (∃ v', lookup j k v = (v', Ok (m !! k)) ∧ shows j s m v') ∧
  (∃ v', keys j p v = (v', Ok (map_keys m p)) ∧ shows j s m v') ∧
  (∃ v', references j v = (v', Ok m) ∧ shows j s m v').
Proof.
  intros Hs Hr Hv Hk Hp. split_and!.
  - destruct (lookup_reads j s Hs Hr m k Hk v Hv) as (v' & ? & ? & _). eauto.
  - destruct (keys_reads j s Hs Hr m p Hp v Hv) as (v' & ? & ? & _). eauto.
  - destruct (references_reads j s Hs Hr m v Hv) as (v' & ? & ? & _). eauto.
Qed.


(** A plan on a tree.  When the view shows the map of a treap and [plan] succeeds on the
    LevelDB backend, the manifest opens, once published, as a tree view of the changed map. *)
Theorem tree_plan_refines_update (j j' : J) (s' : kv) (U : list (Bytes * Id)) (v v' : view)
    (e : MetadataTree.editor) (t : tree) (changes : Changes) (compact : bool) (p : Plan) :
  collision_free U → entries_ok U → closed_store j U → closed_store j' U →
  tree_ v = Some e → j_leveldb j = true → editing j U e t → acceptable U t changes →
  plan j changes compact v = (v', Ok p) → publishes j j' p →
  is_Some (apply_run changes (to_map t) !! root_key) →
  ∃ v'', of_manifest j' (object_hash (manifest p)) = Ok v'' ∧ shows j' s' (apply_run changes (to_map t)) v''.
Proof.
  intros HU HUok Hcl Hcl' Et Hl He Ha Hp Hpub Hroot.
  exact (tree_plan_opens j j' s' U HU HUok Hcl Hcl' v v' e t changes compact p Et Hl He Ha Hp Hpub Hroot).
Qed.

Lemma load_objects_run (j : J) ids cs :
  Forall2 (loads_run j) ids cs →
  ∃ bs, load_objects j ids = Ok bs ∧ Forall2 (λ b c, decode_run b = Ok c) bs cs.
Proof.
  induction 1 as [|id c ids cs Hl _ (bs & E & Hbs)]; [exists []; by split; [|constructor]|].
  apply bind_Ok in Hl as (b & Hb & Hd). exists (b :: bs). cbn [load_objects]. rewrite Hb. cbn [mbind result_bind].
  rewrite E. split; [done|by constructor].
Qed.

Lemma fold_frozen bs : ∀ cs (m : Map),
  Forall2 (λ b c, decode_run b = Ok c) bs cs →
  foldl (λ (acc : result Map) (b : Bytes), m ← acc; c ← decode_run b; Ok (apply_run c m)) (Ok m) bs =
  Ok (foldl (λ m c, apply_run c m) m cs).
Proof.
  induction bs as [|b bs IH]; intros cs m Hbs; inversion Hbs as [|? c ? cs0 Hc Hcs]; subst; [done|].
  cbn [foldl mbind result_bind]. rewrite Hc. cbn [mbind result_bind]. by apply IH.
Qed.

Lemma compact_frozen_map (j : J) (s : kv) m v v' input p :
  stands j s → ready j → shows j s m v → tree_ v = None → freeze j v = (v', Ok input) →
  compact_frozen input = Ok p → pack_map m = Ok p ∧ is_Some (m !! root_key).
Proof.
  intros Hs Hr Hv Ht Hf Hc. unfold freeze in Hf. rewrite (st_bind_run _ _ _ v v eq_refl) in Hf.
  assert (∀ l, foldl (λ (acc : result Map) (b : Bytes), m ← acc; c ← decode_run b; Ok (apply_run c m))
    (Ok (flat input)) (rev (frozen_runs input)) = Ok l → l = m → pack_map m = Ok p ∧ is_Some (m !! root_key)) as Hend.
  { intros l Hl ->. unfold compact_frozen in Hc. cbv zeta in Hc. rewrite Hl in Hc. cbn [mbind result_bind] in Hc.
    by apply need_bind_Ok in Hc as [?%bool_decide_eq_true ?]. }
  pose proof Hv as Hv0. destruct Hv as [cs Hv _ _ _ ->|Et El Er ->|U e t _ _ _ Et]; [| |congruence].
  - rewrite (rv_legacy _ _ _ Hv) in Hf. destruct (load_objects_run j _ _ (rv_runs _ _ _ Hv)) as (bs & E & Hbs).
    unfold lift, mbind, st_bind in Hf. rewrite E in Hf. injection Hf as _ <-. cbn [flat frozen_runs] in Hend.
    eapply Hend; [apply (fold_frozen _ (rev cs)); rewrite !rev_alt; by apply Forall2_reverse|]. apply oldest_first.
  - rewrite El in Hf. destruct (references_reads j s Hs Hr _ v Hv0) as (v1 & E1 & _ & _).
    rewrite (st_bind_run _ _ _ _ _ E1) in Hf. injection Hf as _ <-. by eapply Hend.
Qed.

(** C21: Compaction keeps the map.  What [compact_frozen] computes from a frozen flat view or
    view of runs, once published, opens as a view that shows the same map. *)
Theorem compaction_preserves_map (j j' : J) (s s' : kv) (m : Map) (v v' : view) (input : Frozen) (p : Plan) :
  stands j s → ready j → tree_ v = None → no_zero_object j' → shows j s m v →
  freeze j v = (v', Ok input) → compact_frozen input = Ok p → publishes j j' p →
  ∃ v'', of_manifest j' (object_hash (manifest p)) = Ok v'' ∧ shows j' s' m v''.
Proof.
  intros Hs Hr Ht Hz Hv Hf Hc Hpub. destruct (compact_frozen_map j s m v v' input p) as [Hp Hroot]; [done..|].
  destruct (packed_opens j j' m p Hpub Hz Hp) as (cs & w & Hw & Hrw & Hnd & Hid & Hne & Hl).
  - intros k i Hk. eapply (shown_value_ok j j' s Hs Hr Hz m v k i); [apply Hpub|done..].
  - done.
  - exists w. split; [done|]. by apply (shows_runs _ _ _ _ cs).
Qed.
End Spec.

(** ** Examples

    A flat namespace of two entries in a journal in memory, migrated to runs. *)

Definition hashed (bs : list Bytes) : gmap Id Bytes := list_to_map ((λ b, (object_hash b, b)) <$> bs).
Definition store_of (q : Z) (roots : list (Bytes * Bytes)) (more : list Bytes) : kv :=
  mkKv q (list_to_map ((λ '(k, b), (k, object_hash b)) <$> roots)) (hashed (more ++ roots.*2)).
Definition flat_roots : list (Bytes * Bytes) := [(root_key, bs "r"); (prefix ++ bs "x", bs "one")].
Definition flat0 : kv := store_of 1 flat_roots [].
Definition flat_journal : memory := mkMemory flat0 false.
Definition flat_view : view := mkView None true [] ∅.
Definition change0 : Changes := {[prefix ++ bs "y" := Some (object_hash (bs "one")); prefix ++ bs "x" := None]}.
Definition plan_of (r : view * result Plan) : Plan := match r.2 with Ok p => p | _ => mkPlan [] [] 0 end.
Definition plan0 : Plan := plan_of (plan flat_journal change0 false flat_view).
Definition next0 : kv := store_of 2 flat_roots (manifest plan0 :: objects plan0).
Definition next_journal0 : memory := mkMemory next0 false.

Lemma flat0_ok : kv_ok flat0.
Proof. apply kv_okb_ok. vm_compute. reflexivity. Qed.
Lemma next0_ok : kv_ok next0.
Proof. apply kv_okb_ok. vm_compute. reflexivity. Qed.
Lemma flat0_shows : shows flat_journal flat0 (flat_map flat0) flat_view.
Proof. by apply shows_flat. Qed.
Definition value_okb (v : option Id) : bool :=
  match v with Some i => (len i =? 32) && bool_decide (i ≠ zero_id) | None => true end.
Lemma value_okb_ok v : value_okb v = true → value_ok v.
Proof.
  unfold value_okb, len. intros Hv i ->. rewrite andb_true_iff, Z.eqb_eq, bool_decide_eq_true in Hv.
  split; [lia|apply Hv].
Qed.
Lemma change0_values : values_ok change0.
Proof.
  assert (map_Forall (λ _ v, value_okb v = true) change0) as Hc.
  { apply (bool_decide_eq_true_1 (map_Forall _ change0)). vm_compute. reflexivity. }
  intros k v Hv. by apply value_okb_ok, (Hc k).
Qed.
Lemma plan0_run : plan flat_journal change0 false flat_view = ((plan flat_journal change0 false flat_view).1, Ok plan0).
Proof. vm_compute. reflexivity. Qed.

Lemma memory_extends (s s' : kv) (l l' : bool) :
  map_Forall (λ id b, kv_objects s' !! id = Some b) (kv_objects s) → extends (mkMemory s l) (mkMemory s' l').
Proof.
  intros Hall id b Hb. cbn in *. destruct (kv_objects s !! id) as [b0|] eqn:E; [|done].
  injection Hb as ->. by rewrite (Hall id b E).
Qed.

Lemma memory_stands (s : kv) (l : bool) : kv_ok s → stands (mkMemory s l) s.
Proof. by split. Qed.

Lemma memory_get (s : kv) (l : bool) id b : kv_objects s !! id = Some b → get_object (mkMemory s l) id = Ok b.
Proof. intros Hb. unfold get_object, j_objects, memory_journal, memory_objects. cbn [mem_kv]. by rewrite Hb. Qed.

Lemma publishes0 p : p = plan0 → publishes flat_journal next_journal0 p.
Proof.
  intros ->. split.
  - apply memory_extends. apply (bool_decide_eq_true_1 (map_Forall _ (kv_objects flat0))). vm_compute. reflexivity.
  - assert (Forall (λ b, kv_objects next0 !! object_hash b = Some b) (objects plan0)) as Ho.
    { apply (bool_decide_eq_true_1 (Forall _ (objects plan0))). vm_compute. reflexivity. }
    rewrite Forall_forall in Ho. intros b Hb. by apply memory_get, Ho.
  - vm_compute. reflexivity.
Qed.

Lemma next0_no_zero : no_zero_object next_journal0.
Proof. intros b. vm_compute. discriminate. Qed.

Lemma run_codec_witness :
  ∃ b, encode_run change0 = Ok b ∧ decode_run b = Ok change0.
Proof.
  destruct (encode_run change0) as [b|m|] eqn:E; [|vm_compute in E; discriminate..].
  exists b. split; [done|]. apply (run_codec_roundtrip change0 b [] ∅); [apply change0_values|exact E].
Defined.

Lemma view_reads_witness :
  ∃ v', keys flat_journal prefix flat_view = (v', Ok (map_keys (flat_map flat0) prefix)).
Proof.
  destruct (view_reads_map flat_journal flat0 (flat_map flat0) flat_view root_key prefix
    (memory_stands flat0 false flat0_ok) I flat0_shows eq_refl eq_refl) as (_ & (v' & Hv' & _) & _). by exists v'.
Defined.


Definition frozen0 : Frozen := mkFrozen (flat_map flat0) [].
Definition compacted0 : Plan := match compact_frozen frozen0 with Ok p => p | _ => mkPlan [] [] 0 end.
Definition compacted_kv : kv := store_of 2 flat_roots (manifest compacted0 :: objects compacted0).

Lemma compaction_witness :
  ∃ v'', of_manifest (mkMemory compacted_kv false) (object_hash (manifest compacted0)) = Ok v'' ∧
    shows (mkMemory compacted_kv false) compacted_kv (flat_map flat0) v''.
Proof.
  apply (compaction_preserves_map flat_journal (mkMemory compacted_kv false) flat0 compacted_kv (flat_map flat0)
    flat_view flat_view frozen0 compacted0).
  - exact (memory_stands flat0 false flat0_ok).
  - exact I.
  - reflexivity.
  - intros b. vm_compute. discriminate.
  - exact flat0_shows.
  - vm_compute. reflexivity.
  - vm_compute. reflexivity.
  - split.
    + apply memory_extends. apply (bool_decide_eq_true_1 (map_Forall _ (kv_objects flat0))). vm_compute. reflexivity.
    + assert (Forall (λ b, kv_objects compacted_kv !! object_hash b = Some b) (objects compacted0)) as Ho.
      { apply (bool_decide_eq_true_1 (Forall _ (objects compacted0))). vm_compute. reflexivity. }
      rewrite Forall_forall in Ho. intros b Hb. by apply memory_get, Ho.
    + vm_compute. reflexivity.
Defined.

(** The tree of the metadata-tree examples, in a journal in memory, and its successor. *)
Definition tree_kv (more : list Bytes) : kv := mkKv 1 ∅ (hashed (more ++ (payload <$> subtrees tree1))).
Definition tree_journal : memory := mkMemory (tree_kv []) true.
Definition tree_view : view := mkView (Some editor1) false [] ∅.
Definition tree_plan : Plan := plan_of (plan tree_journal change_a false tree_view).
Definition tree_next : memory := mkMemory (tree_kv (manifest tree_plan :: objects tree_plan)) true.

(** The instance through which the views reach the objects. *)
#[local] Existing Instance j_objects | 0.

Definition closed_in (s : kv) (l : list (tree * Id)) : bool :=
  forallb (λ '(t, i),
      match kv_objects s !! i with
      | Some b => bool_decide (t = Leaf ∨ b ≠ payload t ∨ Forall (λ u, kv_objects s !! mid u = Some (payload u)) (subtrees t))
      | None => true
      end) l.
Definition closedb (s : kv) (U : list (Bytes * Id)) : bool := closed_in s (trees (length (remove_dups U.*1)) U).

Lemma closedb_ok s l U : closedb s U = true → closed_store (mkMemory s l) U.
Proof.
  unfold closedb, closed_in. rewrite forallb_forall. intros Hall t Ht Hne Hg u Hu.
  specialize (Hall (t, mid t)). cbv beta iota in Hall. cbn in Hg. destruct (kv_objects s !! mid t) as [b|]; [|done].
  cbn in Hg. injection Hg as ->. rewrite bool_decide_eq_true in Hall. destruct Hall as [?|[?|Hsub]]; [|done..|].
  - apply list_elem_of_In, trees_complete; [by apply tree_in_depth|done].
  - rewrite Forall_forall in Hsub. by apply memory_get, Hsub.
Qed.

(** Both checks of a universe over one enumeration. *)
Lemma universe_check s l U :
  (let ts := trees (length (remove_dups U.*1)) U in separated snd ts && closed_in s ts) = true →
  collision_free U ∧ closed_store (mkMemory s l) U.
Proof.
  cbv zeta. intros [Hs Hc]%andb_true_iff. split; [by apply collision_free_check|by apply closedb_ok].
Qed.

Lemma tree_editing : editing tree_journal small editor1 tree1.
Proof.
  apply (open_editing tree_journal small small_free small_ok).
  - assert (Forall (λ u, kv_objects (tree_kv []) !! mid u = Some (payload u)) (subtrees tree1)) as Hall.
    { apply (bool_decide_eq_true_1 (Forall _ (subtrees tree1))). vm_compute. reflexivity. }
    rewrite Forall_forall in Hall. intros u Hu. by apply memory_get, Hall.
  - exact tree1_in.
  - exact (proj2 tree1_treap).
  - apply (bool_decide_eq_true_1 (depth tree1 ≤ 256)%nat). vm_compute. reflexivity.
Qed.

Lemma tree_closed : closed_store tree_journal small.
Proof. apply closedb_ok. vm_compute. reflexivity. Qed.
Lemma tree_next_closed : closed_store tree_next small.
Proof. apply closedb_ok. vm_compute. reflexivity. Qed.

Lemma tree_plan_run : ∃ v', plan tree_journal change_a false tree_view = (v', Ok tree_plan).
Proof.
  assert (is_ok (plan tree_journal change_a false tree_view).2 = true) as Hok by (vm_compute; reflexivity).
  unfold tree_plan, plan_of. destruct (plan tree_journal change_a false tree_view) as [v' [p| |]]; [|done..].
  by exists v'.
Qed.

Lemma tree_publishes : publishes tree_journal tree_next tree_plan.
Proof.
  split.
  - apply memory_extends. apply (bool_decide_eq_true_1 (map_Forall _ (kv_objects (tree_kv [])))). vm_compute. reflexivity.
  - assert (Forall (λ b, kv_objects (mem_kv tree_next) !! object_hash b = Some b) (objects tree_plan)) as Ho.
    { apply (bool_decide_eq_true_1 (Forall _ (objects tree_plan))). vm_compute. reflexivity. }
    rewrite Forall_forall in Ho. intros b Hb. by apply memory_get, Ho.
  - vm_compute. reflexivity.
Qed.

Lemma tree_root : is_Some (apply_run change_a (to_map tree1) !! root_key).
Proof. apply (bool_decide_eq_true_1 (is_Some _)). vm_compute. reflexivity. Qed.

Lemma tree_plan_witness :
  ∃ v'', of_manifest tree_next (object_hash (manifest tree_plan)) = Ok v'' ∧
    shows tree_next empty_kv (apply_run change_a (to_map tree1)) v''.
Proof.
  destruct tree_plan_run as [v' Hrun].
  exact (tree_plan_refines_update tree_journal tree_next empty_kv small tree_view v' editor1 tree1 change_a false
    tree_plan small_free small_ok tree_closed tree_next_closed eq_refl eq_refl tree_editing change_a_acceptable
    Hrun tree_publishes tree_root).
Defined.
