(* ===== verification/Container.v ===== *)
(** * The container ([daemon/container.cpp], [daemon/container.h])

    The exclusive owner of a repository: the two anchors of the single-file format and the
    choice between them, creation, opening, the guarded object operations, checkpoints, the
    status report and the physical garbage collection.  The state shared by the namespaces of
    the repository (handles, cursors, open counts, the compaction queue) is the record
    [container]; [sys] adds what the operations consume from outside: the clock, the
    entropy source, and what other threads do while the lock is released. *)

From S2P Require Import Prelude Codec Journal LevelStore MetadataTree Store JournalFacade MetadataView.
Local Open Scope Z_scope.

Module Container.

(** ** Anchors *)

Definition anchor_size : Z := 4096.
Definition container_magic : Bytes := bs "FORKFS00".

(** [encode_le] into a buffer, and [decode_le] from an offset of one. *)
Definition encode_le (b : Bytes) (at_ : nat) (v : Z) (n : nat) : Bytes := memcpy b at_ (store v n).
Definition decode_le (b : Bytes) (at_ n : nat) : Z := load (drop at_ b) n.

(** [bool valid(const Anchor& a)] *)
Definition valid (a : Bytes) : bool :=
  bytes_eqb (slice 0 8 a) container_magic && (decode_le a 4092 4 =? crc (slice 0 4092 a)).

Definition zero_range (a : Bytes) (from to : nat) : bool := forallb (λ c, b2z c =? 0) (slice from (to - from) a).

(** [void supported(const Anchor& a)] *)
Definition supported (a : Bytes) : result unit :=
  need ((decode_le a 8 2 =? 0) && (decode_le a 10 2 =? 0)) "unsupported container version";;
  need (decode_le a 12 4 =? 4096) "unsupported anchor size";;
  need ((decode_le a 40 8 =? 0) && (decode_le a 48 8 =? 0)) "unsupported container features";;
  need (decode_le a 56 8 =? 16 * 1024 * 1024) "unsupported segment span";;
  (if decode_le a 64 8 =? 0 then
     need (zero_range a 64 120) "invalid empty checkpoint reference";;
     need (decode_le a 120 8 =? 65536) "invalid initial replay offset"
   else Ok tt);;
  need (zero_range a 136 4092) "nonzero reserved anchor field";;
  need (negb (zero_range a 16 32)) "invalid repository identity".

(** The anchor [create_legacy] writes, from the random identity and the clock. *)
Definition initial_anchor (identity : Bytes) (now : Z) : Bytes :=
  let a := zeros 4096 in
  let a := memcpy a 0 container_magic in
  let a := encode_le a 12 4096 4 in
  let a := memcpy a 16 identity in
  let a := encode_le a 32 1 8 in
  let a := encode_le a 56 (16 * 1024 * 1024) 8 in
  let a := encode_le a 120 65536 8 in
  let a := encode_le a 128 now 8 in
  encode_le a 4092 (crc (slice 0 4092 a)) 4.

(** [void Container::create_legacy(const std::string& path)]: the contents of the new file. *)
Definition create_legacy (identity : Bytes) (now : Z) : Bytes :=
  let a := initial_anchor identity now in
  memcpy (memcpy (zeros 65536) 0 a) 4096 a.

(** [void read_at(int fd, void* data, size_t n, off_t offset)] *)
Definition read_at (f : Bytes) (n offset : nat) : result Bytes :=
  if (offset + n <=? length f)%nat then Ok (slice offset n f) else Err "truncated container".

Definition generation (a : Bytes) : Z := decode_le a 32 8.

(** The choice between the two anchors: the chosen one, its offset, and [degraded_]. *)
Definition choose (a b : Bytes) : result (Bytes * Z * bool) :=
  let va := valid a in
  let vb := valid b in
  need (va || vb) "no valid container anchor";;
  (if va then supported a else Ok tt);;
  (if vb then supported b else Ok tt);;
  (if va && vb then
     need (bytes_eqb (slice 16 16 a) (slice 16 16 b)) "anchor identity mismatch";;
     if generation a =? generation b then
       need (bytes_eqb a b) "conflicting anchors at the same generation"
     else Ok tt
   else Ok tt);;
  let first := negb vb || (va && (generation b <=? generation a)) in
  Ok (if first then (a, 0, negb va || negb vb) else (b, 4096, negb va || negb vb)).

(** The checkpoint an anchor refers to. *)
Definition anchor_checkpoint (a : Bytes) : Journal.Checkpoint :=
  Journal.mkCheckpoint (decode_le a 64 8) (decode_le a 72 8) (decode_le a 80 8) (decode_le a 120 8)
    (slice 88 32 a).

(** The anchor [checkpoint] writes over the older of the two. *)
Definition next_anchor (a : Bytes) (c : Journal.Checkpoint) : Bytes :=
  let n := encode_le a 32 (generation a + 1) 8 in
  let n := encode_le n 64 (Journal.c_offset c) 8 in
  let n := encode_le n 72 (Journal.c_length c) 8 in
  let n := encode_le n 80 (Journal.c_sequence c) 8 in
  let n := memcpy n 88 (Journal.c_hash c) in
  let n := encode_le n 120 (Journal.c_replay_start c) 8 in
  encode_le n 4092 (crc (slice 0 4092 n)) 4.

(** ** Text *)

(** [std::to_string] of an unsigned 64-bit value. *)
Fixpoint digits (fuel : nat) (n : Z) (acc : Bytes) : Bytes :=
  match fuel with
  | O => acc
  | S fuel' =>
      let acc := z2b (48 + n mod 10) :: acc in
      if n / 10 =? 0 then acc else digits fuel' (n / 10) acc
  end.
Definition to_string (n : Z) : Bytes := digits 20 n [].

(** [std::string json_string(const std::string& value)] *)
Definition json_char (c : byte) : Bytes :=
  if bool_decide (b2z c = 34) || bool_decide (b2z c = 92) then [z2b 92; c]
  else if b2z c <? 32 then
    bs "\u00" ++ [hex_digit (Z.shiftr (b2z c) 4); hex_digit (Z.land (b2z c) 15)]
  else [c].
Definition json_string (value : Bytes) : Bytes := z2b 34 :: concat (json_char <$> value) ++ [z2b 34].

Definition json_bool (b : bool) : Bytes := if b then bs "true" else bs "false".

(** A JSON field: the name in quotes, a colon and the rendered value. *)
Definition json_field (name : string) (value : Bytes) : Bytes := z2b 34 :: bs name ++ z2b 34 :: z2b 58 :: value.
Definition json_text (value : Bytes) : Bytes := z2b 34 :: value ++ [z2b 34].

Fixpoint json_fields (l : list Bytes) : Bytes :=
  match l with [] => [] | [x] => x | x :: rest => x ++ z2b 44 :: json_fields rest end.
Definition json_object (l : list Bytes) : Bytes := z2b 123 :: json_fields l ++ [z2b 125].

(** ** Shared state *)

(** [struct LockRange {uint64_t start,end;unsigned char mode;}] *)
Record LockRange := mkRange { start : Z; end_ : Z; mode : Z }.
(** [struct Cursor {uint64_t position=0;std::vector<LockRange> locks;}] *)
Record Cursor := mkCursor { position : Z; locks : list LockRange }.
(** [struct OpenHandle]; the shared cursor is an address in the store of cursors. *)
Record OpenHandle := mkHandle {
  h_view : Bytes; h_inode : Bytes; h_revision : bool;
  h_readable : bool; h_writable : bool; h_append : bool; h_cursor : nat
}.

Record container (J : Type) := mkContainer {
  journal_ : J;
  id_ : Bytes;
  degraded_ : bool;
  anchor_ : Bytes;
  anchor_offset_ : Z;
  handles_ : gmap Bytes OpenHandle;
  cursors_ : gmap nat Cursor;
  open_counts_ : gmap (Bytes * Bytes) Z;
  directory_pins_ : gset nat;
  lifetime_ : nat;
  compaction_running_ : bool;
  compaction_stop_ : bool;
  compaction_active_ : bool;
  compaction_queue_ : list Bytes;
  compaction_pending_ : gset Bytes;
  compaction_completed_ : Z;
  compaction_races_ : Z;
  compaction_failures_ : Z;
  compaction_error_ : Bytes;
  compaction_world_failures_ : gmap Bytes Z;
}.
Arguments mkContainer {J} _ _ _ _ _ _ _ _ _ _ _ _ _ _ _ _ _ _ _ _.
Arguments journal_ {J}. Arguments id_ {J}. Arguments degraded_ {J}. Arguments anchor_ {J}.
Arguments anchor_offset_ {J}. Arguments handles_ {J}. Arguments cursors_ {J}. Arguments open_counts_ {J}.
Arguments directory_pins_ {J}. Arguments lifetime_ {J}. Arguments compaction_running_ {J}. Arguments compaction_stop_ {J}.
Arguments compaction_active_ {J}. Arguments compaction_queue_ {J}. Arguments compaction_pending_ {J}.
Arguments compaction_completed_ {J}. Arguments compaction_races_ {J}. Arguments compaction_failures_ {J}.
Arguments compaction_error_ {J}. Arguments compaction_world_failures_ {J}.

Section Updates.
Context {J : Type}.
Implicit Types c : container J.

Definition set_journal (j : J) c : container J :=
  mkContainer j (id_ c) (degraded_ c) (anchor_ c) (anchor_offset_ c) (handles_ c) (cursors_ c) (open_counts_ c)
    (directory_pins_ c) (lifetime_ c) (compaction_running_ c) (compaction_stop_ c) (compaction_active_ c) (compaction_queue_ c)
    (compaction_pending_ c) (compaction_completed_ c) (compaction_races_ c) (compaction_failures_ c)
    (compaction_error_ c) (compaction_world_failures_ c).
Definition set_anchor (a : Bytes) (offset : Z) (degraded : bool) c : container J :=
  mkContainer (journal_ c) (id_ c) degraded a offset (handles_ c) (cursors_ c) (open_counts_ c)
    (directory_pins_ c) (lifetime_ c) (compaction_running_ c) (compaction_stop_ c) (compaction_active_ c) (compaction_queue_ c)
    (compaction_pending_ c) (compaction_completed_ c) (compaction_races_ c) (compaction_failures_ c)
    (compaction_error_ c) (compaction_world_failures_ c).
Definition set_handles (h : gmap Bytes OpenHandle) (cs : gmap nat Cursor) (n : gmap (Bytes * Bytes) Z) c
    : container J :=
  mkContainer (journal_ c) (id_ c) (degraded_ c) (anchor_ c) (anchor_offset_ c) h cs n
    (directory_pins_ c) (lifetime_ c) (compaction_running_ c) (compaction_stop_ c) (compaction_active_ c) (compaction_queue_ c)
    (compaction_pending_ c) (compaction_completed_ c) (compaction_races_ c) (compaction_failures_ c)
    (compaction_error_ c) (compaction_world_failures_ c).
Definition set_pins (p : gset nat) c : container J :=
  mkContainer (journal_ c) (id_ c) (degraded_ c) (anchor_ c) (anchor_offset_ c) (handles_ c) (cursors_ c)
    (open_counts_ c) p (lifetime_ c) (compaction_running_ c) (compaction_stop_ c) (compaction_active_ c) (compaction_queue_ c)
    (compaction_pending_ c) (compaction_completed_ c) (compaction_races_ c) (compaction_failures_ c)
    (compaction_error_ c) (compaction_world_failures_ c).
Definition set_lifecycle (running stop active : bool) c : container J :=
  mkContainer (journal_ c) (id_ c) (degraded_ c) (anchor_ c) (anchor_offset_ c) (handles_ c) (cursors_ c)
    (open_counts_ c) (directory_pins_ c) (lifetime_ c) running stop active (compaction_queue_ c)
    (compaction_pending_ c) (compaction_completed_ c) (compaction_races_ c) (compaction_failures_ c)
    (compaction_error_ c) (compaction_world_failures_ c).
Definition set_queue (q : list Bytes) (p : gset Bytes) c : container J :=
  mkContainer (journal_ c) (id_ c) (degraded_ c) (anchor_ c) (anchor_offset_ c) (handles_ c) (cursors_ c)
    (open_counts_ c) (directory_pins_ c) (lifetime_ c) (compaction_running_ c) (compaction_stop_ c) (compaction_active_ c) q p
    (compaction_completed_ c) (compaction_races_ c) (compaction_failures_ c) (compaction_error_ c)
    (compaction_world_failures_ c).
Definition set_outcome (completed races failures : Z) (error : Bytes) (per_world : gmap Bytes Z) c : container J :=
  mkContainer (journal_ c) (id_ c) (degraded_ c) (anchor_ c) (anchor_offset_ c) (handles_ c) (cursors_ c)
    (open_counts_ c) (directory_pins_ c) (lifetime_ c) (compaction_running_ c) (compaction_stop_ c) (compaction_active_ c)
    (compaction_queue_ c) (compaction_pending_ c) completed races failures error per_world.

(** A container that has just been constructed around a journal; [lifetime_] is the identity
    of the container that directory cursors are compared with. *)
Definition opened (j : J) (id : Bytes) (degraded : bool) (a : Bytes) (offset : Z) : container J :=
  mkContainer j id degraded a offset ∅ ∅ ∅ ∅ 0 false false false [] ∅ 0 0 0 [] ∅.

(** Running an operation of the journal member. *)
Definition on_journal {A} (m : ST J A) : ST (container J) A := λ c,
  let '(j, r) := m (journal_ c) in (set_journal j c, r).
Definition ask {A} (f : J → result A) : ST (container J) A := λ c, (c, f (journal_ c)).

(** ** What an operation consumes from outside *)

(** The results of the clock and the entropy source to come, and what other threads do
    with the container before the lock is taken each time. *)
Record sys := mkSys {
  cont : container J;
  clock : list Z;
  entropy : list Bytes;
  others : list (container J → container J);
}.

Definition locked {A} (m : ST (container J) A) : ST sys A := λ s,
  let '(c, r) := m (cont s) in (mkSys c (clock s) (entropy s) (others s), r).

(** Taking the lock: other threads have used the container since it was last held. *)
Definition acquire : ST sys unit := λ s,
  (mkSys (match others s with f :: _ => f (cont s) | [] => cont s end) (clock s) (entropy s) (tail (others s)), Ok tt).

(** [uint64_t now()] *)
Definition now : ST sys Z := λ s,
  (mkSys (cont s) (tail (clock s)) (entropy s) (others s), Ok (default 0 (head (clock s)))).

(** Sixteen bytes of the entropy source, in hexadecimal. *)
Definition random_hex (message : string) : ST sys Bytes := λ s,
  match entropy s with
  | e :: rest => (mkSys (cont s) (clock s) rest (others s), Ok (hex_id e))
  | [] => (s, Err message)
  end.
End Updates.
Arguments sys : clear implicits.

(** ** Object operations *)

Section Operations.
Context `{Digest} {J : Type} `{JournalLike J}.

(** The test of [put] and [transact] against the keys of the filesystem. *)
Definition reserved (key : Bytes) : bool :=
  starts_with NamespaceView.prefix key || starts_with NamespaceView.history key.

(** [void Container::put(const std::string& key,const std::vector<unsigned char>& value)] *)
Definition put (key value : Bytes) : ST (container J) unit :=
  st_need (negb (reserved key)) "reserved filesystem key";;
  on_journal (j_put key value).

(** [std::vector<unsigned char> Container::get(const std::string& key) const] *)
Definition get (key : Bytes) : ST (container J) Bytes := ask (λ j, j_get j key).

(** [void Container::transact(uint64_t expected,const std::vector<Mutation>& mutations)] *)
Definition transact (expected : Z) (ms : list Journal.Mutation) : ST (container J) unit :=
  st_need (forallb (λ m, negb (reserved (Journal.m_key m))) ms) "reserved filesystem key";;
  on_journal (j_transact expected ms).

(** [Container::get_many(const std::vector<std::string>& keys) const] *)
Fixpoint get_many (keys : list Bytes) : ST (container J) (list Bytes) :=
  match keys with
  | [] => mret []
  | key :: rest => v ← get key; vs ← get_many rest; mret (v :: vs)
  end.

(** [void Container::verify() const] *)
Definition verify : ST (container J) unit := ask j_verify.

(** ** Garbage collection *)

(** The references of an object, by the kind under which it is traced: a revision (0), a
    manifest (1) or a tree node (2); the first list is traced further, the second marked. *)
Definition extract (b : Bytes) (at_ : nat) : result Id :=
  need (Z.of_nat at_ + 32 <=? len b) "truncated GC reference";; Ok (slice at_ 32 b).

Definition expand (kind : Z) (b : Bytes) : result (list (Id * Z) * list Id) :=
  if kind =? 0 then
    need ((len b =? 80) && bytes_eqb (slice 0 8 b) (bs "FFREV001")) "invalid GC revision";;
    m ← extract b 8; p ← extract b 40; Ok ([(m, 1); (p, 0)], [])
  else if kind =? 1 then
    need ((len b =? 40) && bytes_eqb (slice 0 8 b) (bs "FFTREE01")) "GC requires CoW tree manifests";;
    r ← extract b 8; Ok ([(r, 2)], [])
  else
    need ((108 <=? len b) && bytes_eqb (slice 0 8 b) (bs "FFTRNO01") && (decode_le b 8 4 =? len b - 108))
      "invalid GC tree node";;
    v ← extract b 12; l ← extract b 44; r ← extract b 76; Ok ([(l, 2); (r, 2)], [v]).

(** [trace]: the stack [pending] grows at its back; its back is the head of the list here. *)
Fixpoint trace (refs : list (Id * Z)) (pending : list (Id * Z)) : list (Id * Z) :=
  match refs with
  | [] => pending
  | (id, kind) :: rest => trace rest (if bool_decide (id = zero_id) then pending else (id, kind) :: pending)
  end.

Section Marking.
Context (j : J).

(** [mark]: the object must exist. *)
Fixpoint mark_all (ids : list Id) (live : gset Id) : result (gset Id) :=
  match ids with
  | [] => Ok live
  | id :: rest => get_object j id;; mark_all rest ({[id]} ∪ live)
  end.

(** The loop over the root keys: the registry, the marks and the references to trace. *)
Fixpoint mark_roots (keys : list Bytes) (registry : list Bytes) (live : gset Id) (pending : list (Id * Z))
    : result (list Bytes * gset Id * list (Id * Z)) :=
  match keys with
  | [] => Ok (registry, live, pending)
  | key :: rest =>
      let h := NamespaceView.history in
      if starts_with (h ++ bs "object/") key then mark_roots rest (registry ++ [key]) live pending
      else
        id ← j_root j key;
        b ← get_object j id;
        let live := {[id]} ∪ live in
        if starts_with (h ++ bs "world/") key then mark_roots rest registry live (trace [(id, 1)] pending)
        else if starts_with (h ++ bs "revision/") key then mark_roots rest registry live (trace [(id, 0)] pending)
        else if starts_with (h ++ bs "base/") key then
          need (len b =? 32) "invalid GC base";;
          p ← extract b 0;
          mark_roots rest registry live (trace [(p, 0)] pending)
        else mark_roots rest registry live pending
  end.

(** The loop [while(!pending.empty())]. *)
Fixpoint mark_pending (fuel : nat) (pending : list (Id * Z)) (expanded : gset (Id * Z)) (live : gset Id)
    : result (gset Id) :=
  match pending with
  | [] => Ok live
  | (id, kind) :: rest =>
      match fuel with
      | O => OutOfFuel
      | S fuel' =>
          if bool_decide ((id, kind) ∈ expanded) then mark_pending fuel' rest expanded live
          else
            b ← get_object j id;
            let live := {[id]} ∪ live in
            '(refs, marks) ← expand kind b;
            live ← mark_all marks live;
            mark_pending fuel' (trace refs rest) ({[(id, kind)]} ∪ expanded) live
      end
  end.

Fixpoint unreachable (registry : list Bytes) (live : gset Id) : result (list Bytes) :=
  match registry with
  | [] => Ok []
  | key :: rest =>
      id ← j_root j key;
      obsolete ← unreachable rest live;
      Ok (if bool_decide (id ∈ live) then obsolete else key :: obsolete)
  end.

(** Enough iterations: every object is expanded at most once per kind and adds at most two
    references. *)
Definition gc_fuel (pending : list (Id * Z)) : nat := length pending + 6 * size (object_ids j).

(** The mark phase: what to keep and which registry names to drop. *)
Definition mark : result (gset Id * list Bytes) :=
  keys ← j_keys j [];
  '(registry, live, pending) ← mark_roots keys [] ∅ [];
  live ← mark_pending (gc_fuel pending) pending ∅ live;
  obsolete ← unreachable registry live;
  Ok (live, obsolete).
End Marking.

(** [size_t Container::collect_garbage()] *)
Definition collect_garbage : ST (container J) Z :=
  c ← get_st;
  st_need (j_leveldb (journal_ c)) "physical GC requires LevelDB";;
  st_need (bool_decide (handles_ c = ∅) && negb (compaction_running_ c)) "GC requires an idle offline repository";;
  st_need (bool_decide (directory_pins_ c = ∅)) "GC requires closed directory cursors";;
  ask j_verify;;
  '(live, obsolete) ← ask mark;
  j ← gets journal_;
  removed ← on_journal (j_collect (j_sequence j) live obsolete);
  on_journal j_compact;;
  mret removed.
End Operations.

(** ** The single-file container *)

Section Files.
Context {db cache : Type} `{LevelDB db} `{Cache cache} `{Digest}.

(** [Container::Container(const std::string& path)] on the contents [f] of a regular file that
    this process has locked. *)
Definition open (f : Bytes) (script : list Journal.outcome) : result (container (backend db cache)) :=
  need (65536 <=? len f) "truncated container header";;
  a ← read_at f 4096 0;
  b ← read_at f 4096 4096;
  '(chosen, offset, degraded) ← choose a b;
  reserved ← read_at f 57344 8192;
  need (forallb (λ c, b2z c =? 0) reserved) "nonzero reserved container region";;
  let repository := slice 16 16 chosen in
  j ← Journal.open f repository (anchor_checkpoint chosen);
  Ok (opened (FileBacked (Journal.mkWorld (Journal.mkDevice f f script) j)) (hex_id repository) degraded chosen offset).

(** [write_at] and [durable] on the container file. *)
Definition write_at (at_ : Z) (b : Bytes) : ST Journal.device unit := λ d,
  match Journal.next_outcome d with
  | Journal.Torn k => (Journal.with_file (Journal.pwrite (Journal.file d) at_ (take k b)) d, Err "pwrite")
  | Journal.Done => (Journal.with_file (Journal.pwrite (Journal.file d) at_ b) d, Ok tt)
  end.
Definition durable : ST Journal.device unit := λ d,
  match Journal.next_outcome d with
  | Journal.Torn _ => (Journal.with_file (Journal.file d) d, Err "fsync")
  | Journal.Done => (Journal.mkDevice (Journal.file d) (Journal.file d) (tail (Journal.script d)), Ok tt)
  end.

(** The device behind a file-backed journal. *)
Definition on_fd {A} (m : ST Journal.device A) : ST (backend db cache) A := λ j,
  match j with
  | FileBacked w =>
      let '(d, r) := m (Journal.dev w) in (FileBacked (Journal.mkWorld d (Journal.jnl w)), r)
  | LevelBacked _ => (j, Err "pwrite")
  end.

(** [catch(...) { journal_->poison(); throw; }] *)
Definition poison_on_error {A} (m : ST (container (backend db cache)) A) : ST (container (backend db cache)) A := λ c,
  match m c with
  | (c', Ok a) => (c', Ok a)
  | (c', r) => (set_journal (j_poison (journal_ c')) c', r)
  end.

(** [anchor_offset_^4096] *)
Definition other_anchor (offset : Z) : Z := Z.lxor offset 4096.

(** [void Container::checkpoint()] *)
Definition checkpoint : ST (container (backend db cache)) unit :=
  c ← get_st;
  if j_leveldb (journal_ c) then on_journal j_compact
  else
    st_need (negb (generation (anchor_ c) =? UINT64_MAX)) "anchor generation exhausted";;
    cp ← on_journal j_checkpoint;
    let next := next_anchor (anchor_ c) cp in
    let target := other_anchor (anchor_offset_ c) in
    poison_on_error (
      on_journal (on_fd (write_at target next));;
      on_journal (on_fd durable);;
      modify (set_anchor next target false)).

(** [std::string Container::storage_engine() const] *)
Definition storage_engine (c : container (backend db cache)) : Bytes :=
  if j_leveldb (journal_ c) then bs "leveldb" else bs "legacy".

(** [std::string Container::storage_profile() const] *)
Definition storage_profile (prepare_ns : Z) (metrics : Bytes) : Bytes :=
  json_object [json_field "metadata_prepare_ns" (to_string prepare_ns); json_field "storage_metrics" metrics] ++ [z2b 10].

(** [struct statvfs], as far as it is reported, and [std::string Container::space_json() const] *)
Record statvfs := mkStatvfs { f_frsize : Z; f_blocks : Z; f_bfree : Z; f_bavail : Z; f_files : Z; f_ffree : Z }.
Definition space_json (st : statvfs) : Bytes :=
  json_object [
    json_field "block_size" (to_string (f_frsize st)); json_field "blocks" (to_string (f_blocks st));
    json_field "free_blocks" (to_string (f_bfree st)); json_field "available_blocks" (to_string (f_bavail st));
    json_field "files" (to_string (f_files st)); json_field "free_files" (to_string (f_ffree st))] ++ [z2b 10].

(** [std::string Container::status() const]; the timing fields are arguments. *)
Definition status (prepare_ns : Z) (metrics : Bytes) (c : container (backend db cache)) : Bytes :=
  let j := journal_ c in
  json_object [
    json_field "service" (json_text (bs "forkfsd"));
    json_field "state" (json_text (if j_leveldb j then bs "leveldb" else bs "object-journal"));
    json_field "storage_engine" (json_text (storage_engine c));
    json_field "repository_id" (json_text (id_ c));
    json_field "degraded_anchor" (json_bool (degraded_ c));
    json_field "mounted" (json_bool false);
    json_field "transactions_supported" (json_bool true);
    json_field "last_committed_seq" (to_string (j_sequence j));
    json_field "checkpoint_seq" (to_string (decode_le (anchor_ c) 80 8));
    json_field "replayed_transactions"
      (to_string (match j with FileBacked w => Journal.replayed_ (Journal.jnl w) | LevelBacked _ => 0 end));
    json_field "indexed_objects" (to_string (JournalFacade.objects j));
    json_field "object_roots" (to_string (JournalFacade.count j));
    json_field "compaction_running" (json_bool (compaction_running_ c));
    json_field "compaction_queued" (to_string (len (compaction_queue_ c)));
    json_field "compaction_active" (json_bool (compaction_active_ c));
    json_field "compaction_completed" (to_string (compaction_completed_ c));
    json_field "compaction_races" (to_string (compaction_races_ c));
    json_field "compaction_failures" (to_string (compaction_failures_ c));
    json_field "compaction_last_error" (json_string (compaction_error_ c));
    json_field "metadata_prepare_ns" (to_string prepare_ns);
    json_field "storage_metrics" metrics;
    json_field "uncommitted_tail"
      (json_bool (match j with FileBacked w => Journal.tail_ (Journal.jnl w) | LevelBacked _ => false end))]
  ++ [z2b 10].
End Files.
End Container.
