(* ===== verification/Anchors.v ===== *)
(** * The anchors of the single-file container

    The two anchors in front of the journal refer to its last checkpoint.  The anchor that a
    checkpoint writes is valid, supported, of the same repository and of the next generation,
    and refers to the checkpoint; two anchors of which the newer one is whole lead to it. *)

From S2P Require Import Prelude Codec Journal LevelStore MetadataTree Store JournalFacade MetadataView Container.
Import Container.
Local Open Scope Z_scope.

(** ** Buffers *)

Lemma decode_slice a at_ n : decode_le a at_ n = le_value (slice at_ n a).
Proof. unfold decode_le. by rewrite load_le_value. Qed.

Lemma decode_cong a b at_ n : slice at_ n a = slice at_ n b → decode_le a at_ n = decode_le b at_ n.
Proof. rewrite !decode_slice. by intros ->. Qed.

Lemma decode_store a at_ n v : slice at_ n a = store v n → 0 ≤ v < 256 ^ Z.of_nat n → decode_le a at_ n = v.
Proof. intros Hs Hv. rewrite decode_slice, Hs, le_value_store. by apply Z.mod_small. Qed.

(** A write leaves the slices beside it and is found in its place. *)
Lemma slice_beside N (b : Bytes) off src k at_ n : length b = N → length src = k → (off + k <=? N)%nat = true →
  ((at_ + n <=? off)%nat || (off + k <=? at_)%nat) = true → slice at_ n (memcpy b off src) = slice at_ n b.
Proof.
  intros Hb Hs Hfit%Nat.leb_le Hor%orb_prop. unfold slice, memcpy. destruct Hor as [Hl%Nat.leb_le|Hr%Nat.leb_le].
  - rewrite drop_app_le, take_app_le by (rewrite ?length_drop, length_take; lia).
    rewrite skipn_firstn_comm, take_take. f_equal. lia.
  - rewrite drop_app_ge by (rewrite length_take; lia). rewrite drop_app_ge by (rewrite length_take; lia).
    rewrite drop_drop, length_take. do 2 f_equal. lia.
Qed.

Lemma slice_there N (b : Bytes) off src k : length b = N → length src = k → (off + k <=? N)%nat = true →
  slice off k (memcpy b off src) = src.
Proof.
  intros Hb <- Hfit%Nat.leb_le. unfold slice, memcpy. rewrite drop_app_length' by (rewrite length_take; lia).
  apply take_app_length.
Qed.

Lemma length_put N (b : Bytes) off src k : length b = N → length src = k → (off + k <=? N)%nat = true →
  length (memcpy b off src) = N.
Proof. intros Hb Hs Hfit%Nat.leb_le. apply memcpy_length; [done|lia]. Qed.

(** ** The anchor a checkpoint writes *)

Section Next.
Context (a : Bytes) (c : Journal.Checkpoint).
Context (Ha : length a = 4096%nat) (Hhash : length (Journal.c_hash c) = 32%nat).

(** The new anchor before its checksum. *)
Definition unsealed : Bytes :=
  let n := encode_le a 32 (generation a + 1) 8 in
  let n := encode_le n 64 (Journal.c_offset c) 8 in
  let n := encode_le n 72 (Journal.c_length c) 8 in
  let n := encode_le n 80 (Journal.c_sequence c) 8 in
  let n := memcpy n 88 (Journal.c_hash c) in
  encode_le n 120 (Journal.c_replay_start c) 8.

Lemma next_sealed : next_anchor a c = encode_le unsealed 4092 (crc (slice 0 4092 unsealed)) 4.
Proof. reflexivity. Qed.

(** Lengths and bounds of the fields, evaluated. *)
Ltac field_length := first [exact Ha|exact Hhash|apply length_store|eapply length_put; [field_length|field_length|vm_compute; reflexivity]].
Ltac beside := erewrite (slice_beside 4096); [|field_length|field_length|vm_compute; reflexivity|vm_compute; reflexivity].
Ltac there := erewrite (slice_there 4096); [|field_length|field_length|vm_compute; reflexivity].
Ltac field := unfold unsealed, encode_le; cbv zeta; repeat beside; first [reflexivity|there; reflexivity].

Lemma unsealed_length : length unsealed = 4096%nat.
Proof. unfold unsealed, encode_le. cbv zeta. field_length. Qed.

Lemma next_length : length (next_anchor a c) = 4096%nat.
Proof. rewrite next_sealed. unfold encode_le. eapply length_put; [exact unsealed_length|apply length_store|vm_compute; reflexivity]. Qed.

(** The fields before the checksum are those of the unsealed anchor. *)
Lemma next_field at_ n : (at_ + n <=? 4092)%nat = true → slice at_ n (next_anchor a c) = slice at_ n unsealed.
Proof.
  intros Hb. rewrite next_sealed. unfold encode_le.
  erewrite (slice_beside 4096); [reflexivity|exact unsealed_length|apply length_store|vm_compute; reflexivity|].
  by rewrite Hb.
Qed.

Lemma next_magic : slice 0 8 (next_anchor a c) = slice 0 8 a.
Proof. rewrite next_field by reflexivity. field. Qed.
Lemma next_versions : slice 8 2 (next_anchor a c) = slice 8 2 a ∧ slice 10 2 (next_anchor a c) = slice 10 2 a.
Proof. split; rewrite next_field by reflexivity; field. Qed.
Lemma next_size : slice 12 4 (next_anchor a c) = slice 12 4 a.
Proof. rewrite next_field by reflexivity. field. Qed.
Lemma next_identity : slice 16 16 (next_anchor a c) = slice 16 16 a.
Proof. rewrite next_field by reflexivity. field. Qed.
Lemma next_features : slice 40 8 (next_anchor a c) = slice 40 8 a ∧ slice 48 8 (next_anchor a c) = slice 48 8 a ∧
  slice 56 8 (next_anchor a c) = slice 56 8 a.
Proof. split_and!; rewrite next_field by reflexivity; field. Qed.
Lemma next_reserved : slice 136 3956 (next_anchor a c) = slice 136 3956 a.
Proof. rewrite next_field by reflexivity. field. Qed.
Lemma next_generation_field : slice 32 8 (next_anchor a c) = store (generation a + 1) 8.
Proof. rewrite next_field by reflexivity. field. Qed.
Lemma next_checkpoint_fields :
  slice 64 8 (next_anchor a c) = store (Journal.c_offset c) 8 ∧ slice 72 8 (next_anchor a c) = store (Journal.c_length c) 8 ∧
  slice 80 8 (next_anchor a c) = store (Journal.c_sequence c) 8 ∧ slice 88 32 (next_anchor a c) = Journal.c_hash c ∧
  slice 120 8 (next_anchor a c) = store (Journal.c_replay_start c) 8.
Proof. split_and!; rewrite next_field by reflexivity; field. Qed.
End Next.

(** ** Whole anchors *)

(** An anchor of the repository [repo] that opening accepts. *)
Record whole (repo a : Bytes) : Prop := mkWhole {
  whole_length : length a = 4096%nat;
  whole_valid : valid a = true;
  whole_supported : supported a = Ok tt;
  whole_identity : slice 16 16 a = repo;
}.

(** A checkpoint whose fields fit an anchor. *)
Record describable (c : Journal.Checkpoint) : Prop := mkDescribable {
  desc_offset : 0 < Journal.c_offset c ≤ UINT64_MAX;
  desc_length : 0 ≤ Journal.c_length c ≤ UINT64_MAX;
  desc_sequence : 0 ≤ Journal.c_sequence c ≤ UINT64_MAX;
  desc_replay : 0 ≤ Journal.c_replay_start c ≤ UINT64_MAX;
  desc_hash : length (Journal.c_hash c) = 32%nat;
}.

Lemma u64_bound v : 0 ≤ v ≤ UINT64_MAX → 0 ≤ v < 256 ^ Z.of_nat 8.
Proof. unfold UINT64_MAX. change (256 ^ Z.of_nat 8) with 18446744073709551616. lia. Qed.

Lemma generation_bound a : 0 ≤ generation a ≤ UINT64_MAX.
Proof.
  unfold generation, decode_le. pose proof (load_bound (drop 32 a) 8) as Hb.
  change (256 ^ Z.of_nat 8) with 18446744073709551616 in Hb. unfold UINT64_MAX. lia.
Qed.

(** A sealed buffer with the magic is valid. *)
Lemma sealed_valid b : length b = 4096%nat → slice 0 8 b = container_magic →
  valid (encode_le b 4092 (crc (slice 0 4092 b)) 4) = true.
Proof.
  intros Hb Hm. unfold valid, encode_le, bytes_eqb.
  assert (∀ at_ n, (at_ + n <=? 4092)%nat = true →
    slice at_ n (memcpy b 4092 (store (crc (slice 0 4092 b)) 4)) = slice at_ n b) as Hs.
  { intros at_ n Hle. eapply (slice_beside 4096); [exact Hb|apply length_store|vm_compute; reflexivity|by rewrite Hle]. }
  rewrite !Hs by reflexivity. rewrite Hm, bool_decide_true by done. cbn [andb]. apply Z.eqb_eq. apply decode_store.
  - apply (slice_there 4096); [exact Hb|apply length_store|vm_compute; reflexivity].
  - apply crc_bound.
Qed.

(** The fields [supported] reads, the reference to the checkpoint apart. *)
Definition same_profile (a b : Bytes) : Prop :=
  slice 8 2 b = slice 8 2 a ∧ slice 10 2 b = slice 10 2 a ∧ slice 12 4 b = slice 12 4 a ∧ slice 40 8 b = slice 40 8 a ∧
  slice 48 8 b = slice 48 8 a ∧ slice 56 8 b = slice 56 8 a ∧ slice 136 3956 b = slice 136 3956 a ∧ slice 16 16 b = slice 16 16 a.

Lemma supported_cong a b : same_profile a b → decode_le b 64 8 ≠ 0 → supported a = Ok tt → supported b = Ok tt.
Proof.
  intros (E1 & E2 & E3 & E4 & E5 & E6 & E7 & E8) Hne Hsup. unfold supported, zero_range in *.
  change (4092 - 136)%nat with 3956%nat in *. change (32 - 16)%nat with 16%nat in *.
  rewrite (decode_cong b a 8 2 E1), (decode_cong b a 10 2 E2), (decode_cong b a 12 4 E3), (decode_cong b a 40 8 E4),
    (decode_cong b a 48 8 E5), (decode_cong b a 56 8 E6), E7, E8, (proj2 (Z.eqb_neq _ _) Hne).
  apply need_bind_Ok in Hsup as [-> Hsup]. apply need_bind_Ok in Hsup as [-> Hsup]. apply need_bind_Ok in Hsup as [-> Hsup].
  apply need_bind_Ok in Hsup as [-> Hsup]. apply bind_Ok in Hsup as ([] & _ & Hsup). exact Hsup.
Qed.

Lemma next_whole repo a c : whole repo a → generation a ≠ UINT64_MAX → describable c →
  whole repo (next_anchor a c) ∧ generation (next_anchor a c) = generation a + 1 ∧ anchor_checkpoint (next_anchor a c) = c.
Proof.
  intros [Hl Hv Hs Hi] Hg [Ho Hlen Hseq Hr Hh].
  destruct (next_checkpoint_fields a c Hl Hh) as (F1 & F2 & F3 & F4 & F5).
  destruct (next_versions a c Hl Hh) as [V1 V2]. destruct (next_features a c Hl Hh) as (V3 & V4 & V5).
  assert (decode_le (next_anchor a c) 64 8 = Journal.c_offset c) as Eo by (apply decode_store; [exact F1|apply u64_bound; lia]).
  split_and!.
  - split; [by apply next_length| | |by rewrite next_identity].
    + rewrite next_sealed. apply sealed_valid; [by apply unsealed_length|].
      rewrite <- (next_field a c Hl Hh) by reflexivity. rewrite next_magic by done.
      unfold valid in Hv. apply andb_prop in Hv as [Hv _]. by apply bool_decide_eq_true in Hv.
    + apply (supported_cong a); [|lia|done]. 
      exact (conj V1 (conj V2 (conj (next_size a c Hl Hh) (conj V3 (conj V4 (conj V5 (conj (next_reserved a c Hl Hh)
        (next_identity a c Hl Hh)))))))).
  - apply decode_store; [by apply next_generation_field|]. pose proof (generation_bound a). apply u64_bound. lia.
  - unfold anchor_checkpoint. rewrite Eo, F4.
    rewrite (decode_store _ 72 8 _ F2), (decode_store _ 80 8 _ F3), (decode_store _ 120 8 _ F5) by (apply u64_bound; lia).
    by destruct c.
Qed.

(** ** The anchor of a new container *)

Lemma slice_zeros N at_ n : (at_ + n <=? N)%nat = true → slice at_ n (zeros N) = zeros n.
Proof.
  intros Hle%Nat.leb_le. unfold slice, zeros. rewrite drop_replicate, take_replicate. f_equal. lia.
Qed.

Lemma zero_bytes n : forallb (λ c, b2z c =? 0) (zeros n) = true.
Proof. induction n as [|n IH]; [done|]. change (zeros (S n)) with (Byte.x00 :: zeros n). cbn [forallb]. by rewrite IH. Qed.

Section Initial.
Context (identity : Bytes) (now : Z) (Hid : length identity = 16%nat).

Definition unsealed_initial : Bytes :=
  let a := zeros 4096 in
  let a := memcpy a 0 container_magic in
  let a := encode_le a 12 4096 4 in
  let a := memcpy a 16 identity in
  let a := encode_le a 32 1 8 in
  let a := encode_le a 56 (16 * 1024 * 1024) 8 in
  let a := encode_le a 120 65536 8 in
  encode_le a 128 now 8.

Lemma initial_sealed : initial_anchor identity now = encode_le unsealed_initial 4092 (crc (slice 0 4092 unsealed_initial)) 4.
Proof. reflexivity. Qed.

Ltac field_length := first [exact Hid|apply length_zeros|reflexivity|apply length_store|eapply length_put; [field_length|field_length|vm_compute; reflexivity]].
Ltac beside := erewrite (slice_beside 4096); [|field_length|field_length|vm_compute; reflexivity|vm_compute; reflexivity].
Ltac there := erewrite (slice_there 4096); [|field_length|field_length|vm_compute; reflexivity].
Ltac field := unfold unsealed_initial, encode_le; cbv zeta; repeat beside; first [there; reflexivity|apply slice_zeros; vm_compute; reflexivity].

Lemma initial_length : length unsealed_initial = 4096%nat.
Proof. unfold unsealed_initial, encode_le. cbv zeta. field_length. Qed.

Lemma initial_field at_ n : (at_ + n <=? 4092)%nat = true → slice at_ n (initial_anchor identity now) = slice at_ n unsealed_initial.
Proof.
  intros Hb. rewrite initial_sealed. unfold encode_le.
  erewrite (slice_beside 4096); [reflexivity|exact initial_length|apply length_store|vm_compute; reflexivity|].
  by rewrite Hb.
Qed.

Lemma initial_magic : slice 0 8 unsealed_initial = container_magic.
Proof. field. Qed.
Lemma initial_zeros : let a := initial_anchor identity now in
  slice 8 2 a = zeros 2 ∧ slice 10 2 a = zeros 2 ∧ slice 40 8 a = zeros 8 ∧ slice 48 8 a = zeros 8 ∧ slice 64 56 a = zeros 56 ∧
  slice 136 3956 a = zeros 3956 ∧ slice 64 8 a = zeros 8 ∧ slice 72 8 a = zeros 8 ∧ slice 80 8 a = zeros 8 ∧ slice 88 32 a = zeros 32.
Proof. cbv zeta. split_and!; rewrite initial_field by reflexivity; field. Qed.
Lemma initial_values : slice 12 4 (initial_anchor identity now) = store 4096 4 ∧ slice 16 16 (initial_anchor identity now) = identity ∧
  slice 32 8 (initial_anchor identity now) = store 1 8 ∧ slice 56 8 (initial_anchor identity now) = store (16 * 1024 * 1024) 8 ∧
  slice 120 8 (initial_anchor identity now) = store 65536 8.
Proof. split_and!; rewrite initial_field by reflexivity; field. Qed.

Lemma decode_zeros b at_ n : slice at_ n b = zeros n → decode_le b at_ n = 0.
Proof.
  intros Hs. rewrite decode_slice, Hs. clear Hs. induction n as [|n IH]; [done|].
  change (zeros (S n)) with (Byte.x00 :: zeros n). cbn [le_value]. by rewrite IH.
Qed.

Ltac in_range := split; vm_compute; [discriminate|reflexivity].

(** A new container: a whole anchor of the first generation without a checkpoint. *)
Lemma initial_whole : existsb (λ c, negb (b2z c =? 0)) identity = true → let a := initial_anchor identity now in
  whole identity a ∧ generation a = 1 ∧ anchor_checkpoint a = Journal.no_checkpoint.
Proof.
  intros Hne. cbv zeta. destruct initial_zeros as (Z1 & Z2 & Z3 & Z4 & Z5 & Z6 & Z7 & Z8 & Z9 & Z10).
  destruct initial_values as (V1 & V2 & V3 & V4 & V5).
  assert (decode_le (initial_anchor identity now) 120 8 = 65536) as E120 by (apply decode_store; [exact V5|in_range]).
  split_and!.
  - split; [| | |exact V2].
    + rewrite initial_sealed. eapply length_put; [exact initial_length|apply length_store|vm_compute; reflexivity].
    + rewrite initial_sealed. apply sealed_valid; [exact initial_length|exact initial_magic].
    + unfold supported, zero_range. change (120 - 64)%nat with 56%nat. change (4092 - 136)%nat with 3956%nat.
      change (32 - 16)%nat with 16%nat. rewrite Z5, Z6, V2, E120, !zero_bytes.
      rewrite (decode_zeros _ 8 2 Z1), (decode_zeros _ 10 2 Z2), (decode_zeros _ 40 8 Z3), (decode_zeros _ 48 8 Z4), (decode_zeros _ 64 8 Z7).
      rewrite (decode_store _ 12 4 _ V1), (decode_store _ 56 8 _ V4) by in_range.
      assert (forallb (λ c, b2z c =? 0) identity = false) as ->; [|reflexivity].
      apply existsb_exists in Hne as (c & Hin & Hc). apply not_true_iff_false. intros Hall.
      rewrite forallb_forall in Hall. rewrite (Hall c Hin) in Hc. done.
  - apply decode_store; [exact V3|in_range].
  - unfold anchor_checkpoint. rewrite (decode_zeros _ 64 8 Z7), (decode_zeros _ 72 8 Z8), (decode_zeros _ 80 8 Z9), E120, Z10. reflexivity.
Qed.
End Initial.

(** ** The choice between the anchors *)

(** The other anchor is not valid, older, or the same. *)
Definition rival (repo a b : Bytes) : Prop := valid b = true → whole repo b ∧ (generation b < generation a ∨ b = a).

(** The two anchors in the order of the file, [a] at [offset]. *)
Definition ordered (offset : Z) (a b : Bytes) : Bytes * Bytes := if offset =? 0 then (a, b) else (b, a).

Lemma choose_newer repo offset a b : whole repo a → rival repo a b → offset = 0 ∨ offset = 4096 →
  ∃ offset' degraded, choose (ordered offset a b).1 (ordered offset a b).2 = Ok (a, offset', degraded) ∧
    (offset' = offset ∨ offset' = 0 ∧ b = a).
Proof.
  intros Ha Hb Ho. unfold ordered, choose. pose proof (whole_valid _ _ Ha) as Hva.
  destruct (valid b) eqn:Evb; cycle 1.
  { destruct Ho as [-> | ->]; cbn [Z.eqb fst snd]; rewrite Hva, Evb, (whole_supported _ _ Ha); cbn; eexists _, _; (split; [reflexivity|tauto]). }
  destruct (Hb Evb) as [Hwb Hold].
  destruct Ho as [-> | ->]; cbn [Z.eqb fst snd]; rewrite Hva, Evb, (whole_supported _ _ Ha), (whole_supported _ _ Hwb),
    (whole_identity _ _ Ha), (whole_identity _ _ Hwb); unfold bytes_eqb; rewrite (bool_decide_true (repo = repo)) by done;
    cbn [orb andb negb need mbind result_bind].
  - destruct Hold as [Hlt| ->].
    + rewrite (proj2 (Z.eqb_neq _ _)), (proj2 (Z.leb_le _ _)) by lia. cbn [mbind result_bind]. eexists _, _. split; [reflexivity|tauto].
    + rewrite Z.eqb_refl, Z.leb_refl, (bool_decide_true (a = a)) by done. cbn [mbind result_bind]. eexists _, _. split; [reflexivity|tauto].
  - destruct Hold as [Hlt| ->].
    + rewrite (proj2 (Z.eqb_neq _ _)), (proj2 (Z.leb_gt _ _)) by lia. cbn [mbind result_bind]. eexists _, _. split; [reflexivity|tauto].
    + rewrite Z.eqb_refl, Z.leb_refl, (bool_decide_true (a = a)) by done. cbn [mbind result_bind]. eexists _, _. split; [reflexivity|tauto].
Qed.
