(* ===== verification/ContainerRuns.v ===== *)
(** * Executions of the single-file container

    The operations on a container whose journal is a file, with failures of the device, torn
    writes, crashes and reopens: the invariant [sound] ties the container to an abstract store,
    through the anchor it would be reopened from. *)

From S2P Require Import Prelude Codec Treap Journal JournalRecord JournalReplay JournalCommit JournalTx.
From S2P Require Import JournalState JournalOps JournalCheckpoint JournalTransact JournalStore JournalRuns.
From S2P Require Import JournalHeader MetadataTree LevelStore LevelStoreProofs Store JournalFacade.
From S2P Require Import MetadataView Container Anchors.
Import Journal Container.
Local Open Scope Z_scope.

(** ** The region of the anchors *)

(** The anchor at an offset of the file. *)
Definition slot (offset : Z) (f : Bytes) : Bytes := slice (Z.to_nat offset) 4096 f.

(** The anchor [a] at [offset] leads, the other one is no rival, and the rest is zero. *)
Record leads (repo : Bytes) (offset : Z) (a h : Bytes) : Prop := mkLeads {
  lead_place : offset = 0 ∨ offset = 4096;
  lead_length : length h = nbase;
  lead_anchor : slot offset h = a;
  lead_whole : whole repo a;
  lead_rival : rival repo a (slot (other_anchor offset) h);
  lead_reserved : forallb (λ c, b2z c =? 0) (slice 8192 57344 h) = true;
}.

Lemma other_place offset : offset = 0 ∨ offset = 4096 → other_anchor offset = 0 ∨ other_anchor offset = 4096.
Proof. intros [-> | ->]; [by right|by left]. Qed.

Lemma other_other offset : offset = 0 ∨ offset = 4096 → other_anchor (other_anchor offset) = offset.
Proof. by intros [-> | ->]. Qed.

Lemma slice_front f at_ n : (at_ + n <=? nbase)%nat = true → slice at_ n (take nbase f) = slice at_ n f.
Proof.
  intros Hle%Nat.leb_le. unfold slice. rewrite skipn_firstn_comm, take_take. f_equal. lia.
Qed.

Lemma slot_front offset f : offset = 0 ∨ offset = 4096 → slot offset (take nbase f) = slot offset f.
Proof. intros [-> | ->]; apply slice_front; vm_compute; reflexivity. Qed.

(** Writing an anchor, or a part of it, leaves the other one and the rest. *)
Section Write.
Context (h b : Bytes) (offset : Z) (Hh : length h = nbase) (Ho : offset = 0 ∨ offset = 4096) (Hb : (length b <= 4096)%nat).

Definition overwritten : Bytes := memcpy h (Z.to_nat offset) b.

Lemma overwritten_fits : (Z.to_nat offset + length b <=? nbase)%nat = true.
Proof.
  clear Hh h. apply Nat.leb_le. pose proof nbase_base as Hn. unfold base in Hn. destruct Ho as [-> | ->]; lia.
Qed.

Lemma overwritten_length : length overwritten = nbase.
Proof. exact (length_put nbase h (Z.to_nat offset) b _ Hh eq_refl overwritten_fits). Qed.

Lemma overwritten_other : slot (other_anchor offset) overwritten = slot (other_anchor offset) h.
Proof.
  unfold slot, overwritten. apply (slice_beside nbase _ _ _ (length b)); [done..|exact overwritten_fits|].
  rewrite orb_true_iff, !Nat.leb_le. destruct Ho as [-> | ->];
    [change (other_anchor 0) with 4096|change (other_anchor 4096) with 0]; lia.
Qed.

Lemma overwritten_reserved : slice 8192 57344 overwritten = slice 8192 57344 h.
Proof.
  unfold overwritten. apply (slice_beside nbase _ _ _ (length b)); [done..|exact overwritten_fits|].
  rewrite orb_true_iff, !Nat.leb_le. right.
  assert (8192 = 4096 + 4096)%nat as -> by (vm_compute; reflexivity). destruct Ho as [-> | ->]; lia.
Qed.
End Write.

(** Writing an anchor of the file changes the region of the anchors only. *)
Lemma pwrite_anchor f b offset : (nbase ≤ length f)%nat → offset = 0 ∨ offset = 4096 → (length b <= 4096)%nat →
  beyond f (pwrite f offset b) ∧ take nbase (pwrite f offset b) = overwritten (take nbase f) b offset.
Proof.
  intros Hf Ho Hb. pose proof (overwritten_fits b offset Ho Hb) as Hfit%Nat.leb_le. unfold pwrite, overwritten, memcpy.
  set (o := Z.to_nat offset) in *. case_bool_decide as Hnil.
  { rewrite Hnil. cbn [app length]. rewrite Nat.add_0_r, take_drop. done. }
  rewrite take_app_le by lia. split; [split|].
  - unfold len. rewrite !length_app, length_take, length_drop. lia.
  - rewrite drop_app_ge by (rewrite length_take; lia). rewrite drop_app_ge by (rewrite length_take; lia).
    rewrite drop_drop, length_take. f_equal. lia.
  - rewrite take_app_ge by (rewrite length_take; lia). rewrite take_app_ge by (rewrite length_take; lia).
    rewrite take_take, Nat.min_l by lia. do 2 f_equal. rewrite skipn_firstn_comm, length_take. f_equal. lia.
Qed.

(** The anchor [next] written over the other one, or a part of it. *)
Section Overwrite.
Context (repo : Bytes) (offset : Z) (a next h b : Bytes) (Hl : leads repo offset a h) (Hnext : whole repo next).
Context (Hgen : generation a < generation next) (Hb : (length b <= 4096)%nat).
Let t := other_anchor offset.
Let h' := overwritten h b t.

Lemma overwritten_kept : length h' = nbase ∧ slot offset h' = a ∧ forallb (λ c, b2z c =? 0) (slice 8192 57344 h') = true.
Proof.
  destruct Hl as [Hp Hlen Ha Hw Hr Hres]. pose proof (other_place offset Hp) as Ht. split_and!.
  - exact (overwritten_length h b t Hlen Ht Hb).
  - pose proof (overwritten_other h b t Hlen Ht Hb) as E. unfold t in E. rewrite other_other in E by exact Hp. by rewrite <- Ha.
  - unfold h'. rewrite (overwritten_reserved h b t Hlen Ht Hb). exact Hres.
Qed.

(** When all of it is there, it leads. *)
Lemma leads_next : slot t h' = next → leads repo t next h'.
Proof.
  intros En. destruct overwritten_kept as (Hlen' & Ha' & Hres'). destruct Hl as [Hp Hlen Ha Hw Hr Hres].
  split; [exact (other_place offset Hp)|exact Hlen'|exact En|exact Hnext| |exact Hres'].
  intros _. unfold t. rewrite other_other, Ha' by exact Hp. split; [exact Hw|left; exact Hgen].
Qed.

(** Otherwise the old anchor leads. *)
Lemma leads_either : (valid (slot t h') = true → slot t h' = slot t h ∨ slot t h' = next) →
  leads repo offset a h' ∨ leads repo t next h'.
Proof.
  intros Hslot. destruct (decide (slot t h' = next)) as [En|Nn]; [right; by apply leads_next|left].
  destruct overwritten_kept as (Hlen' & Ha' & Hres'). destruct Hl as [Hp Hlen Ha Hw Hr Hres].
  split; [exact Hp|exact Hlen'|exact Ha'|exact Hw| |exact Hres'].
  intros Hv. destruct (Hslot Hv) as [E|E]; [|contradiction]. fold t. rewrite E. apply Hr. unfold t in Hv, E. rewrite <- E. exact Hv.
Qed.
End Overwrite.

Section Runs.
Context {db cache : Type} `{LevelDB db} `{Cache cache} `{DigestOk}.
Implicit Types c : container (backend db cache).

(** ** Opening *)

Lemma read_front f n at_ : (nbase ≤ length f)%nat → (at_ + n <=? nbase)%nat = true → read_at f n at_ = Ok (slice at_ n (take nbase f)).
Proof.
  intros Hf Hle. rewrite slice_front by done. unfold read_at. apply Nat.leb_le in Hle. by rewrite (proj2 (Nat.leb_le _ _)) by lia.
Qed.

Lemma front_fits : (0 + 4096 <=? nbase)%nat = true ∧ (4096 + 4096 <=? nbase)%nat = true ∧ (8192 + 57344 <=? nbase)%nat = true.
Proof. vm_compute. auto. Qed.

(** The same anchor in both places leads in either. *)
Lemma leads_first repo offset a h : leads repo offset a h → slot (other_anchor offset) h = a → leads repo 0 a h.
Proof.
  intros [[-> | ->] Hlen Ha Hw Hr Hres] Hb; [split; [left; reflexivity|exact Hlen|exact Ha|exact Hw|exact Hr|exact Hres]|].
  split; [left; reflexivity|exact Hlen|exact Hb|exact Hw| |exact Hres].
  intros _. change (other_anchor 0) with 4096. rewrite Ha. split; [exact Hw|right; reflexivity].
Qed.

Lemma leads_choice repo offset a h : leads repo offset a h → ∃ offset' degraded,
  choose (slice 0 4096 h) (slice 4096 4096 h) = Ok (a, offset', degraded) ∧ leads repo offset' a h.
Proof.
  intros Hl. destruct (choose_newer repo offset a _ (lead_whole _ _ _ _ Hl) (lead_rival _ _ _ _ Hl) (lead_place _ _ _ _ Hl))
    as (offset' & degraded & Hch & Hoff).
  exists offset', degraded. split.
  - rewrite <- Hch. rewrite <- (lead_anchor _ _ _ _ Hl) at 1 2. destruct (lead_place _ _ _ _ Hl) as [-> | ->]; reflexivity.
  - destruct Hoff as [-> |[-> Hb]]; [exact Hl|]. exact (leads_first _ _ _ _ Hl Hb).
Qed.

(** What opening reads decides what it gives. *)
Lemma open_through (F a0 b0 r0 : Bytes) (script : list outcome) repo offset a degraded j : (65536 <=? len F) = true →
  read_at F 4096 0 = Ok a0 → read_at F 4096 4096 = Ok b0 → choose a0 b0 = Ok (a, offset, degraded) →
  read_at F 57344 8192 = Ok r0 → forallb (λ x, b2z x =? 0) r0 = true → slice 16 16 a = repo →
  Journal.open F repo (anchor_checkpoint a) = Ok j →
  Container.open F script =
    Ok (opened (FileBacked (mkWorld (mkDevice F F script) j) : backend db cache) (hex_id repo) degraded a offset).
Proof.
  intros E1 E2 E3 E4 E5 E6 E7 E8. unfold Container.open. rewrite E1. cbn [need mbind result_bind]. rewrite E2.
  cbn [mbind result_bind]. rewrite E3. cbn [mbind result_bind]. rewrite E4. cbn [mbind result_bind]. rewrite E5.
  cbn [mbind result_bind]. rewrite E6. cbn [need mbind result_bind]. rewrite E7, E8. reflexivity.
Qed.

(** Contents with a leading anchor open when their journal does. *)
Lemma open_leads repo offset a F script j : (nbase ≤ length F)%nat → leads repo offset a (take nbase F) →
  Journal.open F repo (anchor_checkpoint a) = Ok j → ∃ offset' degraded,
  Container.open F script =
    Ok (opened (FileBacked (mkWorld (mkDevice F F script) j) : backend db cache) (hex_id repo) degraded a offset') ∧
  leads repo offset' a (take nbase F).
Proof.
  intros HF Hl Hj. destruct (leads_choice _ _ _ _ Hl) as (offset' & degraded & Hch & Hl').
  exists offset', degraded. split; [|exact Hl']. destruct front_fits as (F1 & F2 & F3).
  assert ((65536 <=? len F) = true) as HF' by (apply Z.leb_le; pose proof nbase_base; unfold base, len in *; lia).
  exact (open_through F _ _ _ script repo offset' a degraded j HF' (read_front F 4096 0 HF F1) (read_front F 4096 4096 HF F2) Hch
    (read_front F 57344 8192 HF F3) (lead_reserved _ _ _ _ Hl) (whole_identity _ _ (lead_whole _ _ _ _ Hl)) Hj).
Qed.

(** ** The invariant *)

(** A live container: its journal represents [s], and its file would be reopened through the
    anchor it holds. *)
Record sound (c : container (backend db cache)) (w : world) (s : kv) : Prop := mkSound {
  sound_journal : journal_ c = FileBacked w;
  sound_inv : ∃ l f, inv (anchor_checkpoint (anchor_ c)) w l f ∧ abs f (jnl w) = s;
  sound_front : ∃ h, fronted h w ∧ leads (repository_ (jnl w)) (anchor_offset_ c) (anchor_ c) h;
}.

Lemma recovers_size F repo cp j : recovers F repo cp j → (nbase ≤ length F)%nat.
Proof.
  intros [r Ho]. unfold Journal.open in Ho. apply need_bind_Ok in Ho as [Hl%Z.leb_le _].
  pose proof nbase_base. unfold len in Hl. lia.
Qed.

(** Contents that reopen to a store, with a leading anchor that refers to them, open to a live
    container. *)
Lemma open_sound repo offset a F s : leads repo offset a (take nbase F) → reopens_to (anchor_checkpoint a) repo F s →
  ∀ script, ∃ c w, Container.open F script = Ok c ∧ sound c w s ∧ repository_ (jnl w) = repo.
Proof.
  intros Hl Hre script. destruct (Hre script) as (j & l & f & Ho & Hi & Hs).
  pose proof (recovers_size _ _ _ _ (inv_reopen _ _ _ _ Hi)) as HF. cbn [dev file] in HF.
  destruct (open_leads repo offset a F script j HF Hl Ho) as (offset' & degraded & Hop & Hl').
  assert (repository_ j = repo) as Hrepo by (by apply (open_repository F repo (anchor_checkpoint a))).
  eexists _, (mkWorld (mkDevice F F script) j). split; [exact Hop|]. split; [|exact Hrepo].
  split; [reflexivity|exists l, f; split; [exact Hi|exact Hs]|]. exists (take nbase F).
  split; [split; reflexivity|]. cbn [jnl]. rewrite Hrepo. exact Hl'.
Qed.

(** ** Operations *)

(** What a container does to its store: the operations of its journal, which [Container::put],
    [Container::transact] and the commits of the filesystem run, and the checkpoint. *)
Definition perform (o : op) : ST (container (backend db cache)) unit :=
  match o with
  | OpPut key value => on_journal (j_put key value)
  | OpTransact expected ms => on_journal (j_transact expected ms)
  | OpCheckpoint => Container.checkpoint
  end.

(** The contents [F] after an interruption have in the place of the other anchor what was there,
    the anchor of the checkpoint, or something that is not valid: a mixture of the two does not
    pass the checksum. *)
Definition intact (c : container (backend db cache)) (w : world) (F : Bytes) : Prop :=
  let b := slot (other_anchor (anchor_offset_ c)) F in
  valid b = true → b = slot (other_anchor (anchor_offset_ c)) (file (dev w)) ∨
    ∃ w' cp, Journal.checkpoint w = (w', Ok cp) ∧ b = next_anchor (anchor_ c) cp.

(** The outcome of an operation that turns the store [s] into [s']: it is done; or refused and
    nothing has changed; or interrupted, and then what is visible or durable opens to a live
    container of [s] or of [s']. *)
Definition crash_safe {A} (c : container (backend db cache)) (w : world) (s s' : kv)
    (out : container (backend db cache) * result A) : Prop :=
  match out with
  | (c', Ok _) => ∃ w', sound c' w' s'
  | (c', Err _) =>
      c' = c ∨ ∃ w', journal_ c' = FileBacked w' ∧ poisoned_ (jnl w') = true ∧
        ∀ F, F = file (dev w') ∨ F = Journal.durable (dev w') → intact c w F →
        ∀ script, ∃ c'' w'', Container.open F script = Ok c'' ∧ (sound c'' w'' s ∨ sound c'' w'' s')
  | (_, OutOfFuel) => False
  end.

Lemma set_journal_same (c : container (backend db cache)) w : journal_ c = FileBacked w → set_journal (FileBacked w) c = c.
Proof. destruct c. cbn. by intros ->. Qed.

(** An operation of the journal, in the container. *)
Lemma journal_safe {A} (m : ST world A) (mj : ST (backend db cache) A) c w s s' : sound c w s →
  mj (FileBacked w) = JournalFacade.on_file m w →
  atomic (anchor_checkpoint (anchor_ c)) w s s' (m w) →
  (∀ h, length h = nbase → fronted h w → fronted h (m w).1) →
  crash_safe c w s s' (on_journal mj c).
Proof.
  intros [Hj _ (h & Hfr & Hl)] Hm Ha Hfront. unfold on_journal. rewrite Hj, Hm. unfold JournalFacade.on_file.
  specialize (Hfront h (lead_length _ _ _ _ Hl) Hfr). destruct (m w) as [w' [a|msg|]]; cbn [fst] in Hfront; [| |exact Ha].
  - destruct Ha as [(l & f & Hi & Hs) Hrepo]. exists w'. split; [reflexivity|exists l, f; split; [exact Hi|exact Hs]|].
    exists h. split; [exact Hfront|]. rewrite Hrepo. exact Hl.
  - destruct Ha as [-> |[Hp Ha]]; [left; by apply set_journal_same|]. right. exists w'. split_and!; [reflexivity|exact Hp|].
    intros F HF _ script. assert (take nbase F = h) as Hh by (destruct Hfront, HF as [-> | ->]; assumption).
    rewrite <- Hh in Hl. destruct (Ha F HF) as [Hre|Hre];
      destruct (open_sound _ _ _ _ _ Hl Hre script) as (c'' & w'' & Ho & Hs & _); exists c'', w'';
      (split; [exact Ho|]); [left|right]; exact Hs.
Qed.

(** ** The checkpoint *)

(** The descriptor of a checkpoint fits an anchor. *)
Lemma checkpoint_describable cp0 w l f w' cp :
  inv cp0 w l f → ids_nonzero (jnl w) → Journal.checkpoint w = (w', Ok cp) → describable cp.
Proof.
  intros Hi Hids Hc. unfold Journal.checkpoint in Hc. apply st_bind_Ok in Hc as (j & w1 & Hj & Hc). injection Hj as <- <-.
  apply st_lift_Ok in Hc as ([] & _ & Hc). apply st_need_Ok in Hc as [Hsz%Z.leb_le Hc].
  cbv zeta in Hc. destruct (placement _ _) as [ns at0] eqn:Ep.
  apply st_need_Ok in Hc as [Hoff%Z.leb_le Hc].
  destruct (placement_base _ _ _ _ (wf_end _ (inv_wf _ _ _ _ Hi)) Ep) as [Hb Hb'].
  assert (restorable f (jnl w)) as Hr by (split; [apply Hi..|exact Hids|exact Hsz]).
  pose proof (checkpoint_recordable f _ Hr) as Hrec. 
  pose proof (length_record 5 (seq_ (jnl w)) (checkpoint_payload (jnl w)) zero_id (rec_oid _ _ _ _ Hrec)) as Hlen.
  pose proof (rec_length _ _ _ _ Hrec) as Hmax. rewrite <- Hlen in Hmax.
  set (e := record 5 (seq_ (jnl w)) (checkpoint_payload (jnl w)) zero_id) in *. pose proof (len_nonneg e).
  unfold Journal.poison_on_error in Hc.
  match type of Hc with context [match ?m with _ => _ end] => destruct m as [w5 [c| |]] eqn:E end; [|done..].
  injection Hc as <- <-. do 4 (apply st_bind_Ok in E as ([] & ? & _ & E)). apply st_bind_Ok in E as ([] & w6 & _ & E).
  injection E as _ <-. pose proof (wf_seq _ (inv_wf _ _ _ _ Hi)) as Hseq.
  unfold OFF_MAX, INT64_MAX, UINT64_MAX, base, span, header in *.
  split; cbn [c_offset c_length c_sequence c_replay_start c_hash]; 
    [destruct ns; unfold UINT64_MAX; lia..|apply digest_length].
Qed.

(** Writing the new anchor, from a journal that reopens through either anchor. *)
Section Anchor.
Context (c : container (backend db cache)) (w w1 : world) (cp : Checkpoint) (s : kv) (h : Bytes).
Let a := anchor_ c.
Let next := next_anchor a cp.
Let t := other_anchor (anchor_offset_ c).
Let repo := repository_ (jnl w).
Context (Hcp : Journal.checkpoint w = (w1, Ok cp)) (Hrepo : repository_ (jnl w1) = repo).
Context (Hold : ∃ l f, inv (anchor_checkpoint a) w1 l f ∧ abs f (jnl w1) = s).
Context (Hnew : ∃ l f, inv cp w1 l f ∧ abs f (jnl w1) = s).
Context (Hfr : fronted h w) (Hfr1 : fronted h w1) (Hl : leads repo (anchor_offset_ c) a h).
Context (Hgen : generation a ≠ UINT64_MAX) (Hd : describable cp).

Lemma next_newer : whole repo next ∧ generation a < generation next ∧ anchor_checkpoint next = cp.
Proof.
  destruct (next_whole repo a cp (lead_whole _ _ _ _ Hl) Hgen Hd) as (Hw & Hg & Hc). fold next in Hw, Hg, Hc.
  split_and!; [exact Hw|lia|exact Hc].
Qed.

(** The contents of the file or of its durable part, with the journal they reopen to. *)
Lemma both_reopen F : F = file (dev w1) ∨ F = Journal.durable (dev w1) →
  reopens_to (anchor_checkpoint a) repo F s ∧ reopens_to cp repo F s.
Proof.
  destruct Hold as (l & f & Hi & Hs), Hnew as (l' & f' & Hi' & Hs'). intros HF. rewrite <- Hrepo.
  destruct (inv_reopens _ _ _ _ Hi) as [R1 R2], (inv_reopens _ _ _ _ Hi') as [R1' R2'].
  split; [rewrite <- Hs|rewrite <- Hs']; apply reopens_abs; destruct HF as [-> | ->]; assumption.
Qed.

(** Any part of the new anchor that reached the file leaves contents that open. *)
Lemma torn_opens k script : let F := pwrite (file (dev w1)) t (take k next) in intact c w F →
  ∃ c' w', Container.open F script = Ok c' ∧ sound c' w' s.
Proof.
  intros F Hin. destruct next_newer as (Hwn & Hg & Hcn). pose proof (other_place _ (lead_place _ _ _ _ Hl)) as Ht.
  destruct (both_reopen _ (or_introl eq_refl)) as [Hra Hrc].
  destruct Hold as (l & f & Hi & _). pose proof (recovers_size _ _ _ _ (inv_reopen _ _ _ _ Hi)) as Hsize.
  assert (length (take k next) <= 4096)%nat as Hk by (rewrite length_take, (whole_length _ _ Hwn); lia).
  destruct (pwrite_anchor (file (dev w1)) (take k next) t Hsize Ht Hk) as [Hby Hfront]. fold F in Hby, Hfront.
  rewrite (proj1 Hfr1) in Hfront.
  destruct (leads_either repo _ a next h (take k next) Hl Hwn Hg Hk) as [Hle|Hle]; fold t; rewrite <- ?Hfront.
  - rewrite slot_front by exact Ht. intros Hv. destruct (Hin Hv) as [E|(w' & cp' & Ec & E)]; fold t in E; rewrite E.
    + left. by rewrite <- (proj1 Hfr), slot_front.
    + right. rewrite Hcp in Ec. by injection Ec as _ <-.
  - fold t in Hle. rewrite <- Hfront in Hle.
    destruct (open_sound _ _ _ _ _ Hle (reopens_to_beyond _ _ _ _ _ Hby Hra) script) as (c' & w' & Ho & Hs & _). eauto.
  - fold t in Hle. rewrite <- Hfront in Hle. rewrite <- Hcn in Hrc.
    destruct (open_sound _ _ _ _ _ Hle (reopens_to_beyond _ _ _ _ _ Hby Hrc) script) as (c' & w' & Ho & Hs & _). eauto.
Qed.

(** What was durable before opens through the old anchor. *)
Lemma durable_opens script : ∃ c' w', Container.open (Journal.durable (dev w1)) script = Ok c' ∧ sound c' w' s.
Proof.
  destruct (both_reopen _ (or_intror eq_refl)) as [Hra _]. pose proof Hl as Hl'. rewrite <- (proj2 Hfr1) in Hl'.
  destruct (open_sound _ _ _ _ _ Hl' Hra script) as (c' & w' & Ho & Hs & _). eauto.
Qed.

(** The new anchor in place and durable. *)
Lemma anchored d : file d = pwrite (file (dev w1)) t next → Journal.durable d = file d →
  sound (set_anchor next t false (set_journal (FileBacked (mkWorld d (jnl w1))) c)) (mkWorld d (jnl w1)) s.
Proof.
  intros Hf Hdur. destruct next_newer as (Hwn & Hg & Hcn). pose proof (other_place _ (lead_place _ _ _ _ Hl)) as Ht.
  destruct Hnew as (l & f & Hi & Hs). pose proof (recovers_size _ _ _ _ (inv_reopen _ _ _ _ Hi)) as Hsize.
  assert (length next <= 4096)%nat as Hk by (rewrite (whole_length _ _ Hwn); lia).
  destruct (pwrite_anchor (file (dev w1)) next t Hsize Ht Hk) as [Hby Hfront]. rewrite <- Hf, (proj1 Hfr1) in *.
  destruct (inv_beyond cp _ l f (file d) (file d) (script d) (inv_sync _ _ _ _ (script d) Hi) Hby Hby eq_refl) as (f' & Hi' & Ha).
  destruct d as [df dd ds]. cbn [file Journal.durable script] in *. subst dd. split; [reflexivity| |].
  - exists l, f'. cbn [anchor_ set_anchor]. rewrite Hcn. split; [exact Hi'|]. cbn [jnl] in *. rewrite Ha. exact Hs.
  - exists (take nbase df). split; [split; reflexivity|]. cbn [anchor_ anchor_offset_ set_anchor jnl]. rewrite Hrepo, Hfront.
    apply (leads_next repo (anchor_offset_ c) a next h next Hl Hwn Hg Hk). fold t. unfold slot, overwritten.
    apply (slice_there nbase); [apply (lead_length _ _ _ _ Hl)|apply Hwn|].
    rewrite <- (whole_length _ _ Hwn). apply overwritten_fits; [exact Ht|exact Hk].
Qed.

(** The outcomes of the writes of [checkpoint]. *)
Lemma write_at_cases at_ b d :
  (∃ k, write_at at_ b d = (with_file (pwrite (file d) at_ (take k b)) d, Err "pwrite")) ∨
  write_at at_ b d = (with_file (pwrite (file d) at_ b) d, Ok tt).
Proof. unfold write_at. destruct (next_outcome d) as [|k]; [by right|left; by exists k]. Qed.

Lemma durable_cases d :
  Container.durable d = (with_file (file d) d, Err "fsync") ∨
  Container.durable d = (mkDevice (file d) (file d) (tail (script d)), Ok tt).
Proof. unfold Container.durable. destruct (next_outcome d); [by right|by left]. Qed.

(** An interruption that left the new anchor [F] in the file and the old one durable. *)
Lemma anchor_interrupted k d : file d = pwrite (file (dev w1)) t (take k next) → Journal.durable d = Journal.durable (dev w1) →
  ∀ F, F = file d ∨ F = Journal.durable d → intact c w F →
  ∀ script, ∃ c' w', Container.open F script = Ok c' ∧ (sound c' w' s ∨ sound c' w' s).
Proof.
  intros Hf Hdur F [-> | ->] Hin script; [rewrite Hf in *; destruct (torn_opens k script Hin) as (c' & w' & Ho & Hs)|
    rewrite Hdur; destruct (durable_opens script) as (c' & w' & Ho & Hs)]; exists c', w'; auto.
Qed.

Lemma anchor_phase : crash_safe c w s s (poison_on_error (
  on_journal (on_fd (write_at t next));; on_journal (on_fd Container.durable);;
  modify (set_anchor next t false)) (set_journal (FileBacked w1) c)).
Proof.
  unfold poison_on_error, mbind, st_bind, on_journal, on_fd, modify. cbn [set_journal journal_].
  destruct (write_at_cases t next (dev w1)) as [[k Ew]|Ew]; rewrite Ew.
  - right. eexists. split; [reflexivity|]. split; [reflexivity|]. apply (anchor_interrupted k); reflexivity.
  - cbn [journal_ set_journal dev jnl]. set (d1 := with_file (pwrite (file (dev w1)) t next) (dev w1)).
    destruct (durable_cases d1) as [Ed|Ed]; rewrite Ed.
    + right. eexists. split; [reflexivity|]. split; [reflexivity|]. apply (anchor_interrupted (length next)); [|reflexivity].
      rewrite firstn_all. reflexivity.
    + eexists. apply (anchored (mkDevice (file d1) (file d1) (tail (script d1)))); reflexivity.
Qed.
End Anchor.

(** A bind of which the first part is crash safe and keeps the store, and the second is from where it
    succeeded. *)
Lemma safe_bind {A B} (m : ST (container (backend db cache)) A) (f : A → ST (container (backend db cache)) B) c w s s1 s' :
  crash_safe c w s s1 (m c) → (s1 = s ∨ s1 = s') →
  (∀ c1 x, m c = (c1, Ok x) → crash_safe c w s s' (f x c1)) → crash_safe c w s s' ((m ≫= f) c).
Proof.
  intros Hm Hs Hf. unfold mbind, st_bind. destruct (m c) as [c1 [x|msg|]] eqn:E; [by apply Hf| |exact Hm].
  destruct Hm as [-> |(w' & Hj & Hp & Ho)]; [by left|]. right. exists w'. split_and!; [exact Hj|exact Hp|].
  intros F HF Hin script. destruct (Ho F HF Hin script) as (c'' & w'' & Hop & Hsd). exists c'', w''. split; [exact Hop|].
  destruct Hs as [-> | ->]; tauto.
Qed.

Lemma checkpoint_safe c w s : sound c w s → ids_nonzero (jnl w) → crash_safe c w s s (Container.checkpoint c).
Proof.
  intros Hc Hids. destruct (Hc) as [Hj (l & f & Hi & Hs) (h & Hfr & Hl)].
  unfold Container.checkpoint. rewrite (st_bind_run _ _ c c c eq_refl), Hj. cbn [j_leveldb backend_journal JournalFacade.is_leveldb].
  unfold st_need, need. destruct (Z.eqb_spec (generation (anchor_ c)) UINT64_MAX) as [Hg|Hg]; cbn [negb]; [by left|].
  rewrite (st_bind_run _ _ c c tt eq_refl).
  destruct (checkpoint_atomic _ _ _ _ Hi Hids) as [Hat Hcp]. rewrite Hs in Hat.
  pose proof (checkpoint_front h (lead_length _ _ _ _ Hl) w (wf_end _ (inv_wf _ _ _ _ Hi)) Hfr) as Hfr1.
  apply (safe_bind _ _ _ _ _ s); [|by left|].
  { apply (journal_safe Journal.checkpoint _ c w s s Hc eq_refl Hat). intros h' Hh'. apply checkpoint_front; [exact Hh'|].
    apply (inv_wf _ _ _ _ Hi). }
  intros c1 cp E. unfold on_journal in E. rewrite Hj in E. cbn [j_checkpoint backend_journal JournalFacade.checkpoint] in E.
  unfold JournalFacade.on_file in E. destruct (Journal.checkpoint w) as [w1 r] eqn:Ec. injection E as <- ->. cbn [fst] in Hfr1.
  destruct Hat as [Hold Hrepo]. destruct (Hcp w1 cp eq_refl) as (l' & f' & Hi' & Hs'). rewrite Hs in Hs'.
  pose proof (checkpoint_describable _ _ _ _ _ _ Hi Hids Ec) as Hd.
  assert (∃ l f, inv cp w1 l f ∧ abs f (jnl w1) = s) as Hnew by eauto.
  exact (anchor_phase c w w1 cp s h Ec Hrepo Hold Hnew Hfr Hfr1 Hl Hg Hd).
Qed.

(** Every operation is crash safe. *)
Lemma perform_safe o c w s : sound c w s → may_run o w → crash_safe c w s (effect o s) (perform o c).
Proof.
  intros Hc Hm. destruct (sound_inv _ _ _ Hc) as (l & f & Hi & Hs). pose proof (wf_end _ (inv_wf _ _ _ _ Hi)) as He.
  destruct o as [key value|expected ms|]; cbn [perform effect]; [| |by apply checkpoint_safe].
  - apply (journal_safe (Journal.put key value) _ c w); [exact Hc|reflexivity|rewrite <- Hs; by apply (put_atomic _ w l)|].
    intros h Hh. by apply put_front.
  - apply (journal_safe (Journal.transact expected ms) _ c w); [exact Hc|reflexivity|rewrite <- Hs; by apply (transact_atomic _ w l)|].
    intros h Hh. by apply transact_front.
Qed.

(** A crash between operations. *)
Lemma crash_opens c w s F script : sound c w s → F = file (dev w) ∨ F = Journal.durable (dev w) →
  ∃ c' w', Container.open F script = Ok c' ∧ sound c' w' s.
Proof.
  intros [_ (l & f & Hi & Hs) (h & [Hf Hd] & Hl)] HF. destruct (inv_reopens _ _ _ _ Hi) as [R1 R2].
  assert (take nbase F = h) as Hh by (destruct HF as [-> | ->]; assumption). rewrite <- Hh in Hl.
  destruct (open_sound (repository_ (jnl w)) (anchor_offset_ c) (anchor_ c) F s) with (script := script) as (c' & w' & Ho & Hsd & _);
    [exact Hl| |eauto]. rewrite <- Hs. apply reopens_abs. destruct HF as [-> | ->]; assumption.
Qed.

(** ** A new container *)

Lemma new_front (identity : Bytes) now : length identity = 16%nat → let F := create_legacy identity now in
  let a := initial_anchor identity now in
  length F = 65536%nat ∧ slice 0 4096 F = a ∧ slice 4096 4096 F = a ∧ slice 8192 57344 F = zeros 57344.
Proof.
  intros Hid F a. assert (length a = 4096%nat) as Ha.
  { unfold a. rewrite initial_sealed. eapply length_put; [exact (initial_length identity now Hid)|apply length_store|vm_compute; reflexivity]. }
  assert (length (memcpy (zeros 65536) 0 a) = 65536%nat) as Hl
    by (eapply length_put; [apply length_zeros|exact Ha|vm_compute; reflexivity]).
  unfold F, create_legacy. fold a. split_and!.
  - eapply length_put; [exact Hl|exact Ha|vm_compute; reflexivity].
  - erewrite slice_beside; [|exact Hl|exact Ha|vm_compute; reflexivity|vm_compute; reflexivity].
    eapply slice_there; [apply length_zeros|exact Ha|vm_compute; reflexivity].
  - eapply slice_there; [exact Hl|exact Ha|vm_compute; reflexivity].
  - erewrite slice_beside; [|exact Hl|exact Ha|vm_compute; reflexivity|vm_compute; reflexivity].
    erewrite slice_beside; [|apply length_zeros|exact Ha|vm_compute; reflexivity|vm_compute; reflexivity].
    apply slice_zeros. vm_compute. reflexivity.
Qed.

Lemma fresh_opens (F repo : Bytes) : len F = base → Journal.open F repo no_checkpoint = Ok (fresh repo).
Proof.
  intros HF. rewrite open_start, start_fresh by lia. cbn [mbind result_bind].
  rewrite replay_finished by (rewrite HF; apply Z.le_refl). cbn [mbind result_bind j_ fresh_loop].
  rewrite HF. cbn [end_ fresh]. rewrite Z.eqb_refl. reflexivity.
Qed.

(** The container a new file opens to. *)
Definition new_container (identity : Bytes) (now : Z) (script : list outcome) : container (backend db cache) :=
  let F := create_legacy identity now in
  opened (FileBacked (mkWorld (mkDevice F F script) (fresh identity))) (hex_id identity) false (initial_anchor identity now) 0.

(** Two equal anchors: the first is taken. *)
Lemma choose_same repo a : whole repo a → choose a a = Ok (a, 0, false).
Proof.
  intros Hw. unfold choose. rewrite (whole_valid _ _ Hw), (whole_supported _ _ Hw). cbn [orb andb need mbind result_bind negb].
  unfold bytes_eqb. rewrite !bool_decide_true, Z.eqb_refl, Z.leb_refl by reflexivity. reflexivity.
Qed.

Lemma base_bytes : 65536%nat = nbase.
Proof. apply Nat.eqb_eq. vm_compute. reflexivity. Qed.

Section New.
Context (identity : Bytes) (now : Z) (Hid : length identity = 16%nat).
Context (Hnz : existsb (λ x, negb (b2z x =? 0)) identity = true).
Let F := create_legacy identity now.
Let a := initial_anchor identity now.

Lemma new_length : len F = base ∧ length F = nbase.
Proof.
  destruct (new_front identity now Hid) as (Hl & _). fold F in Hl. rewrite base_bytes in Hl.
  split; [unfold len; rewrite Hl; exact nbase_base|exact Hl].
Qed.

Lemma new_leads : leads identity 0 a (take nbase F).
Proof.
  destruct (new_front identity now Hid) as (_ & S1 & S2 & S3). fold F a in S1, S2, S3.
  destruct (initial_whole identity now Hid Hnz) as (Hw & _). fold a in Hw. destruct new_length as [_ Hl].
  rewrite firstn_all2 by (rewrite Hl; apply Nat.le_refl).
  split; [left; reflexivity|exact Hl|exact S1|exact Hw| |rewrite S3; apply zero_bytes].
  intros _. change (other_anchor 0) with 4096. unfold slot. change (Z.to_nat 4096) with 4096%nat. rewrite S2.
  split; [exact Hw|right; reflexivity].
Qed.

Lemma new_reads : read_at F 4096 0 = Ok a ∧ read_at F 4096 4096 = Ok a ∧ read_at F 57344 8192 = Ok (zeros 57344).
Proof.
  destruct (new_front identity now Hid) as (_ & S1 & S2 & S3). fold F a in S1, S2, S3.
  destruct new_length as [_ Hl]. destruct front_fits as (F1 & F2 & F3).
  assert (nbase ≤ length F)%nat as Hn by (rewrite Hl; apply Nat.le_refl).
  rewrite (read_front F 4096 0 Hn F1), (read_front F 4096 4096 Hn F2), (read_front F 57344 8192 Hn F3).
  rewrite firstn_all2, S1, S2, S3 by (rewrite Hl; apply Nat.le_refl). split_and!; reflexivity.
Qed.

Lemma new_opens script : Container.open F script = Ok (new_container identity now script).
Proof.
  destruct new_reads as (R1 & R2 & R3). destruct new_length as [HF _].
  destruct (initial_whole identity now Hid Hnz) as (Hw & _ & Hcp). fold a in Hw, Hcp.
  assert ((65536 <=? len F) = true) as Hs by (rewrite HF; reflexivity).
  assert (Journal.open F identity (anchor_checkpoint a) = Ok (fresh identity)) as Hj by (rewrite Hcp; exact (fresh_opens F identity HF)).
  exact (open_through F a a _ script identity 0 a false _ Hs R1 R2 (choose_same _ _ Hw) R3 (zero_bytes _) (whole_identity _ _ Hw) Hj).
Qed.

Lemma new_sound script : sound (new_container identity now script) (mkWorld (mkDevice F F script) (fresh identity)) (mkKv 0 ∅ ∅).
Proof.
  destruct new_length as [HF _]. destruct (initial_whole identity now Hid Hnz) as (_ & _ & Hcp). split; [reflexivity| |].
  - exists (fresh_loop identity), F. cbn [anchor_ new_container opened]. rewrite Hcp.
    split; [by apply fresh_inv|apply abs_fresh].
  - exists (take nbase F). split; [split; reflexivity|exact new_leads].
Qed.
End New.

(** ** Executions *)

(** The contents that a crash of [c] leaves: what was written, or what was made durable. *)
Definition remains (c : container (backend db cache)) (F : Bytes) : Prop :=
  ∃ w, journal_ c = FileBacked w ∧ (F = file (dev w) ∨ F = Journal.durable (dev w)).

(** A container that has not failed. *)
Definition usable (c : container (backend db cache)) : bool :=
  match journal_ c with FileBacked w => negb (poisoned_ (jnl w)) | LevelBacked _ => false end.

Inductive cstep : container (backend db cache) → event → container (backend db cache) → Prop :=
| cstep_done o c w c' : journal_ c = FileBacked w → may_run o w → perform o c = (c', Ok tt) → cstep c (Acknowledged o) c'
| cstep_refused o c w c' m :
    journal_ c = FileBacked w → may_run o w → perform o c = (c', Err m) → usable c' = true → cstep c (Refused o) c'
| cstep_interrupted o c w c' m F script c'' :
    journal_ c = FileBacked w → may_run o w → perform o c = (c', Err m) → usable c' = false →
    remains c' F → intact c w F → Container.open F script = Ok c'' → cstep c (Interrupted o) c''
| cstep_crashed c F script c'' : remains c F → Container.open F script = Ok c'' → cstep c Crashed c''.

Inductive csteps : container (backend db cache) → list event → container (backend db cache) → Prop :=
| csteps_refl c : csteps c [] c
| csteps_step c e c1 es c' : cstep c e c1 → csteps c1 es c' → csteps c (e :: es) c'.

Lemma sound_world c w w' s : sound c w s → journal_ c = FileBacked w' → w' = w.
Proof. intros [Hj _ _] E. congruence. Qed.

Lemma sound_usable c w s : sound c w s → usable c = true.
Proof. intros [Hj (l & f & Hi & _) _]. unfold usable. by rewrite Hj, (inv_alive _ _ _ _ Hi). Qed.

Lemma cstep_explained c w s e c' : sound c w s → cstep c e c' → ∃ w' s', sound c' w' s' ∧ explains [e] s s'.
Proof.
  intros Hc Hs. inversion Hs as [o ? w0 ? Hj Hm Hp|o ? w0 ? m Hj Hm Hp Hu|o ? w0 c1 m F script ? Hj Hm Hp Hu Hr Hin Ho|? F script ? Hr Ho]; subst.
  - rewrite (sound_world _ _ _ _ Hc Hj) in *. pose proof (perform_safe o c w s Hc Hm) as Hsafe. rewrite Hp in Hsafe.
    destruct Hsafe as [w' Hw']. exists w', (effect o s). split; [exact Hw'|apply explains_ack, explains_nil].
  - rewrite (sound_world _ _ _ _ Hc Hj) in *. pose proof (perform_safe o c w s Hc Hm) as Hsafe. rewrite Hp in Hsafe.
    destruct Hsafe as [-> |(w' & Hj' & Hpo & _)]; [|unfold usable in Hu; by rewrite Hj', Hpo in Hu].
    exists w, s. split; [exact Hc|apply explains_refused, explains_nil].
  - rewrite (sound_world _ _ _ _ Hc Hj) in *. pose proof (perform_safe o c w s Hc Hm) as Hsafe. rewrite Hp in Hsafe.
    destruct Hsafe as [-> |(w' & Hj' & _ & Hopen)]; [by rewrite (sound_usable _ _ _ Hc) in Hu|].
    destruct Hr as (w2 & Hj2 & HF). rewrite Hj' in Hj2. injection Hj2 as <-.
    destruct (Hopen F HF Hin script) as (c'' & w'' & Ho' & Hsd). rewrite Ho in Ho'. injection Ho' as <-.
    destruct Hsd as [Hsd|Hsd]; [exists w'', s; split; [exact Hsd|apply explains_lost, explains_nil]|].
    exists w'', (effect o s). split; [exact Hsd|apply explains_kept, explains_nil].
  - destruct Hr as (w2 & Hj2 & HF). rewrite (sound_world _ _ _ _ Hc Hj2) in *.
    destruct (crash_opens c w s F script Hc HF) as (c'' & w'' & Ho' & Hsd). rewrite Ho in Ho'. injection Ho' as <-.
    exists w'', s. split; [exact Hsd|apply explains_crashed, explains_nil].
Qed.

Lemma csteps_explained c w s es c' : sound c w s → csteps c es c' → ∃ w' s', sound c' w' s' ∧ explains es s s'.
Proof.
  intros Hc Hs. revert w s Hc. induction Hs as [c|c e c1 es c' Hstep Hs IH]; intros w s Hc.
  - exists w, s. split; [exact Hc|apply explains_nil].
  - destruct (cstep_explained c w s e c1 Hc Hstep) as (w1 & s1 & Hc1 & He). destruct (IH w1 s1 Hc1) as (w' & s' & Hc' & Hes).
    exists w', s'. split; [exact Hc'|]. exact (explains_app [e] es s s1 s' He Hes).
Qed.
End Runs.
