(* ===== verification/ContainerSpec.v ===== *)
(** * What the single-file container promises

    Crash refinement of the container and the outcome of each of its operations, stated on
    the containers an execution can reach from a file that [Container::create_legacy] has
    written, each with an example on a concrete container. *)

From S2P Require Import Prelude Codec Treap Journal JournalRecord JournalReplay JournalState.
From S2P Require Import JournalOps JournalCheckpoint JournalStore JournalRuns JournalHeader Instances LevelStore LevelStoreProofs LevelStoreSpec.
From S2P Require Import MetadataTree Store JournalFacade MetadataView Container Anchors ContainerRuns.
Import Journal Container.
Local Open Scope Z_scope.

Section Spec.
Context {db cache : Type} `{LevelDB db} `{Cache cache} `{DigestOk}.
Implicit Types c : container (backend db cache).

(** What a client reads from the container is the abstract store [s]. *)
Record answers (c : container (backend db cache)) (s : kv) : Prop := mkAnswers {
  answers_get : ∀ key, Container.get key c = (c, read_result (kv_get s key));
  answers_keys : ∀ prefix, j_keys (journal_ c) prefix =
    Ok (filter (λ k, starts_with prefix k = true) (in_order (kv_roots s)).*1);
  answers_sequence : JournalFacade.sequence (journal_ c) = kv_seq s;
  answers_verify : Container.verify c = (c, Ok tt);
}.

Lemma sound_answers c w s : sound c w s → answers c s.
Proof.
  intros [Hj (l & f & Hi & <-) _].
  split; unfold Container.get, Container.verify, ask; rewrite Hj; cbn [j_get j_keys j_verify backend_journal].
  - intros key. f_equal. exact (get_abs _ w l f key Hi).
  - intros prefix. exact (keys_inv _ w l f prefix Hi).
  - reflexivity.
  - f_equal. exact (verify_inv _ w l f Hi).
Qed.

(** C3: Crash refinement of the container.  A file that has just been created opens.
    Whatever sequence of puts, transactions and checkpoints then runs on the container, with
    device failures and torn writes of the log and of the anchors in any of them, crashes in
    between, and reopens through whichever anchor [choose] takes, what the container answers is
    one abstract store, in which every acknowledged operation has happened, in order, every
    refused one has not, and an interrupted one has happened entirely or not at all; and
    whatever a further crash leaves of the file opens to the same store. *)
Theorem container_crash_refinement (identity : Bytes) (now : Z) (script : list outcome) (es : list event)
    (c : container (backend db cache)) :
  length identity = 16%nat → existsb (λ x, negb (b2z x =? 0)) identity = true →
  csteps (new_container identity now script) es c →
  Container.open (create_legacy identity now) script = Ok (new_container (db := db) (cache := cache) identity now script) ∧
  ∃ s, explains es (mkKv 0 ∅ ∅) s ∧ answers c s ∧
    ∀ F script', remains c F →
      ∃ c' : container (backend db cache), Container.open F script' = Ok c' ∧ answers c' s.
Proof.
  intros Hid Hnz Hs. split; [by apply new_opens|].
  destruct (csteps_explained _ _ _ es c (new_sound identity now Hid Hnz script) Hs) as (w & s & Hc & He).
  exists s. split_and!; [exact He|by eapply sound_answers|].
  intros F script' (w' & Hj & HF). rewrite (sound_world _ _ _ _ Hc Hj) in HF.
  destruct (crash_opens c w s F script' Hc HF) as (c' & w1 & Ho & Hc'). exists c'.
  split; [exact Ho|by eapply sound_answers].
Qed.

(** C4: Every operation of the container happens entirely or not at all.  On a reachable
    container, an operation returns, and the container answers the store with its effect; or
    throws and has changed nothing; or throws and marks the journal unusable, and then the
    file, as seen now or as it survives a loss of power, opens to the store before the
    operation or to the one with its effect, unless a half-written anchor passes the
    checksum. *)
Theorem perform_all_or_nothing (identity : Bytes) (now : Z) (script : list outcome) (es : list event)
    (c : container (backend db cache)) (w : world) (o : op) :
  length identity = 16%nat → existsb (λ x, negb (b2z x =? 0)) identity = true →
  csteps (new_container identity now script) es c → journal_ c = FileBacked w → may_run o w →
  ∃ s, explains es (mkKv 0 ∅ ∅) s ∧ answers c s ∧
    match perform o c with
    | (c', Ok _) => answers c' (effect o s)
    | (c', Err _) =>
        c' = c ∨
        usable c' = false ∧
        ∀ F script', remains c' F → intact c w F →
          ∃ c'' : container (backend db cache),
            Container.open F script' = Ok c'' ∧ (answers c'' s ∨ answers c'' (effect o s))
    | (_, OutOfFuel) => False
    end.
Proof.
  intros Hid Hnz Hs Hj Hm.
  destruct (csteps_explained _ _ _ es c (new_sound identity now Hid Hnz script) Hs) as (w' & s & Hc & He).
  rewrite <- (sound_world _ _ _ _ Hc Hj) in Hc. exists s. split_and!; [exact He|by eapply sound_answers|].
  pose proof (perform_safe o c w s Hc Hm) as Hsafe. destruct (perform o c) as [c' [[]|m|]]; [| |exact Hsafe].
  - destruct Hsafe as [w1 Hc']. by eapply sound_answers.
  - destruct Hsafe as [-> |(w1 & Hj1 & Hp & Ho)]; [by left|right]. split; [unfold usable; by rewrite Hj1, Hp|].
    intros F script' (w2 & Hj2 & HF) Hin. rewrite Hj1 in Hj2. injection Hj2 as <-.
    destruct (Ho F HF Hin script') as (c'' & w'' & Hop & Hsd). exists c''. split; [exact Hop|].
    destruct Hsd as [Hsd|Hsd]; [left|right]; by eapply sound_answers.
Qed.

(** An acknowledged operation as a step. *)
Lemma acknowledged_cstep o c w :
  journal_ c = FileBacked w → may_run o w → is_ok (perform o c).2 = true → cstep c (Acknowledged o) (perform o c).1.
Proof.
  intros Hj Hm Hok. destruct (perform o c) as [c' [[]| |]] eqn:E; [|discriminate Hok..]. by eapply cstep_done.
Qed.
End Spec.

(** ** Examples

    A container with a random identity, before and after one put, over a device that works and
    over one that tears the anchor a checkpoint writes. *)

Abbreviation small := (container (backend (gmap Bytes Bytes) (gmap Bytes Bytes))).
Definition identity0 : Bytes := repeat (z2b 7) 16.
Definition hello : op := OpPut (bs "a") (bs "hello").
Definition container0 (script : list outcome) : small := new_container identity0 1000 script.
Definition container1 (script : list outcome) : small := (perform hello (container0 script)).1.
Definition disk (c : small) : world :=
  match journal_ c with FileBacked w => w | LevelBacked _ => mkWorld (mkDevice [] [] []) (fresh identity0) end.
Definition working : list outcome := [].
Definition tearing : list outcome := repeat Done 7 ++ [Torn 50].
Definition torn_file : Bytes := file (dev (disk (perform OpCheckpoint (container1 tearing)).1)).

Lemma put_steps script : is_ok (perform hello (container0 script)).2 = true →
  csteps (container0 script) [Acknowledged hello] (container1 script).
Proof.
  intros Hok. refine (csteps_step _ _ _ _ _ (acknowledged_cstep hello (container0 script) _ eq_refl I Hok) (csteps_refl _)).
Qed.

Lemma disk_journal (c : small) : JournalFacade.is_leveldb (journal_ c) = false → journal_ c = FileBacked (disk c).
Proof. unfold disk. destruct (journal_ c); [reflexivity|discriminate]. Qed.

Lemma ids_nonzero_torn : ids_nonzero (jnl (disk (container1 tearing))).
Proof.
  split.
  - intros id [loc Hl]. revert id loc Hl.
    refine (bool_decide_eq_true_1 (map_Forall (λ id _, id ≠ zero_id) (objects_ (jnl (disk (container1 tearing))))) _).
    vm_compute. reflexivity.
  - refine (bool_decide_eq_true_1 (seq_ (jnl (disk (container1 tearing))) = 0 ↔ last_hash_ (jnl (disk (container1 tearing))) = zero_id) _).
    vm_compute. reflexivity.
Qed.

Lemma container_crash_refinement_witness :
  ∃ s, explains [Acknowledged hello] (mkKv 0 ∅ ∅) s ∧ answers (container1 working) s.
Proof.
  destruct (container_crash_refinement identity0 1000 working [Acknowledged hello] (container1 working) eq_refl eq_refl
    (put_steps working ltac:(vm_compute; reflexivity))) as (_ & s & He & Ha & _).
  exists s. split; [exact He|exact Ha].
Defined.

(** The anchor is torn, so the file opens through the old one. *)
Lemma torn_interrupts : is_ok (perform OpCheckpoint (container1 tearing)).2 = false ∧
  usable (perform OpCheckpoint (container1 tearing)).1 = false ∧ usable (container1 tearing) = true ∧
  valid (slot (other_anchor (anchor_offset_ (container1 tearing))) torn_file) = false.
Proof. vm_compute. auto. Qed.

Lemma torn_remains : remains (perform OpCheckpoint (container1 tearing)).1 torn_file.
Proof.
  exists (disk (perform OpCheckpoint (container1 tearing)).1). split; [|left; reflexivity].
  apply disk_journal. vm_compute. reflexivity.
Qed.

Lemma perform_all_or_nothing_witness :
  ∃ s (c : small), answers (container1 tearing) s ∧ Container.open torn_file working = Ok c ∧ answers c s.
Proof.
  destruct torn_interrupts as (Hno & Hu & Hu' & Hv).
  destruct (perform_all_or_nothing identity0 1000 tearing [Acknowledged hello] (container1 tearing)
    (disk (container1 tearing)) OpCheckpoint eq_refl eq_refl (put_steps tearing ltac:(vm_compute; reflexivity))
    (disk_journal (container1 tearing) ltac:(vm_compute; reflexivity)) ids_nonzero_torn) as (s & _ & Ha & Hout).
  exists s. pose proof torn_remains as Hr.
  destruct (perform OpCheckpoint (container1 tearing)) as [c' [[]|m|]]; [discriminate Hno| |contradiction].
  destruct Hout as [E|[_ Hopen]]; [cbn [fst] in Hu; rewrite E, Hu' in Hu; discriminate Hu|].
  destruct (Hopen torn_file working Hr) as (c & Ho & [Hc|Hc]);
    [intros Hv'; rewrite Hv in Hv'; discriminate Hv'|exists c; auto..].
Defined.
