(* ===== verification/Metrics.v ===== *)
(** * Storage metrics ([daemon/level_store.cpp], StoreIoMetrics, TimedFile, TimedEnv)

    The counters of the LevelDB backend: what the wrapped files and the reads of the store add
    to them, and their report.  [Module Metrics] takes the elapsed times as arguments. *)

From S2P Require Import Prelude Codec LevelStore Container.
Import Container.
Local Open Scope Z_scope.

Module Metrics.

(** [struct StoreIoMetrics] *)
Record metrics := mkMetrics {
  root_get_calls : Z; root_get_ns : Z; root_misses : Z; root_cache_hits : Z;
  object_get_calls : Z; object_get_ns : Z; object_misses : Z; meta_get_calls : Z; meta_get_ns : Z;
  transactions : Z; prepare_ns : Z; write_ns : Z; wal_sync_calls : Z; wal_sync_ns : Z;
  other_sync_calls : Z; other_sync_ns : Z; wal_append_bytes : Z; wal_append_ns : Z; wal_flush_ns : Z;
}.

(** Additions to the counters, at their width. *)
Definition add_reads (root root_ns miss hit object object_ns object_miss meta meta_ns : Z) (m : metrics) : metrics :=
  mkMetrics (u64 (root_get_calls m + root)) (u64 (root_get_ns m + root_ns)) (u64 (root_misses m + miss))
    (u64 (root_cache_hits m + hit)) (u64 (object_get_calls m + object)) (u64 (object_get_ns m + object_ns))
    (u64 (object_misses m + object_miss)) (u64 (meta_get_calls m + meta)) (u64 (meta_get_ns m + meta_ns))
    (transactions m) (prepare_ns m) (write_ns m) (wal_sync_calls m) (wal_sync_ns m) (other_sync_calls m)
    (other_sync_ns m) (wal_append_bytes m) (wal_append_ns m) (wal_flush_ns m).
Definition add_writes (tx prep write sync sync_ns other other_ns bytes bytes_ns flush_ns : Z) (m : metrics) : metrics :=
  mkMetrics (root_get_calls m) (root_get_ns m) (root_misses m) (root_cache_hits m) (object_get_calls m)
    (object_get_ns m) (object_misses m) (meta_get_calls m) (meta_get_ns m)
    (u64 (transactions m + tx)) (u64 (prepare_ns m + prep)) (u64 (write_ns m + write)) (u64 (wal_sync_calls m + sync))
    (u64 (wal_sync_ns m + sync_ns)) (u64 (other_sync_calls m + other)) (u64 (other_sync_ns m + other_ns))
    (u64 (wal_append_bytes m + bytes)) (u64 (wal_append_ns m + bytes_ns)) (u64 (wal_flush_ns m + flush_ns)).

(** [name.ends_with(".log")]: the files of the write-ahead log. *)
Definition is_wal (name : Bytes) : bool := starts_with (rev (bs ".log")) (rev name).

(** [TimedFile::Append], [TimedFile::Flush] and [TimedFile::Sync]. *)
Definition append (wal : bool) (elapsed size : Z) (m : metrics) : metrics :=
  if wal then add_writes 0 0 0 0 0 0 0 size elapsed 0 m else m.
Definition flush (wal : bool) (elapsed : Z) (m : metrics) : metrics :=
  if wal then add_writes 0 0 0 0 0 0 0 0 0 elapsed m else m.
Definition sync (wal : bool) (elapsed : Z) (m : metrics) : metrics :=
  if wal then add_writes 0 0 0 1 elapsed 0 0 0 0 0 m else add_writes 0 0 0 0 0 1 elapsed 0 0 0 m.

(** The accounting of [LevelStore::read] when the key was not in the root cache, and of a hit. *)
Definition cache_hit (m : metrics) : metrics := add_reads 0 0 0 1 0 0 0 0 0 m.
Definition read (key : Bytes) (ns : Z) (found : bool) (m : metrics) : metrics :=
  let miss := if found then 0 else 1 in
  if starts_with (bs "R/") key then add_reads 1 ns miss 0 0 0 0 0 0 m
  else if starts_with (bs "O/") key then add_reads 0 0 0 0 1 ns miss 0 0 m
  else add_reads 0 0 0 0 0 0 0 1 ns m.

(** The accounting of [LevelStore::transact]: a transaction counts when its write succeeded. *)
Definition committed (prepared written : Z) (ok : bool) (m : metrics) : metrics :=
  add_writes (if ok then 1 else 0) prepared written 0 0 0 0 0 0 0 m.

(** [struct CacheStats] *)
Record CacheStats := mkStats { hits : Z; misses : Z; charge : Z }.

(** [std::string LevelStore::metrics_json(bool detailed) const] *)
Definition metrics_json (detailed : bool) (m : metrics) (c : CacheStats) : Bytes :=
  let f name v := json_field name (to_string v) in
  json_object (
    [f "transactions"%string (transactions m); f "prepare_ns"%string (prepare_ns m); f "write_ns"%string (write_ns m);
     f "wal_sync_calls"%string (wal_sync_calls m); f "wal_sync_ns"%string (wal_sync_ns m);
     f "other_sync_calls"%string (other_sync_calls m); f "other_sync_ns"%string (other_sync_ns m);
     f "wal_append_bytes"%string (wal_append_bytes m); f "wal_append_ns"%string (wal_append_ns m);
     f "wal_flush_ns"%string (wal_flush_ns m)]
    ++ if detailed then
         [f "root_get_calls"%string (root_get_calls m); f "root_get_ns"%string (root_get_ns m);
          f "root_misses"%string (root_misses m); f "root_cache_hits"%string (root_cache_hits m);
          f "object_get_calls"%string (object_get_calls m); f "object_get_ns"%string (object_get_ns m);
          f "object_misses"%string (object_misses m); f "meta_get_calls"%string (meta_get_calls m);
          f "meta_get_ns"%string (meta_get_ns m); f "object_cache_hits"%string (hits c);
          f "object_cache_misses"%string (misses c); f "object_cache_charge"%string (charge c)]
       else []).
End Metrics.
