(* ===== verification/Compaction.v ===== *)
(** * Compaction jobs ([daemon/compaction.cpp], [daemon/compaction.h])

    A job fixes its input under the container lock, computes a packed version of it without the
    lock, stages the new objects in bounded batches and publishes the new head only if the head
    it started from is still the head.  [Module Compaction] translates the class; every locked
    section starts with [acquire], which lets other threads act first. *)

From S2P Require Import Prelude Codec Journal MetadataTree Store MetadataView Container.
Import Container.
Local Open Scope Z_scope.

Module Compaction.

Definition stage_bytes : Z := 256 * 1024.

Inductive StageResult := Staged | Ready | Stale.
#[global] Instance StageResult_eq_dec : EqDecision StageResult.
Proof. solve_decision. Defined.

(** The members of a job. *)
Record task := mkTask {
  world_ : Bytes;
  head_ : option Id;
  sequence_ : Z;
  input_ : NamespaceView.Frozen;
  plan_ : NamespaceView.Plan;
  output_ : list (Bytes * Bytes);
  output_ids_ : list Id;
  output_head_ : Id;
  stage_cursor_ : nat;
  staging_started_ : bool;
  prepared_ : bool;
  built_ : bool;
  installed_ : bool;
}.

(** [Compaction(Container& container,std::string world)] *)
Definition create (world : Bytes) : task :=
  mkTask world None 0 (NamespaceView.mkFrozen ∅ []) (NamespaceView.mkPlan [] [] 0) [] [] zero_id 0
    false false false false.

Definition world_key (world : Bytes) : Bytes := NamespaceView.history ++ bs "world/" ++ world.
Definition object_key (id : Id) : Bytes := NamespaceView.history ++ bs "object/" ++ hex_id id.

(** [size_t output_runs() const] *)
Definition output_runs (t : task) : Z := NamespaceView.run_count_ (plan_ t).

Definition set_started (t : task) : task :=
  mkTask (world_ t) (head_ t) (sequence_ t) (input_ t) (plan_ t) (output_ t) (output_ids_ t) (output_head_ t)
    (stage_cursor_ t) true (prepared_ t) (built_ t) (installed_ t).
Definition set_cursor (cursor : nat) (sequence : Z) (t : task) : task :=
  mkTask (world_ t) (head_ t) sequence (input_ t) (plan_ t) (output_ t) (output_ids_ t) (output_head_ t)
    cursor (staging_started_ t) (prepared_ t) (built_ t) (installed_ t).
Definition set_installed (t : task) : task :=
  mkTask (world_ t) (head_ t) (sequence_ t) (input_ t) (plan_ t) (output_ t) (output_ids_ t) (output_head_ t)
    (stage_cursor_ t) (staging_started_ t) (prepared_ t) (built_ t) true.

Section Job.
Context `{Digest} {J : Type} `{JournalLike J}.

(** The head of a world, when it has one. *)
Definition current_head (j : J) (world : Bytes) : result (option Id) :=
  j_contains j (world_key world) ≫= λ c : bool,
  if c then id ← j_root j (world_key world); Ok (Some id) else Ok None.

(** What [prepare] computes from the journal. *)
Definition prepare_from (j : J) (t : task) : result task :=
  head ← current_head j (world_ t);
  v ← NamespaceView.open j (world_ t) false false;
  input ← (NamespaceView.freeze j v).2;
  Ok (mkTask (world_ t) head (j_sequence j) input (plan_ t) (output_ t) (output_ids_ t) (output_head_ t)
        (stage_cursor_ t) (staging_started_ t) true (built_ t) (installed_ t)).

(** [void Compaction::prepare()] *)
Definition prepare (t : task) : ST (sys J) task :=
  st_need (negb (prepared_ t)) "compaction task already prepared";;
  lift (NamespaceView.valid_name (world_ t));;
  acquire;;
  j ← gets (λ s, journal_ (cont s));
  lift (prepare_from j t).

(** [void Compaction::build()]: no access to the journal. *)
Definition build (t : task) : result task :=
  need (prepared_ t && negb (built_ t)) "compaction task cannot build";;
  p ← NamespaceView.compact_frozen (input_ t);
  let ids := object_hash <$> NamespaceView.objects p in
  let out := (λ b, (object_key (object_hash b), b)) <$> NamespaceView.objects p in
  Ok (mkTask (world_ t) (head_ t) (sequence_ t) (input_ t) p (output_ t ++ out) (output_ids_ t ++ ids)
        (object_hash (NamespaceView.manifest p)) (stage_cursor_ t) (staging_started_ t) (prepared_ t) true
        (installed_ t)).

(** [bool Compaction::matches_head_locked() const] *)
Definition matches_head_locked (j : J) (t : task) : result bool :=
  current ← current_head j (world_ t);
  Ok (bool_decide (current = head_ t) && (bool_decide (is_Some (head_ t)) || (j_sequence j =? sequence_ t))).

Definition put_mutation (key value : Bytes) : Journal.Mutation := Journal.mkMutation key (Some value) None.

(** The loop of [stage_next] over the outputs from the cursor on, with their ids: the number
    of outputs passed and the batch to commit. *)
Fixpoint stage_batch (j : J) (l : list (Bytes * Bytes * Id)) (cursor : nat) (bytes : Z)
    (batch : list Journal.Mutation) : result (nat * list Journal.Mutation) :=
  match l with
  | [] => Ok (cursor, batch)
  | (key, payload, id) :: rest =>
      need (len payload <=? stage_bytes) "compaction object exceeds staging budget";;
      j_contains j key ≫= λ c : bool,
      if c then
        r ← j_root j key;
        need (bool_decide (r = id)) "staged object identity mismatch";;
        b ← j_get j key;
        need (bytes_eqb b payload) "staged object content mismatch";;
        stage_batch j rest (S cursor) bytes batch
      else if bool_decide (batch ≠ []) && ((stage_bytes <? bytes + len payload) || (len batch =? 64)) then
        Ok (cursor, batch)
      else stage_batch j rest (S cursor) (bytes + len payload) (batch ++ [put_mutation key payload])
  end.

(** Committing a batch to the journal of the container. *)
Definition commit (batch : list Journal.Mutation) : ST (sys J) unit :=
  locked (j ← gets journal_; on_journal (j_transact (j_sequence j) batch)).

(** [Compaction::StageResult Compaction::stage_next()] *)
Definition stage_next (t : task) : ST (sys J) (task * StageResult) :=
  st_need (built_ t && negb (installed_ t)) "compaction task cannot stage";;
  let t := set_started t in
  acquire;;
  j ← gets (λ s, journal_ (cont s));
  lift (matches_head_locked j t) ≫= λ same : bool,
  if negb same then mret (t, Stale) else
  '(cursor, batch) ← lift (stage_batch j (drop (stage_cursor_ t) (zip (output_ t) (output_ids_ t)))
                             (stage_cursor_ t) 0 []);
  if bool_decide (batch ≠ []) then
    commit batch;;
    j' ← gets (λ s, journal_ (cont s));
    mret (set_cursor cursor (if bool_decide (head_ t = None) then j_sequence j' else sequence_ t) t, Staged)
  else mret (set_cursor cursor (sequence_ t) t, Ready).

(** The loop of [install]: stage until nothing is left, or the head has moved ([None]). *)
Fixpoint stage_all (fuel : nat) (t : task) : ST (sys J) (option task) :=
  match fuel with
  | O => lift OutOfFuel
  | S fuel' =>
      '(t, r) ← stage_next t;
      match r with
      | Stale => mret None
      | Ready => mret (Some t)
      | Staged => stage_all fuel' t
      end
  end.

(** The objects of an unstaged job that the journal lacks. *)
Fixpoint missing_objects (j : J) (l : list (Bytes * Bytes * Id)) : result (list Journal.Mutation) :=
  match l with
  | [] => Ok []
  | (key, payload, id) :: rest =>
      j_contains j key ≫= λ c : bool,
      if c then
        r ← j_root j key;
        need (bool_decide (r = id)) "compaction object identity mismatch";;
        b ← j_get j key;
        need (bytes_eqb b payload) "compaction object content mismatch";;
        missing_objects j rest
      else ms ← missing_objects j rest; Ok (put_mutation key payload :: ms)
  end.

(** The check of a staged job before publication. *)
Fixpoint check_staged (j : J) (l : list (Bytes * Bytes * Id)) : result unit :=
  match l with
  | [] => Ok tt
  | (key, _, id) :: rest =>
      c ← j_contains j key;
      ok ← (if (c : bool) then r ← j_root j key; Ok (bool_decide (r = id)) else Ok false);
      need ok "compaction output missing before publication";;
      check_staged j rest
  end.

(** The last locked section of [install]: the sole visibility point. *)
Definition publish (t : task) : ST (sys J) (task * bool) :=
  acquire;;
  j ← gets (λ s, journal_ (cont s));
  lift (matches_head_locked j t) ≫= λ same : bool,
  if negb same then mret (t, false) else
  if bool_decide (head_ t = Some (output_head_ t)) then mret (set_installed t, true) else
  let outputs := zip (output_ t) (output_ids_ t) in
  batch ← lift (if staging_started_ t then check_staged j outputs;; Ok [] else missing_objects j outputs);
  commit (batch ++ [put_mutation (world_key (world_ t)) (NamespaceView.manifest (plan_ t))]);;
  mret (set_installed t, true).

Definition total_bytes (t : task) : Z :=
  foldl (λ n e, n + len e.2) (len (NamespaceView.manifest (plan_ t))) (output_ t).

(** [bool Compaction::install()] *)
Definition install (t : task) : ST (sys J) (task * bool) :=
  st_need (built_ t && negb (installed_ t)) "compaction task cannot install";;
  acquire;;
  j ← gets (λ s, journal_ (cont s));
  lift (matches_head_locked j t) ≫= λ same : bool,
  if negb same then mret (t, false) else
  if bool_decide (head_ t = Some (output_head_ t)) then mret (set_installed t, true) else
  staged ← (if staging_started_ t || (stage_bytes <? total_bytes t)
            then stage_all (S (length (output_ t))) t else mret (Some t));
  match staged with
  | None => mret (t, false)
  | Some t => publish t
  end.
End Job.
End Compaction.
