(* ===== verification/Maintenance.v ===== *)
(** * Background compaction ([daemon/maintenance.cpp])

    The queue of worlds that are due, the worker that runs compaction jobs on them, and its
    lifecycle.  The worker's loop is [iteration]: one pass, from one wait for work to the next;
    what the other threads do between two passes is applied by [acquire]. *)

From S2P Require Import Prelude Codec Journal MetadataTree Store MetadataView Container Compaction.
Import Container.
Local Open Scope Z_scope.

Module Maintenance.

(** [void Container::schedule_compaction_locked(const std::string& world)] *)
Definition schedule_compaction_locked {J} (world : Bytes) (c : container J) : container J :=
  if compaction_running_ c && negb (compaction_stop_ c) && bool_decide (world ∉ compaction_pending_ c)
  then set_queue (compaction_queue_ c ++ [world]) ({[world]} ∪ compaction_pending_ c) c
  else c.

Section Worker.
Context `{Digest} {J : Type} `{JournalLike J}.

(** The worlds [start_compaction] finds due. *)
Fixpoint due (j : J) (keys : list Bytes) : result (list Bytes) :=
  match keys with
  | [] => Ok []
  | key :: rest =>
      let name := drop (length (NamespaceView.history ++ bs "world/")) key in
      v ← NamespaceView.open j name false false;
      names ← due j rest;
      Ok (if NamespaceView.soft_run_limit <=? NamespaceView.run_count v then name :: names else names)
  end.

(** [void Container::start_compaction()]; [thread] is whether the worker could be started. *)
Definition start_compaction (thread : bool) : ST (sys J) unit :=
  acquire;;
  locked (
    c ← get_st;
    if compaction_running_ c || j_leveldb (journal_ c) then mret tt else
    keys ← ask (λ j, j_keys j (NamespaceView.history ++ bs "world/"));
    names ← ask (λ j, due j keys);
    modify (set_lifecycle true false (compaction_active_ c));;
    if thread then modify (λ c, foldl (λ c w, schedule_compaction_locked w c) c names)
    else modify (λ c, set_lifecycle false (compaction_stop_ c) (compaction_active_ c) c);;
         throw "thread").

(** [void Container::stop_compaction()]: before and after the worker has been joined. *)
Definition stop_compaction : ST (sys J) unit :=
  acquire;;
  c ← gets cont;
  if negb (compaction_running_ c) then mret tt else
  locked (modify (λ c, set_lifecycle (compaction_running_ c) true (compaction_active_ c) c));;
  acquire;;
  locked (modify (λ c, set_queue [] ∅ (set_lifecycle false (compaction_stop_ c) false c))).

(** [bool Container::wait_compaction(std::chrono::milliseconds timeout)] *)
Definition wait_compaction : ST (sys J) bool :=
  acquire;;
  c ← gets cont;
  mret (negb (compaction_active_ c) && bool_decide (compaction_queue_ c = [])).

(** [std::string Container::compaction_error() const] *)
Definition compaction_error : ST (sys J) Bytes := acquire;; gets (λ s, compaction_error_ (cont s)).

(** The job of one pass, without the lock: whether it installed, or its error. *)
Definition job (world : Bytes) : ST (sys J) (bool * Z) :=
  t ← Compaction.prepare (Compaction.create world);
  t ← lift (Compaction.build t);
  '(t, installed) ← Compaction.install t;
  mret (installed, Compaction.output_runs t).

(** [catch(const std::exception& e){error=e.what();}]: the text of the error, when there is one. *)
Definition caught {S A} (m : ST S A) : ST S (A + string) := λ s,
  match m s with
  | (s', Ok a) => (s', Ok (inl a))
  | (s', Err e) => (s', Ok (inr e))
  | (s', OutOfFuel) => (s', OutOfFuel)
  end.

Definition outcome (r : bool * Z + string) : bool * string :=
  match r with
  | inr e => (false, e)
  | inl (installed, runs) =>
      (installed, if installed && (NamespaceView.hard_run_limit <=? runs)
                  then "full compaction exhausted manifest run capacity" else "")
  end.

(** The bookkeeping after a job, under the lock. *)
Definition conclude (world : Bytes) (installed : bool) (error : string) (c : container J) : container J :=
  let c := set_lifecycle (compaction_running_ c) (compaction_stop_ c) false c in
  if bool_decide (error ≠ "") then
    let per := compaction_world_failures_ c in
    set_outcome (compaction_completed_ c) (compaction_races_ c) (u64 (compaction_failures_ c + 1))
      (world ++ bs ": " ++ bs error) (<[world := u64 (default 0 (per !! world) + 1)]> per) c
  else if installed then
    set_outcome (u64 (compaction_completed_ c + 1)) (compaction_races_ c) (compaction_failures_ c)
      (compaction_error_ c) (compaction_world_failures_ c) c
  else
    schedule_compaction_locked world
      (set_outcome (compaction_completed_ c) (u64 (compaction_races_ c + 1)) (compaction_failures_ c)
         (compaction_error_ c) (compaction_world_failures_ c) c).

Inductive progress := Waiting | Stopped | Worked (installed : bool) (error : string).

(** One pass of [void Container::compaction_loop()]. *)
Definition iteration : ST (sys J) progress :=
  acquire;;
  c ← gets cont;
  if compaction_stop_ c then mret Stopped else
  match compaction_queue_ c with
  | [] => mret Waiting
  | world :: queue =>
      locked (modify (λ c, set_lifecycle (compaction_running_ c) (compaction_stop_ c) true
                             (set_queue queue (compaction_pending_ c ∖ {[world]}) c)));;
      r ← caught (job world);
      let '(installed, error) := outcome r in
      acquire;;
      locked (modify (conclude world installed error));;
      mret (Worked installed error)
  end.
End Worker.
End Maintenance.
