(* ===== verification/Nodes.v ===== *)
(** * Inodes, names and paths ([daemon/namespace.cpp], first part)

    The records a namespace keeps in a view (the root reference, inodes, directory entries,
    contents, allocation marks), their keys and codecs, and the resolution of paths through
    directories and symbolic links.  [Module Nodes] translates the functions of the unnamed
    namespace; they read a view of a journal, so they are operations on [NamespaceView.view]. *)

From S2P Require Import Prelude Codec Journal MetadataTree Store MetadataView.
Local Open Scope Z_scope.

Module Nodes.

(** [struct InodeInfo] *)
Record InodeInfo := mkInode {
  i_id : Bytes;
  i_directory : bool;
  i_mode : Z;
  i_links : Z;
  i_size : Z;
  i_modified_ns : Z;
  i_changed_ns : Z;
  i_symlink : bool;
}.

(** ** Keys *)

Definition prefix : Bytes := NamespaceView.prefix.
Definition history : Bytes := NamespaceView.history.
Definition root_key : Bytes := prefix ++ bs "root".
Definition inode_key (id : Bytes) : Bytes := prefix ++ bs "inode/" ++ id.
Definition allocated_key (id : Bytes) : Bytes := prefix ++ bs "allocated/" ++ id.
Definition content_key (id : Bytes) : Bytes := prefix ++ bs "content/" ++ id.
Definition directory_prefix (id : Bytes) : Bytes := prefix ++ bs "entry/" ++ id ++ bs "/".
Definition entry_key (id name : Bytes) : Bytes := directory_prefix id ++ name.
Definition orphan_prefix (world id : Bytes) : Bytes :=
  history ++ bs "orphan/" ++ world ++ bs "/" ++ id ++ bs "/".

(** ** Identities *)

Definition hex_char (c : byte) : bool :=
  let z := b2z c in ((48 <=? z) && (z <=? 57)) || ((97 <=? z) && (z <=? 102)).

(** [bool valid_id(const std::string& id)] *)
Definition valid_id (id : Bytes) : bool := (len id =? 32) && forallb hex_char id.

(** [Bytes id_bytes(const std::string& id)] *)
Definition id_bytes (id : Bytes) : result Bytes := need (valid_id id) "invalid inode identity";; Ok id.

(** [std::string decode_id(const Bytes& b)] *)
Definition decode_id (b : Bytes) : result Bytes := need (valid_id b) "invalid inode reference";; Ok b.

(** [ObjectId revision_manifest(const Journal& j,const std::string& name)] *)
Definition revision_manifest {J} `{JournalLike J} (j : J) (name : Bytes) : result Id :=
  NamespaceView.valid_name name;;
  b ← j_get j (history ++ bs "revision/" ++ name);
  need ((len b =? 80) && bytes_eqb (slice 0 8 b) (bs "FFREV001")) "invalid revision record";;
  Ok (slice 8 32 b).

(** ** The inode codec *)

(** [InodeInfo decode_inode(const Bytes& b,const std::string& id,bool orphan)] *)
Definition decode_inode (b id : Bytes) (orphan : bool) : result InodeInfo :=
  need ((len b =? 48) && bytes_eqb (slice 0 8 b) (bs "FFINOD01")) "invalid inode record";;
  let type := load (drop 8 b) 4 in
  let mode := load (drop 12 b) 4 in
  need (((type =? 1) || (type =? 2) || (type =? 3)) && (mode <=? 511)) "unsupported inode attributes";;
  let n := mkInode id (type =? 2) mode (load (drop 16 b) 8) (load (drop 24 b) 8) (load (drop 32 b) 8)
             (load (drop 40 b) 8) (type =? 3) in
  need ((if orphan then negb (i_directory n) && negb (i_symlink n) && (i_links n =? 0) else 0 <? i_links n)
        && (negb (i_directory n) || ((2 <=? i_links n) && (i_size n =? 0)))) "invalid inode state";;
  Ok n.

(** [Bytes encode(const InodeInfo& n)] *)
Definition encode (n : InodeInfo) : Bytes :=
  let b := zeros 48 in
  let b := memcpy b 0 (bs "FFINOD01") in
  let b := memcpy b 8 (store (if i_symlink n then 3 else if i_directory n then 2 else 1) 4) in
  let b := memcpy b 12 (store (i_mode n) 4) in
  let b := memcpy b 16 (store (i_links n) 8) in
  let b := memcpy b 24 (store (i_size n) 8) in
  let b := memcpy b 32 (store (i_modified_ns n) 8) in
  memcpy b 40 (store (i_changed_ns n) 8).

Definition set_links (links : Z) (n : InodeInfo) : InodeInfo :=
  mkInode (i_id n) (i_directory n) (i_mode n) links (i_size n) (i_modified_ns n) (i_changed_ns n) (i_symlink n).
Definition set_size (size : Z) (n : InodeInfo) : InodeInfo :=
  mkInode (i_id n) (i_directory n) (i_mode n) (i_links n) size (i_modified_ns n) (i_changed_ns n) (i_symlink n).
Definition set_mode (mode : Z) (n : InodeInfo) : InodeInfo :=
  mkInode (i_id n) (i_directory n) mode (i_links n) (i_size n) (i_modified_ns n) (i_changed_ns n) (i_symlink n).
Definition set_times (modified changed : Z) (n : InodeInfo) : InodeInfo :=
  mkInode (i_id n) (i_directory n) (i_mode n) (i_links n) (i_size n) modified changed (i_symlink n).
Definition set_changed (changed : Z) (n : InodeInfo) : InodeInfo := set_times (i_modified_ns n) changed n.

(** ** Paths *)

Definition slash : byte := z2b 47.

(** The pieces between separators, as repeated [find] and [substr] cut them. *)
Fixpoint split (sep : byte) (s : Bytes) : list Bytes :=
  match s with
  | [] => [[]]
  | c :: rest =>
      if bool_decide (c = sep) then [] :: split sep rest
      else match split sep rest with p :: ps => (c :: p) :: ps | [] => [[c]] end
  end.
Definition pieces (s : Bytes) : list Bytes := split slash s.

Definition printable (c : byte) : bool := (32 <=? b2z c) && (b2z c <=? 126).

Definition proper_name (name : Bytes) : bool :=
  bool_decide (name ≠ []) && bool_decide (name ≠ bs ".") && bool_decide (name ≠ bs "..") && (len name <=? 255).

Fixpoint check_pieces (l : list Bytes) : result (list Bytes) :=
  match l with
  | [] => Ok []
  | name :: rest =>
      need (proper_name name) "invalid path component";;
      need (forallb printable name) "prototype names must be printable ASCII";;
      need (bool_decide (rest ≠ [[]])) "trailing slash is unsupported";;
      names ← check_pieces rest;
      Ok (name :: names)
  end.

(** [std::vector<std::string> components(const std::string& path)] *)
Definition components (path : Bytes) : result (list Bytes) :=
  need (bool_decide (head path = Some slash) && (len path <=? 4096))
    "path must be absolute and at most 4096 bytes";;
  if bytes_eqb path (bs "/") then Ok [] else check_pieces (pieces (tail path)).

Fixpoint target_pieces (l : list Bytes) : result (list Bytes) :=
  match l with
  | [] => Ok []
  | name :: rest =>
      if bool_decide (name = []) then target_pieces rest
      else
        need (len name <=? 255) "invalid symlink component";;
        names ← target_pieces rest;
        Ok (name :: names)
  end.

(** [std::vector<std::string> target_components(const std::string& target)] *)
Definition target_components (target : Bytes) : result (list Bytes) :=
  need (bool_decide (target ≠ []) && (len target <=? 4096)) "invalid symlink target length";;
  need (forallb printable target) "prototype symlink targets must be printable ASCII";;
  names ← target_pieces (pieces target);
  Ok (if bool_decide (last target = Some slash) && bool_decide (names ≠ []) then names ++ [bs "."] else names).

(** [struct Parent {std::string id,name,key;}] *)
Record Parent := mkParent { p_id : Bytes; p_name : Bytes; p_key : Bytes }.

(** What [walk] returns: the inode, the directories on the way to it (the last one first),
    and the missing entry when the caller accepts one and the last name has none. *)
Record walked := mkWalked { w_id : Bytes; w_stack : list Bytes; w_missing : option Parent }.

Section Walk.
Context `{Digest} {J : Type} `{JournalLike J} (j : J).
Implicit Types v : NamespaceView.view.

(** [std::string root(const NamespaceView& journal)] *)
Definition root : ST NamespaceView.view Bytes :=
  NamespaceView.contains j root_key ≫= λ c : bool,
  st_need c "filesystem not initialized; use fs-init";;
  b ← NamespaceView.get j root_key;
  lift (decode_id b).

(** [InodeInfo inode(const NamespaceView& journal,const std::string& id)] *)
Definition inode (id : Bytes) : ST NamespaceView.view InodeInfo :=
  b ← NamespaceView.get j (inode_key id);
  lift (decode_inode b id false).

(** The loop of [walk]; [stack] has its back first, [rid] is its front. *)
Fixpoint walk_loop (fuel : nat) (rid : Bytes) (follow_final missing : bool)
    (stack pending : list Bytes) (id : Bytes) (follows expanded : Z) : ST NamespaceView.view walked :=
  match pending with
  | [] => mret (mkWalked id stack None)
  | name :: pending =>
      match fuel with
      | O => lift OutOfFuel
      | S fuel' =>
          let id := default [] (head stack) in
          n ← inode id;
          st_need (i_directory n) "path component is not a directory";;
          if bool_decide (name = bs ".") then
            walk_loop fuel' rid follow_final missing stack pending id follows expanded
          else if bool_decide (name = bs "..") then
            let stack := match stack with _ :: (_ :: _) as rest => rest | _ => stack end in
            walk_loop fuel' rid follow_final missing stack pending (default [] (head stack)) follows expanded
          else
            let key := entry_key id name in
            NamespaceView.contains j key ≫= λ c : bool,
            if negb c then
              st_need (missing && bool_decide (pending = [])) "path not found";;
              mret (mkWalked [] stack (Some (mkParent id name key)))
            else
              b ← NamespaceView.get j key;
              child ← lift (decode_id b);
              n ← inode child;
              if i_symlink n && (follow_final || bool_decide (pending ≠ [])) then
                let follows := follows + 1 in
                st_need (follows <=? 40) "too many symbolic links";;
                target ← NamespaceView.get j (content_key child);
                st_need (len target =? i_size n) "symlink size mismatch";;
                parts ← lift (target_components target);
                let expanded := expanded + len target in
                st_need (expanded <=? 65536) "symlink expansion limit";;
                let stack := if bool_decide (head target = Some slash) then [rid] else stack in
                walk_loop fuel' rid follow_final missing stack (parts ++ pending) (default [] (head stack))
                  follows expanded
              else walk_loop fuel' rid follow_final missing (child :: stack) pending child follows expanded
      end
  end.

(** Every name taken from [pending] is one of the caller's or a byte of an expanded target. *)
Definition walk_fuel (names : list Bytes) : nat := length names + Z.to_nat 65536.

(** [std::string walk(journal,names,count,ancestry,follow_final,missing)]; the names are the
    first [count]. *)
Definition walk (names : list Bytes) (follow_final missing : bool) : ST NamespaceView.view walked :=
  rid ← root;
  walk_loop (walk_fuel names) rid follow_final missing [rid] names rid 0 0.

(** [Parent parent(const NamespaceView& journal,const std::string& path,ancestry)], with the
    ancestry of the parent. *)
Definition parent (path : Bytes) : ST NamespaceView.view (Parent * list Bytes) :=
  names ← lift (components path);
  st_need (bool_decide (names ≠ [])) "cannot modify filesystem root";;
  let name := default [] (last names) in
  w ← walk (take (length names - 1) names) true false;
  n ← inode (w_id w);
  st_need (i_directory n) "parent is not a directory";;
  mret (mkParent (w_id w) name (entry_key (w_id w) name), w_stack w).

(** [std::string resolve(const NamespaceView& journal,const std::string& path,bool follow,Parent* missing)] *)
Definition resolve (path : Bytes) (follow missing : bool) : ST NamespaceView.view walked :=
  names ← lift (components path);
  walk names follow missing.
End Walk.
End Nodes.
