(* ===== verification/Namespace.v ===== *)
(** * The namespace of a world ([daemon/namespace.cpp], [daemon/namespace.h])

    [Module Namespace] translates the class: the commit of a set of changes, the retry loop
    around an update with its offline compaction and its backpressure, worlds and revisions,
    and the operations on paths.  An operation runs on [work]: the container with its clock and
    entropy, and the view that the operation has opened. *)

From S2P Require Import Prelude Codec Journal MetadataTree Store MetadataView Container Compaction Maintenance Nodes.
Import Container Nodes.
Local Open Scope Z_scope.

Module Namespace.

Abbreviation Changes := (gmap Bytes (option Bytes)).

(** The members of a [Namespace] beside the reference to its container. *)
Record ns := mkNs { view_ : Bytes; revision_ : bool }.

Record work (J : Type) := mkWork { w_sys : sys J; w_view : NamespaceView.view }.
Arguments mkWork {J}. Arguments w_sys {J}. Arguments w_view {J}.

(** [struct Attributes] *)
Record Attributes := mkAttributes { a_mode : option Z; a_modified_ns : option Z; a_size : option Z }.

(** [class DirectoryCursor]: the identity of its container, its pin, and its place. *)
Record DirectoryCursor := mkDirectory {
  d_lifetime : nat; d_pin : option nat; d_view : Bytes; d_prefix : Bytes; d_after : Bytes;
  d_revision : bool; d_done : bool; d_manifest : Id
}.
Record DirectoryPage := mkPage { names : list Bytes; eof : bool; entries : list (Bytes * InodeInfo) }.

Section Operations.
Context `{Digest} {J : Type} `{JournalLike J}.

(** ** Running under the lock *)

Definition on_view {A} (m : J → ST NamespaceView.view A) : ST (work J) A := λ w,
  let '(v, r) := m (journal_ (cont (w_sys w))) (w_view w) in (mkWork (w_sys w) v, r).
Definition on_sys {A} (m : ST (sys J) A) : ST (work J) A := λ w,
  let '(s, r) := m (w_sys w) in (mkWork s (w_view w), r).
Definition with_view {A} (v : NamespaceView.view) (m : ST (work J) A) : ST (sys J) A := λ s,
  let '(w, r) := m (mkWork s v) in (w_sys w, r).

(** A read of the journal member. *)
Definition reading {A} (f : J → result A) : ST (sys J) A := λ s, (s, f (journal_ (cont s))).

(** [NamespaceView view(journal,view_,revision_)] *)
Definition open_view (n : ns) : ST (sys J) NamespaceView.view :=
  reading (λ j, NamespaceView.open j (view_ n) (revision_ n) true).

(** The body of a reading operation: lock, open the view, run. *)
Definition read_only {A} (n : ns) (m : ST (work J) A) : ST (sys J) A :=
  acquire;; v ← open_view n; with_view v m.

(** ** Fresh identities and times *)

Fixpoint new_id_attempt (attempts : nat) : ST (work J) Bytes :=
  match attempts with
  | O => throw "inode identity collision"
  | S attempts' =>
      id ← on_sys (random_hex "inode entropy");
      on_view (λ j, NamespaceView.contains j (allocated_key id)) ≫= λ allocated : bool,
      if allocated then new_id_attempt attempts' else
      on_view (λ j, NamespaceView.contains j (inode_key id)) ≫= λ used : bool,
      if used then new_id_attempt attempts' else mret id
  end.

(** [std::string new_id(const NamespaceView& journal)] *)
Definition new_id : ST (work J) Bytes := new_id_attempt 8.

(** [void touch(InodeInfo& n)] *)
Definition touch (n : InodeInfo) : ST (work J) InodeInfo := t ← on_sys now; mret (set_times t t n).

(** An inode created now. *)
Definition created (id : Bytes) (directory : bool) (mode links size : Z) (symlink : bool) : ST (work J) InodeInfo :=
  m ← on_sys now; c ← on_sys now; mret (mkInode id directory mode links size m c symlink).

Definition inode (id : Bytes) : ST (work J) InodeInfo := on_view (λ j, Nodes.inode j id).
Definition parent (path : Bytes) : ST (work J) Parent := p ← on_view (λ j, Nodes.parent j path); mret p.1.
Definition resolve (path : Bytes) (follow : bool) : ST (work J) Bytes :=
  w ← on_view (λ j, Nodes.resolve j path follow false); mret (w_id w).
Definition contains (key : Bytes) : ST (work J) bool := on_view (λ j, NamespaceView.contains j key).
Definition get (key : Bytes) : ST (work J) Bytes := on_view (λ j, NamespaceView.get j key).
Definition reference (key : Bytes) : ST (work J) Bytes := b ← get key; lift (decode_id b).

(** ** Committing changes *)

Definition world_key (n : ns) : Bytes := Compaction.world_key (view_ n).

(** The loop of [commit_changes] over the changes: the orphan records of the batch, the
    references that change, and the objects to add. *)
Fixpoint split_changes (j : J) (l : list (Bytes * option Bytes)) (batch : list Journal.Mutation)
    (delta : NamespaceView.Changes) (new_objects : gmap Bytes Bytes)
    : result (list Journal.Mutation * NamespaceView.Changes * gmap Bytes Bytes) :=
  match l with
  | [] => Ok (batch, delta, new_objects)
  | (key, value) :: rest =>
      if starts_with (history ++ bs "orphan/") key then
        split_changes j rest (batch ++ [Journal.mkMutation key value None]) delta new_objects
      else
        match value with
        | None => split_changes j rest batch (<[key := None]> delta) new_objects
        | Some b =>
            let id := object_hash b in
            let object := Compaction.object_key id in
            c ← j_contains j object;
            let new_objects := if (c : bool) then new_objects else Journal.emplace object b new_objects in
            let allocated := prefix ++ bs "allocated/" in
            let new_objects :=
              if starts_with allocated key
              then Journal.emplace (history ++ bs "allocated/" ++ drop (length allocated) key) [] new_objects
              else new_objects in
            split_changes j rest batch (<[key := Some id]> delta) new_objects
        end
  end.

Fixpoint plan_objects (j : J) (l : list Bytes) (new_objects : gmap Bytes Bytes) : result (gmap Bytes Bytes) :=
  match l with
  | [] => Ok new_objects
  | b :: rest =>
      let key := Compaction.object_key (object_hash b) in
      c ← j_contains j key;
      plan_objects j rest (if (c : bool) then new_objects else Journal.emplace key b new_objects)
  end.

(** The batch [commit_changes] writes. *)
Definition changes_batch (n : ns) (changes : Changes) : ST (work J) (list Journal.Mutation) :=
  v ← gets w_view;
  (if NamespaceView.legacy_ v then c ← contains root_key; mret (negb c) else mret false) ≫= λ initial : bool,
  if initial then mret ((λ '(k, v), Journal.mkMutation k v None) <$> in_order changes) else
  j ← gets (λ w, journal_ (cont (w_sys w)));
  '(batch, delta, new_objects) ← lift (split_changes j (in_order changes) [] ∅ ∅);
  if bool_decide (delta = ∅) then mret batch else
  p ← on_view (λ j, NamespaceView.plan j delta false);
  new_objects ← lift (plan_objects j (NamespaceView.objects p) new_objects);
  mret (batch ++ ((λ '(k, v), Compaction.put_mutation k v) <$> in_order new_objects)
          ++ [Compaction.put_mutation (world_key n) (NamespaceView.manifest p)]).

(** [void Namespace::commit_changes(const NamespaceView& view,Changes& changes)] *)
Definition commit_changes (n : ns) (changes : Changes) : ST (work J) unit :=
  if bool_decide (changes = ∅) then mret tt else
  batch ← changes_batch n changes;
  on_sys (Compaction.commit batch).

(** ** Compaction and the update loop *)

Fixpoint compact_retry (retries : nat) (world : Bytes) : ST (sys J) unit :=
  match retries with
  | O => throw "compaction busy: World head keeps changing"
  | S retries' =>
      t ← Compaction.prepare (Compaction.create world);
      t ← lift (Compaction.build t);
      '(_, installed) ← Compaction.install t;
      if (installed : bool) then mret tt else compact_retry retries' world
  end.

(** [void Namespace::compact()] *)
Definition compact (n : ns) : ST (sys J) unit :=
  st_need (negb (revision_ n)) "revision view is read-only";;
  acquire;;
  c ← gets cont;
  if j_leveldb (journal_ c) then
    v ← reading (λ j, NamespaceView.open j (view_ n) false true);
    with_view v (on_view (λ j, root j));;
    locked (on_journal j_compact)
  else compact_retry 8 (view_ n).

(** The wait for the background compaction of a world at the hard limit. *)
Definition backpressure (n : ns) : ST (sys J) unit :=
  locked (modify (Maintenance.schedule_compaction_locked (view_ n)));;
  before ← reading (λ j, j_root j (world_key n));
  failures ← gets (λ s, default 0 (compaction_world_failures_ (cont s) !! view_ n));
  acquire;;
  c ← gets cont;
  let failed := default 0 (compaction_world_failures_ c !! view_ n) in
  progress ← (if compaction_stop_ c || negb (failed =? failures) then mret true
              else after ← reading (λ j, j_root j (world_key n)); mret (bool_decide (after ≠ before)));
  st_need progress "compaction backpressure timeout";;
  st_need (failed =? failures) "background compaction failed; inspect service status".

Inductive attempt (A : Type) := Unchanged (a : A) | Offline | Wait | Committed (background : bool) (a : A).
Arguments Unchanged {A}. Arguments Offline {A}. Arguments Wait {A}. Arguments Committed {A}.

(** The part of one pass of [update] under the lock. *)
Definition attempt_update {A} (n : ns) (operation : ST (work J) (Changes * A)) (compacted : bool)
    : ST (work J) (attempt A) :=
  '(changes, a) ← operation;
  if bool_decide (changes = ∅) then mret (Unchanged a) else
  w ← get_st;
  let c := cont (w_sys w) in
  let runs := NamespaceView.run_count (w_view w) in
  let background := compaction_running_ c && negb (compaction_stop_ c) in
  if negb background && negb compacted && (NamespaceView.soft_run_limit <=? runs) then mret Offline else
  if background && (NamespaceView.hard_run_limit <=? runs) then mret Wait else
  st_need (runs <? NamespaceView.hard_run_limit) "namespace run capacity exhausted";;
  commit_changes n changes;;
  mret (Committed background a).

(** The scheduling after a commit while the worker runs. *)
Definition schedule_due (n : ns) : ST (sys J) unit :=
  u ← reading (λ j, NamespaceView.open j (view_ n) false false);
  if NamespaceView.soft_run_limit <=? NamespaceView.run_count u
  then locked (modify (Maintenance.schedule_compaction_locked (view_ n))) else mret tt.

Fixpoint update_loop {A} (fuel : nat) (n : ns) (operation : ST (work J) (Changes * A)) (compacted : bool)
    : ST (sys J) A :=
  match fuel with
  | O => lift OutOfFuel
  | S fuel' =>
      acquire;;
      v ← open_view n;
      step ← with_view v (attempt_update n operation compacted);
      match step with
      | Unchanged a => mret a
      | Offline => compact n;; update_loop fuel' n operation true
      | Wait => backpressure n;; update_loop fuel' n operation compacted
      | Committed background a => (if background then schedule_due n else mret tt);; mret a
      end
  end.

(** [void Namespace::update(operation)]: a pass is repeated only after an offline compaction,
    once, or after other threads have acted during a wait. *)
Definition update {A} (n : ns) (operation : ST (work J) (Changes * A)) : ST (sys J) A :=
  st_need (negb (revision_ n)) "revision view is read-only";;
  s ← get_st;
  update_loop (length (others s) + 2) n operation false.

Definition update_ (n : ns) (operation : ST (work J) Changes) : ST (sys J) unit :=
  update n (c ← operation; mret (c, tt)).
End Operations.
End Namespace.
