(* ===== verification/Worlds.v ===== *)
(** * Worlds and revisions ([daemon/namespace.cpp], snapshot to initialize)

    A revision is a named, immutable descriptor of a manifest and its parent revision; a world
    forked from it starts at the same manifest.  [Module Worlds] translates the operations of
    [Namespace] that create and list them, and [initialize]. *)

From S2P Require Import Prelude Codec Journal MetadataTree Store MetadataView Container Compaction Maintenance Nodes Namespace.
Import Container Nodes Namespace.
Local Open Scope Z_scope.

Module Worlds.
Section Operations.
Context `{Digest} {J : Type} `{JournalLike J}.

Definition revision_key (name : Bytes) : Bytes := history ++ bs "revision/" ++ name.
Definition base_key (world : Bytes) : Bytes := history ++ bs "base/" ++ world.

(** The mutations that add the objects a journal lacks under their registry names. *)
Fixpoint add_objects (j : J) (l : list Bytes) : result (list Journal.Mutation) :=
  match l with
  | [] => Ok []
  | b :: rest =>
      let key := Compaction.object_key (object_hash b) in
      c ← j_contains j key;
      ms ← add_objects j rest;
      Ok (if (c : bool) then ms else Compaction.put_mutation key b :: ms)
  end.

(** The descriptor of a revision. *)
Definition descriptor (manifest_id parent_id : Id) (sequence : Z) : Bytes :=
  let d := zeros 80 in
  let d := memcpy d 0 (bs "FFREV001") in
  let d := memcpy d 8 manifest_id in
  let d := memcpy d 40 parent_id in
  memcpy d 72 (store sequence 8).

(** The parent revision of a world. *)
Definition parent_revision (j : J) (world : Bytes) : result Id :=
  c ← j_contains j (base_key world);
  if (c : bool) then
    p ← j_get j (base_key world);
    need (len p =? 32) "invalid revision ancestry";;
    d ← get_object j p;
    need ((len d =? 80) && bytes_eqb (slice 0 8 d) (bs "FFREV001")) "invalid parent revision";;
    Ok p
  else Ok zero_id.

(** The manifest a snapshot refers to, with the mutations that store it when the world is
    still flat. *)
Definition snapshot_manifest (n : ns) : ST (work J) (Id * list Journal.Mutation) :=
  j ← gets (λ w, journal_ (cont (w_sys w)));
  v ← gets w_view;
  if NamespaceView.legacy_ v then
    p ← on_view (λ j, NamespaceView.plan j ∅ false);
    batch ← lift (add_objects j (NamespaceView.objects p ++ [NamespaceView.manifest p]));
    mret (object_hash (NamespaceView.manifest p), batch)
  else id ← lift (j_root j (world_key n)); mret (id, []).

(** [std::string Namespace::snapshot(const std::string& name)] *)
Definition snapshot (n : ns) (name : Bytes) : ST (sys J) Bytes :=
  lift (NamespaceView.valid_name name);;
  st_need (negb (revision_ n)) "revision view is read-only";;
  acquire;;
  c ← reading (λ j, j_contains j (revision_key name));
  st_need (negb c) "revision name already exists";;
  v ← reading (λ j, NamespaceView.open j (view_ n) false true);
  with_view v (
    on_view (λ j, root j);;
    '(manifest_id, batch) ← snapshot_manifest n;
    j ← gets (λ w, journal_ (cont (w_sys w)));
    parent_id ← lift (parent_revision j (view_ n));
    let d := descriptor manifest_id parent_id (j_sequence j) in
    let id := object_hash d in
    on_sys (Compaction.commit (batch ++ [Compaction.put_mutation (revision_key name) d;
                                         Compaction.put_mutation (base_key (view_ n)) id]));;
    mret (hex_id id)).

(** [void Namespace::fork(const std::string& revision,const std::string& world)] *)
Definition fork (n : ns) (revision world : Bytes) : ST (sys J) unit :=
  lift (NamespaceView.valid_name revision);;
  lift (NamespaceView.valid_name world);;
  st_need (bool_decide (world ≠ bs "main")) "main World already exists";;
  st_need (negb (revision_ n)) "revision view is read-only";;
  acquire;;
  taken ← reading (λ j, j_contains j (Compaction.world_key world) ≫= λ c : bool,
                        if c then Ok true else j_contains j (base_key world));
  st_need (negb taken) "World already exists";;
  manifest ← reading (λ j, revision_manifest j revision);
  v ← reading (λ j, NamespaceView.open j revision true true);
  with_view v (on_view (λ j, root j));;
  revision_id ← reading (λ j, j_root j (revision_key revision));
  Compaction.commit [Journal.mkMutation (Compaction.world_key world) None (Some manifest);
                     Compaction.put_mutation (base_key world) revision_id].

Fixpoint named (skip : nat) (keys : list Bytes) : result (list Bytes) :=
  match keys with
  | [] => Ok []
  | key :: rest =>
      let name := drop skip key in
      NamespaceView.valid_name name;;
      l ← named skip rest;
      Ok (name :: l)
  end.

(** [std::vector<std::string> Namespace::worlds() const] *)
Definition worlds : ST (sys J) (list Bytes) :=
  acquire;;
  initialized ← reading (λ j, j_contains j root_key);
  let p := history ++ bs "world/" in
  keys ← reading (λ j, j_keys j p);
  l ← lift (named (length p) keys);
  mret ((if (initialized : bool) then [bs "main"] else []) ++ filter (λ w, w ≠ bs "main") l).

(** [std::vector<std::string> Namespace::revisions() const] *)
Definition revisions : ST (sys J) (list Bytes) :=
  acquire;;
  let p := history ++ bs "revision/" in
  keys ← reading (λ j, j_keys j p);
  lift (named (length p) keys).

(** [size_t Namespace::run_count() const] *)
Definition run_count (n : ns) : ST (sys J) Z :=
  read_only n (on_view (λ j, root j);; gets (λ w, NamespaceView.run_count (w_view w))).

(** [void Namespace::initialize()] *)
Definition initialize (n : ns) : ST (sys J) unit :=
  st_need (bytes_eqb (view_ n) (bs "main") && negb (revision_ n)) "fs-init initializes main only";;
  update_ n (
    c ← contains root_key;
    st_need (negb c) "filesystem already initialized";;
    ks ← on_view (λ j, NamespaceView.keys j prefix);
    st_need (bool_decide (ks = [])) "orphan filesystem records prevent initialization";;
    id ← new_id;
    i ← created id true 493 2 0 false;
    r ← lift (id_bytes id);
    mret (<[root_key := Some r]> (<[inode_key id := Some (encode i)]> (<[allocated_key id := Some []]> ∅)))).
End Operations.
End Worlds.
