(* ===== verification/Files.v ===== *)
(** * Files, directories and links ([daemon/namespace.cpp], mkdir to rename)

    [Module Files] translates the operations of [Namespace] on paths: each reads the view,
    computes the records that change and hands them to [update]. *)

From S2P Require Import Prelude Codec Journal MetadataTree Store MetadataView Container Compaction Maintenance Nodes Namespace.
Import Container Nodes Namespace.
Local Open Scope Z_scope.

Module Files.

Definition max_file : Z := 256 * 1024.

(** [data.resize(n,0)] *)
Definition resize (data : Bytes) (n : Z) : Bytes :=
  take (Z.to_nat n) data ++ zeros (Z.to_nat n - length data).

(** Writing [value] at [at_], growing the data with zeros as needed. *)
Definition overwrite (data : Bytes) (at_ : Z) (value : Bytes) : Bytes :=
  let end_ := at_ + len value in
  memcpy (if len data <? end_ then resize data end_ else data) (Z.to_nat at_) value.

(** The part of [data] a read of [count] bytes at [offset] returns. *)
Definition extract (data : Bytes) (offset count : Z) : Bytes :=
  if (len data <=? offset) || (count =? 0) then []
  else slice (Z.to_nat offset) (Z.to_nat (Z.min count (len data - offset))) data.

Section Operations.
Context `{Digest} {J : Type} `{JournalLike J}.

(** [void Namespace::mkdir(const std::string& path,uint32_t mode)] *)
Definition mkdir (n : ns) (path : Bytes) (mode : Z) : ST (sys J) unit :=
  st_need (mode <=? 511) "invalid creation mode";;
  update_ n (
    p ← parent path;
    exists_ ← contains (p_key p);
    st_need (negb exists_) "path already exists";;
    id ← new_id;
    i ← created id true mode 2 0 false;
    pn ← inode (p_id p);
    st_need (i_links pn <? UINT64_MAX) "directory link count exhausted";;
    pn ← touch (set_links (i_links pn + 1) pn);
    r ← lift (id_bytes id);
    mret (<[allocated_key id := Some []]> (<[inode_key (p_id p) := Some (encode pn)]>
            (<[inode_key id := Some (encode i)]> (<[p_key p := Some r]> ∅))))).

(** Where [write] goes: the entry, whether it exists, and the inode. *)
Definition write_target (path : Bytes) : ST (work J) (Parent * bool * Bytes) :=
  p ← parent path;
  there ← contains (p_key p);
  id ← (if (there : bool) then reference (p_key p) else new_id);
  link ← (if (there : bool) then i ← inode id; mret (i_symlink i) else mret false);
  if (link : bool) then
    w ← on_view (λ j, Nodes.resolve j path true true);
    match w_missing w with
    | Some q => id ← new_id; mret (q, false, id)
    | None => mret (p, true, w_id w)
    end
  else mret (p, there, id).

(** The changes of [write]. *)
Definition write_changes (path value : Bytes) : ST (work J) Changes :=
  '(p, there, id) ← write_target path;
  i ← (if (there : bool) then inode id else created id false 420 1 0 false);
  st_need (negb (i_directory i) && negb (i_symlink i)) "cannot write non-regular file";;
  i ← touch (set_size (len value) i);
  let c : Changes := <[content_key id := Some value]> (<[inode_key id := Some (encode i)]> ∅) in
  if (there : bool) then mret c else
  pn ← inode (p_id p);
  pn ← touch pn;
  r ← lift (id_bytes id);
  mret (<[allocated_key id := Some []]> (<[p_key p := Some r]> (<[inode_key (p_id p) := Some (encode pn)]> c))).

(** [void Namespace::write(const std::string& path,const Bytes& value)] *)
Definition write (n : ns) (path value : Bytes) : ST (sys J) unit :=
  st_need (len value <=? max_file) "prototype files are limited to 256 KiB";;
  update_ n (write_changes path value).

(** [void Namespace::retire(const NamespaceView& j,Changes& c,const InodeInfo& n)] *)
Definition retire (n : ns) (c : Changes) (i : InodeInfo) : ST (work J) Changes :=
  let c := <[inode_key (i_id i) := None]> c in
  if i_directory i then mret c else
  let c := <[content_key (i_id i) := None]> c in
  counts ← gets (λ w, open_counts_ (cont (w_sys w)));
  match counts !! (view_ n, i_id i) with
  | Some k =>
      if k =? 0 then mret c else
      t ← on_sys now;
      let orphan := set_changed t (set_links 0 i) in
      let pre := orphan_prefix (view_ n) (i_id i) in
      b ← get (content_key (i_id i));
      mret (<[pre ++ bs "content" := Some b]> (<[pre ++ bs "inode" := Some (encode orphan)]> c))
  | None => mret c
  end.

(** Dropping one link of an inode: the last one retires it. *)
Definition drop_link (n : ns) (c : Changes) (i : InodeInfo) : ST (work J) Changes :=
  if i_directory i || (i_links i =? 1) then retire n c i
  else t ← on_sys now; mret (<[inode_key (i_id i) := Some (encode (set_changed t (set_links (i_links i - 1) i)))]> c).

(** [void Namespace::replace_file(const std::string& path,const Bytes& value)] *)
Definition replace_file (n : ns) (path value : Bytes) : ST (sys J) unit :=
  st_need (len value <=? max_file) "prototype files are limited to 256 KiB";;
  update_ n (
    p ← parent path;
    there ← contains (p_key p);
    '(mode, c) ←
      (if (there : bool) then
         old_id ← reference (p_key p);
         old ← inode old_id;
         st_need (negb (i_directory old)) "cannot replace directory with a file";;
         c ← drop_link n ∅ old;
         mret (if i_symlink old then 420 else i_mode old, c)
       else mret (420, ∅));
    id ← new_id;
    i ← created id false mode 1 (len value) false;
    pn ← inode (p_id p);
    pn ← touch pn;
    r ← lift (id_bytes id);
    mret (<[inode_key (p_id p) := Some (encode pn)]> (<[p_key p := Some r]> (<[allocated_key id := Some []]>
            (<[content_key id := Some value]> (<[inode_key id := Some (encode i)]> c)))))).

(** [Bytes Namespace::read(const std::string& path) const] *)
Definition read (n : ns) (path : Bytes) : ST (sys J) Bytes :=
  read_only n (
    id ← resolve path true;
    i ← inode id;
    st_need (negb (i_directory i)) "cannot read a directory";;
    value ← get (content_key id);
    st_need (len value =? i_size i) "inode size mismatch";;
    mret value).

(** The changes of [edit_content]: the edit gives the new data, or nothing when it leaves the
    file alone, and a value for the caller. *)
Definition edit_changes {A} (path : Bytes) (edit : Bytes → result (option Bytes * A)) : ST (work J) (Changes * A) :=
  id ← resolve path true;
  i ← inode id;
  st_need (negb (i_directory i)) "cannot modify directory content";;
  value ← get (content_key id);
  st_need (len value =? i_size i) "inode size mismatch";;
  '(edited, a) ← lift (edit value);
  match edited with
  | None => mret (∅, a)
  | Some value =>
      st_need (len value <=? max_file) "prototype files are limited to 256 KiB";;
      i ← touch (set_size (len value) i);
      mret (<[content_key id := Some value]> (<[inode_key id := Some (encode i)]> ∅), a)
  end.

(** [void Namespace::edit_content(const std::string& path,edit)] *)
Definition edit_content {A} (n : ns) (path : Bytes) (edit : Bytes → result (option Bytes * A)) : ST (sys J) A :=
  update n (edit_changes path edit).

(** The edits of [write_at], [append] and [truncate]. *)
Definition write_at_edit (offset : Z) (value data : Bytes) : result (option Bytes * unit) :=
  Ok (if bool_decide (value = []) then None else Some (overwrite data offset value), tt).
Definition append_edit (value data : Bytes) : result (option Bytes * Z) :=
  need ((len data <=? max_file) && (len value <=? max_file - len data)) "prototype files are limited to 256 KiB";;
  Ok (if bool_decide (value = []) then None else Some (data ++ value), len data).
Definition truncate_edit (size : Z) (data : Bytes) : result (option Bytes * unit) :=
  Ok (if len data =? size then None else Some (resize data size), tt).

(** [void Namespace::write_at(const std::string& path,uint64_t offset,const Bytes& value)] *)
Definition write_at (n : ns) (path : Bytes) (offset : Z) (value : Bytes) : ST (sys J) unit :=
  st_need (offset <=? INT64_MAX) "file offset exceeds signed 64-bit range";;
  st_need (bool_decide (value = []) || ((offset <=? max_file) && (len value <=? max_file - offset)))
    "prototype files are limited to 256 KiB";;
  edit_content n path (write_at_edit offset value).

(** [uint64_t Namespace::append(const std::string& path,const Bytes& value)] *)
Definition append (n : ns) (path value : Bytes) : ST (sys J) Z :=
  st_need (len value <=? max_file) "prototype files are limited to 256 KiB";;
  edit_content n path (append_edit value).

(** [void Namespace::truncate(const std::string& path,uint64_t size)] *)
Definition truncate (n : ns) (path : Bytes) (size : Z) : ST (sys J) unit :=
  st_need (size <=? max_file) "prototype files are limited to 256 KiB";;
  edit_content n path (truncate_edit size).

(** [Bytes Namespace::read_at(const std::string& path,uint64_t offset,uint64_t count) const] *)
Definition read_at (n : ns) (path : Bytes) (offset count : Z) : ST (sys J) Bytes :=
  st_need (offset <=? INT64_MAX) "file offset exceeds signed 64-bit range";;
  data ← read n path;
  mret (extract data offset count).

(** [std::vector<std::string> Namespace::list(const std::string& path) const] *)
Definition list_ (n : ns) (path : Bytes) : ST (sys J) (list Bytes) :=
  read_only n (
    id ← resolve path true;
    i ← inode id;
    st_need (i_directory i) "path is not a directory";;
    let pre := directory_prefix id in
    ks ← on_view (λ j, NamespaceView.keys j pre);
    mret (drop (length pre) <$> ks)).

(** [InodeInfo Namespace::stat(const std::string& path) const] *)
Definition stat (n : ns) (path : Bytes) : ST (sys J) InodeInfo :=
  read_only n (id ← resolve path true; inode id).

(** [InodeInfo Namespace::lstat(const std::string& path) const] *)
Definition lstat (n : ns) (path : Bytes) : ST (sys J) InodeInfo :=
  read_only n (id ← resolve path false; inode id).

(** [void valid_attributes(const Namespace::Attributes& a)] *)
Definition valid_attributes (a : Attributes) : result unit :=
  need (match a_mode a with Some m => m <=? 511 | None => true end) "unsupported mode bits";;
  need (match a_size a with Some s => s <=? max_file | None => true end) "prototype files are limited to 256 KiB";;
  need (match a_modified_ns a with Some t => t <=? INT64_MAX | None => true end)
    "mtime exceeds supported nanosecond range".

(** [void apply_attributes(InodeInfo& n,const Namespace::Attributes& a)] *)
Definition apply_attributes (i : InodeInfo) (a : Attributes) : ST (work J) InodeInfo :=
  let i := match a_mode a with Some m => set_mode m i | None => i end in
  let i := match a_modified_ns a with Some t => set_times t (i_changed_ns i) i | None => i end in
  t ← on_sys now;
  mret (set_changed t i).

(** No attribute is given, or only the size the inode already has. *)
Definition no_attributes (a : Attributes) (i : InodeInfo) : bool :=
  match a with
  | mkAttributes None None None => true
  | mkAttributes None None (Some s) => s =? i_size i
  | _ => false
  end.

(** [void Namespace::set_attributes(const std::string& path,const Attributes& a)] *)
Definition set_attributes (n : ns) (path : Bytes) (a : Attributes) : ST (sys J) unit :=
  lift (valid_attributes a);;
  update_ n (
    id ← resolve path true;
    i ← inode id;
    if no_attributes a i then mret ∅ else
    '(i, c) ←
      match a_size a with
      | None => mret (i, ∅)
      | Some s =>
          st_need (negb (i_directory i) && negb (i_symlink i)) "only regular files support size changes";;
          data ← get (content_key id);
          st_need (len data =? i_size i) "inode size mismatch";;
          if i_size i =? s then mret (i, ∅)
          else i ← touch (set_size s i); mret (i, <[content_key id := Some (resize data s)]> ∅)
      end;
    i ← apply_attributes i a;
    mret (<[inode_key id := Some (encode i)]> (c : Changes))).

(** [void Namespace::symlink(const std::string& target,const std::string& path)] *)
Definition symlink (n : ns) (target path : Bytes) : ST (sys J) unit :=
  lift (target_components target);;
  update_ n (
    p ← parent path;
    there ← contains (p_key p);
    st_need (negb there) "path already exists";;
    id ← new_id;
    i ← created id false 511 1 (len target) true;
    pn ← inode (p_id p);
    pn ← touch pn;
    r ← lift (id_bytes id);
    mret (<[inode_key (p_id p) := Some (encode pn)]> (<[p_key p := Some r]> (<[allocated_key id := Some []]>
            (<[content_key id := Some target]> (<[inode_key id := Some (encode i)]> ∅)))))).

(** [std::string Namespace::readlink(const std::string& path) const] *)
Definition readlink (n : ns) (path : Bytes) : ST (sys J) Bytes :=
  read_only n (
    id ← resolve path false;
    i ← inode id;
    st_need (i_symlink i) "path is not a symbolic link";;
    b ← get (content_key id);
    st_need (len b =? i_size i) "symlink size mismatch";;
    lift (target_components b);;
    mret b).

(** [void Namespace::link(const std::string& source,const std::string& target)] *)
Definition link (n : ns) (source target : Bytes) : ST (sys J) unit :=
  update_ n (
    id ← resolve source false;
    i ← inode id;
    st_need (negb (i_directory i)) "directory hard links are forbidden";;
    p ← parent target;
    there ← contains (p_key p);
    st_need (negb there) "target already exists";;
    st_need (i_links i <? UINT64_MAX) "link count exhausted";;
    t ← on_sys now;
    let i := set_changed t (set_links (i_links i + 1) i) in
    pn ← inode (p_id p);
    pn ← touch pn;
    r ← lift (id_bytes id);
    mret (<[allocated_key id := Some []]> (<[inode_key (p_id p) := Some (encode pn)]>
            (<[inode_key id := Some (encode i)]> (<[p_key p := Some r]> ∅))))).

(** [void Namespace::remove(const std::string& path,bool directory)] *)
Definition remove (n : ns) (path : Bytes) (directory : bool) : ST (sys J) unit :=
  update_ n (
    p ← parent path;
    there ← contains (p_key p);
    st_need there "path not found";;
    id ← reference (p_key p);
    i ← inode id;
    pn ← inode (p_id p);
    st_need (eqb (i_directory i) directory) "wrong removal operation for inode type";;
    pn ← (if directory then
            ks ← on_view (λ j, NamespaceView.keys j (directory_prefix id));
            st_need (bool_decide (ks = [])) "directory is not empty";;
            mret (set_links (u64 (i_links pn - 1)) pn)
          else mret pn);
    c ← drop_link n (<[p_key p := None]> ∅) i;
    pn ← touch pn;
    mret (<[inode_key (p_id p) := Some (encode pn)]> c)).

(** The parents of a rename, touched one after the other in the order of their ids. *)
Fixpoint touch_all (l : list (Bytes * InodeInfo)) (c : Changes) : ST (work J) Changes :=
  match l with
  | [] => mret c
  | (id, i) :: rest => i ← touch i; touch_all rest (<[inode_key id := Some (encode i)]> c)
  end.

Definition add_link (d : Z) (id : Bytes) (parents : gmap Bytes InodeInfo) : gmap Bytes InodeInfo :=
  alter (λ i, set_links (u64 (i_links i + d)) i) id parents.
Definition links_of (id : Bytes) (parents : gmap Bytes InodeInfo) : Z :=
  match parents !! id with Some i => i_links i | None => 0 end.

(** The entry a rename replaces; [None] when it is the source itself. *)
Definition displace (n : ns) (id : Bytes) (i : InodeInfo) (dst : Parent) (parents : gmap Bytes InodeInfo)
    : ST (work J) (option (gmap Bytes InodeInfo * Changes)) :=
  there ← contains (p_key dst);
  if negb there then mret (Some (parents, ∅)) else
  replaced ← reference (p_key dst);
  if bool_decide (replaced = id) then mret None else
  other ← inode replaced;
  st_need (eqb (i_directory other) (i_directory i)) "rename inode types differ";;
  parents ← (if i_directory other then
               ks ← on_view (λ j, NamespaceView.keys j (directory_prefix replaced));
               st_need (bool_decide (ks = [])) "target directory is not empty";;
               mret (add_link (-1) (p_id dst) parents)
             else mret parents);
  c ← drop_link n ∅ other;
  mret (Some (parents, c)).

(** [void Namespace::rename(const std::string& source,const std::string& target)] *)
Definition rename (n : ns) (source target : Bytes) : ST (sys J) unit :=
  update_ n (
    src ← parent source;
    there ← contains (p_key src);
    st_need there "source not found";;
    id ← reference (p_key src);
    i ← inode id;
    '(dst, ancestry) ← on_view (λ j, Nodes.parent j target);
    if bytes_eqb (p_key src) (p_key dst) then mret ∅ else
    st_need (negb (i_directory i) || bool_decide (id ∉ ancestry)) "cannot move directory into itself";;
    sn ← inode (p_id src);
    dn ← inode (p_id dst);
    displaced ← displace n id i dst (Journal.emplace (p_id dst) dn {[p_id src := sn]});
    match displaced with
    | None => mret ∅
    | Some (parents, c) =>
        parents ← (if i_directory i && bool_decide (p_id src ≠ p_id dst) then
                     let parents := add_link (-1) (p_id src) parents in
                     st_need (links_of (p_id dst) parents <? UINT64_MAX) "directory link count exhausted";;
                     mret (add_link 1 (p_id dst) parents)
                   else mret parents);
        r ← lift (id_bytes id);
        t ← on_sys now;
        touch_all (in_order parents)
          (<[inode_key id := Some (encode (set_changed t i))]> (<[p_key dst := Some r]> (<[p_key src := None]> c)))
    end).
End Operations.
End Files.
