(* ===== verification/Handles.v ===== *)
(** * Open files and directory cursors ([daemon/namespace.cpp], the handle operations)

    A handle is a random token for an inode of a view; handles made by [dup] share one cursor,
    which carries the file position and the advisory locks.  [open_counts_] counts the handles
    of an inode so that an unlinked file survives as an orphan until the last one is closed.
    [Module Handles] translates these operations and the directory cursors. *)

From S2P Require Import Prelude Codec Journal MetadataTree Store MetadataView Container Compaction Maintenance Nodes Namespace Files.
Import Container Nodes Namespace Files.
Local Open Scope Z_scope.

Module Handles.

(** [enum class Access {Read,Write,ReadWrite}], [enum class Seek], [enum class Lock] *)
Inductive Access := Read | Write | ReadWrite.
Inductive Seek := Set_ | Current | End_.
Inductive Lock := Shared | Exclusive | Unlock.
#[global] Instance Access_eq_dec : EqDecision Access. Proof. solve_decision. Defined.
#[global] Instance Seek_eq_dec : EqDecision Seek. Proof. solve_decision. Defined.
#[global] Instance Lock_eq_dec : EqDecision Lock. Proof. solve_decision. Defined.

(** [struct OpenOptions] *)
Record OpenOptions := mkOptions {
  o_create : bool; o_exclusive : bool; o_truncate : bool; o_mode : Z; o_append : bool; o_nofollow : bool
}.

(** ** Advisory locks on the ranges of a cursor *)

(** Two ranges overlap and at least one is exclusive. *)
Definition conflicts (start end_ mode : Z) (r : LockRange) : bool :=
  (start <? Container.end_ r) && (Container.start r <? end_) && ((mode =? 2) || (Container.mode r =? 2)).

(** The ranges of a cursor outside [start, end). *)
Fixpoint carve (start end_ : Z) (l : list LockRange) : list LockRange :=
  match l with
  | [] => []
  | r :: rest =>
      (if (Container.end_ r <=? start) || (end_ <=? Container.start r) then [r]
       else (if Container.start r <? start then [mkRange (Container.start r) start (Container.mode r)] else [])
         ++ (if end_ <? Container.end_ r then [mkRange end_ (Container.end_ r) (Container.mode r)] else []))
      ++ carve start end_ rest
  end.

(** [std::sort] by start. *)
Fixpoint insert_range (r : LockRange) (l : list LockRange) : list LockRange :=
  match l with
  | [] => [r]
  | x :: rest => if Container.start x <=? Container.start r then x :: insert_range r rest else r :: l
  end.
Definition sort_ranges (l : list LockRange) : list LockRange := foldl (λ acc r, insert_range r acc) [] l.

(** Merging adjacent ranges of one mode; [done] has its back first. *)
Fixpoint normalize (l done : list LockRange) : list LockRange :=
  match l with
  | [] => rev done
  | r :: rest =>
      match done with
      | b :: done' =>
          if (Container.end_ b =? Container.start r) && (Container.mode b =? Container.mode r)
          then normalize rest (mkRange (Container.start b) (Container.end_ r) (Container.mode b) :: done')
          else normalize rest (r :: done)
      | [] => normalize rest [r]
      end
  end.

(** The new ranges of a cursor. *)
Definition lock_ranges (mode : Lock) (start end_ : Z) (l : list LockRange) : list LockRange :=
  let next := carve start end_ l ++
    match mode with Unlock => [] | Shared => [mkRange start end_ 1] | Exclusive => [mkRange start end_ 2] end in
  normalize (sort_ranges next) [].

Definition lock_mode (mode : Lock) : Z := match mode with Shared => 1 | _ => 2 end.

(** The end of a range; a length of zero reaches to the end of the offset space. *)
Definition lock_end (start length_ : Z) : Z := if length_ =? 0 then INT64_MAX + 1 else start + length_.

Section Operations.
Context `{Digest} {J : Type} `{JournalLike J}.

(** ** Handles *)

Definition update_handles (f : container J → gmap Bytes OpenHandle) : ST (sys J) unit :=
  locked (modify (λ c, set_handles (f c) (cursors_ c) (open_counts_ c) c)).
Definition update_counts (f : container J → gmap (Bytes * Bytes) Z) : ST (sys J) unit :=
  locked (modify (λ c, set_handles (handles_ c) (cursors_ c) (f c) c)).
Definition set_cursor (at_ : nat) (k : Cursor) : ST (sys J) unit :=
  locked (modify (λ c, set_handles (handles_ c) (<[at_ := k]> (cursors_ c)) (open_counts_ c) c)).
Definition cursor_of (h : OpenHandle) (c : container J) : Cursor :=
  default (mkCursor 0 []) (cursors_ c !! h_cursor h).

(** [const Container::OpenHandle& Namespace::find_handle(const std::string& token) const] *)
Definition find_handle (n : ns) (token : Bytes) : ST (sys J) OpenHandle :=
  c ← gets cont;
  match handles_ c !! token with
  | None => throw "invalid or expired file handle"
  | Some h =>
      st_need (bytes_eqb (h_view h) (view_ n) && eqb (h_revision h) (revision_ n)) "file handle belongs to another view";;
      mret h
  end.

(** [while(... handles_.contains(token))token=new_id(view)]: every attempt consumes entropy. *)
Fixpoint fresh_token (fuel : nat) (avoid : option Bytes) : ST (work J) Bytes :=
  match fuel with
  | O => lift OutOfFuel
  | S fuel' =>
      token ← new_id;
      c ← gets (λ w, cont (w_sys w));
      if bool_decide (avoid = Some token) || bool_decide (is_Some (handles_ c !! token))
      then fresh_token fuel' avoid else mret token
  end.
Definition new_token (avoid : option Bytes) : ST (work J) Bytes :=
  w ← get_st; fresh_token (S (length (entropy (w_sys w)))) avoid.

(** The cursor of a new handle, at an unused address. *)
Definition new_cursor : ST (sys J) nat :=
  c ← gets cont;
  let at_ := fresh (dom (cursors_ c) : gset nat) in
  set_cursor at_ (mkCursor 0 []);;
  mret at_.

Definition count_up (view id : Bytes) : ST (sys J) unit :=
  update_counts (λ c, <[(view, id) := default 0 (open_counts_ c !! (view, id)) + 1]> (open_counts_ c)).
Definition count_down (view id : Bytes) : ST (sys J) unit :=
  update_counts (λ c,
    let k := default 0 (open_counts_ c !! (view, id)) - 1 in
    if k =? 0 then delete (view, id) (open_counts_ c) else <[(view, id) := k]> (open_counts_ c)).

(** The inode [open] with [create] finds or creates, and the changes that create it. *)
Definition open_create (path : Bytes) (o : OpenOptions) : ST (work J) (Bytes * Changes) :=
  p ← parent path;
  there ← contains (p_key p);
  st_need (negb there || negb (o_exclusive o)) "path already exists";;
  '(p, there, id) ←
    (if (there : bool) then
       raw_id ← reference (p_key p);
       raw ← inode raw_id;
       st_need (negb (o_nofollow o) || negb (i_symlink raw)) "final symbolic link is forbidden";;
       w ← on_view (λ j, Nodes.resolve j path true true);
       match w_missing w with
       | Some q => mret (q, false, [])
       | None => mret (p, true, w_id w)
       end
     else mret (p, false, []));
  if (there : bool) then mret (id, ∅) else
  id ← new_id;
  i ← created id false (o_mode o) 1 0 false;
  pn ← inode (p_id p);
  pn ← touch pn;
  r ← lift (id_bytes id);
  mret (id, <[inode_key (p_id p) := Some (encode pn)]> (<[p_key p := Some r]> (<[allocated_key id := Some []]>
              (<[content_key id := Some []]> (<[inode_key id := Some (encode i)]> ∅))))).

(** The inode to open and the changes that go with it. *)
Definition open_target (path : Bytes) (o : OpenOptions) : ST (work J) (Bytes * Changes) :=
  '(id, c) ←
    (if o_create o then open_create path o
     else
       id ← resolve path (negb (o_nofollow o));
       (if o_nofollow o then i ← inode id; st_need (negb (i_symlink i)) "final symbolic link is forbidden"
        else mret tt);;
       mret (id, ∅));
  if bool_decide (c = ∅) then
    i ← inode id;
    st_need (negb (i_directory i) && negb (i_symlink i)) "only regular file handles are implemented";;
    if o_truncate o && negb (i_size i =? 0) then
      i ← touch (set_size 0 i);
      mret (id, <[content_key id := Some []]> (<[inode_key id := Some (encode i)]> ∅))
    else mret (id, ∅)
  else mret (id, c).

(** [try { ... } catch(...) { undo; throw; }] *)
Definition on_error {S A} (m : ST S A) (undo : ST S unit) : ST S A := λ s,
  match m s with
  | (s', Ok a) => (s', Ok a)
  | (s', Err e) => ((undo s').1, Err e)
  | (s', OutOfFuel) => (s', OutOfFuel)
  end.

(** The part of [open] after its argument checks, in the locked view. *)
Definition open_locked (n : ns) (path : Bytes) (access : Access) (o : OpenOptions) : ST (work J) Bytes :=
  '(id, c) ← open_target path o;
  token ← new_token (Some id);
  at_ ← on_sys new_cursor;
  let h := mkHandle (view_ n) id (revision_ n) (bool_decide (access ≠ Write)) (bool_decide (access ≠ Read))
             (o_append o) at_ in
  on_sys (update_handles (λ c, <[token := h]> (handles_ c)));;
  on_error
    ((if revision_ n then mret tt else on_sys (count_up (view_ n) id));;
     commit_changes n c)
    (on_sys ((if revision_ n then mret tt else count_down (view_ n) id);;
             update_handles (λ c, delete token (handles_ c))));;
  mret token.

(** [std::string Namespace::open(const std::string& path,Access access,const OpenOptions& options)] *)
Definition open (n : ns) (path : Bytes) (access : Access) (o : OpenOptions) : ST (sys J) Bytes :=
  st_need (negb (o_exclusive o) || o_create o) "exclusive open requires create";;
  st_need (negb (o_truncate o) || bool_decide (access ≠ Read)) "truncate open requires writable access";;
  st_need (negb (o_append o) || bool_decide (access ≠ Read)) "append open requires writable access";;
  st_need (o_mode o <=? 511) "invalid creation mode";;
  st_need (negb (revision_ n) || (bool_decide (access = Read) && negb (o_create o) && negb (o_truncate o)))
    "revision view is read-only";;
  acquire;;
  c ← gets cont;
  st_need (j_leveldb (journal_ c)) "file handles require the LevelDB backend";;
  st_need (Z.of_nat (size (handles_ c)) <? 4096) "file handle limit reached";;
  v ← open_view n;
  with_view v (open_locked n path access o).

(** [std::string Namespace::dup(const std::string& token)] *)
Definition dup (n : ns) (token : Bytes) : ST (sys J) Bytes :=
  acquire;;
  h ← find_handle n token;
  c ← gets cont;
  st_need (Z.of_nat (size (handles_ c)) <? 4096) "file handle limit reached";;
  v ← open_view n;
  with_view v (
    result ← new_token None;
    on_sys (update_handles (λ c, <[result := h]> (handles_ c)));;
    (if revision_ n then mret tt else on_sys (count_up (view_ n) (h_inode h)));;
    mret result).

(** Another open description of the same file holds a conflicting lock. *)
Definition blocked (c : container J) (h : OpenHandle) (mode start end_ : Z) : bool :=
  existsb (λ e, let o := e.2 in
    negb (bool_decide (h_cursor o = h_cursor h)) && bytes_eqb (h_view o) (h_view h)
    && eqb (h_revision o) (h_revision h) && bytes_eqb (h_inode o) (h_inode h)
    && existsb (conflicts start end_ mode) (locks (cursor_of o c))) (map_to_list (handles_ c)).

(** [bool Namespace::try_lock_range(token,mode,start,length)] *)
Definition try_lock_range (n : ns) (token : Bytes) (mode : Lock) (start length_ : Z) : ST (sys J) bool :=
  st_need ((start <=? INT64_MAX) && ((length_ =? 0) || (length_ <=? INT64_MAX + 1 - start)))
    "lock range exceeds signed offset space";;
  let end_ := lock_end start length_ in
  acquire;;
  h ← find_handle n token;
  c ← gets cont;
  if bool_decide (mode ≠ Unlock) && blocked c h (lock_mode mode) start end_ then mret false else
  let k := cursor_of h c in
  let ranges := lock_ranges mode start end_ (locks k) in
  st_need (len ranges <=? 128) "open description lock range limit reached";;
  set_cursor (h_cursor h) (mkCursor (position k) ranges);;
  mret true.

(** [bool Namespace::try_lock(const std::string& token,Lock mode)] *)
Definition try_lock (n : ns) (token : Bytes) (mode : Lock) : ST (sys J) bool := try_lock_range n token mode 0 0.

(** The inode of a handle: in the view, or the orphan that outlives its name. *)
Definition handle_linked (h : OpenHandle) : ST (work J) bool := contains (inode_key (h_inode h)).
Definition handle_inode (n : ns) (h : OpenHandle) (linked : bool) : ST (work J) InodeInfo :=
  if linked then inode (h_inode h)
  else
    b ← on_sys (reading (λ j, j_get j (orphan_prefix (view_ n) (h_inode h) ++ bs "inode")));
    lift (decode_inode b (h_inode h) true).
Definition handle_content (n : ns) (h : OpenHandle) (linked : bool) : ST (work J) Bytes :=
  if linked then get (content_key (h_inode h))
  else on_sys (reading (λ j, j_get j (orphan_prefix (view_ n) (h_inode h) ++ bs "content"))).

(** The arithmetic of [seek] on a base and a signed offset. *)
Definition seek_to (base offset : Z) : result Z :=
  need (base <=? INT64_MAX) "file position overflow";;
  if offset <? 0 then
    let magnitude := - offset in
    need (magnitude <=? base) "negative file position";; Ok (base - magnitude)
  else need (offset <=? INT64_MAX - base) "file position overflow";; Ok (base + offset).

(** [uint64_t Namespace::seek(const std::string& token,int64_t offset,Seek origin)] *)
Definition seek (n : ns) (token : Bytes) (offset : Z) (origin : Seek) : ST (sys J) Z :=
  acquire;;
  h ← find_handle n token;
  c ← gets cont;
  let k := cursor_of h c in
  base ← match origin with
         | Set_ => mret 0
         | Current => mret (position k)
         | End_ => v ← open_view n; with_view v (l ← handle_linked h; i ← handle_inode n h l; mret (i_size i))
         end;
  result ← lift (seek_to base offset);
  set_cursor (h_cursor h) (mkCursor result (locks k));;
  mret result.

(** [Bytes Namespace::read_handle_locked(info,offset,count) const] *)
Definition read_handle_locked (n : ns) (h : OpenHandle) (offset count : Z) : ST (sys J) Bytes :=
  v ← open_view n;
  with_view v (
    linked ← handle_linked h;
    st_need (linked || negb (revision_ n)) "revision inode missing";;
    i ← handle_inode n h linked;
    data ← handle_content n h linked;
    st_need (len data =? i_size i) "inode size mismatch";;
    mret (extract data offset count)).

(** [Bytes Namespace::handle_read_next(const std::string& token,uint64_t count)] *)
Definition handle_read_next (n : ns) (token : Bytes) (count : Z) : ST (sys J) Bytes :=
  acquire;;
  h ← find_handle n token;
  st_need (h_readable h) "handle is not readable";;
  c ← gets cont;
  let k := cursor_of h c in
  data ← read_handle_locked n h (position k) count;
  set_cursor (h_cursor h) (mkCursor (u64 (position k + len data)) (locks k));;
  mret data.

(** [Bytes Namespace::handle_read(const std::string& token,uint64_t offset,uint64_t count) const] *)
Definition handle_read (n : ns) (token : Bytes) (offset count : Z) : ST (sys J) Bytes :=
  st_need (offset <=? INT64_MAX) "file offset exceeds signed 64-bit range";;
  acquire;;
  h ← find_handle n token;
  st_need (h_readable h) "handle is not readable";;
  read_handle_locked n h offset count.

(** [InodeInfo Namespace::handle_stat(const std::string& token) const] *)
Definition handle_stat (n : ns) (token : Bytes) : ST (sys J) InodeInfo :=
  acquire;;
  h ← find_handle n token;
  v ← open_view n;
  with_view v (
    linked ← handle_linked h;
    st_need (linked || negb (revision_ n)) "revision inode missing";;
    i ← handle_inode n h linked;
    mret i).

(** [void Namespace::edit_handle(token,edit,committed)]: the edit sees the cursor, the data and
    the append flag; the value it gives is passed to [committed]. *)
Definition edit_handle {A} (n : ns) (token : Bytes)
    (edit : Cursor → Bytes → bool → result (option Bytes * A)) (committed : OpenHandle → A → ST (sys J) unit)
    : ST (sys J) A :=
  st_need (negb (revision_ n)) "revision view is read-only";;
  acquire;;
  v ← open_view n;
  '(h, a) ← with_view v (
    h ← on_sys (find_handle n token);
    st_need (h_writable h) "handle is not writable";;
    linked ← handle_linked h;
    i ← handle_inode n h linked;
    data ← handle_content n h linked;
    st_need (len data =? i_size i) "inode size mismatch";;
    c ← gets (λ w, cont (w_sys w));
    '(edited, a) ← lift (edit (cursor_of h c) data (h_append h));
    changes ← match edited with
              | None => mret (∅ : Changes)
              | Some data =>
                  st_need (len data <=? max_file) "prototype files are limited to 256 KiB";;
                  i ← touch (set_size (len data) i);
                  let pre := orphan_prefix (view_ n) (h_inode h) in
                  mret (<[(if (linked : bool) then content_key (h_inode h) else pre ++ bs "content") := Some data]>
                          (<[(if linked then inode_key (h_inode h) else pre ++ bs "inode") := Some (encode i)]> ∅))
              end;
    commit_changes n changes;;
    mret (h, a));
  committed h a;;
  mret a.

(** Where a write goes, within the size limit. *)
Definition place (data : Bytes) (append : bool) (offset : Z) (value : Bytes) : result Z :=
  let actual := if append then len data else offset in
  need ((actual <=? max_file) && (len value <=? max_file - actual)) "prototype files are limited to 256 KiB";;
  Ok actual.

(** [size_t Namespace::handle_write_next(const std::string& token,const Bytes& value)] *)
Definition handle_write_next (n : ns) (token value : Bytes) : ST (sys J) Z :=
  st_need (len value <=? max_file) "prototype files are limited to 256 KiB";;
  edit_handle n token
    (λ k data append,
      if bool_decide (value = []) then Ok (None, position k) else
      actual ← place data append (position k) value;
      Ok (Some (overwrite data actual value), actual + len value))
    (λ h next, c ← gets cont; set_cursor (h_cursor h) (mkCursor next (locks (cursor_of h c))));;
  mret (len value).

(** [void Namespace::handle_write(const std::string& token,uint64_t offset,const Bytes& value)] *)
Definition handle_write (n : ns) (token : Bytes) (offset : Z) (value : Bytes) : ST (sys J) unit :=
  st_need (offset <=? INT64_MAX) "file offset exceeds signed 64-bit range";;
  st_need (len value <=? max_file) "prototype files are limited to 256 KiB";;
  edit_handle n token
    (λ _ data append,
      if bool_decide (value = []) then Ok (None, tt) else
      actual ← place data append offset value;
      Ok (Some (overwrite data actual value), tt))
    (λ _ _, mret tt).

(** [uint64_t Namespace::handle_append(const std::string& token,const Bytes& value)] *)
Definition handle_append (n : ns) (token value : Bytes) : ST (sys J) Z :=
  st_need (len value <=? max_file) "prototype files are limited to 256 KiB";;
  edit_handle n token
    (λ _ data _,
      need ((len data <=? max_file) && (len value <=? max_file - len data)) "prototype files are limited to 256 KiB";;
      Ok (if bool_decide (value = []) then None else Some (data ++ value), len data))
    (λ _ _, mret tt).

(** [void Namespace::handle_truncate(const std::string& token,uint64_t size)] *)
Definition handle_truncate (n : ns) (token : Bytes) (size : Z) : ST (sys J) unit :=
  st_need (size <=? max_file) "prototype files are limited to 256 KiB";;
  edit_handle n token (λ _ data _, Ok (if len data =? size then None else Some (resize data size), tt))
    (λ _ _, mret tt).

(** [void Namespace::handle_set_attributes(const std::string& token,const Attributes& a)] *)
Definition handle_set_attributes (n : ns) (token : Bytes) (a : Attributes) : ST (sys J) unit :=
  lift (valid_attributes a);;
  st_need (negb (revision_ n)) "revision view is read-only";;
  acquire;;
  h ← find_handle n token;
  v ← open_view n;
  with_view v (
    linked ← handle_linked h;
    i ← handle_inode n h linked;
    st_need (bool_decide (a_size a = None) || h_writable h) "handle is not writable";;
    if no_attributes a i then mret tt else
    let pre := orphan_prefix (view_ n) (h_inode h) in
    '(i, c) ←
      match a_size a with
      | None => mret (i, (∅ : Changes))
      | Some s =>
          data ← handle_content n h linked;
          st_need (len data =? i_size i) "inode size mismatch";;
          if i_size i =? s then mret (i, (∅ : Changes))
          else i ← touch (set_size s i);
               mret (i, <[(if linked then content_key (h_inode h) else pre ++ bs "content") := Some (resize data s)]> ∅)
      end;
    i ← apply_attributes i a;
    commit_changes n (<[(if (linked : bool) then inode_key (h_inode h) else pre ++ bs "inode") := Some (encode i)]> c)).

(** The part of [close] that takes the handle out of the open counts; with the last one the
    orphan goes too. *)
Definition close_counts (h : OpenHandle) : ST (sys J) unit :=
  if h_revision h then mret tt else
  c ← gets cont;
  let k := default 0 (open_counts_ c !! (h_view h, h_inode h)) in
  st_need (0 <? k) "invalid open count";;
  if k =? 1 then
    let pre := orphan_prefix (h_view h) (h_inode h) in
    orphan ← reading (λ j, j_contains j (pre ++ bs "inode"));
    (if (orphan : bool) then
       Compaction.commit [Journal.mkMutation (pre ++ bs "inode") None None;
                          Journal.mkMutation (pre ++ bs "content") None None]
     else mret tt);;
    update_counts (λ c, delete (h_view h, h_inode h) (open_counts_ c))
  else update_counts (λ c, <[(h_view h, h_inode h) := k - 1]> (open_counts_ c)).

(** [void Namespace::close(const std::string& token)] *)
Definition close (n : ns) (token : Bytes) : ST (sys J) unit :=
  acquire;;
  h ← find_handle n token;
  close_counts h;;
  update_handles (λ c, delete token (handles_ c)).

(** ** Directory cursors *)

(** [DirectoryCursor Namespace::open_directory(const std::string& path) const] *)
Definition open_directory (n : ns) (path : Bytes) : ST (sys J) DirectoryCursor :=
  acquire;;
  c ← gets cont;
  st_need (j_leveldb (journal_ c)) "directory cursors require LevelDB";;
  v ← open_view n;
  '(pre, done, manifest) ← with_view v (
    id ← resolve path true;
    i ← inode id;
    st_need (i_directory i) "path is not a directory";;
    let pre := directory_prefix id in
    v ← gets w_view;
    if NamespaceView.legacy_ v then
      ks ← on_view (λ j, NamespaceView.keys j pre);
      st_need (bool_decide (ks = [])) "flat namespace directory is not empty";;
      mret (pre, true, zero_id)
    else
      m ← on_sys (reading (λ j, if revision_ n then revision_manifest j (view_ n) else j_root j (world_key n)));
      mret (pre, false, m));
  let pin := fresh (directory_pins_ c) in
  locked (modify (λ c, set_pins ({[pin]} ∪ directory_pins_ c) c));;
  mret (mkDirectory (lifetime_ c) (Some pin) (view_ n) pre [] (revision_ n) done manifest).

Definition same_view (n : ns) (d : DirectoryCursor) (c : container J) : bool :=
  (d_lifetime d =? lifetime_ c)%nat && bytes_eqb (d_view d) (view_ n) && eqb (d_revision d) (revision_ n).

Definition moved (after : Bytes) (done : bool) (d : DirectoryCursor) : DirectoryCursor :=
  mkDirectory (d_lifetime d) (d_pin d) (d_view d) (d_prefix d) after (d_revision d) done (d_manifest d).

(** The entries of a page with their inodes. *)
Fixpoint page_entries (pre : Bytes) (ks : list Bytes) : ST (work J) (list (Bytes * InodeInfo)) :=
  match ks with
  | [] => mret []
  | key :: rest =>
      id ← reference key;
      i ← inode id;
      l ← page_entries pre rest;
      mret ((drop (length pre) key, i) :: l)
  end.

(** [DirectoryPage Namespace::read_directory(DirectoryCursor& cursor,size_t limit,bool attributes) const] *)
Definition read_directory (n : ns) (d : DirectoryCursor) (limit : Z) (attributes : bool)
    : ST (sys J) (DirectoryPage * DirectoryCursor) :=
  st_need ((1 <=? limit) && (limit <=? 1024)) "directory page limit must be 1..1024";;
  acquire;;
  c ← gets cont;
  st_need (same_view n d c) "directory cursor belongs to another repository/view";;
  if d_done d then mret (mkPage [] true [], d) else
  v ← reading (λ j, NamespaceView.of_manifest j (d_manifest d));
  with_view v (
    ks ← on_view (λ j, NamespaceView.page j (d_prefix d) (d_after d) (limit + 1));
    let eof := len ks <=? limit in
    let ks := take (Z.to_nat limit) ks in
    es ← (if attributes then page_entries (d_prefix d) ks else mret []);
    mret (mkPage (drop (length (d_prefix d)) <$> ks) eof es, moved (default (d_after d) (last ks)) eof d)).

(** [void Namespace::rewind_directory(DirectoryCursor& cursor) const] *)
Definition rewind_directory (n : ns) (d : DirectoryCursor) : ST (sys J) DirectoryCursor :=
  acquire;;
  c ← gets cont;
  st_need (same_view n d c) "directory cursor belongs to another repository/view";;
  mret (moved [] (bool_decide (d_manifest d = zero_id)) d).

(** The destruction of a cursor, which expires its pin. *)
Definition drop_directory (d : DirectoryCursor) : ST (sys J) unit :=
  locked (modify (λ c, set_pins (match d_pin d with Some p => directory_pins_ c ∖ {[p]} | None => directory_pins_ c end) c)).
End Operations.
End Handles.
