(* ===== verification/Traverse.v ===== *)
(** * Traversals of a namespace ([daemon/namespace.cpp], verify, recover_orphans, path_for_inode)

    [Module Traverse] translates the full check of a namespace against its directory tree, the
    release of the orphans a previous process left, and the search for a path to an inode. *)

From S2P Require Import Prelude Codec Journal MetadataTree Store MetadataView Container Compaction Maintenance Nodes Namespace Files.
Import Container Nodes Namespace.
Local Open Scope Z_scope.

Module Traverse.
Section Operations.
Context `{Digest} {J : Type} `{JournalLike J}.

(** ** Verification *)

(** What [verify] has collected: the keys it expects, the references to each inode, and the
    directories it has entered. *)
Record visited := mkVisited { expected : gset Bytes; references : gmap Bytes Z; directories : gset Bytes }.

Definition expect (key : Bytes) (s : visited) : visited :=
  mkVisited ({[key]} ∪ expected s) (references s) (directories s).
Definition refer (id : Bytes) (s : visited) : visited :=
  mkVisited (expected s) (<[id := default 0 (references s !! id) + 1]> (references s)) (directories s).
Definition enter (id : Bytes) (s : visited) : visited :=
  mkVisited (expected s) (references s) ({[id]} ∪ directories s).

(** The entries of a directory; [visit] is the recursive call.  The result counts the
    subdirectories. *)
Fixpoint visit_entries (visit : Bytes → visited → ST (work J) visited) (pre : Bytes) (ks : list Bytes)
    (s : visited) (subdirs : Z) : ST (work J) (visited * Z) :=
  match ks with
  | [] => mret (s, subdirs)
  | key :: rest =>
      parsed ← lift (components (slash :: drop (length pre) key));
      st_need (len parsed =? 1) "invalid directory name";;
      child ← reference key;
      let s := refer child (expect key s) in
      i ← inode child;
      s ← visit child s;
      visit_entries visit pre rest s (if i_directory i then subdirs + 1 else subdirs)
  end.

(** The recursive function [visit]; a directory is entered once, so the fuel is a bound on
    the number of directories. *)
Fixpoint visit (fuel : nat) (id : Bytes) (s : visited) : ST (work J) visited :=
  match fuel with
  | O => lift OutOfFuel
  | S fuel' =>
      i ← inode id;
      let s := expect (inode_key id) s in
      allocated ← contains (allocated_key id);
      empty ← (if (allocated : bool) then b ← get (allocated_key id); mret (bool_decide (b = [])) else mret false);
      st_need empty "inode missing allocation record";;
      if negb (i_directory i) then
        data ← get (content_key id);
        st_need (len data =? i_size i) "inode content size mismatch";;
        (if i_symlink i then lift (target_components data);; mret tt else mret tt);;
        mret (expect (content_key id) s)
      else
        st_need (bool_decide (id ∉ directories s)) "directory cycle or hardlink";;
        let pre := directory_prefix id in
        ks ← on_view (λ j, NamespaceView.keys j pre);
        '(s, subdirs) ← visit_entries (visit fuel') pre ks (enter id s) 0;
        st_need (i_links i =? 2 + subdirs) "directory link count mismatch";;
        mret s
  end.

Fixpoint check_references (l : list (Bytes * Z)) : ST (work J) unit :=
  match l with
  | [] => mret tt
  | (id, count) :: rest =>
      i ← inode id;
      st_need (i_directory i || (i_links i =? count)) "file link count mismatch";;
      check_references rest
  end.

Fixpoint check_allocations (ks : list Bytes) (s : visited) : ST (work J) visited :=
  match ks with
  | [] => mret s
  | key :: rest =>
      ok ← (if valid_id (drop (length (prefix ++ bs "allocated/")) key)
            then b ← get key; mret (bool_decide (b = [])) else mret false);
      st_need ok "invalid allocation record";;
      check_allocations rest (expect key s)
  end.

(** The orphan records of the world. *)
Fixpoint check_orphans (n : ns) (pre : Bytes) (ks : list Bytes) (checked : gset Bytes) : ST (work J) unit :=
  match ks with
  | [] => mret tt
  | key :: rest =>
      let relative := drop (length pre) key in
      let id := take 32 relative in
      st_need ((33 <=? len relative) && valid_id id && bool_decide (relative !! 32%nat = Some slash)) "invalid orphan root";;
      let field := drop 33 relative in
      st_need (bytes_eqb field (bs "inode") || bytes_eqb field (bs "content")) "invalid orphan field";;
      if bool_decide (id ∈ checked) then check_orphans n pre rest checked else
      counts ← gets (λ w, open_counts_ (cont (w_sys w)));
      st_need (0 <? default 0 (counts !! (view_ n, id))) "orphan lacks an open handle";;
      linked ← contains (inode_key id);
      st_need (negb linked) "orphan also appears in World tree";;
      b ← on_sys (reading (λ j, j_get j (orphan_prefix (view_ n) id ++ bs "inode")));
      i ← lift (decode_inode b id true);
      data ← on_sys (reading (λ j, j_get j (orphan_prefix (view_ n) id ++ bs "content")));
      st_need (len data =? i_size i) "orphan content size mismatch";;
      check_orphans n pre rest ({[id]} ∪ checked)
  end.

(** [void Namespace::verify() const] *)
Definition verify (n : ns) : ST (sys J) unit :=
  read_only n (
    j ← gets (λ w, journal_ (cont (w_sys w)));
    (if j_leveldb j then on_view (λ j, NamespaceView.references j);; mret tt else mret tt);;
    actual ← on_view (λ j, NamespaceView.keys j prefix);
    root_id ← on_view (λ j, root j);
    i ← inode root_id;
    st_need (i_directory i) "root inode is not a directory";;
    s ← visit (S (S (length actual))) root_id (expect root_key (mkVisited ∅ ∅ ∅));
    check_references (in_order (references s));;
    allocations ← on_view (λ j, NamespaceView.keys j (prefix ++ bs "allocated/"));
    s ← check_allocations allocations s;
    st_need (length actual =? size (expected s))%nat "orphan namespace records";;
    st_need (forallb (λ key, bool_decide (key ∈ expected s)) actual) "unexpected namespace record";;
    if revision_ n then mret tt else
    let pre := history ++ bs "orphan/" ++ view_ n ++ bs "/" in
    ks ← lift (j_keys j pre);
    check_orphans n pre ks ∅).

(** ** Orphans of a previous process *)

Fixpoint find_slash (s : Bytes) : option (Bytes * Bytes) :=
  match s with
  | [] => None
  | c :: rest => if bool_decide (c = slash) then Some ([], rest)
                 else match find_slash rest with Some (a, b) => Some (c :: a, b) | None => None end
  end.

(** The check of one orphan key. *)
Definition orphan_root (pre key : Bytes) : result unit :=
  match find_slash (drop (length pre) key) with
  | None => Err "invalid orphan root"
  | Some (world, relative) =>
      NamespaceView.valid_name world;;
      need ((33 <=? len relative) && valid_id (take 32 relative) && bool_decide (relative !! 32%nat = Some slash)
            && (bytes_eqb (drop 33 relative) (bs "inode") || bytes_eqb (drop 33 relative) (bs "content")))
        "invalid orphan root"
  end.

(** Deletes in batches of 4096. *)
Fixpoint release_orphans (pre : Bytes) (ks : list Bytes) (batch : list Journal.Mutation) : ST (container J) unit :=
  match ks with
  | [] => if bool_decide (batch = []) then mret tt
          else j ← gets journal_; on_journal (j_transact (j_sequence j) batch)
  | key :: rest =>
      lift (orphan_root pre key);;
      let batch := batch ++ [Journal.mkMutation key None None] in
      if len batch =? 4096 then
        j ← gets journal_;
        on_journal (j_transact (j_sequence j) batch);;
        release_orphans pre rest []
      else release_orphans pre rest batch
  end.

(** [void Namespace::recover_orphans(Container& container)] *)
Definition recover_orphans : ST (container J) unit :=
  let pre := history ++ bs "orphan/" in
  ks ← ask (λ j, j_keys j pre);
  release_orphans pre ks [].

(** [Container::Container(const std::string& path)] on a directory: the LevelDB backend, whose
    orphans are released before the container is used. *)
Definition open_leveldb (j : J) : result (container J) :=
  id ← j_repository j;
  match recover_orphans (opened j id false (zeros 4096) 0) with
  | (c, Ok _) => Ok c
  | (_, Err e) => Err e
  | (_, OutOfFuel) => OutOfFuel
  end.

(** ** The path of an inode *)

(** [struct PendingPath {std::string inode,path;bool too_long;}] *)
Record PendingPath := mkPending { pp_inode : Bytes; pp_path : Bytes; pp_too_long : bool }.

(** The entries of a directory pushed on the stack, the last one on top. *)
Fixpoint push_entries (pre : Bytes) (e : PendingPath) (ks : list Bytes) (pending : list PendingPath)
    : ST (work J) (list PendingPath) :=
  match ks with
  | [] => mret pending
  | key :: rest =>
      let name := drop (length pre) key in
      child ← reference key;
      let at_root := bytes_eqb (pp_path e) (bs "/") in
      let separator := if at_root then 0 else 1 in
      let too_long := pp_too_long e || (4096 <? len (pp_path e) + separator)
                      || (4096 - len (pp_path e) - separator <? len name) in
      let next := if too_long then mkPending child [] true
                  else mkPending child (if at_root then pp_path e ++ name else pp_path e ++ slash :: name) false in
      push_entries pre e rest (next :: pending)
  end.

Fixpoint path_loop (fuel : nat) (id : Bytes) (pending : list PendingPath) (seen : gset Bytes) (found_too_long : bool)
    : ST (work J) Bytes :=
  match pending with
  | [] => if found_too_long then throw "path exceeds mount protocol limit" else throw "inode is no longer linked"
  | e :: pending =>
      match fuel with
      | O => lift OutOfFuel
      | S fuel' =>
          let current := pp_inode e in
          let here := bytes_eqb current id in
          if here && negb (pp_too_long e) then mret (pp_path e) else
          let found_too_long := found_too_long || here in
          i ← inode current;
          if negb (i_directory i) then path_loop fuel' id pending seen found_too_long else
          st_need (bool_decide (current ∉ seen)) "invalid directory cycle or hardlink";;
          let pre := directory_prefix current in
          ks ← on_view (λ j, NamespaceView.keys j pre);
          pending ← push_entries pre e ks pending;
          path_loop fuel' id pending ({[current]} ∪ seen) found_too_long
      end
  end.

(** [std::string Namespace::path_for_inode(const std::string& id) const]: every entry of the
    namespace is pushed at most once. *)
Definition path_for_inode (n : ns) (id : Bytes) : ST (sys J) Bytes :=
  st_need (valid_id id) "invalid inode identity";;
  read_only n (
    rid ← on_view (λ j, root j);
    all ← on_view (λ j, NamespaceView.keys j prefix);
    path_loop (S (length all)) id [mkPending rid (bs "/") false] ∅ false).
End Operations.
End Traverse.
