(* ===== verification/Moves.v ===== *)
(** * How operations move the state

    [moves R m]: every run of [m], failing runs included, ends in a state related by [R] to the
    one it began in.  With a preorder [R] the property composes, so the operations of the
    namespace are covered one call at a time.  Two preorders are used: [same], "the handle
    tables are as before and no other thread has acted", and [kept Q], "an invariant of the
    handle tables that every other thread respects still holds". *)

From S2P Require Import Prelude Codec Journal MetadataTree Store MetadataView Container Compaction Maintenance Nodes Namespace.
Import Container Nodes Namespace.
Local Open Scope Z_scope.

Definition moves {S A} (R : S → S → Prop) (m : ST S A) : Prop := ∀ s, R s (m s).1.

Create HintDb moves.

Section Generic.
Context {S : Type} (R : S → S → Prop) `{!PreOrder R}.

Lemma moves_ret {A} (a : A) : moves R (mret a).
Proof. intros s. done. Qed.
Lemma moves_lift {A} (r : result A) : moves R (lift r).
Proof. intros s. done. Qed.
Lemma moves_throw {A} msg : moves R (throw (A := A) msg).
Proof. intros s. done. Qed.
Lemma moves_need b msg : moves R (st_need b msg).
Proof. intros s. done. Qed.
Lemma moves_get : moves R get_st.
Proof. intros s. done. Qed.
Lemma moves_gets {A} (f : S → A) : moves R (gets f).
Proof. intros s. done. Qed.
Lemma moves_bind {A B} (m : ST S A) (f : A → ST S B) :
  moves R m → (∀ a, moves R (f a)) → moves R (m ≫= f).
Proof.
  intros Hm Hf s. unfold mbind, st_bind. specialize (Hm s). destruct (m s) as [s' [a|e|]]; simpl in *; [|done..].
  etrans; [done|]. apply Hf.
Qed.
Lemma moves_caught {A} (m : ST S A) : moves R m → moves R (Maintenance.caught m).
Proof. intros Hm s. unfold Maintenance.caught. specialize (Hm s). by destruct (m s) as [s' []]. Qed.
End Generic.

Lemma moves_impl {S A} (R R' : S → S → Prop) (m : ST S A) :
  (∀ s s', R s s' → R' s s') → moves R m → moves R' m.
Proof. intros H Hm s. by apply H, Hm. Qed.

#[export] Hint Resolve moves_ret moves_lift moves_throw moves_need moves_get moves_gets : moves.

Section Sys.
Context `{Digest} {J : Type} `{JournalLike J}.
Implicit Types (s : sys J) (w : work J) (c : container J).

(** The tables of open files. *)
Definition table : Type := gmap Bytes OpenHandle * gmap nat Cursor * gmap (Bytes * Bytes) Z.
Definition table_of c : table := (handles_ c, cursors_ c, open_counts_ c).

Definition same s s' : Prop := table_of (cont s') = table_of (cont s) ∧ others s' = others s.
Definition on_work (R : sys J → sys J → Prop) w w' : Prop := R (w_sys w) (w_sys w').

(** The other threads respect [Q] as well. *)
Definition guarded (Q : table → Prop) s : Prop :=
  Q (table_of (cont s)) ∧ Forall (λ f, ∀ c, Q (table_of c) → Q (table_of (f c))) (others s).
Definition kept (Q : table → Prop) s s' : Prop := guarded Q s → guarded Q s'.

#[export] Instance same_preorder : PreOrder same.
Proof. split; [done|]. intros s1 s2 s3 [? ?] [? ?]. split; by etrans. Qed.
#[export] Instance kept_preorder Q : PreOrder (kept Q).
Proof. split; [by intros ??|]. unfold kept. intros s1 s2 s3. auto. Qed.
#[export] Instance on_work_preorder R `{!PreOrder R} : PreOrder (on_work R).
Proof. split; [by intros ?; unfold on_work|]. unfold on_work. intros w1 w2 w3. by etrans. Qed.

(** A relation that the quiet parts respect, and what other threads do while the lock is
    released. *)
Class Loose (R : sys J → sys J → Prop) : Prop := {
  loose_preorder :: PreOrder R;
  loose_same : ∀ s s', same s s' → R s s';
  loose_acquire : moves R acquire;
}.

Lemma same_kept Q s s' : same s s' → kept Q s s'.
Proof. intros [Ht Ho]. unfold kept, guarded. by rewrite Ht, Ho. Qed.
#[export] Instance kept_loose Q : Loose (kept Q).
Proof.
  split; [exact _|apply same_kept|]. intros s [Hq Ho]. unfold acquire, guarded. simpl.
  destruct (others s) as [|f o]; simpl; [done|]. apply Forall_cons_1 in Ho as [Hf Ho]. auto.
Qed.

(** The actions of other threads that are still to come: none is added. *)
Definition fewer s s' : Prop := (length (others s') ≤ length (others s))%nat.
#[export] Instance fewer_loose : Loose fewer.
Proof.
  split.
  - split; [by intros s; unfold fewer|]. unfold fewer. intros s1 s2 s3. lia.
  - intros s s' [_ Ho]. unfold fewer. by rewrite Ho.
  - intros s. unfold fewer. simpl. destruct (others s); simpl; lia.
Qed.

Lemma moves_loose {A} R `{!Loose R} (m : ST (sys J) A) : moves same m → moves R m.
Proof. apply moves_impl, loose_same. Qed.
Lemma moves_loose_work {A} R `{!Loose R} (m : ST (work J) A) : moves (on_work same) m → moves (on_work R) m.
Proof. apply moves_impl. intros w w' Hs. by apply (loose_same (R := R)). Qed.
Lemma moves_acquire R `{!Loose R} : moves R acquire.
Proof. apply loose_acquire. Qed.

(** ** Running under the lock *)

Lemma moves_on_view {A} R `{!PreOrder R} (m : J → ST NamespaceView.view A) : moves (on_work R) (on_view m).
Proof. intros w. unfold on_view, on_work. by destruct (m _ _). Qed.
Lemma moves_on_sys {A} R (m : ST (sys J) A) : moves R m → moves (on_work R) (on_sys m).
Proof. intros Hm w. unfold on_sys, on_work. specialize (Hm (w_sys w)). by destruct (m _). Qed.
Lemma moves_with_view {A} R v (m : ST (work J) A) : moves (on_work R) m → moves R (with_view v m).
Proof. intros Hm s. unfold with_view. specialize (Hm (mkWork s v)). unfold on_work in Hm. by destruct (m _). Qed.
Lemma moves_reading {A} R `{!PreOrder R} (f : J → result A) : moves R (reading f).
Proof. intros s. done. Qed.
Lemma moves_locked {A} (m : ST (container J) A) :
  moves (λ c c', table_of c' = table_of c) m → moves same (locked m).
Proof. intros Hm s. unfold locked, same. specialize (Hm (cont s)). by destruct (m _). Qed.
Lemma moves_modify (f : container J → container J) :
  (∀ c, table_of (f c) = table_of c) → moves (λ c c', table_of c' = table_of c) (modify f).
Proof. intros Hf c. apply Hf. Qed.
Lemma moves_on_journal {A} (m : ST J A) : moves (λ c c', table_of c' = table_of c) (on_journal m).
Proof. intros c. unfold on_journal. by destruct (m _). Qed.
#[export] Instance table_preorder : PreOrder (λ c c', table_of c' = table_of c).
Proof. split; [done|]. intros c1 c2 c3 ??. by etrans. Qed.

Lemma moves_now : moves same now.
Proof. intros s. done. Qed.
Lemma moves_random_hex msg : moves same (random_hex msg).
Proof. intros s. unfold random_hex. by destruct (entropy s). Qed.
Lemma moves_commit batch : moves same (Compaction.commit batch).
Proof. apply moves_locked, moves_bind; [exact _|by intros c|]. intros j. apply moves_on_journal. Qed.
Lemma moves_open_view R `{!PreOrder R} n : moves R (open_view n).
Proof. apply moves_reading, _. Qed.
End Sys.

#[export] Hint Resolve moves_on_view moves_reading moves_acquire moves_now
  moves_random_hex moves_commit moves_open_view moves_on_journal moves_caught : moves.
#[export] Hint Resolve moves_loose moves_loose_work | 5 : moves.

(** Case analysis along the program, then the database. *)
Ltac moves_step :=
  match goal with
  | |- moves _ (mbind _ _) => apply moves_bind; [exact _| |intros ?]
  | |- moves _ (let '_ := ?x in _) => destruct x
  | |- moves _ (match ?x with _ => _ end) => destruct x
  | |- moves _ (let x := _ in _) => intros ?
  | |- PreOrder _ => exact _
  | _ => solve [eauto 5 with moves typeclass_instances]
  end.
Ltac moves := repeat (progress cbn beta iota zeta || moves_step || (apply moves_with_view) || (apply moves_on_sys)).
