(* ===== verification/Halts.v ===== *)
(** * Operations that return

    [halts m]: from every state, [m] returns a value or throws; it never reaches a loop bound
    of the model.  The property composes along the program.  [JournalReturns] is the part of
    the contract of a journal that the termination of its clients rests upon; both storage
    backends satisfy it, in every state. *)

From S2P Require Import Prelude Codec Journal JournalStore LevelStore MetadataTree Store StoreMemory JournalFacade MetadataView.
Local Open Scope Z_scope.

Definition halts {S A} (m : ST S A) : Prop := ∀ s, total (m s).2.

Create HintDb halts.

Section Generic.
Context {S : Type}.

Lemma halts_ret {A} (a : A) : halts (S := S) (mret a).
Proof. intros s. done. Qed.
Lemma halts_lift {A} (r : result A) : total r → halts (S := S) (lift r).
Proof. intros Hr s. done. Qed.
Lemma halts_throw {A} msg : halts (S := S) (throw (A := A) msg).
Proof. intros s. done. Qed.
Lemma halts_need b msg : halts (S := S) (st_need b msg).
Proof. intros s. apply total_need. Qed.
Lemma halts_get : halts (S := S) get_st.
Proof. intros s. done. Qed.
Lemma halts_gets {A} (f : S → A) : halts (gets f).
Proof. intros s. done. Qed.
Lemma halts_modify (f : S → S) : halts (modify f).
Proof. intros s. done. Qed.
Lemma halts_bind {A B} (m : ST S A) (f : A → ST S B) : halts m → (∀ a, halts (f a)) → halts (m ≫= f).
Proof.
  intros Hm Hf s. unfold mbind, st_bind. specialize (Hm s). destruct (m s) as [s' []]; simpl in *; [|done..].
  apply Hf.
Qed.
(** What the first part establishes may be used by the rest. *)
Lemma halts_at {A B} (m : ST S A) (f : A → ST S B) s : total (m s).2 →
  (∀ a s', m s = (s', Ok a) → total (f a s').2) → total ((m ≫= f) s).2.
Proof. intros Hm Hf. unfold mbind, st_bind. destruct (m s) as [s' []]; simpl in *; [by apply Hf|done..]. Qed.
End Generic.

Lemma halts_run {S A} (m : ST S A) s : halts m → total (m s).2.
Proof. intros Hm. apply Hm. Qed.

#[export] Hint Resolve halts_ret halts_throw halts_need halts_get halts_gets halts_modify : halts.
#[export] Hint Resolve halts_lift | 2 : halts.
#[export] Hint Resolve total_Ok total_Err total_need : halts.

Ltac halts_step :=
  match goal with
  | |- halts (mbind _ _) => apply halts_bind; [|intros ?]
  | |- halts (let '_ := ?x in _) => destruct x
  | |- halts (match ?x with _ => _ end) => destruct x
  | |- halts (lift _) => apply halts_lift
  | |- total (snd (?m ?s)) => apply (halts_run m s)
  | |- total (mbind _ _) => apply total_bind; [|intros ? _]
  | |- total (let '_ := ?x in _) => destruct x
  | |- total (match ?x with _ => _ end) => destruct x
  | _ => solve [eauto 5 with halts forkfs]
  end.
Ltac halts := repeat (progress cbn beta iota zeta || halts_step).

(** ** Journals *)

Class JournalReturns (J : Type) `{JournalLike J} : Prop := {
  returns_objects :: ObjectStoreOk J;
  returns_contains : ∀ j k, total (j_contains j k);
  returns_root : ∀ j k, total (j_root j k);
  returns_get : ∀ j k, total (j_get j k);
  returns_keys : ∀ j k, total (j_keys j k);
  returns_transact : ∀ e ms, halts (j_transact e ms);
  returns_compact : halts j_compact;
}.
#[export] Hint Resolve returns_contains returns_root returns_get returns_keys returns_transact returns_compact : halts.
Lemma returns_object {J} `{ObjectStoreOk J} (j : J) id : total (get_object j id).
Proof. apply get_object_total. Qed.
Lemma returns_journal_object {J} `{JournalReturns J} (j : J) id : total (get_object j id).
Proof. apply returns_object. Qed.
#[export] Hint Resolve returns_object returns_journal_object : halts.

#[global] Instance memory_returns `{Digest} : JournalReturns memory.
Proof.
  split; [exact _|..].
  - done.
  - intros j k. simpl. by destruct (kv_roots _ !! k).
  - intros j k. simpl. by destruct (kv_get _ k).
  - done.
  - intros e ms m. simpl. unfold memory_transact. by destruct (_ && _).
  - intros m. done.
Qed.

(** ** The LevelDB store *)

Section Level.
Context {db cache : Type} `{LevelDB db} `{Cache cache} `{Digest}.
Import LevelStore.

Lemma level_healthy : halts (healthy (db := db) (cache := cache)).
Proof. unfold healthy. halts. Qed.
Lemma level_fetch key : halts (fetch (db := db) (cache := cache) key).
Proof. unfold fetch. halts. Qed.
Lemma level_begin key : halts (cache_begin (db := db) (cache := cache) key).
Proof. intros s. done. Qed.
Lemma level_install key q v : halts (cache_install (db := db) (cache := cache) key q v).
Proof. intros s. unfold cache_install. by destruct (_ && _). Qed.
#[local] Hint Resolve level_healthy level_fetch level_begin level_install : halts.
Lemma level_read key : halts (read (db := db) (cache := cache) key).
Proof. unfold read. halts. Qed.
Lemma level_to_id b : total (to_id b).
Proof. unfold to_id. halts. Qed.
#[local] Hint Resolve level_read level_to_id : halts.
Lemma level_root key : halts (root (db := db) (cache := cache) key).
Proof. unfold root. halts. Qed.
Lemma level_contains key : halts (contains (db := db) (cache := cache) key).
Proof. unfold contains. halts. Qed.
Lemma level_object id : halts (object (db := db) (cache := cache) id).
Proof. unfold object. halts. Qed.
Lemma level_status st op : total (status st op).
Proof. unfold status. halts. Qed.
#[local] Hint Resolve level_root level_contains level_object level_status : halts.
Lemma level_keys p : halts (keys (db := db) (cache := cache) p).
Proof. unfold keys. halts. Qed.
Lemma level_plan_change b m : halts (plan_change (db := db) (cache := cache) b m).
Proof. unfold plan_change. halts. Qed.
#[local] Hint Resolve level_plan_change : halts.
Lemma level_plan_changes ms b : halts (plan_changes (db := db) (cache := cache) b ms).
Proof. revert b. induction ms; intros b; simpl; halts. Qed.
Lemma level_object_writes vs n : halts (object_writes (db := db) (cache := cache) vs n).
Proof. revert n. induction vs as [|[] vs]; intros n; simpl; halts. Qed.
Lemma level_commit b op : halts (commit (db := db) (cache := cache) b op).
Proof. intros s. unfold commit. by destruct (db_write (db_ s) b) as [? []]. Qed.
#[local] Hint Resolve level_plan_changes level_object_writes level_commit : halts.
Lemma level_transact_halts e ms : halts (transact (db := db) (cache := cache) e ms).
Proof. unfold transact. halts. Qed.
Lemma level_verify_entries l a b : halts (verify_entries (db := db) (cache := cache) l a b).
Proof. revert a b. induction l as [|[] l]; intros a b; simpl; halts. Qed.
#[local] Hint Resolve level_verify_entries : halts.
Lemma level_verify : halts (verify (db := db) (cache := cache)).
Proof. unfold verify. halts. Qed.
#[local] Hint Resolve level_verify : halts.
Lemma level_compact : halts (compact (db := db) (cache := cache)).
Proof. unfold compact. halts. Qed.
Lemma level_get key : halts (id ← root (db := db) (cache := cache) key; object id).
Proof. halts. Qed.
End Level.

(** ** The file-backed journal *)

Section File.
Context `{Digest}.
Import Journal.

Lemma file_read_bytes f a n : total (read_bytes f a n).
Proof. unfold read_bytes. halts. Qed.
#[local] Hint Resolve file_read_bytes : halts.
Lemma file_read_record f a n : total (read_record f a n).
Proof. unfold read_record. halts. Qed.
#[local] Hint Resolve file_read_record : halts.
Lemma file_read_object f j id : total (read_object f j id).
Proof. unfold read_object. halts. Qed.
Lemma file_alive j : total (alive j).
Proof. unfold alive. halts. Qed.
#[local] Hint Resolve file_read_object file_alive : halts.
Lemma file_plan f j p m : total (plan_mutation f j p m).
Proof. unfold plan_mutation. halts. Qed.
#[local] Hint Resolve file_plan : halts.
Lemma file_plans f j ms p : total (plan_mutations f j p ms).
Proof. revert p. induction ms; intros p; simpl; halts. Qed.
Lemma file_on_device {A} (m : ST device A) : halts m → halts (on_device m).
Proof. intros Hm w. unfold on_device. specialize (Hm (dev w)). by destruct (m (dev w)). Qed.
Lemma file_write a b : halts (write_bytes a b).
Proof. intros d. unfold write_bytes. by destruct (next_outcome d). Qed.
Lemma file_sync : halts sync_file.
Proof. intros d. unfold sync_file. by destruct (next_outcome d). Qed.
Lemma file_truncate a msg : halts (truncate a msg).
Proof. intros d. unfold truncate. by destruct (next_outcome d). Qed.
#[local] Hint Resolve file_plans file_on_device file_write file_sync file_truncate : halts.
Lemma file_drop_tail msg : halts (drop_tail msg).
Proof. unfold drop_tail. halts. Qed.
Lemma file_start b a : halts (start_segment b a).
Proof. unfold start_segment. halts. Qed.
#[local] Hint Resolve file_drop_tail file_start : halts.
Lemma file_publish n a b x y f : halts (publish n a b x y f).
Proof.
  intros w. unfold publish, poison_on_error.
  match goal with |- context [match ?m w with _ => _ end] => assert (halts m) as Hm by halts; specialize (Hm w);
    destruct (m w) as [w' []]; done end.
Qed.
#[local] Hint Resolve file_publish : halts.
Lemma file_transact e ms : halts (transact e ms).
Proof. unfold transact. halts. Qed.
End File.

(** ** Both backends *)

Section Backends.
Context {db cache : Type} `{LevelDBOk db} `{CacheOk cache} `{DigestOk}.

#[local] Hint Resolve file_alive file_read_object : halts.

#[global] Instance backend_returns : JournalReturns (backend db cache).
Proof.
  split; [exact _|..]; simpl.
  - intros [w|st] k; simpl; [unfold Journal.contains; halts|apply level_contains].
  - intros [w|st] k; simpl; [unfold Journal.root_object; halts|apply level_root].
  - intros [w|st] k; simpl; [unfold Journal.get; halts|apply level_get].
  - intros [w|st] k; simpl; [unfold Journal.keys; halts|apply level_keys].
  - intros e ms [w|st]; simpl; unfold JournalFacade.on_file, JournalFacade.on_level.
    + pose proof (file_transact e ms w). by destruct (Journal.transact e ms w).
    + pose proof (level_transact_halts e ms st). by destruct (LevelStore.transact e ms st).
  - intros [w|st]; simpl; [done|]. unfold JournalFacade.on_level.
    pose proof (level_compact st). by destruct (LevelStore.compact st).
Qed.
End Backends.
