(* ===== verification/Garbage.v ===== *)
(** * What the garbage collection keeps

    The mark phase of [Container::collect_garbage] follows references from the root keys:
    worlds name manifests, revisions name a manifest and a parent, manifests name tree nodes and
    tree nodes name a value and two subtrees.  [retained] says which objects that reaches; the
    mark phase ends, and what it returns is exactly the retained objects and the registry names
    of the others. *)

From S2P Require Import Prelude Codec Treap Journal JournalTransact JournalStore LevelStoreTransact MetadataTree.
From S2P Require Import MetadataTreeProofs MetadataTreeApply Store MetadataView MetadataViewPlan Container Halts.
Import Container.
Local Open Scope Z_scope.

(** ** Reachability *)

Definition registry_prefix : Bytes := NamespaceView.history ++ bs "object/".
Definition world_prefix : Bytes := NamespaceView.history ++ bs "world/".
Definition revision_prefix : Bytes := NamespaceView.history ++ bs "revision/".
Definition base_prefix : Bytes := NamespaceView.history ++ bs "base/".

(** Names of the registry do not keep their object. *)
Definition registered (k : Bytes) : Prop := starts_with registry_prefix k = true.

(** The references of the three kinds of object, from their layout. *)
Definition revision_layout (b m p : Bytes) : Prop :=
  ∃ rest, b = bs "FFREV001" ++ m ++ p ++ rest ∧ length m = 32%nat ∧ length p = 32%nat.
Definition manifest_layout (b r : Bytes) : Prop := b = bs "FFTREE01" ++ r ∧ length r = 32%nat.
Definition node_layout (b v l r : Bytes) : Prop :=
  ∃ n key, b = bs "FFTRNO01" ++ n ++ v ++ l ++ r ++ key ∧
    length n = 4%nat ∧ length v = 32%nat ∧ length l = 32%nat ∧ length r = 32%nat.

Inductive refers : Z → Bytes → Id → Z → Prop :=
| refers_revision b m p : revision_layout b m p → refers 0 b m 1
| refers_parent b m p : revision_layout b m p → refers 0 b p 0
| refers_root b r : manifest_layout b r → refers 1 b r 2
| refers_left b v l r : node_layout b v l r → refers 2 b l 2
| refers_right b v l r : node_layout b v l r → refers 2 b r 2.
Definition valued (b : Bytes) (v : Id) : Prop := ∃ l r, node_layout b v l r.

Section Reach.
Context `{Digest} (s : kv).

(** What a root key refers to, and as which kind of object. *)
Inductive entry (k : Bytes) : Id → Z → Prop :=
| entry_world id :
    kv_roots s !! k = Some id → starts_with world_prefix k = true → entry k id 1
| entry_revision id :
    kv_roots s !! k = Some id → starts_with revision_prefix k = true → entry k id 0
| entry_base id p :
    kv_roots s !! k = Some id → kv_objects s !! id = Some p → starts_with base_prefix k = true → entry k p 0.

(** The objects a world, a revision or a base leads to through revisions (0), manifests (1) and
    tree nodes (2). *)
Inductive traced : Id → Z → Prop :=
| traced_entry k id kind : entry k id kind → id ≠ zero_id → traced id kind
| traced_reference id kind b id' kind' :
    traced id kind → kv_objects s !! id = Some b → refers kind b id' kind' → id' ≠ zero_id → traced id' kind'.

(** What must stay: the objects of the names outside the registry, what they lead to, and the
    values of the tree nodes. *)
Inductive retained : Id → Prop :=
| retained_root k id : kv_roots s !! k = Some id → ¬ registered k → retained id
| retained_traced id kind : traced id kind → retained id
| retained_value id b v : traced id 2 → kv_objects s !! id = Some b → valued b v → retained v.
End Reach.

(** The four families of names are disjoint. *)
Lemma apart_prefixes p q k :
  starts_with p q = false → starts_with q p = false → starts_with p k = true → starts_with q k = true → False.
Proof.
  intros Hpq Hqp [t Ht]%starts_with_spec [u Hu]%starts_with_spec. rewrite Ht in Hu. clear k Ht.
  destruct (decide (length p ≤ length q)%nat) as [Hl|Hl].
  - assert (q = p ++ drop (length p) q) as E.
    { rewrite <- (take_drop (length p) q) at 1. f_equal. apply (f_equal (take (length p))) in Hu.
      rewrite take_app_length, take_app_le in Hu by done. done. }
    assert (starts_with p q = true); [|congruence]. apply starts_with_spec. by eexists.
  - assert (p = q ++ drop (length q) p) as E.
    { rewrite <- (take_drop (length q) p) at 1. f_equal. apply (f_equal (take (length q))) in Hu.
      rewrite take_app_length, take_app_le in Hu by lia. done. }
    assert (starts_with q p = true); [|congruence]. apply starts_with_spec. by eexists.
Qed.

Lemma world_revision k : starts_with world_prefix k = true → starts_with revision_prefix k = true → False.
Proof. by apply apart_prefixes. Qed.
Lemma world_base k : starts_with world_prefix k = true → starts_with base_prefix k = true → False.
Proof. by apply apart_prefixes. Qed.
Lemma revision_base k : starts_with revision_prefix k = true → starts_with base_prefix k = true → False.
Proof. by apply apart_prefixes. Qed.

Lemma registered_not_entry s k id kind : registered k → ¬ entry s k id kind.
Proof.
  intros Hk He. destruct He as [? _ Hp|? _ Hp|? ? _ _ Hp]; revert Hk Hp; by apply apart_prefixes.
Qed.

(** What each family refers to. *)
Lemma entry_world_inv s k id i n :
  kv_roots s !! k = Some id → starts_with world_prefix k = true → entry s k i n ↔ i = id ∧ n = 1.
Proof.
  intros Hid Hk. split; [|intros [-> ->]; by apply entry_world].
  intros [i' Hi' _|? _ Hp|? ? _ _ Hp]; [|exact (False_ind _ (world_revision k Hk Hp))|exact (False_ind _ (world_base k Hk Hp))].
  split; [congruence|reflexivity].
Qed.
Lemma entry_revision_inv s k id i n :
  kv_roots s !! k = Some id → starts_with revision_prefix k = true → entry s k i n ↔ i = id ∧ n = 0.
Proof.
  intros Hid Hk. split; [|intros [-> ->]; by apply entry_revision].
  intros [? _ Hp|i' Hi' _|? ? _ _ Hp]; [exact (False_ind _ (world_revision k Hp Hk))| |exact (False_ind _ (revision_base k Hk Hp))].
  split; [congruence|reflexivity].
Qed.
Lemma entry_base_inv s k id p i n :
  kv_roots s !! k = Some id → kv_objects s !! id = Some p → starts_with base_prefix k = true →
  entry s k i n ↔ i = p ∧ n = 0.
Proof.
  intros Hid Hb Hk. split; [|intros [-> ->]; by eapply entry_base].
  intros [? _ Hp|? _ Hp|id' b' Hid' Hb' _]; [exact (False_ind _ (world_base k Hp Hk))|exact (False_ind _ (revision_base k Hp Hk))|].
  rewrite Hid in Hid'. injection Hid' as <-. rewrite Hb in Hb'. by injection Hb' as <-.
Qed.

Lemma elem_of_trace refs pending r :
  r ∈ trace refs pending ↔ r ∈ pending ∨ r ∈ refs ∧ r.1 ≠ zero_id.
Proof.
  revert pending. induction refs as [|[id kind] refs IH]; intros pending; cbn [trace]; [set_solver|].
  rewrite IH. case_bool_decide as E; rewrite elem_of_cons.
  - split; [naive_solver|]. intros [?|[[->|?] ?]]; naive_solver.
  - rewrite elem_of_cons. split; [|naive_solver]. intros [[->|?]|?]; naive_solver.
Qed.

Lemma length_trace refs pending : (length (trace refs pending) ≤ length refs + length pending)%nat.
Proof.
  revert pending. induction refs as [|[id kind] refs IH]; intros pending; cbn [trace length]; [lia|].
  etrans; [apply IH|]. case_bool_decide; cbn [length]; lia.
Qed.

Lemma total_extract b at_ : total (extract b at_).
Proof. unfold extract. halts. Qed.
#[export] Hint Resolve total_extract : halts.

Lemma total_expand kind b : total (expand kind b).
Proof. unfold expand. halts. Qed.
#[export] Hint Resolve total_expand : halts.

(** An object refers to at most two further ones, of a kind that exists. *)
Definition kind_ok (kind : Z) : Prop := 0 ≤ kind ≤ 2.
Definition kinds : gset Z := {[0; 1; 2]}.

Lemma elem_of_kinds kind : kind_ok kind ↔ kind ∈ kinds.
Proof. unfold kind_ok, kinds. rewrite !elem_of_union, !elem_of_singleton. lia. Qed.

Lemma expand_bounded kind b refs values :
  expand kind b = Ok (refs, values) → (length refs ≤ 2)%nat ∧ Forall (λ r, kind_ok r.2) refs.
Proof.
  unfold expand, kind_ok. intros E.
  destruct (kind =? 0); [|destruct (kind =? 1)]; repeat (apply bind_Ok in E as (? & _ & E));
    injection E as <- _; (split; [cbn [length]; lia|repeat constructor; cbn [snd]; lia]).
Qed.

Lemma traced_kind s id kind : traced s id kind → kind_ok kind.
Proof. unfold kind_ok. destruct 1 as [? ? ? []|? ? ? ? ? ? ? []]; lia. Qed.

(** The layouts are read off at fixed offsets. *)
Lemma revision_layout_iff b m p :
  len b = 80 → slice 0 8 b = bs "FFREV001" → revision_layout b m p ↔ m = slice 8 32 b ∧ p = slice 40 32 b.
Proof.
  intros Hl Hm. unfold len in Hl. split.
  - intros (rest & -> & Lm & Lp). rewrite (slice_skip 8 _ 8), (slice_skip 40 _ 8) by (done || lia).
    cbn [Nat.sub]. rewrite slice_here, (slice_skip 32 _ 32 m) by (done || lia). cbn [Nat.sub]. by rewrite slice_here.
  - intros [-> ->]. exists (drop 72 b). rewrite !length_slice by lia. split; [|done]. rewrite <- Hm.
    rewrite <- (drop_0 b) at 1. by rewrite (drop_split 0 8), (drop_split _ 32), (drop_split _ 32).
Qed.
Lemma manifest_layout_iff b r :
  len b = 40 → slice 0 8 b = bs "FFTREE01" → manifest_layout b r ↔ r = slice 8 32 b.
Proof.
  intros Hl Hm. unfold len in Hl. split.
  - intros [-> Lr]. by rewrite slice_app_end.
  - intros ->. split; [|apply length_slice; lia]. rewrite <- Hm. rewrite <- (drop_0 b) at 1.
    rewrite (drop_split 0 8), (drop_split _ 32). cbn [Nat.add]. rewrite (drop_ge b 40) by lia. by rewrite app_nil_r.
Qed.
Lemma node_layout_iff b v l r :
  108 ≤ len b → slice 0 8 b = bs "FFTRNO01" →
  node_layout b v l r ↔ v = slice 12 32 b ∧ l = slice 44 32 b ∧ r = slice 76 32 b.
Proof.
  intros Hl Hm. unfold len in Hl. split.
  - intros (n & key & -> & Ln & Lv & Ll & Lr).
    rewrite (slice_skip 12 _ 8), (slice_skip 44 _ 8), (slice_skip 76 _ 8) by (done || lia). cbn [Nat.sub].
    rewrite (slice_skip 4 _ 4), (slice_skip 36 _ 4), (slice_skip 68 _ 4) by (done || lia). cbn [Nat.sub].
    rewrite slice_here, (slice_skip 32 _ 32 v), (slice_skip 64 _ 32 v) by (done || lia). cbn [Nat.sub].
    rewrite slice_here, (slice_skip 32 _ 32 l) by (done || lia). cbn [Nat.sub]. by rewrite slice_here.
  - intros (-> & -> & ->). exists (slice 8 4 b), (drop 108 b). rewrite !length_slice by lia. split_and!; [|done..].
    rewrite <- Hm. rewrite <- (drop_0 b) at 1.
    by rewrite (drop_split 0 8), (drop_split _ 4), (drop_split _ 32), (drop_split _ 32), (drop_split _ 32).
Qed.

(** The references [expand] finds are those of the layout. *)
Lemma expand_refers kind b refs values :
  kind_ok kind → expand kind b = Ok (refs, values) →
  (∀ i n, (i, n) ∈ refs ↔ refers kind b i n) ∧ (∀ v, v ∈ values ↔ kind = 2 ∧ valued b v).
Proof.
  unfold kind_ok, expand, extract, bytes_eqb. intros Hk E.
  destruct (Z.eqb_spec kind 0) as [->|H0]; [|destruct (Z.eqb_spec kind 1) as [->|H1]].
  - apply need_bind_Ok in E as [[Hl%Z.eqb_eq Hm%bool_decide_eq_true]%andb_true_iff E].
    repeat (apply bind_Ok in E as (? & [_ <-%Ok_inj]%need_bind_Ok & E)). apply Ok_inj in E as [= <- <-].
    pose proof (λ m p, revision_layout_iff b m p Hl Hm) as Hx. split; [|set_solver].
    intros i n. rewrite !elem_of_cons, elem_of_nil. split.
    + intros [[= -> ->]|[[= -> ->]|[]]]; [eapply refers_revision|eapply refers_parent]; by apply Hx.
    + inversion 1 as [? m p Hy|? m p Hy| | |]; subst; apply Hx in Hy as [-> ->]; naive_solver.
  - apply need_bind_Ok in E as [[Hl%Z.eqb_eq Hm%bool_decide_eq_true]%andb_true_iff E].
    repeat (apply bind_Ok in E as (? & [_ <-%Ok_inj]%need_bind_Ok & E)). apply Ok_inj in E as [= <- <-].
    pose proof (λ r, manifest_layout_iff b r Hl Hm) as Hx. split; [|set_solver].
    intros i n. rewrite !elem_of_cons, elem_of_nil. split.
    + intros [[= -> ->]|[]]. eapply refers_root. by apply Hx.
    + inversion 1 as [| |? r Hy| |]; subst; apply Hx in Hy as ->; naive_solver.
  - assert (kind = 2) as -> by lia. apply need_bind_Ok in E as [[[Hl%Z.leb_le Hm%bool_decide_eq_true]%andb_true_iff _]%andb_true_iff E].
    repeat (apply bind_Ok in E as (? & [_ <-%Ok_inj]%need_bind_Ok & E)). apply Ok_inj in E as [= <- <-].
    pose proof (λ v l r, node_layout_iff b v l r Hl Hm) as Hx. split.
    + intros i n. rewrite !elem_of_cons, elem_of_nil. split.
      * intros [[= -> ->]|[[= -> ->]|[]]]; [eapply refers_left|eapply refers_right]; by apply Hx.
      * inversion 1 as [| | |? v l r Hy|? v l r Hy]; subst; apply Hx in Hy as (-> & -> & ->); naive_solver.
    + intros v. rewrite list_elem_of_singleton. split; [intros ->; split; [done|]; eexists _, _; by apply Hx|].
      intros (_ & l & r & Hy). by apply Hx in Hy as (-> & _ & _).
Qed.

Lemma size_list_to_set_le {A} `{Countable A} (l : list A) : (size (list_to_set l : gset A) ≤ length l)%nat.
Proof.
  induction l as [|x l IH]; cbn [list_to_set length]; [by rewrite size_empty|].
  rewrite size_union_alt, size_singleton.
  pose proof (subseteq_size (list_to_set l ∖ {[x]} : gset A) (list_to_set l)). set_solver by lia.
Qed.

(** ** The mark phase *)

Section Mark.
Context {J : Type} `{JournalLaws J} `{!JournalReturns J} (j : J).

Lemma total_mark_all ids live : total (mark_all j ids live).
Proof. revert live. induction ids as [|id ids IH]; intros live; cbn [mark_all]; halts. Qed.
Lemma total_mark_roots keys registry live pending : total (mark_roots j keys registry live pending).
Proof.
  revert registry live pending. induction keys as [|k keys IH]; intros registry live pending; cbn [mark_roots]; halts.
Qed.
Lemma total_unreachable registry live : total (unreachable j registry live).
Proof. induction registry as [|k registry IH]; cbn [unreachable]; halts. Qed.

(** *** The loop over the pending references ends *)

Definition candidates : list (Id * Z) := List.list_prod (elements (object_ids j)) [0; 1; 2].

Lemma length_candidates : length candidates = (3 * size (object_ids j))%nat.
Proof. unfold candidates. rewrite List.length_prod. cbn [length]. unfold size, set_size. cbn. lia. Qed.

Lemma elem_of_candidates id kind b : get_object j id = Ok b → kind_ok kind → (id, kind) ∈ candidates.
Proof.
  intros Hb Hk. unfold candidates. rewrite list_elem_of_In, List.in_prod_iff. split.
  - rewrite <- list_elem_of_In, elem_of_elements. by eapply get_object_ids.
  - unfold kind_ok in Hk. cbn. lia.
Qed.

(** The pairs that may still be expanded. *)
Definition unexpanded (expanded : gset (Id * Z)) : gset (Id * Z) := list_to_set candidates ∖ expanded.

Lemma unexpanded_smaller id kind b expanded :
  get_object j id = Ok b → kind_ok kind → (id, kind) ∉ expanded →
  (size (unexpanded ({[(id, kind)]} ∪ expanded)) < size (unexpanded expanded))%nat.
Proof.
  intros Hb Hk Hn. apply subset_size. unfold unexpanded.
  assert ((id, kind) ∈ (list_to_set candidates : gset (Id * Z)))
    by (apply elem_of_list_to_set; by eapply elem_of_candidates).
  split; set_solver.
Qed.

Lemma total_mark_pending fuel pending expanded live :
  Forall (λ r, kind_ok r.2) pending → (length pending + 2 * size (unexpanded expanded) ≤ fuel)%nat →
  total (mark_pending j fuel pending expanded live).
Proof.
  revert pending expanded live. induction fuel as [|fuel IH]; intros [|[id kind] pending] expanded live Hk Hf;
    cbn [mark_pending length] in *; try apply total_Ok; [lia|].
  apply Forall_cons in Hk as [Hk Hks]. cbn [snd] in Hk. case_bool_decide as E; [apply IH; [done|lia]|].
  destruct (get_object j id) as [b|m|] eqn:Eb; [|done|by destruct (returns_journal_object j id)].
  cbn [mbind result_bind]. destruct (expand kind b) as [[refs values]|m|] eqn:Ex; [|done|by destruct (total_expand kind b)].
  cbn [mbind result_bind]. apply total_bind; [apply total_mark_all|]. intros live1 _.
  destruct (expand_bounded _ _ _ _ Ex) as [Hl Hr]. apply IH.
  - apply Forall_forall. intros r [Hr'|[Hr' _]]%elem_of_trace; [by rewrite Forall_forall in Hks; apply Hks|].
    by rewrite Forall_forall in Hr; apply Hr.
  - pose proof (length_trace refs pending). pose proof (unexpanded_smaller _ _ _ _ Eb Hk E). lia.
Qed.

(** *** What the mark phase returns *)

Context (s : kv) (Hs : stands j s).

Lemma mark_all_Ok ids live live' : mark_all j ids live = Ok live' → live' = list_to_set ids ∪ live.
Proof.
  revert live. induction ids as [|id ids IH]; intros live E; cbn [mark_all list_to_set] in *; [set_solver|].
  apply bind_Ok in E as (b & _ & E). rewrite (IH _ E). set_solver.
Qed.

(** One root key. *)
Definition noted (k : Bytes) (pending pending' : list (Id * Z)) : Prop :=
  ∀ r, r ∈ pending' ↔ r ∈ pending ∨ entry s k r.1 r.2 ∧ r.1 ≠ zero_id.

Lemma noted_one k id kind pending :
  (∀ i n, entry s k i n ↔ i = id ∧ n = kind) → noted k pending (trace [(id, kind)] pending).
Proof.
  intros He [i n]. rewrite elem_of_trace, He, list_elem_of_singleton. cbn [fst snd]. naive_solver.
Qed.

Lemma noted_none k pending : (∀ i n, ¬ entry s k i n) → noted k pending pending.
Proof. intros He r. split; [by left|]. intros [?|[Hr _]]; [done|by destruct (He _ _ Hr)]. Qed.

Lemma mark_root_step k keys registry live pending out :
  ¬ registered k → mark_roots j (k :: keys) registry live pending = Ok out →
  ∃ id pending', kv_roots s !! k = Some id ∧ noted k pending pending' ∧
    mark_roots j keys registry ({[id]} ∪ live) pending' = Ok out.
Proof.
  intros Hk E. cbn [mark_roots] in E. fold registry_prefix world_prefix revision_prefix base_prefix in E.
  unfold registered in Hk. apply not_true_is_false in Hk. rewrite Hk in E.
  apply bind_Ok in E as (id & Hid%(root_stands _ _ _ _ Hs) & E).
  apply bind_Ok in E as (b & Hb%(object_stands _ _ _ _ Hs) & E). exists id.
  destruct (starts_with world_prefix k) eqn:Hw; [|destruct (starts_with revision_prefix k) eqn:Hv;
    [|destruct (starts_with base_prefix k) eqn:Hz]].
  - eexists. split_and!; [done| |exact E]. apply noted_one. intros i n. by apply entry_world_inv.
  - eexists. split_and!; [done| |exact E]. apply noted_one. intros i n. by apply entry_revision_inv.
  - apply need_bind_Ok in E as [Hlen%Z.eqb_eq E]. apply bind_Ok in E as (p & Hp & E). unfold extract in Hp.
    apply need_bind_Ok in Hp as [_ Hp%Ok_inj]. assert (p = b) as ->.
    { subst p. unfold slice, len in *. rewrite drop_0, take_ge by lia. done. }
    eexists. split_and!; [done| |exact E]. apply noted_one. intros i n. by apply entry_base_inv with id.
  - eexists. split_and!; [done| |exact E]. apply noted_none. intros i n [? _ G|? _ G|? ? _ _ G]; congruence.
Qed.

(** Adding one key to what has been gone through. *)
Lemma exists_cons {A} (P : A → Prop) (Q : Prop) k l :
  (Q ∨ ∃ x, x ∈ k :: l ∧ P x) ↔ (Q ∨ P k) ∨ ∃ x, x ∈ l ∧ P x.
Proof.
  split.
  - intros [?|(x & [->|?]%elem_of_cons & ?)]; eauto.
  - intros [[?|?]|(x & ? & ?)]; [by left|right; exists k; split; [left|done]|right; exists x; split; [by right|done]].
Qed.

Lemma mark_roots_Ok keys registry live pending registry' live' pending' :
  mark_roots j keys registry live pending = Ok (registry', live', pending') →
  registry' = registry ++ filter registered keys ∧
  (∀ id, id ∈ live' ↔ id ∈ live ∨ ∃ k, k ∈ keys ∧ ¬ registered k ∧ kv_roots s !! k = Some id) ∧
  (∀ r, r ∈ pending' ↔ r ∈ pending ∨ ∃ k, k ∈ keys ∧ entry s k r.1 r.2 ∧ r.1 ≠ zero_id).
Proof.
  revert registry live pending. induction keys as [|k keys IH]; intros registry live pending E.
  { cbn [mark_roots] in E. injection E as -> -> ->. rewrite filter_nil, app_nil_r.
    split_and!; [done|intros; set_solver..]. }
  destruct (decide (registered k)) as [Hk|Hk].
  - rewrite filter_cons_True by done. cbn [mark_roots] in E. fold registry_prefix in E. rewrite Hk in E.
    destruct (IH _ _ _ E) as (-> & Hl & Hp). rewrite <- app_assoc. split_and!; [done| |].
    + intros id. rewrite Hl, exists_cons. pose proof Hk as Hreg. clear -Hreg. tauto.
    + intros r. rewrite Hp, exists_cons. pose proof (registered_not_entry s k r.1 r.2 Hk) as Hn. clear -Hn. tauto.
  - rewrite filter_cons_False by done.
    destruct (mark_root_step _ _ _ _ _ _ Hk E) as (id & pending1 & Hid & Hno & E1).
    destruct (IH _ _ _ E1) as (-> & Hl & Hp). split_and!; [done| |].
    + intros i. rewrite Hl, exists_cons, elem_of_union, elem_of_singleton.
      assert (i = id ↔ ¬ registered k ∧ kv_roots s !! k = Some i) as ->; [|clear; tauto].
      rewrite Hid. split; [by intros ->|by intros [_ [= ->]]].
    + intros r. by rewrite Hp, exists_cons, (Hno r).
Qed.

(** The references of an expanded object are marked, expanded or waiting. *)
Definition followed (pending : list (Id * Z)) (done expanded : gset (Id * Z)) (live : gset Id) : Prop :=
  ∀ id kind, (id, kind) ∈ expanded → id ∈ live ∧
    ∃ b, kv_objects s !! id = Some b ∧ (∀ v, kind = 2 ∧ valued b v → v ∈ live) ∧
      (∀ i n, refers kind b i n → i ≠ zero_id → (i, n) ∈ pending ∨ (i, n) ∈ done).

Definition justified (pending : list (Id * Z)) (live : gset Id) : Prop :=
  (∀ id kind, (id, kind) ∈ pending → traced s id kind) ∧ (∀ id, id ∈ live → retained s id).

Lemma followed_mono pending pending' done done' expanded live live' :
  followed pending done expanded live → live ⊆ live' → (∀ r, r ∈ pending → r ∈ pending' ∨ r ∈ done') → done ⊆ done' →
  followed pending' done' expanded live'.
Proof.
  intros Hf Hl Hp Hd id kind Hin. destruct (Hf id kind Hin) as (? & b & Hb & Hv & Hr).
  split; [by apply Hl|]. exists b. split_and!; [done|by intros v ?%Hv%Hl|].
  intros i n Hin' Hz. destruct (Hr i n Hin' Hz) as [?%Hp|?]; [done|right; by apply Hd].
Qed.

Lemma mark_pending_Ok fuel pending expanded live live' :
  mark_pending j fuel pending expanded live = Ok live' →
  followed pending expanded expanded live → justified pending live →
  ∃ expanded', expanded ⊆ expanded' ∧ (∀ r, r ∈ pending → r ∈ expanded') ∧ live ⊆ live' ∧
    followed [] expanded' expanded' live' ∧ justified [] live'.
Proof.
  revert pending expanded live. induction fuel as [|fuel IH]; intros [|[id kind] pending] expanded live E Hf [Hp Hl];
    cbn [mark_pending] in E; try (apply Ok_inj in E as <-; exists expanded; by split_and!; [|set_solver|..]); [done|].
  case_bool_decide as Ein.
  - destruct (IH _ _ _ E) as (x & Hx1 & Hx2 & ?).
    + eapply followed_mono; [exact Hf|done| |done]. intros r [->|?]%elem_of_cons; [by right|by left].
    + split; [|done]. intros i n ?. apply Hp. by right.
    + exists x. split_and!; [done| |naive_solver..]. intros r [->|?]%elem_of_cons; [by apply Hx1|by apply Hx2].
  - apply bind_Ok in E as (b & Hb%(object_stands _ _ _ _ Hs) & E).
    apply bind_Ok in E as ([refs values] & Hx & E). apply bind_Ok in E as (live1 & ->%mark_all_Ok & E).
    assert (traced s id kind) as Ht by (apply Hp; left).
    destruct (expand_refers kind b refs values (traced_kind s id kind Ht) Hx) as [Hrefs Hvals].
    destruct (IH _ _ _ E) as (x & Hx1 & Hx2 & Hx3 & Hx4 & Hx5).
    + intros i n [[= -> ->]%elem_of_singleton|Hin]%elem_of_union.
      * split; [set_solver|]. exists b. split_and!; [done|intros v Hv%Hvals; set_solver|].
        intros i n Hr%Hrefs Hz. left. apply elem_of_trace. by right.
      * eapply followed_mono; [exact Hf|set_solver| |set_solver|exact Hin].
        intros r [->|?]%elem_of_cons; [right; set_solver|left; apply elem_of_trace; by left].
    + split.
      * intros i n [Hin|[Hin Hz]]%elem_of_trace; [by apply Hp; right|eapply traced_reference; [done..|by apply Hrefs|done]].
      * intros i [[-> Hv]%elem_of_list_to_set%Hvals|[->%elem_of_singleton|?]%elem_of_union]%elem_of_union;
          [by eapply retained_value|by eapply retained_traced|by apply Hl].
    + exists x. split_and!; [set_solver| |set_solver|done..].
      intros r [->|?]%elem_of_cons; [set_solver|]. apply Hx2, elem_of_trace. by left.
Qed.

Lemma unreachable_Ok registry live obsolete :
  unreachable j registry live = Ok obsolete →
  obsolete `sublist_of` registry ∧
  ∀ k, k ∈ obsolete ↔ k ∈ registry ∧ ∃ id, kv_roots s !! k = Some id ∧ id ∉ live.
Proof.
  revert obsolete. induction registry as [|k registry IH]; intros obsolete E; cbn [unreachable] in E.
  { apply Ok_inj in E as <-. split; [done|set_solver]. }
  apply bind_Ok in E as (id & Hid%(root_stands _ _ _ _ Hs) & E). apply bind_Ok in E as (rest & Er & <-%Ok_inj).
  destruct (IH _ Er) as [Hsub Hin]. case_bool_decide as El.
  - split; [by apply sublist_cons|]. intros k'. rewrite Hin, elem_of_cons. split; [naive_solver|].
    intros [[->|?] (i & ? & ?)]; [congruence|naive_solver].
  - split; [by apply sublist_skip|]. intros k'. rewrite !elem_of_cons, Hin. naive_solver.
Qed.

Lemma expanded_traced expanded live :
  followed [] expanded expanded live → (∀ k id kind, entry s k id kind → id ≠ zero_id → (id, kind) ∈ expanded) →
  ∀ id kind, traced s id kind → (id, kind) ∈ expanded.
Proof.
  intros Hf He id kind Ht. induction Ht as [k id kind Hk Hz|id kind b id' kind' _ IH Hb Hr Hz]; [by eapply He|].
  destruct (Hf _ _ IH) as (_ & b' & Hb' & _ & Hrefs). rewrite Hb in Hb'. injection Hb' as <-.
  destruct (Hrefs _ _ Hr Hz) as [?%elem_of_nil|?]; done.
Qed.

(** The mark phase ends. *)
Lemma total_mark : total (mark j).
Proof.
  unfold mark. apply total_bind; [apply returns_keys|]. intros keys _.
  apply total_bind; [apply total_mark_roots|]. intros [[registry live] pending] E.
  apply total_bind; [|intros live' _; apply total_bind; [apply total_unreachable|done]].
  apply mark_roots_Ok in E as (_ & _ & Hp). apply total_mark_pending.
  - apply Forall_forall. intros r [?%elem_of_nil|(k & _ & He & _)]%Hp; [done|]. destruct r as [id kind].
    cbn [fst snd] in *. unfold kind_ok. inversion He; lia.
  - unfold gc_fuel, unexpanded. rewrite difference_empty_L. pose proof (size_list_to_set_le candidates).
    rewrite length_candidates in *. lia.
Qed.

(** It returns the retained objects and the registry names of the others. *)
Lemma mark_Ok live obsolete :
  mark j = Ok (live, obsolete) →
  (∀ id, id ∈ live ↔ retained s id) ∧ NoDup obsolete ∧
  ∀ k, k ∈ obsolete ↔ registered k ∧ ∃ id, kv_roots s !! k = Some id ∧ ¬ retained s id.
Proof.
  intros E. unfold mark in E. apply bind_Ok in E as (keys & ->%(keys_stands _ _ _ _ Hs) & E).
  apply bind_Ok in E as ([[registry live0] pending] & Er & E). apply bind_Ok in E as (live1 & Ep & E).
  apply bind_Ok in E as (obs & Eu & [= <- <-]%Ok_inj).
  destruct (mark_roots_Ok _ _ _ _ _ _ _ Er) as (-> & Hl0 & Hp0). rewrite app_nil_l in Eu.
  assert (∀ k, k ∈ kv_keys s [] ↔ is_Some (kv_roots s !! k)) as Hkeys.
  { intros k. unfold kv_keys. rewrite list_elem_of_filter, list_elem_of_fmap. split.
    - intros (_ & [k' i] & -> & Hin%elem_of_in_order). by exists i.
    - intros [i Hi]. split; [by apply starts_with_spec; exists k|]. exists (k, i). by rewrite elem_of_in_order. }
  destruct (mark_pending_Ok _ _ _ _ _ Ep) as (x & _ & Hpx & Hsub & Hf & _ & Hj).
  { intros id kind. set_solver. }
  { split.
    - intros id kind [?%elem_of_nil|(k & _ & He & Hz)]%Hp0; [done|]. by eapply traced_entry.
    - intros id [?|(k & _ & Hk & Hid)]%Hl0; [set_solver|by eapply retained_root]. }
  assert (∀ id kind, traced s id kind → (id, kind) ∈ x) as Ht.
  { apply (expanded_traced x live1 Hf). intros k id kind He Hz. apply Hpx, Hp0. right. exists k. split; [|done].
    apply Hkeys. inversion He; by eexists. }
  assert (∀ id, id ∈ live1 ↔ retained s id) as Hlive.
  { intros id. split; [apply Hj|]. intros [k i Hk Hn|i kind Hi|i b v Hi Hb Hv].
    - apply Hsub, Hl0. right. exists k. split_and!; [apply Hkeys; by eexists|done..].
    - by destruct (Hf _ _ (Ht _ _ Hi)).
    - destruct (Hf _ _ (Ht _ _ Hi)) as (_ & b' & Hb' & Hvs & _). rewrite Hb in Hb'. injection Hb' as <-. by apply Hvs. }
  destruct (unreachable_Ok _ _ _ Eu) as [Hs' Hin]. split_and!; [done| |].
  - eapply sublist_NoDup; [|exact Hs']. apply NoDup_filter. unfold kv_keys. apply NoDup_filter.
    apply increasing_NoDup, increasing_in_order.
  - intros k. rewrite Hin, list_elem_of_filter, Hkeys. setoid_rewrite Hlive. split; [naive_solver|].
    intros (Hr & id & Hid & Hn). split_and!; [done|by eexists|eauto].
Qed.
End Mark.

(** ** The sweep *)

Section Sweep.
Context `{DigestOk} (s : kv).

(** The store after a collection: the retained objects, every name outside the registry, and
    the registry names of retained objects. *)
Record swept (s' : kv) : Prop := {
  swept_seq : kv_seq s' = kv_seq s + 1;
  swept_objects : ∀ id b, kv_objects s' !! id = Some b ↔ kv_objects s !! id = Some b ∧ retained s id;
  swept_roots : ∀ k id, kv_roots s' !! k = Some id ↔ kv_roots s !! k = Some id ∧ (registered k → retained s id);
}.

Context (live : gset Id) (obsolete : list Bytes) (Hlive : ∀ id, id ∈ live ↔ retained s id).
Context (Hobs : ∀ k, k ∈ obsolete ↔ registered k ∧ ∃ id, kv_roots s !! k = Some id ∧ ¬ retained s id).

Lemma collect_swept : swept (kv_collect live obsolete s).
Proof.
  split; [done|..]; intros x y; cbn [kv_collect kv_objects kv_roots]; rewrite map_lookup_filter_Some; cbn [fst].
  - by rewrite Hlive.
  - rewrite Hobs. split; [|naive_solver]. intros [Hy Hn]. split; [done|]. intros Hr. rewrite <- Hlive.
    apply dec_stable. rewrite Hlive. naive_solver.
Qed.

Lemma collect_marks : LevelStoreTransact.marks s live obsolete.
Proof.
  intros k id Hid Hn. destruct (decide (registered k)) as [Hr|Hr]; [|by eapply Hlive, retained_root].
  rewrite Hobs in Hn. apply dec_stable. rewrite Hlive. naive_solver.
Qed.
End Sweep.

(** ** Trees *)

Section Trees.
Context `{DigestOk} (s : kv) (U : list (Bytes * Id)) (HU : collision_free U) (HUok : entries_ok U).

(** The store holds every node of [t], as a search tree the code builds. *)
Record holds_tree (t : tree) : Prop := {
  holds_nodes : ∀ u, u ∈ subtrees t → kv_objects s !! mid u = Some (payload u);
  holds_in : tree_in U t;
  holds_heap : heap MetadataTree.higher_key t;
  holds_depth : (depth t ≤ 256)%nat;
}.

Lemma encode_manifest_layout root : length root = 32%nat → manifest_layout (MetadataTree.encode_manifest root) root.
Proof. intros Hl. destruct (tree_manifest root Hl) as (H40 & Hm & Hr). by apply manifest_layout_iff. Qed.

Lemma encode_node_layout n :
  node_ok n → node_layout (MetadataTree.encode_node n) (MetadataTree.value n) (MetadataTree.left n) (MetadataTree.right n).
Proof.
  intros Hn. pose proof Hn as (_ & _ & Hv & Hl & Hr). rewrite encode_node_eq by done.
  eexists _, _. split_and!; [reflexivity|apply length_store|done..].
Qed.

(** From a traced node every node below it is traced, and their values are retained. *)
Lemma traced_subtrees t :
  (∀ u, u ∈ subtrees t → kv_objects s !! mid u = Some (payload u)) → tree_in U t →
  (t ≠ Leaf → traced s (mid t) 2) →
  ∀ u, u ∈ subtrees t → traced s (mid u) 2 ∧ ∀ l k v r, u = Branch l k v r → retained s v.
Proof.
  induction t as [|l IHl k v r IHr]; intros Hst Ht Hroot u Hu; [by apply elem_of_nil in Hu|].
  pose proof (tree_in_Branch _ _ _ _ _ Ht) as (Hl & Hr & _). specialize (Hroot ltac:(done)).
  pose proof (Hst _ (list_elem_of_here _ _)) as Hb. cbn [payload] in Hb.
  pose proof (encode_node_layout _ (root_node_ok U HUok _ _ _ _ Ht)) as Hx.
  assert (∀ c, c = l ∨ c = r → tree_in U c → c ≠ Leaf → traced s (mid c) 2) as Hc.
  { intros c Hc Hin Hne. eapply traced_reference; [exact Hroot|exact Hb| |].
    - destruct Hc as [->| ->]; [by eapply refers_left|by eapply refers_right].
    - destruct c; [done|by apply (mid_nonzero U HU)]. }
  cbn [subtrees] in Hu. apply elem_of_cons in Hu as [->|[Hu|Hu]%elem_of_app].
  - split; [done|]. intros l' k' v' r' [= -> -> -> ->]. eapply retained_value; [exact Hroot|exact Hb|]. by eexists _, _.
  - apply IHl; [|done|by apply Hc; [left|..]|done]. intros w Hw. apply Hst. cbn [subtrees]. set_solver.
  - apply IHr; [|done|by apply Hc; [right|..]|done]. intros w Hw. apply Hst. cbn [subtrees]. set_solver.
Qed.

Lemma elements_subtree t p : p ∈ elements_of t → ∃ l r, Branch l p.1 p.2 r ∈ subtrees t.
Proof.
  induction t as [|l IHl k v r IHr]; cbn [elements_of subtrees]; [set_solver|].
  intros [Hp|[->|Hp]%elem_of_cons]%elem_of_app.
  - destruct (IHl Hp) as (l' & r' & ?). exists l', r'. set_solver.
  - exists l, r. left.
  - destruct (IHr Hp) as (l' & r' & ?). exists l', r'. set_solver.
Qed.

(** A tree below a traced manifest survives, and so do the objects of its entries. *)
Lemma swept_tree s' idm t :
  swept s s' → traced s idm 1 → kv_objects s !! idm = Some (MetadataTree.encode_manifest (mid t)) →
  holds_tree t → t ≠ Leaf →
  kv_objects s' !! idm = Some (MetadataTree.encode_manifest (mid t)) ∧
  (∀ u, u ∈ subtrees t → kv_objects s' !! mid u = Some (payload u)) ∧
  ∀ k i b, to_map t !! k = Some i → kv_objects s !! i = Some b → kv_objects s' !! i = Some b.
Proof.
  intros [_ Ho _] Hm Hb [Hst Ht _ _] Hne. destruct t as [|l k v r]; [done|].
  assert (traced s (mid (Branch l k v r)) 2) as Hroot.
  { eapply traced_reference; [exact Hm|exact Hb|by apply refers_root, encode_manifest_layout, length_object_hash|by apply (mid_nonzero U HU)]. }
  pose proof (traced_subtrees _ Hst Ht (λ _, Hroot)) as Hall. split_and!.
  - apply Ho. split; [done|]. by eapply retained_traced.
  - intros u Hu. apply Ho. split; [by apply Hst|]. eapply retained_traced. by apply Hall.
  - intros k' i b Hi%elem_of_list_to_map_2 Hib. apply elements_subtree in Hi as (l' & r' & Hu).
    apply Ho. split; [done|]. by eapply (proj2 (Hall _ Hu)).
Qed.
End Trees.
