(* ===== verification/Agrees.v ===== *)
(** * Reads of a store that grows

    Objects are named by their hash and never change, so a read that succeeded on one store gives
    the same answer on every later store.  [agrees P m m'] states it for an operation on two
    stores: whenever [m] returns from a state that satisfies [P], [m'] returns the same value and
    the same state, which satisfies [P] again.  It composes along the program. *)

From S2P Require Import Prelude Codec Journal JournalStore MetadataTree Store MetadataView MetadataViewPlan.
Local Open Scope Z_scope.

Definition agrees {S A} (P : S → Prop) (m m' : ST S A) : Prop :=
  ∀ s s' a, P s → m s = (s', Ok a) → P s' ∧ m' s = (s', Ok a).

(** A result that is the same when it is not an error. *)
Definition keeps_result {A} (r r' : result A) : Prop := ∀ a, r = Ok a → r' = Ok a.

Section Generic.
Context {S : Type} (P : S → Prop).

Lemma agrees_refl_ret {A} (a : A) : agrees P (mret a) (mret a).
Proof. by intros s s' b Hs [= <- <-]. Qed.
Lemma agrees_throw {A} msg (m' : ST S A) : agrees P (throw msg) m'.
Proof. by intros s s' b _ [=]. Qed.
Lemma agrees_get : agrees P get_st get_st.
Proof. by intros s s' b Hs [= <- <-]. Qed.
Lemma agrees_gets {A} (f : S → A) : agrees P (gets f) (gets f).
Proof. by intros s s' b Hs [= <- <-]. Qed.
Lemma agrees_lift {A} (r r' : result A) : keeps_result r r' → agrees P (lift r) (lift r').
Proof. intros Hr s s' a Hs E. unfold lift in *. destruct r as [b| |]; [|done..]. injection E as <- <-. by rewrite (Hr b eq_refl). Qed.
Lemma agrees_need b msg : agrees P (st_need b msg) (st_need b msg).
Proof. apply agrees_lift. by intros []. Qed.
Lemma agrees_modify (f : S → S) : (∀ s, P s → P (f s)) → agrees P (modify f) (modify f).
Proof. intros Hf s s' [] Hs [= <-]. split; [by apply Hf|done]. Qed.
Lemma agrees_bind {A B} (m m' : ST S A) (f f' : A → ST S B) :
  agrees P m m' → (∀ a, agrees P (f a) (f' a)) → agrees P (m ≫= f) (m' ≫= f').
Proof.
  intros Hm Hf s s' b Hs (a & s1 & E1 & E2)%st_bind_Ok. destruct (Hm _ _ _ Hs E1) as [Hs1 E1'].
  destruct (Hf a _ _ _ Hs1 E2) as [Hs' E2']. split; [done|]. by rewrite (st_bind_run _ _ _ _ _ E1').
Qed.
End Generic.

Lemma keeps_refl {A} (r : result A) : keeps_result r r.
Proof. by intros a. Qed.
Lemma keeps_bind {A B} (r r' : result A) (f f' : A → result B) :
  keeps_result r r' → (∀ a, keeps_result (f a) (f' a)) → keeps_result (r ≫= f) (r' ≫= f').
Proof. intros Hr Hf b (a & Ea & Eb)%bind_Ok. rewrite (Hr a Ea). by apply Hf. Qed.

Create HintDb agrees.
#[export] Hint Resolve agrees_refl_ret agrees_throw agrees_get agrees_gets agrees_need keeps_refl : agrees.

Ltac agrees_step :=
  match goal with
  | |- agrees _ (mbind _ _) (mbind _ _) => apply agrees_bind; [|intros ?]
  | |- agrees _ (let '_ := ?x in _) _ => destruct x
  | |- agrees _ (match ?x with _ => _ end) _ => destruct x
  | |- agrees _ (lift _) (lift _) => apply agrees_lift
  | |- keeps_result (mbind _ _) (mbind _ _) => apply keeps_bind; [|intros ?]
  | |- keeps_result (match ?x with _ => _ end) _ => destruct x
  | _ => solve [eauto 4 with agrees]
  end.
Ltac agrees := repeat (progress cbn beta iota zeta || agrees_step).

(** ** Trees and views *)

Section Grows.
Context `{Digest} {J : Type} `{JournalLike J} (j j' : J) (Hx : extends j j').

Abbreviation same_editor := (agrees (λ _ : MetadataTree.editor, True)).

Section Tree.
Import MetadataTree.

Lemma agrees_node id : same_editor (node j id) (node j' id).
Proof.
  intros e e' n _ E. split; [done|]. unfold node in *. destruct (cache_ e !! id); [done|].
  destruct (get_object j id) as [b| |] eqn:Eb; [|done..]. by rewrite (Hx id b Eb).
Qed.
#[local] Hint Resolve agrees_node : agrees.

Lemma agrees_lookup_loop k key id : same_editor (lookup_loop j k key id) (lookup_loop j' k key id).
Proof. revert id. induction k as [|k IH]; intros id; cbn [lookup_loop]; agrees. Qed.
#[local] Hint Resolve agrees_lookup_loop : agrees.
Lemma agrees_tree_lookup key : same_editor (lookup j key) (lookup j' key).
Proof. unfold lookup. agrees. Qed.

Lemma agrees_keys_walk k p u id acc : same_editor (keys_walk j k p u id acc) (keys_walk j' k p u id acc).
Proof. revert id acc. induction k as [|k IH]; intros id acc; cbn [keys_walk]; agrees. Qed.
#[local] Hint Resolve agrees_keys_walk : agrees.
Lemma agrees_tree_keys p : same_editor (keys j p) (keys j' p).
Proof. unfold keys. agrees. Qed.

Lemma agrees_page_walk k p a l u lim id acc :
  same_editor (page_walk j k p a l u lim id acc) (page_walk j' k p a l u lim id acc).
Proof. revert id acc. induction k as [|k IH]; intros id acc; cbn [page_walk]; agrees. Qed.
#[local] Hint Resolve agrees_page_walk : agrees.
Lemma agrees_tree_page p a lim : same_editor (page j p a lim) (page j' p a lim).
Proof. unfold page. agrees. Qed.

Lemma agrees_heap_check c n : same_editor (heap_check j c n) (heap_check j' c n).
Proof. unfold heap_check. agrees. Qed.
#[local] Hint Resolve agrees_heap_check : agrees.
Lemma agrees_entries_walk k id lo hi acc vis :
  same_editor (entries_walk j k id lo hi acc vis) (entries_walk j' k id lo hi acc vis).
Proof. revert id lo hi acc vis. induction k as [|k IH]; intros id lo hi acc vis; cbn [entries_walk]; agrees. Qed.
#[local] Hint Resolve agrees_entries_walk : agrees.
Lemma agrees_tree_entries : same_editor (entries j) (entries j').
Proof. unfold entries. agrees. Qed.
End Tree.

Import NamespaceView.

(** A view of a manifest, which reads nothing but objects. *)
Definition historic (v : view) : Prop := legacy_ v = false.
Abbreviation same_view := (agrees historic).

Lemma agrees_on_tree {A} e (m m' : ST MetadataTree.editor A) : same_editor m m' → same_view (on_tree e m) (on_tree e m').
Proof.
  intros Hm v v' a Hv E. unfold on_tree in *. destruct (m e) as [e' [b| |]] eqn:Em; [|done..]. injection E as <- <-.
  destruct (Hm e e' b I Em) as [_ E']. by rewrite E'.
Qed.

Lemma agrees_run id : same_view (run j id) (run j' id).
Proof.
  intros v v' c Hv E. unfold run in *. destruct (cache_ v !! id); [by injection E as <- <-|].
  destruct (get_object j id) as [b| |] eqn:Eb; [|done..]. rewrite (Hx id b Eb). cbn [mbind result_bind] in *.
  destruct (decode_run b); [|done..]. by injection E as <- <-.
Qed.
#[local] Hint Resolve agrees_run : agrees.

Lemma agrees_lookup_runs ids k : same_view (lookup_runs j ids k) (lookup_runs j' ids k).
Proof. induction ids as [|id ids IH]; cbn [lookup_runs]; agrees. Qed.
Lemma agrees_select_runs ids p sel : same_view (select_runs j ids p sel) (select_runs j' ids p sel).
Proof. revert sel. induction ids as [|id ids IH]; intros sel; cbn [select_runs]; agrees. Qed.
Lemma agrees_apply_runs ids acc : same_view (apply_runs j ids acc) (apply_runs j' ids acc).
Proof. revert acc. induction ids as [|id ids IH]; intros acc; cbn [apply_runs]; agrees. Qed.

(** The dispatch of a read on the form of the view. *)
Lemma agrees_form {A} (f f' : MetadataTree.editor → ST view A) (g g' h h' : view → ST view A) :
  (∀ e, same_view (f e) (f' e)) → (∀ v, same_view (h v) (h' v)) →
  same_view (v ← get_st; match tree_ v with Some e => f e | None => if legacy_ v then g v else h v end)
    (v ← get_st; match tree_ v with Some e => f' e | None => if legacy_ v then g' v else h' v end).
Proof.
  intros Hf Hh v v' a Hv E. rewrite (st_bind_run _ _ v v v eq_refl) in E. rewrite (st_bind_run _ _ v v v eq_refl).
  destruct (tree_ v) as [e|]; [by apply Hf|]. rewrite Hv in E. rewrite Hv. by apply Hh.
Qed.

Lemma agrees_lookup k : same_view (lookup j k) (lookup j' k).
Proof.
  apply (agrees_form _ _ (λ _, _) (λ _, _) (λ v, lookup_runs j (runs_ v) k) (λ v, lookup_runs j' (runs_ v) k)).
  - intros e. by apply agrees_on_tree, agrees_tree_lookup.
  - intros v. apply agrees_lookup_runs.
Qed.
#[local] Hint Resolve agrees_lookup : agrees.

Lemma agrees_view_get k : same_view (get j k) (get j' k).
Proof. unfold get. agrees. intros b. apply Hx. Qed.

Lemma agrees_view_keys p : same_view (keys j p) (keys j' p).
Proof.
  apply (agrees_form _ _ (λ _, _) (λ _, _)).
  - intros e. by apply agrees_on_tree, agrees_tree_keys.
  - intros v. apply agrees_bind; [apply agrees_select_runs|]. intros sel. agrees.
Qed.

Lemma agrees_view_page p a lim : same_view (page j p a lim) (page j' p a lim).
Proof.
  unfold page. agrees. by apply agrees_on_tree, agrees_tree_page.
Qed.

Lemma agrees_references : same_view (references j) (references j').
Proof.
  apply (agrees_form _ _ (λ _, _) (λ _, _)).
  - intros e. by apply agrees_on_tree, agrees_tree_entries.
  - intros v. apply agrees_apply_runs.
Qed.

Lemma agrees_load id validate : same_view (load j id validate) (load j' id validate).
Proof.
  unfold load. apply agrees_bind; [apply agrees_lift; intros b; apply Hx|]. intros b. apply agrees_bind.
  - agrees; try (by apply agrees_modify).
  - intros _. destruct validate; agrees.
Qed.

(** Reading a manifest that was there. *)
Lemma load_later id validate v : constructed (load j id validate unloaded) = Ok v →
  historic v ∧ constructed (load j' id validate unloaded) = Ok v.
Proof.
  intros E. destruct (load j id validate unloaded) as [v1 [[]| |]] eqn:El; cbn [constructed] in E; [|done..].
  injection E as <-. destruct (agrees_load id validate unloaded v1 tt eq_refl El) as [Hv E']. by rewrite E'.
Qed.
End Grows.
