(* ===== verification/Walks.v ===== *)
(** * Walking through a map of records

    A view of a tree reads a fixed map, so the walk along a path is determined by the records
    it meets.  [compatible F F'] relates two such maps: the second has every entry of the first
    and the same kind of inode under every id.  Then a walk that succeeded on the first succeeds
    on the second with the same result; and a walk that ended at a missing name ends at the file
    that the second map has there. *)

From S2P Require Import Prelude Codec Treap Journal JournalStore MetadataTree MetadataTreeProofs.
From S2P Require Import MetadataTreeApply Store MetadataView MetadataViewPlan Nodes Garbage.
Import Nodes.
Local Open Scope Z_scope.

(** ** Views of a tree *)

Section Pictures.
Context `{DigestOk} {J : Type} `{JournalLike J, !JournalLaws J} (j : J).
Context (U : list (Bytes * Id)) (HU : collision_free U) (t : tree).
Implicit Types v : NamespaceView.view.

Definition pictures v : Prop :=
  ∃ e, NamespaceView.tree_ v = Some e ∧ NamespaceView.legacy_ v = false ∧ editing j U e t.

(** The bytes under a key. *)
Definition record_at (k : Bytes) : option Bytes := to_map t !! k ≫= λ i, ok_value (get_object j i).

Lemma lookup_pictures k v : pictures v → ∃ v', NamespaceView.lookup j k v = (v', Ok (to_map t !! k)) ∧ pictures v'.
Proof.
  intros (e & Et & El & He). unfold NamespaceView.lookup. rewrite (st_bind_run _ _ v v v eq_refl), Et.
  destruct (lookup_editing j U HU e t k He) as (e' & E & He'). unfold NamespaceView.on_tree. rewrite E.
  eexists. split; [done|]. by exists e'.
Qed.

Lemma get_run k v b : pictures v → record_at k = Some b → ∃ v', NamespaceView.get j k v = (v', Ok b) ∧ pictures v'.
Proof.
  intros Hv Hb. destruct (lookup_pictures k v Hv) as (v' & E & Hv'). exists v'. split; [|done].
  unfold NamespaceView.get. rewrite (st_bind_run _ _ _ _ _ E). unfold record_at in Hb.
  destruct (to_map t !! k) as [i|]; [|done]. cbn [mbind option_bind] in Hb. unfold lift.
  destruct (get_object j i); cbn [ok_value] in Hb; [|done..]. by injection Hb as ->.
Qed.

Lemma get_Ok k v v' b : pictures v → NamespaceView.get j k v = (v', Ok b) → pictures v' ∧ record_at k = Some b.
Proof.
  intros Hv E. destruct (lookup_pictures k v Hv) as (v1 & El & Hv1). unfold NamespaceView.get in E.
  rewrite (st_bind_run _ _ _ _ _ El) in E. unfold record_at. destruct (to_map t !! k) as [i|]; [|done].
  unfold lift in E. injection E as <- E. split; [done|]. cbn [mbind option_bind]. by rewrite E.
Qed.

Definition marked (k : Bytes) : Prop := starts_with (NamespaceView.prefix ++ bs "allocated/") k = true.

Lemma contains_run k v : pictures v → ¬ marked k →
  ∃ v', NamespaceView.contains j k v = (v', Ok (bool_decide (is_Some (to_map t !! k)))) ∧ pictures v'.
Proof.
  intros Hv Hk. destruct (lookup_pictures k v Hv) as (v' & E & Hv'). exists v'. split; [|done].
  unfold NamespaceView.contains. apply not_true_is_false in Hk. rewrite Hk.
  rewrite (st_bind_run _ _ v v false eq_refl). by rewrite (st_bind_run _ _ _ _ _ E).
Qed.

Lemma contains_Ok k v v' c : pictures v → ¬ marked k → NamespaceView.contains j k v = (v', Ok c) →
  pictures v' ∧ c = bool_decide (is_Some (to_map t !! k)).
Proof. intros Hv Hk E. destruct (contains_run k v Hv Hk) as (v1 & E1 & Hv1). rewrite E in E1. by injection E1 as -> ->. Qed.

Lemma record_contained k b : record_at k = Some b → is_Some (to_map t !! k).
Proof. unfold record_at. destruct (to_map t !! k); [done|by intros]. Qed.
End Pictures.

(** ** Records *)

Definition node_at (F : Bytes → option Bytes) (id : Bytes) (n : InodeInfo) : Prop :=
  ∃ b, F (inode_key id) = Some b ∧ decode_inode b id false = Ok n.

Record compatible (F F' : Bytes → option Bytes) : Prop := {
  c_root : ∀ b, F root_key = Some b → F' root_key = Some b;
  c_entry : ∀ p name b, F (entry_key p name) = Some b → F' (entry_key p name) = Some b;
  c_node : ∀ id n, node_at F id n → ∃ n', node_at F' id n' ∧ i_directory n' = i_directory n ∧
    i_symlink n' = i_symlink n ∧
    (i_symlink n = true → i_size n' = i_size n ∧ ∀ c, F (content_key id) = Some c → F' (content_key id) = Some c);
}.

Lemma entry_unmarked p name : ¬ marked (entry_key p name).
Proof.
  intros Hm. refine (apart_prefixes (NamespaceView.prefix ++ bs "allocated/") (NamespaceView.prefix ++ bs "entry/") _ eq_refl eq_refl Hm _).
  apply starts_with_spec. exists (p ++ bs "/" ++ name). unfold entry_key, directory_prefix, prefix. by rewrite <- !app_assoc.
Qed.
Lemma root_unmarked : ¬ marked root_key.
Proof. intros Hm. vm_compute in Hm. discriminate. Qed.

Section Nodes_.
Context `{DigestOk} {J : Type} `{JournalLike J, !JournalLaws J} (j : J).
Context (U : list (Bytes * Id)) (HU : collision_free U) (t : tree).
Abbreviation P := (pictures j U t).
Abbreviation F := (record_at j t).

Lemma inode_run id v n : P v → node_at F id n → ∃ v', inode j id v = (v', Ok n) ∧ P v'.
Proof.
  intros Hv (b & Hb & Hd). destruct (get_run j U HU t _ v b Hv Hb) as (v' & E & Hv'). exists v'. split; [|done].
  unfold inode. rewrite (st_bind_run _ _ _ _ _ E). unfold lift. by rewrite Hd.
Qed.
Lemma inode_Ok id v v' n : P v → inode j id v = (v', Ok n) → P v' ∧ node_at F id n.
Proof.
  intros Hv (b & v1 & E1 & E2)%st_bind_Ok. destruct (get_Ok j U HU t _ _ _ _ Hv E1) as [Hv1 Hb].
  unfold lift in E2. injection E2 as <- E2. split; [done|]. by exists b.
Qed.

Lemma root_Ok v v' id : P v → root j v = (v', Ok id) → P v' ∧ ∃ b, F root_key = Some b ∧ decode_id b = Ok id.
Proof.
  intros Hv (c & v1 & E1 & E)%st_bind_Ok. destruct (contains_Ok j U HU t _ _ _ _ Hv root_unmarked E1) as [Hv1 _].
  apply st_bind_Ok in E as ([] & v2 & E2 & E). unfold st_need, lift in E2. injection E2 as <- _.
  apply st_bind_Ok in E as (b & v3 & E3 & E). destruct (get_Ok j U HU t _ _ _ _ Hv1 E3) as [Hv3 Hb].
  unfold lift in E. injection E as <- E. split; [done|]. by exists b.
Qed.
Lemma root_run v b id : P v → F root_key = Some b → decode_id b = Ok id → ∃ v', root j v = (v', Ok id) ∧ P v'.
Proof.
  intros Hv Hb Hd. destruct (contains_run j U HU t root_key v Hv root_unmarked) as (v1 & E1 & Hv1).
  rewrite bool_decide_eq_true_2 in E1 by by eapply record_contained.
  destruct (get_run j U HU t _ v1 b Hv1 Hb) as (v2 & E2 & Hv2). exists v2. split; [|done].
  unfold root. rewrite (st_bind_run _ _ _ _ _ E1). unfold st_need, lift, need, mbind, st_bind. rewrite E2. by rewrite Hd.
Qed.
End Nodes_.

(** ** Two walks *)

Section Sim.
Context `{DigestOk} {J : Type} `{JournalLike J, !JournalLaws J} (j j' : J).
Context (U : list (Bytes * Id)) (HU : collision_free U) (t t' : tree).
Abbreviation P := (pictures j U t).
Abbreviation P' := (pictures j' U t').
Abbreviation F := (record_at j t).
Abbreviation F' := (record_at j' t').
Context (Hc : compatible F F').

(** A name at which a walk may end: its entry leads to something that is not a link. *)
Definition arrives (q : Parent) (id : Bytes) : Prop :=
  p_key q = entry_key (p_id q) (p_name q) ∧ F' (p_key q) = Some id ∧ valid_id id = true ∧
  ∃ n, node_at F' id n ∧ i_symlink n = false.

(** What the second walk gives for a result of the first. *)
Definition ends (w : walked) (m' : ST NamespaceView.view walked) : Prop :=
  ∀ v', P' v' →
    (w_missing w = None → ∃ v1, m' v' = (v1, Ok w) ∧ P' v1) ∧
    (∀ q id, w_missing w = Some q → arrives q id → ∃ v1 w', m' v' = (v1, Ok w') ∧ P' v1 ∧ w_id w' = id).

Lemma ends_bind {A} w (m : ST NamespaceView.view A) f a :
  (∀ v', P' v' → ∃ v1, m v' = (v1, Ok a) ∧ P' v1) → ends w (f a) → ends w (m ≫= f).
Proof.
  intros Hm Hf v' Hv'. destruct (Hm v' Hv') as (v1 & E & Hv1). rewrite (st_bind_run _ _ _ _ _ E). by apply Hf.
Qed.
Lemma ends_need w b msg (f : unit → ST _ walked) : b = true → ends w (f tt) → ends w (st_need b msg ≫= f).
Proof. intros -> Hf. apply (ends_bind _ _ _ tt); [|done]. intros v' Hv'. by exists v'. Qed.
Lemma ends_lift {A} w (r : result A) a (f : A → ST _ walked) : r = Ok a → ends w (f a) → ends w (lift r ≫= f).
Proof. intros -> Hf. apply (ends_bind _ _ _ a); [|done]. intros v' Hv'. by exists v'. Qed.
Lemma ends_inode w id n f :
  node_at F id n →
  (∀ n', node_at F' id n' → i_directory n' = i_directory n → i_symlink n' = i_symlink n →
     (i_symlink n = true → i_size n' = i_size n ∧ ∀ c, F (content_key id) = Some c → F' (content_key id) = Some c) → ends w (f n')) →
  ends w (inode j' id ≫= f).
Proof.
  intros Hn Hf. destruct (c_node _ _ Hc id n Hn) as (n' & Hn' & Hd & Hy & Hs).
  apply (ends_bind _ _ _ n'); [|by apply Hf]. intros v' Hv'. by apply inode_run.
Qed.
Lemma ends_get w k b f : F' k = Some b → ends w (f b) → ends w (NamespaceView.get j' k ≫= f).
Proof. intros Hb. apply ends_bind. intros v' Hv'. by apply (get_run j' U HU t'). Qed.
Lemma ends_contains w p name b (f : bool → ST _ walked) :
  F' (entry_key p name) = Some b → ends w (f true) → ends w (NamespaceView.contains j' (entry_key p name) ≫= f).
Proof.
  intros Hb. apply ends_bind. intros v' Hv'.
  destruct (contains_run j' U HU t' _ v' Hv' (entry_unmarked p name)) as (v1 & E & Hv1).
  rewrite bool_decide_eq_true_2 in E by by eapply record_contained. by exists v1.
Qed.

(** Ending at a name that the first walk missed. *)
Lemma ends_missing fuel rid (ff : bool) stack id name follows expanded :
  ends (mkWalked [] stack (Some (mkParent id name (entry_key id name))))
    (NamespaceView.contains j' (entry_key id name) ≫= λ c : bool,
     if negb c then
       st_need (false && bool_decide (([] : list Bytes) = [])) "path not found";;
       mret (mkWalked [] stack (Some (mkParent id name (entry_key id name))))
     else
       b ← NamespaceView.get j' (entry_key id name);
       child ← lift (decode_id b);
       n ← inode j' child;
       if i_symlink n && (ff || bool_decide (([] : list Bytes) ≠ [])) then
         let follows := follows + 1 in
         st_need (follows <=? 40) "too many symbolic links";;
         target ← NamespaceView.get j' (content_key child);
         st_need (len target =? i_size n) "symlink size mismatch";;
         parts ← lift (target_components target);
         let expanded := expanded + len target in
         st_need (expanded <=? 65536) "symlink expansion limit";;
         let stack := if bool_decide (head target = Some slash) then [rid] else stack in
         walk_loop j' fuel rid ff false stack (parts ++ []) (default [] (head stack)) follows expanded
       else walk_loop j' fuel rid ff false (child :: stack) [] child follows expanded).
Proof.
  intros v' Hv'. split; [done|]. intros q id' [= <-] (_ & Hb & Hval & n & Hn & Hy). cbn [p_key] in Hb.
  destruct (contains_run j' U HU t' _ v' Hv' (entry_unmarked id name)) as (v1 & E1 & Hv1).
  rewrite bool_decide_eq_true_2 in E1 by by eapply record_contained. rewrite (st_bind_run _ _ _ _ _ E1). cbn [negb].
  destruct (get_run j' U HU t' _ v1 _ Hv1 Hb) as (v2 & E2 & Hv2). rewrite (st_bind_run _ _ _ _ _ E2).
  rewrite (st_bind_run _ _ v2 v2 id') by (unfold lift, decode_id; by rewrite Hval).
  destruct (inode_run j' U HU t' id' v2 n Hv2 Hn) as (v3 & E3 & Hv3). rewrite (st_bind_run _ _ _ _ _ E3), Hy.
  cbn [andb]. exists v3, (mkWalked id' (id' :: stack) None). by destruct fuel.
Qed.


(** The steps that both walks take. *)
Definition both (Q : Prop) (w : walked) (m' : ST NamespaceView.view walked) : Prop := Q ∧ ends w m'.

Lemma both_need Q w b msg (f : unit → ST _ walked) : b = true → both Q w (f tt) → both Q w (st_need b msg ≫= f).
Proof. intros Hb [HQ Hf]. split; [done|]. by apply ends_need. Qed.
Lemma both_lift {A} Q w (r : result A) a (f : A → ST _ walked) : r = Ok a → both Q w (f a) → both Q w (lift r ≫= f).
Proof. intros Hr [HQ Hf]. split; [done|]. by eapply ends_lift. Qed.
Lemma both_get Q w k b f : F' k = Some b → both Q w (f b) → both Q w (NamespaceView.get j' k ≫= f).
Proof. intros Hb [HQ Hf]. split; [done|]. by eapply ends_get. Qed.
Lemma both_contains Q w p name b (f : bool → ST _ walked) :
  F' (entry_key p name) = Some b → both Q w (f true) → both Q w (NamespaceView.contains j' (entry_key p name) ≫= f).
Proof. intros Hb [HQ Hf]. split; [done|]. by eapply ends_contains. Qed.
Lemma both_inode Q w id n f :
  node_at F id n →
  (∀ n', i_directory n' = i_directory n → i_symlink n' = i_symlink n →
     (i_symlink n = true → i_size n' = i_size n ∧ ∀ c, F (content_key id) = Some c → F' (content_key id) = Some c) → both Q w (f n')) →
  both Q w (inode j' id ≫= f).
Proof.
  intros Hn Hf. destruct (c_node _ _ Hc id n Hn) as (n' & Hn' & Hd & Hy & Hs). split; [by apply (Hf n')|].
  apply (ends_bind _ _ _ n'); [|by apply Hf]. intros v' Hv'. by apply inode_run.
Qed.

Lemma walk_loop_ends fuel rid ff (missing : bool) stack pending id follows expanded v v1 w :
  P v → walk_loop j fuel rid ff missing stack pending id follows expanded v = (v1, Ok w) →
  both (P v1) w (walk_loop j' fuel rid ff false stack pending id follows expanded).
Proof.
  revert stack pending id follows expanded v. induction fuel as [|fuel IH];
    intros stack [|name pending] id follows expanded v Hv E; cbn [walk_loop] in E |- *; try done;
    try (injection E as <- <-; split; [done|]; intros v' Hv'; split; [by exists v'|done]).
  set (at_ := default [] (head stack)) in *.
  apply st_bind_Ok in E as (n & v2 & En & E). destruct (inode_Ok j U HU t _ _ _ _ Hv En) as [Hv2 Hn].
  apply st_need_Ok in E as [Hdir E].
  eapply both_inode; [done|]. intros n' Hd' _ _. apply both_need; [congruence|].
  case_bool_decide as Hdot; [by eapply IH|]. case_bool_decide as Hdd; [by eapply IH|].
  apply st_bind_Ok in E as (c & v3 & Ec & E).
  destruct (contains_Ok j U HU t _ _ _ _ Hv2 (entry_unmarked at_ name) Ec) as [Hv3 ->].
  case_bool_decide as Hin; cbn [negb] in E.
  2:{ apply st_need_Ok in E as [Hm E]. injection E as <- <-. split; [done|].
      apply andb_true_iff in Hm as [_ ->%bool_decide_eq_true]. apply ends_missing. }
  apply st_bind_Ok in E as (b & v4 & Eb & E). destruct (get_Ok j U HU t _ _ _ _ Hv3 Eb) as [Hv4 Hb].
  apply st_lift_Ok in E as (child & Hdec & E).
  apply st_bind_Ok in E as (cn & v5 & Ecn & E). destruct (inode_Ok j U HU t _ _ _ _ Hv4 Ecn) as [Hv5 Hcn].
  pose proof (c_entry _ _ Hc _ _ _ Hb) as Hb'.
  eapply both_contains; [done|]. cbn [negb]. eapply both_get; [done|]. eapply both_lift; [done|].
  eapply both_inode; [done|]. intros cn' _ Hy Hs. rewrite Hy.
  destruct (i_symlink cn && (ff || bool_decide (pending ≠ []))) eqn:Hfollow; [|by eapply IH].
  apply st_need_Ok in E as [Hf E]. apply st_bind_Ok in E as (target & v6 & Et & E).
  destruct (get_Ok j U HU t _ _ _ _ Hv5 Et) as [Hv6 Ht]. apply st_need_Ok in E as [Hl E].
  apply st_lift_Ok in E as (parts & Hp & E). apply st_need_Ok in E as [Hx E].
  apply andb_true_iff in Hfollow as [Hlink _]. destruct (Hs Hlink) as [Hz Hcont].
  apply both_need; [done|]. eapply both_get; [by apply Hcont|]. apply both_need; [by rewrite Hz|].
  eapply both_lift; [done|]. apply both_need; [done|]. by eapply IH.
Qed.
End Sim.

(** ** One more name *)

Section Snoc.
Context `{DigestOk} {J : Type} `{JournalLike J, !JournalLaws J} (j : J).
Context (U : list (Bytes * Id)) (HU : collision_free U) (t : tree).
Abbreviation P := (pictures j U t).
Abbreviation F := (record_at j t).

Lemma walk_loop_found fuel rid ff stack pending id follows expanded v v1 w :
  walk_loop j fuel rid ff false stack pending id follows expanded v = (v1, Ok w) → w_missing w = None.
Proof.
  revert stack pending id follows expanded v. induction fuel as [|fuel IH];
    intros stack [|name pending] id follows expanded v E; cbn [walk_loop] in E; try done;
    try (by injection E as _ <-).
  apply st_bind_Ok in E as (n & v2 & _ & E). apply st_need_Ok in E as [_ E].
  case_bool_decide; [by eapply IH|]. case_bool_decide; [by eapply IH|].
  apply st_bind_Ok in E as (c & v3 & _ & E). destruct c; cbn [negb] in E; [|by apply st_need_Ok in E as [? _]].
  apply st_bind_Ok in E as (b & v4 & _ & E). apply st_lift_Ok in E as (child & _ & E).
  apply st_bind_Ok in E as (cn & v5 & _ & E). destruct (i_symlink cn && _); [|by eapply IH].
  apply st_need_Ok in E as [_ E]. apply st_bind_Ok in E as (target & v6 & _ & E). apply st_need_Ok in E as [_ E].
  apply st_lift_Ok in E as (parts & _ & E). apply st_need_Ok in E as [_ E]. by eapply IH.
Qed.

(** Nothing a walk that follows the last link ends at is a link, when the root is not. *)
Definition no_link (id : Bytes) : Prop := ∀ n, node_at F id n → i_symlink n = false.

Lemma node_no_link id n : node_at F id n → i_symlink n = false → no_link id.
Proof. intros (b & Hb & Hd) Hy n' (b' & Hb' & Hd'). congruence. Qed.

Lemma top_no_link st : st ≠ [] → Forall no_link st → no_link (default [] (head st)).
Proof. destruct st as [|x st]; [done|]. by intros _ [? _]%Forall_cons. Qed.
Lemma up_no_link (st : list Bytes) : st ≠ [] → Forall no_link st →
  let up := match st with _ :: (_ :: _) as rest => rest | _ => st end in up ≠ [] ∧ Forall no_link up.
Proof. destruct st as [|x [|y st]]; [done..|]. intros _ [_ ?]%Forall_cons. done. Qed.

Lemma walk_loop_plain fuel rid stack pending id follows expanded v v1 w :
  P v → no_link rid → stack ≠ [] → Forall no_link stack → no_link id →
  walk_loop j fuel rid true false stack pending id follows expanded v = (v1, Ok w) → no_link (w_id w).
Proof.
  revert stack pending id follows expanded v. induction fuel as [|fuel IH];
    intros stack [|name pending] id follows expanded v Hv Hr Hne Hst Hid E; cbn [walk_loop] in E;
    [injection E as _ <-; exact Hid|discriminate E|injection E as _ <-; exact Hid|].
  apply st_bind_Ok in E as (n & v2 & En & E). destruct (inode_Ok j U HU t _ _ _ _ Hv En) as [Hv2 _].
  apply st_need_Ok in E as [_ E]. pose proof (top_no_link _ Hne Hst) as Htop.
  case_bool_decide; [exact (IH _ _ _ _ _ v2 Hv2 Hr Hne Hst Htop E)|].
  case_bool_decide.
  { destruct (up_no_link _ Hne Hst) as [Hne' Hst']. exact (IH _ _ _ _ _ v2 Hv2 Hr Hne' Hst' (top_no_link _ Hne' Hst') E). }
  apply st_bind_Ok in E as (c & v3 & Ec & E).
  destruct (contains_Ok j U HU t _ _ _ _ Hv2 (entry_unmarked _ name) Ec) as [Hv3 _].
  destruct c; cbn [negb] in E; [|apply st_need_Ok in E as [E _]; discriminate E].
  apply st_bind_Ok in E as (b & v4 & Eb & E). destruct (get_Ok j U HU t _ _ _ _ Hv3 Eb) as [Hv4 _].
  apply st_lift_Ok in E as (child & _ & E).
  apply st_bind_Ok in E as (cn & v5 & Ecn & E). destruct (inode_Ok j U HU t _ _ _ _ Hv4 Ecn) as [Hv5 Hcn].
  cbn [orb] in E. rewrite andb_true_r in E. destruct (i_symlink cn) eqn:Hy.
  - apply st_need_Ok in E as [_ E]. apply st_bind_Ok in E as (target & v6 & Et & E).
    destruct (get_Ok j U HU t _ _ _ _ Hv5 Et) as [Hv6 _]. apply st_need_Ok in E as [_ E].
    apply st_lift_Ok in E as (parts & _ & E). apply st_need_Ok in E as [_ E].
    case_bool_decide; [|exact (IH _ _ _ _ _ v6 Hv6 Hr Hne Hst Htop E)].
    exact (IH [rid] _ _ _ _ v6 Hv6 Hr (not_eq_sym (@nil_cons _ rid [])) (Forall_cons_2 _ _ _ Hr (Forall_nil_2 _)) Hr E).
  - pose proof (node_no_link _ _ Hcn Hy) as Hp.
    exact (IH _ _ _ _ _ v5 Hv5 Hr (not_eq_sym (@nil_cons _ child stack)) (Forall_cons_2 _ _ _ Hp Hst) Hp E).
Qed.

Lemma resolve_plain path v v1 w :
  P v → (∀ b, F root_key = Some b → no_link b) → resolve j path true false v = (v1, Ok w) → no_link (w_id w).
Proof.
  intros Hv Hroot (names & _ & E)%st_lift_Ok. apply st_bind_Ok in E as (rid & v2 & E1 & E).
  destruct (root_Ok j U HU t _ _ _ Hv E1) as (Hv2 & b & Hb & [_ <-%Ok_inj]%need_bind_Ok). specialize (Hroot _ Hb).
  eapply walk_loop_plain; [exact Hv2|exact Hroot|exact (not_eq_sym (@nil_cons _ b []))|exact (Forall_cons_2 _ _ _ Hroot (Forall_nil_2 _))|exact Hroot|exact E].
Qed.

(** Where a walk stopped at a missing name. *)
Definition absent (q : Parent) : Prop :=
  p_key q = entry_key (p_id q) (p_name q) ∧ to_map t !! p_key q = None ∧
  ∃ d, node_at F (p_id q) d ∧ i_directory d = true.

Lemma walk_loop_missing fuel rid ff (missing : bool) stack pending id follows expanded v v1 w q :
  P v → walk_loop j fuel rid ff missing stack pending id follows expanded v = (v1, Ok w) → w_missing w = Some q → absent q.
Proof.
  revert stack pending id follows expanded v. induction fuel as [|fuel IH];
    intros stack [|name pending] id follows expanded v Hv E Hq; cbn [walk_loop] in E; try done;
    try (by injection E as _ <-).
  apply st_bind_Ok in E as (n & v2 & En & E). destruct (inode_Ok j U HU t _ _ _ _ Hv En) as [Hv2 Hn].
  apply st_need_Ok in E as [Hdir E]. case_bool_decide; [by eapply IH|]. case_bool_decide; [by eapply IH|].
  apply st_bind_Ok in E as (c & v3 & Ec & E).
  destruct (contains_Ok j U HU t _ _ _ _ Hv2 (entry_unmarked _ _) Ec) as [Hv3 ->].
  case_bool_decide as Hin; cbn [negb] in E.
  2:{ apply st_need_Ok in E as [_ E]. injection E as _ <-. injection Hq as <-. split_and!; [done| |by exists n].
      by apply eq_None_not_Some. }
  apply st_bind_Ok in E as (b & v4 & Eb & E). destruct (get_Ok j U HU t _ _ _ _ Hv3 Eb) as [Hv4 _].
  apply st_lift_Ok in E as (child & _ & E).
  apply st_bind_Ok in E as (cn & v5 & Ecn & E). destruct (inode_Ok j U HU t _ _ _ _ Hv4 Ecn) as [Hv5 _].
  destruct (i_symlink cn && _); [|by eapply IH].
  apply st_need_Ok in E as [_ E]. apply st_bind_Ok in E as (target & v6 & Et & E).
  destruct (get_Ok j U HU t _ _ _ _ Hv5 Et) as [Hv6 _]. apply st_need_Ok in E as [_ E].
  apply st_lift_Ok in E as (parts & _ & E). apply st_need_Ok in E as [_ E]. by eapply IH.
Qed.

Lemma resolve_missing path v v1 w q :
  P v → resolve j path true true v = (v1, Ok w) → w_missing w = Some q → absent q.
Proof.
  intros Hv (names & _ & E)%st_lift_Ok Hq. apply st_bind_Ok in E as (rid & v2 & E1 & E).
  destruct (root_Ok j U HU t _ _ _ Hv E1) as [Hv2 _]. by eapply walk_loop_missing.
Qed.

(** What the step along [name] from the end of a walk finds. *)
Definition onward (name from to : Bytes) : Prop :=
  name ≠ bs "." ∧ name ≠ bs ".." ∧ (∃ d, node_at F from d ∧ i_directory d = true) ∧
  F (entry_key from name) = Some to ∧ valid_id to = true ∧ ∃ n, node_at F to n ∧ i_symlink n = false.

Lemma step_onward fuel rid stack name from to follows expanded v :
  P v → onward name from to → from = default [] (head stack) →
  ∃ v1, walk_loop j (S fuel) rid true false stack [name] from follows expanded v = (v1, Ok (mkWalked to (to :: stack) None)) ∧ P v1.
Proof.
  intros Hv (Hdot & Hdd & (d & Hd & Hdir) & Hb & Hval & n & Hn & Hy) ->. cbn [walk_loop].
  destruct (inode_run j U HU t _ v d Hv Hd) as (v1 & E1 & Hv1). rewrite (st_bind_run _ _ _ _ _ E1).
  rewrite (st_bind_run _ _ v1 v1 tt) by (by rewrite Hdir). rewrite !bool_decide_eq_false_2 by done.
  destruct (contains_run j U HU t _ v1 Hv1 (entry_unmarked (default [] (head stack)) name)) as (v2 & E2 & Hv2).
  rewrite bool_decide_eq_true_2 in E2 by by eapply record_contained. rewrite (st_bind_run _ _ _ _ _ E2). cbn [negb].
  destruct (get_run j U HU t _ v2 _ Hv2 Hb) as (v3 & E3 & Hv3). rewrite (st_bind_run _ _ _ _ _ E3).
  rewrite (st_bind_run _ _ v3 v3 to) by (unfold lift, decode_id; by rewrite Hval).
  destruct (inode_run j U HU t to v3 n Hv3 Hn) as (v4 & E4 & Hv4). rewrite (st_bind_run _ _ _ _ _ E4), Hy.
  cbn [andb]. exists v4. by destruct fuel.
Qed.

Lemma walk_snoc fuel rid stack pending id follows expanded v v1 w name to :
  P v → walk_loop j fuel rid true false stack pending id follows expanded v = (v1, Ok w) → id = default [] (head stack) →
  onward name (w_id w) to →
  ∃ v2 w', walk_loop j (S fuel) rid true false stack (pending ++ [name]) id follows expanded v = (v2, Ok w') ∧
    P v2 ∧ w_id w' = to.
Proof.
  revert stack pending id follows expanded v. induction fuel as [|fuel IH];
    intros stack [|x pending] id follows expanded v Hv E Hid Hon; try (cbn [walk_loop] in E; done).
  1,2: cbn [walk_loop] in E; injection E as <- <-; cbn [w_id] in Hon;
    destruct (step_onward 0 rid stack name id to follows expanded v Hv Hon Hid) as (v1 & E1 & Hv1).
  1: by eexists v1, _.
  1:{ destruct (step_onward (S fuel) rid stack name id to follows expanded v Hv Hon Hid) as (v2 & E2 & Hv2). by eexists v2, _. }
  cbn [walk_loop] in E. cbn [app]. remember (S fuel) as k eqn:Ek. cbn [walk_loop].
  apply st_bind_Ok in E as (n & v2 & En & E). destruct (inode_Ok j U HU t _ _ _ _ Hv En) as [Hv2 Hn].
  rewrite (st_bind_run _ _ _ _ _ En). apply st_need_Ok in E as [Hdir E].
  rewrite (st_bind_run _ _ v2 v2 tt) by (by rewrite Hdir). subst k.
  case_bool_decide; [by eapply IH|]. case_bool_decide; [by eapply IH|].
  apply st_bind_Ok in E as (c & v3 & Ec & E). rewrite (st_bind_run _ _ _ _ _ Ec).
  destruct (contains_Ok j U HU t _ _ _ _ Hv2 (entry_unmarked _ _) Ec) as [Hv3 _].
  destruct c; cbn [negb] in E |- *; [|by apply st_need_Ok in E as [? _]].
  apply st_bind_Ok in E as (b & v4 & Eb & E). destruct (get_Ok j U HU t _ _ _ _ Hv3 Eb) as [Hv4 _].
  rewrite (st_bind_run _ _ _ _ _ Eb). apply st_lift_Ok in E as (child & Hdec & E).
  rewrite (st_bind_run _ _ v4 v4 child) by (unfold lift; by rewrite Hdec).
  apply st_bind_Ok in E as (cn & v5 & Ecn & E). destruct (inode_Ok j U HU t _ _ _ _ Hv4 Ecn) as [Hv5 _].
  rewrite (st_bind_run _ _ _ _ _ Ecn). cbn [orb] in E |- *. destruct (i_symlink cn && true); [|by eapply IH].
  apply st_need_Ok in E as [Hf E]. rewrite (st_bind_run _ _ v5 v5 tt) by (by rewrite Hf).
  apply st_bind_Ok in E as (target & v6 & Et & E). destruct (get_Ok j U HU t _ _ _ _ Hv5 Et) as [Hv6 _].
  rewrite (st_bind_run _ _ _ _ _ Et). apply st_need_Ok in E as [Hl E]. rewrite (st_bind_run _ _ v6 v6 tt) by (by rewrite Hl).
  apply st_lift_Ok in E as (parts & Hp & E). rewrite (st_bind_run _ _ v6 v6 parts) by (unfold lift; by rewrite Hp).
  apply st_need_Ok in E as [Hx E]. rewrite (st_bind_run _ _ v6 v6 tt) by (by rewrite Hx). rewrite app_assoc. by eapply IH.
Qed.
End Snoc.

(** ** Paths *)

Lemma check_pieces_proper l names : check_pieces l = Ok names → Forall (λ x, proper_name x = true) names.
Proof.
  revert names. induction l as [|x l IH]; intros names E; cbn [check_pieces] in E; [by apply Ok_inj in E as <-|].
  apply need_bind_Ok in E as [Hx E]. apply need_bind_Ok in E as [_ E]. apply need_bind_Ok in E as [_ E].
  apply bind_Ok in E as (rest & Er & <-%Ok_inj). constructor; [done|by apply IH].
Qed.
Lemma components_proper path names : components path = Ok names → Forall (λ x, proper_name x = true) names.
Proof.
  unfold components. intros [_ E]%need_bind_Ok. destruct (bytes_eqb path (bs "/")); [by apply Ok_inj in E as <-|].
  by eapply check_pieces_proper.
Qed.
Lemma proper_not_dots x : proper_name x = true → x ≠ bs "." ∧ x ≠ bs "..".
Proof. unfold proper_name. rewrite !andb_true_iff, !bool_decide_eq_true. tauto. Qed.

Section Paths.
Context `{DigestOk} {J : Type} `{JournalLike J, !JournalLaws J} (j j' : J).
Context (U : list (Bytes * Id)) (HU : collision_free U) (t t' : tree).
Abbreviation P := (pictures j U t).
Abbreviation P' := (pictures j' U t').
Abbreviation F := (record_at j t).
Abbreviation F' := (record_at j' t').
Context (Hc : compatible F F').

Lemma walk_ends names ff (missing : bool) v v1 w :
  P v → walk j names ff missing v = (v1, Ok w) → P v1 ∧ ends j' U t' w (walk j' names ff false).
Proof.
  intros Hv (rid & v2 & E1 & E)%st_bind_Ok. destruct (root_Ok j U HU t _ _ _ Hv E1) as (Hv2 & b & Hb & Hd).
  destruct (walk_loop_ends j j' U HU t t' Hc _ _ _ _ _ _ _ _ _ _ _ _ Hv2 E) as [Hv1 He]. split; [done|].
  unfold walk. eapply ends_bind; [|exact He]. intros v' Hv'.
  exact (root_run j' U HU t' v' b rid Hv' (c_root _ _ Hc b Hb) Hd).
Qed.

(** A path that resolved, or whose last name was missing. *)
Lemma resolve_ends path (missing : bool) v v1 w :
  P v → resolve j path true missing v = (v1, Ok w) → P v1 ∧ ends j' U t' w (resolve j' path true false).
Proof.
  intros Hv (names & Hn & E)%st_lift_Ok. destruct (walk_ends _ _ _ _ _ _ Hv E) as [Hv1 He]. split; [done|].
  unfold resolve. by eapply ends_lift.
Qed.

(** A path whose parent resolved, and whose last name leads to a file. *)
Lemma parent_resolves path v v1 p stack id :
  P v → parent j path v = (v1, Ok (p, stack)) →
  P v1 ∧ p_key p = entry_key (p_id p) (p_name p) ∧ (∃ d, node_at F (p_id p) d ∧ i_directory d = true) ∧
  (arrives j' t' p id → ∀ v', P' v' → ∃ v2 w, resolve j' path true false v' = (v2, Ok w) ∧ P' v2 ∧ w_id w = id).
Proof.
  intros Hv (names & Hn & E)%st_lift_Ok. apply st_need_Ok in E as [Hne%bool_decide_eq_true E].
  destruct names as [|name init _] using rev_ind; [done|]. clear Hne. rewrite last_snoc, length_app, Nat.add_sub in E.
  cbn [default] in E. rewrite take_app_length in E.
  apply st_bind_Ok in E as (w & v2 & Ew & E). apply st_bind_Ok in E as (d & v3 & Ed & E).
  apply st_need_Ok in E as [Hdir E]. injection E as <- <- <-.
  destruct (walk_ends _ _ _ _ _ _ Hv Ew) as [Hv2 He]. destruct (inode_Ok j U HU t _ _ _ _ Hv2 Ed) as [Hv3 Hd].
  cbn [p_key p_id p_name]. split_and!; [done|done|by exists d|].
  intros (_ & Hb & Hval & n & Hnode & Hy) v' Hv'. cbn [p_key p_id p_name] in *.
  assert (w_missing w = None) as Hm.
  { apply st_bind_Ok in Ew as (rid & v4 & _ & Ew). by eapply walk_loop_found. }
  destruct (proj1 (He v' Hv') Hm) as (v4 & Ew' & Hv4). apply st_bind_Ok in Ew' as (rid & v5 & Er & Ew').
  destruct (root_Ok j' U HU t' _ _ _ Hv' Er) as [Hv5 _].
  pose proof (components_proper _ _ Hn) as Hp. rewrite Forall_app, Forall_singleton in Hp. destruct Hp as [_ Hp].
  apply proper_not_dots in Hp as [Hdot Hdd]. destruct (c_node _ _ Hc _ _ Hd) as (d' & Hd' & Edir & _ & _).
  destruct (walk_snoc j' U HU t' _ _ _ _ _ _ _ _ _ w name id Hv5 Ew' eq_refl) as (v6 & w' & E6 & Hv6 & Hw').
  { split_and!; [done|done|exists d'; split; [done|congruence]|done|done|by exists n]. }
  exists v6, w'. split_and!; [|done|done]. unfold resolve. rewrite (st_bind_run _ _ v' v' (init ++ [name])) by (unfold lift; by rewrite Hn).
  unfold walk. rewrite (st_bind_run _ _ _ _ _ Er). unfold walk_fuel in E6 |- *. rewrite length_app. cbn [length].
  rewrite Nat.add_1_r. exact E6.
Qed.
End Paths.
