(* ===== verification/HaltsView.v ===== *)
(** * Metadata trees and views return

    The loops of [MetadataTree] return on every store, consistent or not: [merge] and [set]
    refuse to visit an id twice, and [collect] visits each pending node once.  With that every
    operation of a view returns. *)

From S2P Require Import Prelude Codec Journal MetadataTree Store MetadataView Halts.
Local Open Scope Z_scope.

(** ** Loops that visit an id at most once *)

Section Tree.
Context `{Digest} {J : Type} `{ObjectStoreOk J} (store_ : J).
Import MetadataTree.
Implicit Types (e : editor) (visited : gset Id).

Lemma tree_decode b : total (decode_node b).
Proof. unfold decode_node. halts. Qed.
#[local] Hint Resolve tree_decode : halts.

Lemma tree_node id : halts (node store_ id).
Proof.
  intros e. unfold node. destruct (cache_ e !! id); [done|].
  assert (total (get_object store_ id ≫= decode_node)) as Ht by halts.
  by destruct (get_object store_ id ≫= decode_node).
Qed.
#[local] Hint Resolve tree_node : halts.

(** A node that could be read is among the loadable ids, which do not change. *)
Lemma node_loadable id e e' n : node store_ id e = (e', Ok n) →
  id ∈ loadable store_ e ∧ loadable store_ e' = loadable store_ e.
Proof.
  unfold node, loadable. destruct (cache_ e !! id) as [n'|] eqn:Hc.
  - intros [= <- <-]. split; [|done]. apply elem_of_union_l, elem_of_dom. by exists n'.
  - destruct (get_object store_ id) as [b| |] eqn:Hg; simpl; [|done..].
    destruct (decode_node b); [|done..]. intros [= <- <-]. apply get_object_ids in Hg. simpl.
    split; [set_solver|]. rewrite dom_insert_L. set_solver.
Qed.

Lemma visit_once (x : Id) visited (all : gset Id) (k : nat) : x ∈ all → x ∉ visited → visited ⊆ all →
  (size all < S k + size visited)%nat → {[x]} ∪ visited ⊆ all ∧ (size all < k + size ({[x]} ∪ visited))%nat.
Proof. intros Hx Hv Hs Hk. split; [set_solver|]. rewrite size_union by set_solver. rewrite size_singleton. lia. Qed.

Lemma spent (visited all : gset Id) : visited ⊆ all → (size all < 0 + size visited)%nat → False.
Proof. intros Hs%subseteq_size. lia. Qed.

Lemma merge_descend_returns k l r path visited e : visited ⊆ loadable store_ e →
  (size (loadable store_ e) < k + size visited)%nat → total (merge_descend store_ k l r path visited e).2.
Proof.
  revert l r path visited e. induction k as [|k IH]; intros l r path visited e Hs Hk; simpl;
    (destruct (bool_decide (l = zero_id)); [done|]); (destruct (bool_decide (r = zero_id)); [done|]).
  { by destruct (spent visited (loadable store_ e)). }
  apply halts_at; [apply tree_node|]. intros a e1 [Hl E1]%node_loadable.
  apply halts_at; [apply tree_node|]. intros b e2 [Hr E2]%node_loadable. rewrite <- E1 in Hl, Hs, Hk.
  rewrite <- E2 in Hr, Hl, Hs, Hk.
  destruct (higher a b); (apply halts_at; [apply halts_need|]); intros [] e3 Hn;
    injection Hn as <- Hn; apply need_Ok, bool_decide_eq_true in Hn;
    [destruct (visit_once l visited _ k Hl Hn Hs Hk)|destruct (visit_once r visited _ k Hr Hn Hs Hk)]; by apply IH.
Qed.

Lemma tree_make n : halts (make n).
Proof. unfold make. halts. Qed.
#[local] Hint Resolve tree_make : halts.
Lemma tree_merge_rebuild path r : halts (merge_rebuild path r).
Proof. revert r. induction path as [|[n b] path IH]; intros r; simpl; halts. Qed.
#[local] Hint Resolve tree_merge_rebuild : halts.
Lemma tree_merge l r : halts (merge store_ l r).
Proof.
  intros e. unfold merge. apply halts_at; [done|]. intros e0 e1 [= <- <-]. apply halts_at.
  { apply merge_descend_returns; [set_solver|]. rewrite size_empty. unfold loop_bound. lia. }
  intros [res path] e1 _. halts.
Qed.
#[local] Hint Resolve tree_merge : halts.

Lemma set_descend_returns k key v current path visited e : visited ⊆ loadable store_ e →
  (size (loadable store_ e) < k + size visited)%nat → total (set_descend store_ k key v current path visited e).2.
Proof.
  revert current path visited e. induction k as [|k IH]; intros current path visited e Hs Hk; simpl;
    (destruct (bool_decide (current = zero_id)); [by destruct v; halts|]).
  { by destruct (spent visited (loadable store_ e)). }
  apply halts_at; [apply halts_need|]. intros [] e0 Hn. injection Hn as <- Hn. apply need_Ok, bool_decide_eq_true in Hn.
  apply halts_at; [apply tree_node|]. intros n e1 [Hl E1]%node_loadable. rewrite <- E1 in Hl, Hs, Hk.
  destruct (bool_decide (key = _)).
  { halts. }
  destruct (visit_once current visited _ k Hl Hn Hs Hk). by apply IH.
Qed.

Lemma tree_rebuild_step n b r : halts (set_rebuild_step store_ n b r).
Proof. unfold set_rebuild_step. halts. Qed.
#[local] Hint Resolve tree_rebuild_step : halts.
Lemma tree_rebuild path r : halts (set_rebuild store_ path r).
Proof. revert r. induction path as [|[n b] path IH]; intros r; simpl; halts. Qed.
#[local] Hint Resolve tree_rebuild : halts.
Lemma tree_set root k v : halts (set store_ root k v).
Proof.
  intros e. unfold set. apply halts_at; [done|]. intros e0 e1 [= <- <-]. apply halts_at.
  { apply set_descend_returns; [set_solver|]. rewrite size_empty. unfold loop_bound. lia. }
  intros found e1 _. by destruct found as [[res path]|]; [apply tree_rebuild|].
Qed.
#[local] Hint Resolve tree_set : halts.
Lemma tree_set_all l c : halts (set_all store_ c l).
Proof. revert c. induction l as [|[k v] l IH]; intros c; simpl; halts. Qed.

Lemma tree_lookup_loop k key c : halts (lookup_loop store_ k key c).
Proof. revert c. induction k as [|k IH]; intros c; simpl; halts. Qed.
Lemma tree_height k r : halts (height store_ k r).
Proof. revert r. induction k as [|k IH]; intros r; simpl; halts. Qed.
Lemma tree_keys_walk k p u id acc : halts (keys_walk store_ k p u id acc).
Proof. revert id acc. induction k as [|k IH]; intros id acc; simpl; halts. Qed.
Lemma tree_page_walk k p a l u lim id acc : halts (page_walk store_ k p a l u lim id acc).
Proof. revert id acc. induction k as [|k IH]; intros id acc; simpl; halts. Qed.
Lemma tree_heap_check c n : halts (heap_check store_ c n).
Proof. unfold heap_check. halts. Qed.
#[local] Hint Resolve tree_set_all tree_lookup_loop tree_height tree_keys_walk tree_page_walk tree_heap_check : halts.
Lemma tree_entries_walk k id lo hi acc vis : halts (entries_walk store_ k id lo hi acc vis).
Proof. revert id lo hi acc vis. induction k as [|k IH]; intros id lo hi acc vis; simpl; halts. Qed.
#[local] Hint Resolve tree_entries_walk : halts.

(** The nodes [collect] has not emitted yet. *)
Definition unseen e visited : gset Id := dom (pending_ e) ∖ visited.

Lemma node_pending id e e' n : node store_ id e = (e', Ok n) → pending_ e' = pending_ e.
Proof.
  unfold node. destruct (cache_ e !! id); [by intros [= <- _]|].
  destruct (get_object store_ id ≫= decode_node); [by intros [= <- _]|done..].
Qed.

Lemma collect_returns k id visited out e : (size (unseen e visited) < k)%nat →
  total (collect store_ k id visited out e).2 ∧
  ∀ e' v o, collect store_ k id visited out e = (e', Ok (v, o)) → pending_ e' = pending_ e ∧ visited ⊆ v.
Proof.
  revert id visited out e. induction k as [|k IH]; intros id visited out e Hk; [lia|].
  cbn [collect]. rewrite (st_bind_run _ _ e e (pending_ e !! id)) by done.
  destruct (pending_ e !! id) as [b|] eqn:Hp; [|split; [done|by intros e' v o [= <- <- <-]]].
  destruct (bool_decide (id ∈ visited)) eqn:Hv; [split; [done|by intros e' v o [= <- <- <-]]|].
  apply bool_decide_eq_false in Hv.
  assert (∀ e1, pending_ e1 = pending_ e → ∀ w, {[id]} ∪ visited ⊆ w → size (unseen e1 w) < k)%nat as Hlt.
  { intros e1 E1 w Hw. eapply Nat.lt_le_trans; [|by apply Nat.lt_succ_r; exact Hk]. apply subset_size.
    unfold unseen. rewrite E1. split; [set_solver|]. intros Hsub.
    assert (id ∈ dom (pending_ e)) by (apply elem_of_dom; by exists b). set_solver. }
  split.
  - apply halts_at; [apply tree_node|]. intros n e1 E1%node_pending.
    destruct (IH (left n) ({[id]} ∪ visited) out e1) as [T1 R1]; [by apply Hlt|].
    apply halts_at; [done|]. intros [v1 o1] e2 [E2 S2]%R1.
    destruct (IH (right n) v1 o1 e2) as [T2 R2]; [apply Hlt; [congruence|done]|].
    apply halts_at; [done|]. by intros [v2 o2] e3 _.
  - intros e' v o (n & e1 & E1%node_pending & G1)%st_bind_Ok.
    destruct (IH (left n) ({[id]} ∪ visited) out e1) as [_ R1]; [by apply Hlt|].
    apply st_bind_Ok in G1 as ([v1 o1] & e2 & [E2 S2]%R1 & G2).
    destruct (IH (right n) v1 o1 e2) as [_ R2]; [apply Hlt; [congruence|done]|].
    apply st_bind_Ok in G2 as ([v2 o2] & e3 & [E3 S3]%R2 & G3). injection G3 as <- <- <-.
    split; [congruence|set_solver].
Qed.

Lemma tree_check_changes l : total (check_changes l).
Proof. induction l as [|[k v] l IH]; simpl; halts. Qed.
#[local] Hint Resolve tree_check_changes : halts.
Lemma tree_lookup k : halts (lookup store_ k).
Proof. unfold lookup. halts. Qed.
#[local] Hint Resolve tree_lookup : halts.
Lemma tree_apply changes : halts (apply store_ changes).
Proof.
  intros e. unfold apply. apply halts_at; [halts|]. intros [] e1 _. apply halts_at; [halts|]. intros [] e2 _.
  apply halts_at; [halts|]. intros root e3 _. apply halts_at; [halts|]. intros c e4 _.
  apply halts_at; [halts|]. intros [] e5 _. apply halts_at; [done|]. intros bound e6 [= <- <-].
  apply halts_at; [|intros [v o] e7 _; halts].
  apply collect_returns. unfold unseen. rewrite size_difference, size_dom by set_solver. rewrite size_empty. lia.
Qed.
Lemma tree_keys p : halts (keys store_ p).
Proof. unfold keys. halts. Qed.
Lemma tree_page p a lim : halts (page store_ p a lim).
Proof. unfold page. halts. Qed.
Lemma tree_entries : halts (entries store_).
Proof. unfold entries. halts. Qed.
End Tree.


(** ** Views *)

Section View.
Context `{Digest} {J : Type} `{JournalReturns J} (j : J).
Import NamespaceView.

Lemma journal_tree_lookup k : halts (MetadataTree.lookup j k).
Proof. apply tree_lookup. Qed.
Lemma journal_tree_apply ch : halts (MetadataTree.apply j ch).
Proof. apply tree_apply. Qed.
Lemma journal_tree_keys p : halts (MetadataTree.keys j p).
Proof. apply tree_keys. Qed.
Lemma journal_tree_page p a lim : halts (MetadataTree.page j p a lim).
Proof. apply tree_page. Qed.
Lemma journal_tree_entries : halts (MetadataTree.entries j).
Proof. apply tree_entries. Qed.
#[local] Hint Resolve journal_tree_lookup journal_tree_apply journal_tree_keys journal_tree_page
  journal_tree_entries : halts.

Lemma view_u32 b a : total (u32 b a).
Proof. unfold u32. halts. Qed.
#[local] Hint Resolve view_u32 : halts.
Lemma view_run_entries f b n first a prev acc : total (run_entries f b n first a prev acc).
Proof. revert first a prev acc. induction n as [|n IH]; intros first a prev acc; simpl; halts. Qed.
#[local] Hint Resolve view_run_entries : halts.
Lemma view_decode_run b : total (decode_run b).
Proof. unfold decode_run. halts. Qed.
#[local] Hint Resolve view_decode_run : halts.
Lemma view_run id : halts (run j id).
Proof.
  intros v. unfold run. destruct (cache_ v !! id); [done|].
  assert (total (get_object j id ≫= decode_run)) as Ht by halts. by destruct (get_object j id ≫= decode_run).
Qed.
#[local] Hint Resolve view_run : halts.
Lemma view_on_tree {A} e (m : ST MetadataTree.editor A) : halts m → halts (on_tree e m).
Proof. intros Hm v. unfold on_tree. specialize (Hm e). by destruct (m e). Qed.
#[local] Hint Resolve view_on_tree : halts.
Lemma view_lookup_runs ids key : halts (lookup_runs j ids key).
Proof. induction ids as [|id ids IH]; simpl; halts. Qed.
#[local] Hint Resolve view_lookup_runs : halts.
Lemma view_lookup key : halts (lookup j key).
Proof. unfold lookup. halts. Qed.
#[local] Hint Resolve view_lookup : halts.
Lemma view_contains key : halts (contains j key).
Proof. unfold contains. halts. Qed.
Lemma view_get key : halts (get j key).
Proof. unfold get. halts. Qed.
Lemma view_select_runs ids p s : halts (select_runs j ids p s).
Proof. revert s. induction ids as [|id ids IH]; intros s; simpl; halts. Qed.
#[local] Hint Resolve view_select_runs : halts.
Lemma view_keys p : halts (keys j p).
Proof. unfold keys. halts. Qed.
Lemma view_page p a lim : halts (page j p a lim).
Proof. unfold page. halts. Qed.
Lemma view_flat ks acc : total (flat_references j ks acc).
Proof. revert acc. induction ks as [|k ks IH]; intros acc; simpl; halts. Qed.
Lemma view_apply_runs ids acc : halts (apply_runs j ids acc).
Proof. revert acc. induction ids as [|id ids IH]; intros acc; simpl; halts. Qed.
#[local] Hint Resolve view_flat view_apply_runs : halts.
Lemma view_references : halts (references j).
Proof. unfold references. halts. Qed.
Lemma view_manifest_runs b n i u : total (manifest_runs b n i u).
Proof. revert i u. induction n as [|n IH]; intros i u; simpl; halts. Qed.
#[local] Hint Resolve view_references view_manifest_runs : halts.
Lemma view_load id b : halts (load j id b).
Proof. unfold load. halts. Qed.
Lemma view_constructed out : total out.2 → total (constructed out).
Proof. by destruct out as [v []]. Qed.
Lemma view_of_manifest id : total (of_manifest j id).
Proof. apply view_constructed, view_load. Qed.
Lemma view_valid_name n : total (valid_name n).
Proof. apply total_need. Qed.
#[local] Hint Resolve view_valid_name view_constructed view_load : halts.
Lemma view_open n r b : total (open j n r b).
Proof. unfold open. halts. apply view_constructed, view_load. Qed.

Lemma view_run_size l n : total (run_size l n).
Proof. revert n. induction l as [|[k v] l IH]; intros n; simpl; halts. Qed.
#[local] Hint Resolve view_run_size : halts.
Lemma view_encode_run ch : total (encode_run ch).
Proof. unfold encode_run. halts. Qed.
Lemma view_encode_manifest l : total (encode_manifest l).
Proof. unfold encode_manifest. halts. Qed.
#[local] Hint Resolve view_encode_run view_encode_manifest : halts.
Lemma view_flush p : total (flush p).
Proof. unfold flush. halts. Qed.
#[local] Hint Resolve view_flush : halts.
Lemma view_pack l p : total (pack l p).
Proof. revert p. induction l as [|[k v] l IH]; intros p; simpl; halts. Qed.
#[local] Hint Resolve view_pack : halts.
Lemma view_pack_map m : total (pack_map m).
Proof. unfold pack_map. halts. Qed.
#[local] Hint Resolve view_pack_map : halts.
Lemma view_compact_frozen f : total (compact_frozen f).
Proof.
  unfold compact_frozen. apply total_bind; [|intros; halts]. cbn zeta.
  assert (total (Ok (flat f))) as Ht by done. revert Ht. generalize (Ok (flat f)).
  induction (rev (frozen_runs f)) as [|b l IH]; intros acc Hacc; simpl; [done|]. apply IH. halts.
Qed.
Lemma view_plan ch b : halts (plan j ch b).
Proof. unfold plan. halts. Qed.
Lemma view_load_objects l : total (load_objects j l).
Proof. induction l as [|id l IH]; simpl; halts. Qed.
#[local] Hint Resolve view_load_objects : halts.
Lemma view_freeze : halts (freeze j).
Proof. unfold freeze. halts. Qed.
End View.

#[export] Hint Resolve view_contains view_get view_keys view_page view_references view_of_manifest view_open
  view_valid_name view_compact_frozen view_plan view_freeze : halts.
