(* ===== verification/HaltsOps.v ===== *)
(** * The operations of the daemon return

    The walk of a path consumes the caller's names and the bytes of the symbolic links it
    expands, whose number is limited; a compaction job stages every output once; the retry loop
    of an update goes round only when another thread has acted or, once, after an offline
    compaction. *)

From S2P Require Import Prelude Codec Journal MetadataTree Store MetadataView Container Compaction Maintenance Nodes Namespace Worlds Files Handles Moves Halts HaltsView.
Import Container Nodes Namespace.
Local Open Scope Z_scope.

(** ** Symbolic links *)

Lemma split_length sep (s : Bytes) :
  (length (concat (split sep s)) + length (filter (λ c, c = sep) s) = length s)%nat.
Proof.
  induction s as [|c s IH]; [done|]. simpl. destruct (decide (c = sep)) as [->|Hne].
  - rewrite bool_decide_eq_true_2, filter_cons_True by done. simpl. lia.
  - rewrite bool_decide_eq_false_2, filter_cons_False by done. destruct (split sep s); simpl in *; lia.
Qed.

Lemma target_pieces_length l names : target_pieces l = Ok names → (length names ≤ length (concat l))%nat.
Proof.
  revert names. induction l as [|p l IH]; intros names; simpl; [by intros <-%Ok_inj|].
  destruct (bool_decide (p = [])) eqn:Hp.
  - intros Hn%IH. rewrite length_app. lia.
  - intros [_ Hn]%need_bind_Ok. apply bind_Ok in Hn as (ns & Hns%IH & <-%Ok_inj).
    rewrite length_app. simpl. destruct p; [done|simpl; lia].
Qed.

(** A target has no more components than bytes. *)
Lemma target_components_length t names : target_components t = Ok names → (length names ≤ length t)%nat.
Proof.
  unfold target_components. intros [_ H1]%need_bind_Ok. apply need_bind_Ok in H1 as [_ H1].
  apply bind_Ok in H1 as (ns & Hns%target_pieces_length & <-%Ok_inj).
  unfold pieces in Hns. pose proof (split_length slash t) as Hs.
  destruct (bool_decide (last t = Some slash)) eqn:Hl; simpl; [|lia].
  destruct (bool_decide (ns ≠ [])); [|lia]. rewrite length_app. simpl.
  assert (slash ∈ filter (λ c, c = slash) t) as Hin.
  { apply list_elem_of_filter. split; [done|]. apply bool_decide_eq_true in Hl.
    by apply last_Some_elem_of in Hl. }
  destruct (filter (λ c, c = slash) t); [set_solver|simpl in Hs; lia].
Qed.

Section Nodes.
Context `{Digest} {J : Type} `{JournalReturns J} (j : J).

Lemma nodes_decode_id b : total (decode_id b).
Proof. unfold decode_id. halts. Qed.
Lemma nodes_decode_inode b id o : total (decode_inode b id o).
Proof. unfold decode_inode. halts. Qed.
Lemma nodes_target_pieces l : total (target_pieces l).
Proof. induction l as [|p l IH]; simpl; halts. Qed.
#[local] Hint Resolve nodes_decode_id nodes_decode_inode nodes_target_pieces : halts.
Lemma nodes_target_components t : total (target_components t).
Proof. unfold target_components. halts. Qed.
Lemma nodes_check_pieces l : total (check_pieces l).
Proof. induction l as [|p l IH]; simpl; halts. Qed.
#[local] Hint Resolve nodes_target_components nodes_check_pieces : halts.
Lemma nodes_components p : total (components p).
Proof. unfold components. halts. Qed.
Lemma nodes_root : halts (root j).
Proof. unfold root. halts. Qed.
Lemma nodes_inode id : halts (Nodes.inode j id).
Proof. unfold Nodes.inode. halts. Qed.
#[local] Hint Resolve nodes_components nodes_root nodes_inode : halts.

(** Every name taken is one of the caller's or comes from the bytes of an expanded link. *)
Lemma walk_loop_returns k rid ff mi stack pending id follows expanded v : 0 ≤ expanded ≤ 65536 →
  (length pending + Z.to_nat (65536 - expanded) ≤ k)%nat →
  total (walk_loop j k rid ff mi stack pending id follows expanded v).2.
Proof.
  revert stack pending id follows expanded v.
  induction k as [|k IH]; intros stack pending id follows expanded v He Hk; destruct pending as [|name pending]; try done;
    simpl in Hk; [lia|]. cbn [walk_loop]. apply halts_at; [halts|]. intros n v1 _. apply halts_at; [halts|]. intros _ v2 _.
  destruct (bool_decide (name = bs ".")); [apply IH; lia|].
  destruct (bool_decide (name = bs "..")); [apply IH; lia|]. cbn zeta.
  apply halts_at; [halts|]. intros c v3 _. destruct (negb c); [halts|].
  apply halts_at; [halts|]. intros b v4 _. apply halts_at; [halts|]. intros child v5 _.
  apply halts_at; [halts|]. intros n' v6 _. destruct (_ && _); [|apply IH; lia].
  apply halts_at; [halts|]. intros _ v7 _. apply halts_at; [halts|]. intros target v8 _.
  apply halts_at; [halts|]. intros _ v9 _. apply halts_at; [halts|]. intros parts v10 Hp.
  injection Hp as <- Hp. apply target_components_length in Hp.
  apply halts_at; [halts|]. intros [] v11 Hn. injection Hn as <- Hn. apply need_Ok, Z.leb_le in Hn.
  pose proof (len_nonneg target). apply IH; [lia|]. rewrite length_app. unfold len in *. lia.
Qed.

Lemma nodes_walk names ff mi : halts (walk j names ff mi).
Proof.
  intros v. unfold walk. apply halts_at; [halts|]. intros rid v1 _. apply walk_loop_returns; [lia|].
  unfold walk_fuel. lia.
Qed.
#[local] Hint Resolve nodes_walk : halts.
Lemma nodes_parent path : halts (Nodes.parent j path).
Proof. unfold Nodes.parent. halts. Qed.
Lemma nodes_resolve path f m : halts (Nodes.resolve j path f m).
Proof. unfold Nodes.resolve. halts. Qed.
Lemma nodes_revision_manifest name : total (revision_manifest j name).
Proof. unfold revision_manifest. halts. Qed.
End Nodes.

#[export] Hint Resolve nodes_decode_id nodes_decode_inode nodes_target_components nodes_components nodes_root
  nodes_inode nodes_parent nodes_resolve nodes_revision_manifest : halts.

Section Operations.
Context `{Digest} {J : Type} `{JournalReturns J}.
Implicit Types (n : ns) (s : sys J).
Abbreviation halts_w m := (halts (S := work J) m).

(** ** Under the lock *)

Lemma halts_on_view {A} (m : J → ST NamespaceView.view A) : (∀ j, halts (m j)) → halts (on_view m).
Proof. intros Hm w. unfold on_view. pose proof (Hm (journal_ (cont (w_sys w))) (w_view w)). by destruct (m _ _). Qed.
Lemma halts_on_sys {A} (m : ST (sys J) A) : halts m → halts (on_sys m).
Proof. intros Hm w. unfold on_sys. specialize (Hm (w_sys w)). by destruct (m _). Qed.
Lemma halts_with_view {A} v (m : ST (work J) A) : halts m → halts (with_view v m).
Proof. intros Hm s. unfold with_view. specialize (Hm (mkWork s v)). by destruct (m _). Qed.
Lemma halts_reading {A} (f : J → result A) : (∀ j, total (f j)) → halts (reading f).
Proof. intros Hf s. apply Hf. Qed.
Lemma halts_acquire : halts (acquire (J := J)).
Proof. intros s. done. Qed.
Lemma halts_locked {A} (m : ST (container J) A) : halts m → halts (locked m).
Proof. intros Hm s. unfold locked. specialize (Hm (cont s)). by destruct (m _). Qed.
Lemma halts_on_journal {A} (m : ST J A) : halts m → halts (on_journal m).
Proof. intros Hm c. unfold on_journal. specialize (Hm (journal_ c)). by destruct (m _). Qed.
Lemma halts_now : halts (now (J := J)).
Proof. intros s. done. Qed.
Lemma halts_random msg : halts (random_hex (J := J) msg).
Proof. intros s. unfold random_hex. by destruct (entropy s). Qed.
#[local] Hint Resolve halts_acquire halts_now halts_random : halts.
#[local] Hint Extern 3 (halts (on_view _)) => (apply halts_on_view; intros ?) : halts.
#[local] Hint Extern 3 (halts (reading _)) => (apply halts_reading; intros ?) : halts.
#[local] Hint Resolve halts_on_sys halts_with_view halts_locked halts_on_journal : halts.

Lemma ops_commit batch : halts (Compaction.commit (J := J) batch).
Proof. unfold Compaction.commit. apply halts_locked. halts. Qed.
#[local] Hint Resolve ops_commit : halts.
Lemma ops_open_view n : halts (open_view (J := J) n).
Proof. unfold open_view. halts. Qed.
#[local] Hint Resolve ops_open_view : halts.

Lemma ops_new_id_attempt k : halts_w (new_id_attempt k).
Proof. induction k as [|k IH]; simpl; halts. Qed.
Lemma ops_new_id : halts_w new_id.
Proof. apply ops_new_id_attempt. Qed.
Lemma ops_touch i : halts_w (touch i).
Proof. unfold touch. halts. Qed.
Lemma ops_created id d m l z y : halts_w (created id d m l z y).
Proof. unfold created. halts. Qed.
Lemma ops_inode id : halts_w (inode id).
Proof. unfold inode. halts. Qed.
Lemma ops_parent path : halts_w (parent path).
Proof. unfold parent. halts. Qed.
Lemma ops_resolve path f : halts_w (resolve path f).
Proof. unfold resolve. halts. Qed.
Lemma ops_contains key : halts_w (contains key).
Proof. unfold contains. halts. Qed.
Lemma ops_get key : halts_w (get key).
Proof. unfold get. halts. Qed.
#[local] Hint Resolve ops_new_id ops_touch ops_created ops_inode ops_parent ops_resolve ops_contains ops_get : halts.
Lemma ops_reference key : halts_w (reference key).
Proof. unfold reference. halts. Qed.
Lemma ops_id_bytes id : total (id_bytes id).
Proof. unfold id_bytes. halts. Qed.
#[local] Hint Resolve ops_reference ops_id_bytes : halts.

Lemma ops_split_changes (j : J) l b d o : total (split_changes j l b d o).
Proof. revert b d o. induction l as [|[k v] l IH]; intros b d o; simpl; halts. Qed.
Lemma ops_plan_objects (j : J) l o : total (plan_objects j l o).
Proof. revert o. induction l as [|b l IH]; intros o; simpl; halts. Qed.
#[local] Hint Resolve ops_split_changes ops_plan_objects : halts.
Lemma ops_changes_batch n ch : halts_w (changes_batch n ch).
Proof. unfold changes_batch. halts. Qed.
#[local] Hint Resolve ops_changes_batch : halts.
Lemma ops_commit_changes n ch : halts_w (commit_changes n ch).
Proof. unfold commit_changes. halts. Qed.
#[local] Hint Resolve ops_commit_changes : halts.

(** ** Compaction *)

Lemma ops_current_head (j : J) w : total (Compaction.current_head j w).
Proof. unfold Compaction.current_head. halts. Qed.
#[local] Hint Resolve ops_current_head : halts.
Lemma ops_prepare t : halts (Compaction.prepare (J := J) t).
Proof.
  unfold Compaction.prepare, Compaction.prepare_from. halts.
Qed.
Lemma ops_build t : total (Compaction.build t).
Proof. unfold Compaction.build. halts. Qed.
Lemma ops_matches (j : J) t : total (Compaction.matches_head_locked j t).
Proof. unfold Compaction.matches_head_locked. halts. Qed.
Lemma ops_stage_batch (j : J) l c b batch : total (Compaction.stage_batch j l c b batch).
Proof. revert c b batch. induction l as [|[[k p] id] l IH]; intros c b batch; simpl; halts. Qed.
Lemma ops_missing_objects (j : J) l : total (Compaction.missing_objects j l).
Proof. induction l as [|[[k p] id] l IH]; simpl; halts. Qed.
Lemma ops_check_staged (j : J) l : total (Compaction.check_staged j l).
Proof. induction l as [|[[k p] id] l IH]; simpl; halts. Qed.
#[local] Hint Resolve ops_prepare ops_build ops_matches ops_stage_batch ops_missing_objects ops_check_staged : halts.
Lemma ops_stage_next t : halts (Compaction.stage_next (J := J) t).
Proof. unfold Compaction.stage_next. halts. Qed.
Lemma ops_publish t : halts (Compaction.publish (J := J) t).
Proof. unfold Compaction.publish. halts. Qed.
#[local] Hint Resolve ops_stage_next ops_publish : halts.

(** A batch that is not empty has moved the cursor. *)
Lemma stage_batch_cursor (j : J) l c b batch c' batch' : Compaction.stage_batch j l c b batch = Ok (c', batch') →
  (c ≤ c' ≤ c + length l)%nat ∧ (batch = [] → batch' ≠ [] → (c < c')%nat).
Proof.
  revert c b batch. induction l as [|[[k p] id] l IH]; intros c b batch; simpl.
  { intros [= <- <-]%Ok_inj. split; [lia|done]. }
  intros [_ G1]%need_bind_Ok. apply bind_Ok in G1 as (there & _ & G1). destruct there.
  - apply bind_Ok in G1 as (r & _ & G1). apply need_bind_Ok in G1 as [_ G1]. apply bind_Ok in G1 as (v & _ & G1).
    apply need_bind_Ok in G1 as [_ G1]. apply IH in G1 as [Hc Hb]. split; [lia|]. intros. lia.
  - destruct (bool_decide (batch ≠ [])) eqn:Hb; simpl in G1; [destruct (_ || _)|].
    + apply Ok_inj in G1. injection G1 as <- <-. apply bool_decide_eq_true in Hb. split; [lia|done].
    + apply IH in G1 as [Hc _]. split; [lia|]. intros. lia.
    + apply IH in G1 as [Hc _]. split; [lia|]. intros. lia.
Qed.

Lemma stage_next_cursor t s s' t' : Compaction.stage_next t s = (s', Ok (t', Compaction.Staged)) →
  Compaction.output_ t' = Compaction.output_ t ∧
  (Compaction.stage_cursor_ t < Compaction.stage_cursor_ t' ≤ length (Compaction.output_ t))%nat.
Proof.
  unfold Compaction.stage_next. intros ([] & s1 & _ & G1)%st_bind_Ok. apply st_bind_Ok in G1 as ([] & s2 & _ & G1).
  apply st_bind_Ok in G1 as (j & s3 & _ & G1). apply st_bind_Ok in G1 as (same & s4 & _ & G1).
  destruct (negb same); [done|]. apply st_bind_Ok in G1 as ([c b] & s5 & Hs & G1). injection Hs as <- Hs.
  apply stage_batch_cursor in Hs as [Hc Hb]. destruct (bool_decide (b ≠ [])) eqn:Hne; [|done].
  apply st_bind_Ok in G1 as ([] & s6 & _ & G1). apply st_bind_Ok in G1 as (j' & s7 & _ & G1). injection G1 as _ <-.
  simpl in *. split; [done|]. apply bool_decide_eq_true in Hne. specialize (Hb eq_refl Hne).
  rewrite length_drop, length_zip_with in Hc. lia.
Qed.

Lemma stage_all_returns k t s : (length (Compaction.output_ t) < k + Compaction.stage_cursor_ t)%nat →
  (0 < k)%nat → total (Compaction.stage_all (J := J) k t s).2.
Proof.
  revert t s. induction k as [|k IH]; intros t s Hk Hpos; [lia|]. cbn [Compaction.stage_all].
  apply halts_at; [halts|]. intros [t' r] s' Hn. destruct r; [|done..].
  apply stage_next_cursor in Hn as [Ho Hc]. apply IH; [rewrite Ho|]; lia.
Qed.
Lemma ops_stage_all t : halts (Compaction.stage_all (J := J) (S (length (Compaction.output_ t))) t).
Proof. intros s. apply stage_all_returns; lia. Qed.
#[local] Hint Resolve ops_stage_all : halts.
Lemma ops_install t : halts (Compaction.install (J := J) t).
Proof. unfold Compaction.install. halts. Qed.
#[local] Hint Resolve ops_install : halts.
Lemma ops_compact_retry k w : halts (compact_retry (J := J) k w).
Proof. induction k as [|k IH]; simpl; halts. Qed.
#[local] Hint Resolve ops_compact_retry : halts.
Lemma ops_compact n : halts (compact (J := J) n).
Proof. unfold compact. halts. Qed.
Lemma ops_backpressure n : halts (backpressure (J := J) n).
Proof. unfold backpressure. halts. Qed.
#[local] Hint Resolve ops_compact ops_backpressure : halts.
End Operations.

#[export] Hint Extern 3 (halts (on_view _)) => (apply halts_on_view; intros ?) : halts.
#[export] Hint Extern 3 (halts (reading _)) => (apply halts_reading; intros ?) : halts.
#[export] Hint Resolve halts_acquire halts_now halts_random halts_on_sys halts_with_view halts_locked halts_on_journal
  ops_commit ops_open_view ops_new_id ops_touch ops_created ops_inode ops_parent ops_resolve ops_contains ops_get
  ops_reference ops_id_bytes ops_commit_changes ops_prepare ops_build ops_install ops_compact ops_backpressure : halts.
