(* ===== verification/NamespaceMoves.v ===== *)
(** * The operations on paths leave the handle tables alone

    Every operation of the namespace except the handle operations, and every pass of the
    background worker, moves the state by any [Loose] relation: the parts under the
    lock are [same], and what happens while the lock is released is the other threads' doing. *)

From S2P Require Import Prelude Codec Journal MetadataTree Store MetadataView Container Compaction Maintenance Nodes Namespace Worlds Files Traverse Moves.
Import Container Nodes Namespace.
Local Open Scope Z_scope.

Section Moves.
Context `{Digest} {J : Type} `{JournalLike J} {R : sys J → sys J → Prop} `{!Loose R}.
Implicit Types (s : sys J) (c : container J) (n : ns).
Abbreviation quiet m := (moves (on_work (same (J := J))) m).

(** ** Parts of operations *)

Lemma quiet_new_id_attempt k : quiet (new_id_attempt k).
Proof. induction k as [|k IH]; simpl; moves. Qed.
Lemma quiet_new_id : quiet new_id.
Proof. apply quiet_new_id_attempt. Qed.
Lemma quiet_touch i : quiet (touch i).
Proof. unfold touch. moves. Qed.
Lemma quiet_created id d m l z y : quiet (created id d m l z y).
Proof. unfold created. moves. Qed.
Lemma quiet_inode id : quiet (inode id).
Proof. unfold inode. moves. Qed.
Lemma quiet_parent path : quiet (parent path).
Proof. unfold parent. moves. Qed.
Lemma quiet_resolve path f : quiet (resolve path f).
Proof. unfold resolve. moves. Qed.
Lemma quiet_contains key : quiet (contains key).
Proof. unfold contains. moves. Qed.
Lemma quiet_get key : quiet (get key).
Proof. unfold get. moves. Qed.
#[local] Hint Resolve quiet_new_id quiet_touch quiet_created quiet_inode quiet_parent quiet_resolve
  quiet_contains quiet_get : moves.
Lemma quiet_reference key : quiet (reference key).
Proof. unfold reference. moves. Qed.
Lemma quiet_changes_batch n ch : quiet (changes_batch n ch).
Proof. unfold changes_batch. moves. Qed.
#[local] Hint Resolve quiet_reference quiet_changes_batch : moves.
Lemma quiet_commit_changes n ch : quiet (commit_changes n ch).
Proof. unfold commit_changes. moves. Qed.
#[local] Hint Resolve quiet_commit_changes : moves.

(** ** Compaction and the update loop *)

Lemma kept_prepare t : moves R (Compaction.prepare (J := J) t).
Proof. unfold Compaction.prepare. moves. Qed.
Lemma kept_stage_next t : moves R (Compaction.stage_next (J := J) t).
Proof. unfold Compaction.stage_next. moves. Qed.
#[local] Hint Resolve kept_prepare kept_stage_next : moves.
Lemma kept_stage_all k t : moves R (Compaction.stage_all (J := J) k t).
Proof. revert t. induction k as [|k IH]; intros t; simpl; moves. Qed.
Lemma kept_publish t : moves R (Compaction.publish (J := J) t).
Proof. unfold Compaction.publish. moves. Qed.
#[local] Hint Resolve kept_stage_all kept_publish : moves.
Lemma kept_install t : moves R (Compaction.install (J := J) t).
Proof. unfold Compaction.install. moves. Qed.
#[local] Hint Resolve kept_install : moves.

Lemma table_schedule world c : table_of (Maintenance.schedule_compaction_locked world c) = table_of c.
Proof. unfold Maintenance.schedule_compaction_locked. by destruct (_ && _). Qed.
Lemma table_schedule_all ws c :
  table_of (foldl (λ c w, Maintenance.schedule_compaction_locked w c) c ws) = table_of c.
Proof. revert c. induction ws as [|w ws IH]; intros c; simpl; [done|]. by rewrite IH, table_schedule. Qed.
Lemma table_conclude world i e c : table_of (Maintenance.conclude world i e c) = table_of c.
Proof.
  unfold Maintenance.conclude. destruct (bool_decide _); [done|]. destruct i; [done|]. by rewrite table_schedule.
Qed.

Lemma same_modify (f : container J → container J) : (∀ c, table_of (f c) = table_of c) → moves same (locked (modify f)).
Proof. intros Hf. by apply moves_locked, moves_modify. Qed.
Lemma same_schedule world : moves same (locked (modify (Maintenance.schedule_compaction_locked (J := J) world))).
Proof. apply same_modify, table_schedule. Qed.
Lemma same_compact : moves same (locked (on_journal (j_compact (J := J)))).
Proof. apply moves_locked, moves_on_journal. Qed.
#[local] Hint Resolve same_schedule same_compact : moves.

Lemma kept_compact_retry k world : moves R (compact_retry (J := J) k world).
Proof. induction k as [|k IH]; simpl; moves. Qed.
#[local] Hint Resolve kept_compact_retry : moves.
Lemma kept_compact n : moves R (compact (J := J) n).
Proof. unfold compact. moves. Qed.
Lemma kept_backpressure n : moves R (backpressure (J := J) n).
Proof. unfold backpressure. moves. Qed.
#[local] Hint Resolve kept_compact kept_backpressure : moves.

Lemma quiet_attempt {A} n (op : ST (work J) (Changes * A)) (b : bool) : quiet op → quiet (attempt_update n op b).
Proof. intros Hop. unfold attempt_update. moves. Qed.
Lemma kept_schedule_due n : moves R (schedule_due (J := J) n).
Proof. unfold schedule_due. moves. Qed.
#[local] Hint Resolve quiet_attempt kept_schedule_due : moves.

Lemma kept_view {A} v (m : ST (work J) A) : quiet m → moves R (with_view v m).
Proof. intros Hm. by apply moves_loose, moves_with_view. Qed.
#[local] Hint Resolve kept_view : moves.
Lemma kept_update_loop {A} (k : nat) n (op : ST (work J) (Changes * A)) (b : bool) : quiet op →
  moves R (update_loop k n op b).
Proof. intros Hop. revert b. induction k as [|k IH]; intros b; simpl; moves. Qed.
#[local] Hint Resolve kept_update_loop : moves.
Lemma kept_update {A} n (op : ST (work J) (Changes * A)) : quiet op → moves R (update n op).
Proof. intros Hop. unfold update. moves. Qed.
Lemma kept_update_ n (op : ST (work J) Changes) : quiet op → moves R (update_ n op).
Proof. intros Hop. apply kept_update. moves. Qed.
Lemma kept_read_only {A} n (m : ST (work J) A) : quiet m → moves R (read_only n m).
Proof. intros Hm. unfold read_only. moves. Qed.
#[local] Hint Resolve kept_update kept_update_ kept_read_only : moves.

(** ** Operations on paths *)

Lemma kept_mkdir n path m : moves R (Files.mkdir (J := J) n path m).
Proof. unfold Files.mkdir. moves. apply kept_update_. moves. Qed.
Lemma kept_write n path v : moves R (Files.write (J := J) n path v).
Proof. unfold Files.write. moves. apply kept_update_. unfold Files.write_changes, Files.write_target. moves. Qed.
Lemma quiet_retire n ch i : quiet (Files.retire n ch i).
Proof. unfold Files.retire. moves. Qed.
#[local] Hint Resolve quiet_retire : moves.
Lemma quiet_drop_link n ch i : quiet (Files.drop_link n ch i).
Proof. unfold Files.drop_link. moves. Qed.
#[local] Hint Resolve quiet_drop_link : moves.
Lemma kept_replace_file n path v : moves R (Files.replace_file (J := J) n path v).
Proof. unfold Files.replace_file. moves. apply kept_update_. moves. Qed.
Lemma kept_read n path : moves R (Files.read (J := J) n path).
Proof. apply kept_read_only. moves. Qed.
Lemma kept_edit_content {A} n path (e : Bytes → result (option Bytes * A)) :
  moves R (Files.edit_content (J := J) n path e).
Proof. apply kept_update. unfold Files.edit_changes. moves. Qed.
#[local] Hint Resolve kept_edit_content : moves.
Lemma kept_write_at n path o v : moves R (Files.write_at (J := J) n path o v).
Proof. unfold Files.write_at. moves. Qed.
Lemma kept_append n path v : moves R (Files.append (J := J) n path v).
Proof. unfold Files.append. moves. Qed.
Lemma kept_truncate n path z : moves R (Files.truncate (J := J) n path z).
Proof. unfold Files.truncate. moves. Qed.
Lemma quiet_apply_attributes i a : quiet (Files.apply_attributes i a).
Proof. unfold Files.apply_attributes. moves. Qed.
#[local] Hint Resolve quiet_apply_attributes : moves.
Lemma kept_set_attributes n path a : moves R (Files.set_attributes (J := J) n path a).
Proof. unfold Files.set_attributes. moves. apply kept_update_. moves. Qed.
Lemma kept_symlink n t path : moves R (Files.symlink (J := J) n t path).
Proof. unfold Files.symlink. moves. apply kept_update_. moves. Qed.
Lemma kept_link n a b : moves R (Files.link (J := J) n a b).
Proof. apply kept_update_. moves. Qed.
Lemma kept_remove n path d : moves R (Files.remove (J := J) n path d).
Proof. apply kept_update_. moves. Qed.
Lemma quiet_touch_all l ch : quiet (Files.touch_all l ch).
Proof. revert ch. induction l as [|[id i] l IH]; intros ch; simpl; moves. Qed.
#[local] Hint Resolve quiet_touch_all : moves.
Lemma quiet_displace n id i d p : quiet (Files.displace n id i d p).
Proof. unfold Files.displace. moves. Qed.
#[local] Hint Resolve quiet_displace : moves.
Lemma kept_rename n a b : moves R (Files.rename (J := J) n a b).
Proof. apply kept_update_. moves. Qed.

(** ** Worlds, revisions and the worker *)

Lemma quiet_snapshot_manifest n : quiet (Worlds.snapshot_manifest n).
Proof. unfold Worlds.snapshot_manifest. moves. Qed.
#[local] Hint Resolve quiet_snapshot_manifest : moves.
Lemma kept_snapshot n name : moves R (Worlds.snapshot (J := J) n name).
Proof. unfold Worlds.snapshot. moves. Qed.
Lemma kept_fork n r world : moves R (Worlds.fork (J := J) n r world).
Proof. unfold Worlds.fork. moves. Qed.
Lemma kept_initialize n : moves R (Worlds.initialize (J := J) n).
Proof. unfold Worlds.initialize. moves. apply kept_update_. moves. Qed.

Lemma kept_job world : moves R (Maintenance.job (J := J) world).
Proof. unfold Maintenance.job. moves. Qed.
#[local] Hint Resolve kept_job : moves.
Lemma kept_iteration : moves R (Maintenance.iteration (J := J)).
Proof.
  unfold Maintenance.iteration. moves; try (apply moves_loose, same_modify; intros; first [apply table_conclude|done]).
Qed.
End Moves.

#[export] Hint Resolve quiet_new_id quiet_touch quiet_created quiet_inode quiet_parent quiet_resolve
  quiet_contains quiet_get quiet_reference quiet_commit_changes quiet_apply_attributes quiet_retire quiet_drop_link
  quiet_touch_all quiet_displace kept_view : moves.
#[export] Hint Resolve kept_mkdir kept_write kept_replace_file kept_read kept_write_at kept_append kept_truncate
  kept_set_attributes kept_symlink kept_link kept_remove kept_rename kept_snapshot kept_fork kept_initialize
  kept_compact kept_iteration : moves.
