(* ===== verification/Commits.v ===== *)
(** * What a commit writes

    [Namespace::commit_changes] turns a set of changes into one batch of the journal: the orphan
    records as they are, the objects that the store does not have yet under their registry
    names, the allocation marks, and the new manifest as the head of the world.  This file says
    which names and objects such a batch binds and what the store holds after it. *)

From S2P Require Import Prelude Codec Journal JournalTransact JournalStore LevelStoreTransact MetadataTree Store.
From S2P Require Import MetadataView MetadataViewPlan Container Compaction Nodes Namespace Moves Garbage.
Import Namespace.
Local Open Scope Z_scope.

(** ** Hexadecimal names *)

Definition unhex_digit (c : Byte.byte) : Z := if b2z c <? 58 then b2z c - 48 else b2z c - 87.
Fixpoint unhex (b : Bytes) : Bytes :=
  match b with
  | h :: l :: rest => z2b (16 * unhex_digit h + unhex_digit l) :: unhex rest
  | _ => []
  end.

Lemma unhex_byte c :
  z2b (16 * unhex_digit (hex_digit (Z.shiftr (b2z c) 4)) + unhex_digit (hex_digit (Z.land (b2z c) 15))) = c.
Proof. destruct c; vm_compute; reflexivity. Qed.

Lemma unhex_hex b : unhex (hex_id b) = b.
Proof.
  induction b as [|c b IH]; [done|].
  change (hex_id (c :: b)) with (hex_digit (Z.shiftr (b2z c) 4) :: hex_digit (Z.land (b2z c) 15) :: hex_id b).
  cbn [unhex]. by rewrite IH, unhex_byte.
Qed.

Lemma object_key_inj a b : Compaction.object_key a = Compaction.object_key b → a = b.
Proof.
  unfold Compaction.object_key. intros E%app_inv_head%app_inv_head. by rewrite <- (unhex_hex a), <- (unhex_hex b), E.
Qed.

Lemma object_key_registered id : registered (Compaction.object_key id).
Proof. apply starts_with_spec. exists (hex_id id). unfold Compaction.object_key, registry_prefix. by rewrite app_assoc. Qed.

(** ** The store after a batch *)

Definition written (ms : list Journal.Mutation) : list Bytes := omap Journal.m_value ms.
Definition payloads (s : kv) : list Bytes := (map_to_list (kv_objects s)).*2.

Section Batches.
Context `{DigestOk}.

(** No two of the payloads collide under the hash. *)
Definition distinct_hashes (l : list Bytes) : Prop :=
  ∀ b b', b ∈ l → b' ∈ l → object_hash b = object_hash b' → b = b'.
(** Registry names are bound to the object they name. *)
Definition registry_ok (s : kv) : Prop := ∀ id i, kv_roots s !! Compaction.object_key id = Some i → i = id.
Definition plain (m : Journal.Mutation) : Prop := Journal.m_reference m = None.

Lemma batch_roots ms s k :
  kv_roots (kv_batch ms s) !! k = match targets ms !! k with Some v => v | None => kv_roots s !! k end.
Proof.
  unfold kv_batch, kv_commit, rebind. cbn [kv_roots]. rewrite lookup_merge. unfold diag_None.
  by destruct (targets ms !! k), (kv_roots s !! k).
Qed.

Lemma batch_values_written ms id v : batch_values ms !! id = Some v → v ∈ written ms ∧ object_hash v = id.
Proof.
  induction ms as [|m ms IH] using rev_ind; [intros Hv; exact (False_ind _ (lookup_empty_Some _ _ Hv))|].
  rewrite batch_values_snoc. unfold written. rewrite omap_app, elem_of_app. unfold store_value, Journal.emplace.
  destruct (Journal.m_reference m) as [i|]; [naive_solver|].
  destruct (Journal.m_value m) as [w|] eqn:Em; [|naive_solver].
  destruct (batch_values ms !! object_hash w) as [p|] eqn:E; [naive_solver|].
  destruct (decide (object_hash w = id)) as [<-|Hne].
  - rewrite lookup_insert_eq. intros [= <-]. split; [right|done]. cbn. rewrite Em. left.
  - rewrite lookup_insert_ne by done. naive_solver.
Qed.

Lemma batch_object ms s b :
  distinct_hashes (written ms) → Forall plain ms → b ∈ written ms →
  kv_objects (kv_batch ms s) !! object_hash b = Some b.
Proof.
  intros Hd Hp Hb. assert (is_Some (batch_values ms !! object_hash b)) as [v Hv].
  { apply batch_values_dom. apply list_elem_of_omap in Hb as (m & Hm & Ev). exists m. split; [done|]. split; [|eauto].
    rewrite Forall_forall in Hp. by apply Hp. }
  destruct (batch_values_written ms _ _ Hv) as [Hw Hh]. rewrite (Hd v b Hw Hb Hh) in Hv.
  unfold kv_batch, kv_commit. cbn [kv_objects]. by apply lookup_union_Some_l.
Qed.

Lemma elem_payloads s id v : kv_objects s !! id = Some v → v ∈ payloads s.
Proof. intros Hv. apply list_elem_of_fmap. exists (id, v). by rewrite elem_of_map_to_list. Qed.

(** Nothing stored is lost. *)
Lemma batch_keeps ms s id v :
  distinct_hashes (written ms ++ payloads s) → (∀ i b, kv_objects s !! i = Some b → object_hash b = i) →
  kv_objects s !! id = Some v → kv_objects (kv_batch ms s) !! id = Some v.
Proof.
  intros Hd Hh Hv. unfold kv_batch, kv_commit. cbn [kv_objects]. apply lookup_union_Some_raw.
  destruct (batch_values ms !! id) as [w|] eqn:Ew; [left|by right].
  destruct (batch_values_written ms _ _ Ew) as [Hw E]. f_equal. apply Hd; rewrite ?elem_of_app.
  - by left.
  - right. by eapply elem_payloads.
  - rewrite E. by rewrite (Hh id v Hv).
Qed.

(** A stored registry name gives its object. *)
Lemma registered_object s b :
  registry_ok s → (∀ i v, kv_objects s !! i = Some v → object_hash v = i) →
  (∀ k i, kv_roots s !! k = Some i → is_Some (kv_objects s !! i)) →
  is_Some (kv_roots s !! Compaction.object_key (object_hash b)) → ∃ b', kv_objects s !! object_hash b = Some b' ∧ object_hash b' = object_hash b.
Proof.
  intros Hr Hh Hs [i Hi]. rewrite (Hr _ _ Hi) in Hi. destruct (Hs _ _ Hi) as [b' Hb']. exists b'. split; [done|]. by apply Hh.
Qed.
End Batches.

(** ** The batch of a commit *)

Definition orphan_prefix : Bytes := NamespaceView.history ++ bs "orphan/".
Definition mark_prefix : Bytes := NamespaceView.history ++ bs "allocated/".
Definition orphaned (k : Bytes) : Prop := starts_with orphan_prefix k = true.

Lemma registered_not_mark k : registered k → starts_with mark_prefix k = true → False.
Proof. by apply apart_prefixes. Qed.

Section Splitting.
Context `{DigestOk} {J : Type} `{JournalLike J, !JournalLaws J} (j : J).
Abbreviation key_of b := (Compaction.object_key (object_hash b)).

(** The references that the changes make: the orphan records are not part of the map. *)
Definition hash_of (v : option Bytes) : option Id := object_hash <$> v.
Definition references_of (changes : gmap Bytes (option Bytes)) : gmap Bytes (option Id) :=
  hash_of <$> (filter (λ e : Bytes * option Bytes, ¬ orphaned e.1) changes).
Definition flat (l : list (Bytes * option Bytes)) : list Journal.Mutation :=
  (λ '(k, v), Journal.mkMutation k v None) <$> l.

(** What the batch adds: objects under names the registry lacks, and allocation marks. *)
Definition additions (o : gmap Bytes Bytes) : Prop :=
  ∀ k b, o !! k = Some b → k = key_of b ∧ j_contains j k = Ok false ∨ starts_with mark_prefix k = true ∧ b = [].
(** The payload is in the registry or among the additions. *)
Definition provided (o : gmap Bytes Bytes) (b : Bytes) : Prop :=
  j_contains j (key_of b) = Ok true ∨ ∃ b', o !! key_of b = Some b' ∧ object_hash b' = object_hash b.

Lemma emplace_sub (k b : Bytes) (o : gmap Bytes Bytes) : o ⊆ Journal.emplace k b o.
Proof. unfold Journal.emplace. destruct (o !! k) eqn:E; [done|]. by apply insert_subseteq. Qed.
Lemma emplace_cases (k b k' b' : Bytes) (o : gmap Bytes Bytes) :
  Journal.emplace k b o !! k' = Some b' → o !! k' = Some b' ∨ k' = k ∧ b' = b.
Proof.
  unfold Journal.emplace. destruct (o !! k) eqn:E; [by left|].
  destruct (decide (k = k')) as [<-|]; [rewrite lookup_insert_eq; intros [= <-]; by right|].
  rewrite lookup_insert_ne by done. by left.
Qed.

Lemma provided_mono o o' b : o ⊆ o' → provided o b → provided o' b.
Proof. intros Ho [?|(b' & Hb & ?)]; [by left|right]. exists b'. split; [|done]. by eapply lookup_weaken. Qed.

(** An addition under a registry name is a payload of that hash. *)
Lemma additions_at o b b' : additions o → o !! key_of b = Some b' → object_hash b' = object_hash b.
Proof.
  intros Ha Hb. destruct (Ha _ _ Hb) as [[E _]|[Hm _]]; [by apply object_key_inj in E|].
  destruct (registered_not_mark _ (object_key_registered (object_hash b)) Hm).
Qed.

(** Adding a payload under its name. *)
Lemma add_object b c o :
  additions o → j_contains j (key_of b) = Ok c →
  let o' := if (c : bool) then o else Journal.emplace (key_of b) b o in
  additions o' ∧ o ⊆ o' ∧ provided o' b.
Proof.
  intros Ha Hc. destruct c; [split_and!; [done|done|by left]|]. cbv zeta.
  assert (additions (Journal.emplace (key_of b) b o)) as Ha'.
  { intros k b' [Hk|[-> ->]]%emplace_cases; [by apply Ha|]. by left. }
  split_and!; [done|apply emplace_sub|]. right.
  destruct (Journal.emplace (key_of b) b o !! key_of b) as [b'|] eqn:E.
  - exists b'. split; [done|]. by eapply additions_at.
  - unfold Journal.emplace in E. destruct (o !! key_of b) eqn:Eo; [congruence|]. by rewrite lookup_insert_eq in E.
Qed.

Lemma add_mark k o : additions o → starts_with mark_prefix k = true →
  additions (Journal.emplace k [] o) ∧ o ⊆ Journal.emplace k [] o.
Proof.
  intros Ha Hk. split; [|apply emplace_sub]. intros k' b' [?|[-> ->]]%emplace_cases; [by apply Ha|by right].
Qed.

Lemma plan_objects_Ok l o o' :
  plan_objects j l o = Ok o' → additions o → additions o' ∧ o ⊆ o' ∧ ∀ b, b ∈ l → provided o' b.
Proof.
  revert o. induction l as [|b l IH]; intros o E Ha; cbn [plan_objects] in E.
  { apply Ok_inj in E as <-. split_and!; [done|done|set_solver]. }
  apply bind_Ok in E as (c & Hc & E). destruct (add_object b c o Ha Hc) as (Ha1 & Hs1 & Hp1).
  destruct (IH _ E Ha1) as (Ha' & Hs' & Hp'). split_and!; [done|by etrans|].
  intros b' [->|?]%elem_of_cons; [by eapply provided_mono|by apply Hp'].
Qed.

Lemma references_of_cons k (v : option Bytes) (l : list (Bytes * option Bytes)) :
  ¬ orphaned k → references_of (list_to_map ((k, v) :: l)) = <[k := hash_of v]> (references_of (list_to_map l)).
Proof.
  intros Hk. unfold references_of. rewrite list_to_map_cons. rewrite map_filter_insert_True by done.
  by rewrite fmap_insert.
Qed.
Lemma references_of_skip k (v : option Bytes) (l : list (Bytes * option Bytes)) :
  orphaned k → references_of (list_to_map ((k, v) :: l)) = references_of (list_to_map l).
Proof.
  intros Hk. unfold references_of. rewrite list_to_map_cons.
  rewrite map_filter_insert_not; [done|]. intros y. cbn [fst]. tauto.
Qed.
Lemma references_of_None k (l : list (Bytes * option Bytes)) :
  k ∉ l.*1 → references_of (list_to_map l) !! k = None.
Proof.
  intros Hk. unfold references_of. rewrite lookup_fmap, map_lookup_filter. 
  by rewrite not_elem_of_list_to_map_1.
Qed.

Lemma split_changes_Ok l batch delta o batch' delta' o' :
  split_changes j l batch delta o = Ok (batch', delta', o') → NoDup l.*1 → additions o →
  batch' = batch ++ flat (filter (λ e, orphaned e.1) l) ∧
  delta' = references_of (list_to_map l) ∪ delta ∧
  additions o' ∧ o ⊆ o' ∧ ∀ k b, (k, Some b) ∈ l → ¬ orphaned k → provided o' b.
Proof.
  revert batch delta o. induction l as [|[k v] l IH]; intros batch delta o E Hnd Ha; cbn [split_changes] in E.
  { injection E as <- <- <-. rewrite filter_nil. unfold flat, references_of. cbn [fmap list_fmap].
    change (list_to_map []) with (∅ : gmap Bytes (option Bytes)).
    rewrite app_nil_r, map_filter_empty, fmap_empty, (left_id_L ∅ (∪)). split_and!; try done. set_solver. }
  cbn [fmap list_fmap fst] in Hnd. apply NoDup_cons in Hnd as [Hk Hnd].
  change (starts_with (Nodes.history ++ bs "orphan/") k) with (starts_with orphan_prefix k) in E.
  destruct (decide (orphaned k)) as [Ho|Ho].
  - rewrite filter_cons_True, references_of_skip by done. unfold orphaned in Ho. rewrite Ho in E.
    destruct (IH _ _ _ E Hnd Ha) as (-> & -> & Ha' & Hs' & Hp'). rewrite <- app_assoc. split_and!; [done..|].
    intros k' b [[= -> <-]|?]%elem_of_cons Hn; [by destruct Hn|by eapply Hp'].
  - rewrite filter_cons_False, references_of_cons by done. unfold orphaned in Ho. apply not_true_is_false in Ho.
    rewrite Ho in E. rewrite <- insert_union_l. destruct v as [b|].
    + apply bind_Ok in E as (c & Hc & E). destruct (add_object b c o Ha Hc) as (Ha1 & Hs1 & Hp1).
      set (o1 := if c then o else _) in *.
      set (o2 := if starts_with _ k then _ else o1) in E.
      assert (additions o2 ∧ o1 ⊆ o2) as [Ha2 Hs2].
      { unfold o2. destruct (starts_with _ k); [|done]. apply add_mark; [done|]. apply starts_with_spec. eexists.
        unfold mark_prefix. rewrite <- app_assoc. reflexivity. }
      destruct (IH _ _ _ E Hnd Ha2) as (-> & -> & Ha' & Hs' & Hp'). split_and!; [done| |done|by do 2 etrans|].
      * rewrite insert_union_r by by apply references_of_None. done.
      * intros k' b' [[= -> ->]|?]%elem_of_cons Hn; [|by eapply Hp'].
        eapply provided_mono; [|exact Hp1]. by etrans.
    + destruct (IH _ _ _ E Hnd Ha) as (-> & -> & Ha' & Hs' & Hp'). split_and!; [done| |done|done|].
      * rewrite insert_union_r by by apply references_of_None. done.
      * intros k' b' [[=]|?]%elem_of_cons Hn. by eapply Hp'.
Qed.
End Splitting.

Section Committing.
Context `{DigestOk} {J : Type} `{JournalLike J, !JournalLaws J}.
Abbreviation journal_of w := (Container.journal_ (Container.cont (w_sys w))).
Implicit Types w : work J.

Definition puts (o : gmap Bytes Bytes) : list Journal.Mutation :=
  (λ '(k, b), Compaction.put_mutation k b) <$> in_order o.

(** A commit that replaces the head of the world. *)
Record replaces (n : ns) (changes : Changes) (w : work J) (batch : list Journal.Mutation)
    (p : NamespaceView.Plan) (o : gmap Bytes Bytes) : Prop := {
  rp_plan : NamespaceView.legacy_ (w_view w) = false →
    ∃ v', NamespaceView.plan (journal_of w) (references_of changes) false (w_view w) = (v', Ok p);
  rp_additions : additions (journal_of w) o;
  rp_values : ∀ k b, changes !! k = Some (Some b) → ¬ orphaned k → provided (journal_of w) o b;
  rp_objects : ∀ b, b ∈ NamespaceView.objects p → provided (journal_of w) o b;
  rp_batch : batch = flat (filter (λ e, orphaned e.1) (in_order changes)) ++ puts o ++
    [Compaction.put_mutation (world_key n) (NamespaceView.manifest p)];
}.

Lemma on_view_sys {A} (m : J → ST NamespaceView.view A) w w' a : on_view m w = (w', Ok a) → w_sys w' = w_sys w.
Proof. unfold on_view. destruct (m _ _) as [v r]. by intros [= <- _]. Qed.

(** The three forms of the batch. *)
Lemma changes_batch_Ok n changes w w' batch :
  changes_batch n changes w = (w', Ok batch) →
  w_sys w' = w_sys w ∧
  (NamespaceView.legacy_ (w_view w) = true ∧ batch = flat (in_order changes) ∨
   references_of changes = ∅ ∧ batch = flat (filter (λ e, orphaned e.1) (in_order changes)) ∨
   references_of changes ≠ ∅ ∧ ∃ p o, replaces n changes w batch p o).
Proof.
  unfold changes_batch. intros E. rewrite (st_bind_run _ _ w w (w_view w) eq_refl) in E.
  apply st_bind_Ok in E as (initial & w0 & Ei & E).
  assert (w_sys w0 = w_sys w ∧ (NamespaceView.legacy_ (w_view w) = false → w0 = w ∧ initial = false)) as [Hs0 Hv0].
  { destruct (NamespaceView.legacy_ (w_view w)); [|by injection Ei as <- <-].
    apply st_bind_Ok in Ei as (c & w1 & E1 & [= <- _]). split; [|done]. exact (on_view_sys _ _ _ _ E1). }
  destruct initial.
  { injection E as <- <-. split; [done|]. left. split; [|done].
    destruct (NamespaceView.legacy_ (w_view w)); [done|]. by destruct Hv0. }
  rewrite (st_bind_run _ _ w0 w0 (journal_of w0) eq_refl), Hs0 in E.
  apply st_bind_Ok in E as ([[b0 delta] o0] & w1 & E0 & E). unfold lift in E0. injection E0 as <- E0.
  apply split_changes_Ok in E0 as (-> & -> & Ha0 & _ & Hp0); [|apply NoDup_in_order_keys|by intros k b; rewrite lookup_empty].
  rewrite (right_id_L ∅ (∪)), list_to_map_in_order in E. case_bool_decide as Ed.
  { injection E as <- <-. split; [done|]. right. by left. }
  apply st_bind_Ok in E as (p & w2 & Ep & E). apply st_bind_Ok in E as (o & w3 & Eo & E).
  unfold lift in Eo. injection Eo as <- Eo. injection E as <- <-.
  destruct (plan_objects_Ok _ _ _ _ Eo Ha0) as (Ha & Hsub & Hp).
  split; [rewrite (on_view_sys _ _ _ _ Ep); done|]. right. right. split; [done|]. exists p, o. split.
  - intros Hl. destruct (Hv0 Hl) as [-> _]. unfold on_view in Ep.
    destruct (NamespaceView.plan _ _ _ _) as [v' r] eqn:Er. injection Ep as _ ->. by exists v'.
  - done.
  - intros k b Hk Hn. eapply provided_mono; [exact Hsub|]. eapply Hp0; [|done]. by apply elem_of_in_order.
  - exact Hp.
  - done.
Qed.

(** Building the batch changes nothing but the view. *)
Lemma batch_moves n changes : moves (on_work (@eq (Container.sys J))) (changes_batch n changes).
Proof. unfold changes_batch, contains. moves. Qed.

(** ** The names a commit binds *)

Definition touches (n : ns) (changes : Changes) (legacy : bool) (s : kv) (k : Bytes) : Prop :=
  k = world_key n ∨ registered k ∧ kv_roots s !! k = None ∨ starts_with mark_prefix k = true ∨
  is_Some (changes !! k) ∧ (orphaned k ∨ legacy = true).

Lemma flat_elem l m : m ∈ flat l → plain m ∧ (Journal.m_key m, Journal.m_value m) ∈ l.
Proof. intros ([k v] & -> & Hin)%list_elem_of_fmap. done. Qed.
Lemma puts_elem o m : m ∈ puts o → plain m ∧ ∃ b, Journal.m_value m = Some b ∧ o !! Journal.m_key m = Some b.
Proof. intros ([k b] & -> & Hin%elem_of_in_order)%list_elem_of_fmap. split; [done|]. by exists b. Qed.

Lemma batch_touches n changes w w' batch s m :
  stands (journal_of w) s → changes_batch n changes w = (w', Ok batch) → m ∈ batch →
  plain m ∧ touches n changes (NamespaceView.legacy_ (w_view w)) s (Journal.m_key m).
Proof.
  intros Hs E Hm. apply changes_batch_Ok in E as [_ [[Hl ->]|[[_ ->]|(_ & p & o & Hr)]]].
  - apply flat_elem in Hm as [Hp Hm%elem_of_in_order]. split; [done|]. do 3 right. split; [by eexists|by right].
  - apply flat_elem in Hm as [Hp [Ho Hm%elem_of_in_order]%list_elem_of_filter]. split; [done|]. do 3 right. split; [by eexists|by left].
  - rewrite (rp_batch _ _ _ _ _ _ Hr) in Hm. apply elem_of_app in Hm as [Hm|[Hm| ->%list_elem_of_singleton]%elem_of_app].
    + apply flat_elem in Hm as [Hp [Ho Hm%elem_of_in_order]%list_elem_of_filter]. split; [done|]. do 3 right. split; [by eexists|by left].
    + apply puts_elem in Hm as (Hp & b & _ & Hb). split; [done|].
      destruct (rp_additions _ _ _ _ _ _ Hr _ _ Hb) as [[Ek Hc]|[Hk _]]; [right; left|by do 2 right; left].
      split; [rewrite Ek; apply object_key_registered|]. apply (contains_stands _ _ _ _ Hs) in Hc.
      symmetry in Hc. apply bool_decide_eq_false in Hc. by apply eq_None_not_Some.
    + by split; [|left].
Qed.

(** The store after a batch that was accepted. *)
Definition later (n : ns) (changes : Changes) (legacy : bool) (s s' : kv) : Prop :=
  kv_objects s ⊆ kv_objects s' ∧ ∀ k, ¬ touches n changes legacy s k → kv_roots s' !! k = kv_roots s !! k.

Lemma batch_later n changes w w' batch s :
  stands (journal_of w) s → changes_batch n changes w = (w', Ok batch) → distinct_hashes (written batch ++ payloads s) →
  later n changes (NamespaceView.legacy_ (w_view w)) s (kv_batch batch s).
Proof.
  intros Hs E Hd. split.
  - apply map_subseteq_spec. intros id v Hv. apply batch_keeps; [done| |done]. intros i b. by apply (stands_hashed _ _ _ _ Hs).
  - intros k Hk. rewrite batch_roots. destruct (targets batch !! k) as [v|] eqn:Et; [|done].
    apply targets_elem in Et as (m & Hm & <- & _). by destruct Hk, (batch_touches _ _ _ _ _ _ _ Hs E Hm).
Qed.

(** The commit of a batch. *)
Lemma commit_batch w s batch :
  stands (journal_of w) s → counts_fit (kv_batch batch s) →
  match on_sys (Compaction.commit batch) w with
  | (w', Ok _) => stands (journal_of w') (kv_batch batch s) ∧ NoDup (Journal.m_key <$> batch)
  | (w', Err _) => stands (journal_of w') s ∨ dead (journal_of w')
  | (_, OutOfFuel) => False
  end.
Proof.
  intros Hs Hfit. pose proof (stands_transact _ _ (j_sequence (journal_of w)) batch Hs Hfit) as Ht.
  unfold on_sys, Compaction.commit, Container.locked, Container.on_journal, gets, mbind, st_bind.
  destruct (j_transact (j_sequence (journal_of w)) batch (journal_of w)) as [j' [[]|m|]]; [|done..]. by destruct Ht as (_ & ? & ? & _).
Qed.
End Committing.
