(* ===== verification/HandleTable.v ===== *)
(** * Lock ranges and the invariant of the handle tables

    Lists of lock ranges as maps from offsets; and [coherent]: every handle has a cursor;
    handles that share a cursor are of one file; the locks of a cursor are sorted, disjoint
    and merged ranges within the limit; two cursors of one file never hold conflicting locks
    at one offset; the open count of an inode is the number of its handles; and there are at
    most 4096 handles. *)

From S2P Require Import Prelude Container Handles Moves.
Import Container Handles.
Local Open Scope Z_scope.

(** ** Lock ranges as a map from offsets *)

Implicit Types (r : LockRange) (l : list LockRange).

(** The range covers the offset. *)
Definition covers r (x : Z) : bool := (start r <=? x) && (x <? end_ r).

Fixpoint mode_at l (x : Z) : option Z :=
  match l with
  | [] => None
  | r :: rest => if covers r x then Some (mode r) else mode_at rest x
  end.

(** Non-empty ranges, in order and disjoint, from [low] on. *)
Fixpoint ranges_from (low : Z) l : Prop :=
  match l with
  | [] => True
  | r :: rest => low ≤ start r ∧ start r < end_ r ∧ ranges_from (end_ r) rest
  end.

(** Adjacent ranges of one mode have been merged. *)
Fixpoint merged l : Prop :=
  match l with
  | r :: (r' :: _) as rest => (end_ r = start r' → mode r ≠ mode r') ∧ merged rest
  | _ => True
  end.

Lemma covers_spec r x : covers r x = true ↔ start r ≤ x < end_ r.
Proof. unfold covers. rewrite andb_true_iff, Z.leb_le, Z.ltb_lt. done. Qed.
Lemma covers_false r x : covers r x = false ↔ ¬ start r ≤ x < end_ r.
Proof. rewrite <- covers_spec. by destruct (covers r x). Qed.

Lemma ranges_weaken low low' l : low' ≤ low → ranges_from low l → ranges_from low' l.
Proof. destruct l; simpl; [done|]. intros ? (? & ? & ?). split_and!; [lia|done..]. Qed.

Lemma mode_at_below low l x : ranges_from low l → x < low → mode_at l x = None.
Proof.
  revert low. induction l as [|r l IH]; intros low; [done|]. simpl. intros (H1 & H2 & H3) Hx.
  rewrite (proj2 (covers_false r x)) by lia. apply (IH (end_ r)); [done|lia].
Qed.

Lemma mode_at_app l k x :
  mode_at (l ++ k) x = match mode_at l x with Some m => Some m | None => mode_at k x end.
Proof. induction l as [|r l IH]; [done|]. simpl. by destruct (covers r x). Qed.

(** Carving an interval out. *)
Lemma carve_mode s e l x low : s < e → ranges_from low l →
  mode_at (carve s e l) x = if (s <=? x) && (x <? e) then None else mode_at l x.
Proof.
  revert low. induction l as [|[rs re m] l IH]; intros low Hse; simpl; [by destruct (_ && _)|].
  intros (H1 & H2 & H3). rewrite mode_at_app, (IH re) by done. unfold covers. simpl.
  repeat match goal with
  | |- context [?a <=? ?b] => destruct (Z.leb_spec a b); simpl
  | |- context [?a <? ?b] => destruct (Z.ltb_spec a b); simpl
  end; unfold covers; simpl;
  repeat match goal with
  | |- context [?a <=? ?b] => destruct (Z.leb_spec a b); simpl
  | |- context [?a <? ?b] => destruct (Z.ltb_spec a b); simpl
  end; try lia; try done; by rewrite (mode_at_below re) by (done || lia).
Qed.

Lemma carve_apart s e l r low : s < e → ranges_from low l → r ∈ carve s e l → end_ r ≤ s ∨ e ≤ start r.
Proof.
  intros Hse. revert low. induction l as [|[rs re m] l IH]; intros low; simpl; [set_solver|].
  intros (H1 & H2 & H3) [Hr|Hr]%elem_of_app; [|by eapply IH].
  destruct (Z.leb_spec re s); simpl in *; [set_solver|].
  destruct (Z.leb_spec e rs); simpl in *; [set_solver|].
  apply elem_of_app in Hr as [Hr|Hr].
  - destruct (Z.ltb_spec rs s); [|set_solver]. apply list_elem_of_singleton in Hr as ->. by left.
  - destruct (Z.ltb_spec e re); [|set_solver]. apply list_elem_of_singleton in Hr as ->. by right.
Qed.

Lemma carve_ranges s e l low : s < e → ranges_from low l → ranges_from low (carve s e l).
Proof.
  revert low. induction l as [|[rs re m] l IH]; intros low Hse; simpl; [done|].
  intros (H1 & H2 & H3). specialize (IH re Hse H3).
  destruct (Z.leb_spec re s); simpl; [done|]. destruct (Z.leb_spec e rs); simpl; [done|].
  destruct (Z.ltb_spec rs s), (Z.ltb_spec e re); simpl; split_and?; try lia; try done;
    (eapply ranges_weaken; [|exact IH]; lia).
Qed.

(** Sorting: the carved list is already in order, so only the new range moves. *)
Lemma insert_last low l r : ranges_from low l → (∀ r', r' ∈ l → start r' ≤ start r) →
  insert_range r l = l ++ [r].
Proof.
  revert low. induction l as [|x l IH]; intros low; simpl; [done|]. intros (H1 & H2 & H3) H.
  rewrite (proj2 (Z.leb_le _ _)) by set_solver. f_equal. apply (IH (end_ x)); set_solver.
Qed.

Lemma ranges_snoc low l r : ranges_from low (l ++ [r]) →
  ranges_from low l ∧ (∀ r', r' ∈ l → end_ r' ≤ start r) ∧ low ≤ start r ∧ start r < end_ r.
Proof.
  revert low. induction l as [|x l IH]; intros low; simpl.
  - intros (? & ? & _). split_and!; [done|set_solver|done..].
  - intros (H1 & H2 & (H3 & H4 & H5 & H6)%IH). split_and!; [done..| |lia|done].
    intros r' [->|]%elem_of_cons; auto.
Qed.

Lemma ranges_elem low l r : ranges_from low l → r ∈ l → low ≤ start r ∧ start r < end_ r.
Proof.
  revert low. induction l as [|x l IH]; intros low; simpl; [set_solver|].
  intros (H1 & H2 & H3) [->|Hr]%elem_of_cons; [done|]. specialize (IH _ H3 Hr). lia.
Qed.

Lemma sort_sorted low l : ranges_from low l → sort_ranges l = l.
Proof.
  unfold sort_ranges. induction l as [|r l IH] using rev_ind; [done|].
  intros (H1 & H2 & _)%ranges_snoc. rewrite foldl_app. simpl. rewrite IH by done.
  apply (insert_last low); [done|]. intros r' Hr. pose proof (ranges_elem _ _ _ H1 Hr).
  specialize (H2 r' Hr). lia.
Qed.

Lemma insert_ranges low l r : ranges_from low l → low ≤ start r → start r < end_ r →
  (∀ r', r' ∈ l → end_ r' ≤ start r ∨ end_ r ≤ start r') → ranges_from low (insert_range r l).
Proof.
  revert low. induction l as [|x l IH]; intros low; simpl; [done|]. intros (H1 & H2 & H3) Hl Hr H.
  pose proof (H x ltac:(set_solver)) as Hx.
  destruct (Z.leb_spec (start x) (start r)); simpl; split_and!; try done; try lia.
  apply IH; [done|lia|done|set_solver].
Qed.

Lemma insert_mode low l r x : ranges_from low l → (∀ r', r' ∈ l → end_ r' ≤ start r ∨ end_ r ≤ start r') →
  mode_at (insert_range r l) x = if covers r x then Some (mode r) else mode_at l x.
Proof.
  revert low. induction l as [|y l IH]; intros low; simpl; [done|]. intros (H1 & H2 & H3) H.
  destruct (Z.leb_spec (start y) (start r)); simpl; [|done].
  rewrite (IH (end_ y)) by set_solver. pose proof (H y ltac:(set_solver)) as Hy.
  destruct (covers y x) eqn:Hc; [|done]. apply covers_spec in Hc.
  rewrite (proj2 (covers_false r x)); [done|lia].
Qed.

(** Merging two ranges that touch. *)
Lemma ranges_merge low k b r l : ranges_from low (k ++ b :: r :: l) → end_ b = start r →
  ranges_from low (k ++ mkRange (start b) (end_ r) (mode b) :: l).
Proof.
  revert low. induction k as [|x k IH]; intros low; simpl; [|by intros (? & ? & ?) He; split_and!; auto].
  intros (H1 & H2 & H3 & H4 & H5) He. split_and!; [done|lia|done].
Qed.

Lemma ranges_tail low k b r l : ranges_from low (k ++ b :: r :: l) →
  start b < end_ b ∧ end_ b ≤ start r ∧ start r < end_ r ∧ ranges_from (end_ r) l.
Proof.
  revert low. induction k as [|x k IH]; intros low; simpl; [naive_solver|]. intros (_ & _ & H). by eapply IH.
Qed.

(** Merging: [acc] is the list built so far, its back first. *)
Lemma mode_join a b x : end_ a = start b → mode a = mode b → start a < end_ a → start b < end_ b →
  mode_at [mkRange (start a) (end_ b) (mode a)] x = mode_at [a; b] x.
Proof.
  intros He Hm Ha Hb. simpl. unfold covers. simpl. rewrite <- Hm, <- He in *.
  destruct (Z.leb_spec (start a) x), (Z.leb_spec (end_ a) x), (Z.ltb_spec x (end_ a)), (Z.ltb_spec x (end_ b));
    simpl; done || lia.
Qed.

Lemma normalize_mode low l acc x : ranges_from low (rev acc ++ l) →
  mode_at (normalize l acc) x = mode_at (rev acc ++ l) x.
Proof.
  revert acc. induction l as [|r l IH]; intros acc; simpl; [by rewrite app_nil_r|].
  destruct acc as [|b acc]; [apply (IH [r])|]. simpl. rewrite <- !app_assoc. simpl. intros Hr.
  destruct (Z.eqb_spec (end_ b) (start r)) as [He|]; simpl; [destruct (Z.eqb_spec (mode b) (mode r)) as [Hm|]|].
  2,3: rewrite IH; simpl; rewrite <- ?app_assoc; done.
  assert (ranges_from low (rev (mkRange (start b) (end_ r) (mode b) :: acc) ++ l)) as Hj.
  { simpl. rewrite <- app_assoc. simpl. by eapply ranges_merge. }
  rewrite IH by done. simpl. rewrite <- app_assoc, !mode_at_app. simpl.
  apply ranges_tail in Hr as (Hb & _ & Hr' & _).
  pose proof (mode_join b r x He Hm Hb Hr') as Hjoin. simpl in Hjoin.
  destruct (mode_at (rev acc) x); [done|].
  rewrite Hjoin. destruct (covers b x), (covers r x); done.
Qed.

Lemma normalize_ranges low l acc : ranges_from low (rev acc ++ l) → ranges_from low (normalize l acc).
Proof.
  revert acc. induction l as [|r l IH]; intros acc; simpl; [by rewrite app_nil_r|].
  destruct acc as [|b acc]; [apply (IH [r])|]. simpl. rewrite <- !app_assoc. simpl. intros Hr.
  destruct (Z.eqb_spec (end_ b) (start r)) as [He|]; simpl; [destruct (Z.eqb_spec (mode b) (mode r)) as [Hm|]|];
    apply IH; simpl; rewrite <- ?app_assoc; [by eapply ranges_merge|done..].
Qed.

(** The back of the list built so far does not touch its predecessor with the same mode. *)
Lemma merged_push l b r : merged (l ++ [b]) → (end_ b = start r → mode b ≠ mode r) → merged ((l ++ [b]) ++ [r]).
Proof.
  induction l as [|x l IH]; [done|]. simpl. destruct (l ++ [b]) as [|y k] eqn:Hk.
  - by destruct l.
  - simpl in *. intros [Hx Hm] Hb. split; [done|]. by apply IH.
Qed.

Lemma merged_widen l b e : merged (l ++ [b]) → merged (l ++ [mkRange (start b) e (mode b)]).
Proof.
  induction l as [|x l IH]; [done|]. simpl. destruct l as [|y l]; [done|]. simpl in *. naive_solver.
Qed.

Lemma normalize_merged l acc : merged (rev acc) → merged (normalize l acc).
Proof.
  revert acc. induction l as [|r l IH]; intros acc; simpl; [done|].
  destruct acc as [|b acc]; [by intros; apply IH|]. simpl. intros Hm.
  destruct (Z.eqb_spec (end_ b) (start r)) as [He|]; simpl; [destruct (Z.eqb_spec (mode b) (mode r)) as [?|]|];
    apply IH; simpl; [by apply merged_widen|by apply merged_push..].
Qed.

(** What a request asks of an offset in its interval. *)
Definition lock_value (m : Lock) : option Z :=
  match m with Unlock => None | Shared => Some 1 | Exclusive => Some 2 end.

Definition requested (m : Lock) (s e : Z) : list LockRange :=
  match m with Unlock => [] | Shared => [mkRange s e 1] | Exclusive => [mkRange s e 2] end.

Lemma sorted_request m s e low l : low ≤ s → s < e → ranges_from low l →
  let k := sort_ranges (carve s e l ++ requested m s e) in
  ranges_from low k ∧
  ∀ x, mode_at k x = if (s <=? x) && (x <? e) then lock_value m else mode_at l x.
Proof.
  intros Hs He Hl. pose proof (carve_ranges s e l low He Hl) as Hc.
  pose proof (λ x, carve_mode s e l x low He Hl) as Hm.
  pose proof (λ r, carve_apart s e l r low He Hl) as Ha.
  destruct m; simpl; rewrite ?app_nil_r; [| |rewrite (sort_sorted low) by done; by split].
  all: unfold sort_ranges; rewrite foldl_app; fold (sort_ranges (carve s e l)); rewrite (sort_sorted low) by done.
  all: split; [by apply insert_ranges|]; intros x; simpl; rewrite (insert_mode low) by done; simpl.
  all: unfold covers; simpl; rewrite Hm; by destruct (_ && _).
Qed.

Lemma lock_ranges_spec m s e low l : low ≤ s → s < e → ranges_from low l →
  ranges_from low (lock_ranges m s e l) ∧ merged (lock_ranges m s e l) ∧
  ∀ x, mode_at (lock_ranges m s e l) x = if (s <=? x) && (x <? e) then lock_value m else mode_at l x.
Proof.
  intros Hs He Hl. destruct (sorted_request m s e low l Hs He Hl) as [Hk Hm].
  change (lock_ranges m s e l) with (normalize (sort_ranges (carve s e l ++ requested m s e)) []).
  split_and!; [by apply normalize_ranges|by apply normalize_merged|].
  intros x. rewrite (normalize_mode low) by done. apply Hm.
Qed.

(** ** The invariant *)

Implicit Types (hs : gmap Bytes OpenHandle) (cs : gmap nat Cursor) (ks : gmap (Bytes * Bytes) Z) (h : OpenHandle)
  (tok : Bytes) (k : Cursor).

Definition same_file h h' : Prop :=
  h_view h = h_view h' ∧ h_inode h = h_inode h' ∧ h_revision h = h_revision h'.

(** The handles of a file that its open count counts. *)
Definition counted (v i : Bytes) (e : Bytes * OpenHandle) : Prop :=
  h_view e.2 = v ∧ h_inode e.2 = i ∧ h_revision e.2 = false.
#[global] Instance counted_dec v i e : Decision (counted v i e).
Proof. unfold counted. apply _. Defined.
Definition handle_count hs (v i : Bytes) : Z := Z.of_nat (size (filter (counted v i) hs)).

Definition well_locked (l : list LockRange) : Prop :=
  ranges_from 0 l ∧ merged l ∧ (length l ≤ 128)%nat ∧ (∀ x m, mode_at l x = Some m → m = 1 ∨ m = 2).

(** At no offset do both lists hold a lock unless both locks are shared. *)
Definition compatible (l l' : list LockRange) : Prop :=
  ∀ x m m', mode_at l x = Some m → mode_at l' x = Some m' → m = 1 ∧ m' = 1.

Record coherent (t : table) : Prop := {
  co_cursor tok h : t.1.1 !! tok = Some h → is_Some (t.1.2 !! h_cursor h);
  co_shared tok h tok' h' : t.1.1 !! tok = Some h → t.1.1 !! tok' = Some h' → h_cursor h = h_cursor h' → same_file h h';
  co_locks at_ k : t.1.2 !! at_ = Some k → well_locked (locks k);
  co_excluded tok h k tok' h' k' : t.1.1 !! tok = Some h → t.1.1 !! tok' = Some h' →
    t.1.2 !! h_cursor h = Some k → t.1.2 !! h_cursor h' = Some k' →
    same_file h h' → h_cursor h ≠ h_cursor h' → compatible (locks k) (locks k');
  co_counts v i : default 0 (t.2 !! (v, i)) = handle_count t.1.1 v i;
  co_positive v i n : t.2 !! (v, i) = Some n → 0 < n;
  co_limit : (size t.1.1 ≤ 4096)%nat;
}.

Lemma well_locked_nil : well_locked [].
Proof. split_and!; [done|done|simpl; lia|done]. Qed.
Lemma compatible_nil_l l : compatible [] l.
Proof. intros x m m'. done. Qed.
Lemma compatible_sym l l' : compatible l l' → compatible l' l.
Proof. intros H x m m' Hm Hm'. destruct (H x m' m); auto. Qed.

Lemma coherent_empty : coherent (∅, ∅, ∅).
Proof.
  split; simpl; intros *; rewrite ?lookup_empty; try done.
  rewrite map_size_empty. lia.
Qed.

(** ** Counting *)

Lemma count_insert hs tok h v i : hs !! tok = None →
  handle_count (<[tok := h]> hs) v i = handle_count hs v i + (if decide (counted v i (tok, h)) then 1 else 0).
Proof.
  intros Hn. unfold handle_count. destruct (decide _).
  - rewrite map_filter_insert_True by done. rewrite map_size_insert_None; [lia|].
    apply map_lookup_filter_None_2. by left.
  - rewrite map_filter_insert_not' by (done || naive_solver congruence). lia.
Qed.

Lemma count_delete hs tok h v i : hs !! tok = Some h →
  handle_count (delete tok hs) v i = handle_count hs v i - (if decide (counted v i (tok, h)) then 1 else 0).
Proof.
  intros Hh. rewrite <- (insert_delete_id hs tok h Hh) at 2.
  rewrite count_insert by apply lookup_delete_eq. lia.
Qed.

Lemma count_positive hs tok h : hs !! tok = Some h → h_revision h = false → 0 < handle_count hs (h_view h) (h_inode h).
Proof.
  intros Hh Hr. rewrite <- (insert_delete_id hs tok h Hh), count_insert by apply lookup_delete_eq.
  rewrite decide_True by done. unfold handle_count. lia.
Qed.

(** The counts after the handles of one file have changed by [d]. *)
Definition recount (v i : Bytes) (d : Z) ks : gmap (Bytes * Bytes) Z :=
  let n := default 0 (ks !! (v, i)) + d in
  if n =? 0 then delete (v, i) ks else <[(v, i) := n]> ks.

Lemma recount_lookup v i d ks v' i' :
  default 0 (recount v i d ks !! (v', i')) =
  default 0 (ks !! (v', i')) + (if decide ((v, i) = (v', i')) then d else 0).
Proof.
  unfold recount. destruct (Z.eqb_spec (default 0 (ks !! (v, i)) + d) 0) as [Hz|];
    (destruct (decide ((v, i) = (v', i'))) as [<-|]; [rewrite ?lookup_delete_eq, ?lookup_insert_eq; simpl; lia|]);
    rewrite ?lookup_delete_ne, ?lookup_insert_ne by done; lia.
Qed.

Lemma recount_positive v i d ks : (∀ v i n, ks !! (v, i) = Some n → 0 < n) → 0 ≤ default 0 (ks !! (v, i)) + d →
  ∀ v' i' n, recount v i d ks !! (v', i') = Some n → 0 < n.
Proof.
  intros Hp Hd v' i' n. unfold recount. destruct (Z.eqb_spec (default 0 (ks !! (v, i)) + d) 0).
  - rewrite lookup_delete_Some. intros [_ ?]. eauto.
  - rewrite lookup_insert_Some. intros [[_ <-]|[_ ?]]; [lia|eauto].
Qed.

Definition recounted h (d : Z) ks : gmap (Bytes * Bytes) Z :=
  if h_revision h then ks else recount (h_view h) (h_inode h) d ks.

Lemma counted_same h v i tok : h_revision h = false →
  (if decide ((h_view h, h_inode h) = (v, i)) then 1 else 0) = (if decide (counted v i (tok, h)) then 1 else 0).
Proof. intros Hr. unfold counted. simpl. repeat case_decide; naive_solver. Qed.

Lemma recounted_counts hs ks h (d : Z) tok : (∀ v i, default 0 (ks !! (v, i)) = handle_count hs v i) → ∀ v i,
  default 0 (recounted h d ks !! (v, i)) = handle_count hs v i + d * (if decide (counted v i (tok, h)) then 1 else 0).
Proof.
  intros Hc v i. unfold recounted. destruct (h_revision h) eqn:Hr.
  - rewrite Hc. rewrite decide_False; [lia|]. unfold counted. simpl. naive_solver congruence.
  - rewrite recount_lookup, Hc. rewrite <- (counted_same h v i tok Hr). case_decide; lia.
Qed.

(** ** The changes of the tables *)

(** A new cursor that no handle uses yet. *)
Lemma coherent_new_cursor hs cs ks at_ : coherent (hs, cs, ks) → cs !! at_ = None →
  coherent (hs, <[at_ := mkCursor 0 []]> cs, ks).
Proof.
  intros [Hc Hs Hl He Hn Hp Hm] Ha. split; simpl in *; try done.
  - intros tok h Hh. rewrite lookup_insert_is_Some'. right. by eapply Hc.
  - intros a k. rewrite lookup_insert_Some. intros [[_ <-]|[_ ?]]; [apply well_locked_nil|by eapply Hl].
  - intros tok h k tok' h' k' Hh Hh'.
    pose proof (Hc _ _ Hh) as [? Hk]. pose proof (Hc _ _ Hh') as [? Hk'].
    rewrite !lookup_insert_ne by congruence. exact (He _ _ _ _ _ _ Hh Hh').
Qed.

(** A new handle on an existing cursor: its own, unused and without locks, or that of another
    handle of the file. *)
Lemma coherent_insert hs cs ks tok h k : coherent (hs, cs, ks) → hs !! tok = None → (size hs < 4096)%nat →
  cs !! h_cursor h = Some k →
  (locks k = [] ∧ (∀ tok' h', hs !! tok' = Some h' → h_cursor h' ≠ h_cursor h)) ∨ (∃ tok', hs !! tok' = Some h) →
  coherent (<[tok := h]> hs, cs, recounted h 1 ks).
Proof.
  intros [Hc Hs Hl He Hn Hp Hm] Ht Hsz Hk Hor. split; simpl in *.
  - intros t h'. rewrite lookup_insert_Some. intros [[_ <-]|[_ ?]]; [by eexists|by eapply Hc].
  - intros t h1 t' h1'. rewrite !lookup_insert_Some.
    intros [[_ <-]|[_ H1]] [[_ <-]|[_ H2]] Heq; [done| | |by eapply Hs].
    + destruct Hor as [[_ Hu]|[t0 H0]]; [by destruct (Hu _ _ H2)|by eapply Hs].
    + destruct Hor as [[_ Hu]|[t0 H0]]; [by destruct (Hu _ _ H1)|by eapply Hs].
  - done.
  - intros t h1 k1 t' h1' k1'. rewrite !lookup_insert_Some.
    intros [[_ <-]|[_ H1]] [[_ <-]|[_ H2]] K1 K2 Hf Hne; try done; [| |exact (He _ _ _ _ _ _ H1 H2 K1 K2 Hf Hne)].
    + destruct Hor as [[Hz _]|[t0 H0]]; [|exact (He _ _ _ _ _ _ H0 H2 K1 K2 Hf Hne)]. assert (k1 = k) as -> by congruence. rewrite Hz.
      apply compatible_nil_l.
    + destruct Hor as [[Hz _]|[t0 H0]]; [|exact (He _ _ _ _ _ _ H1 H0 K1 K2 Hf Hne)]. assert (k1' = k) as -> by congruence. rewrite Hz.
      apply compatible_sym, compatible_nil_l.
  - intros v i. rewrite (recounted_counts hs ks h 1 tok) by done. rewrite count_insert by done. lia.
  - unfold recounted. destruct (h_revision h); [done|]. apply recount_positive; [done|].
    rewrite Hn. unfold handle_count. lia.
  - rewrite map_size_insert_None by done. lia.
Qed.

(** The last or another handle of a file goes. *)
Lemma coherent_delete hs cs ks tok h : coherent (hs, cs, ks) → hs !! tok = Some h →
  coherent (delete tok hs, cs, recounted h (-1) ks).
Proof.
  intros [Hc Hs Hl He Hn Hp Hm] Ht. split; simpl in *.
  - intros t h'. rewrite lookup_delete_Some. intros [_ ?]. by eapply Hc.
  - intros t h1 t' h1'. rewrite !lookup_delete_Some. intros [_ ?] [_ ?]. by eapply Hs.
  - done.
  - intros t h1 k1 t' h1' k1'. rewrite !lookup_delete_Some. intros [_ H1] [_ H2]. exact (He _ _ _ _ _ _ H1 H2).
  - intros v i. rewrite (recounted_counts hs ks h (-1) tok) by done. rewrite (count_delete hs tok h) by done. lia.
  - unfold recounted. destruct (h_revision h) eqn:Hr; [done|]. apply recount_positive; [done|].
    rewrite Hn. pose proof (count_positive hs tok h Ht Hr). lia.
  - rewrite (map_size_delete_Some tok hs) by eauto. lia.
Qed.

(** A cursor is replaced; its locks are compatible with those of the other cursors of its
    files. *)
Lemma coherent_update hs cs ks at_ k : coherent (hs, cs, ks) → well_locked (locks k) →
  (∀ tok h tok' h' k', hs !! tok = Some h → hs !! tok' = Some h' → h_cursor h = at_ → h_cursor h' ≠ at_ →
     same_file h h' → cs !! h_cursor h' = Some k' → compatible (locks k) (locks k')) →
  coherent (hs, <[at_ := k]> cs, ks).
Proof.
  intros [Hc Hs Hl He Hn Hp Hm] Hk Hcomp. split; simpl in *; try done.
  - intros tok h Hh. rewrite lookup_insert_is_Some'. right. by eapply Hc.
  - intros a k'. rewrite lookup_insert_Some. intros [[_ <-]|[_ ?]]; [done|by eapply Hl].
  - intros t h1 k1 t' h1' k1' H1 H2. rewrite !lookup_insert_Some.
    intros [[Ea <-]|[Na K1]] [[Ea' <-]|[Na' K2]] Hf Hne.
    + congruence.
    + apply (Hcomp t h1 t' h1'); auto.
    + apply compatible_sym. apply (Hcomp t' h1' t h1); auto. by destruct Hf as (? & ? & ?).
    + exact (He _ _ _ _ _ _ H1 H2 K1 K2 Hf Hne).
Qed.

Definition cursor_at cs at_ : Cursor := default (mkCursor 0 []) (cs !! at_).

(** The position moves. *)
Lemma coherent_position hs cs ks at_ p : coherent (hs, cs, ks) →
  coherent (hs, <[at_ := mkCursor p (locks (cursor_at cs at_))]> cs, ks).
Proof.
  intros Hco. pose proof Hco as [Hc Hs Hl He Hn Hp Hm]. simpl in *.
  apply coherent_update; [done|..]; simpl; unfold cursor_at.
  - destruct (cs !! at_) eqn:Ha; simpl; [by eapply Hl|apply well_locked_nil].
  - intros t h1 t' h1' k' H1 H2 <- Hne Hf K2. destruct (Hc _ _ H1) as [k K1]. rewrite K1. simpl.
    apply (He _ _ _ _ _ _ H1 H2 K1 K2 Hf). congruence.
Qed.

(** ** Locking *)

Lemma mode_at_range l x m : mode_at l x = Some m → ∃ r, r ∈ l ∧ start r ≤ x < end_ r ∧ mode r = m.
Proof.
  induction l as [|r l IH]; simpl; [done|]. destruct (covers r x) eqn:Hc.
  - intros [= <-]. apply covers_spec in Hc. exists r. split; [set_solver|done].
  - intros (r' & ? & ?)%IH. exists r'. split; [set_solver|done].
Qed.

Lemma lock_value_mode m x : lock_value m = Some x → lock_mode m = x ∧ (x = 1 ∨ x = 2) ∧ m ≠ Unlock.
Proof. destruct m; simpl; intros [= <-]; auto. Qed.

Lemma well_locked_lock m s e l : 0 ≤ s < e → well_locked l → (length (lock_ranges m s e l) ≤ 128)%nat →
  well_locked (lock_ranges m s e l).
Proof.
  intros Hse (Hr & Hm & _ & Hv) Hlen. destruct (lock_ranges_spec m s e 0 l) as (H1 & H2 & H3); [lia..|done|].
  split_and!; [done..|]. intros x y. rewrite H3. destruct (_ && _); [|apply Hv].
  intros Hy%lock_value_mode. naive_solver.
Qed.

(** The test of [blocked] against one other cursor. *)
Lemma compatible_lock m s e l l' : 0 ≤ s < e → well_locked l → well_locked l' → compatible l l' →
  (m ≠ Unlock → existsb (conflicts s e (lock_mode m)) l' = false) → compatible (lock_ranges m s e l) l'.
Proof.
  intros Hse (Hr & _) (_ & _ & _ & Hv') Hcomp Hb x y y' Hy Hy'.
  destruct (lock_ranges_spec m s e 0 l) as (_ & _ & H3); [lia..|done|]. rewrite H3 in Hy.
  destruct ((s <=? x) && (x <? e)) eqn:Hin; [|by apply (Hcomp x)].
  apply lock_value_mode in Hy as (<- & Hy & Hu). apply andb_true_iff in Hin as [Hs%Z.leb_le He%Z.ltb_lt].
  pose proof Hy' as (r & Hr' & Hx & <-)%mode_at_range. specialize (Hb Hu).
  assert (conflicts s e (lock_mode m) r = false) as Hcf.
  { apply not_true_iff_false. intros Ht. apply not_true_iff_false in Hb. apply Hb, existsb_exists.
    exists r. split; [by apply list_elem_of_In|done]. }
  unfold conflicts in Hcf. rewrite (proj2 (Z.ltb_lt s (end_ r))), (proj2 (Z.ltb_lt (start r) e)) in Hcf by lia.
  simpl in Hcf. apply orb_false_iff in Hcf as [?%Z.eqb_neq ?%Z.eqb_neq].
  specialize (Hv' x _ Hy'). lia.
Qed.
