(* ===== verification/HandleMoves.v ===== *)
(** * The handle operations keep the tables coherent

    One lemma per operation of [Module Handles], failing runs included, and the sequences of
    calls of several threads. *)

From S2P Require Import Prelude Codec Journal MetadataTree Store MetadataView Container Compaction.
From S2P Require Import Maintenance Nodes Namespace Worlds Files Handles Traverse Moves NamespaceMoves.
From S2P Require Import HandleTable.
Import Container Nodes Namespace Handles.
Local Open Scope Z_scope.

(** A first part that is related by the smaller relation, and what it establishes. *)
Lemma run_then {S A B} (R0 R : S → S → Prop) `{!PreOrder R} (m : ST S A) (f : A → ST S B) s :
  (∀ s s', R0 s s' → R s s') → moves R0 m →
  (∀ a s', m s = (s', Ok a) → R0 s s' → R s' (f a s').1) → R s ((m ≫= f) s).1.
Proof.
  intros Hi Hm Hf. unfold mbind, st_bind. specialize (Hm s). destruct (m s) as [s' [a|e|]]; simpl in *; auto.
  etrans; [by apply Hi|by apply Hf].
Qed.

Section Handles.
Context `{Digest} {J : Type} `{JournalLike J}.
Implicit Types (s : sys J) (c : container J) (n : ns) (h : OpenHandle).

Abbreviation quiet m := (moves (on_work (same (J := J))) m).
Abbreviation safe m := (moves (kept (J := J) coherent) m).

(** A run ends in a state with given tables. *)
Lemma kept_table s s' t : table_of (cont s') = t → others s' = others s →
  (coherent (table_of (cont s)) → coherent t) → kept coherent s s'.
Proof. intros <- Ho Hc [Ht Hf]. split; [auto|by rewrite Ho]. Qed.

Lemma same_then {A B} (m : ST (sys J) A) (f : A → ST (sys J) B) s : moves same m →
  (∀ a s', m s = (s', Ok a) → same s s' → kept coherent s' (f a s').1) → kept coherent s ((m ≫= f) s).1.
Proof. apply run_then; [exact _|]. intros. by apply same_kept. Qed.
Lemma quiet_then {A B} (m : ST (work J) A) (f : A → ST (work J) B) w : quiet m →
  (∀ a w', m w = (w', Ok a) → on_work same w w' → on_work (kept coherent) w' (f a w').1) →
  on_work (kept coherent) w ((m ≫= f) w).1.
Proof. apply run_then; [exact _|]. intros. by apply same_kept. Qed.

(** ** Finding a handle *)

Lemma same_find_handle n tok : moves same (find_handle (J := J) n tok).
Proof. unfold find_handle. moves. Qed.
(** The handle is in the table and belongs to the view. *)
Definition handle_of n tok h c : Prop := handles_ c !! tok = Some h ∧ h_view h = view_ n ∧ h_revision h = revision_ n.

Lemma find_handle_Ok n tok s s' h : find_handle n tok s = (s', Ok h) → handle_of n tok h (cont s).
Proof.
  unfold find_handle, handle_of. intros (c & s1 & Hg & H1)%st_bind_Ok. injection Hg as <- <-.
  destruct (handles_ (cont s) !! tok) as [h'|]; [|done]. apply st_bind_Ok in H1 as ([] & s2 & Hn & H2).
  injection H2 as _ <-. apply (f_equal snd), need_Ok, andb_true_iff in Hn as [Hv%bool_decide_eq_true Hr%eqb_prop].
  done.
Qed.

Lemma safe_find {A} n tok (f : OpenHandle → ST (sys J) A) :
  (∀ h s, handle_of n tok h (cont s) → kept coherent s (f h s).1) → safe (find_handle n tok ≫= f).
Proof.
  intros Hf s. apply same_then; [apply same_find_handle|]. intros h s' Hs [Ht _].
  apply Hf. apply find_handle_Ok in Hs. unfold handle_of in *. by injection Ht as -> _ _.
Qed.

(** ** Cursors *)

Lemma kept_position h s c p : cursors_ (cont s) = cursors_ c →
  kept coherent s (set_cursor (h_cursor h) (mkCursor p (locks (cursor_of h c))) s).1.
Proof.
  intros Hc. eapply kept_table; [done|done|]. unfold cursor_of. rewrite <- Hc. apply coherent_position.
Qed.

Lemma safe_try_lock_range n tok m a l : 0 ≤ a → 0 ≤ l → safe (try_lock_range (J := J) n tok m a l).
Proof.
  intros Ha Hl. unfold try_lock_range. intros s. apply same_then; [moves|]. intros [] s1 Hneed _.
  apply (f_equal snd), need_Ok, andb_true_iff in Hneed as [Hmax%Z.leb_le Hlen]. clear s.
  assert (0 ≤ a < lock_end a l) as Hse.
  { unfold lock_end, INT64_MAX in *. destruct (Z.eqb_spec l 0); lia. }
  cbn zeta. revert s1. apply (moves_bind (kept coherent)); [moves|intros []]. apply safe_find. intros h s [Hh _].
  apply same_then; [moves|]. intros c s' [= <- <-] _.
  destruct (bool_decide (m ≠ Unlock) && _) eqn:Hb; [done|].
  apply same_then; [moves|]. intros [] s1 Hneed [Ht Ho]. apply (f_equal snd), need_Ok, Z.leb_le in Hneed.
  eapply kept_table; [done|done|]. intros Hco. rewrite Ht in *. simpl.
  pose proof Hco as [Hc Hs Hlk He Hn Hp Hm]. simpl in *. injection Ht as -> -> ->.
  destruct (Hc _ _ Hh) as [k Hk]. unfold cursor_of in *. rewrite Hk in *. simpl in *.
  pose proof (Hlk _ _ Hk) as Hwell.
  apply coherent_update; simpl; [done|apply well_locked_lock; [done|done|unfold len in Hneed; lia]|].
  intros t1 h1 t2 h2 k2 H1 H2 E1 N2 Hf K2.
  apply compatible_lock; [done|done|by eapply Hlk|rewrite <- E1 in Hk|].
  - exact (He _ _ _ _ _ _ H1 H2 Hk K2 Hf ltac:(congruence)).
  - intros Hu. rewrite bool_decide_eq_true_2 in Hb by done. simpl in Hb. clear Hneed.
    apply not_true_iff_false. intros Hex. apply not_true_iff_false in Hb. apply Hb.
    unfold blocked. apply existsb_exists. exists (t2, h2). split; [by apply list_elem_of_In, elem_of_map_to_list|].
    simpl. destruct (Hs _ _ _ _ H1 Hh E1) as (V1 & I1 & R1). destruct Hf as (V2 & I2 & R2).
    rewrite bool_decide_eq_false_2 by congruence. unfold cursor_of. rewrite K2. simpl.
    unfold bytes_eqb. rewrite !bool_decide_eq_true_2 by congruence.
    rewrite Hex, <- R2, R1. by destruct (h_revision h).
Qed.

(** ** Reading, seeking and writing *)

Lemma quiet_handle_linked h : quiet (handle_linked h).
Proof. unfold handle_linked. moves. Qed.
Lemma quiet_handle_inode n h b : quiet (handle_inode n h b).
Proof. unfold handle_inode. moves. Qed.
Lemma quiet_handle_content n h b : quiet (handle_content n h b).
Proof. unfold handle_content. moves. Qed.
#[local] Hint Resolve quiet_handle_linked quiet_handle_inode quiet_handle_content same_find_handle : moves.

Lemma same_read_handle_locked n h o k : moves same (read_handle_locked (J := J) n h o k).
Proof. unfold read_handle_locked. moves. Qed.
#[local] Hint Resolve same_read_handle_locked : moves.

(** The last step of an operation that returns a value. *)
Lemma last_ret {A B} (m : ST (sys J) A) (b : B) s : kept coherent s (m s).1 →
  kept coherent s ((m ≫= λ _, mret b) s).1.
Proof. unfold mbind, st_bind. by destruct (m s) as [s' []]. Qed.

Lemma safe_seek n tok o g : safe (seek (J := J) n tok o g).
Proof.
  apply (moves_bind (kept coherent)); [moves|intros []]. apply safe_find. intros h s Hh.
  apply same_then; [moves|]. intros c s0 [= <- <-] _. cbn zeta.
  apply same_then; [destruct g; moves|]. intros base s1 _ [Ht1 _]. apply same_then; [moves|]. intros r s2 _ [Ht2 _].
  apply last_ret, kept_position. injection Ht1 as _ <- _. by injection Ht2 as _ <- _.
Qed.

Lemma safe_handle_read_next n tok k : safe (handle_read_next (J := J) n tok k).
Proof.
  apply (moves_bind (kept coherent)); [moves|intros []]. apply safe_find. intros h s Hh.
  apply same_then; [moves|]. intros [] s0 _ _. apply same_then; [moves|]. intros c s1 [= <- <-] _. cbn zeta.
  apply same_then; [moves|]. intros data s2 _ [Ht _].
  apply last_ret, kept_position. by injection Ht as _ <- _.
Qed.

Lemma safe_handle_read n tok o k : safe (handle_read (J := J) n tok o k).
Proof. unfold handle_read. moves. Qed.
Lemma safe_handle_stat n tok : safe (handle_stat (J := J) n tok).
Proof. unfold handle_stat. moves. Qed.

Lemma safe_edit_handle {A} n tok (e : Cursor → Bytes → bool → result (option Bytes * A)) finish :
  (∀ h a, safe (finish h a)) → safe (edit_handle n tok e finish).
Proof. intros Hc. unfold edit_handle. moves. Qed.
Lemma safe_handle_write_next n tok v : safe (handle_write_next (J := J) n tok v).
Proof.
  unfold handle_write_next. moves. apply safe_edit_handle. intros h p s.
  apply same_then; [moves|]. intros c s' [= <- <-] _. by apply kept_position.
Qed.
Lemma safe_handle_write n tok o v : safe (handle_write (J := J) n tok o v).
Proof. unfold handle_write. moves. apply safe_edit_handle. moves. Qed.
Lemma safe_handle_append n tok v : safe (handle_append (J := J) n tok v).
Proof. unfold handle_append. moves. apply safe_edit_handle. moves. Qed.
Lemma safe_handle_truncate n tok z : safe (handle_truncate (J := J) n tok z).
Proof. unfold handle_truncate. moves. apply safe_edit_handle. moves. Qed.
Lemma safe_handle_set_attributes n tok a : safe (handle_set_attributes (J := J) n tok a).
Proof. unfold handle_set_attributes. moves. Qed.

(** ** New handles *)

Lemma quiet_fresh_token k avoid : quiet (fresh_token k avoid).
Proof. induction k as [|k IH]; simpl; moves. Qed.
Lemma fresh_token_Ok k avoid w w' tok : fresh_token k avoid w = (w', Ok tok) →
  handles_ (cont (w_sys w')) !! tok = None.
Proof.
  revert w. induction k as [|k IH]; intros w; simpl; [done|].
  intros (t & w1 & _ & H1)%st_bind_Ok. apply st_bind_Ok in H1 as (c & w2 & Hg & H2). injection Hg as <- <-.
  destruct (bool_decide (is_Some (handles_ (cont (w_sys w1)) !! t))) eqn:Hd.
  - rewrite orb_true_r in H2. by apply IH in H2.
  - destruct (bool_decide (avoid = Some t)); [by apply IH in H2|]. injection H2 as <- <-.
    by apply bool_decide_eq_false, eq_None_not_Some in Hd.
Qed.
Lemma quiet_new_token avoid : quiet (new_token avoid).
Proof. unfold new_token. moves. apply quiet_fresh_token. Qed.
Lemma new_token_Ok avoid w w' tok : new_token avoid w = (w', Ok tok) → handles_ (cont (w_sys w')) !! tok = None.
Proof. unfold new_token. intros (t & w1 & _ & H1)%st_bind_Ok. by eapply fresh_token_Ok. Qed.
Lemma quiet_open_create path o : quiet (open_create path o).
Proof. unfold open_create. moves. Qed.
#[local] Hint Resolve quiet_new_token quiet_open_create : moves.
Lemma quiet_open_target path o : quiet (open_target path o).
Proof. unfold open_target. moves. Qed.
#[local] Hint Resolve quiet_open_target : moves.

(** Counting the handle that has just been entered. *)
Definition count_handle h : ST (sys J) unit := if h_revision h then mret tt else count_up (h_view h) (h_inode h).
Definition uncount_handle h : ST (sys J) unit := if h_revision h then mret tt else count_down (h_view h) (h_inode h).

Lemma count_handle_run h s : 0 ≤ default 0 (open_counts_ (cont s) !! (h_view h, h_inode h)) →
  ∃ s', count_handle h s = (s', Ok tt) ∧ others s' = others s ∧
    table_of (cont s') = (handles_ (cont s), cursors_ (cont s), recounted h 1 (open_counts_ (cont s))).
Proof.
  intros Hn. unfold count_handle, recounted. destruct (h_revision h); [by exists s|].
  eexists. split_and!; [done|done|]. unfold table_of, recount. simpl. do 2 f_equal.
  by rewrite (proj2 (Z.eqb_neq _ 0)) by lia.
Qed.
Lemma uncount_handle_run h s : ∃ s', uncount_handle h s = (s', Ok tt) ∧ others s' = others s ∧
    table_of (cont s') = (handles_ (cont s), cursors_ (cont s), recounted h (-1) (open_counts_ (cont s))).
Proof. unfold uncount_handle, recounted. destruct (h_revision h); [by exists s|]. eexists. by split_and!. Qed.

Definition enter_handle tok h : ST (sys J) unit := update_handles (λ c, <[tok := h]> (handles_ c)).
Definition leave_handle tok : ST (sys J) unit := update_handles (λ c, delete tok (handles_ c)).

(** A handle is entered and counted. *)
Lemma enter_count tok h k s : guarded coherent s → handles_ (cont s) !! tok = None →
  (size (handles_ (cont s)) < 4096)%nat → cursors_ (cont s) !! h_cursor h = Some k →
  (locks k = [] ∧ (∀ tok' h', handles_ (cont s) !! tok' = Some h' → h_cursor h' ≠ h_cursor h)) ∨
    (∃ tok', handles_ (cont s) !! tok' = Some h) →
  ∃ s', (enter_handle tok h;; count_handle h) s = (s', Ok tt) ∧ guarded coherent s' ∧
    handles_ (cont s') !! tok = Some h.
Proof.
  intros [Hco Ho] Ht Hsz Hk Hor. unfold mbind, st_bind. simpl.
  destruct (count_handle_run h (enter_handle tok h s).1) as (s' & Hr & Ho' & Ht').
  { simpl. pose proof (co_counts _ Hco (h_view h) (h_inode h)) as Hn. simpl in Hn. rewrite Hn. unfold handle_count. lia. }
  exists s'. split_and!; [exact Hr|split; [rewrite Ht'; by eapply coherent_insert|by rewrite Ho']|].
  injection Ht' as -> _ _. apply lookup_insert_eq.
Qed.

(** The undo of [open]. *)
Lemma uncount_leave tok h s : guarded coherent s → handles_ (cont s) !! tok = Some h →
  guarded coherent ((uncount_handle h;; leave_handle tok) s).1.
Proof.
  intros [Hco Ho] Hh. unfold mbind, st_bind. destruct (uncount_handle_run h s) as (s' & -> & Ho' & Ht').
  simpl. unfold guarded, table_of. simpl. rewrite Ho'. injection Ht' as -> -> ->.
  split; [by apply coherent_delete|done].
Qed.

Lemma new_cursor_run s : guarded coherent s → ∃ s' at_, new_cursor s = (s', Ok at_) ∧ guarded coherent s' ∧
  handles_ (cont s') = handles_ (cont s) ∧ cursors_ (cont s') !! at_ = Some (mkCursor 0 []) ∧
  ∀ tok h, handles_ (cont s) !! tok = Some h → h_cursor h ≠ at_.
Proof.
  intros [Hco Ho]. eexists _, (fresh (dom (cursors_ (cont s)) : gset nat)).
  assert (cursors_ (cont s) !! fresh (dom (cursors_ (cont s)) : gset nat) = None) as Hf.
  { apply not_elem_of_dom, is_fresh. }
  split_and!; [unfold new_cursor, mbind, st_bind, gets; cbn beta iota zeta; reflexivity| |done|apply lookup_insert_eq|].
  - split; [by apply coherent_new_cursor|done].
  - intros tok h Hh Heq. destruct (co_cursor _ Hco _ _ Hh) as [k Hk]. simpl in Hk. congruence.
Qed.

(** [try]/[catch] around a part that leaves the tables alone. *)
Lemma open_tail n h tok ch w : guarded coherent (w_sys w) → handles_ (cont (w_sys w)) !! tok = Some h →
  guarded coherent (w_sys (on_error (commit_changes n ch) (on_sys (uncount_handle h;; leave_handle tok)) w).1).
Proof.
  intros Hg Hh. unfold on_error. pose proof (quiet_commit_changes n ch w) as Hq. unfold on_work in Hq.
  destruct (commit_changes n ch w) as [w' r]. simpl in Hq.
  assert (guarded coherent (w_sys w') ∧ handles_ (cont (w_sys w')) !! tok = Some h) as [Hg' Hh'].
  { split; [by eapply same_kept|]. destruct Hq as [Ht _]. by injection Ht as -> _ _. }
  destruct r; simpl; [done| |done]. unfold on_sys. pose proof (uncount_leave tok h _ Hg' Hh') as Hu.
  by destruct ((uncount_handle h;; leave_handle tok) (w_sys w')).
Qed.

Lemma on_error_bind {S A B} (m : ST S A) (f : A → ST S B) u (s s' : S) a : m s = (s', Ok a) →
  on_error (m ≫= f) u s = on_error (f a) u s'.
Proof. intros Hm. unfold on_error. by rewrite (st_bind_run m f s s' a Hm). Qed.
Lemma on_sys_run {A} (m : ST (sys J) A) w s' a : m (w_sys w) = (s', Ok a) → on_sys m w = (mkWork s' (w_view w), Ok a).
Proof. unfold on_sys. by intros ->. Qed.

Lemma work_ret {A B} (m : ST (work J) A) (b : B) w : w_sys ((m ≫= λ _, mret b) w).1 = w_sys (m w).1.
Proof. unfold mbind, st_bind. by destruct (m w) as [w' []]. Qed.

Lemma safe_open_locked n path access o w : (size (handles_ (cont (w_sys w))) < 4096)%nat →
  on_work (kept coherent) w (open_locked n path access o w).1.
Proof.
  intros Hsz. apply quiet_then; [moves|]. intros [id ch] w1 _ [Ht1 _].
  apply quiet_then; [moves|]. intros tok w2 Htok%new_token_Ok [Ht2 _] Hg.
  destruct (new_cursor_run (w_sys w2) Hg) as (s3 & at_ & H3 & Hg3 & Hh3 & Hc3 & Hf3).
  rewrite (st_bind_run _ _ _ _ _ (on_sys_run _ _ _ _ H3)). cbn zeta.
  set (h := mkHandle _ _ _ _ _ _ _).
  destruct (enter_count tok h (mkCursor 0 []) s3 Hg3) as (s5 & H5 & Hg5 & Hh5).
  { by rewrite Hh3. } { rewrite Hh3. injection Ht2 as -> _ _. by injection Ht1 as -> _ _. } { done. }
  { left. rewrite Hh3. done. }
  apply st_bind_Ok in H5 as ([] & s4 & H4 & H5).
  rewrite (st_bind_run _ _ _ _ _ (on_sys_run (enter_handle tok h) (mkWork s3 (w_view w2)) _ _ H4)).
  pose proof (open_tail n h tok ch (mkWork s5 (w_view w2)) Hg5 Hh5) as Htail.
  revert Htail. set (u := on_sys (uncount_handle h;; leave_handle tok)). intros Htail.
  assert (on_error ((if revision_ n then mret tt else on_sys (count_up (view_ n) id));; commit_changes n ch) u
            (mkWork s4 (w_view w2)) = on_error (commit_changes n ch) u (mkWork s5 (w_view w2))) as Heq.
  { apply (on_error_bind _ (λ _, commit_changes n ch) u _ _ tt). unfold count_handle in H5. subst h. simpl in H5.
    destruct (revision_ n); [by injection H5 as <-|exact (on_sys_run _ (mkWork s4 (w_view w2)) _ _ H5)]. }
  change (guarded coherent (w_sys ((on_error ((if revision_ n then mret tt else on_sys (count_up (view_ n) id));;
    commit_changes n ch) u ≫= λ _, mret tok) (mkWork s4 (w_view w2))).1)).
  by rewrite work_ret, Heq.
Qed.

Lemma safe_open n path access o : safe (open (J := J) n path access o).
Proof.
  unfold open. do 6 (apply moves_bind; [exact _|moves|intros ?]). intros s.
  apply same_then; [moves|]. intros c s0 [= <- <-] _. apply same_then; [moves|]. intros [] s1 _ [Ht1 _].
  apply same_then; [moves|]. intros [] s2 Hlt [Ht2 _]. apply (f_equal snd), need_Ok, Z.ltb_lt in Hlt.
  apply same_then; [moves|]. intros v s3 _ [Ht3 _].
  pose proof (safe_open_locked n path access o (mkWork s3 v)) as Hw. unfold with_view, on_work in *.
  destruct (open_locked n path access o (mkWork s3 v)). apply Hw. simpl.
  injection Ht3 as -> _ _. injection Ht2 as -> _ _. injection Ht1 as -> _ _. lia.
Qed.

Lemma count_handle_work n h w : h_view h = view_ n → h_revision h = revision_ n →
  (if revision_ n then mret tt else on_sys (count_up (view_ n) (h_inode h))) w = on_sys (count_handle h) w.
Proof. intros Hv Hr. unfold count_handle. rewrite Hr, Hv. by destruct (revision_ n), w. Qed.

Lemma safe_dup n tok : safe (dup (J := J) n tok).
Proof.
  apply (moves_bind (kept coherent)); [moves|intros []]. apply safe_find. intros h s (Hh & Hv & Hr).
  apply same_then; [moves|]. intros c s0 [= <- <-] _. apply same_then; [moves|]. intros [] s1 Hlt [Ht1 _].
  apply (f_equal snd), need_Ok, Z.ltb_lt in Hlt. apply same_then; [moves|]. intros v s2 _ [Ht2 _].
  apply (moves_with_view (λ s' s'', table_of (cont s') = table_of (cont s) → kept coherent s' s'')).
  2: by rewrite Ht2, Ht1.
  clear s1 s2 v Ht1 Ht2. intros w Ht0. change (on_work (kept coherent) w
    ((tok' ← new_token None; on_sys (enter_handle tok' h);;
     (if revision_ n then mret tt else on_sys (count_up (view_ n) (h_inode h)));; mret tok') w).1).
  apply quiet_then; [moves|]. intros tok' w2 Htok%new_token_Ok [Ht _] Hg. rewrite Ht0 in Ht. injection Ht as Ht _ _.
  rewrite <- Ht in Hh. pose proof (co_cursor _ (proj1 Hg) _ _ Hh) as [k Hk]. simpl in Hk.
  destruct (enter_count tok' h k (w_sys w2) Hg Htok) as (s4 & H4 & Hg4 & _);
    [rewrite Ht; lia|done|right; by exists tok|].
  apply st_bind_Ok in H4 as ([] & s3 & H3 & H4).
  rewrite (st_bind_run _ _ _ _ _ (on_sys_run _ _ _ _ H3)), work_ret, count_handle_work by done.
  by rewrite (on_sys_run _ (mkWork s3 (w_view w2)) _ _ H4).
Qed.

(** ** Closing *)

(** From the state [s0], a part of [close] either fails with the tables as they were or has
    taken the handle out of the counts. *)
Definition uncounts h s0 (r : sys J * result unit) : Prop :=
  others r.1 = others s0 ∧
  table_of (cont r.1) = match r.2 with
                        | Ok _ => (handles_ (cont s0), cursors_ (cont s0), recounted h (-1) (open_counts_ (cont s0)))
                        | _ => table_of (cont s0)
                        end.

Lemma same_uncounts {A} h s0 s (m : ST (sys J) A) f : same s0 s → moves same m →
  (∀ a s', same s0 s' → uncounts h s0 (f a s')) → uncounts h s0 ((m ≫= f) s).
Proof.
  intros Hs Hm Hf. specialize (Hm s). pose proof (transitivity Hs Hm) as Hs'. unfold mbind, st_bind.
  destruct (m s) as [s' [a|e|]]; simpl in *; [by apply Hf|by destruct Hs'..].
Qed.

Lemma update_counts_uncounts h s0 s f : same s0 s → h_revision h = false →
  f (cont s) = recount (h_view h) (h_inode h) (-1) (open_counts_ (cont s0)) → uncounts h s0 (update_counts f s).
Proof.
  intros [Ht Ho] Hr Hf. split; [done|]. unfold table_of, recounted. simpl. rewrite Hf, Hr.
  by injection Ht as -> -> _.
Qed.

Lemma close_counts_uncounts h s : uncounts h s (close_counts h s).
Proof.
  unfold close_counts. destruct (h_revision h) eqn:Hrev.
  { split; [done|]. unfold recounted. by rewrite Hrev. }
  unfold gets. rewrite (st_bind_run _ _ s s (cont s)) by done. cbv beta zeta.
  apply same_uncounts; [done|moves|]. intros [] s1 Hs1. destruct (Z.eqb_spec (default 0 (open_counts_ (cont s) !! (h_view h, h_inode h))) 1) as [Hk|Hk].
  - apply same_uncounts; [done|moves|]. intros o s2 Hs2. apply same_uncounts; [done|moves|]. intros [] s3 Hs3.
    apply update_counts_uncounts; [done|done|]. destruct Hs3 as [Ht _]. injection Ht as _ _ ->.
    unfold recount. by rewrite Hk.
  - apply update_counts_uncounts; [done|done|]. destruct Hs1 as [Ht _]. injection Ht as _ _ ->.
    unfold recount. by rewrite (proj2 (Z.eqb_neq _ 0)) by lia.
Qed.

Lemma safe_close n tok : safe (close (J := J) n tok).
Proof.
  apply (moves_bind (kept coherent)); [moves|intros []]. apply safe_find. intros h s (Hh & Hv & Hr) Hg.
  destruct (close_counts_uncounts h s) as [Ho Ht]. unfold mbind, st_bind.
  destruct (close_counts h s) as [s' r]. simpl in *.
  destruct r; simpl; [|by split; [rewrite Ht; apply Hg|rewrite Ho; apply Hg]..].
  unfold guarded, table_of. simpl. rewrite Ho. injection Ht as -> -> ->.
  split; [by apply coherent_delete, Hh; apply Hg|apply Hg].
Qed.
End Handles.

#[export] Hint Resolve quiet_handle_linked quiet_handle_inode quiet_handle_content same_find_handle quiet_new_token
  quiet_open_target : moves.
