(* ===== verification/HandleSpec.v ===== *)
(** * Locks and open counts in every reachable state

    A [call] is one request of a client or one pass of the background worker; an [action] is a
    call together with what the other threads do while it has released the container lock,
    which are actions again.  Every container reached by actions from a freshly opened one has
    [coherent] handle tables. *)

From S2P Require Import Prelude Codec Journal JournalStore MetadataTree Instances Store StoreMemory.
From S2P Require Import MetadataView Container Compaction Maintenance Nodes Namespace Worlds Files Handles.
From S2P Require Import Traverse Moves NamespaceMoves HandleTable HandleMoves.
Import Container Nodes Namespace Handles.

Set Warnings "-register-all".
Local Open Scope Z_scope.

(** Offsets and lengths of lock requests are unsigned. *)
Inductive call :=
| Open (n : ns) (path : Bytes) (access : Access) (o : OpenOptions)
| Dup (n : ns) (tok : Bytes)
| TryLock (n : ns) (tok : Bytes) (m : Lock) (from length_ : N)
| SeekTo (n : ns) (tok : Bytes) (offset : Z) (origin : Seek)
| ReadNext (n : ns) (tok : Bytes) (count : Z)
| ReadHandle (n : ns) (tok : Bytes) (offset count : Z)
| StatHandle (n : ns) (tok : Bytes)
| WriteNext (n : ns) (tok value : Bytes)
| WriteHandle (n : ns) (tok : Bytes) (offset : Z) (value : Bytes)
| AppendHandle (n : ns) (tok value : Bytes)
| TruncateHandle (n : ns) (tok : Bytes) (size : Z)
| AttributesHandle (n : ns) (tok : Bytes) (a : Attributes)
| Close (n : ns) (tok : Bytes)
| Mkdir (n : ns) (path : Bytes) (mode : Z)
| WriteFile (n : ns) (path value : Bytes)
| ReplaceFile (n : ns) (path value : Bytes)
| ReadFile (n : ns) (path : Bytes)
| WriteAt (n : ns) (path : Bytes) (offset : Z) (value : Bytes)
| AppendFile (n : ns) (path value : Bytes)
| TruncateFile (n : ns) (path : Bytes) (size : Z)
| SetAttributes (n : ns) (path : Bytes) (a : Attributes)
| Symlink (n : ns) (target path : Bytes)
| Link (n : ns) (source target : Bytes)
| Remove (n : ns) (path : Bytes) (directory : bool)
| Rename (n : ns) (source target : Bytes)
| Initialize (n : ns)
| Snapshot (n : ns) (name : Bytes)
| Fork (n : ns) (revision world : Bytes)
| Compact (n : ns)
| Worker.

Section Reachable.
Context `{Digest} {J : Type} `{JournalLike J}.

Definition perform (k : call) : ST (sys J) unit :=
  match k with
  | Open n path access o => Handles.open n path access o;; mret tt
  | Dup n tok => dup n tok;; mret tt
  | TryLock n tok m a l => try_lock_range n tok m (Z.of_N a) (Z.of_N l);; mret tt
  | SeekTo n tok o g => seek n tok o g;; mret tt
  | ReadNext n tok k => handle_read_next n tok k;; mret tt
  | ReadHandle n tok o k => handle_read n tok o k;; mret tt
  | StatHandle n tok => handle_stat n tok;; mret tt
  | WriteNext n tok v => handle_write_next n tok v;; mret tt
  | WriteHandle n tok o v => handle_write n tok o v
  | AppendHandle n tok v => handle_append n tok v;; mret tt
  | TruncateHandle n tok z => handle_truncate n tok z
  | AttributesHandle n tok a => handle_set_attributes n tok a
  | Close n tok => close n tok
  | Mkdir n path m => Files.mkdir n path m
  | WriteFile n path v => Files.write n path v
  | ReplaceFile n path v => Files.replace_file n path v
  | ReadFile n path => Files.read n path;; mret tt
  | WriteAt n path o v => Files.write_at n path o v
  | AppendFile n path v => Files.append n path v;; mret tt
  | TruncateFile n path z => Files.truncate n path z
  | SetAttributes n path a => Files.set_attributes n path a
  | Symlink n t path => Files.symlink n t path
  | Link n a b => Files.link n a b
  | Remove n path d => Files.remove n path d
  | Rename n a b => Files.rename n a b
  | Initialize n => Worlds.initialize n
  | Snapshot n name => Worlds.snapshot n name;; mret tt
  | Fork n r w => Worlds.fork n r w
  | Compact n => compact n
  | Worker => Maintenance.iteration;; mret tt
  end.

(** The effect of a call on the container. *)
Inductive action : (container J → container J) → Prop :=
| act (k : call) (ticks : list Z) (random : list Bytes) (threads : list (container J → container J)) :
    Forall action threads → action (λ c, cont (perform k (mkSys c ticks random threads)).1).

Definition thread_step (c c' : container J) : Prop := ∃ f, action f ∧ c' = f c.

(** The state of a daemon that has opened a repository and served some calls. *)
Definition reachable (c : container J) : Prop :=
  ∃ j id degraded a offset, rtc thread_step (opened j id degraded a offset) c.

Lemma moves_discard {A} Q (m : ST (sys J) A) : moves (kept Q) m → moves (kept Q) (m;; mret tt).
Proof. intros Hm. apply moves_bind; [exact _|done|]. intros _. apply moves_ret, _. Qed.

Lemma perform_kept k : moves (kept coherent) (perform k).
Proof.
  destruct k; simpl; try match goal with |- moves _ (mbind _ _) => apply moves_discard end;
    eauto using safe_open, safe_dup, safe_seek, safe_handle_read_next, safe_handle_read, safe_handle_stat,
      safe_handle_write_next, safe_handle_write, safe_handle_append, safe_handle_truncate,
      safe_handle_set_attributes, safe_close with moves typeclass_instances.
  apply safe_try_lock_range; lia.
Qed.

(** Induction through the lists of other threads' actions. *)
Lemma action_coherent : ∀ f, action f → ∀ c, coherent (table_of c) → coherent (table_of (f c)).
Proof.
  fix IH 2. intros f [k ticks random threads Ht] c Hc.
  apply (perform_kept k (mkSys c ticks random threads)). split; [done|]. simpl. clear c Hc.
  induction Ht as [|g gs Hg Hgs IHt]; constructor; [by apply IH|done].
Qed.

Lemma reachable_coherent c : reachable c → coherent (table_of c).
Proof.
  intros (j & id & d & a & o & Hr). remember (opened j id d a o) as c0 eqn:E0.
  assert (coherent (table_of c0)) as Hc by (subst; apply coherent_empty). clear E0.
  induction Hr as [|c0 c1 c2 (f & Hf & ->) _ IH]; [done|]. by apply IH, action_coherent.
Qed.

(** C17: Advisory locks exclude each other in every reachable state: whatever sequence of calls
    the threads of the daemon have made, two open descriptions (cursors) of one file never
    hold locks on a common offset unless both locks are shared. *)
Theorem locks_exclude c tok h k tok' h' k' x m m' : reachable c →
  handles_ c !! tok = Some h → handles_ c !! tok' = Some h' →
  cursors_ c !! h_cursor h = Some k → cursors_ c !! h_cursor h' = Some k' →
  same_file h h' → h_cursor h ≠ h_cursor h' →
  mode_at (locks k) x = Some m → mode_at (locks k') x = Some m' → m = 1 ∧ m' = 1.
Proof.
  intros Hr H1 H2 K1 K2 Hf Hne. apply reachable_coherent in Hr.
  exact (co_excluded _ Hr _ _ _ _ _ _ H1 H2 K1 K2 Hf Hne x m m').
Qed.

(** C19: The handle tables are exact and bounded in every reachable state: the open count of an
    inode is the number of its writable-view handles (so an unlinked file is kept exactly as
    long as it is open), counts are positive, there are at most 4096 handles, every handle has
    a cursor, and the locks of a cursor are at most 128 sorted, disjoint, merged ranges. *)
Theorem open_counts_exact c : reachable c →
  (∀ v i, default 0 (open_counts_ c !! (v, i)) = handle_count (handles_ c) v i) ∧
  (∀ v i n, open_counts_ c !! (v, i) = Some n → 0 < n) ∧
  (size (handles_ c) ≤ 4096)%nat ∧
  (∀ tok h, handles_ c !! tok = Some h → is_Some (cursors_ c !! h_cursor h)) ∧
  (∀ at_ k, cursors_ c !! at_ = Some k →
     ranges_from 0 (locks k) ∧ merged (locks k) ∧ (length (locks k) ≤ 128)%nat).
Proof.
  intros [Hc Hs Hl He Hn Hp Hm]%reachable_coherent. simpl in *. split_and!; [done..|].
  intros at_ k (? & ? & ? & _)%Hl. done.
Qed.
End Reachable.

(** C29: A lock request changes exactly the requested interval: the ranges stay sorted, disjoint
    and merged, every offset of the interval then has the requested mode (none for an unlock)
    and every other offset the mode it had. *)
Theorem lock_ranges_exact m s e l : 0 ≤ s → s < e → ranges_from 0 l →
  ranges_from 0 (lock_ranges m s e l) ∧ merged (lock_ranges m s e l) ∧
  ∀ x, mode_at (lock_ranges m s e l) x = if (s <=? x) && (x <? e) then lock_value m else mode_at l x.
Proof. apply lock_ranges_spec. Qed.

(** ** A run on the journal in memory

    A repository is initialized, a file is created through one handle and opened again through
    another, and both take shared locks that overlap. *)

Definition main_ns : ns := mkNs (bs "main") false.
Definition empty_repository : container memory := opened (mkMemory (mkKv 1 ∅ ∅) true) [] false [] 0.
Definition random_id (n : Z) : Bytes := replicate 16 (z2b n).
Definition creating : OpenOptions := mkOptions true false false 420 false false.
Definition served (c : container memory) (e : call * list Bytes) : container memory :=
  cont (perform e.1 (mkSys c [1] e.2 [])).1.
Definition shared_calls : list (call * list Bytes) :=
  [(Initialize main_ns, [random_id 1]);
   (Open main_ns (bs "/f") ReadWrite creating, [random_id 2; random_id 3]);
   (Open main_ns (bs "/f") ReadWrite creating, [random_id 4]);
   (TryLock main_ns (hex_id (random_id 3)) Shared 0 10, []);
   (TryLock main_ns (hex_id (random_id 4)) Shared 5 10, [])].
Definition shared_state : container memory := foldl served empty_repository shared_calls.

Lemma served_reachable l c : reachable c → reachable (foldl served c l).
Proof.
  revert c. induction l as [|e l IH]; intros c; simpl; [done|]. intros (j & id & d & a & o & Hr). apply IH.
  exists j, id, d, a, o. eapply rtc_r; [exact Hr|].
  exists (λ c, served c e). split; [|done]. apply (act e.1 [1] e.2 []). constructor.
Qed.
Lemma shared_reachable : reachable shared_state.
Proof. apply served_reachable. by exists (mkMemory (mkKv 1 ∅ ∅) true), [], false, [], 0. Qed.

Definition shared_handle (at_ : nat) : OpenHandle :=
  mkHandle (bs "main") (hex_id (random_id 2)) false true true false at_.

Lemma locks_exclude_witness : (1 : Z) = 1 ∧ (1 : Z) = 1.
Proof.
  apply (locks_exclude shared_state (hex_id (random_id 3)) (shared_handle 0) (mkCursor 0 [mkRange 0 10 1])
    (hex_id (random_id 4)) (shared_handle 1) (mkCursor 0 [mkRange 5 15 1]) 7 1 1 shared_reachable).
  all: try (vm_compute; reflexivity).
  - by split_and!.
  - done.
Defined.

Lemma open_counts_exact_witness : handle_count (handles_ shared_state) (bs "main") (hex_id (random_id 2)) = 2.
Proof.
  destruct (open_counts_exact shared_state shared_reachable) as (Hc & _).
  rewrite <- Hc. vm_compute. reflexivity.
Defined.

Lemma lock_ranges_exact_witness :
  mode_at (lock_ranges Unlock 3 5 [mkRange 0 10 2]) 7 = Some 2 ∧ mode_at (lock_ranges Unlock 3 5 [mkRange 0 10 2]) 4 = None.
Proof.
  destruct (lock_ranges_exact Unlock 3 5 [mkRange 0 10 2]) as (_ & _ & Hm); [lia|lia|simpl; lia|].
  by rewrite !Hm.
Defined.
