(* ===== verification/CallsSpec.v ===== *)
(** * Every call returns

    Each operation of the namespace and of its handles halts from every state, by the lemmas of
    [Halts], [HaltsView] and [HaltsOps]; the theorem at the end collects them for the calls a
    client can make. *)

From S2P Require Import Prelude Codec Journal JournalStore MetadataTree Instances LevelStore Store.
From S2P Require Import StoreMemory JournalFacade MetadataView Container Compaction Maintenance Nodes.
From S2P Require Import Namespace Worlds Files Handles Moves Halts HaltsView HaltsOps NamespaceMoves.
From S2P Require Import HandleMoves HandleSpec.
Import Container Nodes Namespace Handles.
Local Open Scope Z_scope.

Section Calls.
Context `{Digest} {J : Type} `{JournalReturns J}.
Implicit Types (n : ns) (s : sys J).
Abbreviation halts_w m := (halts (S := work J) m).
Abbreviation quiet m := (moves (on_work (same (J := J))) m).

(** ** The retry loop *)

(** Waiting while no other thread acts times out. *)
Lemma backpressure_alone n s s' u : others s = [] → compaction_stop_ (cont s) = false →
  backpressure n s ≠ (s', Ok u).
Proof.
  intros Ho Hs Hb. unfold backpressure in Hb.
  set (c1 := Maintenance.schedule_compaction_locked (view_ n) (cont s)) in *.
  assert (compaction_stop_ c1 = false ∧ compaction_world_failures_ c1 = compaction_world_failures_ (cont s)) as [Hs1 Hf1].
  { subst c1. unfold Maintenance.schedule_compaction_locked. by destruct (_ && _). }
  set (s1 := mkSys c1 (clock s) (entropy s) (others s)).
  rewrite (st_bind_run _ _ s s1 tt) in Hb by done.
  apply st_bind_Ok in Hb as (before & s2 & Hr & Hb). injection Hr as <- Hr.
  rewrite (st_bind_run _ _ s1 s1 (default 0 (compaction_world_failures_ c1 !! view_ n))) in Hb by done.
  assert (acquire s1 = (s1, Ok tt)) as Ha by (unfold acquire, s1; simpl; by rewrite Ho).
  rewrite (st_bind_run _ _ _ _ _ Ha), (st_bind_run _ _ s1 s1 c1) in Hb by done. cbn zeta in Hb.
  rewrite Hs1, Z.eqb_refl in Hb. cbn [negb orb] in Hb.
  unfold reading in Hb. unfold mbind, st_bind in Hb. cbn [cont journal_] in Hb. simpl in Hb. simpl in Hr. rewrite Hr in Hb.
  simpl in Hb. by rewrite bool_decide_eq_false_2 in Hb by (intros Hx; by apply Hx).
Qed.

(** An attempt decides to wait only while the worker runs, and to compact only once. *)
Lemma attempt_wait {A} n (op : ST (work J) (Changes * A)) (b : bool) w w' r : attempt_update n op b w = (w', Ok r) →
  (r = Wait A → compaction_stop_ (cont (w_sys w')) = false) ∧ (r = Offline A → b = false).
Proof.
  unfold attempt_update. intros ([ch a] & w1 & _ & G1)%st_bind_Ok.
  destruct (bool_decide (ch = ∅)); [by injection G1 as <- <-|].
  apply st_bind_Ok in G1 as (w2 & w3 & Hg & G1). injection Hg as <- <-. cbn zeta in G1.
  set (bg := compaction_running_ _ && _) in G1.
  destruct (negb bg && negb b && _) eqn:E1.
  { injection G1 as <- <-. split; [done|]. intros _. by destruct bg, b. }
  destruct (bg && _) eqn:E2.
  { injection G1 as <- <-. split; [|done]. intros _. apply andb_true_iff in E2 as [E2 _]. subst bg.
    apply andb_true_iff in E2 as [_ E2]. by apply negb_true_iff. }
  apply st_bind_Ok in G1 as ([] & w4 & _ & G1). apply st_bind_Ok in G1 as ([] & w5 & _ & G1). by injection G1 as <- <-.
Qed.

Lemma calls_attempt {A} n (op : ST (work J) (Changes * A)) (b : bool) : halts op → halts_w (attempt_update n op b).
Proof. intros Hop. unfold attempt_update. halts. Qed.
Lemma calls_schedule_due n : halts (schedule_due (J := J) n).
Proof. unfold schedule_due. halts. Qed.
#[local] Hint Resolve calls_attempt calls_schedule_due : halts.

Lemma same_fewer s s' : same s s' → length (others s') = length (others s).
Proof. by intros [_ ->]. Qed.

Lemma update_loop_returns {A} (k : nat) n (op : ST (work J) (Changes * A)) (b : bool) s : halts op → quiet op →
  (length (others s) + (if b then 1 else 2) ≤ k)%nat → total (update_loop k n op b s).2.
Proof.
  intros Hop Hq. revert b s. induction k as [|k IH]; intros b s Hk; [destruct b; lia|]. cbn [update_loop].
  apply halts_at; [done|]. intros [] s1 Ha. injection Ha as <-. set (s1 := mkSys _ _ _ _).
  apply halts_at; [halts|]. intros v s2 Hv. injection Hv as <- _.
  apply halts_at; [halts|]. intros step s3 Hs3.
  assert (same s1 s3) as Hsame.
  { pose proof (moves_with_view same v _ (quiet_attempt n op b Hq) s1) as Hm. by rewrite Hs3 in Hm. }
  assert ((step = Wait A → compaction_stop_ (cont s3) = false) ∧ (step = Offline A → b = false)) as [Hwait Hoff].
  { unfold with_view in Hs3. destruct (attempt_update n op b (mkWork s1 v)) as [w r] eqn:Ha. injection Hs3 as <- ->.
    by apply attempt_wait in Ha. }
  apply same_fewer in Hsame as Hlen. destruct step as [a| | |bg a]; [halts| | |halts].
  - rewrite Hoff in Hk by done. apply halts_at; [halts|]. intros [] s4 Hc. apply IH.
    pose proof (kept_compact (R := fewer) n s3) as Hf. rewrite Hc in Hf. unfold fewer in Hf. simpl in *.
    destruct (others s); simpl in *; lia.
  - apply halts_at; [halts|]. intros [] s4 Hb. apply IH.
    pose proof (kept_backpressure (R := fewer) n s3) as Hf. rewrite Hb in Hf. unfold fewer in Hf. simpl in *.
    destruct (others s) as [|f o] eqn:Ho; simpl in *; [|destruct b; lia].
    destruct (backpressure_alone n s3 s4 tt); [|by apply Hwait|done]. destruct (others s3); [done|simpl in *; lia].
Qed.

Lemma calls_update {A} n (op : ST (work J) (Changes * A)) : halts op → quiet op → halts (update n op).
Proof.
  intros Hop Hq s. unfold update. apply halts_at; [halts|]. intros [] s1 _.
  apply halts_at; [done|]. intros s0 s2 [= <- <-]. by apply update_loop_returns.
Qed.
Lemma calls_update_ n (op : ST (work J) Changes) : halts op → quiet op → halts (update_ n op).
Proof. intros Hop Hq. apply calls_update; [halts|moves]. Qed.

(** ** Operations on paths *)

Lemma calls_read_only {A} n (m : ST (work J) A) : halts m → halts (read_only n m).
Proof. intros Hm. unfold read_only. halts. Qed.
#[local] Hint Resolve calls_read_only : halts.

Ltac updates := halts; first [apply calls_update_|apply calls_update]; [halts|moves].

Lemma calls_mkdir n path m : halts (Files.mkdir (J := J) n path m).
Proof. unfold Files.mkdir. updates. Qed.
Lemma calls_write n path v : halts (Files.write (J := J) n path v).
Proof. unfold Files.write, Files.write_changes, Files.write_target. updates. Qed.
Lemma calls_retire n ch i : halts_w (Files.retire n ch i).
Proof. unfold Files.retire. halts. Qed.
#[local] Hint Resolve calls_retire : halts.
Lemma calls_drop_link n ch i : halts_w (Files.drop_link n ch i).
Proof. unfold Files.drop_link. halts. Qed.
#[local] Hint Resolve calls_drop_link : halts.
Lemma calls_replace_file n path v : halts (Files.replace_file (J := J) n path v).
Proof. unfold Files.replace_file. updates. Qed.
Lemma calls_read n path : halts (Files.read (J := J) n path).
Proof. unfold Files.read. apply calls_read_only. halts. Qed.
Lemma calls_edit_content {A} n path (e : Bytes → result (option Bytes * A)) : (∀ b, total (e b)) →
  halts (Files.edit_content (J := J) n path e).
Proof. intros He. unfold Files.edit_content, Files.edit_changes. updates. Qed.
Lemma calls_write_at n path o v : halts (Files.write_at (J := J) n path o v).
Proof. unfold Files.write_at. halts. apply calls_edit_content. halts. Qed.
Lemma calls_append n path v : halts (Files.append (J := J) n path v).
Proof. unfold Files.append. halts. apply calls_edit_content. intros b. unfold Files.append_edit. halts. Qed.
Lemma calls_truncate n path z : halts (Files.truncate (J := J) n path z).
Proof. unfold Files.truncate. halts. apply calls_edit_content. halts. Qed.
Lemma calls_valid_attributes a : total (Files.valid_attributes a).
Proof. unfold Files.valid_attributes. halts. Qed.
Lemma calls_apply_attributes i a : halts_w (Files.apply_attributes i a).
Proof. unfold Files.apply_attributes. halts. Qed.
#[local] Hint Resolve calls_valid_attributes calls_apply_attributes : halts.
Lemma calls_set_attributes n path a : halts (Files.set_attributes (J := J) n path a).
Proof. unfold Files.set_attributes. updates. Qed.
Lemma calls_symlink n t path : halts (Files.symlink (J := J) n t path).
Proof. unfold Files.symlink. updates. Qed.
Lemma calls_link n a b : halts (Files.link (J := J) n a b).
Proof. unfold Files.link. updates. Qed.
Lemma calls_remove n path d : halts (Files.remove (J := J) n path d).
Proof. unfold Files.remove. updates. Qed.
Lemma calls_touch_all l ch : halts_w (Files.touch_all l ch).
Proof. revert ch. induction l as [|[id i] l IH]; intros ch; simpl; halts. Qed.
#[local] Hint Resolve calls_touch_all : halts.
Lemma calls_displace n id i d p : halts_w (Files.displace n id i d p).
Proof. unfold Files.displace. halts. Qed.
#[local] Hint Resolve calls_displace : halts.
Lemma calls_rename n a b : halts (Files.rename (J := J) n a b).
Proof. unfold Files.rename. updates. Qed.
Lemma calls_initialize n : halts (Worlds.initialize (J := J) n).
Proof. unfold Worlds.initialize. updates. Qed.

(** ** Worlds and the worker *)

Lemma calls_add_objects (j : J) l : total (Worlds.add_objects j l).
Proof. induction l as [|b l IH]; simpl; halts. Qed.
Lemma calls_parent_revision (j : J) w : total (Worlds.parent_revision j w).
Proof. unfold Worlds.parent_revision. halts. Qed.
#[local] Hint Resolve calls_add_objects calls_parent_revision : halts.
Lemma calls_snapshot_manifest n : halts_w (Worlds.snapshot_manifest n).
Proof. unfold Worlds.snapshot_manifest. halts. Qed.
#[local] Hint Resolve calls_snapshot_manifest : halts.
Lemma calls_snapshot n name : halts (Worlds.snapshot (J := J) n name).
Proof. unfold Worlds.snapshot. halts; apply halts_with_view || apply halts_reading; intros; halts. Qed.
Lemma calls_fork n r w : halts (Worlds.fork (J := J) n r w).
Proof. unfold Worlds.fork. halts; apply halts_with_view || apply halts_reading; intros; halts. Qed.

Lemma calls_caught {S A} (m : ST S A) : halts m → halts (Maintenance.caught m).
Proof. intros Hm s. unfold Maintenance.caught. specialize (Hm s). by destruct (m s) as [s' []]. Qed.
Lemma calls_job w : halts (Maintenance.job (J := J) w).
Proof. unfold Maintenance.job. halts. Qed.
#[local] Hint Resolve calls_caught calls_job : halts.
Lemma calls_iteration : halts (Maintenance.iteration (J := J)).
Proof. unfold Maintenance.iteration. halts. Qed.

(** ** Handles *)

Lemma calls_find_handle n tok : halts (find_handle (J := J) n tok).
Proof. unfold find_handle. halts. Qed.
Lemma calls_set_cursor a k : halts (set_cursor (J := J) a k).
Proof. unfold set_cursor. halts. Qed.
Lemma calls_update_handles f : halts (update_handles (J := J) f).
Proof. unfold update_handles. halts. Qed.
Lemma calls_update_counts f : halts (update_counts (J := J) f).
Proof. unfold update_counts. halts. Qed.
#[local] Hint Resolve calls_find_handle calls_set_cursor calls_update_handles calls_update_counts : halts.
Lemma calls_count_up v i : halts (count_up (J := J) v i).
Proof. unfold count_up. halts. Qed.
Lemma calls_count_down v i : halts (count_down (J := J) v i).
Proof. unfold count_down. halts. Qed.
Lemma calls_new_cursor : halts (new_cursor (J := J)).
Proof. unfold new_cursor. halts. Qed.
#[local] Hint Resolve calls_count_up calls_count_down calls_new_cursor : halts.

(** Every attempt at a token uses up entropy. *)
Lemma new_id_attempt_entropy k (w w' : work J) id : new_id_attempt k w = (w', Ok id) →
  (length (entropy (w_sys w')) < length (entropy (w_sys w)))%nat.
Proof.
  revert w. induction k as [|k IH]; intros w; simpl; [done|]. intros (i & w1 & Hr & G1)%st_bind_Ok.
  unfold on_sys, random_hex in Hr. destruct (entropy (w_sys w)) as [|e rest] eqn:He; [done|].
  injection Hr as <- _. set (w1 := mkWork _ _) in *.
  assert (∀ A (m : J → ST NamespaceView.view A) x y r, on_view m x = (y, r) → w_sys y = w_sys x) as Hv.
  { intros A m x y r. unfold on_view. destruct (m _ _). by intros [= <- _]. }
  apply st_bind_Ok in G1 as (c & w2 & H2%Hv & G1). simpl. destruct c; [apply IH in G1; rewrite H2 in G1; simpl in G1; lia|].
  apply st_bind_Ok in G1 as (c & w3 & H3%Hv & G1).
  destruct c; [apply IH in G1; rewrite H3, H2 in G1; simpl in G1; lia|]. injection G1 as <- _. rewrite H3, H2. simpl. lia.
Qed.

Lemma fresh_token_returns k avoid (w : work J) : (length (entropy (w_sys w)) < k)%nat →
  total (fresh_token k avoid w).2.
Proof.
  revert w. induction k as [|k IH]; intros w Hk; [lia|]. cbn [fresh_token].
  apply halts_at; [halts|]. intros tok w1 Hn%new_id_attempt_entropy. apply halts_at; [done|]. intros c w2 [= <- <-].
  destruct (_ || _); [|done]. apply IH. lia.
Qed.
Lemma calls_new_token avoid : halts_w (new_token avoid).
Proof. intros w. unfold new_token. apply halts_at; [done|]. intros w0 w1 [= <- <-]. apply fresh_token_returns. lia. Qed.
#[local] Hint Resolve calls_new_token : halts.

Lemma calls_open_create path o : halts_w (open_create path o).
Proof. unfold open_create. halts. Qed.
#[local] Hint Resolve calls_open_create : halts.
Lemma calls_open_target path o : halts_w (open_target path o).
Proof. unfold open_target. halts. Qed.
#[local] Hint Resolve calls_open_target : halts.
Lemma calls_on_error {S A} (m : ST S A) u : halts m → halts (on_error m u).
Proof. intros Hm s. unfold on_error. specialize (Hm s). by destruct (m s) as [s' []]. Qed.
Lemma calls_open_locked n path a o : halts_w (open_locked n path a o).
Proof. unfold open_locked. halts. apply calls_on_error. halts. Qed.
#[local] Hint Resolve calls_open_locked : halts.
Lemma calls_open n path a o : halts (Handles.open (J := J) n path a o).
Proof. unfold Handles.open. halts. Qed.
Lemma calls_dup n tok : halts (dup (J := J) n tok).
Proof. unfold dup. halts; apply halts_with_view; halts. Qed.
Lemma calls_try_lock_range n tok m a l : halts (try_lock_range (J := J) n tok m a l).
Proof. unfold try_lock_range. halts. Qed.
Lemma calls_handle_linked h : halts_w (handle_linked h).
Proof. unfold handle_linked. halts. Qed.
Lemma calls_handle_inode n h b : halts_w (handle_inode n h b).
Proof. unfold handle_inode. halts. Qed.
Lemma calls_handle_content n h b : halts_w (handle_content n h b).
Proof. unfold handle_content. halts. Qed.
Lemma calls_seek_to b o : total (seek_to b o).
Proof. unfold seek_to. halts. Qed.
#[local] Hint Resolve calls_handle_linked calls_handle_inode calls_handle_content calls_seek_to : halts.
Lemma calls_seek n tok o g : halts (seek (J := J) n tok o g).
Proof. unfold seek. halts; apply halts_with_view; halts. Qed.
Lemma calls_read_locked n h o k : halts (read_handle_locked (J := J) n h o k).
Proof. unfold read_handle_locked. halts; apply halts_with_view; halts. Qed.
#[local] Hint Resolve calls_read_locked : halts.
Lemma calls_handle_read_next n tok k : halts (handle_read_next (J := J) n tok k).
Proof. unfold handle_read_next. halts. Qed.
Lemma calls_handle_read n tok o k : halts (handle_read (J := J) n tok o k).
Proof. unfold handle_read. halts. Qed.
Lemma calls_handle_stat n tok : halts (handle_stat (J := J) n tok).
Proof. unfold handle_stat. halts; apply halts_with_view; halts. Qed.
Lemma calls_edit_handle {A} n tok (e : Cursor → Bytes → bool → result (option Bytes * A)) finish :
  (∀ k b a, total (e k b a)) → (∀ h a, halts (finish h a)) → halts (edit_handle (J := J) n tok e finish).
Proof. intros He Hf. unfold edit_handle. halts; apply halts_with_view; halts. Qed.
Lemma calls_place d a o v : total (place d a o v).
Proof. unfold place. halts. Qed.
#[local] Hint Resolve calls_place : halts.
Lemma calls_handle_write_next n tok v : halts (handle_write_next (J := J) n tok v).
Proof. unfold handle_write_next. halts. apply calls_edit_handle; intros; halts. Qed.
Lemma calls_handle_write n tok o v : halts (handle_write (J := J) n tok o v).
Proof. unfold handle_write. halts. apply calls_edit_handle; intros; halts. Qed.
Lemma calls_handle_append n tok v : halts (handle_append (J := J) n tok v).
Proof. unfold handle_append. halts. apply calls_edit_handle; intros; halts. Qed.
Lemma calls_handle_truncate n tok z : halts (handle_truncate (J := J) n tok z).
Proof. unfold handle_truncate. halts. apply calls_edit_handle; intros; halts. Qed.
Lemma calls_handle_set_attributes n tok a : halts (handle_set_attributes (J := J) n tok a).
Proof. unfold handle_set_attributes. halts; apply halts_with_view; halts. Qed.
Lemma calls_close_counts h : halts (close_counts (J := J) h).
Proof. unfold close_counts. halts. Qed.
#[local] Hint Resolve calls_close_counts : halts.
Lemma calls_close n tok : halts (close (J := J) n tok).
Proof. unfold close. halts. Qed.
End Calls.


