(* ===== verification/GarbageSpec.v ===== *)
(** * Garbage collection of a repository

    [Container::collect_garbage] composed with the LevelDB store: whatever the store, the call
    ends, removes exactly what no name retains, and every version of every namespace that a
    world, a revision or a base leads to reads as before. *)

From S2P Require Import Prelude Codec Treap Journal JournalTransact JournalStore MetadataTree.
From S2P Require Import MetadataTreeProofs MetadataTreeApply Instances LevelStore LevelStoreProofs.
From S2P Require Import LevelStoreTransact LevelStoreSpec Store StoreMemory JournalFacade MetadataView.
From S2P Require Import MetadataViewRuns MetadataViewPlan Container Halts Garbage.
Import Container.
Local Open Scope Z_scope.

Section Level.
Context {db cache : Type} `{LevelDBOk db} `{CacheOk cache} `{DigestOk}.
Implicit Types st : LevelStore.level db cache.
Import LevelStore.

Lemma verify_entries_answers repo s l roots objects :
  answers (db := db) (cache := cache) repo s (verify_entries l roots objects) (λ _, True).
Proof.
  revert roots objects. induction l as [|[k v] l IH]; intros roots objects; cbn [verify_entries]; [by apply answers_ret|].
  destruct (starts_with O_ k); [|destruct (starts_with R_ k)].
  - eapply answers_bind; [apply answers_need|]. intros _ _.
    eapply (answers_bind _ _ _ _ (λ _, True)); [apply answers_lift; [apply level_to_id|done]|]. intros i _.
    eapply answers_bind; [apply answers_need|]. intros _ _. apply IH.
  - eapply (answers_bind _ _ _ _ (λ _, True)); [apply answers_lift; [apply level_to_id|done]|]. intros i _.
    eapply answers_bind; [apply object_answers|]. intros _ _. apply IH.
  - eapply answers_bind; [apply answers_need|]. intros _ _. apply IH.
Qed.

Lemma verify_answers repo s : answers (db := db) (cache := cache) repo s verify (λ _, True).
Proof.
  eapply answers_bind; [apply healthy_answers|]. intros _ _.
  eapply (answers_bind _ _ _ _ (λ _, True)); [by apply answers_gets|]. intros d _.
  destruct (db_iter d []) as [l ist].
  eapply answers_bind; [apply verify_entries_answers|]. intros [roots objects] _.
  eapply (answers_bind _ _ _ _ (λ _, True)); [apply answers_lift; [by destruct ist|done]|]. intros _ _.
  eapply (answers_bind _ _ _ _ (λ _, True)); [by apply answers_get|]. intros st0 _.
  eapply answers_weaken; [apply answers_need|done].
Qed.

Lemma compact_level repo s st :
  level_ok repo s st → level_ok repo s (compact st).1 ∧ total (compact st).2.
Proof.
  intros Hst. unfold compact, mbind, st_bind. pose proof (healthy_answers repo s st Hst) as Hh.
  destruct (healthy st) as [st1 [[]|m|]]; destruct Hh as (Hst1 & _ & Hx); [|done..].
  set (st2 := set_db (db_compact (db_ st1)) st1). change (modify _ st1) with (st2, Ok ()).
  assert (level_ok repo s st2) as Hst2.
  { destruct Hst1 as [G1 G2 G3 G4 G5 G6 G7 [G8 G9] G10]. split; try done. cbn [st2 set_db db_]. by rewrite db_compact_ok. }
  pose proof (verify_answers repo s st2 Hst2) as Hv. cbn beta iota.
  destruct (verify st2) as [st3 [[]|m|]]; by destruct Hv as (? & _ & ?).
Qed.

(** The journal of the container is a LevelDB store that stands for [s]. *)
Definition stores (repo : Bytes) (s : kv) (c : container (backend db cache)) : Prop :=
  ∃ st, journal_ c = LevelBacked st ∧ level_ok repo s st.

(** How a collection may end. *)
Definition collected (repo : Bytes) (s : kv) (r : container (backend db cache) * result Z) : Prop :=
  match r with
  | (c', Ok removed) => ∃ s', swept s s' ∧ stores repo s' c' ∧
      removed = Z.of_nat (size (kv_objects s)) - Z.of_nat (size (kv_objects s'))
  | (c', Err _) => stores repo s c' ∨ ∃ s', swept s s' ∧ (stores repo s' c' ∨
      ∃ st', journal_ c' = LevelBacked st' ∧ poisoned_ st' = true ∧ reopens_as repo [s; s'] st')
  | (_, OutOfFuel) => False
  end.

Lemma collected_need repo s c b msg (m : ST _ Z) :
  stores repo s c → (b = true → collected repo s (m c)) → collected repo s ((st_need b msg;; m) c).
Proof. intros Hc Hm. destruct b; [by apply Hm|by left]. Qed.

Lemma collected_ask {A} repo s c (f : backend db cache → result A) (m : A → ST _ Z) :
  stores repo s c → total (f (journal_ c)) → (∀ a, f (journal_ c) = Ok a → collected repo s (m a c)) →
  collected repo s ((ask f ≫= m) c).
Proof.
  intros Hc Ht Hm. unfold mbind, st_bind, ask. destruct (f (journal_ c)) as [a|e|]; [by apply Hm|by left|done].
Qed.

Lemma verify_total repo s c : stores repo s c → total (j_verify (journal_ c)).
Proof.
  intros (st & -> & Hst). pose proof (verify_answers repo s st Hst) as Hv.
  change (total (verify st).2). destruct (verify st) as [st' [[]|m|]]; by destruct Hv as (_ & _ & ?).
Qed.

(** The sweep of what [mark] returned, then the compaction of the files. *)
Lemma sweep_collected repo s c live obsolete :
  stores repo s c → mark (journal_ c) = Ok (live, obsolete) →
  collected repo s ((removed ← on_journal (j_collect (j_sequence (journal_ c)) live obsolete);
    on_journal j_compact;; mret removed) c).
Proof.
  intros (st & Ej & Hst) Em. assert (stands (journal_ c) s) as Hs by (rewrite Ej; by exists repo).
  destruct (mark_Ok (journal_ c) s Hs live obsolete Em) as (Hlive & Hnd & Hobs).
  pose proof (collect_swept s live obsolete Hlive Hobs) as Hsw.
  pose proof (level_collect repo s st (sequence_ st) live obsolete Hst Hnd (collect_marks s live obsolete Hlive Hobs)) as Ho.
  unfold level_outcome in Ho. rewrite Ej. unfold mbind, st_bind, on_journal. rewrite Ej.
  change (j_collect (j_sequence (LevelBacked st)) live obsolete (LevelBacked st))
    with (JournalFacade.on_level (collect (sequence_ st) live obsolete) st).
  unfold JournalFacade.on_level. destruct (collect (sequence_ st) live obsolete st) as [st1 [removed|m|]]; [| |done].
  - destruct Ho as [(-> & _ & _) Hst1]. cbn [journal_ set_journal].
    change (j_compact (LevelBacked st1)) with (JournalFacade.on_level compact st1). unfold JournalFacade.on_level.
    destruct (compact_level repo _ st1 Hst1) as [Hst2 Ht]. destruct (compact st1) as [st2 [[]|m|]]; [| |done].
    + exists (kv_collect live obsolete s). split_and!; [done|by exists st2|].
      cbn [kv_collect kv_objects]. rewrite live_objects.
      rewrite (filter_keys_size (kv_objects s) (dead_objects live s)); [lia|apply dead_objects_NoDup|].
      intros i Hi. by apply elem_of_dead in Hi as [? _].
    + right. exists (kv_collect live obsolete s). split; [done|]. left. by exists st2.
  - destruct Ho as [Hst1|(Hp & Hk & Hd)]; [left; by exists st1|right].
    exists (kv_collect live obsolete s). split; [done|]. right. exists st1. split_and!; [done|done|].
    destruct (lv_repo _ _ _ Hst) as [Hr _].
    destruct Hd as [Hd|Hd]; eapply reopens_image; try exact Hd; try done; [by destruct Hst|left|right; left].
Qed.

Lemma collect_garbage_collected (repo : Bytes) (s : kv) (c : container (backend db cache)) :
  stores repo s c → collected repo s (collect_garbage c).
Proof.
  intros Hc. pose proof Hc as (st & Ej & Hst). unfold collect_garbage. rewrite (st_bind_run _ _ c c c eq_refl).
  repeat (apply collected_need; [done|intros _]).
  apply collected_ask; [done|by eapply verify_total|]. intros [] _.
  assert (stands (journal_ c) s) as Hs by (rewrite Ej; by exists repo).
  apply collected_ask; [done|by apply (total_mark _ s)|]. intros [live obsolete] Em.
  rewrite (st_bind_run _ _ c c (journal_ c) eq_refl). by apply sweep_collected.
Qed.

(** C15: Safety of [Container::collect_garbage].  On a LevelDB repository that stands for the
    store [s] the call always ends.  When it returns, the repository stands for [s] without
    exactly the objects that no root outside the registry, no world, no revision, no base and
    no tree below them leads to, and without the registry names of those; it returns their
    number.  When it throws, the repository still stands for [s], or for that swept store, or
    refuses further use and reopens as one of the two. *)
Theorem collect_garbage_exact (repo : Bytes) (s : kv) (c : container (backend db cache)) :
  stores repo s c → collected repo s (collect_garbage c).
Proof. intros Hc. by apply collect_garbage_collected. Qed.

(** C16: Versions survive the collection.  Take any manifest that a world, a revision or a
    base leads to, of a tree the store holds.  After a collection that returned, the manifest
    opens, the view reads the same entry under every key and lists the same map, and every
    object the map refers to is read unchanged. *)
Theorem collection_keeps_versions (U : list (Bytes * Id)) (repo : Bytes) (s : kv)
    (c c' : container (backend db cache)) (removed : Z) (idm : Id) (t : tree) :
  collision_free U → entries_ok U → stores repo s c →
  traced s idm 1 → kv_objects s !! idm = Some (MetadataTree.encode_manifest (mid t)) → holds_tree s U t →
  is_Some (to_map t !! NamespaceView.root_key) →
  collect_garbage c = (c', Ok removed) → ready (journal_ c') →
  ∃ v, NamespaceView.of_manifest (journal_ c') idm = Ok v ∧
    (∀ k, (NamespaceView.lookup (journal_ c') k v).2 = Ok (to_map t !! k)) ∧
    (NamespaceView.references (journal_ c') v).2 = Ok (to_map t) ∧
    ∀ k i b, to_map t !! k = Some i → kv_objects s !! i = Some b → get_object (journal_ c') i = Ok b.
Proof.
  intros HU HUok Hc Hm Hb Ht Hroot Hrun Hready.
  pose proof (collect_garbage_collected repo s c Hc) as Ho. rewrite Hrun in Ho.
  destruct Ho as (s' & Hsw & (st' & Ej & Hst') & _).
  assert (stands (journal_ c') s') as Hs' by (rewrite Ej; by exists repo).
  assert (t ≠ Leaf) as Hne by (intros ->; destruct Hroot as [x Hx]; vm_compute in Hx; discriminate).
  destruct (swept_tree s U HU HUok s' idm t Hsw Hm Hb Ht Hne) as (Hb' & Hnodes & Hvals).
  assert (editing (journal_ c') U (MetadataTree.fresh (mid t)) t) as He.
  { destruct Ht. apply (open_editing _ U HU HUok); [|done..]. intros u Hu. eapply exact_object; [done..|]. by apply Hnodes. }
  destruct t as [|l k v r]; [done|].
  destruct (of_manifest_editing (journal_ c') U HU _ idm (exact_object _ _ Hs' Hready _ _ Hb') He) as (w & e & Hw & Et & El & He').
  { apply (mid_nonzero U HU), Ht. } { apply length_object_hash. } { done. }
  exists w. split_and!; [done|..].
  - intros k'. unfold NamespaceView.lookup. rewrite (st_bind_run _ _ _ w w eq_refl), Et.
    destruct (lookup_editing _ U HU e _ k' He') as (e' & E & _). unfold NamespaceView.on_tree. by rewrite E.
  - unfold NamespaceView.references. rewrite (st_bind_run _ _ _ w w eq_refl), Et.
    destruct (entries_editing _ U HU HUok e _ He') as (e' & E & _). unfold NamespaceView.on_tree. by rewrite E.
  - intros k' i b Hi Hib. eapply exact_object; [done..|]. by eapply Hvals.
Qed.
End Level.

(** ** An example repository *)

(** A world of two entries, the registry names of its manifest and of an object nothing leads
    to, in a database and a cache that are finite maps. *)
Definition one : Bytes := bs "one".
Definition two : Bytes := bs "two".
Definition junk : Bytes := bs "junk".
Definition listing : list (Bytes * Id) := [(NamespaceView.root_key, object_hash one); (key_a, object_hash two)].
Definition listing_tree : tree := tset_all MetadataTree.higher_key Leaf ((λ e, (e.1, Some e.2)) <$> listing).
Definition listing_manifest : Bytes := MetadataTree.encode_manifest (mid listing_tree).
Definition by_hash (b : Bytes) : Bytes * Bytes := (object_hash b, b).
Definition littered : kv := mkKv 7
  (list_to_map [(world_prefix ++ bs "main", object_hash listing_manifest);
                (registry_prefix ++ bs "m", object_hash listing_manifest);
                (registry_prefix ++ bs "j", object_hash junk)])
  (list_to_map (by_hash <$> [one; two; junk; listing_manifest] ++ (payload <$> subtrees listing_tree))).
Definition level_of (s : kv) : LevelStore.level (gmap Bytes Bytes) (gmap Bytes Bytes) :=
  LevelStore.mkLevel (image repo0 s) (kv_seq s) (Z.of_nat (size (kv_objects s))) (Z.of_nat (size (kv_roots s))) false
    (hex_id repo0) ∅ UINT64_MAX ∅ LevelStore.default_object_cache_bytes 0 0.
Definition repository_of (s : kv) : container (backend (gmap Bytes Bytes) (gmap Bytes Bytes)) :=
  opened (LevelBacked (level_of s)) (hex_id repo0) false [] 0.

Lemma repository_stores s : kv_okb s = true → stores repo0 s (repository_of s).
Proof.
  intros Hs%kv_okb_ok. eexists. split; [done|]. split; try done.
  split; [|by right]. intros _ key f Hf. cbn [level_of LevelStore.root_cache_] in Hf. by rewrite lookup_empty in Hf.
Qed.

Lemma listing_free : collision_free listing.
Proof. apply collision_free_check. vm_compute. reflexivity. Qed.
Lemma listing_ok : entries_ok listing.
Proof.
  intros k v Hin. unfold listing in Hin.
  repeat (apply elem_of_cons in Hin; destruct Hin as [[= -> ->]|Hin]; [by vm_compute|]). set_solver.
Qed.

Lemma listing_held : holds_tree littered listing listing_tree.
Proof.
  pose proof (treap_tset_all MetadataTree.higher_key Leaf ((λ e, (e.1, Some e.2)) <$> listing)
    (treap_Leaf MetadataTree.higher_key)) as [Hb Hh]. split; [| |done|].
  - apply Forall_forall, (bool_decide_eq_true_1 (Forall (λ u, kv_objects littered !! mid u = Some (payload u)) (subtrees listing_tree))).
    vm_compute. reflexivity.
  - split; [done|]. apply Forall_forall, (bool_decide_eq_true_1 (Forall (λ p, p ∈ listing) (elements_of listing_tree))).
    vm_compute. reflexivity.
  - apply (bool_decide_eq_true_1 (depth listing_tree ≤ 256)%nat). vm_compute. reflexivity.
Qed.

(** The collection removes the one object that nothing leads to. *)
Lemma littered_run : (collect_garbage (repository_of littered)).2 = Ok 1.
Proof. vm_compute. reflexivity. Qed.

Lemma littered_ok : kv_okb littered = true.
Proof. vm_compute. reflexivity. Qed.

Lemma listing_traced : traced littered (object_hash listing_manifest) 1.
Proof.
  apply (traced_entry _ (world_prefix ++ bs "main")); [|vm_compute; discriminate].
  apply entry_world; vm_compute; reflexivity.
Qed.

Lemma repository_ready c : JournalFacade.is_leveldb (journal_ c) = true → ready (J := backend (gmap Bytes Bytes) (gmap Bytes Bytes)) (journal_ c).
Proof. destruct (journal_ c); [done|]. intros _. split; [apply map_responsive|]. intros k. by eexists. Qed.

Lemma collect_garbage_witness :
  (collect_garbage (repository_of littered)).2 = Ok 1 ∧ collected repo0 littered (collect_garbage (repository_of littered)).
Proof.
  split; [exact littered_run|].
  exact (collect_garbage_exact repo0 littered (repository_of littered) (repository_stores littered littered_ok)).
Defined.

Lemma collection_keeps_witness :
  ∃ v, NamespaceView.of_manifest (journal_ (collect_garbage (repository_of littered)).1) (object_hash listing_manifest) = Ok v ∧
    (NamespaceView.lookup (journal_ (collect_garbage (repository_of littered)).1) key_a v).2 = Ok (Some (object_hash two)).
Proof.
  destruct (collection_keeps_versions listing repo0 littered (repository_of littered)
    (collect_garbage (repository_of littered)).1 1 (object_hash listing_manifest) listing_tree) as (v & Hv & Hl & _).
  - exact listing_free.
  - exact listing_ok.
  - exact (repository_stores littered littered_ok).
  - exact listing_traced.
  - vm_compute. reflexivity.
  - exact listing_held.
  - apply (bool_decide_eq_true_1 (is_Some _)). vm_compute. reflexivity.
  - rewrite <- littered_run. apply surjective_pairing.
  - apply repository_ready. vm_compute. reflexivity.
  - exists v. split; [exact Hv|]. rewrite (Hl key_a). vm_compute. reflexivity.
Defined.
