(* ===== verification/CommitSpec.v ===== *)
(** * Commits of a namespace

    What the other worlds and the revisions see of a commit, and what the committing world reads
    after it. *)

From S2P Require Import Prelude Codec Treap Journal JournalTransact JournalStore MetadataTree.
From S2P Require Import MetadataTreeProofs MetadataTreeApply Instances LevelStoreTransact Store StoreMemory.
From S2P Require Import MetadataView MetadataViewRuns MetadataViewProofs MetadataViewPlan MetadataViewSpec.
From S2P Require Import Container Compaction Nodes Namespace Moves Halts Garbage Agrees HaltsOps Commits.
From S2P Require Import GarbageSpec.
Import Namespace.
Local Open Scope Z_scope.

Section Spec.
Context `{DigestOk} {J : Type} `{JournalLike J, !JournalLaws J, !JournalReturns J}.
Implicit Types w : work J.
Abbreviation journal_of w := (Container.journal_ (Container.cont (w_sys w))).

(** The payloads a commit handles: the values of the changes, and the manifest and the objects
    of the plan. *)
Definition commit_payloads (changes : Changes) w : list Bytes :=
  omap snd (in_order changes) ++
  match (NamespaceView.plan (journal_of w) (references_of changes) false (w_view w)).2 with
  | Ok p => NamespaceView.manifest p :: NamespaceView.objects p
  | _ => []
  end.

(** The batch fits the counters of the store, and no two payloads collide under the hash. *)
Definition admissible (n : ns) (changes : Changes) w (s : kv) : Prop :=
  ∀ w1 batch, changes_batch n changes w = (w1, Ok batch) →
    counts_fit (kv_batch batch s) ∧ distinct_hashes (written batch ++ payloads s ++ commit_payloads changes w).

Lemma distinct_sub (l l' : list Bytes) : (∀ b, b ∈ l → b ∈ l') → distinct_hashes l' → distinct_hashes l.
Proof. intros Hl Hd b b' Hb Hb'. by apply Hd; apply Hl. Qed.

(** Changes of entries of a namespace and of orphan records. *)
Definition namespace_changes (changes : Changes) : Prop :=
  ∀ k, is_Some (changes !! k) → starts_with NamespaceView.prefix k = true ∨ orphaned k.

Lemma commit_changes_outcome n changes w s :
  stands (journal_of w) s → admissible n changes w s →
  match commit_changes n changes w with
  | (w', Ok _) => ∃ s', stands (journal_of w') s' ∧ later n changes (NamespaceView.legacy_ (w_view w)) s s'
  | (w', Err _) => stands (journal_of w') s ∨ dead (journal_of w')
  | (_, OutOfFuel) => False
  end.
Proof.
  intros Hs Ha. unfold commit_changes. case_bool_decide; [by exists s|].
  pose proof (ops_changes_batch n changes w) as Hh. pose proof (batch_moves n changes w) as Hm. unfold on_work in Hm.
  unfold mbind, st_bind. destruct (changes_batch n changes w) as [w1 [batch|m|]] eqn:E; [| |done].
  2:{ left. cbn [fst] in Hm. by rewrite <- Hm. }
  destruct (Ha w1 batch E) as [Hfit Hd]. cbn [fst] in Hm.
  assert (stands (journal_of w1) s) as Hs1 by (by rewrite <- Hm).
  pose proof (commit_batch w1 s batch Hs1 Hfit) as Hc.
  destruct (on_sys (Compaction.commit batch) w1) as [w' [[]|m|]]; [|done..].
  exists (kv_batch batch s). split; [apply Hc|]. eapply batch_later; [done..|].
  eapply distinct_sub, Hd. intros b. rewrite !elem_of_app. tauto.
Qed.

Lemma later_extends n changes legacy (j j' : J) s s' :
  stands j s → stands j' s' → ready j' → later n changes legacy s s' → extends j j'.
Proof.
  intros Hs Hs' Hr [Ho _] id b Hb. apply (object_stands _ _ _ _ Hs) in Hb. eapply exact_object; [done..|].
  by eapply lookup_weaken.
Qed.

Lemma world_key_prefix (name : Bytes) : starts_with world_prefix (Compaction.world_key name) = true.
Proof. apply starts_with_spec. exists name. unfold Compaction.world_key, world_prefix. by rewrite <- app_assoc. Qed.
Lemma revision_key_prefix (name : Bytes) : starts_with revision_prefix (NamespaceView.history ++ bs "revision/" ++ name) = true.
Proof. apply starts_with_spec. exists name. unfold revision_prefix. by rewrite <- app_assoc. Qed.

(** The names of revisions and of other worlds are left alone. *)
Lemma untouched_name n changes legacy s k p :
  namespace_changes changes → p = world_prefix ∨ p = revision_prefix → starts_with p k = true → k ≠ world_key n →
  ¬ touches n changes legacy s k.
Proof.
  intros Hc Hp Hk Hne [?|[[Hr _]|[Hm|[Hin _]]]]; [done|..].
  - destruct Hp as [->| ->]; revert Hr Hk; by apply apart_prefixes.
  - destruct Hp as [->| ->]; revert Hm Hk; by apply apart_prefixes.
  - destruct (Hc k Hin) as [Hq|Hq], Hp as [->| ->]; revert Hq Hk; by apply apart_prefixes.
Qed.

(** A world or a revision other than the committed world. *)
Lemma open_other n changes legacy (j j' : J) s s' name (revision validate : bool) v :
  stands j s → stands j' s' → ready j' → later n changes legacy s s' → namespace_changes changes →
  (name, revision) ≠ (view_ n, false) → NamespaceView.open j name revision validate = Ok v → historic v →
  NamespaceView.open j' name revision validate = Ok v.
Proof.
  intros Hs Hs' Hr Hl Hc Hne E Hv. pose proof (later_extends _ _ _ _ _ _ _ Hs Hs' Hr Hl) as Hx.
  assert (∀ k p, p = world_prefix ∨ p = revision_prefix → starts_with p k = true → k ≠ world_key n →
    kv_roots s' !! k = kv_roots s !! k) as Hkeep.
  { intros k p Hp Hk Hn. apply Hl. by eapply untouched_name. }
  unfold NamespaceView.open in *. apply bind_Ok in E as ([] & En & E). rewrite En. cbn [mbind result_bind].
  apply bind_Ok in E as (b & Eb & E).
  assert (∀ nm, revision = false → nm = name →
    kv_roots s' !! Compaction.world_key nm = kv_roots s !! Compaction.world_key nm) as Hworld.
  { intros nm Hrev ->. apply (Hkeep _ world_prefix); [by left|apply world_key_prefix|]. intros Ek.
    unfold world_key, Compaction.world_key in Ek. apply app_inv_head, app_inv_head in Ek. congruence. }
  destruct b; [by injection E as <-|].
  assert ((if bool_decide (name = bs "main") && negb revision
    then c ← j_contains j' (NamespaceView.history ++ bs "world/main"); Ok (negb c) else Ok false) = Ok false) as ->.
  { destruct (bool_decide_reflect (name = bs "main")) as [->|]; [|done]. destruct revision; [done|].
    cbn [andb negb] in Eb |- *. apply bind_Ok in Eb as (c & Ec & [= Ec']%Ok_inj).
    rewrite (exact_contains _ _ Hs' Hr). apply (contains_stands _ _ _ _ Hs) in Ec.
    pose proof (Hworld (bs "main") eq_refl eq_refl) as Hk. unfold Compaction.world_key in Hk.
    change (bs "world/" ++ bs "main") with (bs "world/main") in Hk. rewrite Hk, <- Ec. by destruct c. }
  cbn [mbind result_bind]. apply bind_Ok in E as (idm & Em & E).
  assert ((if revision then
      d ← j_get j' (NamespaceView.history ++ bs "revision/" ++ name);
      need ((len d =? 80) && bytes_eqb (slice 0 8 d) (bs "FFREV001")) "invalid revision record";;
      Ok (slice 8 32 d)
    else j_root j' (NamespaceView.history ++ bs "world/" ++ name)) = Ok idm) as ->.
  { destruct revision.
    - apply bind_Ok in Em as (d & Ed & Em). apply (get_stands _ _ _ _ Hs) in Ed.
      erewrite (answered_ready _ _ _ Hr (stands_get _ _ _ Hs')). unfold kv_get in *.
      rewrite (Hkeep _ revision_prefix); [|by right|apply revision_key_prefix|].
      2:{ intros Ek. pose proof (revision_key_prefix name) as Hp. rewrite Ek in Hp.
          exact (world_revision _ (world_key_prefix (view_ n)) Hp). }
      destruct (kv_roots s !! _) as [i|]; [|done]. cbn [mbind option_bind] in Ed |- *.
      rewrite (lookup_weaken _ _ _ _ Ed (proj1 Hl)). exact Em.
    - apply (root_stands _ _ _ _ Hs) in Em. eapply exact_root; [done..|].
      pose proof (Hworld name eq_refl eq_refl) as Hk. unfold Compaction.world_key in Hk. by rewrite Hk. }
  cbn [mbind result_bind]. by apply (load_later j j' Hx).
Qed.

(** C10: Isolation of worlds and revisions.  A commit of a world always ends.  When it returns,
    the store has lost no object and bound no name but the head of that world, orphan records of
    the change set, registry names that were free and allocation marks; every other world and
    every revision opens as before, and every read through a view of one of them that succeeded
    gives the same answer.  When it throws, the store is as it was or refuses further use. *)
Theorem commits_isolated (n : ns) (changes : Changes) (w : work J) (s : kv) :
  stands (journal_of w) s → admissible n changes w s → namespace_changes changes →
  match commit_changes n changes w with
  | (w', Ok _) =>
      ∃ s', stands (journal_of w') s' ∧ later n changes (NamespaceView.legacy_ (w_view w)) s s' ∧
      (ready (journal_of w') →
       let j := journal_of w in let j' := journal_of w' in
       (∀ name revision validate v, (name, revision) ≠ (view_ n, false) →
          NamespaceView.open j name revision validate = Ok v → historic v →
          NamespaceView.open j' name revision validate = Ok v) ∧
       (∀ k, agrees historic (NamespaceView.get j k) (NamespaceView.get j' k)) ∧
       (∀ p, agrees historic (NamespaceView.keys j p) (NamespaceView.keys j' p)) ∧
       (∀ p a l, agrees historic (NamespaceView.page j p a l) (NamespaceView.page j' p a l)) ∧
       agrees historic (NamespaceView.references j) (NamespaceView.references j'))
  | (w', Err _) => stands (journal_of w') s ∨ dead (journal_of w')
  | (_, OutOfFuel) => False
  end.
Proof.
  intros Hs Ha Hc. pose proof (commit_changes_outcome n changes w s Hs Ha) as Ho.
  destruct (commit_changes n changes w) as [w' [u|m|]]; [|done..]. destruct Ho as (s' & Hs' & Hl).
  exists s'. split_and!; [done..|]. intros Hr. pose proof (later_extends _ _ _ _ _ _ _ Hs Hs' Hr Hl) as Hx. cbv zeta. split_and!.
  - intros name revision validate v. by eapply open_other.
  - intros k. by apply agrees_view_get.
  - intros p. by apply agrees_view_keys.
  - intros p a l. by apply agrees_view_page.
  - by apply agrees_references.
Qed.

(** ** The committing world *)

Section Update.
Context (n : ns) (changes : Changes) (w : work J) (s : kv) (batch : list Journal.Mutation)
  (p : NamespaceView.Plan) (o : gmap Bytes Bytes).
Context (Hs : stands (journal_of w) s) (Hreg : registry_ok s) (Hlegacy : NamespaceView.legacy_ (w_view w) = false).
Context (Hr : replaces n changes w batch p o) (Hnd : NoDup (Journal.m_key <$> batch)).
Context (Hd : distinct_hashes (written batch ++ payloads s ++ commit_payloads changes w)).

Lemma plain_batch : Forall plain batch.
Proof.
  rewrite (rp_batch _ _ _ _ _ _ Hr). apply Forall_forall. intros m [Hm|[Hm| ->%list_elem_of_singleton]%elem_of_app]%elem_of_app;
    [by apply flat_elem in Hm as [? _]|by apply puts_elem in Hm as [? _]|done].
Qed.

Lemma written_stored b : b ∈ written batch → kv_objects (kv_batch batch s) !! object_hash b = Some b.
Proof.
  intros Hb. apply batch_object; [|apply plain_batch|done]. eapply distinct_sub, Hd. intros x. rewrite !elem_of_app. tauto.
Qed.

Lemma stored_kept id b : kv_objects s !! id = Some b → kv_objects (kv_batch batch s) !! id = Some b.
Proof.
  apply batch_keeps; [|intros i v; by apply (stands_hashed _ _ _ _ Hs)]. eapply distinct_sub, Hd. intros x. rewrite !elem_of_app. tauto.
Qed.

Lemma planned_payload b : b = NamespaceView.manifest p ∨ b ∈ NamespaceView.objects p → b ∈ commit_payloads changes w.
Proof.
  intros Hb. destruct (rp_plan _ _ _ _ _ _ Hr Hlegacy) as [v' E]. unfold commit_payloads. rewrite E. cbn [snd].
  apply elem_of_app. right. apply elem_of_cons. naive_solver.
Qed.

(** What the registry has or the batch adds is in the store afterwards. *)
Lemma provided_stored b :
  provided (journal_of w) o b → b ∈ commit_payloads changes w → kv_objects (kv_batch batch s) !! object_hash b = Some b.
Proof.
  intros Hp Hb. destruct Hp as [Hc|(b' & Hb' & Eh)].
  - apply (contains_stands _ _ _ _ Hs) in Hc. symmetry in Hc. apply bool_decide_eq_true in Hc.
    destruct (registered_object s b Hreg) as (b' & Hb' & Eh); [by intros i v; apply (stands_hashed _ _ _ _ Hs)|by intros k i; apply (stands_roots _ _ _ _ Hs)|done|].
    rewrite (Hd b b'); [by rewrite Eh; apply stored_kept|..|done]; rewrite !elem_of_app; [tauto|].
    right. left. by eapply elem_payloads.
  - assert (b' ∈ written batch) as Hw.
    { apply list_elem_of_omap. exists (Compaction.put_mutation (Compaction.object_key (object_hash b)) b'). split; [|done].
      rewrite (rp_batch _ _ _ _ _ _ Hr), !elem_of_app. right. left. apply list_elem_of_fmap.
      exists (Compaction.object_key (object_hash b), b'). split; [done|]. by apply elem_of_in_order. }
    rewrite (Hd b b'); [|rewrite !elem_of_app; tauto..|done]. by apply written_stored.
Qed.

Lemma head_bound : kv_roots (kv_batch batch s) !! world_key n = Some (object_hash (NamespaceView.manifest p)).
Proof.
  rewrite batch_roots. change (world_key n) with (Journal.m_key (Compaction.put_mutation (world_key n) (NamespaceView.manifest p))).
  rewrite elem_targets; [done|done|]. rewrite (rp_batch _ _ _ _ _ _ Hr), !elem_of_app. right. right. left.
Qed.

Lemma registry_kept : registry_ok (kv_batch batch s).
Proof.
  intros id i. rewrite batch_roots. destruct (targets batch !! _) as [v|] eqn:Et; [|by apply Hreg].
  intros ->. apply targets_elem in Et as (m & Hm & Ek & Ev). pose proof (object_key_registered id) as Hk.
  rewrite (rp_batch _ _ _ _ _ _ Hr) in Hm. apply elem_of_app in Hm as [Hm|[Hm| ->%list_elem_of_singleton]%elem_of_app].
  - apply flat_elem in Hm as [_ [Ho _]%list_elem_of_filter]. cbn [fst] in Ho. rewrite Ek in Ho. exfalso.
    revert Ho Hk. by apply apart_prefixes.
  - apply puts_elem in Hm as (Hp & b & Eb & Hb). unfold target in Ev. rewrite Hp, Eb in Ev. cbn in Ev. injection Ev as <-.
    rewrite Ek in Hb. symmetry. apply object_key_inj. destruct (rp_additions _ _ _ _ _ _ Hr _ _ Hb) as [[? _]|[Hx _]]; [done|].
    destruct (registered_not_mark _ Hk Hx).
  - cbn [Compaction.put_mutation Journal.m_key] in Ek. exfalso. rewrite <- Ek in Hk. exact (apart_prefixes registry_prefix world_prefix _ eq_refl eq_refl Hk (world_key_prefix (view_ n))).
Qed.

Lemma orphans_bound k : orphaned k →
  kv_roots (kv_batch batch s) !! k = match changes !! k with Some v => hash_of v | None => kv_roots s !! k end.
Proof.
  intros Hk. rewrite batch_roots. destruct (changes !! k) as [v|] eqn:Ec.
  - change k with (Journal.m_key (Journal.mkMutation k v None)) at 1. rewrite elem_targets; [done|done|].
    rewrite (rp_batch _ _ _ _ _ _ Hr), !elem_of_app. left. apply list_elem_of_fmap. exists (k, v). split; [done|].
    apply list_elem_of_filter. split; [done|]. by apply elem_of_in_order.
  - destruct (targets batch !! k) as [v|] eqn:Et; [exfalso|done]. apply targets_elem in Et as (m & Hm & Ek & _).
    rewrite (rp_batch _ _ _ _ _ _ Hr) in Hm. apply elem_of_app in Hm as [Hm|[Hm| ->%list_elem_of_singleton]%elem_of_app].
    + apply flat_elem in Hm as [_ [_ Hm%elem_of_in_order]%list_elem_of_filter]. congruence.
    + apply puts_elem in Hm as (_ & b & _ & Hb). destruct (rp_additions _ _ _ _ _ _ Hr _ _ Hb) as [[Ex _]|[Hx _]]; rewrite Ek in *.
      * pose proof (object_key_registered (object_hash b)) as Hy. rewrite <- Ex in Hy. revert Hk Hy. by apply apart_prefixes.
      * revert Hk Hx. by apply apart_prefixes.
    + cbn [Compaction.put_mutation Journal.m_key] in Ek. rewrite <- Ek in Hk. exact (apart_prefixes orphan_prefix world_prefix _ eq_refl eq_refl Hk (world_key_prefix (view_ n))).
Qed.
End Update.

(** A commit that returned has replaced the head by the manifest of a plan. *)
Lemma commit_replaces n changes w w' s :
  stands (journal_of w) s → admissible n changes w s → NamespaceView.legacy_ (w_view w) = false →
  references_of changes ≠ ∅ → commit_changes n changes w = (w', Ok tt) →
  ∃ batch p o, replaces n changes w batch p o ∧ NoDup (Journal.m_key <$> batch) ∧
    distinct_hashes (written batch ++ payloads s ++ commit_payloads changes w) ∧ stands (journal_of w') (kv_batch batch s).
Proof.
  intros Hs Ha Hl Hne Hrun. unfold commit_changes in Hrun. rewrite bool_decide_eq_false_2 in Hrun.
  2:{ intros ->. apply Hne. unfold references_of. by rewrite map_filter_empty, fmap_empty. }
  apply st_bind_Ok in Hrun as (batch & w1 & E & Ec). destruct (Ha w1 batch E) as [Hfit Hd].
  apply changes_batch_Ok in E as [Hs1 [[? _]|[[? _]|(_ & p & o & Hr)]]]; [congruence|done|].
  assert (stands (journal_of w1) s) as Hst1 by (by rewrite Hs1).
  pose proof (commit_batch w1 s batch Hst1 Hfit) as Hc. rewrite Ec in Hc. destruct Hc as [Hst' Hnd]. by exists batch, p, o.
Qed.

(** The head of a world opens as its manifest. *)
Lemma open_head (j : J) s name id :
  stands j s → ready j → NamespaceView.valid_name name = Ok tt → kv_roots s !! Compaction.world_key name = Some id →
  NamespaceView.open j name false true = NamespaceView.of_manifest j id.
Proof.
  intros Hs Hr Hn Hk. unfold NamespaceView.open. rewrite Hn. cbn [mbind result_bind negb].
  rewrite (exact_root j s Hs Hr (NamespaceView.history ++ bs "world/" ++ name) id Hk).
  destruct (bool_decide_reflect (name = bs "main")) as [->|]; [|done]. cbn [andb].
  rewrite (exact_contains j s Hs Hr). change (NamespaceView.history ++ bs "world/main") with (Compaction.world_key (bs "main")).
  by rewrite bool_decide_eq_true_2 by by eexists.
Qed.

Lemma lookup_references changes k :
  references_of changes !! k = if bool_decide (orphaned k) then None else hash_of <$> (changes !! k).
Proof.
  unfold references_of. rewrite lookup_fmap, map_lookup_filter. case_bool_decide as Hk.
  - destruct (changes !! k); [|done]. cbn [mbind option_bind fst]. rewrite option_guard_False by tauto. done.
  - destruct (changes !! k); [|done]. cbn [mbind option_bind fst]. by rewrite option_guard_True.
Qed.

(** The update of a map that a commit makes. *)
Lemma commit_updates (n : ns) (changes : Changes) (w w' : work J) (s : kv) (U : list (Bytes * Id))
    (e : MetadataTree.editor) (t : tree) :
  stands (journal_of w) s → admissible n changes w s → registry_ok s → j_leveldb (journal_of w) = true →
  NamespaceView.valid_name (view_ n) = Ok tt → NamespaceView.legacy_ (w_view w) = false →
  collision_free U → entries_ok U → closed_store (journal_of w) U →
  NamespaceView.tree_ (w_view w) = Some e → editing (journal_of w) U e t →
  references_of changes ≠ ∅ → acceptable U t (references_of changes) →
  is_Some (NamespaceView.apply_run (references_of changes) (to_map t) !! NamespaceView.root_key) →
  commit_changes n changes w = (w', Ok tt) → ready (journal_of w') →
  let j' := journal_of w' in
  ∃ s' v e' t', stands j' s' ∧ registry_ok s' ∧ NamespaceView.open j' (view_ n) false true = Ok v ∧
    NamespaceView.tree_ v = Some e' ∧ NamespaceView.legacy_ v = false ∧ editing j' U e' t' ∧
    (∀ k, to_map t' !! k = match references_of changes !! k with Some x => x | None => to_map t !! k end) ∧
    (∀ k b, ¬ orphaned k → changes !! k = Some (Some b) → get_object j' (object_hash b) = Ok b) ∧
    extends (journal_of w) j' ∧
    (∀ k, orphaned k → kv_roots s' !! k = match changes !! k with Some x => hash_of x | None => kv_roots s !! k end).
Proof.
  intros Hs Ha Hreg Hlv Hn Hl HU HUok Hcl Et He Hne Hacc Hroot Hrun Hready j'.
  destruct (commit_replaces n changes w w' s Hs Ha Hl Hne Hrun) as (batch & p & o & Hr & Hnd & Hd & Hs').
  assert (∀ b, provided (journal_of w) o b → b ∈ commit_payloads changes w → get_object j' (object_hash b) = Ok b) as Hget.
  { intros b Hp Hb. eapply exact_object; [done..|]. by apply (provided_stored n changes w s batch p o). }
  assert (publishes (journal_of w) j' p) as Hpub.
  { split.
    - intros id b Hb. eapply exact_object; [done..|]. eapply stored_kept; [done..|]. by eapply object_stands.
    - intros b Hb. apply Hget; [by apply Hr|]. eapply planned_payload; [done..|by right].
    - eapply exact_object; [done..|]. eapply written_stored; [done..|]. apply list_elem_of_omap.
      exists (Compaction.put_mutation (world_key n) (NamespaceView.manifest p)). split; [|done].
      rewrite (rp_batch _ _ _ _ _ _ Hr), !elem_of_app. right. right. left. }
  destruct (rp_plan _ _ _ _ _ _ Hr Hl) as [v1 Hplan].
  destruct (tree_plan_editing (journal_of w) j' U HU HUok Hcl (w_view w) v1 e t _ false p Et Hlv He Hacc Hplan Hpub Hroot)
    as (v & e' & t' & Hopen & Et' & El' & He' & Hmap).
  exists (kv_batch batch s), v, e', t'. split_and!; [done|by eapply registry_kept| |done|done|done|..].
  - rewrite (open_head j' _ _ _ Hs' Hready Hn (head_bound _ _ _ _ _ _ _ Hr Hnd)). exact Hopen.
  - intros k. by rewrite Hmap, lookup_apply_run.
  - intros k b Ho Hk. apply Hget; [by eapply Hr|]. unfold commit_payloads. apply elem_of_app. left. apply list_elem_of_omap.
    exists (k, Some b). split; [by apply elem_of_in_order|done].
  - apply Hpub.
  - intros k. by eapply orphans_bound.
Qed.

(** C9: A commit refines the update of a map.  In a LevelDB repository, when the view of a
    world edits the tree [t] and a commit of a change set returns, the head of the world opens
    as a view that edits a tree of the changed map: every key that was written reads back the
    bytes written, every key that was removed is absent, every other key refers to the object it
    referred to; the orphan records are bound as the change set says, and the registry still
    names the objects it is named after. *)
Theorem commit_refines_update (n : ns) (changes : Changes) (w w' : work J) (s : kv) (U : list (Bytes * Id))
    (e : MetadataTree.editor) (t : tree) :
  stands (journal_of w) s → admissible n changes w s → registry_ok s → j_leveldb (journal_of w) = true →
  NamespaceView.valid_name (view_ n) = Ok tt → NamespaceView.legacy_ (w_view w) = false →
  collision_free U → entries_ok U → closed_store (journal_of w) U →
  NamespaceView.tree_ (w_view w) = Some e → editing (journal_of w) U e t →
  references_of changes ≠ ∅ → acceptable U t (references_of changes) →
  is_Some (NamespaceView.apply_run (references_of changes) (to_map t) !! NamespaceView.root_key) →
  commit_changes n changes w = (w', Ok tt) → ready (journal_of w') →
  let j' := journal_of w' in
  ∃ s' v e' t', stands j' s' ∧ registry_ok s' ∧ NamespaceView.open j' (view_ n) false true = Ok v ∧
    NamespaceView.tree_ v = Some e' ∧ editing j' U e' t' ∧
    (∀ k b, ¬ orphaned k → changes !! k = Some (Some b) → (NamespaceView.get j' k v).2 = Ok b) ∧
    (∀ k, ¬ orphaned k → changes !! k = Some None → (NamespaceView.lookup j' k v).2 = Ok None) ∧
    (∀ k, ¬ orphaned k → changes !! k = None → (NamespaceView.lookup j' k v).2 = Ok (to_map t !! k)) ∧
    (∀ k, orphaned k → kv_roots s' !! k = match changes !! k with Some x => hash_of x | None => kv_roots s !! k end).
Proof.
  intros Hs Ha Hreg Hlv Hn Hl HU HUok Hcl Et He Hne Hacc Hroot Hrun Hready j'.
  destruct (commit_updates n changes w w' s U e t Hs Ha Hreg Hlv Hn Hl HU HUok Hcl Et He Hne Hacc Hroot Hrun Hready)
    as (s' & v & e' & t' & Hs' & Hreg' & Hopen & Et' & _ & He' & Hmap & Hget & _ & Horph). fold j' in Hs', Hopen, He', Hget.
  assert (∀ k, ∃ v2, NamespaceView.lookup j' k v = (v2, Ok (to_map t' !! k))) as Hlook.
  { intros k. unfold NamespaceView.lookup. rewrite (st_bind_run _ _ _ v v eq_refl), Et'.
    destruct (lookup_editing j' U HU e' t' k He') as (e2 & E & _). unfold NamespaceView.on_tree. rewrite E. by eexists. }
  exists s', v, e', t'. split_and!; [done..| | | |done]; intros k.
  - intros b Ho Hk. destruct (Hlook k) as [v2 E]. unfold NamespaceView.get. rewrite (st_bind_run _ _ _ _ _ E), Hmap.
    rewrite lookup_references, bool_decide_eq_false_2, Hk by done. by apply (Hget k).
  - intros Ho Hk. destruct (Hlook k) as [v2 ->]. by rewrite Hmap, lookup_references, bool_decide_eq_false_2, Hk.
  - intros Ho Hk. destruct (Hlook k) as [v2 ->]. by rewrite Hmap, lookup_references, bool_decide_eq_false_2, Hk.
Qed.
End Spec.

(** ** An example commit *)

(** Two worlds that share the tree of the collection example, and a commit to one of them that
    overwrites an entry and records an orphan. *)
Definition three : Bytes := bs "three".
Definition entries3 : list (Bytes * Id) := listing ++ [(key_a, object_hash three)].
Definition shared : kv := mkKv 7
  (list_to_map [(world_prefix ++ bs "main", object_hash listing_manifest);
                (world_prefix ++ bs "side", object_hash listing_manifest);
                (Compaction.object_key (object_hash two), object_hash two)])
  (list_to_map (by_hash <$> [one; two; listing_manifest] ++ (payload <$> subtrees listing_tree))).
Definition shared_journal : memory := mkMemory shared true.
Definition side : ns := mkNs (bs "side") false.
Definition editor3 : MetadataTree.editor := MetadataTree.fresh (mid listing_tree).
Definition side_work : work memory := mkWork
  (Container.mkSys (Container.opened shared_journal [] false [] 0) [] [] [])
  (NamespaceView.mkView (Some editor3) false [] ∅).
Definition orphan0 : Bytes := orphan_prefix ++ bs "x".
Definition edit3 : Changes := {[key_a := Some three; orphan0 := Some one]}.
Definition side_batch : list Journal.Mutation := match (changes_batch side edit3 side_work).2 with Ok b => b | _ => [] end.

Lemma shared_stands : stands shared_journal shared.
Proof. apply memory_stands, kv_okb_ok. vm_compute. reflexivity. Qed.

Lemma distinct_check (l : list Bytes) : separated object_hash (remove_dups l) = true → distinct_hashes l.
Proof. intros Hs b b' Hb Hb'. by apply (separated_inj _ _ _ _ Hs); apply elem_of_remove_dups. Qed.

Lemma side_admissible : admissible side edit3 side_work shared.
Proof.
  intros w1 batch E. assert (batch = side_batch) as -> by (unfold side_batch; by rewrite E). split.
  - split; apply Z.leb_le; vm_compute; reflexivity.
  - apply distinct_check. vm_compute. reflexivity.
Qed.

Lemma edit3_namespace : namespace_changes edit3.
Proof.
  intros k [v Hv]. unfold edit3 in Hv. apply lookup_insert_Some in Hv as [[<- _]|[_ [<- _]%lookup_singleton_Some]];
    [left|right]; vm_compute; reflexivity.
Qed.

Lemma entries3_free : collision_free entries3.
Proof. apply collision_free_check. vm_compute. reflexivity. Qed.
Lemma entries3_ok : entries_ok entries3.
Proof.
  intros k v Hin. unfold entries3, listing in Hin. cbn [app] in Hin.
  repeat (apply elem_of_cons in Hin; destruct Hin as [[= -> ->]|Hin]; [by vm_compute|]). set_solver.
Qed.
Lemma shared_closed : closed_store shared_journal entries3.
Proof. apply closedb_ok. vm_compute. reflexivity. Qed.

Lemma shared_registry : registry_ok shared.
Proof.
  intros id i Hi. assert (map_Forall (λ k i, registered k → k = Compaction.object_key i) (kv_roots shared)) as Hall.
  { apply (bool_decide_eq_true_1 (map_Forall _ (kv_roots shared))). vm_compute. reflexivity. }
  symmetry. apply object_key_inj, (Hall _ _ Hi), object_key_registered.
Qed.

Lemma shared_editing : editing shared_journal entries3 editor3 listing_tree.
Proof.
  pose proof (treap_tset_all MetadataTree.higher_key Leaf ((λ e, (e.1, Some e.2)) <$> listing)
    (treap_Leaf MetadataTree.higher_key)) as [Hb Hh].
  apply (open_editing shared_journal entries3 entries3_free entries3_ok).
  - assert (Forall (λ u, kv_objects shared !! mid u = Some (payload u)) (subtrees listing_tree)) as Hall.
    { apply (bool_decide_eq_true_1 (Forall _ (subtrees listing_tree))). vm_compute. reflexivity. }
    rewrite Forall_forall in Hall. intros u Hu. by apply memory_get, Hall.
  - split; [done|]. apply Forall_forall, (bool_decide_eq_true_1 (Forall (λ p, p ∈ entries3) (elements_of listing_tree))).
    vm_compute. reflexivity.
  - done.
  - apply (bool_decide_eq_true_1 (depth listing_tree ≤ 256)%nat). vm_compute. reflexivity.
Qed.

Lemma side_runs : (commit_changes side edit3 side_work).2 = Ok tt.
Proof. vm_compute. reflexivity. Qed.

Lemma edit3_references : references_of edit3 = {[key_a := Some (object_hash three)]}.
Proof. apply (bool_decide_eq_true_1 (references_of edit3 = _)). vm_compute. reflexivity. Qed.

Lemma edit3_acceptable : acceptable entries3 listing_tree (references_of edit3).
Proof.
  rewrite edit3_references. split_and!; [vm_compute; reflexivity| |right].
  - intros k v [<- [= <-]]%lookup_singleton_Some. unfold entries3. apply elem_of_app. right. left.
  - apply (bool_decide_eq_true_1 (is_Some (to_map listing_tree !! MetadataTree.namespace_root))). vm_compute. reflexivity.
Qed.

Lemma commits_isolated_witness :
  ∃ s', stands (Container.journal_ (Container.cont (w_sys (commit_changes side edit3 side_work).1))) s' ∧
    later side edit3 false shared s'.
Proof.
  pose proof (commits_isolated side edit3 side_work shared shared_stands side_admissible edit3_namespace) as Hc.
  pose proof side_runs as Hr. destruct (commit_changes side edit3 side_work) as [w' [u|m|]]; [|discriminate Hr..].
  destruct Hc as (s' & Hs' & Hl & _). exists s'. split; [exact Hs'|exact Hl].
Defined.

Lemma commit_refines_witness :
  ∃ v, NamespaceView.open (Container.journal_ (Container.cont (w_sys (commit_changes side edit3 side_work).1)))
      (bs "side") false true = Ok v ∧
    (NamespaceView.get (Container.journal_ (Container.cont (w_sys (commit_changes side edit3 side_work).1))) key_a v).2 = Ok three.
Proof.
  destruct (commit_refines_update side edit3 side_work (commit_changes side edit3 side_work).1 shared entries3 editor3
    listing_tree) as (s' & v & e' & t' & _ & _ & Hv & _ & _ & Hw & _).
  - exact shared_stands.
  - exact side_admissible.
  - exact shared_registry.
  - reflexivity.
  - vm_compute. reflexivity.
  - reflexivity.
  - exact entries3_free.
  - exact entries3_ok.
  - exact shared_closed.
  - reflexivity.
  - exact shared_editing.
  - rewrite edit3_references. apply insert_non_empty.
  - exact edit3_acceptable.
  - apply (bool_decide_eq_true_1 (is_Some _)). vm_compute. reflexivity.
  - rewrite <- side_runs. apply surjective_pairing.
  - exact I.
  - exists v. split; [exact Hv|]. apply (Hw key_a three); [intros Ho; vm_compute in Ho; discriminate Ho|vm_compute; reflexivity].
Defined.

(** The other world still reads the old entry. *)
Example side_commit_isolated :
  let j := Container.journal_ (Container.cont (w_sys (commit_changes side edit3 side_work).1)) in
  match NamespaceView.open j (bs "main") false true with Ok v => (NamespaceView.get j key_a v).2 | _ => Err "" end = Ok two.
Proof. vm_compute. reflexivity. Qed.
