(* ===== verification/NodesSpec.v ===== *)
(** * Inode records, paths and file contents

    The inode codec is exact, [components] parses exactly the normal absolute paths, and the
    edits of file contents are those of a byte array with zero fill. *)

From S2P Require Import Prelude Codec Journal JournalRecord MetadataTree Store MetadataView Container Nodes Namespace Files Handles.
Import Nodes.
Local Open Scope Z_scope.

(** ** The inode codec *)

Definition inode_type (n : InodeInfo) : Z := if i_symlink n then 3 else if i_directory n then 2 else 1.

Definition inode_fields (n : InodeInfo) : list Bytes :=
  [bs "FFINOD01"; store (inode_type n) 4; store (i_mode n) 4; store (i_links n) 8; store (i_size n) 8;
   store (i_modified_ns n) 8; store (i_changed_ns n) 8].

Lemma encode_inode_eq n : encode n = concat (inode_fields n).
Proof.
  unfold encode. cbv zeta. change 48%nat with (sum_list [8; 4; 4; 8; 8; 8; 8])%nat.
  rewrite zeros_fields. unfold fmap, list_fmap. fold (inode_type n).
  put_field 0%nat. put_field 1%nat. put_field 2%nat. put_field 3%nat. put_field 4%nat. put_field 5%nat.
  put_field 6%nat. done.
Qed.

Definition is_u64 (z : Z) : Prop := 0 ≤ z ≤ UINT64_MAX.

(** What the source requires of an inode, and the widths of its fields. *)
Definition inode_state (orphan : bool) (n : InodeInfo) : bool :=
  (if orphan then negb (i_directory n) && negb (i_symlink n) && (i_links n =? 0) else 0 <? i_links n)
  && (negb (i_directory n) || ((2 <=? i_links n) && (i_size n =? 0))).

Record inode_ok (orphan : bool) (n : InodeInfo) : Prop := {
  ok_kind : i_directory n && i_symlink n = false;
  ok_mode : 0 ≤ i_mode n ≤ 511;
  ok_links : is_u64 (i_links n);
  ok_size : is_u64 (i_size n);
  ok_modified : is_u64 (i_modified_ns n);
  ok_changed : is_u64 (i_changed_ns n);
  ok_state : inode_state orphan n = true;
}.

Lemma le_field_loads i off (cs : list Bytes) v w : cs !! i = Some (store v w) → off = field_offset i cs →
  0 ≤ v < 256 ^ Z.of_nat w → load (drop off (concat cs)) w = v.
Proof.
  intros Hc Ho Hv. rewrite (drop_field i) by done. rewrite (drop_S cs (store v w) i Hc). simpl. by apply load_store.
Qed.

Ltac get_field i :=
  erewrite (le_field_loads i); [|reflexivity|unfold inode_fields; field_lengths; lia|unfold is_u64, UINT64_MAX in *; lia].

Lemma decode_encode_inode orphan n : inode_ok orphan n → decode_inode (encode n) (i_id n) orphan = Ok n.
Proof.
  intros [Hk Hm Hl Hs Ht Hc Hst]. rewrite encode_inode_eq. unfold decode_inode.
  assert (len (concat (inode_fields n)) = 48) as ->.
  { unfold len, inode_fields. field_lengths. done. }
  rewrite (slice_field 0 0 8 (inode_fields n) (bs "FFINOD01")) by done.
  unfold bytes_eqb. rewrite bool_decide_eq_true_2 by done. cbn [andb need mbind result_bind Z.eqb Pos.eqb].
  assert (1 ≤ inode_type n ≤ 3) as Hty by (unfold inode_type; destruct (i_symlink n), (i_directory n); lia).
  get_field 1%nat. get_field 2%nat. get_field 3%nat. get_field 4%nat. get_field 5%nat. get_field 6%nat.
  cbv zeta. cbn [i_directory i_symlink i_links i_size].
  assert ((inode_type n =? 1) || (inode_type n =? 2) || (inode_type n =? 3) = true) as ->.
  { unfold inode_type. by destruct (i_symlink n), (i_directory n). }
  assert ((inode_type n =? 2) = i_directory n ∧ (inode_type n =? 3) = i_symlink n) as [-> ->].
  { unfold inode_type. by destruct n as [id d m l z mt ct y], d, y. }
  rewrite (proj2 (Z.leb_le _ 511)) by lia. cbn [andb need mbind result_bind].
  unfold inode_state in Hst. rewrite Hst. cbn [need mbind result_bind]. f_equal.
  destruct n; simpl in *. by destruct i_directory, i_symlink.
Qed.

(** A record is the concatenation of its fields. *)
Lemma cut_record b : len b = 48 →
  b = concat [slice 0 8 b; slice 8 4 b; slice 12 4 b; slice 16 8 b; slice 24 8 b; slice 32 8 b; slice 40 8 b].
Proof.
  intros Hb. assert (length b = 48%nat) as Hl by (unfold len in Hb; lia). clear Hb. simpl. rewrite app_nil_r.
  unfold slice. rewrite drop_0. rewrite <- (take_drop 8 b) at 1. f_equal.
  assert (∀ k w, drop k b = take w (drop k b) ++ drop (k + w) b) as Hcut.
  { intros k w. by rewrite <- drop_drop, take_drop. }
  etrans; [exact (Hcut 8 4)%nat|]. f_equal. etrans; [exact (Hcut 12 4)%nat|]. f_equal.
  etrans; [exact (Hcut 16 8)%nat|]. f_equal. etrans; [exact (Hcut 24 8)%nat|]. f_equal.
  etrans; [exact (Hcut 32 8)%nat|]. f_equal. simpl. rewrite take_ge; [done|]. rewrite length_drop. lia.
Qed.

Lemma store_slice b k w : (k + w ≤ length b)%nat → store (load (drop k b) w) w = slice k w b.
Proof. intros Hl. apply store_load. rewrite length_drop. lia. Qed.

Lemma encode_decode_inode orphan b id n : decode_inode b id orphan = Ok n →
  i_id n = id ∧ encode n = b ∧ inode_ok orphan n.
Proof.
  unfold decode_inode. intros [[Hlen%Z.eqb_eq Hmagic%bool_decide_eq_true]%andb_true_iff Hd]%need_bind_Ok.
  cbv zeta in Hd. apply need_bind_Ok in Hd as [[Hty Hmode%Z.leb_le]%andb_true_iff Hd].
  apply need_bind_Ok in Hd as [Hst Hd]. apply Ok_inj in Hd as <-.
  assert (length b = 48%nat) as Hl by (unfold len in Hlen; lia).
  pose proof (load_bound (drop 12 b) 4). pose proof (load_bound (drop 16 b) 8). pose proof (load_bound (drop 24 b) 8).
  pose proof (load_bound (drop 32 b) 8). pose proof (load_bound (drop 40 b) 8).
  set (t := load (drop 8 b) 4) in *.
  assert (t = 1 ∨ t = 2 ∨ t = 3) as Ht.
  { rewrite !orb_true_iff, !Z.eqb_eq in Hty. tauto. }
  split; [done|]. split.
  - rewrite encode_inode_eq. unfold inode_fields, inode_type. cbn [i_symlink i_directory i_mode i_links i_size i_modified_ns i_changed_ns].
    replace (if t =? 3 then 3 else if t =? 2 then 2 else 1) with t by (by destruct Ht as [->|[->| ->]]).
    unfold t. rewrite !store_slice by lia. rewrite <- Hmagic. symmetry. by apply cut_record.
  - unfold is_u64, UINT64_MAX. split; cbn [i_symlink i_directory i_mode i_links i_size i_modified_ns i_changed_ns].
    + by destruct Ht as [->|[->| ->]].
    + lia.
    + unfold is_u64, UINT64_MAX. lia.
    + unfold is_u64, UINT64_MAX. lia.
    + unfold is_u64, UINT64_MAX. lia.
    + unfold is_u64, UINT64_MAX. lia.
    + exact Hst.
Qed.

(** C31: The inode codec is exact: a stored record decodes to an inode exactly when it is the
    encoding of that inode and the inode is well formed (one kind, a mode of nine bits, 64-bit
    fields, and the link counts that its kind and its orphan status require). *)
Theorem inode_codec_exact orphan b n :
  decode_inode b (i_id n) orphan = Ok n ↔ b = encode n ∧ inode_ok orphan n.
Proof.
  split; [|by intros [-> Hok]; apply decode_encode_inode].
  intros (_ & He & Hok)%encode_decode_inode. done.
Qed.

(** ** Paths *)

(** The path of a list of names, without the leading slash, and with it. *)
Fixpoint joined (l : list Bytes) : Bytes :=
  match l with [] => [] | [x] => x | x :: rest => x ++ slash :: joined rest end.
Definition path_of (names : list Bytes) : Bytes := slash :: joined names.

Definition good_name (name : Bytes) : Prop := proper_name name = true ∧ forallb printable name = true ∧ slash ∉ name.

Lemma split_plain n : slash ∉ n → split slash n = [n].
Proof.
  induction n as [|c n IH]; [done|]. intros Hn. simpl. rewrite bool_decide_eq_false_2 by set_solver.
  by rewrite IH by set_solver.
Qed.
Lemma split_cons n s : slash ∉ n → split slash (n ++ slash :: s) = n :: split slash s.
Proof.
  induction n as [|c n IH]; intros Hn; simpl; [done|].
  rewrite bool_decide_eq_false_2 by set_solver. by rewrite IH by set_solver.
Qed.
Lemma split_joined l : l ≠ [] → Forall (λ n, slash ∉ n) l → pieces (joined l) = l.
Proof.
  unfold pieces. induction l as [|n l IH]; [done|]. intros _ [Hn Hl]%Forall_cons. destruct l as [|n' l].
  - by apply split_plain.
  - change (joined (n :: n' :: l)) with (n ++ slash :: joined (n' :: l)). by rewrite split_cons, IH.
Qed.
Lemma joined_split s : joined (pieces s) = s ∧ Forall (λ n, slash ∉ n) (pieces s) ∧ pieces s ≠ [].
Proof.
  unfold pieces. induction s as [|c s (IH1 & IH2 & IH3)]; [by repeat constructor; set_solver|]. simpl.
  destruct (bool_decide_reflect (c = slash)) as [->|Hc].
  - split_and!; [|constructor; [set_solver|done]|done]. destruct (split slash s) as [|n l]; [done|].
    change (joined ([] :: n :: l)) with (slash :: joined (n :: l)). by rewrite IH1.
  - destruct (split slash s) as [|n l]; [done|]. apply Forall_cons in IH2 as [Hn Hl].
    split_and!; [|constructor; [set_solver|done]|done]. rewrite <- IH1. by destruct l.
Qed.

Lemma check_pieces_exact l names :
  check_pieces l = Ok names ↔ names = l ∧ Forall (λ n, proper_name n = true ∧ forallb printable n = true) l.
Proof.
  revert names. induction l as [|n l IH]; intros names; simpl.
  - split; [by intros <-%Ok_inj|by intros [-> _]].
  - split.
    + intros [Hp G]%need_bind_Ok. apply need_bind_Ok in G as [Ha G]. apply need_bind_Ok in G as [_ G].
      apply bind_Ok in G as (ns & [-> Hl]%IH & <-%Ok_inj). auto.
    + intros [-> [[Hp Ha] Hl]%Forall_cons]. rewrite Hp, Ha. simpl. rewrite bool_decide_eq_true_2; simpl.
      * by rewrite (proj2 (IH l) (conj eq_refl Hl)).
      * intros ->. by apply Forall_cons in Hl as [[? _] _].
Qed.

(** C30: Path parsing is exact: [components] accepts a path exactly when it is the slash-separated
    writing of the returned names, at most 4096 bytes, every name being one to 255 printable
    ASCII bytes without a slash and neither dot nor dot-dot; "/" is the empty list.  So parsing
    and printing paths are inverse, and no two paths name the same sequence. *)
Theorem components_exact path names :
  components path = Ok names ↔ path = path_of names ∧ Forall good_name names ∧ len path ≤ 4096.
Proof.
  unfold components. split.
  - intros [[Hh%bool_decide_eq_true Hl%Z.leb_le]%andb_true_iff G]%need_bind_Ok.
    destruct path as [|c path]; [done|]. injection Hh as ->. simpl in G. unfold bytes_eqb in G.
    destruct (bool_decide_reflect (slash :: path = bs "/")) as [E|E].
    + apply Ok_inj in G as <-. injection E as ->. done.
    + apply check_pieces_exact in G as [-> Hp]. destruct (joined_split path) as (Hj & Hs & _).
      unfold path_of. rewrite Hj. split_and!; [done| |done]. rewrite Forall_forall in *.
      intros n Hn. specialize (Hp n Hn). specialize (Hs n Hn). unfold good_name. tauto.
  - intros (-> & Hg & Hl). unfold path_of in *. simpl head. rewrite bool_decide_eq_true_2, (proj2 (Z.leb_le _ _)) by done.
    simpl. unfold bytes_eqb. destruct names as [|n names]; [by rewrite bool_decide_eq_true_2|].
    rewrite bool_decide_eq_false_2.
    2: { intros [= E]. apply Forall_cons in Hg as [[Hp _] _]. destruct n; [done|]. by destruct names. }
    rewrite split_joined by (done || (eapply Forall_impl; [exact Hg|]; by intros ? (_ & _ & ?))).
    apply check_pieces_exact. split; [done|]. eapply Forall_impl; [exact Hg|]. by intros ? (? & ? & _).
Qed.

(** ** File contents *)

Import Files.

(** A byte of a file: zero beyond its end. *)
Definition byte_at (data : Bytes) (i : Z) : byte := if i <? 0 then x00 else default x00 (data !! Z.to_nat i).

Lemma byte_at_resize data n i : 0 ≤ n → byte_at (resize data n) i = if i <? n then byte_at data i else x00.
Proof.
  intros Hn. unfold byte_at, resize. destruct (Z.ltb_spec i 0); [by destruct (i <? n)|].
  rewrite lookup_app. destruct (Z.ltb_spec i n).
  - rewrite lookup_take_lt by lia. destruct (data !! Z.to_nat i) eqn:Hd; [done|].
    simpl. rewrite length_take. unfold zeros. destruct (replicate _ x00 !! _) eqn:Hr; [|done].
    by apply lookup_replicate in Hr as [-> _].
  - rewrite lookup_take_ge by lia. unfold zeros. destruct (replicate _ x00 !! _) eqn:Hr; [|done].
    by apply lookup_replicate in Hr as [-> _].
Qed.
Lemma len_resize data n : 0 ≤ n → len (resize data n) = n.
Proof. intros Hn. unfold len, resize. rewrite length_app, length_take, length_zeros. lia. Qed.

Lemma byte_at_memcpy data at_ v i : 0 ≤ at_ → at_ + len v ≤ len data →
  byte_at (memcpy data (Z.to_nat at_) v) i = if (at_ <=? i) && (i <? at_ + len v) then byte_at v (i - at_) else byte_at data i.
Proof.
  intros Ha Hl. unfold byte_at, memcpy, len in *.
  destruct (Z.ltb_spec i 0).
  { rewrite (proj2 (Z.leb_gt at_ i)) by lia. done. }
  destruct (Z.leb_spec at_ i) as [Hi|Hi]; simpl.
  - rewrite lookup_app_r by (rewrite length_take; lia). rewrite length_take_le by lia.
    destruct (Z.ltb_spec i (at_ + Z.of_nat (length v))).
    + rewrite (proj2 (Z.ltb_ge (i - at_) 0)) by lia. rewrite lookup_app_l by lia. by rewrite Z2Nat.inj_sub by lia.
    + rewrite lookup_app_r by lia. rewrite lookup_drop. do 2 f_equal. lia.
  - by rewrite lookup_app_l, lookup_take_lt by (rewrite ?length_take; lia).
Qed.

Lemma len_memcpy data at_ v : 0 ≤ at_ → at_ + len v ≤ len data → len (memcpy data (Z.to_nat at_) v) = len data.
Proof. intros Ha Hl. unfold len in *. rewrite length_memcpy; lia. Qed.

Lemma overwrite_spec data at_ v : 0 ≤ at_ →
  len (overwrite data at_ v) = Z.max (len data) (at_ + len v) ∧
  ∀ i, byte_at (overwrite data at_ v) i =
       if (at_ <=? i) && (i <? at_ + len v) then byte_at v (i - at_) else byte_at data i.
Proof.
  intros Ha. unfold overwrite. pose proof (len_nonneg v). destruct (Z.ltb_spec (len data) (at_ + len v)) as [Hl|Hl].
  - assert (len (resize data (at_ + len v)) = at_ + len v) as Hr by (apply len_resize; lia).
    split; [rewrite len_memcpy by lia; lia|]. intros i. rewrite byte_at_memcpy by lia.
    destruct (_ && _) eqn:Hi; [done|]. rewrite byte_at_resize by lia.
    destruct (Z.ltb_spec i (at_ + len v)); [done|]. unfold byte_at, len in *. rewrite (proj2 (Z.ltb_ge i 0)) by lia.
    by rewrite lookup_ge_None_2 by lia.
  - split; [rewrite len_memcpy by lia; lia|]. intros i. by apply byte_at_memcpy.
Qed.

Lemma extract_spec data o c : 0 ≤ o → 0 ≤ c →
  len (extract data o c) = Z.max 0 (Z.min c (len data - o)) ∧
  ∀ i, 0 ≤ i < len (extract data o c) → byte_at (extract data o c) i = byte_at data (o + i).
Proof.
  intros Ho Hc. unfold extract. destruct (Z.leb_spec (len data) o); simpl; [split; [unfold len at 1; simpl; lia|]|].
  { intros i. unfold len. simpl. lia. }
  destruct (Z.eqb_spec c 0); simpl; [split; [unfold len at 1; simpl; lia|intros i; unfold len; simpl; lia]|].
  assert (len (slice (Z.to_nat o) (Z.to_nat (Z.min c (len data - o))) data) = Z.min c (len data - o)) as Hl.
  { unfold len in *. rewrite length_slice; lia. }
  split; [lia|]. intros i Hi. rewrite Hl in Hi. unfold byte_at, slice.
  rewrite (proj2 (Z.ltb_ge i 0)), (proj2 (Z.ltb_ge (o + i) 0)) by lia.
  rewrite lookup_take_lt by lia. rewrite lookup_drop. do 2 f_equal. lia.
Qed.

(** The content edits are those of a byte array with zero fill: [truncate] keeps the bytes
    below the size and reads zero above, a write at an offset changes exactly its interval and
    extends the file with zeros when it starts beyond the end, and a read returns the bytes
    from the offset up to the end of the file. *)
Theorem content_edits data at_ v n count i : 0 ≤ at_ → 0 ≤ n → 0 ≤ count →
  (len (resize data n) = n ∧ byte_at (resize data n) i = if i <? n then byte_at data i else x00) ∧
  (len (overwrite data at_ v) = Z.max (len data) (at_ + len v) ∧
   byte_at (overwrite data at_ v) i =
     if (at_ <=? i) && (i <? at_ + len v) then byte_at v (i - at_) else byte_at data i) ∧
  (len (extract data at_ count) = Z.max 0 (Z.min count (len data - at_)) ∧
   (0 ≤ i < len (extract data at_ count) → byte_at (extract data at_ count) i = byte_at data (at_ + i))).
Proof.
  intros Ha Hn Hc. destruct (overwrite_spec data at_ v Ha) as [Hl Hb].
  destruct (extract_spec data at_ count Ha Hc) as [Hl' Hb'].
  split_and!; [by apply len_resize|by apply byte_at_resize|done|apply Hb|done|apply Hb'].
Qed.

(** C32: File positions and sizes stay in range: [seek] returns a position exactly when base and
    offset add up, without wrapping, to a value of the signed 64-bit range, and a write accepted
    by [place] leaves a file of at most 256 KiB. *)
Theorem position_bounds base offset r data append at_ value :
  0 ≤ base ≤ UINT64_MAX → - (INT64_MAX + 1) ≤ offset ≤ INT64_MAX →
  0 ≤ at_ → len data ≤ max_file →
  (Handles.seek_to base offset = Ok r ↔ base ≤ INT64_MAX ∧ r = base + offset ∧ 0 ≤ r ≤ INT64_MAX) ∧
  (∀ a, Handles.place data append at_ value = Ok a →
     a = (if append then len data else at_) ∧ len (overwrite data a value) ≤ max_file).
Proof.
  intros Hb Ho Ha Hd. split.
  - unfold Handles.seek_to. destruct (Z.leb_spec base INT64_MAX); simpl; [|split; [done|lia]].
    destruct (Z.ltb_spec offset 0).
    + destruct (Z.leb_spec (- offset) base); simpl; [|split; [done|lia]].
      split; [intros <-%Ok_inj; lia|]. intros (_ & -> & _). f_equal. lia.
    + destruct (Z.leb_spec offset (INT64_MAX - base)); simpl; [|split; [done|lia]].
      split; [intros <-%Ok_inj; lia|]. by intros (_ & -> & _).
  - intros a. unfold Handles.place. intros [[H1%Z.leb_le H2%Z.leb_le]%andb_true_iff Hr]%need_bind_Ok.
    apply Ok_inj in Hr as <-. split; [done|]. pose proof (len_nonneg data).
    destruct (overwrite_spec data (if append then len data else at_) value) as [-> _]; [by destruct append|]. lia.
Qed.

Lemma content_edits_witness : byte_at (overwrite (bs "ab") 4 (bs "x")) 3 = x00.
Proof.
  destruct (content_edits (bs "ab") 4 (bs "x") 0 0 3) as (_ & [_ Hb] & _); [lia..|]. rewrite Hb. reflexivity.
Defined.

Lemma position_bounds_witness : Handles.seek_to 5 (-3) = Ok 2 ↔ 5 ≤ INT64_MAX ∧ 2 = 5 + -3 ∧ 0 ≤ 2 ≤ INT64_MAX.
Proof.
  apply (position_bounds 5 (-3) 2 (bs "a") false 0 (bs "b")); unfold UINT64_MAX, INT64_MAX, max_file; try lia.
  vm_compute. discriminate.
Defined.
