(* ===== verification/FileChanges.v ===== *)
(** * The changes of the file operations

    What [write] and [edit_content] compute from the records they read, and what a map of records
    is after their changes: [revised F F' id value].  [update_commits] is the update loop with no
    other thread at work, [read_run] and [read_Ok] are [read] on the records. *)

From S2P Require Import Prelude Codec Treap Journal JournalTransact JournalStore MetadataTree.
From S2P Require Import MetadataTreeProofs MetadataTreeApply LevelStoreTransact Store StoreMemory.
From S2P Require Import MetadataView MetadataViewRuns MetadataViewProofs MetadataViewPlan Container.
From S2P Require Import Compaction Maintenance Nodes Namespace Files Moves Halts Garbage Agrees Walks.
From S2P Require Import HaltsOps NamespaceMoves Commits CommitSpec NodesSpec.
Import Nodes Namespace Files.
Local Open Scope Z_scope.

(** ** Operations that only read the journal *)

Section Steady.
Context `{DigestOk} {J : Type} `{JournalLike J, !JournalLaws J}.
Abbreviation journal_of w := (Container.journal_ (Container.cont (w_sys w))).

(** The container and the other threads are left alone, and the clock stays one of 64 bits. *)
Definition steady (s s' : Container.sys J) : Prop :=
  Container.cont s' = Container.cont s ∧ Container.others s' = Container.others s ∧
  (Forall is_u64 (Container.clock s) → Forall is_u64 (Container.clock s')).
#[global] Instance steady_preorder : PreOrder steady.
Proof.
  split; [by intros s|]. intros s1 s2 s3 (? & ? & ?) (? & ? & ?). unfold steady. split_and!; [congruence..|auto].
Qed.

Lemma steady_now : moves steady Container.now.
Proof.
  intros s. unfold steady, Container.now. cbn [fst Container.cont Container.others Container.clock]. split_and!; [done..|].
  destruct (Container.clock s); [done|]. by intros [_ ?]%Forall_cons.
Qed.
Lemma steady_random_hex msg : moves steady (Container.random_hex (J := J) msg).
Proof. intros s. unfold Container.random_hex. by destruct (Container.entropy s). Qed.
#[local] Hint Resolve steady_now steady_random_hex : moves.

Lemma steady_new_id : moves (on_work steady) (new_id (J := J)).
Proof. unfold new_id. generalize 8%nat. intros k. induction k as [|k IH]; cbn [new_id_attempt]; moves. Qed.
#[local] Hint Resolve steady_new_id : moves.

Lemma steady_write_changes path value : moves (on_work steady) (write_changes (J := J) path value).
Proof.
  unfold write_changes, write_target, created, touch, parent, reference, inode, contains, get. moves.
Qed.
Lemma steady_edit_changes {A} path (edit : Bytes → result (option Bytes * A)) :
  moves (on_work steady) (edit_changes (J := J) path edit).
Proof. unfold edit_changes, touch, resolve, inode, get. moves. Qed.
End Steady.

(** ** What the steps of an operation establish *)

Section Facts.
Context `{DigestOk} {J : Type} `{JournalLike J, !JournalLaws J} (j : J).
Context (U : list (Bytes * Id)) (HU : collision_free U) (t : tree).
Abbreviation journal_of w := (Container.journal_ (Container.cont (w_sys w))).
Abbreviation P := (pictures j U t).
Abbreviation F := (record_at j t).
Implicit Types w : work J.

Definition seen w : Prop :=
  journal_of w = j ∧ P (w_view w) ∧ Forall is_u64 (Container.clock (w_sys w)).

Lemma on_view_Ok {A} (m : J → ST NamespaceView.view A) w w' a :
  seen w → on_view m w = (w', Ok a) →
  ∃ v', m j (w_view w) = (v', Ok a) ∧ (P v' → seen w').
Proof.
  intros (Hj & Hv & Hc) E. unfold on_view in E. rewrite Hj in E. destruct (m j (w_view w)) as [v' r].
  injection E as <- ->. exists v'. split; [done|]. by intros ?.
Qed.

Lemma work_inode_Ok id w w' n : seen w → inode id w = (w', Ok n) → seen w' ∧ node_at F id n.
Proof.
  intros Hw E. destruct (on_view_Ok _ _ _ _ Hw E) as (v' & Ev & Hs).
  destruct (inode_Ok j U HU t _ _ _ _ (proj1 (proj2 Hw)) Ev) as [Hv' Hn]. split; [by apply Hs|done].
Qed.
Lemma work_contains_Ok k w w' c : seen w → ¬ marked k → contains k w = (w', Ok c) →
  seen w' ∧ c = bool_decide (is_Some (to_map t !! k)).
Proof.
  intros Hw Hk E. destruct (on_view_Ok _ _ _ _ Hw E) as (v' & Ev & Hs).
  destruct (contains_Ok j U HU t _ _ _ _ (proj1 (proj2 Hw)) Hk Ev) as [Hv' Hc]. split; [by apply Hs|done].
Qed.
Lemma work_reference_Ok k w w' id : seen w → reference k w = (w', Ok id) → seen w' ∧ F k = Some id ∧ valid_id id = true.
Proof.
  intros Hw (b & w1 & E & E')%st_bind_Ok. destruct (on_view_Ok _ _ _ _ Hw E) as (v' & Ev & Hs).
  destruct (get_Ok j U HU t _ _ _ _ (proj1 (proj2 Hw)) Ev) as [Hv' Hb]. unfold lift in E'. injection E' as <- E'.
  apply need_bind_Ok in E' as [Hval <-%Ok_inj]. split_and!; [by apply Hs|done|done].
Qed.
Lemma now_Ok w w' x : seen w → on_sys Container.now w = (w', Ok x) → seen w' ∧ is_u64 x.
Proof.
  intros (Hj & Hv & Hc) E. unfold on_sys, Container.now in E. injection E as <- <-. split.
  - split_and!; [done..|]. cbn. destruct (Container.clock (w_sys w)); [done|]. by apply Forall_cons in Hc as [_ ?].
  - destruct (Container.clock (w_sys w)); cbn; [unfold is_u64, UINT64_MAX; lia|]. by apply Forall_cons in Hc as [? _].
Qed.
Lemma touch_Ok i w w' i' : seen w → touch i w = (w', Ok i') → seen w' ∧ ∃ x, is_u64 x ∧ i' = set_times x x i.
Proof.
  intros Hw (x & w1 & E & E')%st_bind_Ok. destruct (now_Ok _ _ _ Hw E) as [Hw1 Hx]. injection E' as <- <-. eauto.
Qed.
Lemma created_Ok id d m l z y w w' i : seen w → created id d m l z y w = (w', Ok i) →
  seen w' ∧ ∃ a b, is_u64 a ∧ is_u64 b ∧ i = mkInode id d m l z a b y.
Proof.
  intros Hw (a & w1 & E1 & E)%st_bind_Ok. destruct (now_Ok _ _ _ Hw E1) as [Hw1 Ha].
  apply st_bind_Ok in E as (b & w2 & E2 & E). destruct (now_Ok _ _ _ Hw1 E2) as [Hw2 Hb]. injection E as <- <-.
  split; [done|]. by exists a, b.
Qed.

Lemma inode_key_unmarked id : ¬ marked (inode_key id).
Proof.
  intros Hm. refine (apart_prefixes (NamespaceView.prefix ++ bs "allocated/") (NamespaceView.prefix ++ bs "inode/") _ eq_refl eq_refl Hm _).
  apply starts_with_spec. exists id. unfold inode_key, prefix. by rewrite <- app_assoc.
Qed.

(** Any membership test leaves the view at its tree. *)
Lemma contains_pictures k v v' c : P v → NamespaceView.contains j k v = (v', Ok c) → P v'.
Proof.
  intros Hv (a & v1 & E1 & E)%st_bind_Ok. assert (v1 = v) as ->.
  { destruct (starts_with _ k); [|by injection E1 as <-]. apply st_lift_Ok in E1 as (c' & _ & E1).
    destruct c'; [by injection E1 as <-|]. unfold lift in E1. by injection E1 as <-. }
  destruct a; [by injection E as <-|]. destruct (lookup_pictures j U HU t k v Hv) as (v2 & E2 & Hv2).
  rewrite (st_bind_run _ _ _ _ _ E2) in E. by injection E as <-.
Qed.

Lemma new_id_Ok w w' id : seen w → new_id w = (w', Ok id) → seen w' ∧ to_map t !! inode_key id = None.
Proof.
  unfold new_id. generalize 8%nat. intros k. revert w. induction k as [|k IH]; intros w Hw E; [done|].
  cbn [new_id_attempt] in E. apply st_bind_Ok in E as (x & w1 & E1 & E).
  assert (seen w1) as Hw1.
  { destruct Hw as (Hj & Hv & Hc). unfold on_sys, Container.random_hex in E1. destruct (Container.entropy (w_sys w)); by injection E1 as <-. }
  apply st_bind_Ok in E as (a & w2 & E2 & E). destruct (on_view_Ok _ _ _ _ Hw1 E2) as (v2 & Ev & Hs).
  assert (seen w2) as Hw2 by (apply Hs; by eapply contains_pictures; [apply Hw1|]).
  destruct a; [by eapply IH|]. apply st_bind_Ok in E as (u & w3 & E3 & E).
  destruct (work_contains_Ok _ _ _ _ Hw2 (inode_key_unmarked x) E3) as [Hw3 Hu].
  destruct u; [by eapply IH|]. injection E as <- <-. split; [done|]. symmetry in Hu. apply bool_decide_eq_false in Hu.
  by apply eq_None_not_Some.
Qed.

(** On every later version in which the records on the way are of the same kind, the path
    leads to [id]. *)
Definition reaches (path id : Bytes) (p : option Parent) : Prop :=
  ∀ j' t', compatible F (record_at j' t') → (∀ q, p = Some q → arrives j' t' q id) →
    ∀ v', pictures j' U t' v' →
      ∃ v2 x, Nodes.resolve j' path true false v' = (v2, Ok x) ∧ pictures j' U t' v2 ∧ w_id x = id.

Lemma compatible_refl (G : Bytes → option Bytes) : compatible G G.
Proof. split; [done|done|]. intros id n Hn. by exists n. Qed.

Lemma write_target_Ok path w w' p (there : bool) id :
  seen w → write_target path w = (w', Ok (p, there, id)) →
  seen w' ∧
  if there then reaches path id None
  else to_map t !! inode_key id = None ∧ absent j t p ∧ reaches path id (Some p).
Proof.
  intros Hw E. unfold write_target in E. apply st_bind_Ok in E as (p0 & w1 & E1 & E).
  apply st_bind_Ok in E1 as ([p1 stack] & w2 & E1 & E1'). injection E1' as <- <-. cbn [fst] in *.
  destruct (on_view_Ok _ _ _ _ Hw E1) as (v1 & Ev & Hs1).
  pose proof (λ j' t' Hc i, parent_resolves j j' U HU t t' Hc path _ _ _ _ i (proj1 (proj2 Hw)) Ev) as Hpar.
  destruct (Hpar j t (compatible_refl _) []) as (Hv1 & Hkey & Hdir & _). specialize (Hs1 Hv1).
  apply st_bind_Ok in E as (c & w3 & E3 & E).
  destruct (work_contains_Ok (p_key p1) _ _ _ Hs1 ltac:(rewrite Hkey; apply entry_unmarked) E3) as [Hw3 ->].
  case_bool_decide as Hin.
  - apply st_bind_Ok in E as (id0 & w4 & E4 & E). destruct (work_reference_Ok _ _ _ _ Hw3 E4) as (Hw4 & Hid & Hval).
    apply st_bind_Ok in E as (link & w5 & E5 & E). apply st_bind_Ok in E5 as (i0 & w6 & E6 & E5). injection E5 as <- <-.
    destruct (work_inode_Ok _ _ _ _ Hw4 E6) as [Hw6 Hi0]. destruct (i_symlink i0) eqn:Hlink.
    + apply st_bind_Ok in E as (x & w7 & E7 & E). destruct (on_view_Ok _ _ _ _ Hw6 E7) as (v7 & Ev7 & Hs7).
      pose proof (λ j' t' Hc, resolve_ends j j' U HU t t' Hc path true _ _ x (proj1 (proj2 Hw6)) Ev7) as Hres.
      specialize (Hs7 (proj1 (Hres j t (compatible_refl _)))). destruct (w_missing x) as [q|] eqn:Hq.
      * apply st_bind_Ok in E as (id1 & w8 & E8 & E). destruct (new_id_Ok _ _ _ Hs7 E8) as [Hw8 Hnew].
        injection E as <- <- <- <-. split_and!; [done|done| |].
        -- by eapply (resolve_missing j U HU t); [apply Hw6| |].
        -- intros j' t' Hc Harr v' Hv'. destruct (Hres j' t' Hc) as [_ He].
           by apply (proj2 (He v' Hv') q id1 Hq), Harr.
      * injection E as <- <- <- <-. split; [done|]. intros j' t' Hc _ v' Hv'. destruct (Hres j' t' Hc) as [_ He].
        destruct (proj1 (He v' Hv') Hq) as (v2 & E2 & Hv2). by exists v2, x.
    + injection E as <- <- <- <-. split; [done|]. intros j' t' Hc _ v' Hv'.
      destruct (Hpar j' t' Hc id0) as (_ & _ & _ & Hgo). apply Hgo; [|done]. rewrite Hkey in Hid.
      split_and!; [done|rewrite Hkey; by apply (c_entry _ _ Hc)|done|].
      destruct (c_node _ _ Hc _ _ Hi0) as (n' & Hn' & _ & Hy & _). exists n'. split; [done|congruence].
  - apply st_bind_Ok in E as (id0 & w4 & E4 & E). destruct (new_id_Ok _ _ _ Hw3 E4) as [Hw4 Hnew].
    apply st_bind_Ok in E as (link & w5 & E5 & E). injection E5 as <- <-. injection E as <- <- <- <-.
    split_and!; [done|done| |].
    + split_and!; [done|by apply eq_None_not_Some|done].
    + intros j' t' Hc Harr v' Hv'. destruct (Hpar j' t' Hc id0) as (_ & _ & _ & Hgo). apply Hgo; [by apply Harr|done].
Qed.

(** A regular file of the given size, as its record says. *)
Record file (id : Bytes) (size : Z) (i : InodeInfo) : Prop := {
  file_ok : inode_ok false i;
  file_id : i_id i = id;
  file_plain : i_directory i = false ∧ i_symlink i = false;
  file_size : i_size i = size;
}.

Lemma touched_file id (value : Bytes) i x :
  inode_ok false i → i_id i = id → negb (i_directory i) && negb (i_symlink i) = true → len value ≤ max_file → is_u64 x →
  file id (len value) (set_times x x (set_size (len value) i)).
Proof.
  intros [Hk Hm Hl Hs _ _ Hst] Hid [Hd%negb_true_iff Hy%negb_true_iff]%andb_true_iff Hlen Hx. split; [|done..].
  split; cbn; try done.
  - unfold is_u64, UINT64_MAX, max_file, len in *. lia.
  - unfold inode_state in *. cbn [i_directory i_links i_size set_times set_size] in *. rewrite Hd in *. cbn [negb orb] in *. done.
Qed.
Lemma touched_ok i x : inode_ok false i → is_u64 x → inode_ok false (set_times x x i).
Proof. intros [] Hx. by split. Qed.
Lemma node_decoded G id n : node_at G id n → inode_ok false n ∧ i_id n = id.
Proof. intros (b & _ & (Hid & _ & Hok)%encode_decode_inode). done. Qed.
Lemma fresh_file_ok id a b : is_u64 a → is_u64 b → inode_ok false (mkInode id false 420 1 0 a b false).
Proof. intros Ha Hb. split; cbn; try done; unfold is_u64, UINT64_MAX; lia. Qed.

(** The changes of a write to a file that exists, and of one that creates it. *)
Definition rewrites (id value : Bytes) (i : InodeInfo) : Changes :=
  <[content_key id := Some value]> (<[inode_key id := Some (encode i)]> ∅).
Definition creates (p : Parent) (id value : Bytes) (i pn : InodeInfo) : Changes :=
  <[allocated_key id := Some []]> (<[p_key p := Some id]> (<[inode_key (p_id p) := Some (encode pn)]> (rewrites id value i))).

Lemma write_changes_Ok path value w w' changes :
  seen w → len value ≤ max_file → write_changes path value w = (w', Ok changes) →
  seen w' ∧ ∃ id i, file id (len value) i ∧
    ((∃ i0, node_at F id i0 ∧ i_directory i0 = false ∧ i_symlink i0 = false) ∧ changes = rewrites id value i ∧
       reaches path id None ∨
     to_map t !! inode_key id = None ∧ valid_id id = true ∧
       ∃ p pn0 x, absent j t p ∧ node_at F (p_id p) pn0 ∧ is_u64 x ∧
         changes = creates p id value i (set_times x x pn0) ∧ reaches path id (Some p)).
Proof.
  intros Hw Hlen E. unfold write_changes in E. apply st_bind_Ok in E as ([[p there] id] & w1 & E1 & E).
  destruct (write_target_Ok _ _ _ _ _ _ Hw E1) as [Hw1 Htarget]. destruct there.
  - apply st_bind_Ok in E as (i0 & w2 & E2 & E). destruct (work_inode_Ok _ _ _ _ Hw1 E2) as [Hw2 Hi0].
    apply st_need_Ok in E as [Hreg E]. apply st_bind_Ok in E as (i & w3 & E3 & E).
    destruct (touch_Ok _ _ _ _ Hw2 E3) as [Hw3 (x & Hx & ->)]. injection E as <- <-. split; [done|].
    destruct (node_decoded _ _ _ Hi0) as [Hok Hid]. eexists id, _. split; [by apply touched_file|]. left.
    split_and!; [|done|done]. exists i0. apply andb_true_iff in Hreg as [?%negb_true_iff ?%negb_true_iff]. done.
  - destruct Htarget as (Hnew & Habs & Hreach). apply st_bind_Ok in E as (i0 & w2 & E2 & E).
    destruct (created_Ok _ _ _ _ _ _ _ _ _ Hw1 E2) as [Hw2 (a & b & Ha & Hb & ->)].
    apply st_need_Ok in E as [Hreg E]. apply st_bind_Ok in E as (i & w3 & E3 & E).
    destruct (touch_Ok _ _ _ _ Hw2 E3) as [Hw3 (x & Hx & ->)].
    apply st_bind_Ok in E as (pn0 & w4 & E4 & E). destruct (work_inode_Ok _ _ _ _ Hw3 E4) as [Hw4 Hpn].
    apply st_bind_Ok in E as (pn & w5 & E5 & E). destruct (touch_Ok _ _ _ _ Hw4 E5) as [Hw5 (y & Hy & ->)].
    apply st_lift_Ok in E as (r & Hr & E). apply need_bind_Ok in Hr as [Hval <-%Ok_inj]. injection E as <- <-.
    split; [done|]. eexists id, (set_times x x (set_size (len value) (mkInode id false 420 1 0 a b false))).
    split; [by apply touched_file; [apply fresh_file_ok|..]|]. right.
    split_and!; [done|done|]. by exists p, pn0, y.
Qed.

Lemma edit_changes_Ok {A} path (edit : Bytes → result (option Bytes * A)) w w' changes a :
  seen w → (∀ b, F root_key = Some b → no_link j t b) → edit_changes path edit w = (w', Ok (changes, a)) →
  seen w' ∧ ∃ id i0 b edited, reaches path id None ∧ node_at F id i0 ∧ i_directory i0 = false ∧ i_symlink i0 = false ∧
    i_size i0 = len b ∧ F (content_key id) = Some b ∧ edit b = Ok (edited, a) ∧
    match edited with
    | None => changes = ∅
    | Some value => ∃ i, file id (len value) i ∧ changes = rewrites id value i
    end.
Proof.
  intros Hw Hroot (id & w1 & E1 & E)%st_bind_Ok. apply st_bind_Ok in E1 as (x & w2 & E2 & E1). injection E1 as <- <-.
  destruct (on_view_Ok _ _ _ _ Hw E2) as (v2 & Ev & Hs2).
  pose proof (λ j' t' Hc, resolve_ends j j' U HU t t' Hc path false _ _ x (proj1 (proj2 Hw)) Ev) as Hres.
  specialize (Hs2 (proj1 (Hres j t (compatible_refl _)))).
  pose proof (resolve_plain j U HU t path _ _ _ (proj1 (proj2 Hw)) Hroot Ev) as Hplain.
  apply st_bind_Ok in E as (i0 & w3 & E3 & E). destruct (work_inode_Ok _ _ _ _ Hs2 E3) as [Hw3 Hi0].
  apply st_need_Ok in E as [Hd%negb_true_iff E]. apply st_bind_Ok in E as (b & w4 & E4 & E).
  destruct (on_view_Ok _ _ _ _ Hw3 E4) as (v4 & Ev4 & Hs4).
  destruct (get_Ok j U HU t _ _ _ _ (proj1 (proj2 Hw3)) Ev4) as [Hv4 Hb]. specialize (Hs4 Hv4).
  apply st_need_Ok in E as [Hsize%Z.eqb_eq E]. apply st_lift_Ok in E as ([edited a'] & He & E).
  assert (reaches path (w_id x) None) as Hreach.
  { intros j' t' Hc _ v' Hv'. destruct (Hres j' t' Hc) as [_ Hends].
    apply st_lift_Ok in Ev as (names & _ & Ev). apply st_bind_Ok in Ev as (rid & v5 & _ & Ev). apply walk_loop_found in Ev.
    destruct (proj1 (Hends v' Hv') Ev) as (v3 & E5 & Hv3). by exists v3, x. }
  destruct (node_decoded _ _ _ Hi0) as [Hok Hid]. pose proof (Hplain _ Hi0) as Hy. destruct edited as [value|].
  - apply st_need_Ok in E as [Hlen%Z.leb_le E]. apply st_bind_Ok in E as (i & w5 & E5 & E).
    destruct (touch_Ok _ _ _ _ Hs4 E5) as [Hw5 (y & Hy' & ->)]. injection E as <- <- <-. split; [done|].
    exists (w_id x), i0, b, (Some value). split_and!; [done..|]. eexists. split; [|reflexivity].
    apply touched_file; [done|done|by rewrite Hd, Hy|done|done].
  - injection E as <- <- <-. split; [done|]. by exists (w_id x), i0, b, None.
Qed.
End Facts.

(** ** The records after a write *)

Ltac apart_keys :=
  let G := fresh in intros G; unfold root_key, inode_key, content_key, allocated_key, entry_key, directory_prefix, prefix in G;
  rewrite <- ?app_assoc in G; apply app_inv_head in G; discriminate G.

Lemma inode_content a b : inode_key a ≠ content_key b.
Proof. apart_keys. Qed.
Lemma inode_allocated a b : inode_key a ≠ allocated_key b.
Proof. apart_keys. Qed.
Lemma inode_entry a b c : inode_key a ≠ entry_key b c.
Proof. apart_keys. Qed.
Lemma content_allocated a b : content_key a ≠ allocated_key b.
Proof. apart_keys. Qed.
Lemma content_entry a b c : content_key a ≠ entry_key b c.
Proof. apart_keys. Qed.
Lemma entry_allocated a b c : entry_key a b ≠ allocated_key c.
Proof. apart_keys. Qed.
Lemma root_inode a : root_key ≠ inode_key a.
Proof. apart_keys. Qed.
Lemma root_content a : root_key ≠ content_key a.
Proof. apart_keys. Qed.
Lemma root_allocated a : root_key ≠ allocated_key a.
Proof. apart_keys. Qed.
Lemma root_entry a b : root_key ≠ entry_key a b.
Proof. apart_keys. Qed.
Lemma inode_key_inj a b : inode_key a = inode_key b → a = b.
Proof. unfold inode_key. by intros ?%app_inv_head%app_inv_head. Qed.
Lemma content_key_inj a b : content_key a = content_key b → a = b.
Proof. unfold content_key. by intros ?%app_inv_head%app_inv_head. Qed.

Create HintDb keys.
#[local] Hint Resolve inode_content inode_allocated inode_entry content_allocated content_entry entry_allocated
  root_inode root_content root_allocated root_entry : keys.
#[local] Hint Extern 1 (_ ≠ _) => apply not_eq_sym; solve [auto 1 with keys nocore] : keys.

(** Looking up in a change set, by the families of the keys. *)
Ltac at_key := repeat (first [rewrite lookup_insert_eq | rewrite lookup_insert_ne by (first [done | solve [auto 3 with keys]])]); try done.

Section Records.
Context (F F' : Bytes → option Bytes) (changes : gmap Bytes (option Bytes)).

(** The second map is the first with the changes applied, as far as they are read. *)
Definition updates : Prop :=
  (∀ k b, changes !! k = Some (Some b) → F' k = Some b) ∧ (∀ k b, changes !! k = None → F k = Some b → F' k = Some b).

Lemma node_updated id i : updates → changes !! inode_key id = Some (Some (encode i)) → inode_ok false i → i_id i = id → node_at F' id i.
Proof. intros [Hu _] Hk Hok <-. exists (encode i). split; [by apply Hu|]. by apply decode_encode_inode. Qed.

Lemma node_kept id n : updates → changes !! inode_key id = None → node_at F id n → node_at F' id n.
Proof. intros [_ Hu] Hk (b & Hb & Hd). exists b. split; [by apply Hu|done]. Qed.
End Records.

Lemma rewrites_compatible F F' id value size i i0 :
  updates F F' (rewrites id value i) → file id size i →
  node_at F id i0 → i_directory i0 = false → i_symlink i0 = false → compatible F F'.
Proof.
  intros Hu [Hok Hid [Hd Hy] _] Hi0 Hd0 Hy0. pose proof Hu as [_ Hkeep]. unfold rewrites in *. split.
  - intros b. apply Hkeep. at_key.
  - intros p name b. apply Hkeep. at_key.
  - intros id' n Hn. destruct (decide (id' = id)) as [->|Hne].
    + exists i. assert (n = i0) as -> by (destruct Hn as (b & Hb & Hx), Hi0 as (b' & Hb' & Hx'); congruence).
      split_and!; [eapply node_updated; [done|at_key|done|done]|congruence..].
    + exists n. split_and!; [|done|done|].
      * eapply node_kept; [done| |done]. assert (inode_key id ≠ inode_key id') by (by intros ?%inode_key_inj). at_key.
      * intros _. split; [done|]. intros c. apply Hkeep. assert (content_key id ≠ content_key id') by (by intros ?%content_key_inj). at_key.
Qed.

Section Creating.
Context (F F' : Bytes → option Bytes) (p : Parent) (id value : Bytes) (i pn0 : InodeInfo) (size x : Z).
Context (Hu : updates F F' (creates p id value i (set_times x x pn0))) (Hfile : file id size i) (Hx : is_u64 x).
Context (Hkey : p_key p = entry_key (p_id p) (p_name p)) (Hnokey : F (p_key p) = None).
Context (Hnew : F (inode_key id) = None) (Hpn : node_at F (p_id p) pn0).

Lemma parent_differs : id ≠ p_id p.
Proof. intros ->. destruct Hpn as (b & Hb & _). congruence. Qed.

Lemma created_node : node_at F' id i.
Proof.
  destruct Hfile as [Hok Hid _ _]. eapply node_updated; [exact Hu| |done|done]. unfold creates, rewrites. rewrite Hkey.
  assert (inode_key (p_id p) ≠ inode_key id) by (intros E%inode_key_inj; by apply parent_differs). at_key.
Qed.
Lemma created_content : F' (content_key id) = Some value.
Proof. apply (proj1 Hu). unfold creates, rewrites. rewrite Hkey. at_key. Qed.
Lemma created_entry : F' (p_key p) = Some id.
Proof. apply (proj1 Hu). unfold creates, rewrites. rewrite Hkey. at_key. Qed.

Lemma creates_compatible : compatible F F'.
Proof.
  pose proof Hu as [_ Hkeep]. unfold creates, rewrites in Hkeep. rewrite Hkey in Hkeep. split.
  - intros b. apply Hkeep. at_key.
  - intros q name b Hb. apply Hkeep; [|done].
    assert (entry_key (p_id p) (p_name p) ≠ entry_key q name) by (intros E; congruence). at_key.
  - intros id' n Hn. assert (id' ≠ id) as Hid by (intros ->; destruct Hn as (b & Hb & _); congruence).
    assert (content_key id ≠ content_key id') by (by intros ?%content_key_inj).
    assert (inode_key id ≠ inode_key id') by (by intros ?%inode_key_inj).
    destruct (decide (id' = p_id p)) as [->|Hne].
    + assert (n = pn0) as -> by (destruct Hn as (b & Hb & G), Hpn as (b' & Hb' & G'); congruence).
      exists (set_times x x pn0). destruct (node_decoded _ _ _ Hpn) as [Hok Hpid]. split_and!; [|done|done|].
      * eapply node_updated; [exact Hu| |by apply touched_ok|done]. unfold creates, rewrites. rewrite Hkey. at_key.
      * intros _. split; [done|]. intros c. apply Hkeep. at_key.
    + assert (inode_key (p_id p) ≠ inode_key id') by (intros E%inode_key_inj; congruence). exists n. split_and!; [|done|done|].
      * eapply node_kept; [exact Hu| |done]. unfold creates, rewrites. rewrite Hkey. at_key.
      * intros _. split; [done|]. intros c. apply Hkeep. at_key.
Qed.
End Creating.

(** ** The file system after a write *)

(** The second map has the file [id] with the content [value], every path of the first leads
    where it led, and every other file is as it was. *)
Record revised (F F' : Bytes → option Bytes) (id value : Bytes) : Prop := {
  rv_paths : compatible F F';
  rv_file : ∃ i, node_at F' id i ∧ i_directory i = false ∧ i_size i = len value;
  rv_content : F' (content_key id) = Some value;
  rv_others : ∀ id' n c, id' ≠ id → node_at F id' n → i_directory n = false → F (content_key id') = Some c →
    node_at F' id' n ∧ F' (content_key id') = Some c;
}.

Lemma rewrites_revised F F' id value i i0 :
  updates F F' (rewrites id value i) → file id (len value) i →
  node_at F id i0 → i_directory i0 = false → i_symlink i0 = false → revised F F' id value.
Proof.
  intros Hu Hf Hi0 Hd0 Hy0. pose proof Hf as [Hok Hid [Hd _] Hsize]. split.
  - by eapply rewrites_compatible.
  - exists i. split_and!; [|done|done]. eapply node_updated; [done| |done|done]. unfold rewrites. at_key.
  - apply (proj1 Hu). unfold rewrites. at_key.
  - intros id' n c Hne Hn _ Hcont.
    assert (content_key id ≠ content_key id') by (by intros ?%content_key_inj).
    assert (inode_key id ≠ inode_key id') by (by intros ?%inode_key_inj). split.
    + eapply node_kept; [done| |done]. unfold rewrites. at_key.
    + apply (proj2 Hu); [|done]. unfold rewrites. at_key.
Qed.

Lemma creates_revised F F' p id value i pn0 x :
  updates F F' (creates p id value i (set_times x x pn0)) → file id (len value) i → is_u64 x →
  p_key p = entry_key (p_id p) (p_name p) → F (p_key p) = None → F (inode_key id) = None →
  node_at F (p_id p) pn0 → i_directory pn0 = true → revised F F' id value.
Proof.
  intros Hu Hf Hx Hkey Hnokey Hnew Hpn Hpd. pose proof Hf as [_ _ [Hd _] Hsize]. split.
  - by eapply creates_compatible.
  - exists i. split_and!; [by eapply created_node|done|done].
  - by eapply created_content.
  - intros id' n c Hne Hn Hnd Hcont.
    assert (content_key id ≠ content_key id') by (by intros ?%content_key_inj).
    assert (inode_key id ≠ inode_key id') by (by intros ?%inode_key_inj).
    assert (inode_key (p_id p) ≠ inode_key id').
    { intros Eq%inode_key_inj. subst id'. destruct Hn as (b & Hb & G), Hpn as (b' & Hb' & G'). congruence. }
    split.
    + eapply node_kept; [exact Hu| |done]. unfold creates, rewrites. rewrite Hkey. at_key.
    + apply (proj2 Hu); [|done]. unfold creates, rewrites. rewrite Hkey. at_key.
Qed.

(** ** The update loop without interference *)

Section Loop.
Context `{DigestOk} {J : Type} `{JournalLike J, !JournalLaws J}.
Abbreviation journal_of w := (Container.journal_ (Container.cont (w_sys w))).

Lemma schedule_due_Ok (n : ns) (s s' : Container.sys J) u : schedule_due n s = (s', Ok u) →
  Container.journal_ (Container.cont s') = Container.journal_ (Container.cont s) ∧ Container.others s' = Container.others s.
Proof.
  intros (v & s1 & E1 & E)%st_bind_Ok. unfold reading in E1. injection E1 as <- _.
  destruct (_ <=? _); [|by injection E as <-]. unfold Container.locked, modify in E. injection E as <-.
  cbn [Container.cont Container.others]. split; [|done]. unfold Maintenance.schedule_compaction_locked. by case_match.
Qed.

(** One pass: the operation, then the commit of its changes. *)
Lemma update_commits {A} (n : ns) (op : ST (work J) (Changes * A)) (s s' : Container.sys J) v a :
  update n op s = (s', Ok a) → Container.others s = [] →
  NamespaceView.open (Container.journal_ (Container.cont s)) (view_ n) (revision_ n) true = Ok v →
  (∀ w1 r, op (mkWork s v) = (w1, Ok r) →
     Container.others (w_sys w1) = [] ∧ NamespaceView.run_count (w_view w1) = 1) →
  revision_ n = false ∧ ∃ w1 changes, op (mkWork s v) = (w1, Ok (changes, a)) ∧
    (changes = ∅ ∧ s' = w_sys w1 ∨ changes ≠ ∅ ∧ ∃ w2, commit_changes n changes w1 = (w2, Ok tt) ∧
       Container.journal_ (Container.cont s') = journal_of w2 ∧ Container.others s' = []).
Proof.
  intros E Ho Hv Hop. unfold update in E. apply st_need_Ok in E as [Hrev%negb_true_iff E]. split; [done|].
  rewrite (st_bind_run _ _ s s s eq_refl), Ho in E. cbn [length Nat.add update_loop] in E.
  assert (Container.acquire s = (s, Ok tt)) as Hacq by (unfold Container.acquire; destruct s; cbn in *; by rewrite Ho).
  rewrite (st_bind_run _ _ _ _ _ Hacq) in E.
  rewrite (st_bind_run _ _ s s v) in E by (unfold open_view, reading; by rewrite Hv).
  apply st_bind_Ok in E as (step & s1 & E1 & E). unfold with_view in E1.
  destruct (attempt_update n _ false (mkWork s v)) as [wa ra] eqn:Ea. injection E1 as <- ->.
  unfold attempt_update in Ea. apply st_bind_Ok in Ea as ([ch a'] & w1 & E1 & Ea).
  destruct (Hop _ _ E1) as [Ho1 Hr1]. exists w1, ch.
  case_bool_decide as Hne; [injection Ea as <- <-; injection E as <- ->; by split; [|left]|].
  rewrite (st_bind_run _ _ w1 w1 w1 eq_refl) in Ea. cbv zeta in Ea. rewrite Hr1 in Ea.
  change (NamespaceView.soft_run_limit <=? 1) with false in Ea. change (NamespaceView.hard_run_limit <=? 1) with false in Ea.
  rewrite !andb_false_r in Ea. change (1 <? NamespaceView.hard_run_limit) with true in Ea.
  apply st_need_Ok in Ea as [_ Ea]. apply st_bind_Ok in Ea as ([] & w2 & Ec & Ea). injection Ea as <- <-.
  apply st_bind_Ok in E as (u & s2 & Es & E). injection E as <- ->. split; [done|right]. split; [done|]. exists w2. split; [done|].
  pose proof (quiet_commit_changes n ch w1) as Hq. rewrite Ec in Hq. destruct Hq as [_ Hq]. cbn [fst] in Hq. rewrite Ho1 in Hq.
  destruct (_ && _); [|by injection Es as <-]. apply schedule_due_Ok in Es as [-> ->]. done.
Qed.
End Loop.

(** ** Reading *)

(** A reading operation runs on the view that the namespace opens. *)
Lemma read_only_run `{Digest} {J : Type} `{JournalLike J} {A} (n : ns) (s : Container.sys J) v (m : ST (work J) A) :
  Container.others s = [] → NamespaceView.open (Container.journal_ (Container.cont s)) (view_ n) (revision_ n) true = Ok v →
  read_only n m s = with_view v m s.
Proof.
  intros Ho Hopen. unfold read_only.
  rewrite (st_bind_run _ _ s s tt) by (unfold Container.acquire; destruct s; cbn in *; by rewrite Ho).
  by rewrite (st_bind_run _ _ s s v) by (unfold open_view, reading; by rewrite Hopen).
Qed.

Section Reading.
Context `{DigestOk} {J : Type} `{JournalLike J, !JournalLaws J}.
Context (U : list (Bytes * Id)) (HU : collision_free U) (t : tree) (n : ns) (s : Container.sys J) (v : NamespaceView.view).
Abbreviation j := (Container.journal_ (Container.cont s)).
Abbreviation F := (record_at j t).
Context (Ho : Container.others s = []) (Hopen : NamespaceView.open j (view_ n) (revision_ n) true = Ok v) (Hv : pictures j U t v).

(** The path leads to [id]. *)
Definition leads (path id : Bytes) : Prop :=
  ∃ v2 x, Nodes.resolve j path true false v = (v2, Ok x) ∧ pictures j U t v2 ∧ w_id x = id.

(** The inode a path leads to, links followed. *)
Definition file_of (path : Bytes) : result Bytes := (read_only n (resolve path true) s).2.

Lemma file_of_run path id : leads path id → file_of path = Ok id.
Proof.
  intros (v2 & x & E & _ & <-). unfold file_of. rewrite (read_only_run n s v) by done. unfold with_view, resolve.
  rewrite (st_bind_run _ _ _ (mkWork s v2) x); [done|]. unfold on_view. cbn [w_sys w_view]. by rewrite E.
Qed.

Lemma read_run path id i value :
  leads path id → node_at F id i → i_directory i = false → i_size i = len value → F (content_key id) = Some value →
  (read n path s).2 = Ok value.
Proof.
  intros (v2 & x & E & Hv2 & <-) Hi Hd Hsize Hval. unfold read. rewrite (read_only_run n s v) by done. unfold with_view.
  destruct (inode_run j U HU t _ v2 i Hv2 Hi) as (v3 & E3 & Hv3). destruct (get_run j U HU t _ v3 value Hv3 Hval) as (v4 & E4 & Hv4).
  rewrite (st_bind_run _ _ _ (mkWork s v2) (w_id x)).
  2:{ unfold resolve. rewrite (st_bind_run _ _ _ (mkWork s v2) x); [done|]. unfold on_view. cbn [w_sys w_view]. by rewrite E. }
  rewrite (st_bind_run _ _ _ (mkWork s v3) i) by (unfold inode, on_view; cbn [w_sys w_view]; by rewrite E3).
  rewrite (st_bind_run _ _ _ (mkWork s v3) tt) by (unfold st_need, lift; by rewrite Hd).
  rewrite (st_bind_run _ _ _ (mkWork s v4) value) by (unfold get, on_view; cbn [w_sys w_view]; by rewrite E4).
  rewrite (st_bind_run _ _ _ (mkWork s v4) tt); [done|]. unfold st_need, lift. by rewrite Hsize, Z.eqb_refl.
Qed.

Lemma read_Ok path b : (read n path s).2 = Ok b →
  ∃ v2 x i, Nodes.resolve j path true false v = (v2, Ok x) ∧ w_missing x = None ∧ leads path (w_id x) ∧
    node_at F (w_id x) i ∧ i_directory i = false ∧ i_size i = len b ∧ F (content_key (w_id x)) = Some b.
Proof.
  unfold read. rewrite (read_only_run n s v) by done. unfold with_view. case_match eqn:E. cbn [snd]. intros ->.
  apply st_bind_Ok in E as (id & w1 & E1 & E). apply st_bind_Ok in E1 as (x & w2 & E2 & E1). injection E1 as <- <-.
  unfold on_view in E2. cbn [w_sys w_view] in E2. destruct (Nodes.resolve j path true false v) as [v2 r2] eqn:Er. injection E2 as <- ->.
  destruct (resolve_ends j j U HU t t (compatible_refl _) path false _ _ x Hv Er) as [Hv2 _].
  apply st_bind_Ok in E as (i & w3 & E3 & E). unfold inode, on_view in E3. cbn [w_sys w_view] in E3.
  destruct (Nodes.inode j (w_id x) v2) as [v3 r3] eqn:E3'. injection E3 as <- ->.
  destruct (inode_Ok j U HU t _ _ _ _ Hv2 E3') as [Hv3 Hi]. apply st_need_Ok in E as [Hd%negb_true_iff E].
  apply st_bind_Ok in E as (c & w4 & E4 & E). unfold get, on_view in E4. cbn [w_sys w_view] in E4.
  destruct (NamespaceView.get j (content_key (w_id x)) v3) as [v4 r4] eqn:E4'. injection E4 as <- ->.
  destruct (get_Ok j U HU t _ _ _ _ Hv3 E4') as [_ Hc]. apply st_need_Ok in E as [Hs%Z.eqb_eq E]. injection E as _ <-.
  exists v2, x, i. split_and!; [done| |by exists v2, x|done..].
  apply st_lift_Ok in Er as (names & _ & Er). apply st_bind_Ok in Er as (rid & v5 & _ & Er). by eapply walk_loop_found.
Qed.
End Reading.

