(* ===== verification/FilesSpec.v ===== *)
(** * Files through the namespace

    What [Namespace::write] committed is what [Namespace::read] returns: path resolution, the
    inode and content records, the commit and the opening of the new version composed.  The same
    for the operations that edit the content of a file. *)

From S2P Require Import Prelude Codec Treap Journal JournalTransact JournalStore MetadataTree.
From S2P Require Import MetadataTreeProofs MetadataTreeApply Instances LevelStoreTransact Store StoreMemory.
From S2P Require Import MetadataView MetadataViewRuns MetadataViewProofs MetadataViewPlan MetadataViewSpec.
From S2P Require Import Container Compaction Maintenance Nodes Namespace Files Moves Halts Garbage Agrees.
From S2P Require Import Walks HaltsOps NamespaceMoves Commits GarbageSpec CommitSpec NodesSpec FileChanges.
Import Nodes Namespace Files.
Local Open Scope Z_scope.

(** ** Writing and reading back *)

Section WriteRead.
Context `{DigestOk} {J : Type} `{JournalLike J, !JournalLaws J, !JournalReturns J}.
Abbreviation journal_of w := (Container.journal_ (Container.cont (w_sys w))).
Implicit Types σ : Container.sys J.

(** Records of the namespace other than its root. *)
Definition inner_changes (changes : Changes) : Prop :=
  changes ≠ ∅ ∧ changes !! NamespaceView.root_key = None ∧
  ∀ k, is_Some (changes !! k) → starts_with NamespaceView.prefix k = true.

Lemma inner_references changes k : inner_changes changes → references_of changes !! k = hash_of <$> (changes !! k).
Proof.
  intros (_ & _ & Hp). rewrite lookup_references. case_bool_decide as Ho; [|done].
  destruct (changes !! k) as [x|] eqn:Ek; [exfalso|done]. specialize (Hp k (mk_is_Some _ _ Ek)). revert Ho Hp. by apply apart_prefixes.
Qed.
Lemma inner_not_orphan changes k x : inner_changes changes → changes !! k = Some x → ¬ orphaned k.
Proof. intros (_ & _ & Hp) Hk Ho. specialize (Hp k (mk_is_Some _ _ Hk)). revert Ho Hp. by apply apart_prefixes. Qed.

(** The records after a commit are those before it with the changes. *)
Lemma commit_records (n : ns) changes (w w' : work J) (s : kv) (U : list (Bytes * Id)) (t : tree) :
  stands (journal_of w) s → admissible n changes w s → registry_ok s → j_leveldb (journal_of w) = true →
  NamespaceView.valid_name (view_ n) = Ok tt → collision_free U → entries_ok U → closed_store (journal_of w) U →
  pictures (journal_of w) U t (w_view w) → inner_changes changes → acceptable U t (references_of changes) →
  is_Some (to_map t !! NamespaceView.root_key) → commit_changes n changes w = (w', Ok tt) → ready (journal_of w') →
  ∃ v t', NamespaceView.open (journal_of w') (view_ n) false true = Ok v ∧ pictures (journal_of w') U t' v ∧
    updates (record_at (journal_of w) t) (record_at (journal_of w') t') changes.
Proof.
  intros Hs Ha Hreg Hlv Hn HU HUok Hcl (e & Et & El & He) Hin Hacc Hroot Hrun Hready.
  assert (references_of changes ≠ ∅) as Hne.
  { destruct Hin as (Hne & Hin). intros E. apply Hne, map_empty. intros k.
    assert (references_of changes !! k = None) as Ek by (by rewrite E, lookup_empty).
    rewrite (inner_references _ _ (conj Hne Hin)) in Ek. by apply fmap_None in Ek. }
  destruct (commit_updates n changes w w' s U e t Hs Ha Hreg Hlv Hn El HU HUok Hcl Et He Hne Hacc)
    as (s' & v & e' & t' & _ & _ & Hopen & Et' & El' & He' & Hmap & Hget & Hext & _); [|done..|].
  { rewrite lookup_apply_run, (inner_references _ _ Hin), (proj1 (proj2 Hin)). exact Hroot. }
  exists v, t'. split_and!; [done|by exists e'|]. unfold record_at. split; intros k b Hk.
  - rewrite Hmap, (inner_references _ _ Hin), Hk. cbn [fmap option_fmap option_map hash_of mbind option_bind].
    by rewrite (Hget k b (inner_not_orphan _ _ _ Hin Hk) Hk).
  - rewrite Hmap, (inner_references _ _ Hin), Hk. cbn [fmap option_fmap option_map].
    destruct (to_map t !! k) as [i|]; [|done]. cbn [mbind option_bind]. intros Hb.
    destruct (get_object (journal_of w) i) as [x|?|] eqn:Ex; cbn [ok_value] in Hb; [|done..].
    rewrite (Hext _ _ Ex). exact Hb.
Qed.

Lemma inner_insert (k : Bytes) (x : option Bytes) (changes : Changes) :
  k ≠ NamespaceView.root_key → starts_with NamespaceView.prefix k = true →
  (changes = ∅ ∨ inner_changes changes) → inner_changes (<[k := x]> changes).
Proof.
  intros Hk Hp Hc. split_and!; [apply insert_non_empty| |].
  - rewrite lookup_insert_ne by done. destruct Hc as [->|(_ & ? & _)]; [apply lookup_empty|done].
  - intros k' [y Hy]. apply lookup_insert_Some in Hy as [[<- _]|[_ Hy]]; [done|].
    destruct Hc as [->|(_ & _ & Hc)]; [by rewrite lookup_empty in Hy|by apply Hc].
Qed.
Lemma prefixed k rest : k = NamespaceView.prefix ++ rest → starts_with NamespaceView.prefix k = true.
Proof. intros ->. apply starts_with_spec. by exists rest. Qed.

Lemma rewrites_inner id value i : inner_changes (rewrites id value i).
Proof.
  apply inner_insert; [apply not_eq_sym, root_content|by eapply prefixed|right].
  apply inner_insert; [apply not_eq_sym, root_inode|by eapply prefixed|by left].
Qed.
Lemma creates_inner p id value i pn : p_key p = entry_key (p_id p) (p_name p) → inner_changes (creates p id value i pn).
Proof.
  intros Hkey. unfold creates. rewrite Hkey.
  apply inner_insert; [apply not_eq_sym, root_allocated|by eapply prefixed|right].
  apply inner_insert; [apply not_eq_sym, root_entry| |right].
  { unfold entry_key, directory_prefix. rewrite <- !app_assoc. by eapply prefixed. }
  apply inner_insert; [apply not_eq_sym, root_inode|by eapply prefixed|right]. apply rewrites_inner.
Qed.

(** A repository in a LevelDB store whose journal stands for [s], with a world that opens as a
    view of the tree [t], whose root is a directory; the calling thread runs alone. *)
Record settled (n : ns) σ (s : kv) (U : list (Bytes * Id)) (t : tree) (v : NamespaceView.view) : Prop := {
  st_stands : stands (Container.journal_ (Container.cont σ)) s;
  st_registry : registry_ok s;
  st_leveldb : j_leveldb (Container.journal_ (Container.cont σ)) = true;
  st_name : NamespaceView.valid_name (view_ n) = Ok tt;
  st_free : collision_free U;
  st_entries : entries_ok U;
  st_closed : closed_store (Container.journal_ (Container.cont σ)) U;
  st_alone : Container.others σ = [];
  st_clock : Forall is_u64 (Container.clock σ);
  st_open : NamespaceView.open (Container.journal_ (Container.cont σ)) (view_ n) (revision_ n) true = Ok v;
  st_view : pictures (Container.journal_ (Container.cont σ)) U t v;
  st_root : ∃ b i, record_at (Container.journal_ (Container.cont σ)) t root_key = Some b ∧
    node_at (record_at (Container.journal_ (Container.cont σ)) t) b i ∧ i_directory i = true;
}.

Lemma record_missing (j : J) t k : to_map t !! k = None → record_at j t k = None.
Proof. unfold record_at. by intros ->. Qed.

Section Operation.
Context (n : ns) (σ σ' : Container.sys J) (s : kv) (U : list (Bytes * Id)) (t : tree) (v : NamespaceView.view).
Abbreviation jb := (Container.journal_ (Container.cont σ)).
Context (Hst : settled n σ s U t v).

Lemma root_no_link b : record_at jb t root_key = Some b → no_link jb t b.
Proof.
  destruct (st_root _ _ _ _ _ _ Hst) as (b' & i & Hb' & Hi & Hd). rewrite Hb'. intros [= <-].
  eapply node_no_link; [exact Hi|]. destruct (node_decoded _ _ _ Hi) as [[Hk _ _ _ _ _ _] _]. by rewrite Hd in Hk.
Qed.
Lemma root_present : is_Some (to_map t !! NamespaceView.root_key).
Proof. destruct (st_root _ _ _ _ _ _ Hst) as (b & i & Hb & _). by eapply record_contained. Qed.

(** The changes turn the file [id], to which the path leads, into one with the content [value]. *)
Definition edits (changes : Changes) (path id value : Bytes) : Prop :=
  inner_changes changes ∧ ∀ j' t', updates (record_at jb t) (record_at j' t') changes →
    revised (record_at jb t) (record_at j' t') id value ∧
    ∀ v', pictures j' U t' v' → ∃ v2 x, Nodes.resolve j' path true false v' = (v2, Ok x) ∧ pictures j' U t' v2 ∧ w_id x = id.

(** The path reads [value], and the other paths read as before unless they lead to the same file. *)
Definition rewritten (path id value : Bytes) : Prop :=
  (read n path σ').2 = Ok value ∧ file_of n σ' path = Ok id ∧
  ∀ path' id' b, file_of n σ path' = Ok id' → (read n path' σ).2 = Ok b →
    file_of n σ' path' = Ok id' ∧ (read n path' σ').2 = Ok (if bool_decide (id' = id) then value else b).

Lemma revised_reads v' t' path id value :
  Container.others σ' = [] →
  let j' := Container.journal_ (Container.cont σ') in
  NamespaceView.open j' (view_ n) (revision_ n) true = Ok v' → pictures j' U t' v' →
  revised (record_at jb t) (record_at j' t') id value → leads U t' σ' v' path id → rewritten path id value.
Proof.
  intros Ho' j' Hopen' Hv' [Hc (i & Hi & Hd & Hsize) Hval Hoth] Hlead.
  destruct Hst as [_ _ _ _ HU _ _ Ho _ Hopen Hv _].
  split_and!; [by eapply (read_run U HU t' n σ' v')|by eapply (file_of_run U t' n σ' v')|]. intros path' id' b Hid' Hb.
  destruct (read_Ok U HU t n σ v Ho Hopen Hv path' b Hb) as (v2 & x & i' & Er & Hm & Hl & Hi' & Hd' & Hs' & Hb').
  rewrite (file_of_run U t n σ v Ho Hopen path' _ Hl) in Hid'. apply Ok_inj in Hid' as <-.
  destruct (resolve_ends _ _ U HU t t' Hc path' false _ _ x Hv Er) as [_ He].
  destruct (proj1 (He v' Hv') Hm) as (v3 & Er' & Hv3).
  assert (leads U t' σ' v' path' (w_id x)) as Hl' by (by exists v3, x). split; [by eapply (file_of_run U t' n σ' v')|].
  case_bool_decide as Heq.
  - rewrite <- Heq in *. by eapply (read_run U HU t' n σ' v').
  - destruct (Hoth _ _ _ Heq Hi' Hd' Hb') as [Hi2 Hb2]. by eapply (read_run U HU t' n σ' v').
Qed.

(** An update that returned has committed the changes of its operation, if there are any. *)
Lemma update_edits {A} (op : ST (work J) (Changes * A)) a :
  update n op σ = (σ', Ok a) → ready (Container.journal_ (Container.cont σ')) →
  (∀ w r, op (mkWork σ v) = (w, Ok r) → Container.others (w_sys w) = Container.others σ ∧ seen jb U t w) →
  (∀ w changes a, op (mkWork σ v) = (w, Ok (changes, a)) → changes ≠ ∅ →
     admissible n changes w s ∧ acceptable U t (references_of changes)) →
  ∃ w changes, op (mkWork σ v) = (w, Ok (changes, a)) ∧
    (changes = ∅ → σ' = w_sys w) ∧
    (∀ path id value, edits changes path id value → rewritten path id value).
Proof.
  intros E Hready Hrun Hfit. pose proof Hst as [Hs Hreg Hlv Hn HU HUok Hcl Ho Hclk Hopen Hv _].
  destruct (update_commits n op σ σ' v a E Ho Hopen) as (Hrev & w1 & changes & E1 & Hdone).
  { intros w1 r E1. destruct (Hrun _ _ E1) as (Ho1 & _ & (e & Et & _) & _).
    split; [congruence|]. unfold NamespaceView.run_count. by rewrite Et. }
  exists w1, changes. split_and!; [done|naive_solver|]. intros path id value [Hin Hedit].
  destruct (Hrun _ _ E1) as (_ & Hj1 & Hv1 & _). destruct (Hfit _ _ _ E1 (proj1 Hin)) as [Hadm Hacc].
  destruct Hdone as [[-> _]|(_ & w2 & Ec & Hj' & Ho')]; [by destruct Hin|]. rewrite Hj' in Hready.
  destruct (commit_records n changes w1 w2 s U t) as (v' & t' & Hopen' & Hv' & Hupd);
    [by rewrite Hj1|done|done|by rewrite Hj1|done|done|done|by rewrite Hj1|by rewrite Hj1|done|done|exact root_present|done|done|].
  rewrite Hj1 in Hupd. destruct (Hedit _ _ Hupd) as [Hr Hlead]. rewrite <- Hj' in *.
  eapply revised_reads; [done|by rewrite Hrev|done|done|]. by apply Hlead.
Qed.

(** [write] edits the file its path leads to, or creates it. *)
Lemma write_edits path value w changes :
  len value ≤ max_file → write_changes path value (mkWork σ v) = (w, Ok changes) →
  Container.others (w_sys w) = Container.others σ ∧ seen jb U t w ∧ ∃ id, edits changes path id value.
Proof.
  intros Hlen E. pose proof Hst as [_ _ _ _ HU _ _ _ Hclk _ Hv _].
  pose proof (steady_write_changes path value (mkWork σ v)) as Hsteady. rewrite E in Hsteady. split; [apply Hsteady|].
  destruct (write_changes_Ok jb U HU t path value (mkWork σ v) w changes (conj eq_refl (conj Hv Hclk)) Hlen E)
    as (Hseen & id & i & Hfile & [((i0 & Hi0 & Hd0 & Hy0) & -> & Hreach)|
      (Hnew & Hval & p & pn0 & x & (Hkey & Hno & d & Hd & Hdir) & Hpn & Hx & -> & Hreach)]).
  - split; [done|]. exists id. split; [apply rewrites_inner|]. intros j' t' Hupd.
    split; [by eapply rewrites_revised|]. by apply (Hreach j' t'); [eapply rewrites_compatible|].
  - assert (d = pn0) as -> by (destruct Hd as (b & Hb & G), Hpn as (b' & Hb' & G'); congruence).
    split; [done|]. exists id. split; [by apply creates_inner|]. intros j' t' Hupd.
    assert (revised (record_at jb t) (record_at j' t') id value) as Hr
      by (eapply creates_revised; [done..|by apply record_missing|by apply record_missing|done|done]).
    split; [done|]. apply (Hreach j' t'); [apply Hr|]. intros q [= <-]. split_and!; [done|by eapply created_entry|done|].
    exists i. split; [|by apply Hfile]. eapply created_node; [done..|by apply record_missing|done].
Qed.

(** [edit_content] edits the file its path leads to, or leaves it. *)
Lemma edit_edits {A} path (edit : Bytes → result (option Bytes * A)) w changes a :
  edit_changes path edit (mkWork σ v) = (w, Ok (changes, a)) →
  Container.others (w_sys w) = Container.others σ ∧ seen jb U t w ∧
  ∃ b edited, (read n path σ).2 = Ok b ∧ edit b = Ok (edited, a) ∧
    match edited with None => changes = ∅ ∧ Container.cont (w_sys w) = Container.cont σ | Some value => ∃ id, edits changes path id value end.
Proof.
  intros E. pose proof Hst as [_ _ _ _ HU _ _ Ho Hclk Hopen Hv _].
  pose proof (steady_edit_changes path edit (mkWork σ v)) as Hsteady. rewrite E in Hsteady. split; [apply Hsteady|].
  destruct (edit_changes_Ok jb U HU t path edit (mkWork σ v) w changes a (conj eq_refl (conj Hv Hclk)) root_no_link E)
    as (Hseen & id & i0 & b & edited & Hreach & Hi0 & Hd & Hy & Hsize & Hb & He & Hcase).
  split; [done|]. exists b, edited. split_and!; [|done|].
  - eapply (read_run U HU t n σ v); [done|done| |done|done|done|done]. by apply (Hreach jb t); [apply compatible_refl| |].
  - destruct edited as [value|]; [|split; [done|apply Hsteady]]. destruct Hcase as (i & Hfile & ->).
    exists id. split; [apply rewrites_inner|]. intros j' t' Hupd.
    split; [by eapply rewrites_revised|]. by apply (Hreach j' t'); [eapply rewrites_compatible|].
Qed.
End Operation.

(** C11: Writing and reading back.  In a LevelDB repository with no other thread at work, when
    [Namespace::write] returns, the path leads to a file whose content is the bytes written, and
    [Namespace::read] returns them, whether the file existed, was created, or was reached through
    symbolic links.  Every path that could be read before leads to the same inode as before and
    reads as before, except that another name of the written file reads the new bytes. *)
Theorem write_then_read (n : ns) (path value : Bytes) σ σ' (s : kv) (U : list (Bytes * Id)) (t : tree) (v : NamespaceView.view) :
  settled n σ s U t v →
  (∀ w changes, write_changes path value (mkWork σ v) = (w, Ok changes) →
     admissible n changes w s ∧ acceptable U t (references_of changes)) →
  write n path value σ = (σ', Ok tt) → ready (Container.journal_ (Container.cont σ')) →
  (read n path σ').2 = Ok value ∧
  ∃ id, file_of n σ' path = Ok id ∧
    ∀ path' id' b, file_of n σ path' = Ok id' → (read n path' σ).2 = Ok b →
      file_of n σ' path' = Ok id' ∧ (read n path' σ').2 = Ok (if bool_decide (id' = id) then value else b).
Proof.
  intros Hst Hfit [Hlen%Z.leb_le E]%st_need_Ok Hready.
  destruct (update_edits n σ σ' s U t v Hst _ tt E Hready) as (w & changes & E1 & _ & Hdone).
  - intros w r (c & w1 & E1 & Er)%st_bind_Ok. injection Er as <- <-.
    destruct (write_edits n σ s U t v Hst path value _ _ Hlen E1) as (? & ? & _). done.
  - intros w changes [] (c & w1 & E1 & Er)%st_bind_Ok _. injection Er as <- <-. by apply Hfit.
  - apply st_bind_Ok in E1 as (c & w1 & E1 & Er). injection Er as <- <-.
    destruct (write_edits n σ s U t v Hst path value _ _ Hlen E1) as (_ & _ & id & He).
    destruct (Hdone _ _ _ He) as (Hread & Hid & Hoth). split; [done|]. by exists id.
Qed.

(** What [edit_content] does to the content of its file. *)
Lemma edit_reads {A} (n : ns) path (edit : Bytes → result (option Bytes * A)) σ σ' s U t v a b :
  settled n σ s U t v →
  (∀ w changes a, edit_changes path edit (mkWork σ v) = (w, Ok (changes, a)) → changes ≠ ∅ →
     admissible n changes w s ∧ acceptable U t (references_of changes)) →
  (read n path σ).2 = Ok b → edit_content n path edit σ = (σ', Ok a) → ready (Container.journal_ (Container.cont σ')) →
  ∃ edited, edit b = Ok (edited, a) ∧ (read n path σ').2 = Ok (default b edited).
Proof.
  intros Hst Hfit Hb E Hready.
  destruct (update_edits n σ σ' s U t v Hst _ a E Hready) as (w & changes & E1 & Hsame & Hdone); [|done|].
  - intros w [c a'] E1. destruct (edit_edits n σ s U t v Hst path edit _ _ _ E1) as (? & ? & _). done.
  - destruct (edit_edits n σ s U t v Hst path edit _ _ _ E1) as (Ho & _ & b' & edited & Hb' & He & Hcase).
    rewrite Hb in Hb'. apply Ok_inj in Hb' as <-. exists edited. split; [done|]. destruct edited as [value|].
    + destruct Hcase as [id Hed]. apply (Hdone _ _ _ Hed).
    + destruct Hcase as [Hemp Hcont]. rewrite (Hsame Hemp). destruct Hst as [_ _ _ _ HU _ _ Ha _ Hopen Hv _].
      destruct (read_Ok U HU t n σ v Ha Hopen Hv path b Hb) as (v2 & x & i & Er & _ & Hl & Hi & Hd & Hs & Hc).
      eapply (read_run U HU t n (w_sys w) v); rewrite ?Hcont; [congruence|done| |done..].
      unfold leads in *. by rewrite Hcont.
Qed.

(** The changes of an edit fit the store and the universe of entries. *)
Definition fits {A} (n : ns) σ (s : kv) (U : list (Bytes * Id)) (t : tree) (v : NamespaceView.view) (path : Bytes)
    (edit : Bytes → result (option Bytes * A)) : Prop :=
  ∀ w changes a, edit_changes path edit (mkWork σ v) = (w, Ok (changes, a)) → changes ≠ ∅ →
    admissible n changes w s ∧ acceptable U t (references_of changes).

(** C12: Editing content.  In a LevelDB repository with no other thread at work, for a file that
    reads [b]: after [append] returned, the file reads [b] followed by the bytes, and the returned
    offset is the old length; after [write_at] it reads [b] with the bytes at the offset, grown
    with zeros where needed, and [b] itself when there were no bytes; after [truncate] it reads
    the first bytes of [b], or [b] and zeros up to the size. *)
Theorem edits_then_read (n : ns) (path b : Bytes) σ σ' (s : kv) (U : list (Bytes * Id)) (t : tree) (v : NamespaceView.view) :
  settled n σ s U t v → (read n path σ).2 = Ok b → ready (Container.journal_ (Container.cont σ')) →
  (∀ value at_, fits n σ s U t v path (append_edit value) → append n path value σ = (σ', Ok at_) →
     at_ = len b ∧ (read n path σ').2 = Ok (b ++ value)) ∧
  (∀ offset value, fits n σ s U t v path (write_at_edit offset value) → write_at n path offset value σ = (σ', Ok tt) →
     (read n path σ').2 = Ok (if bool_decide (value = []) then b else overwrite b offset value)) ∧
  (∀ size, fits n σ s U t v path (truncate_edit size) → truncate n path size σ = (σ', Ok tt) →
     (read n path σ').2 = Ok (resize b size)).
Proof.
  intros Hst Hb Hready. split_and!.
  - intros value at_ Hfit [_ E]%st_need_Ok. destruct (edit_reads n path _ σ σ' s U t v at_ b Hst Hfit Hb E Hready) as (ed & He & ->).
    apply need_bind_Ok in He as [_ He]. injection He as <- <-. split; [done|]. case_bool_decide as Hv; [|done].
    by rewrite Hv, app_nil_r.
  - intros offset value Hfit [_ [_ E]%st_need_Ok]%st_need_Ok.
    destruct (edit_reads n path _ σ σ' s U t v tt b Hst Hfit Hb E Hready) as (ed & He & ->). injection He as <-. by case_bool_decide.
  - intros size Hfit [_ E]%st_need_Ok.
    destruct (edit_reads n path _ σ σ' s U t v tt b Hst Hfit Hb E Hready) as (ed & He & ->). injection He as <-.
    destruct (Z.eqb_spec (len b) size) as [<-|]; [|done]. cbn [default]. unfold resize, len.
    rewrite Nat2Z.id, Nat.sub_diag, take_ge by done. by rewrite app_nil_r.
Qed.
End WriteRead.

(** ** An example

    A world whose root directory has one file, which is written. *)

Definition ok_or {A} (d : A) (r : result A) : A := match r with Ok a => a | _ => d end.
Definition root_id : Bytes := hex_id (replicate 16 (z2b 1)).
Definition root_inode_ : InodeInfo := mkInode root_id true 493 2 0 0 0 false.
Definition file_id_ : Bytes := hex_id (replicate 16 (z2b 2)).
Definition file_inode_ : InodeInfo := mkInode file_id_ false 420 1 2 0 0 false.
Definition base : list (Bytes * Bytes) :=
  [(NamespaceView.root_key, root_id); (inode_key root_id, encode root_inode_); (entry_key root_id (bs "f"), file_id_);
   (inode_key file_id_, encode file_inode_); (content_key file_id_, bs "hi")].
Definition base_refs : list (Bytes * Id) := prod_map id object_hash <$> base.
Definition base_tree : tree := tset_all MetadataTree.higher_key Leaf ((λ e, (e.1, Some e.2)) <$> base_refs).
Definition base_manifest : Bytes := MetadataTree.encode_manifest (mid base_tree).
Definition base_kv : kv := mkKv 5
  (list_to_map [(world_prefix ++ bs "main", object_hash base_manifest)])
  (list_to_map (by_hash <$> base.*2 ++ base_manifest :: (payload <$> subtrees base_tree))).
Definition base_sys : Container.sys memory := Container.mkSys
  (Container.opened (mkMemory base_kv true) [] false [] 0) [] [] [].
Definition main_world : ns := mkNs (bs "main") false.
Definition base_view : NamespaceView.view :=
  ok_or NamespaceView.unloaded (NamespaceView.open (mkMemory base_kv true) (bs "main") false true).
Definition hello : Bytes := bs "yo".
Definition hello_path : Bytes := bs "/f".
Definition hello_run : work memory * result Changes := write_changes hello_path hello (mkWork base_sys base_view).
Definition hello_changes : Changes := ok_or ∅ hello_run.2.
Definition hello_entries : list (Bytes * Id) :=
  remove_dups (base_refs ++ omap (λ '(k, x), pair k <$> x) (in_order (references_of hello_changes))).


Lemma hello_universe : collision_free hello_entries ∧ closed_store (mkMemory base_kv true) hello_entries.
Proof. apply universe_check. vm_compute. reflexivity. Qed.
Lemma hello_free : collision_free hello_entries.
Proof. apply hello_universe. Qed.
Lemma hello_ok : entries_ok hello_entries.
Proof.
  intros k v Hin. assert (Forall (λ e : Bytes * Id,
    MetadataTree.valid_key e.1 = true ∧ e.2 ≠ zero_id ∧ length e.2 = 32%nat) hello_entries) as Hall.
  { apply (bool_decide_eq_true_1 (Forall _ hello_entries)). vm_compute. reflexivity. }
  rewrite Forall_forall in Hall. exact (Hall _ Hin).
Qed.
Lemma base_closed : closed_store (mkMemory base_kv true) hello_entries.
Proof. apply hello_universe. Qed.
Lemma base_stands : stands (mkMemory base_kv true) base_kv.
Proof. apply memory_stands, kv_okb_ok. vm_compute. reflexivity. Qed.

Lemma base_editing : editing (mkMemory base_kv true) hello_entries (MetadataTree.fresh (mid base_tree)) base_tree.
Proof.
  pose proof (treap_tset_all MetadataTree.higher_key Leaf ((λ e, (e.1, Some e.2)) <$> base_refs)
    (treap_Leaf MetadataTree.higher_key)) as [Hb Hh].
  apply (open_editing _ hello_entries hello_free hello_ok).
  - assert (Forall (λ u, kv_objects base_kv !! mid u = Some (payload u)) (subtrees base_tree)) as Hall.
    { apply (bool_decide_eq_true_1 (Forall _ (subtrees base_tree))). vm_compute. reflexivity. }
    rewrite Forall_forall in Hall. intros u Hu. by apply memory_get, Hall.
  - split; [done|]. apply Forall_forall, (bool_decide_eq_true_1 (Forall (λ p, p ∈ hello_entries) (elements_of base_tree))).
    vm_compute. reflexivity.
  - done.
  - apply (bool_decide_eq_true_1 (depth base_tree ≤ 256)%nat). vm_compute. reflexivity.
Qed.

Lemma base_tree_root : is_Some (to_map base_tree !! NamespaceView.root_key).
Proof. apply (bool_decide_eq_true_1 (is_Some _)). vm_compute. reflexivity. Qed.

Lemma base_opens : NamespaceView.open (mkMemory base_kv true) (bs "main") false true = Ok base_view ∧
  pictures (mkMemory base_kv true) hello_entries base_tree base_view.
Proof.
  pose proof (memory_get base_kv true (object_hash base_manifest) base_manifest) as Hm.
  destruct (of_manifest_editing (mkMemory base_kv true) hello_entries hello_free base_tree (object_hash base_manifest))
    as (v & e & Hv & Et & El & He).
  - apply Hm. vm_compute. reflexivity.
  - exact base_editing.
  - apply (bool_decide_eq_true_1 (mid base_tree ≠ zero_id)). vm_compute. reflexivity.
  - apply (bool_decide_eq_true_1 (length (mid base_tree) = 32%nat)). vm_compute. reflexivity.
  - exact base_tree_root.
  - assert (NamespaceView.open (mkMemory base_kv true) (bs "main") false true = Ok v) as Hopen.
    { rewrite <- Hv. apply (open_head _ base_kv); [exact base_stands|done|vm_compute; reflexivity|vm_compute; reflexivity]. }
    unfold base_view. rewrite Hopen. split; [reflexivity|]. exists e. exact (conj Et (conj El He)).
Qed.

Lemma base_settled : settled main_world base_sys base_kv hello_entries base_tree base_view.
Proof.
  destruct base_opens as [Hopen Hview]. split; [exact base_stands| |reflexivity|vm_compute; reflexivity|exact hello_free|
    exact hello_ok|exact base_closed|reflexivity| |exact Hopen|exact Hview|].
  - intros i x Hx. exfalso. assert (map_Forall (λ k _, ¬ registered k) (kv_roots base_kv)) as Hall.
    { apply (bool_decide_eq_true_1 (map_Forall _ (kv_roots base_kv))). vm_compute. reflexivity. }
    exact (Hall _ _ Hx (object_key_registered i)).
  - apply (bool_decide_eq_true_1 (Forall is_u64 _)). vm_compute. reflexivity.
  - exists root_id, root_inode_. split_and!; [vm_compute; reflexivity| |reflexivity].
    exists (encode root_inode_). split; vm_compute; reflexivity.
Qed.

Definition hello_batch (w : work memory) : list Journal.Mutation := ok_or [] (changes_batch main_world hello_changes w).2.

Lemma hello_admissible : admissible main_world hello_changes hello_run.1 base_kv.
Proof.
  intros w1 batch E. assert (batch = hello_batch hello_run.1) as -> by (unfold hello_batch; by rewrite E). split.
  - split; apply Z.leb_le; vm_compute; reflexivity.
  - apply distinct_check. vm_compute. reflexivity.
Qed.
Lemma hello_acceptable : acceptable hello_entries base_tree (references_of hello_changes).
Proof.
  split_and!; [vm_compute; reflexivity| |right; exact base_tree_root].
  intros k x Hk. apply elem_of_remove_dups, elem_of_app. right. apply list_elem_of_omap. exists (k, Some x). split; [by apply elem_of_in_order|done].
Qed.
Lemma hello_written : (write main_world hello_path hello base_sys).2 = Ok tt.
Proof. vm_compute. reflexivity. Qed.

Lemma write_then_read_witness :
  (read main_world hello_path (write main_world hello_path hello base_sys).1).2 = Ok hello.
Proof.
  apply (write_then_read main_world hello_path hello base_sys (write main_world hello_path hello base_sys).1 base_kv
    hello_entries base_tree base_view base_settled).
  - intros w changes E. assert (w = hello_run.1 ∧ changes = hello_changes) as [-> ->].
    { unfold hello_changes, hello_run. rewrite E. split; reflexivity. }
    split; [exact hello_admissible|exact hello_acceptable].
  - rewrite <- hello_written. apply surjective_pairing.
  - exact I.
Defined.

(** The same bytes written at offset 0. *)
Definition patch_run : work memory * result (Changes * unit) :=
  edit_changes hello_path (write_at_edit 0 hello) (mkWork base_sys base_view).

Lemma patch_admissible : admissible main_world hello_changes patch_run.1 base_kv.
Proof.
  intros w1 batch E. assert (batch = hello_batch patch_run.1) as -> by (unfold hello_batch; by rewrite E). split.
  - split; apply Z.leb_le; vm_compute; reflexivity.
  - apply distinct_check. vm_compute. reflexivity.
Qed.
Lemma patch_changes : (ok_or (∅ : Changes, tt) patch_run.2).1 = hello_changes.
Proof. apply (bool_decide_eq_true_1 (_ = hello_changes)). vm_compute. reflexivity. Qed.
Lemma patch_written : (write_at main_world hello_path 0 hello base_sys).2 = Ok tt.
Proof. vm_compute. reflexivity. Qed.
Lemma base_reads : (read main_world hello_path base_sys).2 = Ok (bs "hi").
Proof. vm_compute. reflexivity. Qed.

Lemma patch_fits : fits main_world base_sys base_kv hello_entries base_tree base_view hello_path (write_at_edit 0 hello).
Proof.
  intros w changes [] E _. assert (w = patch_run.1) as -> by (unfold patch_run; rewrite E; reflexivity).
  assert (changes = hello_changes) as -> by (rewrite <- patch_changes; unfold patch_run; rewrite E; reflexivity).
  split; [exact patch_admissible|exact hello_acceptable].
Qed.

Lemma edits_then_read_witness :
  (read main_world hello_path (write_at main_world hello_path 0 hello base_sys).1).2 = Ok hello.
Proof.
  destruct (edits_then_read main_world hello_path (bs "hi") base_sys (write_at main_world hello_path 0 hello base_sys).1 base_kv
    hello_entries base_tree base_view base_settled base_reads I) as (_ & Hw & _).
  rewrite (Hw 0 hello patch_fits); [vm_compute; reflexivity|]. rewrite <- patch_written. apply surjective_pairing.
Defined.
