(* ===== verification/WorldsSpec.v ===== *)
(** * Snapshots and forks

    A snapshot is the version a world has, and a world forked from it starts as that version:
    the same manifest opens as the same view, and every read through it that succeeded before
    gives the same answer. *)

From S2P Require Import Prelude Codec Treap Journal JournalRecord JournalTransact JournalStore MetadataTree.
From S2P Require Import MetadataTreeProofs MetadataTreeApply Instances LevelStoreTransact Store StoreMemory.
From S2P Require Import MetadataView MetadataViewRuns MetadataViewProofs MetadataViewPlan MetadataViewSpec.
From S2P Require Import Container Compaction Nodes Namespace Worlds Files Moves Halts Garbage Agrees Walks.
From S2P Require Import HaltsOps Commits GarbageSpec CommitSpec FileChanges FilesSpec.
Import Nodes Namespace Worlds Files.
Local Open Scope Z_scope.

(** ** Operations that read one view *)

Section Follows.
Context `{DigestOk} {J : Type} `{JournalLike J, !JournalLaws J} (j j' : J) (Hx : extends j j').
Abbreviation journal_of w := (Container.journal_ (Container.cont (w_sys w))).
Implicit Types w : work J.

Lemma agrees_contains k : ¬ marked k → agrees historic (NamespaceView.contains j k) (NamespaceView.contains j' k).
Proof.
  intros Hk. unfold NamespaceView.contains. apply not_true_is_false in Hk. rewrite Hk. apply agrees_bind; [agrees|].
  intros [|]; [agrees|]. apply agrees_bind; [by apply agrees_lookup|]. intros a. agrees.
Qed.
Lemma agrees_inode id : agrees historic (Nodes.inode j id) (Nodes.inode j' id).
Proof. unfold Nodes.inode. apply agrees_bind; [by apply agrees_view_get|]. intros b. agrees. Qed.
Lemma agrees_root : agrees historic (Nodes.root j) (Nodes.root j').
Proof.
  unfold Nodes.root. apply agrees_bind; [apply agrees_contains, root_unmarked|]. intros c. apply agrees_bind; [agrees|]. intros _.
  apply agrees_bind; [by apply agrees_view_get|]. intros b. agrees.
Qed.

Lemma agrees_walk_loop k rid ff (m : bool) stack pending id follows expanded :
  agrees historic (walk_loop j k rid ff m stack pending id follows expanded) (walk_loop j' k rid ff m stack pending id follows expanded).
Proof.
  revert stack pending id follows expanded. induction k as [|k IH]; intros stack [|name pending] id follows expanded;
    cbn [walk_loop]; [agrees..|].
  apply agrees_bind; [apply agrees_inode|]. intros n. apply agrees_bind; [agrees|]. intros _.
  case_bool_decide; [apply IH|]. case_bool_decide; [apply IH|].
  apply agrees_bind; [apply agrees_contains, entry_unmarked|]. intros [|]; cbn [negb]; [|agrees].
  apply agrees_bind; [by apply agrees_view_get|]. intros b. apply agrees_bind; [agrees|]. intros child.
  apply agrees_bind; [apply agrees_inode|]. intros cn. destruct (_ && _); [|apply IH].
  apply agrees_bind; [agrees|]. intros _. apply agrees_bind; [by apply agrees_view_get|]. intros target.
  apply agrees_bind; [agrees|]. intros _. apply agrees_bind; [agrees|]. intros parts. apply agrees_bind; [agrees|]. intros _. apply IH.
Qed.
Lemma agrees_resolve path ff (m : bool) : agrees historic (Nodes.resolve j path ff m) (Nodes.resolve j' path ff m).
Proof.
  unfold Nodes.resolve, walk. apply agrees_bind; [agrees|]. intros names. apply agrees_bind; [apply agrees_root|]. intros rid.
  apply agrees_walk_loop.
Qed.

(** The operation runs on the second journal as on the first. *)
Definition follows {A} (op : ST (work J) A) : Prop := ∀ w w1 a,
  journal_of w = j → historic (w_view w) → op w = (w1, Ok a) →
  w_sys w1 = w_sys w ∧ historic (w_view w1) ∧
  ∀ s', Container.journal_ (Container.cont s') = j' → op (mkWork s' (w_view w)) = (mkWork s' (w_view w1), Ok a).

Lemma follows_bind {A B} (op : ST (work J) A) (f : A → ST (work J) B) : follows op → (∀ a, follows (f a)) → follows (op ≫= f).
Proof.
  intros Ho Hf w w2 b Hj Hw (a & w1 & E1 & E2)%st_bind_Ok. destruct (Ho _ _ _ Hj Hw E1) as (Hs1 & Hw1 & Hr1).
  destruct (Hf a w1 w2 b) as (Hs2 & Hw2 & Hr2); [by rewrite Hs1|done|done|]. split_and!; [congruence|done|].
  intros s' Hs'. rewrite (st_bind_run _ _ _ _ _ (Hr1 s' Hs')). by apply Hr2.
Qed.
Lemma follows_view {A} (m : J → ST NamespaceView.view A) : agrees historic (m j) (m j') → follows (on_view m).
Proof.
  intros Hm w w1 a Hj Hw E. unfold on_view in *. rewrite Hj in E. destruct (m j (w_view w)) as [v r] eqn:Em. injection E as <- ->.
  destruct (Hm _ _ _ Hw Em) as [Hv E']. split_and!; [done|done|]. intros s' Hs'. cbn [w_view w_sys]. by rewrite Hs', E'.
Qed.
Lemma follows_lift {A} (r : result A) : follows (lift r).
Proof. intros w w1 a Hj Hw E. injection E as <- ->. by split_and!. Qed.
Lemma follows_need b msg : follows (st_need b msg).
Proof. apply follows_lift. Qed.
Lemma follows_ret {A} (a : A) : follows (mret a).
Proof. apply (follows_lift (Ok a)). Qed.

Lemma follows_resolve path ff : follows (resolve path ff).
Proof. apply follows_bind; [apply follows_view, agrees_resolve|]. intros x. apply follows_ret. Qed.
Lemma follows_inode id : follows (inode id).
Proof. apply follows_view, agrees_inode. Qed.
Lemma follows_get k : follows (get k).
Proof. apply follows_view. by apply agrees_view_get. Qed.
Lemma follows_keys p : follows (on_view (λ j, NamespaceView.keys j p)).
Proof. apply (follows_view (λ j, NamespaceView.keys j p)). by apply agrees_view_keys. Qed.

(** A reading operation on two worlds that open as the same view. *)
Lemma read_only_follows {A} (op : ST (work J) A) (n n' : ns) (σ σ' : Container.sys J) v a :
  follows op → Container.others σ = [] → Container.others σ' = [] →
  Container.journal_ (Container.cont σ) = j → Container.journal_ (Container.cont σ') = j' → historic v →
  NamespaceView.open j (view_ n) (revision_ n) true = Ok v → NamespaceView.open j' (view_ n') (revision_ n') true = Ok v →
  (read_only n op σ).2 = Ok a → (read_only n' op σ').2 = Ok a.
Proof.
  intros Hop Ho Ho' Ej Ej' Hv Hopen Hopen'.
  rewrite (read_only_run n σ v) by (by rewrite ?Ej). rewrite (read_only_run n' σ' v) by (by rewrite ?Ej').
  unfold with_view. destruct (op (mkWork σ v)) as [w r] eqn:E. cbn [snd]. intros ->.
  destruct (Hop (mkWork σ v) w a Ej Hv E) as (_ & _ & Hr). specialize (Hr σ' Ej'). cbn [w_view] in Hr. by rewrite Hr.
Qed.
End Follows.

Create HintDb follows.
#[export] Hint Resolve follows_resolve follows_inode follows_get follows_keys follows_need follows_lift follows_ret : follows.
Ltac follows := repeat (first [solve [auto with follows nocore]|apply follows_bind; [|intros ?]]).

(** ** The reading operations on paths *)

Section Reads.
Context `{DigestOk} {J : Type} `{JournalLike J, !JournalLaws J}.
Implicit Types (n : ns) (σ : Container.sys J).

(** Every path that could be read, listed or inspected in one world gives the same in the other. *)
Record shows_all n σ n' σ' : Prop := {
  sh_read : ∀ path b, (read n path σ).2 = Ok b → (read n' path σ').2 = Ok b;
  sh_list : ∀ path l, (list_ n path σ).2 = Ok l → (list_ n' path σ').2 = Ok l;
  sh_stat : ∀ path i, (stat n path σ).2 = Ok i → (stat n' path σ').2 = Ok i;
  sh_lstat : ∀ path i, (lstat n path σ).2 = Ok i → (lstat n' path σ').2 = Ok i;
  sh_readlink : ∀ path b, (readlink n path σ).2 = Ok b → (readlink n' path σ').2 = Ok b;
}.

Lemma same_view_shows n n' σ σ' v :
  let j := Container.journal_ (Container.cont σ) in let j' := Container.journal_ (Container.cont σ') in
  extends j j' → Container.others σ = [] → Container.others σ' = [] → historic v →
  NamespaceView.open j (view_ n) (revision_ n) true = Ok v → NamespaceView.open j' (view_ n') (revision_ n') true = Ok v →
  shows_all n σ n' σ'.
Proof.
  intros j j' Hx Ho Ho' Hv Hopen Hopen'.
  assert (∀ {A} (op : ST (work J) A) a, follows j j' op → (read_only n op σ).2 = Ok a → (read_only n' op σ').2 = Ok a) as Hgo
    by (intros A op a Hop; by eapply (read_only_follows j j')).
  split; intros path a; apply Hgo; follows.
Qed.
End Reads.

(** ** Names and versions *)

Section Versions.
Context `{DigestOk} {J : Type} `{JournalLike J, !JournalLaws J}.
Implicit Types (j : J) (σ : Container.sys J) (s : kv).
Abbreviation journal_in σ := (Container.journal_ (Container.cont σ)).

Lemma opened_world j s name v :
  stands j s → NamespaceView.open j name false true = Ok v → historic v →
  NamespaceView.valid_name name = Ok tt ∧ ∃ m, kv_roots s !! Compaction.world_key name = Some m ∧ NamespaceView.of_manifest j m = Ok v.
Proof.
  intros Hs E Hv. apply bind_Ok in E as ([] & En & E). split; [done|]. apply bind_Ok in E as (b & _ & E).
  destruct b; [by apply Ok_inj in E as <-|]. apply bind_Ok in E as (m & Em & E). exists m. split; [|exact E].
  by apply (root_stands _ _ _ _ Hs) in Em.
Qed.

Definition revision_record (d : Bytes) : Prop := len d = 80 ∧ slice 0 8 d = bs "FFREV001".

Lemma opened_revision j s name v :
  stands j s → NamespaceView.open j name true true = Ok v →
  NamespaceView.valid_name name = Ok tt ∧ historic v ∧ ∃ d, kv_get s (revision_key name) = Some d ∧ revision_record d ∧
    NamespaceView.of_manifest j (slice 8 32 d) = Ok v.
Proof.
  intros Hs E. apply bind_Ok in E as ([] & En & E). split; [done|]. rewrite andb_false_r in E. cbn [mbind result_bind] in E.
  apply bind_Ok in E as (m & Em & E). apply bind_Ok in Em as (d & Ed & Em). apply need_bind_Ok in Em as [Hd <-%Ok_inj].
  apply andb_true_iff in Hd as [Hl%Z.eqb_eq Hm%bool_decide_eq_true].
  split; [exact (proj1 (load_later j j (λ _ _ Hb, Hb) _ _ _ E))|]. exists d. split_and!; [by apply (get_stands _ _ _ _ Hs) in Ed|done|exact E].
Qed.

Lemma open_revision j s name d :
  stands j s → ready j → NamespaceView.valid_name name = Ok tt → kv_get s (revision_key name) = Some d → revision_record d →
  NamespaceView.open j name true true = NamespaceView.of_manifest j (slice 8 32 d).
Proof.
  intros Hs Hr Hn Hd [Hl Hm]. unfold NamespaceView.open. rewrite Hn. cbn [mbind result_bind negb]. rewrite andb_false_r.
  cbn [mbind result_bind]. change (NamespaceView.history ++ bs "revision/" ++ name) with (revision_key name).
  rewrite (answered_ready _ _ _ Hr (stands_get _ _ _ Hs)), Hd. cbn [read_result mbind result_bind].
  rewrite (proj2 (Z.eqb_eq _ _) Hl), Hm. unfold bytes_eqb. by rewrite bool_decide_eq_true_2.
Qed.

(** A version that was there opens as the same view. *)
Lemma of_manifest_later j j' m v : extends j j' → NamespaceView.of_manifest j m = Ok v →
  historic v ∧ NamespaceView.of_manifest j' m = Ok v.
Proof. intros Hx E. exact (load_later j j' Hx m true v E). Qed.

(** A commit that returned adds to the store. *)
Lemma commit_grows σ σ' s batch u :
  stands (journal_in σ) s → counts_fit (kv_batch batch s) → distinct_hashes (written batch ++ payloads s) →
  Compaction.commit batch σ = (σ', Ok u) →
  stands (journal_in σ') (kv_batch batch s) ∧ NoDup (Journal.m_key <$> batch) ∧ Container.others σ' = Container.others σ ∧
  (ready (journal_in σ') → extends (journal_in σ) (journal_in σ')).
Proof.
  intros Hs Hfit Hd E. pose proof (commit_batch (mkWork σ NamespaceView.unloaded) s batch Hs Hfit) as Hc.
  unfold on_sys in Hc. cbn [w_sys w_view] in Hc. rewrite E in Hc. destruct Hc as [Hs' Hnd]. cbn [w_sys] in Hs'.
  split_and!; [done..| |].
  - pose proof (moves_commit batch σ) as [_ Ho]. by rewrite E in Ho.
  - intros Hr id b Hb. eapply exact_object; [done..|]. apply batch_keeps; [done| |by eapply object_stands].
    intros i v. by apply (stands_hashed _ _ _ _ Hs).
Qed.

Lemma put_target batch k b : NoDup (Journal.m_key <$> batch) → Compaction.put_mutation k b ∈ batch →
  targets batch !! k = Some (Some (object_hash b)).
Proof. intros Hnd Hin. exact (elem_targets _ _ Hnd Hin). Qed.
Lemma root_width j s k i : stands j s → kv_roots s !! k = Some i → length i = 32%nat.
Proof.
  intros Hs Hk. destruct (stands_roots _ _ _ _ Hs Hk) as [b Hb]. rewrite <- (stands_hashed _ _ _ _ Hs Hb). apply length_object_hash.
Qed.

(** ** Snapshots *)

(** The mutations of a snapshot of a world that has a manifest. *)
Definition snapshot_batch (n : ns) (name d : Bytes) : list Journal.Mutation :=
  [Compaction.put_mutation (revision_key name) d; Compaction.put_mutation (base_key (view_ n)) (object_hash d)].

Lemma descriptor_fields m p q : length m = 32%nat → length p = 32%nat →
  revision_record (descriptor m p q) ∧ slice 8 32 (descriptor m p q) = m.
Proof.
  intros Hm Hp. assert (descriptor m p q = concat [bs "FFREV001"; m; p; store q 8]) as ->.
  { unfold descriptor. cbv zeta. change (zeros 80) with (zeros (sum_list [8; 32; 32; 8]%nat)).
    rewrite zeros_fields. unfold fmap, list_fmap. put_field 0%nat. put_field 1%nat. put_field 2%nat. put_field 3%nat. done. }
  split; [split|].
  - unfold len. field_lengths. lia.
  - by apply (slice_field 0).
  - by apply (slice_field 1).
Qed.

Lemma parent_width j world p : parent_revision j world = Ok p → length p = 32%nat.
Proof.
  intros (c & _ & E)%bind_Ok. destruct c; [|by apply Ok_inj in E as <-]. apply bind_Ok in E as (q & _ & E).
  apply need_bind_Ok in E as [Hl%Z.eqb_eq E]. apply bind_Ok in E as (d & _ & E). apply need_bind_Ok in E as [_ <-%Ok_inj].
  unfold len in Hl. lia.
Qed.

(** What a snapshot that returned has committed. *)
Lemma snapshot_commits n name σ σ' v id :
  Container.others σ = [] → NamespaceView.open (journal_in σ) (view_ n) false true = Ok v → historic v →
  snapshot n name σ = (σ', Ok id) →
  revision_ n = false ∧ NamespaceView.valid_name name = Ok tt ∧ ∃ m p u,
    j_root (journal_in σ) (world_key n) = Ok m ∧ parent_revision (journal_in σ) (view_ n) = Ok p ∧
    Compaction.commit (snapshot_batch n name (descriptor m p (j_sequence (journal_in σ)))) σ = (σ', Ok u).
Proof.
  intros Ho Hopen Hv (u & Hn & E)%st_lift_Ok. destruct u. apply st_need_Ok in E as [Hrev%negb_true_iff E].
  rewrite (st_bind_run _ _ σ σ tt) in E by (unfold Container.acquire; destruct σ; cbn in *; by rewrite Ho).
  apply st_bind_Ok in E as (c & σ1 & E1 & E). injection E1 as <- _. apply st_need_Ok in E as [_ E].
  rewrite (st_bind_run _ _ σ σ v) in E by (unfold reading; by rewrite Hopen). split_and!; [done..|].
  unfold with_view in E. match type of E with context [?m (mkWork σ v)] => destruct (m (mkWork σ v)) as [w r] eqn:Ew end.
  injection E as <- ->. apply st_bind_Ok in Ew as (rid & w1 & E1 & Ew).
  destruct (agrees_root (journal_in σ) (journal_in σ) (λ _ _ Hb, Hb) v (w_view w1) rid Hv) as [Hv1 _].
  { unfold on_view in E1. cbn [w_sys w_view] in E1. destruct (Nodes.root _ v) as [v1 r1]. by injection E1 as <- ->. }
  apply on_view_sys in E1. cbn [w_sys] in E1.
  apply st_bind_Ok in Ew as ([m batch] & w2 & E2 & Ew). unfold snapshot_manifest in E2.
  rewrite (st_bind_run _ _ w1 w1 (journal_in σ)) in E2 by (unfold gets; by rewrite E1).
  rewrite (st_bind_run _ _ w1 w1 (w_view w1)) in E2 by done. rewrite Hv1 in E2.
  apply st_lift_Ok in E2 as (m' & Em & E2). injection E2 as <- <- <-.
  rewrite (st_bind_run _ _ w1 w1 (journal_in σ)) in Ew by (unfold gets; by rewrite E1).
  apply st_lift_Ok in Ew as (p & Ep & Ew). apply st_bind_Ok in Ew as (x & w3 & Ec & Ew). injection Ew as <- _.
  exists m', p, x. split_and!; [done..|]. unfold on_sys in Ec. rewrite E1 in Ec. cbn [app] in Ec.
  unfold snapshot_batch. destruct (Compaction.commit _ σ) as [s2 r2]. by injection Ec as <- ->.
Qed.

Lemma base_key_prefix world : starts_with (NamespaceView.history ++ bs "base/") (base_key world) = true.
Proof. apply starts_with_spec. exists world. unfold base_key. by rewrite <- app_assoc. Qed.
Lemma revision_not_world name world : revision_key name ≠ Compaction.world_key world.
Proof.
  intros E. pose proof (revision_key_prefix name) as Hp. change (NamespaceView.history ++ bs "revision/" ++ name) with (revision_key name) in Hp.
  rewrite E in Hp. exact (world_revision _ (world_key_prefix world) Hp).
Qed.
Lemma base_not_world name world : base_key name ≠ Compaction.world_key world.
Proof.
  intros E. pose proof (base_key_prefix name) as Hp. rewrite E in Hp.
  exact (apart_prefixes (NamespaceView.history ++ bs "base/") world_prefix _ eq_refl eq_refl Hp (world_key_prefix world)).
Qed.
Lemma base_not_revision name name' : base_key name ≠ revision_key name'.
Proof.
  intros E. pose proof (base_key_prefix name) as Hp. rewrite E in Hp.
  exact (apart_prefixes (NamespaceView.history ++ bs "base/") revision_prefix _ eq_refl eq_refl Hp (revision_key_prefix name')).
Qed.

(** Roots that a batch of distinct names does not bind. *)
Lemma batch_other (batch : list Journal.Mutation) s k :
  Forall (λ m, Journal.m_key m ≠ k) batch → kv_roots (kv_batch batch s) !! k = kv_roots s !! k.
Proof.
  intros Hk. rewrite batch_roots. destruct (targets batch !! k) as [x|] eqn:Et; [exfalso|done].
  apply targets_elem in Et as (m & Hm & Em & _). rewrite Forall_forall in Hk. by apply (Hk m).
Qed.

(** C13: A snapshot freezes its world.  When [snapshot] of a world that has a manifest returns,
    the revision of that name opens as the very view the world opened as, and so does the world;
    every path that could be read, listed or inspected in the world before gives the same answer
    in the revision and in the world. *)
Theorem snapshot_freezes n (name id : Bytes) σ σ' s v :
  stands (journal_in σ) s → Container.others σ = [] →
  NamespaceView.open (journal_in σ) (view_ n) false true = Ok v → historic v →
  (∀ m p, j_root (journal_in σ) (world_key n) = Ok m → parent_revision (journal_in σ) (view_ n) = Ok p →
     let batch := snapshot_batch n name (descriptor m p (j_sequence (journal_in σ))) in
     counts_fit (kv_batch batch s) ∧ distinct_hashes (written batch ++ payloads s)) →
  snapshot n name σ = (σ', Ok id) → ready (journal_in σ') →
  NamespaceView.open (journal_in σ') name true true = Ok v ∧
  NamespaceView.open (journal_in σ') (view_ n) false true = Ok v ∧
  shows_all n σ (mkNs name true) σ' ∧ shows_all n σ n σ'.
Proof.
  intros Hs Ho Hopen Hv Hfit E Hready.
  destruct (snapshot_commits n name σ σ' v id Ho Hopen Hv E) as (Hrev & Hname & m & p & u & Em & Ep & Ec).
  destruct (Hfit m p Em Ep) as [Hcount Hd]. set (batch := snapshot_batch n name _) in *.
  destruct (commit_grows σ σ' s batch u Hs Hcount Hd Ec) as (Hs' & Hnd & Ho' & Hx). specialize (Hx Hready).
  destruct (opened_world _ _ _ _ Hs Hopen Hv) as (Hn & m' & Hm' & Hmv).
  apply (root_stands _ _ _ _ Hs) in Em. assert (m' = m) as -> by (unfold world_key in Em; congruence).
  destruct (of_manifest_later _ _ _ _ Hx Hmv) as [_ Hmv'].
  destruct (descriptor_fields m p (j_sequence (journal_in σ)) (root_width _ _ _ _ Hs Em) (parent_width _ _ _ Ep)) as [Hrec Hslice].
  assert (NamespaceView.open (journal_in σ') name true true = Ok v) as Hrv.
  { rewrite (open_revision _ _ name (descriptor m p (j_sequence (journal_in σ))) Hs' Hready Hname); [by rewrite Hslice| |done].
    unfold kv_get. rewrite batch_roots, (put_target batch _ _ Hnd ltac:(left)). cbn [mbind option_bind].
    apply batch_object; [|by repeat constructor|left]. eapply distinct_sub, Hd. intros x Hx'. apply elem_of_app. by left. }
  assert (NamespaceView.open (journal_in σ') (view_ n) false true = Ok v) as Hwv.
  { rewrite (open_head _ _ _ m Hs' Hready Hn); [done|]. rewrite batch_other; [done|].
    repeat constructor; [apply revision_not_world|apply base_not_world]. }
  assert (Container.others σ' = []) as Ho2 by congruence.
  split_and!; [done..| |]; apply (same_view_shows _ _ _ _ v); try done; by rewrite Hrev.
Qed.

(** ** Forks *)

Definition fork_batch (world : Bytes) (m i : Id) : list Journal.Mutation :=
  [Journal.mkMutation (Compaction.world_key world) None (Some m); Compaction.put_mutation (base_key world) i].

Lemma fork_commits n revision world σ σ' :
  Container.others σ = [] → fork n revision world σ = (σ', Ok tt) →
  NamespaceView.valid_name world = Ok tt ∧ ∃ m i,
    revision_manifest (journal_in σ) revision = Ok m ∧ j_root (journal_in σ) (revision_key revision) = Ok i ∧
    Compaction.commit (fork_batch world m i) σ = (σ', Ok tt).
Proof.
  intros Ho ([] & _ & E)%st_lift_Ok. apply st_lift_Ok in E as ([] & Hn & E). apply st_need_Ok in E as [_ E].
  apply st_need_Ok in E as [_ E]. split; [done|].
  rewrite (st_bind_run _ _ σ σ tt) in E by (unfold Container.acquire; destruct σ; cbn in *; by rewrite Ho).
  apply st_bind_Ok in E as (c & σ1 & E1 & E). injection E1 as <- _. apply st_need_Ok in E as [_ E].
  apply st_bind_Ok in E as (m & σ2 & E2 & E). injection E2 as <- Em.
  apply st_bind_Ok in E as (v & σ3 & E3 & E). injection E3 as <- _.
  apply st_bind_Ok in E as (r & σ4 & E4 & E). unfold with_view in E4.
  destruct (on_view (λ j, root j) (mkWork σ v)) as [w x] eqn:Ew. injection E4 as <- ->. apply on_view_sys in Ew. rewrite Ew in E.
  apply st_bind_Ok in E as (i & σ5 & E5 & E). injection E5 as <- Ei. by exists m, i.
Qed.

(** C14: A fork starts as its revision.  When [fork] returns, the new world opens as the very
    view the revision opens as, the revision is unchanged, and every path that could be read,
    listed or inspected in the revision gives the same answer in the new world. *)
Theorem fork_starts n (revision world : Bytes) σ σ' s v :
  stands (journal_in σ) s → Container.others σ = [] → NamespaceView.open (journal_in σ) revision true true = Ok v →
  (∀ m i, revision_manifest (journal_in σ) revision = Ok m → j_root (journal_in σ) (revision_key revision) = Ok i →
     counts_fit (kv_batch (fork_batch world m i) s) ∧ distinct_hashes (written (fork_batch world m i) ++ payloads s)) →
  fork n revision world σ = (σ', Ok tt) → ready (journal_in σ') →
  NamespaceView.open (journal_in σ') world false true = Ok v ∧
  NamespaceView.open (journal_in σ') revision true true = Ok v ∧
  shows_all (mkNs revision true) σ (mkNs world false) σ' ∧ shows_all (mkNs revision true) σ (mkNs revision true) σ'.
Proof.
  intros Hs Ho Hopen Hfit E Hready. destruct (fork_commits n revision world σ σ' Ho E) as (Hw & m & i & Em & Ei & Ec).
  destruct (Hfit m i Em Ei) as [Hcount Hd].
  destruct (commit_grows σ σ' s _ tt Hs Hcount Hd Ec) as (Hs' & Hnd & Ho' & Hx). specialize (Hx Hready).
  destruct (opened_revision _ _ _ _ Hs Hopen) as (Hn & Hv & d & Hd' & Hrec & Hmv).
  assert (m = slice 8 32 d) as ->.
  { apply bind_Ok in Em as (u & _ & Em). apply bind_Ok in Em as (d0 & Ed & Em). apply need_bind_Ok in Em as [_ <-%Ok_inj].
    apply (get_stands _ _ _ _ Hs) in Ed. unfold revision_key in Hd'. congruence. }
  destruct (of_manifest_later _ _ _ _ Hx Hmv) as [_ Hmv'].
  assert (NamespaceView.open (journal_in σ') world false true = Ok v) as Hwv.
  { rewrite (open_head _ _ _ (slice 8 32 d) Hs' Hready Hw); [done|]. rewrite batch_roots.
    pose proof (elem_targets _ (Journal.mkMutation (Compaction.world_key world) None (Some (slice 8 32 d))) Hnd ltac:(left)) as Ht.
    cbn [Journal.m_key] in Ht. by rewrite Ht. }
  assert (NamespaceView.open (journal_in σ') revision true true = Ok v) as Hrv.
  { rewrite (open_revision _ _ revision d Hs' Hready Hn); [done| |done]. unfold kv_get in *.
    rewrite batch_other by (repeat constructor; [apply not_eq_sym, revision_not_world|apply base_not_revision]).
    destruct (kv_roots s !! revision_key revision) as [x|]; [|done]. cbn [mbind option_bind] in *.
    apply batch_keeps; [done| |done]. intros i' v'. by apply (stands_hashed _ _ _ _ Hs). }
  assert (Container.others σ' = []) as Ho2 by congruence.
  split_and!; [done..| |]; by apply (same_view_shows _ _ _ _ v).
Qed.
End Versions.

(** ** An example

    A snapshot of the world of the example of the file operations, and a fork from it. *)

Definition snapped : Container.sys memory * result Bytes := snapshot main_world (bs "v1") base_sys.
Definition forked : Container.sys memory * result unit := fork main_world (bs "v1") (bs "w2") snapped.1.
Definition snapped_kv : kv := mem_kv (Container.journal_ (Container.cont snapped.1)).
Definition snapped_id : Bytes := ok_or [] snapped.2.

Lemma snapped_runs : snapped.2 = Ok snapped_id.
Proof. vm_compute. reflexivity. Qed.
Lemma forked_runs : forked.2 = Ok tt.
Proof. vm_compute. reflexivity. Qed.
Lemma snapped_stands : stands (Container.journal_ (Container.cont snapped.1)) snapped_kv.
Proof.
  assert (Container.journal_ (Container.cont snapped.1) = mkMemory snapped_kv true) as -> by (vm_compute; reflexivity).
  apply memory_stands, kv_okb_ok. vm_compute. reflexivity.
Qed.

Definition snap_manifest : Id := ok_or [] (j_root (Container.journal_ (Container.cont base_sys)) (world_key main_world)).
Lemma snapshot_fits m p :
  j_root (Container.journal_ (Container.cont base_sys)) (world_key main_world) = Ok m →
  parent_revision (Container.journal_ (Container.cont base_sys)) (view_ main_world) = Ok p →
  let batch := snapshot_batch main_world (bs "v1") (descriptor m p (j_sequence (Container.journal_ (Container.cont base_sys)))) in
  counts_fit (kv_batch batch base_kv) ∧ distinct_hashes (written batch ++ payloads base_kv).
Proof.
  intros Em Ep. assert (m = snap_manifest) as -> by (unfold snap_manifest; by rewrite Em).
  assert (p = ok_or [] (parent_revision (Container.journal_ (Container.cont base_sys)) (view_ main_world))) as -> by (by rewrite Ep).
  split; [split; apply Z.leb_le; vm_compute; reflexivity|]. apply distinct_check. vm_compute. reflexivity.
Qed.

Lemma snapshot_freezes_witness : (read (mkNs (bs "v1") true) hello_path snapped.1).2 = Ok (bs "hi").
Proof.
  destruct (snapshot_freezes main_world (bs "v1") snapped_id base_sys snapped.1 base_kv base_view base_stands) as (_ & _ & [Hr _ _ _ _] & _).
  - reflexivity.
  - exact (proj1 base_opens).
  - vm_compute. reflexivity.
  - exact snapshot_fits.
  - rewrite <- snapped_runs. apply surjective_pairing.
  - exact I.
  - exact (Hr hello_path (bs "hi") base_reads).
Defined.

Definition revision_view : NamespaceView.view :=
  ok_or NamespaceView.unloaded (NamespaceView.open (Container.journal_ (Container.cont snapped.1)) (bs "v1") true true).
Lemma revision_opens : NamespaceView.open (Container.journal_ (Container.cont snapped.1)) (bs "v1") true true = Ok revision_view.
Proof.
  unfold revision_view. assert (is_ok (NamespaceView.open (Container.journal_ (Container.cont snapped.1)) (bs "v1") true true) = true) as Hok
    by (vm_compute; reflexivity). destruct (NamespaceView.open _ _ _ _); [reflexivity|discriminate Hok..].
Qed.
Lemma fork_fits m i :
  revision_manifest (Container.journal_ (Container.cont snapped.1)) (bs "v1") = Ok m →
  j_root (Container.journal_ (Container.cont snapped.1)) (revision_key (bs "v1")) = Ok i →
  counts_fit (kv_batch (fork_batch (bs "w2") m i) snapped_kv) ∧
  distinct_hashes (written (fork_batch (bs "w2") m i) ++ payloads snapped_kv).
Proof.
  intros Em Ei.
  assert (m = ok_or [] (revision_manifest (Container.journal_ (Container.cont snapped.1)) (bs "v1"))) as -> by (by rewrite Em).
  assert (i = ok_or [] (j_root (Container.journal_ (Container.cont snapped.1)) (revision_key (bs "v1")))) as -> by (by rewrite Ei).
  split; [split; apply Z.leb_le; vm_compute; reflexivity|]. apply distinct_check. vm_compute. reflexivity.
Qed.
Lemma revision_reads : (read (mkNs (bs "v1") true) hello_path snapped.1).2 = Ok (bs "hi").
Proof. vm_compute. reflexivity. Qed.

Lemma fork_starts_witness : (read (mkNs (bs "w2") false) hello_path forked.1).2 = Ok (bs "hi").
Proof.
  destruct (fork_starts main_world (bs "v1") (bs "w2") snapped.1 forked.1 snapped_kv revision_view snapped_stands) as (_ & _ & [Hr _ _ _ _] & _).
  - vm_compute. reflexivity.
  - exact revision_opens.
  - exact fork_fits.
  - rewrite <- forked_runs. apply surjective_pairing.
  - exact I.
  - exact (Hr hello_path (bs "hi") revision_reads).
Defined.
