(* ===== verification/Wire.v ===== *)
(** * The wire protocol ([daemon/rpc.h], [daemon/rpc.cpp], [daemon/rpc_client.cpp])

    Frames, requests and responses, the parsing of numbers, the rendering of results, and the
    translation of error messages to POSIX error numbers.  [Module Wire] holds both ends: what
    the service decodes and what the client encodes. *)

From S2P Require Import Prelude Codec Container Nodes.
Import Container Nodes.
Local Open Scope Z_scope.

Module Wire.

Definition limit : Z := 1024 * 1024.
Definition header : Z := 12.

(** [uint32_t u32(const std::string& b,size_t at)] *)
Definition u32 (b : Bytes) (at_ : Z) : result Z :=
  need ((at_ <=? len b) && (4 <=? len b - at_)) "truncated RPC integer";;
  Ok (load (drop (Z.to_nat at_) b) 4).

(** [void put32(std::string& b,uint32_t n)] *)
Definition put32 (n : Z) : Bytes := store n 4.

(** [std::string frame(const char* magic,const std::string& payload)] *)
Definition frame (magic : string) (payload : Bytes) : result Bytes :=
  need (len payload <=? limit) "RPC payload exceeds 1 MiB";;
  Ok (bs magic ++ put32 (len payload) ++ payload).

(** [std::string response(uint32_t code,const std::string& value)] *)
Definition response (code : Z) (value : Bytes) : result Bytes := frame "FFRSP001" (put32 code ++ value).

(** The loop of [decode] over the fields. *)
Fixpoint decode_fields (b : Bytes) (count : nat) (at_ : Z) : result (list Bytes * Z) :=
  match count with
  | O => Ok ([], at_)
  | S count' =>
      n ← u32 b at_;
      let at_ := at_ + 4 in
      need (n <=? len b - at_) "truncated RPC field";;
      let field := slice (Z.to_nat at_) (Z.to_nat n) b in
      '(rest, at_) ← decode_fields b count' (at_ + n);
      Ok (field :: rest, at_)
  end.

(** [std::vector<std::string> decode(const std::string& b)] *)
Definition decode (b : Bytes) : result (list Bytes) :=
  count ← u32 b header;
  need ((0 <? count) && (count <=? 16)) "RPC requires 1..16 fields";;
  '(fields, at_) ← decode_fields b (Z.to_nat count) (header + 4);
  need (at_ =? len b) "trailing RPC bytes";;
  Ok fields.

(** ** Numbers *)

Definition digit (base : Z) (c : byte) : option Z :=
  let d := b2z c - 48 in
  if (0 <=? d) && (d <? base) then Some d else None.

Fixpoint digits_value (base : Z) (text : Bytes) (acc : Z) : option Z :=
  match text with
  | [] => Some acc
  | c :: rest => match digit base c with Some d => digits_value base rest (acc * base + d) | None => None end
  end.

(** [uint64_t number(const std::string& text,int base)]: [from_chars] must consume the whole
    text, and its value must fit. *)
Definition number (text : Bytes) (base : Z) : result Z :=
  match text, digits_value base text 0 with
  | _ :: _, Some v => if v <=? UINT64_MAX then Ok v else Err "invalid file offset/count"
  | _, _ => Err "invalid file offset/count"
  end.

(** [int64_t signed_number(const std::string& text)] *)
Definition signed_number (text : Bytes) : result Z :=
  let negative := bool_decide (head text = Some (z2b 45)) in
  let body := if negative then tail text else text in
  match body, digits_value 10 body 0 with
  | _ :: _, Some v =>
      if v <=? (if negative then INT64_MAX + 1 else INT64_MAX) then Ok (if negative then - v else v)
      else Err "invalid signed offset"
  | _, _ => Err "invalid signed offset"
  end.

(** ** Rendering *)

Definition newline : byte := z2b 10.
Definition quote : byte := z2b 34.

(** [std::string names(const std::vector<std::string>& values)] *)
Definition names (values : list Bytes) : Bytes := concat ((λ s, s ++ [newline]) <$> values).

(** [std::string quoted(const std::string& value)] *)
Definition quoted (value : Bytes) : Bytes :=
  quote :: concat ((λ c, if bool_decide (c = quote) || bool_decide (c = z2b 92) then [z2b 92; c] else [c]) <$> value)
    ++ [quote].

(** [std::string inode_json(const InodeInfo& n)] *)
Definition inode_json (n : InodeInfo) : Bytes :=
  json_object [
    json_field "inode_id" (json_text (i_id n));
    json_field "directory" (json_bool (i_directory n));
    json_field "symlink" (json_bool (i_symlink n));
    json_field "mode" (to_string (i_mode n));
    json_field "links" (to_string (i_links n));
    json_field "size" (to_string (i_size n));
    json_field "modified_ns" (to_string (i_modified_ns n));
    json_field "changed_ns" (to_string (i_changed_ns n))].

(** ** Error numbers *)

Inductive errno :=
  | ETIMEDOUT | ENOTCONN | ENOENT | ENAMETOOLONG | ESTALE | EEXIST | EBUSY | ENOTEMPTY | ENOTDIR | EISDIR
  | EROFS | EFBIG | ELOOP | EMFILE | EBADF | ENOTSUP | EINVAL | EIO.
#[global] Instance errno_eq_dec : EqDecision errno. Proof. solve_decision. Defined.

(** [message.find(text)!=message.npos] *)
Fixpoint finds (text message : Bytes) : bool :=
  starts_with text message || match message with [] => false | _ :: rest => finds text rest end.
Definition has (message text : string) : bool := finds (bs text) (bs message).
Definition is_ (message text : string) : bool := bool_decide (message = text).

(** [int rpc_posix_error(std::string_view message)] *)
Definition rpc_posix_error (m : string) : errno :=
  if is_ m "RPC timeout" then ETIMEDOUT else
  if is_ m "RPC connect failed" || is_ m "RPC connection failed" || is_ m "RPC send failed"
     || is_ m "truncated RPC reply" then ENOTCONN else
  if is_ m "object root not found" then ENOENT else
  if is_ m "path exceeds mount protocol limit" then ENAMETOOLONG else
  if is_ m "path not found" || is_ m "source not found" then ENOENT else
  if has m "invalid stale" || has m "invalid mount view" then ESTALE else
  if is_ m "inode is no longer linked" || has m "invalid or expired session" || has m "invalid file handle"
    then ESTALE else
  if has m "already exists" then EEXIST else
  if has m "busy" || has m "outstanding handles" then EBUSY else
  if has m "not empty" then ENOTEMPTY else
  if has m "not a directory" then ENOTDIR else
  if has m "cannot read a directory" then EISDIR else
  if has m "read-only" then EROFS else
  if has m "256 KiB" then EFBIG else
  if has m "too many symbolic links" then ELOOP else
  if has m "handle limit" || has m "cursor limit" then EMFILE else
  if has m "not readable" || has m "not writable" then EBADF else
  if has m "unsupported" then ENOTSUP else
  if has m "NUL" || has m "printable ASCII" || has m "path must" || has m "invalid" || has m "forbidden"
     || has m "inode types differ" || has m "cannot move" then EINVAL else
  EIO.

(** ** The client *)

Fixpoint encode_fields (fields : list Bytes) : result Bytes :=
  match fields with
  | [] => Ok []
  | f :: rest =>
      need (len f <=? limit) "oversized RPC field";;
      b ← encode_fields rest;
      Ok (put32 (len f) ++ f ++ b)
  end.

(** The request [request_rpc] sends. *)
Definition encode_request (fields : list Bytes) : result Bytes :=
  need (bool_decide (fields ≠ []) && (len fields <=? 16)) "RPC requires 1..16 fields";;
  b ← encode_fields fields;
  frame "FFRPC001" (put32 (len fields) ++ b).

(** The receive loop of [request_rpc]: the kernel hands over the stream in pieces of its own
    choosing, [sizes]; [recv] asks for at most what the reply still lacks. *)
Fixpoint receive (sizes : list nat) (stream reply : Bytes) (target : Z) : result Bytes :=
  if target <=? len reply then Ok reply else
  match sizes with
  | [] => Err "RPC timeout"
  | k :: sizes =>
      let n := (k `min` Z.to_nat (Z.min 16384 (target - len reply)))%nat in
      let got := take n stream in
      need (bool_decide (got ≠ [])) "truncated RPC reply";;
      let reply := reply ++ got in
      target ← (if len reply =? header then
                  need (bytes_eqb (slice 0 8 reply) (bs "FFRSP001")) "unsupported RPC reply";;
                  length_ ← u32 reply 8;
                  need ((4 <=? length_) && (length_ <=? limit)) "invalid RPC reply length";;
                  Ok (header + length_)
                else Ok target);
      receive sizes (drop (length got) stream) reply target
  end.

(** What a reply means: the value, an error, or an error with its number. *)
Inductive answer := Value (v : Bytes) | Failure (message : Bytes) | Numbered (code : Z) (message : Bytes).

Definition read_reply (reply : Bytes) : result answer :=
  code ← u32 reply header;
  let value := drop 16 reply in
  need (code <=? 4096) "invalid RPC result code";;
  Ok (if 1 <? code then Numbered (code - 1) value else if code =? 1 then Failure value else Value value).

(** [std::string request_rpc(const std::string& path,const std::vector<std::string>& fields)],
    with what the service answers to the request it receives. *)
Definition request_rpc (serve : Bytes → Bytes) (sizes : list nat) (fields : list Bytes) : result answer :=
  request ← encode_request fields;
  reply ← receive sizes (serve request) [] header;
  read_reply reply.
End Wire.
