(* ===== verification/Sessions.v ===== *)
(** * Sessions ([daemon/rpc.cpp], Session and Sessions)

    A client's session owns file handles and directory cursors and may hold the mount of a
    view; it lives for a lease that every use renews.  [Module Sessions] translates the class.
    The state [rpc] adds to the container the sessions and the readings of the steady clock to
    come, in milliseconds. *)

From S2P Require Import Prelude Codec Journal MetadataTree Store MetadataView Container Compaction Maintenance Nodes Namespace Files Handles Wire.
Import Container Nodes Namespace.
Local Open Scope Z_scope.

Module Sessions.

(** [struct OwnedHandle {std::string view;bool revision;}] *)
Record OwnedHandle := mkOwned { ow_view : Bytes; ow_revision : bool }.
#[global] Instance OwnedHandle_eq_dec : EqDecision OwnedHandle. Proof. solve_decision. Defined.

(** [struct OwnedDirectory] *)
Record OwnedDirectory := mkOwnedDirectory { od_owner : OwnedHandle; od_cursor : DirectoryCursor }.

(** [struct Session] *)
Record Session := mkSession {
  lease : Z;
  deadline : Z;
  closing : bool;
  s_handles : gmap Bytes OwnedHandle;
  mount : option OwnedHandle;
  s_directories : gmap Bytes OwnedDirectory;
}.

Record rpc (J : Type) := mkRpc { r_sys : sys J; values_ : gmap Bytes Session; ticks : list Z }.
Arguments mkRpc {J}. Arguments r_sys {J}. Arguments values_ {J}. Arguments ticks {J}.

Definition set_deadline (d : Z) (s : Session) : Session :=
  mkSession (lease s) d (closing s) (s_handles s) (mount s) (s_directories s).
Definition set_closing (s : Session) : Session :=
  mkSession (lease s) (deadline s) true (s_handles s) (mount s) (s_directories s).
Definition set_owned (h : gmap Bytes OwnedHandle) (s : Session) : Session :=
  mkSession (lease s) (deadline s) (closing s) h (mount s) (s_directories s).
Definition set_mount (m : option OwnedHandle) (s : Session) : Session :=
  mkSession (lease s) (deadline s) (closing s) (s_handles s) m (s_directories s).
Definition set_directories (d : gmap Bytes OwnedDirectory) (s : Session) : Session :=
  mkSession (lease s) (deadline s) (closing s) (s_handles s) (mount s) d.

Section Operations.
Context `{Digest} {J : Type} `{JournalLike J}.

Definition on_store {A} (m : ST (sys J) A) : ST (rpc J) A := λ r,
  let '(s, a) := m (r_sys r) in (mkRpc s (values_ r) (ticks r), a).
Definition put_values (v : gmap Bytes Session) : ST (rpc J) unit := λ r,
  (mkRpc (r_sys r) v (ticks r), Ok tt).
Definition update_session (token : Bytes) (f : Session → Session) : ST (rpc J) unit := λ r,
  (mkRpc (r_sys r) (alter f token (values_ r)) (ticks r), Ok tt).

(** [Clock::now()] *)
Definition tick : ST (rpc J) Z := λ r,
  (mkRpc (r_sys r) (values_ r) (tail (ticks r)), Ok (default 0 (head (ticks r)))).

(** [std::string random_token()] *)
Definition random_token : ST (rpc J) Bytes := on_store (random_hex "session entropy unavailable").

(** [while(values.contains(token))token=random_token()]: every attempt consumes entropy. *)
Fixpoint fresh_session (fuel : nat) (taken : Bytes → bool) : ST (rpc J) Bytes :=
  match fuel with
  | O => lift OutOfFuel
  | S fuel' => token ← random_token; if taken token then fresh_session fuel' taken else mret token
  end.
Definition new_token (taken : Bytes → bool) : ST (rpc J) Bytes :=
  r ← get_st; fresh_session (S (length (entropy (r_sys r)))) taken.

(** [std::string create(uint64_t lease)] *)
Definition create (lease_ms : Z) : ST (rpc J) Bytes :=
  st_need ((100 <=? lease_ms) && (lease_ms <=? 300000)) "session lease must be 100..300000 ms";;
  v ← gets values_;
  st_need (Z.of_nat (size v) <? 128) "session limit reached";;
  token ← new_token (λ t, bool_decide (is_Some (v !! t)));
  t ← tick;
  put_values (<[token := mkSession lease_ms (t + lease_ms) false ∅ None ∅]> v);;
  mret token.

(** [Session& acquire(const std::string& token)] *)
Definition acquire (token : Bytes) : ST (rpc J) Session :=
  v ← gets values_;
  match v !! token with
  | None => throw "invalid or expired session"
  | Some s =>
      st_need (negb (closing s)) "invalid or expired session";;
      t ← tick;
      st_need (t <? deadline s) "invalid or expired session";;
      t ← tick;
      let s := set_deadline (t + lease s) s in
      put_values (<[token := s]> v);;
      mret s
  end.

(** The loop of [close] over the handles the session owns, in the order of the map. *)
Fixpoint close_handles (token : Bytes) (hs : list (Bytes * OwnedHandle)) : ST (rpc J) unit :=
  match hs with
  | [] => mret tt
  | (h, o) :: rest =>
      on_store (Handles.close (mkNs (ow_view o) (ow_revision o)) h);;
      update_session token (λ s, set_owned (delete h (s_handles s)) s);;
      close_handles token rest
  end.

(** The destruction of a session's directory cursors. *)
Fixpoint drop_directories (ds : list (Bytes * OwnedDirectory)) : ST (rpc J) unit :=
  match ds with
  | [] => mret tt
  | (_, d) :: rest => on_store (Handles.drop_directory (od_cursor d));; drop_directories rest
  end.

(** [void close(const std::string& token)] *)
Definition close (token : Bytes) : ST (rpc J) unit :=
  v ← gets values_;
  match v !! token with
  | None => throw "invalid or expired session"
  | Some s =>
      update_session token set_closing;;
      close_handles token (in_order (s_handles s));;
      v ← gets values_;
      drop_directories (in_order (s_directories s));;
      put_values (delete token v)
  end.

(** [void expire()]: the clock is read for every session that is not closing. *)
Fixpoint dead_sessions (l : list (Bytes * Session)) : ST (rpc J) (list Bytes) :=
  match l with
  | [] => mret []
  | (token, s) :: rest =>
      over ← (if closing s then mret true else t ← tick; mret (deadline s <=? t));
      dead ← dead_sessions rest;
      mret (if (over : bool) then token :: dead else dead)
  end.
Fixpoint close_all (tokens : list Bytes) : ST (rpc J) unit :=
  match tokens with [] => mret tt | t :: rest => close t;; close_all rest end.
Definition expire : ST (rpc J) unit :=
  v ← gets values_; dead ← dead_sessions (in_order v); close_all dead.

(** No other session mounts the world or has a handle on it. *)
Fixpoint no_rival (token view : Bytes) (l : list (Bytes * Session)) : result unit :=
  match l with
  | [] => Ok tt
  | (other, s) :: rest =>
      (if bool_decide (other = token) then Ok tt else
       need (match mount s with Some m => ow_revision m || negb (bytes_eqb (ow_view m) view) | None => true end)
         "mount view is busy";;
       need (forallb (λ e, ow_revision e.2 || negb (bytes_eqb (ow_view e.2) view)) (in_order (s_handles s)))
         "mount view has outstanding handles");;
      no_rival token view rest
  end.

(** [void mount_acquire(const std::string& token,const std::string& view,bool revision)] *)
Definition mount_acquire (token view : Bytes) (revision : bool) : ST (rpc J) unit :=
  s ← acquire token;
  st_need (match mount s with Some m => bool_decide (m = mkOwned view revision) | None => true end) "invalid mount view";;
  v ← gets values_;
  (if revision then mret tt else lift (no_rival token view (in_order v)));;
  update_session token (set_mount (Some (mkOwned view revision))).

(** [void mount_require(const std::string& token,const std::string& view,bool revision)] *)
Definition mount_require (token view : Bytes) (revision : bool) : ST (rpc J) unit :=
  s ← acquire token;
  st_need (bool_decide (mount s = Some (mkOwned view revision))) "invalid mount view/session".

Definition lease_message : string := "World is exclusively leased to a mounted filesystem".

(** [void authorize(token,view,revision,writes) const] *)
Definition authorize (token view : Bytes) (revision writes : bool) : ST (rpc J) unit :=
  if negb writes || revision then mret tt else
  v ← gets values_;
  st_need (negb (existsb (λ e, negb (bool_decide (e.1 = token))
                               && match mount e.2 with
                                  | Some m => negb (ow_revision m) && bytes_eqb (ow_view m) view
                                  | None => false end) (in_order v))) lease_message.

(** [size_t directory_count() const] *)
Definition directory_count (v : gmap Bytes Session) : Z :=
  foldr (λ e n, Z.of_nat (size (s_directories e.2)) + n) 0 (map_to_list v).

(** [void shutdown()] *)
Definition shutdown : ST (rpc J) unit := v ← gets values_; close_all (in_order v).*1.
End Operations.
End Sessions.
