(* ===== verification/Rpc.v ===== *)
(** * The service ([daemon/rpc.cpp], dispatch and serve_rpc)

    [Module Rpc] translates the dispatch of one request (view and session selectors, the
    permission of the caller, the operations on inodes that a mounted filesystem uses, and
    every command) and one turn of the event loop for one connection.  The texts the status
    commands return and the ids of the process are parameters. *)

From S2P Require Import Prelude Codec Journal MetadataTree Store MetadataView Container Compaction Maintenance Nodes Namespace.
From S2P Require Import Worlds Files Handles Traverse Wire Sessions.
Import Container Nodes Namespace Sessions.
Local Open Scope Z_scope.

Module Rpc.

(** ** Arguments *)

Definition one_of (op : Bytes) (l : list string) : bool := existsb (λ s, bytes_eqb op (bs s)) l.
Definition op_is (op : Bytes) (s : string) : bool := bytes_eqb op (bs s).
Definition op_like (op : Bytes) (s : string) : bool := starts_with (bs s) op.

(** The number of arguments of a command, its name included. *)
Definition count_of (op : Bytes) : nat :=
  if op_is op "inode-rename" then 7 else
  if op_is op "inode-setattr" then 6 else
  if op_is op "inode-remove" then 5 else
  if one_of op ["inode-create"; "inode-mkdir"; "inode-symlink"; "inode-link"] then 4 else
  if one_of op ["inode-lookup"; "inode-open"] then 3 else
  if one_of op ["inode-stat"; "inode-dir-open"; "inode-readlink"] then 2 else
  if one_of op ["inode-root"; "inode-sync"; "inode-space"] then 1 else
  if one_of op ["fs-read-at"; "fs-write-at"; "fs-hread"; "fs-hwrite"; "fs-hseek"; "fs-hrange-lock"] then 4 else
  if one_of op ["fs-write"; "fs-save"; "fs-rename"; "fs-link"; "fs-fork"; "fs-append"; "fs-truncate"; "fs-open";
                "fs-happend"; "fs-htruncate"; "fs-hread-next"; "fs-hwrite-next"; "fs-symlink"; "fs-chmod";
                "fs-setmtime"; "fs-hchmod"; "fs-hsetmtime"; "fs-dir-page"; "fs-dir-entries"; "fs-hlock"] then 3 else
  if one_of op ["status"; "storage-profile"; "fs-init"; "fs-check"; "fs-worlds"; "fs-revisions"; "fs-compact"] then 1
  else 2.

(** What the selectors at the end of a request choose. *)
Record selection := mkSelection { s_args : list Bytes; s_view : Bytes; s_revision : bool; s_session : Bytes; s_selected : bool }.

(** [while(args.size()>=count+2)]: every turn removes two arguments. *)
Fixpoint selectors (fuel : nat) (op : Bytes) (count : nat) (s : selection) : result selection :=
  let args := s_args s in
  let n := length args in
  match fuel with
  | O => Ok s
  | S fuel' =>
      if negb (count + 2 <=? n)%nat then Ok s else
      let selector := nth (n - 2) args [] in
      let value := nth (n - 1) args [] in
      if op_is selector "--world" || op_is selector "--revision" then
        need ((op_like op "fs-" || op_like op "inode-") && negb (s_selected s)) "invalid or duplicate view selector";;
        selectors fuel' op count (mkSelection (take (n - 2) args) value (op_is selector "--revision") (s_session s) true)
      else if op_is selector "--session" then
        need (negb (op_like op "session-") && bool_decide (s_session s = [])) "invalid or duplicate session selector";;
        need (bool_decide (value ≠ [])) "empty session token";;
        selectors fuel' op count (mkSelection (take (n - 2) args) (s_view s) (s_revision s) value (s_selected s))
      else Ok s
  end.

(** The argument that may hold any bytes. *)
Definition binary_argument (op : Bytes) : option nat :=
  if one_of op ["fs-write"; "fs-save"; "fs-append"; "fs-happend"; "fs-hwrite-next"] then Some 2%nat
  else if one_of op ["fs-write-at"; "fs-hwrite"] then Some 3%nat else None.

Definition no_nul (op : Bytes) (args : list Bytes) : bool :=
  forallb (λ e, bool_decide (binary_argument op = Some e.1) || forallb (λ c, negb (bool_decide (c = x00))) e.2)
    (imap pair args).

(** The commands another session's mount does not exclude. *)
Definition reads : list string :=
  ["fs-cat"; "fs-read-at"; "fs-ls"; "fs-stat"; "fs-lstat"; "fs-readlink"; "fs-check"; "fs-worlds"; "fs-revisions";
   "fs-snapshot"; "fs-fork"; "fs-hstat"; "fs-hread"; "fs-hread-next"; "fs-hseek"; "fs-close"; "fs-dup"; "fs-hlock";
   "fs-hrange-lock"; "fs-dir-open"; "fs-dir-page"; "fs-dir-entries"; "fs-dir-rewind"; "fs-dir-close"].

Definition arg (args : list Bytes) (i : nat) : Bytes := nth i args [].

(** [MODE[,create][,exclusive]...] *)
Fixpoint open_flags (flags : list Bytes) (seen : gset Bytes) (o : Handles.OpenOptions) : result Handles.OpenOptions :=
  match flags with
  | [] => Ok o
  | f :: rest =>
      need (bool_decide (f ∉ seen)) "duplicate open flag";;
      let seen := {[f]} ∪ seen in
      let '(Handles.mkOptions c e t m a nf) := o in
      if op_is f "create" then open_flags rest seen (Handles.mkOptions true e t m a nf)
      else if op_is f "exclusive" then open_flags rest seen (Handles.mkOptions c true t m a nf)
      else if op_is f "truncate" then open_flags rest seen (Handles.mkOptions c e true m a nf)
      else if op_is f "append" then open_flags rest seen (Handles.mkOptions c e t m true nf)
      else if op_is f "nofollow" then open_flags rest seen (Handles.mkOptions c e t m a true)
      else Err "unsupported open flag"
  end.

Definition parse_open (text : Bytes) (mode : Z) : result (Handles.Access * Handles.OpenOptions) :=
  match split (z2b 44) text with
  | [] => Err "invalid handle access mode"
  | m :: flags =>
      access ← (if op_is m "r" then Ok Handles.Read else if op_is m "w" then Ok Handles.Write
                else if op_is m "rw" then Ok Handles.ReadWrite else Err "invalid handle access mode");
      o ← open_flags flags ∅ (Handles.mkOptions false false false mode false false);
      Ok (access, o)
  end.

Definition parse_lock (text : Bytes) : result Handles.Lock :=
  if op_is text "shared" then Ok Handles.Shared else if op_is text "exclusive" then Ok Handles.Exclusive
  else if op_is text "unlock" then Ok Handles.Unlock else Err "invalid lock mode".

Definition parse_range (text : Bytes) : result (Z * Z) :=
  match split (z2b 58) text with
  | [a; b] => start ← Wire.number a 10; length_ ← Wire.number b 10; Ok (start, length_)
  | _ => Err "lock range must be START:LENGTH"
  end.

Definition parse_origin (text : Bytes) : result Handles.Seek :=
  if op_is text "set" then Ok Handles.Set_ else if op_is text "cur" then Ok Handles.Current
  else if op_is text "end" then Ok Handles.End_ else Err "invalid seek origin".

Definition parse_mode (text : Bytes) (base : Z) : result Z :=
  mode ← Wire.number text base; need (mode <=? 511) "unsupported mode bits";; Ok mode.

Definition optional {A} (text : Bytes) (parse : Bytes → result A) : result (option A) :=
  if op_is text "-" then Ok None else a ← parse text; Ok (Some a).

Definition line (b : Bytes) : Bytes := b ++ [Wire.newline].

(** The JSON of a directory page. *)
Definition page_json (attributes : bool) (p : DirectoryPage) : Bytes :=
  let items := if attributes
    then (λ '(name, i), json_object [json_field "name" (Wire.quoted name); json_field "inode" (Wire.inode_json i)])
           <$> Namespace.entries p
    else Wire.quoted <$> Namespace.names p in
  line (json_object [
    json_field (if attributes then "entries" else "names") (z2b 91 :: json_fields items ++ [z2b 93]);
    json_field "eof" (json_bool (eof p))]).
End Rpc.
