(* ===== verification/Dispatch.v ===== *)
(** * Dispatching requests ([daemon/rpc.cpp], dispatch and serve_rpc)

    [Module Dispatch] translates the body of [dispatch] and the handling of a connection.  A
    request is executed in one turn of the event loop: the session is renewed before and after
    it, and an exception becomes an error response. *)

From S2P Require Import Prelude Codec Journal MetadataTree Store MetadataView Container Compaction Maintenance Nodes Namespace.
From S2P Require Import Worlds Files Handles Traverse Wire Sessions Rpc.
Import Container Nodes Namespace Sessions Rpc.
Local Open Scope Z_scope.

Module Dispatch.
Section Operations.
Context `{Digest} {J : Type} `{JournalLike J}.
(** The texts of [status], [storage_profile] and [space_json], and the ids of the process. *)
Context (status profile space : container J → Bytes) (uid gid : Z).

(** A destructor that runs at the end of a scope. *)
Definition ensure {S A} (m : ST S A) (cleanup : ST S unit) : ST S A := λ s,
  let '(s', r) := m s in ((cleanup s').1, r).

Definition text (f : container J → Bytes) : ST (rpc J) Bytes := on_store (Container.acquire;; gets (λ s, f (cont s))).
Definition session_of (token : Bytes) : ST (rpc J) Session :=
  v ← gets values_;
  mret (default (mkSession 0 0 true ∅ None ∅) (v !! token)).

(** [struct Activity]: the lease runs from the end of the request. *)
Definition renew (token : Bytes) : ST (rpc J) unit :=
  if bool_decide (token = []) then mret tt else
  s ← session_of token;
  if closing s then mret tt else
  t ← tick; update_session token (λ s, set_deadline (t + lease s) s).
Definition with_activity {A} (token : Bytes) (m : ST (rpc J) A) : ST (rpc J) A := ensure m (renew token).

(** ** Operations on inodes *)

(** The lambda [child]. *)
Definition child (n : ns) (parent name : Bytes) : ST (rpc J) Bytes :=
  st_need (bool_decide (name ≠ []) && bool_decide (name ≠ bs ".") && bool_decide (name ≠ bs "..")
           && forallb (λ c, negb (bool_decide (c = slash))) name) "invalid mount name";;
  path ← on_store (Traverse.path_for_inode n parent);
  i ← on_store (Files.lstat n path);
  st_need (i_directory i) "parent is not a directory";;
  mret (if bytes_eqb path (bs "/") then path ++ name else path ++ slash :: name).

Definition described (n : ns) (path : Bytes) : ST (rpc J) Bytes :=
  i ← on_store (Files.lstat n path); mret (Wire.inode_json i).

(** [inode-root]: the cursor that checks the root directory lives until the reply. *)
Definition inode_root (n : ns) (token : Bytes) : ST (rpc J) Bytes :=
  s ← gets r_sys;
  st_need (j_leveldb (journal_ (cont s))) "mount requires LevelDB";;
  i ← on_store (Files.lstat n (bs "/"));
  d ← on_store (Handles.open_directory n (bs "/"));
  ensure
    (on_store (Handles.read_directory n d 1 false);;
     mount_acquire token (view_ n) (revision_ n))
    (on_store (Handles.drop_directory d));;
  mret (line (json_object [
    json_field "inode" (Wire.inode_json i); json_field "repository" (Wire.quoted (id_ (cont s)));
    json_field "uid" (to_string uid); json_field "gid" (to_string gid)])).

(** The target of a rename to a name that must be free. *)
Definition target_missing (n : ns) (target : Bytes) : ST (rpc J) bool :=
  r ← Maintenance.caught (on_store (Files.lstat n target));
  match r with
  | inl _ => mret false
  | inr e => if bool_decide (e = "path not found"%string) then mret true else throw e
  end.

Definition same_entry (n : ns) (path id : Bytes) (message : string) : ST (rpc J) unit :=
  i ← on_store (Files.lstat n path); st_need (bytes_eqb (i_id i) id) message.

Definition inode_rename (n : ns) (args : list Bytes) : ST (rpc J) Bytes :=
  source ← child n (arg args 1) (arg args 2);
  target ← child n (arg args 3) (arg args 4);
  same_entry n source (arg args 5) "invalid stale source entry";;
  (if op_is (arg args 6) "-" then m ← target_missing n target; st_need m "target already exists"
   else same_entry n target (arg args 6) "invalid stale target entry");;
  on_store (Files.rename n source target);;
  described n target.

Definition inode_setattr (n : ns) (token : Bytes) (args : list Bytes) : ST (rpc J) Bytes :=
  mode ← lift (optional (arg args 2) (λ t, parse_mode t 10));
  size ← lift (optional (arg args 3) (λ t, Wire.number t 10));
  modified ← lift (optional (arg args 4) (λ t, Wire.number t 10));
  let a := mkAttributes mode modified size in
  if op_is (arg args 5) "-" then
    path ← on_store (Traverse.path_for_inode n (arg args 1));
    i ← on_store (Files.lstat n path);
    st_need (negb (i_symlink i)) "symbolic link attributes are unsupported";;
    on_store (Files.set_attributes n path a);;
    described n path
  else
    s ← session_of token;
    st_need (bool_decide (is_Some (s_handles s !! arg args 5))) "handle belongs to another session";;
    i ← on_store (Handles.handle_stat n (arg args 5));
    st_need (bytes_eqb (i_id i) (arg args 1)) "invalid inode/handle pairing";;
    on_store (Handles.handle_set_attributes n (arg args 5) a);;
    i ← on_store (Handles.handle_stat n (arg args 5));
    mret (Wire.inode_json i).

(** A reply, or the command an inode operation becomes. *)
Definition inode_request (n : ns) (token op : Bytes) (args : list Bytes)
    : ST (rpc J) (Bytes + Bytes * list Bytes * Z) :=
  if op_is op "inode-root" then r ← inode_root n token; mret (inl r) else
  if op_is op "inode-space" then r ← text space; mret (inl r) else
  if op_is op "inode-sync" then r ← text status; mret (inl r) else
  if op_is op "inode-lookup" then
    path ← child n (arg args 1) (arg args 2); mret (inr (bs "fs-lstat", [bs "fs-lstat"; path], 420)) else
  if op_is op "inode-stat" then
    path ← on_store (Traverse.path_for_inode n (arg args 1)); mret (inr (bs "fs-lstat", [bs "fs-lstat"; path], 420)) else
  if op_is op "inode-dir-open" then
    path ← on_store (Traverse.path_for_inode n (arg args 1)); mret (inr (bs "fs-dir-open", [bs "fs-dir-open"; path], 420)) else
  if op_is op "inode-readlink" then
    path ← on_store (Traverse.path_for_inode n (arg args 1)); mret (inr (bs "fs-readlink", [bs "fs-readlink"; path], 420)) else
  if op_is op "inode-open" then
    path ← on_store (Traverse.path_for_inode n (arg args 1));
    i ← on_store (Files.lstat n path);
    st_need (negb (i_symlink i)) "symbolic link open is forbidden";;
    mret (inr (bs "fs-open", [bs "fs-open"; path; arg args 2 ++ bs ",nofollow"], 420)) else
  if op_is op "inode-create" then
    path ← child n (arg args 1) (arg args 2);
    mode ← lift (parse_mode (arg args 3) 10);
    mret (inr (bs "fs-open", [bs "fs-open"; path; bs "rw,create,exclusive,nofollow"], mode)) else
  if op_is op "inode-mkdir" then
    path ← child n (arg args 1) (arg args 2);
    mode ← lift (parse_mode (arg args 3) 10);
    on_store (Files.mkdir n path mode);; r ← described n path; mret (inl r) else
  if op_is op "inode-symlink" then
    path ← child n (arg args 1) (arg args 2);
    on_store (Files.symlink n (arg args 3) path);; r ← described n path; mret (inl r) else
  if op_is op "inode-link" then
    source ← on_store (Traverse.path_for_inode n (arg args 1));
    target ← child n (arg args 2) (arg args 3);
    on_store (Files.link n source target);; r ← described n target; mret (inl r) else
  if op_is op "inode-remove" then
    path ← child n (arg args 1) (arg args 2);
    same_entry n path (arg args 3) "invalid stale directory entry";;
    st_need (one_of (arg args 4) ["file"; "directory"]) "invalid removal type";;
    on_store (Files.remove n path (op_is (arg args 4) "directory"));;
    r ← text status; mret (inl r) else
  if op_is op "inode-rename" then r ← inode_rename n args; mret (inl r) else
  if op_is op "inode-setattr" then r ← inode_setattr n token args; mret (inl r) else
  mret (inr (op, args, 420)).

(** ** Commands on handles and cursors *)

Definition own_handle (token handle : Bytes) (n : ns) : ST (rpc J) unit :=
  update_session token (λ s, set_owned (<[handle := mkOwned (view_ n) (revision_ n)]> (s_handles s)) s).
Definition below_handle_limit (token : Bytes) : ST (rpc J) unit :=
  s ← session_of token; st_need (Z.of_nat (size (s_handles s)) <? 256) "session handle limit reached".

Definition fs_open (n : ns) (token : Bytes) (args : list Bytes) (creation_mode : Z) : ST (rpc J) Bytes :=
  '(access, o) ← lift (parse_open (arg args 2) creation_mode);
  below_handle_limit token;;
  h ← on_store (Handles.open n (arg args 1) access o);
  own_handle token h n;;
  mret (line (json_object [json_field "handle" (json_text h)])).

Definition fs_dup (n : ns) (token : Bytes) (args : list Bytes) : ST (rpc J) Bytes :=
  below_handle_limit token;;
  h ← on_store (Handles.dup n (arg args 1));
  own_handle token h n;;
  mret (line (json_object [json_field "handle" (json_text h)])).

Definition fs_close (n : ns) (token : Bytes) (args : list Bytes) : ST (rpc J) Bytes :=
  on_store (Handles.close n (arg args 1));;
  update_session token (λ s, set_owned (delete (arg args 1) (s_handles s)) s);;
  text status.

Definition fs_lock (n : ns) (args : list Bytes) (range : bool) : ST (rpc J) Bytes :=
  mode ← lift (parse_lock (arg args 2));
  '(start, length_) ← (if range then lift (parse_range (arg args 3)) else mret (0, 0));
  granted ← on_store (Handles.try_lock_range n (arg args 1) mode start length_);
  mret (line (json_object [json_field "granted" (json_bool granted)])).

Definition fs_seek (n : ns) (args : list Bytes) : ST (rpc J) Bytes :=
  origin ← lift (parse_origin (arg args 3));
  offset ← lift (Wire.signed_number (arg args 2));
  at_ ← on_store (Handles.seek n (arg args 1) offset origin);
  mret (line (json_object [json_field "offset" (to_string at_)])).

Definition set_cursor (token cursor : Bytes) (d : DirectoryCursor) : ST (rpc J) unit :=
  update_session token (λ s, set_directories (alter (λ o, mkOwnedDirectory (od_owner o) d) cursor (s_directories s)) s).

Definition dir_cursor (token cursor : Bytes) : ST (rpc J) DirectoryCursor :=
  s ← session_of token;
  match s_directories s !! cursor with Some o => mret (od_cursor o) | None => throw "map::at" end.

Definition dir_open (n : ns) (token : Bytes) (args : list Bytes) : ST (rpc J) Bytes :=
  s ← session_of token;
  v ← gets values_;
  st_need ((Z.of_nat (size (s_directories s)) <? 64) && (directory_count v <? 1024)) "directory cursor limit reached";;
  d ← on_store (Handles.open_directory n (arg args 1));
  cursor ← new_token (λ t, bool_decide (is_Some (s_directories s !! t)));
  update_session token (λ s, set_directories
    (<[cursor := mkOwnedDirectory (mkOwned (view_ n) (revision_ n)) d]> (s_directories s)) s);;
  mret (line (json_object [json_field "cursor" (json_text cursor)])).

Definition dir_rewind (n : ns) (token : Bytes) (args : list Bytes) : ST (rpc J) Bytes :=
  d ← dir_cursor token (arg args 1);
  d ← on_store (Handles.rewind_directory n d);
  set_cursor token (arg args 1) d;;
  text status.

Definition dir_close (token : Bytes) (args : list Bytes) : ST (rpc J) Bytes :=
  s ← session_of token;
  (match s_directories s !! arg args 1 with
   | Some o => on_store (Handles.drop_directory (od_cursor o))
   | None => mret tt end);;
  update_session token (λ s, set_directories (delete (arg args 1) (s_directories s)) s);;
  text status.

Definition dir_page (n : ns) (token : Bytes) (args : list Bytes) (attributes : bool) : ST (rpc J) Bytes :=
  limit ← lift (Wire.number (arg args 2) 10);
  st_need ((1 <=? limit) && (limit <=? 1024)) "directory page limit must be 1..1024";;
  d ← dir_cursor token (arg args 1);
  '(p, d) ← on_store (Handles.read_directory n d limit attributes);
  set_cursor token (arg args 1) d;;
  mret (page_json attributes p).

(** [fs-chmod], [fs-setmtime] and their handle forms. *)
Definition fs_attributes (n : ns) (op : Bytes) (args : list Bytes) : ST (rpc J) Bytes :=
  a ← lift (if one_of op ["fs-chmod"; "fs-hchmod"]
            then m ← parse_mode (arg args 2) 8; Ok (mkAttributes (Some m) None None)
            else t ← Wire.number (arg args 2) 10; Ok (mkAttributes None (Some t) None));
  (if one_of op ["fs-hchmod"; "fs-hsetmtime"] then on_store (Handles.handle_set_attributes n (arg args 1) a)
   else on_store (Files.set_attributes n (arg args 1) a));;
  text status.

Definition appended (offset : Z) (value : Bytes) : Bytes :=
  line (json_object [json_field "offset" (to_string offset); json_field "written" (to_string (len value))]).

(** The commands that answer with the status of the service. *)
Definition acts (n : ns) (op : Bytes) (args : list Bytes) : ST (rpc J) unit :=
  let a := arg args in
  if op_is op "fs-symlink" then on_store (Files.symlink n (a 1%nat) (a 2%nat)) else
  if op_is op "fs-hwrite" then
    k ← lift (Wire.number (a 2%nat) 10); on_store (Handles.handle_write n (a 1%nat) k (a 3%nat)) else
  if op_is op "fs-htruncate" then
    k ← lift (Wire.number (a 2%nat) 10); on_store (Handles.handle_truncate n (a 1%nat) k) else
  if op_is op "fs-init" then on_store (Worlds.initialize n) else
  if op_is op "fs-write-at" then
    k ← lift (Wire.number (a 2%nat) 10); on_store (Files.write_at n (a 1%nat) k (a 3%nat)) else
  if op_is op "fs-truncate" then
    k ← lift (Wire.number (a 2%nat) 10); on_store (Files.truncate n (a 1%nat) k) else
  if op_is op "fs-save" then on_store (Files.replace_file n (a 1%nat) (a 2%nat)) else
  if op_is op "fs-write" then on_store (Files.write n (a 1%nat) (a 2%nat)) else
  if op_is op "fs-mkdir" then on_store (Files.mkdir n (a 1%nat) 493) else
  if op_is op "fs-unlink" then on_store (Files.remove n (a 1%nat) false) else
  if op_is op "fs-rmdir" then on_store (Files.remove n (a 1%nat) true) else
  if op_is op "fs-rename" then on_store (Files.rename n (a 1%nat) (a 2%nat)) else
  if op_is op "fs-link" then on_store (Files.link n (a 1%nat) (a 2%nat)) else
  if op_is op "fs-fork" then on_store (Worlds.fork n (a 1%nat) (a 2%nat)) else
  if op_is op "fs-compact" then on_store (Namespace.compact n) else
  if op_is op "fs-check" then
    on_store (Container.acquire;; locked Container.verify);; on_store (Traverse.verify n) else
  throw "unsupported RPC command".

(** The commands from [fs-dir-open] on. *)
Definition command (n : ns) (token op : Bytes) (args : list Bytes) (creation_mode : Z) : ST (rpc J) Bytes :=
  let a := arg args in
  if op_is op "fs-dir-open" then dir_open n token args else
  if op_is op "fs-dir-rewind" then dir_rewind n token args else
  if op_is op "fs-dir-close" then dir_close token args else
  if op_is op "fs-dir-page" then dir_page n token args false else
  if op_is op "fs-dir-entries" then dir_page n token args true else
  if op_is op "fs-cat" then on_store (Files.read n (a 1%nat)) else
  if op_is op "fs-read-at" then
    k ← lift (Wire.number (a 2%nat) 10); c ← lift (Wire.number (a 3%nat) 10); on_store (Files.read_at n (a 1%nat) k c) else
  if op_is op "fs-open" then fs_open n token args creation_mode else
  if op_is op "fs-dup" then fs_dup n token args else
  if op_is op "fs-hlock" then fs_lock n args false else
  if op_is op "fs-hrange-lock" then fs_lock n args true else
  if op_is op "fs-hseek" then fs_seek n args else
  if op_is op "fs-hread-next" then
    c ← lift (Wire.number (a 2%nat) 10); on_store (Handles.handle_read_next n (a 1%nat) c) else
  if op_is op "fs-hwrite-next" then
    w ← on_store (Handles.handle_write_next n (a 1%nat) (a 2%nat));
    mret (line (json_object [json_field "written" (to_string w)])) else
  if op_is op "fs-hread" then
    k ← lift (Wire.number (a 2%nat) 10); c ← lift (Wire.number (a 3%nat) 10);
    on_store (Handles.handle_read n (a 1%nat) k c) else
  if op_is op "fs-happend" then
    k ← on_store (Handles.handle_append n (a 1%nat) (a 2%nat)); mret (appended k (a 2%nat)) else
  if op_is op "fs-readlink" then on_store (Files.readlink n (a 1%nat)) else
  if op_is op "fs-ls" then l ← on_store (Files.list_ n (a 1%nat)); mret (Wire.names l) else
  if op_is op "fs-worlds" then l ← on_store Worlds.worlds; mret (Wire.names l) else
  if op_is op "fs-revisions" then l ← on_store Worlds.revisions; mret (Wire.names l) else
  if op_is op "fs-stat" then i ← on_store (Files.stat n (a 1%nat)); mret (line (Wire.inode_json i)) else
  if op_is op "fs-lstat" then i ← on_store (Files.lstat n (a 1%nat)); mret (line (Wire.inode_json i)) else
  if op_is op "fs-hstat" then i ← on_store (Handles.handle_stat n (a 1%nat)); mret (line (Wire.inode_json i)) else
  if op_is op "fs-snapshot" then
    r ← on_store (Worlds.snapshot n (a 1%nat)); mret (line (json_object [json_field "revision_id" (json_text r)])) else
  if op_is op "fs-append" then
    k ← on_store (Files.append n (a 1%nat) (a 2%nat)); mret (appended k (a 2%nat)) else
  if one_of op ["fs-chmod"; "fs-hchmod"; "fs-setmtime"; "fs-hsetmtime"] then fs_attributes n op args else
  if op_is op "fs-close" then fs_close n token args else
  acts n op args;; text status.

(** The ownership of the handle or cursor a command names. *)
Definition check_owner (n : ns) (token op : Bytes) (args : list Bytes) (handle_op dir_op : bool) : ST (rpc J) unit :=
  s ← session_of token;
  st_need (negb (handle_op && negb (op_is op "fs-open")) || bool_decide (is_Some (s_handles s !! arg args 1)))
    "handle belongs to another session";;
  if dir_op && negb (op_is op "fs-dir-open") then
    match s_directories s !! arg args 1 with
    | None => throw "invalid directory cursor/session"
    | Some o => st_need (bool_decide (od_owner o = mkOwned (view_ n) (revision_ n))) "directory cursor belongs to another view"
    end
  else mret tt.

(** A request after its session has been acquired. *)
Definition serve_request (sel : selection) (op : Bytes) (handle_op dir_op : bool) : ST (rpc J) Bytes :=
  let args := s_args sel in
  let token := s_session sel in
  let n := mkNs (s_view sel) (s_revision sel) in
  check_owner n token op args handle_op dir_op;;
  if op_is op "status" then text status else
  if op_is op "storage-profile" then text profile else
  authorize token (s_view sel) (s_revision sel) (negb (one_of op reads));;
  (if op_like op "inode-" && negb (op_is op "inode-root")
   then mount_require token (s_view sel) (s_revision sel) else mret tt);;
  r ← (if op_like op "inode-" then inode_request n token op args else mret (inr (op, args, 420)));
  match r with
  | inl reply => mret reply
  | inr (op, args, mode) => command n token op args mode
  end.

(** [std::string dispatch(Container& store,Sessions& sessions,std::vector<std::string> args)] *)
Definition dispatch (args : list Bytes) : ST (rpc J) Bytes :=
  let op := arg args 0 in
  let count := count_of op in
  sel ← lift (selectors (length args) op count (mkSelection args (bs "main") false [] false));
  let args := s_args sel in
  let token := s_session sel in
  st_need (length args =? count)%nat "invalid RPC command arguments";;
  st_need (no_nul op args) "NUL in RPC argument";;
  if op_is op "session-open" then
    lease_ms ← lift (Wire.number (arg args 1) 10);
    t ← create lease_ms;
    mret (line (json_object [json_field "session" (json_text t); json_field "lease_ms" (to_string lease_ms)]))
  else if op_is op "session-keepalive" then Sessions.acquire (arg args 1);; text status
  else if op_is op "session-close" then Sessions.acquire (arg args 1);; Sessions.close (arg args 1);; text status
  else
    let handle_op := one_of op ["fs-open"; "fs-close"; "fs-dup"] || op_like op "fs-h" in
    let dir_op := op_like op "fs-dir-" in
    st_need (negb (handle_op || dir_op || op_like op "inode-") || bool_decide (token ≠ []))
      "handle operations require --session TOKEN";;
    (if bool_decide (token = []) then mret tt else Sessions.acquire token;; mret tt);;
    with_activity token (serve_request sel op handle_op dir_op).

(** ** Connections *)

(** [struct Peer] *)
Record Peer := mkPeer { p_in : Bytes; p_out : Bytes; p_sent : nat; p_done : bool; p_deadline : Z }.

(** The number of an error of the platform. *)
Context (errno_code : Wire.errno → Z).

(** The response to an exception: a [RpcError] carries its number, and so does any error of an
    inode request. *)
Definition error_code (inode_request : bool) (message : string) : Z :=
  if bool_decide (message = lease_message) then errno_code Wire.EBUSY + 1
  else if inode_request then errno_code (Wire.rpc_posix_error message) + 1 else 1.

(** The reply to a complete request. *)
Definition answer (b : Bytes) : ST (rpc J) Bytes := λ r,
  match Wire.decode b with
  | Ok fields =>
      let inode_request := op_like (arg fields 0) "inode-" in
      match (v ← dispatch fields; lift (Wire.response 0 v)) r with
      | (r', Ok out) => (r', Ok out)
      | (r', Err e) => (r', Wire.response (error_code inode_request e) (bs e))
      | (r', OutOfFuel) => (r', OutOfFuel)
      end
  | Err e => (r, Wire.response 1 (bs e))
  | OutOfFuel => (r, OutOfFuel)
  end.

(** What the bytes received so far amount to: nothing yet, an error, or a request. *)
Definition framed (b : Bytes) : result bool :=
  if negb (Wire.header <=? len b) then Ok false else
  need (bytes_eqb (slice 0 8 b) (bs "FFRPC001")) "unsupported RPC protocol";;
  n ← Wire.u32 b 8;
  need ((4 <=? n) && (n <=? Wire.limit)) "invalid RPC request length";;
  need (len b <=? Wire.header + n) "trailing RPC frame";;
  Ok (len b =? Wire.header + n).

Definition with_out (out : Bytes) (p : Peer) : Peer := mkPeer (p_in p) out (p_sent p) (p_done p) (p_deadline p).

(** The bytes [got] have arrived; none means that the peer has closed its side. *)
Definition received (got : Bytes) (p : Peer) : ST (rpc J) Peer :=
  if bool_decide (got = []) then
    out ← lift (Wire.response 1 (bs "truncated RPC request")); mret (with_out out p)
  else
    let p := mkPeer (p_in p ++ got) (p_out p) (p_sent p) (p_done p) (p_deadline p) in
    match framed (p_in p) with
    | Ok false => mret p
    | Ok true => out ← answer (p_in p); mret (with_out out p)
    | Err e => out ← lift (Wire.response 1 (bs e)); mret (with_out out p)
    | OutOfFuel => lift OutOfFuel
    end.

(** [k] bytes of the reply have been accepted by the socket. *)
Definition sent (k : nat) (p : Peer) : Peer :=
  let k := (p_sent p + k)%nat in
  mkPeer (p_in p) (p_out p) k (p_done p || (k =? length (p_out p))%nat) (p_deadline p).

(** What the system calls of one turn give for a connection. *)
Inductive io (A : Type) := Again | Failed | Gave (a : A).
Arguments Again {A}. Arguments Failed {A}. Arguments Gave {A}.
Record events := mkEvents {
  e_error : bool; e_readable : bool; e_writable : bool; e_recv : io Bytes; e_send : io nat
}.

Definition finish (p : Peer) : Peer := mkPeer (p_in p) (p_out p) (p_sent p) true (p_deadline p).

(** The body of the loop over the connections. *)
Definition peer_turn (e : events) (p : Peer) : ST (rpc J) Peer :=
  t ← tick;
  if (p_deadline p <=? t) || e_error e then mret (finish p) else
  p ← (if bool_decide (p_out p = []) && e_readable e then
         match e_recv e with
         | Again => mret p
         | Failed => mret (finish p)
         | Gave b => received b p
         end
       else mret p);
  mret (if bool_decide (p_out p ≠ []) && e_writable e then
          match e_send e with
          | Again => p
          | Failed => finish p
          | Gave k => if (k =? 0)%nat then finish p else sent k p
          end
        else p).

Fixpoint peers_turn (l : list (events * Peer)) : ST (rpc J) (list Peer) :=
  match l with
  | [] => mret []
  | (e, p) :: rest => p ← peer_turn e p; ps ← peers_turn rest; mret (p :: ps)
  end.

(** One turn of [serve_rpc]: sessions expire, every connection makes progress, finished ones
    are dropped, and a connection of the same user ([accepted]) is admitted below the limit. *)
Definition turn (listening : bool) (evs : list events) (accepted : option bool) (peers : list Peer)
    : ST (rpc J) (list Peer) :=
  expire;;
  st_need listening "RPC listener failed";;
  ps ← peers_turn (zip evs peers);
  let ps := filter (λ p, p_done p = false) ps in
  match accepted with
  | None => mret ps
  | Some owner => t ← tick; mret (if (length ps <? 16)%nat && owner then ps ++ [mkPeer [] [] 0 false (t + 5000)] else ps)
  end.
End Operations.
End Dispatch.
