(* ===== verification/Main.v ===== *)
(** * The command line ([daemon/main.cpp])

    [Module Main] translates the parsing of batch files, the selection of a view and the
    commands of [forkfsd] on a repository that has been opened.  Reading a file of the host is
    the parameter [load_input]; it gives the contents up to one byte beyond the limit asked for. *)

From S2P Require Import Prelude Codec Journal MetadataTree Store MetadataView Container Compaction Maintenance Nodes Namespace.
From S2P Require Import Worlds Files Handles Traverse Wire Rpc.
Import Container Nodes Namespace Rpc.
Local Open Scope Z_scope.

Module Main.

(** ** Batch files *)

(** The lambda [u32] of [load_batch]: a value and the new position. *)
Definition u32 (b : Bytes) (pos : Z) : result (Z * Z) :=
  if len b - pos <? 4 then Err "truncated batch input" else Ok (load (drop (Z.to_nat pos) b) 4, pos + 4).

Fixpoint batch_entries (b : Bytes) (count : nat) (pos : Z) : result (list Journal.Mutation * Z) :=
  match count with
  | O => Ok ([], pos)
  | S count' =>
      '(op, pos) ← u32 b pos;
      '(keylen, pos) ← u32 b pos;
      '(vallen, pos) ← u32 b pos;
      if (negb (op =? 1) && negb (op =? 2)) || (keylen =? 0) || (1024 <? keylen) || (256 * 1024 <? vallen)
         || ((op =? 2) && negb (vallen =? 0)) || (len b - pos <? keylen + vallen)
      then Err "invalid batch input entry" else
      let key := slice (Z.to_nat pos) (Z.to_nat keylen) b in
      let pos := pos + keylen in
      let value := if op =? 1 then Some (slice (Z.to_nat pos) (Z.to_nat vallen) b) else None in
      '(rest, pos) ← batch_entries b count' (pos + vallen);
      Ok (Journal.mkMutation key value None :: rest, pos)
  end.

(** [std::vector<forkfs::Mutation> load_batch(const char* path)] on the bytes read. *)
Definition load_batch (b : Bytes) : result (list Journal.Mutation) :=
  if 2 * 1024 * 1024 <? len b then Err "invalid or oversized batch input" else
  if (len b <? 12) || negb (bytes_eqb (slice 0 8 b) (bs "FFBATCH1")) then Err "invalid batch input magic" else
  '(count, pos) ← u32 b 8;
  if (count =? 0) || (64 <? count) then Err "batch requires 1..64 mutations" else
  '(result, pos) ← batch_entries b (Z.to_nat count) pos;
  if negb (pos =? len b) then Err "trailing batch input bytes" else Ok result.

(** [uint64_t file_number(const std::string& text,int base)] *)
Definition file_number (text : Bytes) (base : Z) : result Z := Wire.number text base.

(** ** Commands *)

(** The number of words of a filesystem command, program name and repository included. *)
Definition base_argc (command : Bytes) : nat :=
  if one_of command ["fs-read-at"; "fs-write-at"] then 6 else
  if one_of command ["fs-write"; "fs-save"; "fs-link"; "fs-rename"; "fs-fork"; "fs-append"; "fs-truncate";
                     "fs-symlink"; "fs-chmod"; "fs-setmtime"] then 5 else
  if one_of command ["fs-init"; "fs-check"; "fs-worlds"; "fs-revisions"; "fs-compact"; "fs-layout"] then 3
  else 4.

(** The view selector at the end of the arguments: the remaining arguments and the view. *)
Definition select_view (argv : list Bytes) : list Bytes * ns :=
  let command := arg argv 1 in
  let argc := length argv in
  let selector := arg argv (argc - 2) in
  if op_like command "fs-" && (argc =? base_argc command + 2)%nat
     && (op_is selector "--world" || op_is selector "--revision")
  then (take (argc - 2) argv, mkNs (arg argv (argc - 1)) (op_is selector "--revision"))
  else (argv, mkNs (bs "main") false).

Section Operations.
Context `{Digest} {J : Type} `{JournalLike J}.
Context (status : container J → Bytes) (load_input : Bytes → option Bytes).

(** [std::vector<unsigned char> load_file(const char* path)] *)
Definition load_file (path : Bytes) : result Bytes :=
  match load_input path with
  | None => Err "cannot open file input"
  | Some b => if 256 * 1024 <? len b then Err "invalid or oversized file input" else Ok b
  end.

Definition report : ST (sys J) Bytes := acquire;; gets (λ s, status (cont s)).

(** [fs-layout] *)
Definition layout (n : ns) : ST (sys J) Bytes :=
  s ← get_st;
  if j_leveldb (journal_ (cont s)) then
    Files.stat n (bs "/");;
    mret (line (json_object [json_field "layout" (json_text (bs "cow-tree"));
                             json_field "storage_engine" (json_text (bs "leveldb"))]))
  else
    runs ← Worlds.run_count n;
    mret (line (json_object [json_field "runs" (to_string runs);
                             json_field "layout" (json_text (if runs =? 0 then bs "flat" else bs "sorted-runs"))])).

(** [fs-chmod] and [fs-setmtime] *)
Definition attributes (n : ns) (command path value : Bytes) : ST (sys J) unit :=
  a ← lift (if op_is command "fs-chmod" then
              mode ← file_number value 8; need (mode <=? 511) "unsupported mode bits";; Ok (mkAttributes (Some mode) None None)
            else t ← file_number value 10; Ok (mkAttributes None (Some t) None));
  Files.set_attributes n path a.

(** The filesystem commands that end with the status of the container. *)
Definition fs_acts (n : ns) (command : Bytes) (argv : list Bytes) : ST (sys J) unit :=
  let a := arg argv in
  let takes s k := op_is command s && (length argv =? k)%nat in
  if takes "fs-compact"%string 3%nat then Namespace.compact n else
  if takes "fs-fork"%string 5%nat then Worlds.fork n (a 3%nat) (a 4%nat) else
  if takes "fs-init"%string 3%nat then Worlds.initialize n else
  if takes "fs-check"%string 3%nat then (acquire;; locked Container.verify);; Traverse.verify n else
  if takes "fs-chmod"%string 5%nat || takes "fs-setmtime"%string 5%nat then attributes n command (a 3%nat) (a 4%nat) else
  if takes "fs-symlink"%string 5%nat then Files.symlink n (a 3%nat) (a 4%nat) else
  if takes "fs-mkdir"%string 4%nat then Files.mkdir n (a 3%nat) 493 else
  if takes "fs-unlink"%string 4%nat then Files.remove n (a 3%nat) false else
  if takes "fs-rmdir"%string 4%nat then Files.remove n (a 3%nat) true else
  if takes "fs-rename"%string 5%nat then Files.rename n (a 3%nat) (a 4%nat) else
  if takes "fs-link"%string 5%nat then Files.link n (a 3%nat) (a 4%nat) else
  if takes "fs-truncate"%string 5%nat then k ← lift (file_number (a 4%nat) 10); Files.truncate n (a 3%nat) k else
  if takes "fs-write-at"%string 6%nat then
    k ← lift (file_number (a 4%nat) 10); b ← lift (load_file (a 5%nat)); Files.write_at n (a 3%nat) k b else
  if takes "fs-save"%string 5%nat then b ← lift (load_file (a 4%nat)); Files.replace_file n (a 3%nat) b else
  if takes "fs-write"%string 5%nat then b ← lift (load_file (a 4%nat)); Files.write n (a 3%nat) b else
  throw "invalid filesystem command arguments".

(** The branch [command.starts_with("fs-")] of [main], on the open container. *)
Definition fs_command (n : ns) (command : Bytes) (argv : list Bytes) : ST (sys J) Bytes :=
  let a := arg argv in
  let takes s k := op_is command s && (length argv =? k)%nat in
  if takes "fs-layout"%string 3%nat then layout n else
  if takes "fs-snapshot"%string 4%nat then
    id ← Worlds.snapshot n (a 3%nat); mret (line (json_object [json_field "revision_id" (json_text id)])) else
  if takes "fs-worlds"%string 3%nat then l ← Worlds.worlds; mret (Wire.names l) else
  if takes "fs-revisions"%string 3%nat then l ← Worlds.revisions; mret (Wire.names l) else
  if takes "fs-readlink"%string 4%nat then Files.readlink n (a 3%nat) else
  if takes "fs-append"%string 5%nat then
    b ← lift (load_file (a 4%nat));
    k ← Files.append n (a 3%nat) b;
    mret (line (json_object [json_field "offset" (to_string k); json_field "written" (to_string (len b))])) else
  if takes "fs-read-at"%string 6%nat then
    k ← lift (file_number (a 4%nat) 10); c ← lift (file_number (a 5%nat) 10); Files.read_at n (a 3%nat) k c else
  if takes "fs-cat"%string 4%nat then Files.read n (a 3%nat) else
  if takes "fs-ls"%string 4%nat then l ← Files.list_ n (a 3%nat); mret (Wire.names l) else
  if takes "fs-lstat"%string 4%nat then i ← Files.lstat n (a 3%nat); mret (line (Wire.inode_json i)) else
  if takes "fs-stat"%string 4%nat then i ← Files.stat n (a 3%nat); mret (line (Wire.inode_json i)) else
  fs_acts n command argv;; report.

(** The commands of [main] on the container of the repository it names; [checkpoint] is the
    operation of the backend. *)
Definition run (checkpoint : ST (container J) unit) (argv : list Bytes) : ST (sys J) Bytes :=
  let '(argv, n) := select_view argv in
  let command := arg argv 1 in
  let a := arg argv in
  let takes s k := op_is command s && (length argv =? k)%nat in
  if takes "check"%string 3%nat then (acquire;; locked Container.verify);; report else
  if takes "gc"%string 3%nat then
    removed ← (acquire;; locked collect_garbage);
    mret (line (json_object [json_field "collected_objects" (to_string removed)])) else
  if takes "checkpoint"%string 3%nat then (acquire;; locked checkpoint);; report else
  if takes "object-put"%string 5%nat then
    value ← lift (match load_input (a 4%nat) with
                  | None => Err "cannot open object input"
                  | Some b => if 256 * 1024 <? len b then Err "object exceeds 256 KiB" else Ok b end);
    (acquire;; locked (put (a 3%nat) value));; report else
  if takes "object-batch"%string 5%nat then
    expected ← lift (match Wire.number (a 3%nat) 10 with Ok v => Ok v | _ => Err "invalid expected sequence" end);
    ms ← lift (match load_input (a 4%nat) with None => Err "cannot open batch input" | Some b => load_batch b end);
    (acquire;; locked (transact expected ms));; report else
  if takes "object-get"%string 4%nat then (acquire;; locked (Container.get (a 3%nat))) else
  if op_like command "fs-" then fs_command n command argv else
  throw "invalid arguments; use forkfsd --help".
End Operations.

(** ** The client command *)

Definition input_commands : list string :=
  ["fs-write"; "fs-save"; "fs-write-at"; "fs-append"; "fs-hwrite"; "fs-happend"; "fs-hwrite-next"].

(** [forkfsd request SOCKET COMMAND [ARGS...]]: the fields sent, with the input file read. *)
Definition request_fields (load_input : Bytes → option Bytes) (fields : list Bytes) : result (list Bytes) :=
  let op := arg fields 0 in
  if one_of op input_commands then
    let index := if one_of op ["fs-write-at"; "fs-hwrite"] then 3%nat else 2%nat in
    let n := length fields in
    if negb ((n =? index + 1)%nat || (n =? index + 3)%nat || (n =? index + 5)%nat)
    then Err "write command requires input file" else
    data ← load_file load_input (arg fields index);
    Ok (<[index := data]> fields)
  else Ok fields.
End Main.
