(* ===== verification/Service.v ===== *)
(** * The process ([daemon/main.cpp], main and serve; [daemon/rpc_client.cpp], wait_fd and request_rpc)

    [Module Service] translates what the daemon and its client do around the operating system:
    the parsing of the command line, the start of the service and its loop, and the waits and
    transfers of the client.  The results of the system calls are arguments, one per call in the
    order of the calls; a run that needs more of them than it is given is out of fuel.  Options of
    sockets that only macOS has, and the text that [fail] adds for the system's error, are left
    out. *)

From S2P Require Import Prelude Codec Journal MetadataTree Store MetadataView Container Nodes Namespace Wire Rpc Main.
Import Container Nodes Rpc Main.
Local Open Scope Z_scope.

Module Service.

(** ** System calls *)

(** What [poll] gives: an interruption, nothing before its timeout, a failure, or events. *)
Inductive polled := Interrupted | Idle | PollFailed | Events (revents : Z).
Definition POLLIN : Z := 1.
Definition POLLOUT : Z := 4.
Definition POLLERR : Z := 8.
Definition POLLHUP : Z := 16.
Definition POLLNVAL : Z := 32.
Definition has (revents mask : Z) : bool := negb (Z.land revents mask =? 0).

(** What [send] gives: a transient error, a failure, or a number of bytes. *)
Inductive transfer := Retry | Broken | Moved (k : nat).

(** ** The client *)

(** [void wait_fd(int fd,short events,Clock::time_point deadline)]: every turn reads the clock,
    in milliseconds, and polls. *)
Fixpoint wait_fd (events deadline : Z) (turns : list (Z * polled)) : result unit :=
  match turns with
  | [] => OutOfFuel
  | (now, p) :: rest =>
      need (0 <? deadline - now) "RPC timeout";;
      match p with
      | Interrupted | Idle => wait_fd events deadline rest
      | PollFailed => Err "RPC poll failed"
      | Events r =>
          need (negb (has r (Z.lor POLLERR POLLNVAL))) "RPC connection failed";;
          if has r (Z.lor events POLLHUP) then Ok tt else wait_fd events deadline rest
      end
  end.

(** The sending loop of [request_rpc]: the pieces the kernel has taken. *)
Fixpoint send_all (deadline : Z) (calls : list (list (Z * polled) * transfer)) (request : Bytes) (sent : nat)
    : result (list Bytes) :=
  if (length request <=? sent)%nat then Ok [] else
  match calls with
  | [] => OutOfFuel
  | (turns, t) :: calls =>
      wait_fd POLLOUT deadline turns;;
      match t with
      | Retry => send_all deadline calls request sent
      | Broken => Err "RPC send failed"
      | Moved k =>
          need (0 <? k)%nat "RPC send failed";;
          ps ← send_all deadline calls request (sent + k);
          Ok (slice sent k request :: ps)
      end
  end.

(** The start of [request_rpc]: the results of [socket], of the two flags, of [connect] with the
    wait and the pending error when it is in progress, and of the check of the peer's user. *)
Inductive connected := Done | InProgress (turns : list (Z * polled)) (no_error : bool) | Refused.
Definition connect_rpc (sun_path : Z) (path : Bytes) (socket_ flags : bool) (deadline : Z) (c : connected) (same_user : bool)
    : result unit :=
  need (len path <? sun_path) "socket path too long";;
  need socket_ "RPC socket failed";;
  need flags "RPC socket flags failed";;
  match c with
  | Done => Ok tt
  | InProgress turns no_error => wait_fd POLLOUT deadline turns;; need no_error "RPC connect failed"
  | Refused => Err "RPC connect failed"
  end;;
  need same_user "RPC server identity mismatch".

(** ** The service *)

(** [struct stat] of the directory of the socket. *)
Record dirstat := mkDirstat { st_isdir : bool; st_uid : Z; st_mode : Z }.

(** The checks at the start of [serve]; [parent] is the path's parent with what [lstat] gives. *)
Definition private_parent (euid : Z) (parent : Bytes) (st : option dirstat) : bool :=
  bool_decide (parent ≠ []) &&
  match st with
  | Some st => st_isdir st && (st_uid st =? euid) && (Z.land (st_mode st) 63 =? 0)
  | None => false
  end.

Record listening := mkListening { l_socket : bool; l_flags : bool; l_bind : bool; l_lstat : bool; l_listen : bool }.
Definition serve_start (sun_path euid : Z) (path parent : Bytes) (st : option dirstat) (l : listening) : result unit :=
  need (private_parent euid parent st) "socket parent must be a private directory owned by this user (0700)";;
  need (len path <? sun_path) "socket path too long";;
  need (l_socket l) "socket";;
  need (l_flags l) "socket flags";;
  need (l_bind l) "bind";;
  need (l_lstat l) "stat socket";;
  need (l_listen l) "listen".

(** The greeting loop: the state of the stop flag and the result of [send] for every attempt. *)
Fixpoint greet (attempts : nat) (calls : list (bool * transfer)) (reply : Bytes) (offset : nat) : result (list Bytes) :=
  match attempts with
  | O => Ok []
  | S attempts' =>
      if (length reply <=? offset)%nat then Ok [] else
      match calls with
      | [] => OutOfFuel
      | (stopping, t) :: calls =>
          if (stopping : bool) then Ok [] else
          match t with
          | Moved k =>
              if (k =? 0)%nat then Ok [] else
              ps ← greet attempts' calls reply (offset + k); Ok (slice offset k reply :: ps)
          | Retry => greet attempts' calls reply offset
          | Broken => Ok []
          end
      end
  end.

(** One turn of the loop of [serve] without [--rpc]: what [poll] gives for the listener, what
    [accept] gives (a transient error, a failure, or a connection and whether its flags could be
    set), and the status sent to the client. *)
Inductive accepted := AcceptAgain | AcceptFailed | Accepted (flags : bool).
Definition serve_turn (p : polled) (a : accepted) (status : Bytes) (calls : list (bool * transfer)) : result (list Bytes) :=
  match p with
  | Interrupted | Idle => Ok []
  | PollFailed => Err "poll"
  | Events r =>
      need (has r POLLIN) "listener failed";;
      match a with
      | AcceptAgain => Ok []
      | AcceptFailed => Err "accept"
      | Accepted flags => need flags "client flags";; greet 10 calls status 0
      end
  end.

(** ** The command line *)

Inductive invocation :=
| Help
| Request (socket_ : Bytes) (fields : list Bytes)
| Init (path : Bytes)
| Repository (path : Bytes) (argv : list Bytes)
| Serve (path socket_ : Bytes) (rpc : bool).

(** The commands on a repository that [main] opens. *)
Definition repository_command (argv : list Bytes) : bool :=
  let command := arg argv 1 in
  let takes s k := op_is command s && (length argv =? k)%nat in
  takes "check"%string 3%nat || takes "gc"%string 3%nat || takes "checkpoint"%string 3%nat || takes "object-put"%string 5%nat
  || takes "object-batch"%string 5%nat || takes "object-get"%string 4%nat || op_like command "fs-".

(** [int main(int argc,char** argv)]: what the arguments ask for. *)
Definition parse_main (load_input : Bytes → option Bytes) (argv : list Bytes) : result invocation :=
  let argc := length argv in
  let a := arg argv in
  if (argc =? 2)%nat && op_is (a 1%nat) "--help" then Ok Help else
  need (3 <=? argc)%nat "use forkfsd --help";;
  if op_is (a 1%nat) "request" then
    need (4 <=? argc)%nat "request requires socket and command";;
    fields ← request_fields load_input (drop 3 argv);
    Ok (Request (a 2%nat) fields)
  else
  if op_is (a 1%nat) "init" && (argc =? 3)%nat then Ok (Init (a 2%nat)) else
  if repository_command (select_view argv).1 then Ok (Repository (a 2%nat) argv) else
  if op_is (a 1%nat) "serve" && ((argc =? 5)%nat || ((argc =? 6)%nat && op_is (a 5%nat) "--rpc")) && op_is (a 3%nat) "--socket"
  then Ok (Serve (a 2%nat) (a 4%nat) (argc =? 6)%nat) else
  Err "invalid arguments; use forkfsd --help".

(** The exit status and the text on the error stream. *)
Definition exit_status {A} (r : result A) : Z * Bytes :=
  match r with Err e => (1, bs "forkfsd: " ++ bs e ++ [Wire.newline]) | _ => (0, []) end.
End Service.
Import Service.

(** ** Transfers *)

(** A wait ends once the clock has reached the deadline. *)
Lemma wait_fd_ends events deadline turns :
  Exists (λ e, deadline ≤ e.1) turns → wait_fd events deadline turns ≠ OutOfFuel.
Proof.
  induction 1 as [[now p] turns Hd|[now p] turns _ IH]; cbn [wait_fd fst] in *.
  - destruct (Z.ltb_spec 0 (deadline - now)); [lia|done].
  - destruct (0 <? deadline - now); [|done]. destruct p as [| | |r]; [exact IH|exact IH|done|]. cbn [need mbind result_bind].
    destruct (has r (Z.lor POLLERR POLLNVAL)); [done|]. cbn [negb mbind result_bind need]. destruct (has r _); [done|exact IH].
Qed.

(** The kernel never takes more than it is offered. *)
Fixpoint within (calls : list transfer) (size offset : nat) : Prop :=
  match calls with
  | [] => True
  | Moved k :: calls => (offset + k ≤ size)%nat ∧ within calls size (offset + k)
  | _ :: calls => within calls size offset
  end.

Lemma slice_drop (b : Bytes) n k : slice n k b ++ drop (n + k) b = drop n b.
Proof. unfold slice. rewrite <- (take_drop k (drop n b)) at 2. by rewrite drop_drop. Qed.

(** The pieces sent are the request, in order and without gaps. *)
Lemma send_all_exact deadline calls request sent ps :
  within calls.*2 (length request) sent → (sent ≤ length request)%nat →
  send_all deadline calls request sent = Ok ps → concat ps = drop sent request ∧ Forall (λ p, p ≠ []) ps.
Proof.
  revert sent ps. induction calls as [|[turns t] calls IH]; intros sent ps Hw Hs E; cbn [send_all] in E;
    destruct (Nat.leb_spec (length request) sent) as [Hend|Hmore];
    [apply Ok_inj in E as <-; split; [by rewrite drop_ge|done]|done|apply Ok_inj in E as <-; split; [by rewrite drop_ge|done]|].
  apply bind_Ok in E as (u & _ & E). destruct t as [| |k]; cbn in Hw; [by eapply IH|done|].
  apply need_bind_Ok in E as [Hk%Nat.ltb_lt E]. apply bind_Ok in E as (qs & Eq & <-%Ok_inj).
  destruct Hw as [Hle Hw]. destruct (IH _ _ Hw Hle Eq) as [Hc Hne]. cbn [concat]. rewrite Hc, slice_drop. split; [done|].
  constructor; [|done]. intros Hn. apply (f_equal length) in Hn. rewrite length_slice in Hn by done. cbn in Hn. lia.
Qed.

(** A greeting makes at most ten attempts and sends a part of the status from its start. *)
Lemma greet_prefix attempts calls reply offset ps :
  within calls.*2 (length reply) offset → greet attempts calls reply offset = Ok ps →
  (length ps ≤ attempts)%nat ∧ concat ps `prefix_of` drop offset reply.
Proof.
  revert calls offset ps. induction attempts as [|attempts IH]; intros calls offset ps Hw E; cbn [greet] in E.
  { apply Ok_inj in E as <-. split; [done|apply prefix_nil]. }
  destruct (Nat.leb_spec (length reply) offset); [apply Ok_inj in E as <-; split; [cbn; lia|apply prefix_nil]|].
  destruct calls as [|[[|] t] calls]; [done|apply Ok_inj in E as <-; split; [cbn; lia|apply prefix_nil]|].
  destruct t as [| |k]; cbn in Hw.
  - destruct (IH _ _ _ Hw E) as [Hl Hp]. split; [lia|done].
  - apply Ok_inj in E as <-. split; [cbn; lia|apply prefix_nil].
  - destruct (Nat.eqb_spec k 0); [apply Ok_inj in E as <-; split; [cbn; lia|apply prefix_nil]|].
    apply bind_Ok in E as (qs & Eq & <-%Ok_inj). destruct Hw as [_ Hw]. destruct (IH _ _ _ Hw Eq) as [Hl Hp].
    split; [cbn; lia|]. cbn [concat]. rewrite <- (slice_drop reply offset k). by apply prefix_app.
Qed.
