(* ===== verification/WireSpec.v ===== *)
(** * The wire protocol: requests and replies survive any fragmentation

    A request encoded by the client decodes to its fields at the service, which answers once,
    when the last byte has arrived, however the stream was cut; a reply is read back by the
    client for any sizes the kernel chooses to deliver. *)

From S2P Require Import Prelude Codec Instances Journal JournalStore MetadataTree Store StoreMemory MetadataView Container Nodes Namespace Wire Sessions Rpc Dispatch Service.
Import Container Sessions Rpc Dispatch.
Local Open Scope Z_scope.

#[local] Arguments store : simpl never.
#[local] Arguments Wire.put32 : simpl never.
#[local] Arguments Wire.u32 : simpl never.
#[local] Arguments bs : simpl never.

(** ** Frames *)

Lemma wire_u32_at b (at_ : nat) n rest : drop at_ b = store n 4 ++ rest → 0 ≤ n < 2 ^ 32 → Wire.u32 b (Z.of_nat at_) = Ok n.
Proof.
  intros Hd Hn. unfold Wire.u32.
  assert (at_ + 4 ≤ length b)%nat.
  { apply (f_equal length) in Hd. rewrite length_drop, length_app, length_store in Hd. lia. }
  rewrite (proj2 (Z.leb_le _ _)), (proj2 (Z.leb_le _ _)) by (unfold len; lia). simpl.
  rewrite Nat2Z.id, Hd. by rewrite load_store.
Qed.

Lemma frame_Ok magic p b : Wire.frame magic p = Ok b →
  len p ≤ Wire.limit ∧ b = bs magic ++ store (len p) 4 ++ p.
Proof. unfold Wire.frame. intros [Hl%Z.leb_le Hb]%need_bind_Ok. apply Ok_inj in Hb as <-. done. Qed.

Lemma len_bound {A} (l : list A) : len l ≤ Wire.limit → 0 ≤ len l < 2 ^ 32.
Proof. unfold Wire.limit, len. lia. Qed.

(** ** Requests *)

Lemma encode_fields_len fs b : Wire.encode_fields fs = Ok b → (∀ f, f ∈ fs → len f ≤ Wire.limit).
Proof.
  revert b. induction fs as [|f fs IH]; intros b; simpl; [set_solver|].
  intros [Hl%Z.leb_le Hb]%need_bind_Ok. apply bind_Ok in Hb as (b' & Hb' & _).
  intros g [->|Hg]%elem_of_cons; [done|by eapply IH].
Qed.

Lemma decode_encode_fields fs : ∀ b pre tl, Wire.encode_fields fs = Ok b →
  Wire.decode_fields (pre ++ b ++ tl) (length fs) (len pre) = Ok (fs, len pre + len b).
Proof.
  induction fs as [|f fs IH]; intros b pre tl; cbn [Wire.encode_fields Wire.decode_fields length].
  { intros <-%Ok_inj. by rewrite Z.add_0_r. }
  intros [Hl%Z.leb_le Hb]%need_bind_Ok. apply bind_Ok in Hb as (b' & Hb' & <-%Ok_inj).
  unfold Wire.put32. rewrite <- !app_assoc.
  rewrite (wire_u32_at _ (length pre) (len f) (f ++ b' ++ tl)) by
    (rewrite ?drop_app_length; done || by apply len_bound). cbn [mbind result_bind need andb].
  pose proof (len_nonneg f). pose proof (len_nonneg (b' ++ tl)). pose proof (len_nonneg pre).
  rewrite (proj2 (Z.leb_le (len f) _)) by (rewrite !len_app, len_store in *; lia). cbn [mbind result_bind need andb].
  assert (slice (Z.to_nat (len pre + 4)) (Z.to_nat (len f)) (pre ++ store (len f) 4 ++ f ++ b' ++ tl) = f) as ->.
  { rewrite app_assoc. apply slice_app; rewrite ?length_app, ?length_store; unfold len in *; lia. }
  specialize (IH b' (pre ++ store (len f) 4 ++ f) tl Hb'). rewrite <- !app_assoc in IH.
  replace (len pre + 4 + len f) with (len (pre ++ store (len f) 4 ++ f)) by (rewrite !len_app, len_store; lia).
  rewrite IH. cbn [mbind result_bind need andb]. do 2 f_equal. rewrite !len_app, !len_store. lia.
Qed.

Lemma encode_request_Ok fs b : Wire.encode_request fs = Ok b → ∃ e,
  Wire.encode_fields fs = Ok e ∧ 0 < len fs ≤ 16 ∧ len (store (len fs) 4 ++ e) ≤ Wire.limit ∧
  b = bs "FFRPC001" ++ store (len (store (len fs) 4 ++ e)) 4 ++ store (len fs) 4 ++ e.
Proof.
  unfold Wire.encode_request. intros [[Hne%bool_decide_eq_true Hc%Z.leb_le]%andb_true_iff Hb]%need_bind_Ok.
  apply bind_Ok in Hb as (e & He & [Hl ->]%frame_Ok). exists e. split_and!; [done| |done|done|done].
  destruct fs; [done|]. unfold len in *. cbn [length] in *. lia.
Qed.

Lemma decode_request fs b : Wire.encode_request fs = Ok b → Wire.decode b = Ok fs.
Proof.
  intros (e & He & Hc & Hl & ->)%encode_request_Ok. unfold Wire.decode.
  set (pre := bs "FFRPC001" ++ store (len (store (len fs) 4 ++ e)) 4).
  assert (length pre = 12%nat) as Hpre by (unfold pre; rewrite length_app, length_store; done).
  rewrite app_assoc. fold pre.
  rewrite (wire_u32_at _ 12 (len fs) e) by (lia || by rewrite <- Hpre, drop_app_length). cbn [mbind result_bind need andb].
  rewrite (proj2 (Z.ltb_lt 0 _)), (proj2 (Z.leb_le _ 16)) by lia. cbn [mbind result_bind need andb].
  pose proof (decode_encode_fields fs e (pre ++ store (len fs) 4) [] He) as Hd.
  rewrite app_nil_r, <- app_assoc in Hd.
  replace (len (pre ++ store (len fs) 4)) with 16 in Hd by (rewrite len_app, len_store; unfold len; lia).
  replace (Z.to_nat (len fs)) with (length fs) by (unfold len; lia).
  change (Wire.header + 4) with 16. rewrite Hd. cbn [mbind result_bind need andb].
  rewrite (proj2 (Z.eqb_eq _ _)); [done|]. rewrite !len_app, len_store. unfold len at 2. lia.
Qed.

(** ** The service receives a request in pieces *)

(** A frame of the protocol. *)
Definition is_frame (magic : string) (b : Bytes) : Prop :=
  ∃ p, 4 ≤ len p ≤ Wire.limit ∧ b = bs magic ++ store (len p) 4 ++ p.

Lemma request_frame fs b : Wire.encode_request fs = Ok b → is_frame "FFRPC001" b.
Proof.
  intros (e & _ & _ & Hl & ->)%encode_request_Ok. exists (store (len fs) 4 ++ e). split; [|done].
  split; [|done]. rewrite len_app, len_store. pose proof (len_nonneg e). lia.
Qed.

(** The header of a frame is in every prefix of at least twelve bytes. *)
Lemma frame_prefix magic p x y : length (bs magic) = 8%nat → bs magic ++ store (len p) 4 ++ p = x ++ y →
  (12 ≤ length x)%nat → ∃ q, x = bs magic ++ store (len p) 4 ++ q ∧ p = q ++ y.
Proof.
  intros Hm Hx Hl. exists (drop 12 x).
  assert (take 12 x = bs magic ++ store (len p) 4) as Ht.
  { apply (f_equal (take 12)) in Hx. rewrite (take_app_le x) in Hx by lia. rewrite <- Hx, app_assoc.
    apply take_app_length'. rewrite length_app, length_store. lia. }
  split; [by rewrite app_assoc, <- Ht, take_drop|].
  apply (f_equal (drop 12)) in Hx. rewrite (drop_app_le x) in Hx by lia. rewrite <- Hx, app_assoc.
  rewrite drop_app_length'; [done|]. rewrite length_app, length_store. lia.
Qed.

Lemma framed_prefix b x y : is_frame "FFRPC001" b → b = x ++ y → framed x = Ok (bool_decide (y = [])).
Proof.
  intros (p & Hp & ->) Hxy. unfold framed. destruct (Z.leb_spec Wire.header (len x)) as [Hl|Hl]; simpl.
  - apply frame_prefix in Hxy as (q & -> & ->); [|done|unfold len, Wire.header in Hl; lia].
    rewrite (slice_here 8) by done. unfold bytes_eqb. rewrite bool_decide_eq_true_2 by done.
    cbn [mbind result_bind need].
    rewrite (wire_u32_at _ 8 (len (q ++ y)) q) by (first [by rewrite drop_app_length'|apply len_bound; lia]). cbn [mbind result_bind need].
    rewrite (proj2 (Z.leb_le 4 _)), (proj2 (Z.leb_le _ Wire.limit)) by lia. cbn [andb need mbind result_bind].
    rewrite !len_app, len_store. change (len (bs "FFRPC001")) with 8. change Wire.header with 12.
    pose proof (len_nonneg y). rewrite (proj2 (Z.leb_le _ _)) by lia. cbn [need mbind result_bind]. f_equal.
    destruct y; [apply Z.eqb_eq; simpl; unfold len; simpl; lia|]. rewrite bool_decide_eq_false_2 by done.
    apply Z.eqb_neq. unfold len. simpl. lia.
  - rewrite bool_decide_eq_false_2; [done|]. intros ->. rewrite app_nil_r in Hxy. rewrite <- Hxy in Hl.
    rewrite !len_app, len_store in Hl. change (len (bs "FFRPC001")) with 8 in Hl. unfold Wire.header in Hl. lia.
Qed.

Section Service.
Context `{Digest} {J : Type} `{JournalLike J} (status profile space : container J → Bytes) (uid gid : Z)
  (errno_code : Wire.errno → Z).
Abbreviation answer := (answer status profile space uid gid errno_code).
Abbreviation received := (received status profile space uid gid errno_code).

(** The pieces a connection delivers, one after the other. *)
Fixpoint receive_pieces (pieces : list Bytes) (p : Peer) : ST (rpc J) Peer :=
  match pieces with
  | [] => mret p
  | g :: rest => p ← received g p; receive_pieces rest p
  end.

Lemma receive_pieces_answer b pieces : is_frame "FFRPC001" b → ∀ p r, p_out p = [] →
  p_in p ++ concat pieces = b → Forall (λ g, g ≠ []) pieces → pieces ≠ [] →
  receive_pieces pieces p r = (out ← answer b; mret (mkPeer b out (p_sent p) (p_done p) (p_deadline p))) r.
Proof.
  intros Hb. induction pieces as [|g pieces IH]; intros p r Ho Hc Hne Hn; [done|].
  apply Forall_cons in Hne as [Hg Hne]. simpl in Hc. rewrite app_assoc in Hc. simpl. unfold received at 1.
  rewrite bool_decide_eq_false_2 by done. cbn zeta. cbn [p_in].
  rewrite (framed_prefix b _ _ Hb (eq_sym Hc)). destruct pieces as [|g' pieces].
  - simpl in *. rewrite app_nil_r in Hc. rewrite Hc. unfold mbind, st_bind. simpl.
    by destruct (answer b r) as [r' []].
  - rewrite bool_decide_eq_false_2.
    2: { apply Forall_cons in Hne as [Hg' _]. by destruct g'. }
    transitivity (receive_pieces (g' :: pieces)
      (mkPeer (p_in p ++ g) (p_out p) (p_sent p) (p_done p) (p_deadline p)) r); [done|]. by rewrite IH.
Qed.

(** C28: A request is answered once, and as it was asked: whatever the calls of the client's
    sending loop give, the pieces that it hands to the kernel are the encoded fields; and when the
    connection delivers these bytes in any pieces, the service makes no reply before the last
    piece, then answers the whole request, whose decoding is exactly the fields. *)
Theorem request_any_pieces fields b pieces deadline r : Wire.encode_request fields = Ok b →
  concat pieces = b → Forall (λ g, g ≠ []) pieces →
  (∀ limit calls ps, within calls.*2 (length b) 0 → Service.send_all limit calls b 0 = Ok ps → concat ps = b) ∧
  Wire.decode b = Ok fields ∧
  receive_pieces pieces (mkPeer [] [] 0 false deadline) r = (out ← answer b; mret (mkPeer b out 0 false deadline)) r.
Proof.
  intros Hb Hc Hne. split_and!; [|by apply decode_request|].
  - intros limit calls ps Hw Hs. exact (proj1 (send_all_exact limit calls b 0 ps Hw (Nat.le_0_l _) Hs)).
  - apply (receive_pieces_answer b pieces (request_frame fields b Hb) (mkPeer [] [] 0 false deadline)); [done|done|done|].
    intros ->. simpl in Hc. subst b. by apply request_frame in Hb as (p & _ & Hb).
Qed.
End Service.

(** ** The client receives a reply in pieces *)

Lemma response_frame code v b : Wire.response code v = Ok b →
  is_frame "FFRSP001" b ∧ b = bs "FFRSP001" ++ store (len (store code 4 ++ v)) 4 ++ store code 4 ++ v.
Proof.
  unfold Wire.response, Wire.put32. intros [Hl ->]%frame_Ok. split; [|done]. exists (store code 4 ++ v).
  split; [|done]. split; [|done]. rewrite len_app, len_store. pose proof (len_nonneg v). lia.
Qed.

(** The bytes still expected when a part has been read. *)
Definition expected (b reply : Bytes) : Z := if len reply <? Wire.header then Wire.header else len b.

Lemma frame_length b : is_frame "FFRSP001" b → 16 ≤ len b.
Proof. intros (p & Hp & ->). rewrite !len_app, len_store. change (len (bs "FFRSP001")) with 8. lia. Qed.

(** The check of the header as soon as it is complete. *)
Lemma reply_header b reply stream : is_frame "FFRSP001" b → reply ++ stream = b → len reply = Wire.header →
  (need (bytes_eqb (slice 0 8 reply) (bs "FFRSP001")) "unsupported RPC reply";;
   length_ ← Wire.u32 reply 8;
   need ((4 <=? length_) && (length_ <=? Wire.limit)) "invalid RPC reply length";;
   Ok (Wire.header + length_)) = Ok (len b).
Proof.
  intros (p & Hp & ->) Hrs Hl. symmetry in Hrs.
  apply frame_prefix in Hrs as (q & -> & ->); [|done|unfold len, Wire.header in Hl; lia].
  rewrite (slice_here 8) by done. unfold bytes_eqb. rewrite bool_decide_eq_true_2 by done.
  cbn [mbind result_bind need].
  rewrite (wire_u32_at _ 8 (len (q ++ stream)) q) by (first [by rewrite drop_app_length'|apply len_bound; lia]).
  cbn [mbind result_bind need]. rewrite (proj2 (Z.leb_le 4 _)), (proj2 (Z.leb_le _ Wire.limit)) by lia.
  cbn [andb need mbind result_bind]. f_equal. rewrite (len_app (bs _)), (len_app (store _ _)), len_store.
  change (len (bs "FFRSP001")) with 8. unfold Wire.header. lia.
Qed.

Lemma receive_frame b sizes : is_frame "FFRSP001" b → ∀ reply stream, reply ++ stream = b →
  Forall (λ k, (0 < k)%nat) sizes → (length stream ≤ length sizes)%nat →
  Wire.receive sizes stream reply (expected b reply) = Ok b.
Proof.
  intros Hf. pose proof (frame_length b Hf) as Hb16.
  induction sizes as [|k sizes IH]; intros reply stream Hrs Hs Hl; cbn [Wire.receive].
  { destruct stream; [|simpl in Hl; lia]. rewrite app_nil_r in Hrs. subst. unfold expected, Wire.header.
    rewrite (proj2 (Z.ltb_ge _ 12)), Z.leb_refl by lia. done. }
  apply Forall_cons in Hs as [Hk Hs].
  assert (len reply + len stream = len b) as Hlen by (by rewrite <- Hrs, len_app).
  destruct (Z.leb_spec (expected b reply) (len reply)) as [Hd|Hd].
  { unfold expected, Wire.header in Hd. destruct (Z.ltb_spec (len reply) 12); [lia|].
    destruct stream; [by rewrite app_nil_r in Hrs; subst|unfold len in *; simpl in *; lia]. }
  set (n := (k `min` _)%nat). assert (0 < n)%nat as Hn by lia.
  assert (Z.of_nat n ≤ expected b reply - len reply) as Hne by lia. clearbody n.
  assert (expected b reply ≤ len b) as Hexp by (unfold expected, Wire.header; destruct (_ <? _); lia).
  assert (len (take n stream) = Z.of_nat n) as Htake by (unfold len in *; rewrite length_take; lia).
  rewrite bool_decide_eq_true_2 by (intros E; rewrite E in Htake; unfold len in Htake; simpl in Htake; lia).
  cbn [need mbind result_bind]. rewrite len_app, Htake.
  assert ((reply ++ take n stream) ++ drop n stream = b) as Hrs' by (by rewrite <- app_assoc, take_drop).
  match goal with |- context [mbind _ (if ?c then ?x else ?y)] =>
    assert ((if c then x else y) = Ok (expected b (reply ++ take n stream))) as -> end.
  { destruct (Z.eqb_spec (len reply + Z.of_nat n) Wire.header) as [E|E].
    - rewrite (reply_header b _ (drop n stream)) by (done || by rewrite len_app, Htake).
      unfold expected. rewrite len_app, Htake, E, Z.ltb_irrefl. done.
    - f_equal. unfold expected in *. rewrite len_app, Htake. unfold Wire.header in *.
      destruct (Z.ltb_spec (len reply) 12), (Z.ltb_spec (len reply + Z.of_nat n) 12); lia. }
  cbn [mbind result_bind]. replace (length (take n stream)) with n by (unfold len in Htake; lia).
  apply IH; [done|done|]. rewrite length_drop. simpl in Hl. lia.
Qed.

(** What the client makes of a code and a value. *)
Definition meaning (code : Z) (v : Bytes) : Wire.answer :=
  if 1 <? code then Wire.Numbered (code - 1) v else if code =? 1 then Wire.Failure v else Wire.Value v.

(** C33: A reply is read back whatever the kernel delivers at a time: the client reassembles the
    bytes of the response from any positive read sizes and gets the value, the error, or the
    numbered error that the service put in. *)
Theorem reply_any_sizes code v b sizes : Wire.response code v = Ok b → 0 ≤ code ≤ 4096 →
  Forall (λ k, (0 < k)%nat) sizes → (length b ≤ length sizes)%nat →
  Wire.receive sizes b [] Wire.header = Ok b ∧ Wire.read_reply b = Ok (meaning code v).
Proof.
  intros [Hf Hb]%response_frame Hc Hs Hl. split; [by apply (receive_frame b sizes Hf [] b)|].
  unfold Wire.read_reply. rewrite Hb.
  rewrite (wire_u32_at _ 12 code v) by first [lia|by rewrite app_assoc, drop_app_length'].
  cbn [mbind result_bind]. rewrite (proj2 (Z.leb_le _ _)) by lia. cbn [need mbind result_bind].
  by rewrite 2!app_assoc, drop_app_length'.
Qed.

(** The daemon reports a handle it does not know as an invalid argument: the message it throws
    is not the one the translation looks for. *)
Lemma unknown_handle_errno : Wire.rpc_posix_error "invalid or expired file handle" = Wire.EINVAL.
Proof. reflexivity. Qed.

(** ** Witnesses *)

Definition idle_service : rpc memory :=
  mkRpc (mkSys (opened (mkMemory (mkKv 1 ∅ ∅) true) [] false [] 0) [] [] []) ∅ [].
Definition status_request : Bytes := bs "FFRPC001" ++ store 14 4 ++ store 1 4 ++ store 6 4 ++ bs "status".

Lemma request_any_pieces_witness :
  Wire.decode status_request = Ok [bs "status"] ∧
  receive_pieces (λ _, bs "up") (λ _, []) (λ _, []) 0 0 (λ _, 5) [take 5 status_request; drop 5 status_request]
    (mkPeer [] [] 0 false 9) idle_service =
  (out ← answer (λ _, bs "up") (λ _, []) (λ _, []) 0 0 (λ _, 5) status_request; mret (mkPeer status_request out 0 false 9))
    idle_service.
Proof.
  apply (request_any_pieces (λ _, bs "up") (λ _, []) (λ _, []) 0 0 (λ _, 5) [bs "status"] status_request
    [take 5 status_request; drop 5 status_request] 9 idle_service); [reflexivity|reflexivity|].
  repeat constructor; discriminate.
Defined.

Definition up_reply : Bytes := bs "FFRSP001" ++ store 6 4 ++ store 0 4 ++ bs "up".
Lemma reply_any_sizes_witness :
  Wire.receive (replicate 18 1%nat) up_reply [] Wire.header = Ok up_reply ∧ Wire.read_reply up_reply = Ok (Wire.Value (bs "up")).
Proof.
  apply (reply_any_sizes 0 (bs "up") up_reply (replicate 18 1%nat)); [reflexivity|lia| |].
  - apply Forall_replicate. lia.
  - apply Nat.leb_le. reflexivity.
Defined.
