(* ===== verification/SessionsSpec.v ===== *)
(** * Sessions: limits, leases and exclusive mounts

    What holds of the sessions in every state the event loop reaches, whatever the connections
    send and the system calls give: the limits of the service, and one mount per world; and what
    a mount means for the requests of the others. *)

From S2P Require Import Prelude Codec Journal JournalStore MetadataTree Store StoreMemory MetadataView Container Nodes Namespace Files.
From S2P Require Import Worlds Handles Traverse Wire Sessions Rpc Dispatch Moves Instances.
Import Container Sessions Rpc Dispatch.
Local Open Scope Z_scope.

(** ** The state of the service *)

Record session_ok (s : Session) : Prop := {
  so_lease : 100 ≤ lease s ≤ 300000;
  so_handles : (size (s_handles s) ≤ 256)%nat;
  so_directories : (size (s_directories s) ≤ 64)%nat;
}.

(** The world a session has mounted for writing. *)
Definition mounts (s : Session) : option Bytes :=
  match mount s with Some m => if ow_revision m then None else Some (ow_view m) | None => None end.

Record sessions_ok (v : gmap Bytes Session) : Prop := {
  sk_count : (size v ≤ 128)%nat;
  sk_each : ∀ token s, v !! token = Some s → session_ok s;
  sk_cursors : directory_count v ≤ 1024;
  sk_mounts : ∀ token token' s s' w, v !! token = Some s → v !! token' = Some s' →
    mounts s = Some w → mounts s' = Some w → token = token';
}.

(** ** Counting cursors *)

Lemma sum_permuted {A} (f : A → Z) l l' : l ≡ₚ l' → foldr (λ e n, f e + n) 0 l = foldr (λ e n, f e + n) 0 l'.
Proof. induction 1; simpl; lia. Qed.

Lemma directory_count_split (v : gmap Bytes Session) token s : v !! token = Some s →
  directory_count v = Z.of_nat (size (s_directories s)) + directory_count (delete token v).
Proof.
  intros Hs. unfold directory_count. by rewrite <- (sum_permuted _ _ _ (map_to_list_delete v token s Hs)).
Qed.
Lemma directory_count_nonneg (v : gmap Bytes Session) : 0 ≤ directory_count v.
Proof. unfold directory_count. induction (map_to_list v); simpl; lia. Qed.
Lemma directory_count_insert (v : gmap Bytes Session) token s :
  directory_count (<[token := s]> v) = Z.of_nat (size (s_directories s)) + directory_count (delete token v).
Proof. rewrite (directory_count_split _ token s) by apply lookup_insert_eq. by rewrite delete_insert_eq. Qed.

(** ** Changing one session *)

Lemma size_alter (f : Session → Session) (token : Bytes) (v : gmap Bytes Session) : size (alter f token v) = size v.
Proof. rewrite <- !size_dom, dom_alter_L. done. Qed.

(** A change to one session that respects the limits and does not take a mounted world. *)
Lemma alter_ok_gen (f : Session → Session) (token : Bytes) (v : gmap Bytes Session) :
  sessions_ok v →
  (∀ s, v !! token = Some s → session_ok s → session_ok (f s) ∧
     Z.of_nat (size (s_directories (f s))) + directory_count (delete token v) ≤ 1024 ∧
     ∀ t s' w, t ≠ token → v !! t = Some s' → mounts s' = Some w → mounts (f s) ≠ Some w) →
  sessions_ok (alter f token v).
Proof.
  intros [Hc He Hd Hm] Hf. destruct (v !! token) as [s|] eqn:Hs.
  2:{ rewrite alter_id; [by split|]. intros s Hs'. congruence. }
  destruct (Hf s eq_refl (He _ _ Hs)) as (Hok & Hsz & Hmt).
  assert (∀ t s', alter f token v !! t = Some s' → t = token ∧ s' = f s ∨ t ≠ token ∧ v !! t = Some s') as Hget.
  { intros t s' Hs'. destruct (decide (t = token)) as [->|Hne].
    - rewrite lookup_alter_eq, Hs in Hs'. injection Hs' as <-. by left.
    - rewrite lookup_alter_ne in Hs' by done. by right. }
  split.
  - by rewrite size_alter.
  - intros t s' [[-> ->]|[_ Hs']]%Hget; [done|by eapply He].
  - rewrite (directory_count_split _ token (f s)) by (by rewrite lookup_alter_eq, Hs).
    by rewrite delete_alter, decide_True by done.
  - intros t1 t2 s1 s2 w [[-> ->]|[N1 H1]]%Hget [[-> ->]|[N2 H2]]%Hget M1 M2; [done| | |by eapply Hm].
    + by destruct (Hmt t2 s2 w N2 H2 M2).
    + by destruct (Hmt t1 s1 w N1 H1 M1).
Qed.

(** A change that keeps the mount, or gives it up, and adds no cursor. *)
Lemma alter_ok (f : Session → Session) (token : Bytes) (v : gmap Bytes Session) :
  sessions_ok v →
  (∀ s, v !! token = Some s → session_ok s → session_ok (f s) ∧ (mounts (f s) = mounts s ∨ mounts (f s) = None) ∧
     (size (s_directories (f s)) ≤ size (s_directories s))%nat) →
  sessions_ok (alter f token v).
Proof.
  intros Hv Hf. apply alter_ok_gen; [done|]. intros s Hs Hok. destruct (Hf s Hs Hok) as (Hok' & Hmt & Hsz).
  destruct Hv as [_ _ Hd Hm]. split_and!; [done| |].
  - rewrite (directory_count_split v token s Hs) in Hd. lia.
  - intros t s' w Hne Hs' Hw' Hw. destruct Hmt as [E|E]; [|congruence]. apply Hne.
    eapply (Hm t token s' s w); [done..|congruence].
Qed.

Lemma delete_ok (token : Bytes) (v : gmap Bytes Session) : sessions_ok v → sessions_ok (delete token v).
Proof.
  intros [Hc He Hd Hm]. split.
  - etrans; [|exact Hc]. rewrite <- !size_dom, dom_delete_L. apply subseteq_size. set_solver.
  - intros t s [_ Hs]%lookup_delete_Some. by eapply He.
  - destruct (v !! token) as [s|] eqn:Hs; [|by rewrite delete_id].
    rewrite (directory_count_split v token s Hs) in Hd. lia.
  - intros t1 t2 s1 s2 w [_ H1]%lookup_delete_Some [_ H2]%lookup_delete_Some. by eapply Hm.
Qed.

(** ** Every operation keeps the invariant *)

Section Kept.
Context `{Digest} {J : Type} `{JournalLike J}.
Implicit Types (r : rpc J) (m : ST (rpc J) unit).

Definition keeps r r' : Prop := sessions_ok (values_ r) → sessions_ok (values_ r').
#[export] Instance keeps_preorder : PreOrder keeps.
Proof. split; [by intros r Hr|]. unfold keeps. intros r1 r2 r3. auto. Qed.

(** Operations that leave the sessions alone. *)
Definition aside r r' : Prop := values_ r' = values_ r.
#[export] Instance aside_preorder : PreOrder aside.
Proof. split; [done|]. unfold aside. intros r1 r2 r3 E1 E2. congruence. Qed.
Lemma aside_keeps {A} (op : ST (rpc J) A) : moves aside op → moves keeps op.
Proof. apply moves_impl. unfold aside, keeps. by intros r r' ->. Qed.

Lemma aside_on_store {A} (op : ST (sys J) A) : moves aside (on_store op).
Proof. intros r. unfold on_store, aside. by destruct (op (r_sys r)). Qed.
Lemma aside_tick : moves aside (tick (J := J)).
Proof. intros r. done. Qed.
#[local] Hint Resolve aside_on_store aside_tick : moves.
Lemma aside_new_token taken : moves aside (new_token (J := J) taken).
Proof.
  unfold new_token. moves. generalize (S (length (entropy (r_sys a)))). intros k.
  induction k as [|k IH]; cbn [fresh_session]; [moves|]. unfold random_token. moves.
Qed.
#[local] Hint Resolve aside_new_token : moves.

Lemma keeps_put v : sessions_ok v → moves keeps (put_values (J := J) v).
Proof. intros Hv r _. exact Hv. Qed.
Lemma keeps_update token (f : Session → Session) :
  (∀ s, session_ok s → session_ok (f s) ∧ (mounts (f s) = mounts s ∨ mounts (f s) = None) ∧
     (size (s_directories (f s)) ≤ size (s_directories s))%nat) →
  moves keeps (update_session (J := J) token f).
Proof. intros Hf r Hr. cbn. apply alter_ok; [done|]. intros s _. apply Hf. Qed.
#[local] Hint Resolve keeps_update : moves.
#[local] Hint Extern 4 (moves keeps _) => apply aside_keeps; solve [eauto 3 with moves nocore typeclass_instances] : moves.

(** The changes to one session that need no check. *)
Lemma ok_deadline d s : session_ok s → session_ok (set_deadline d s).
Proof. by intros []. Qed.
Lemma ok_owned (h : gmap Bytes OwnedHandle) s : (size h ≤ 256)%nat → session_ok s → session_ok (set_owned h s).
Proof. by intros ? []. Qed.
Lemma ok_dirs (d : gmap Bytes OwnedDirectory) s : (size d ≤ 64)%nat → session_ok s → session_ok (set_directories d s).
Proof. by intros ? []. Qed.
Lemma size_delete_le {A} (k : Bytes) (h : gmap Bytes A) : (size (delete k h) ≤ size h)%nat.
Proof. rewrite <- !size_dom, dom_delete_L. apply subseteq_size. set_solver. Qed.

Lemma insert_deadline_ok (d : Z) (token : Bytes) (s : Session) (v : gmap Bytes Session) :
  v !! token = Some s → sessions_ok v → sessions_ok (<[token := set_deadline d s]> v).
Proof.
  intros Hs Hv. assert (<[token := set_deadline d s]> v = alter (set_deadline d) token v) as ->.
  { apply map_eq. intros k. destruct (decide (k = token)) as [->|Hne].
    - by rewrite lookup_insert_eq, lookup_alter_eq, Hs.
    - by rewrite lookup_insert_ne, lookup_alter_ne by done. }
  apply alter_ok; [done|]. intros s' _ Hok. split_and!; [by apply ok_deadline|by left|done].
Qed.

Lemma keeps_acquire token : moves keeps (Sessions.acquire (J := J) token).
Proof.
  intros r Hr. unfold Sessions.acquire, mbind, st_bind, gets. cbn [fst snd].
  destruct (values_ r !! token) as [s|] eqn:Hs; [|done].
  unfold st_need, lift, tick, put_values, mret, st_ret. destruct (need _ _); [|done..]. cbn.
  destruct (need _ _); [|done..]. cbn. by apply insert_deadline_ok.
Qed.
#[local] Hint Resolve keeps_acquire : moves.

Lemma keeps_close token : moves keeps (Sessions.close (J := J) token).
Proof.
  unfold Sessions.close. assert (∀ l, moves keeps (close_handles (J := J) token l)) as Hclose.
  { induction l as [|[h o] l IH]; cbn [close_handles]; [moves|]. moves. apply keeps_update. intros s' Hok. split_and!; [|by left|done].
    apply ok_owned; [|done]. etrans; [apply size_delete_le|apply Hok]. }
  assert (∀ l, moves aside (drop_directories (J := J) l)) as Hdrop.
  { induction l as [|[h o] l IH]; cbn [drop_directories]; moves. }
  apply moves_bind; [exact _|moves|]. intros v. destruct (v !! token) as [s'|]; [|moves].
  apply moves_bind; [exact _| |intros _]. { apply keeps_update. intros s0 []. split_and!; [by split|by left|done]. }
  apply moves_bind; [exact _|apply Hclose|intros _]. intros r Hr.
  unfold mbind, st_bind, gets. cbn [fst snd]. pose proof (Hdrop (in_order (s_directories s')) r) as Hd. unfold aside in Hd.
  destruct (drop_directories _ r) as [r' [u|e|]]; cbn [fst] in *; [|by rewrite Hd..]. apply delete_ok, Hr.
Qed.
#[local] Hint Resolve keeps_close : moves.

Lemma new_token_fresh taken r r' token : new_token (J := J) taken r = (r', Ok token) → taken token = false.
Proof.
  intros (r1 & r2 & E1 & E)%st_bind_Ok. injection E1 as <- <-. revert E. generalize (S (length (entropy (r_sys r)))). intros k.
  generalize r at 1. induction k as [|k IH]; intros r0 E; cbn [fresh_session] in E; [done|].
  apply st_bind_Ok in E as (t & r3 & _ & E). destruct (taken t) eqn:Et; [by eapply IH|]. by injection E as _ <-.
Qed.

(** Steps from a given state, for the operations that test before they change. *)
Lemma from_aside {A B} (op : ST (rpc J) A) (f : A → ST (rpc J) B) r :
  moves aside op → (∀ a r', op r = (r', Ok a) → values_ r' = values_ r → keeps r' (f a r').1) → keeps r ((op ≫= f) r).1.
Proof.
  intros Hop Hf. specialize (Hop r). unfold aside in Hop. unfold mbind, st_bind. destruct (op r) as [r' [a|e|]]; cbn [fst] in *.
  - intros Hr. apply (Hf a r' eq_refl Hop). by rewrite Hop.
  - intros Hr. by rewrite Hop.
  - intros Hr. by rewrite Hop.
Qed.
Lemma from_need {B} b msg (f : unit → ST (rpc J) B) r :
  (b = true → keeps r (f tt r).1) → keeps r ((st_need b msg ≫= f) r).1.
Proof. intros Hf. destruct b; [by apply Hf|by intros Hr]. Qed.
Lemma from_gets {A B} (g : rpc J → A) (f : A → ST (rpc J) B) r : keeps r (f (g r) r).1 → keeps r ((gets g ≫= f) r).1.
Proof. done. Qed.
Lemma from_session {B} token (f : Session → ST (rpc J) B) r :
  keeps r (f (default (mkSession 0 0 true ∅ None ∅) (values_ r !! token)) r).1 → keeps r ((session_of token ≫= f) r).1.
Proof. done. Qed.
Lemma from_update {B} token g (f : unit → ST (rpc J) B) r :
  (sessions_ok (values_ r) → sessions_ok (alter g token (values_ r))) → (∀ u, moves keeps (f u)) →
  keeps r ((update_session token g ≫= f) r).1.
Proof. intros Hg Hf Hr. unfold mbind, st_bind. cbn. apply Hf, Hg, Hr. Qed.

Lemma insert_new_ok (token : Bytes) (s : Session) (v : gmap Bytes Session) :
  v !! token = None → Z.of_nat (size v) < 128 → session_ok s → mounts s = None → s_directories s = ∅ →
  sessions_ok v → sessions_ok (<[token := s]> v).
Proof.
  intros Hn Hsz Hok Hm Hd [_ He Hdc Hmt]. split.
  - rewrite map_size_insert_None by done. lia.
  - intros t s' [[<- <-]|[_ Hs']]%lookup_insert_Some; [done|by eapply He].
  - rewrite directory_count_insert, Hd, map_size_empty, delete_id by done. lia.
  - intros t1 t2 s1 s2 w [[<- <-]|[_ H1]]%lookup_insert_Some [[<- <-]|[_ H2]]%lookup_insert_Some M1 M2; [done|congruence..|].
    by eapply Hmt.
Qed.

Lemma keeps_create lease_ms : moves keeps (create (J := J) lease_ms).
Proof.
  intros r. apply from_need. intros [Hl Hu]%andb_true_iff. apply from_gets, from_need. intros Hsz%Z.ltb_lt.
  apply from_aside; [moves|]. intros token r1 E1 V1. apply new_token_fresh in E1. apply bool_decide_eq_false in E1.
  apply from_aside; [moves|]. intros t r2 _ V2 Hr. cbn. rewrite V2, V1 in Hr. apply insert_new_ok; try done.
  - by apply eq_None_not_Some.
  - apply Z.leb_le in Hl, Hu. split; cbn; [lia|rewrite map_size_empty; lia..].
Qed.
#[local] Hint Resolve keeps_create : moves.

Lemma keeps_expire : moves keeps (expire (J := J)).
Proof.
  unfold expire. moves.
  - generalize (in_order a). intros l. induction l as [|[t s] l IH]; cbn [dead_sessions]; moves.
  - generalize a0. intros l. induction l as [|t l IH]; cbn [close_all]; moves.
Qed.
#[local] Hint Resolve keeps_expire : moves.

(** ** Mounts *)

Lemma no_rival_Ok token view l : no_rival token view l = Ok tt →
  ∀ t s, (t, s) ∈ l → t ≠ token → mounts s ≠ Some view.
Proof.
  induction l as [|[other s] l IH]; cbn [no_rival]; [intros _ ???%not_elem_of_nil; done|].
  intros ([] & E1 & E)%bind_Ok t s' [[= -> ->]|Hin]%elem_of_cons Hne; [|by eapply IH].
  rewrite bool_decide_eq_false_2 in E1 by done. apply need_bind_Ok in E1 as [Hm _]. unfold mounts.
  destruct (mount s) as [m|]; [|done]. destruct (ow_revision m); [done|]. cbn [orb] in Hm. intros [= Hv].
  apply negb_true_iff, bool_decide_eq_false in Hm. done.
Qed.

Lemma mounted_ok (token view : Bytes) (revision : bool) (v : gmap Bytes Session) :
  (revision = false → no_rival token view (in_order v) = Ok tt) → sessions_ok v →
  sessions_ok (alter (set_mount (Some (mkOwned view revision))) token v).
Proof.
  intros Hn Hv. apply alter_ok_gen; [done|]. intros s Hs []. split_and!; [by split| |].
  - destruct Hv as [_ _ Hd _]. by rewrite (directory_count_split v token s Hs) in Hd.
  - intros t s' w Hne Hs' Hw. unfold mounts at 1. cbn. destruct revision; [done|]. intros [= ->].
    eapply no_rival_Ok; [by apply Hn|by apply elem_of_in_order|done|done].
Qed.

Lemma keeps_mount_acquire token view revision : moves keeps (mount_acquire (J := J) token view revision).
Proof.
  apply moves_bind; [exact _|moves|]. intros s r. apply from_need. intros _. apply from_gets.
  unfold mbind, st_bind. destruct revision; [cbn; intros Hr; by apply mounted_ok|].
  unfold lift. destruct (no_rival token view (in_order (values_ r))) as [[]|e|] eqn:En; [|by intros Hr..].
  intros Hr. by apply mounted_ok.
Qed.
#[local] Hint Resolve keeps_mount_acquire : moves.
Lemma keeps_mount_require token view revision : moves keeps (mount_require (J := J) token view revision).
Proof. unfold mount_require. moves. Qed.
Lemma keeps_authorize token view revision writes : moves keeps (authorize (J := J) token view revision writes).
Proof. unfold authorize. moves. Qed.
#[local] Hint Resolve keeps_mount_require keeps_authorize : moves.

(** ** Handles and cursors of a session *)

Lemma keeps_ensure {A} (op : ST (rpc J) A) cleanup : moves keeps op → moves keeps cleanup → moves keeps (ensure op cleanup).
Proof.
  intros Ho Hc r. unfold ensure. specialize (Ho r). destruct (op r) as [r' a]. cbn [fst] in *. by etrans; [|apply Hc].
Qed.

Lemma limited_handle_ok (token h : Bytes) (o : OwnedHandle) (v : gmap Bytes Session) :
  (∀ s, v !! token = Some s → (size (s_handles s) < 256)%nat) → sessions_ok v →
  sessions_ok (alter (λ s, set_owned (<[h := o]> (s_handles s)) s) token v).
Proof.
  intros Hl Hv. apply alter_ok; [done|]. intros s Hs Hok. split_and!; [|by left|done].
  apply ok_owned; [|done]. specialize (Hl s Hs). rewrite map_size_insert. destruct (s_handles s !! h); cbn; lia.
Qed.
Lemma limited_cursor_ok (token c : Bytes) (d : OwnedDirectory) (v : gmap Bytes Session) :
  (∀ s, v !! token = Some s → (size (s_directories s) < 64)%nat) → directory_count v < 1024 → sessions_ok v →
  sessions_ok (alter (λ s, set_directories (<[c := d]> (s_directories s)) s) token v).
Proof.
  intros Hl Hc Hv. apply alter_ok_gen; [done|]. intros s Hs Hok. specialize (Hl s Hs).
  assert (size (<[c := d]> (s_directories s)) ≤ S (size (s_directories s)))%nat as Hsz.
  { rewrite map_size_insert. destruct (s_directories s !! c); cbn; lia. } split_and!.
  - apply ok_dirs; [lia|done].
  - rewrite (directory_count_split v token s Hs) in Hc. cbn [set_directories s_directories]. lia.
  - intros t s' w Hne Hs' Hw E. apply Hne. by eapply (sk_mounts _ Hv t token s' s w).
Qed.

(** Opening a file and duplicating a handle. *)
Lemma from_limit {B} token (f : unit → ST (rpc J) B) r :
  ((∀ s, values_ r !! token = Some s → (size (s_handles s) < 256)%nat) → keeps r (f tt r).1) →
  keeps r ((below_handle_limit token ≫= f) r).1.
Proof.
  intros Hf. unfold mbind, st_bind. change (below_handle_limit token r)
    with (r, need (Z.of_nat (size (s_handles (default (mkSession 0 0 true ∅ None ∅) (values_ r !! token)))) <? 256) "session handle limit reached").
  destruct (Z.ltb_spec (Z.of_nat (size (s_handles (default (mkSession 0 0 true ∅ None ∅) (values_ r !! token))))) 256) as [E|E];
    [|by intros Hr]. apply Hf. intros s Hs. rewrite Hs in E. cbn in E. lia.
Qed.
Lemma keeps_limited {A} (op : ST (sys J) Bytes) (n : Namespace.ns) token (g : Bytes → ST (rpc J) A) :
  (∀ h, moves keeps (g h)) →
  moves keeps (below_handle_limit token;; h ← on_store op; own_handle token h n;; g h).
Proof.
  intros Hg r. apply from_limit. intros Hl. apply from_aside; [moves|]. intros h r' _ V.
  apply from_update; [|intros _; apply Hg]. apply limited_handle_ok. by rewrite V.
Qed.
Lemma keeps_fs_open n token args mode : moves keeps (fs_open (J := J) n token args mode).
Proof.
  unfold fs_open. apply moves_bind; [exact _|moves|]. intros [access o]. apply keeps_limited. intros h. moves.
Qed.
Lemma keeps_fs_dup n token args : moves keeps (fs_dup (J := J) n token args).
Proof. unfold fs_dup. apply keeps_limited. intros h. moves. Qed.
#[local] Hint Resolve keeps_fs_open keeps_fs_dup : moves.

Lemma keeps_dir_open n token args : moves keeps (dir_open (J := J) n token args).
Proof.
  intros r. apply from_session, from_gets, from_need. intros [Hs%Z.ltb_lt Hd%Z.ltb_lt]%andb_true_iff.
  apply from_aside; [moves|]. intros d r1 _ V1. apply from_aside; [moves|]. intros c r2 _ V2.
  apply from_update; [|intros _; moves]. apply limited_cursor_ok; rewrite V2, V1; [|done].
  intros s Hv. rewrite Hv in Hs. cbn in Hs. lia.
Qed.
#[local] Hint Resolve keeps_dir_open : moves.

Lemma keeps_set_cursor token c d : moves keeps (set_cursor (J := J) token c d).
Proof.
  apply keeps_update. intros s Hok. assert (∀ f, size (alter f c (s_directories s)) = size (s_directories s)) as Hsz.
  { intros f. by rewrite <- !size_dom, dom_alter_L. } split_and!; [|by left|cbn; by rewrite Hsz].
  apply ok_dirs; [rewrite Hsz; apply Hok|done].
Qed.
Lemma keeps_drop_owned token h : moves keeps (update_session (J := J) token (λ s, set_owned (delete h (s_handles s)) s)).
Proof.
  apply keeps_update. intros s Hok. split_and!; [|by left|done]. apply ok_owned; [|done].
  etrans; [apply size_delete_le|apply Hok].
Qed.
Lemma keeps_drop_cursor token c : moves keeps (update_session (J := J) token (λ s, set_directories (delete c (s_directories s)) s)).
Proof.
  apply keeps_update. intros s Hok. split_and!; [|by left|apply size_delete_le]. apply ok_dirs; [|done].
  etrans; [apply size_delete_le|apply Hok].
Qed.
#[local] Hint Resolve keeps_set_cursor keeps_drop_owned keeps_drop_cursor : moves.

(** ** Requests *)

Section Service.
Context (status profile space : container J → Bytes) (uid gid : Z) (errno_code : Wire.errno → Z).

Lemma aside_text f : moves aside (text (J := J) f).
Proof. unfold text. moves. Qed.
Lemma aside_session_of token : moves aside (session_of (J := J) token).
Proof. unfold session_of. moves. Qed.
#[local] Hint Resolve aside_text aside_session_of : moves.
Lemma keeps_with_activity {A} token (op : ST (rpc J) A) : moves keeps op → moves keeps (with_activity token op).
Proof.
  intros Ho. apply keeps_ensure; [done|]. unfold renew. moves. apply keeps_update. intros s Hok.
  split_and!; [by apply ok_deadline|by left|done].
Qed.

Lemma aside_child n parent name : moves aside (child (J := J) n parent name).
Proof. unfold child. moves. Qed.
Lemma aside_described n path : moves aside (described (J := J) n path).
Proof. unfold described. moves. Qed.
Lemma aside_same_entry n path id msg : moves aside (same_entry (J := J) n path id msg).
Proof. unfold same_entry. moves. Qed.
Lemma aside_target_missing n target : moves aside (target_missing (J := J) n target).
Proof. unfold target_missing. moves. Qed.
#[local] Hint Resolve aside_child aside_described aside_same_entry aside_target_missing : moves.
Lemma aside_inode_rename n args : moves aside (inode_rename (J := J) n args).
Proof. unfold inode_rename. moves. Qed.
Lemma aside_inode_setattr n token args : moves aside (inode_setattr (J := J) n token args).
Proof. unfold inode_setattr. moves. Qed.
Lemma keeps_inode_root n token : moves keeps (inode_root (J := J) uid gid n token).
Proof. unfold inode_root. moves. apply keeps_ensure; moves. Qed.
#[local] Hint Resolve aside_inode_rename aside_inode_setattr keeps_inode_root : moves.
Lemma keeps_inode_request n token op args : moves keeps (inode_request (J := J) status space uid gid n token op args).
Proof. unfold inode_request. moves. Qed.
#[local] Hint Resolve keeps_inode_request : moves.

Lemma keeps_acts n op args : moves keeps (acts (J := J) n op args).
Proof. unfold acts. moves. Qed.
Lemma keeps_command n token op args mode : moves keeps (command (J := J) status n token op args mode).
Proof.
  pose proof (keeps_acts n op args).
  unfold command, dir_rewind, dir_close, dir_page, dir_cursor, fs_lock, fs_seek, fs_attributes, fs_close. moves.
Qed.
#[local] Hint Resolve keeps_command : moves.
Lemma keeps_serve_request sel op ho d : moves keeps (serve_request (J := J) status profile space uid gid sel op ho d).
Proof. unfold serve_request, check_owner. moves. Qed.
Lemma keeps_dispatch args : moves keeps (dispatch (J := J) status profile space uid gid args).
Proof. unfold dispatch. moves. apply keeps_with_activity, keeps_serve_request. Qed.

Abbreviation dispatch_ := (dispatch (J := J) status profile space uid gid).
Abbreviation turn_ := (turn (J := J) status profile space uid gid errno_code).

Lemma keeps_answer b : moves keeps (answer status profile space uid gid errno_code b).
Proof.
  intros r. unfold answer. destruct (Wire.decode b) as [fields|e|]; [|by intros Hr..].
  assert (moves keeps (v ← dispatch_ fields; lift (Wire.response 0 v))) as Hm
    by (apply moves_bind; [exact _|apply keeps_dispatch|moves]).
  specialize (Hm r). destruct ((dispatch_ fields ≫= λ v, lift (Wire.response 0 v)) r) as [r' [out|e|]]; exact Hm.
Qed.
#[local] Hint Resolve keeps_answer : moves.
Lemma keeps_received got p : moves keeps (received status profile space uid gid errno_code got p).
Proof. unfold received. moves. Qed.
#[local] Hint Resolve keeps_received : moves.
Lemma keeps_peers_turn l : moves keeps (peers_turn status profile space uid gid errno_code l).
Proof. induction l as [|[e p] l IH]; cbn [peers_turn]; [moves|]. unfold peer_turn. moves. Qed.
#[local] Hint Resolve keeps_peers_turn : moves.
Lemma keeps_turn listening evs accepted peers : moves keeps (turn_ listening evs accepted peers).
Proof. unfold turn. moves. Qed.

Lemma peers_turn_length l r r' ps :
  peers_turn status profile space uid gid errno_code l r = (r', Ok ps) → length ps = length l.
Proof.
  revert r ps. induction l as [|[e p] l IH]; intros r ps E; cbn [peers_turn] in E; [by injection E as _ <-|].
  apply st_bind_Ok in E as (p' & r1 & _ & E). apply st_bind_Ok in E as (ps' & r2 & E2 & E). injection E as <- <-.
  cbn [length]. f_equal. by eapply IH.
Qed.
Lemma turn_length listening evs accepted peers r r' ps :
  turn_ listening evs accepted peers r = (r', Ok ps) → (length peers ≤ 16)%nat → (length ps ≤ 16)%nat.
Proof.
  intros (u & r1 & _ & E)%st_bind_Ok Hl. apply st_bind_Ok in E as (u' & r2 & _ & E). apply st_bind_Ok in E as (ps1 & r3 & E1 & E).
  apply peers_turn_length in E1. pose proof (length_filter (λ p, p_done p = false) ps1) as Hf.
  rewrite length_zip_with in E1. destruct accepted as [owner|]; [|injection E as _ <-; lia].
  apply st_bind_Ok in E as (t & r4 & _ & E). injection E as _ <-.
  destruct (_ <? _)%nat eqn:E16; [apply Nat.ltb_lt in E16|cbn [andb]; lia]. destruct owner; cbn [andb]; [rewrite length_app; cbn [length]|]; lia.
Qed.

(** The sessions and the connections the event loop reaches: between two turns the container may
    be any, since other threads use it. *)
Inductive serves : gmap Bytes Session → list Peer → Prop :=
| serves_start : serves ∅ []
| serves_turn v peers sys ticks listening evs accepted r' peers' :
    serves v peers → turn_ listening evs accepted peers (mkRpc sys v ticks) = (r', Ok peers') → serves (values_ r') peers'.

(** C26: The service keeps its limits.  In every state the event loop reaches, whatever the
    connections send, the system calls give and the clock shows: there are at most 128 sessions
    and 16 connections, every lease is between 100 and 300000 milliseconds, a session owns at
    most 256 handles and 64 directory cursors, there are at most 1024 cursors in all, and no
    world is mounted for writing by two sessions. *)
Theorem service_limits v peers : serves v peers → sessions_ok v ∧ (length peers ≤ 16)%nat.
Proof.
  induction 1 as [|v peers sys ticks listening evs accepted r' peers' _ [Hv Hp] E].
  - split; [|cbn; lia]. split; [rewrite map_size_empty; lia|done|done|done].
  - split; [|by eapply turn_length]. pose proof (keeps_turn listening evs accepted peers (mkRpc sys v ticks)) as Hk.
    rewrite E in Hk. by apply Hk.
Qed.

(** ** What a mount excludes *)

(** A run that ends in an error and has not used the store. *)
Definition refused {A} r (out : rpc J * result A) : Prop := (∃ e, out.2 = Err e) ∧ r_sys out.1 = r_sys r.

Lemma refused_need {B} b msg (f : unit → ST (rpc J) B) r : (b = true → refused r (f tt r)) → refused r ((st_need b msg ≫= f) r).
Proof. intros Hf. destruct b; [by apply Hf|]. split; [by exists msg|done]. Qed.
Lemma refused_err {A B} (op : ST (rpc J) A) (f : A → ST (rpc J) B) r : refused r (op r) → refused r ((op ≫= f) r).
Proof.
  unfold mbind, st_bind. destruct (op r) as [r' a]. intros [[e E] Hs]. cbn [fst snd] in *. subst a. split; [by exists e|done].
Qed.

(** The session [token] has mounted the world [w] for writing. *)
Definition holds r (token w : Bytes) : Prop := ∃ s, values_ r !! token = Some s ∧ mounts s = Some w.

Lemma authorize_refuses r token' token w : holds r token w → token' ≠ token → refused r (authorize token' w false true r).
Proof.
  intros (s & Hs & Hm) Hne. unfold authorize. cbn [negb orb]. unfold mbind, st_bind, gets. cbn [fst snd].
  destruct (existsb _ (in_order (values_ r))) eqn:E; [split; [by eexists|done]|]. exfalso.
  apply not_true_iff_false in E. apply E. apply existsb_exists. exists (token, s).
  split; [apply list_elem_of_In; by apply elem_of_in_order|]. cbn [fst snd].
  rewrite bool_decide_eq_false_2 by congruence. cbn [negb andb]. unfold mounts in Hm. destruct (mount s) as [m|]; [|done].
  destruct (ow_revision m); [done|]. injection Hm as ->. by apply bool_decide_eq_true.
Qed.

(** Operations that only test. *)
Definition tests {A} (op : ST (rpc J) A) : Prop := ∀ r, ∃ x, op r = (r, x) ∧ x ≠ OutOfFuel.
Lemma tests_need b msg : tests (st_need b msg).
Proof. intros r. eexists. split; [done|]. by destruct b. Qed.
Lemma tests_bind {A B} (op : ST (rpc J) A) (f : A → ST (rpc J) B) : tests op → (∀ a, tests (f a)) → tests (op ≫= f).
Proof.
  intros Ho Hf r. destruct (Ho r) as (x & E & Hx). unfold mbind, st_bind. rewrite E. destruct x as [a|e|]; [apply Hf|by eexists|done].
Qed.
Lemma check_owner_tests n token op args ho d : tests (check_owner (J := J) n token op args ho d).
Proof.
  apply tests_bind; [by intros r; eexists|]. intros s. apply tests_bind; [apply tests_need|]. intros _.
  destruct (d && _); [|by intros r; eexists]. destruct (_ !! _); [apply tests_need|by intros r; eexists].
Qed.

Lemma serve_refuses sel op ho d r token :
  holds r token (s_view sel) → s_revision sel = false → s_session sel ≠ token →
  one_of op reads = false → op_is op "status" = false → op_is op "storage-profile" = false →
  refused r (serve_request (J := J) status profile space uid gid sel op ho d r).
Proof.
  intros Hh Hrev Hne Hr Hs Hp. unfold serve_request. cbv zeta. rewrite Hs, Hp, Hr, Hrev. cbn [negb].
  destruct (check_owner_tests (Namespace.mkNs (s_view sel) false) (s_session sel) op (s_args sel) ho d r) as (x & Hx & Hf).
  unfold mbind at 1, st_bind at 1. rewrite Hx. destruct x as [u|e|]; [|split; [by exists e|done]|done].
  apply refused_err. by eapply authorize_refuses.
Qed.

Lemma acquire_elsewhere token' token w r :
  token' ≠ token → holds r token w →
  ∃ r' x, Sessions.acquire token' r = (r', x) ∧ x ≠ OutOfFuel ∧ r_sys r' = r_sys r ∧ holds r' token w.
Proof.
  intros Hne Hh. unfold Sessions.acquire, mbind at 1, st_bind at 1, gets. cbn [fst snd].
  destruct (values_ r !! token') as [s'|]; [|by do 2 eexists].
  destruct (closing s'); [by do 2 eexists|]. unfold mbind, st_bind, st_need, lift, tick, put_values, mret, st_ret. cbn.
  destruct (_ <? deadline s'); [|by do 2 eexists]. do 2 eexists. split_and!; [reflexivity|done|done|].
  destruct Hh as (s & Hs & Hm). exists s. cbn. by rewrite lookup_insert_ne.
Qed.

Definition same_store r r' : Prop := r_sys r' = r_sys r.
#[local] Instance same_store_preorder : PreOrder same_store.
Proof. split; [done|]. unfold same_store. intros r1 r2 r3 E1 E2. congruence. Qed.
Lemma renew_same_store token : moves same_store (renew (J := J) token).
Proof.
  unfold renew, session_of. moves; by intros r.
Qed.

Lemma with_activity_refuses {A} token (op : ST (rpc J) A) r0 r :
  r_sys r = r_sys r0 → refused r (op r) → refused r0 (with_activity token op r).
Proof.
  intros E [[e He] Hs]. unfold with_activity, ensure. destruct (op r) as [r' a]. cbn [fst snd] in *. subst a.
  split; [by exists e|]. rewrite <- E, <- Hs. apply renew_same_store.
Qed.

End Service.
End Kept.

(** ** Examples *)

Definition blank : container memory → Bytes := λ _, [].
Definition idle_sys : sys memory := mkSys (opened (mkMemory (mkKv 1 ∅ ∅) true) [] false [] 0) [] [replicate 16 (z2b 7)] [].
Definition open_request : Bytes := default [] (ok_value (Wire.encode_request [bs "session-open"; bs "1000"])).

(** A connection is admitted, then sends a request for a session and takes the reply. *)
Definition turns_of (evs : list events) (accepted : option bool) (peers : list Peer) : ST (rpc memory) (list Peer) :=
  turn blank blank blank 0 0 (λ _, 0) true evs accepted peers.
Definition admitted : rpc memory * result (list Peer) := turns_of [] (Some true) [] (mkRpc idle_sys ∅ [5]).
Definition newcomer : Peer := mkPeer [] [] 0 false 5005.
Definition asking : events := mkEvents false true true (Gave _ open_request) (Gave _ 16%nat).
Definition opened_session : rpc memory * result (list Peer) :=
  turns_of [asking] None [newcomer] (mkRpc idle_sys (values_ admitted.1) [6; 7; 8]).
Definition waiting_peers : list Peer := match opened_session.2 with Ok ps => ps | _ => [] end.

Lemma admitted_runs : admitted.2 = Ok [newcomer].
Proof. vm_compute. reflexivity. Qed.
Lemma opened_runs : opened_session.2 = Ok waiting_peers.
Proof.
  unfold waiting_peers. assert (is_ok opened_session.2 = true) as Hok by (vm_compute; reflexivity).
  by destruct opened_session.2.
Qed.
Lemma opened_serves : serves blank blank blank 0 0 (λ _, 0) (values_ opened_session.1) waiting_peers.
Proof.
  refine (serves_turn _ _ _ _ _ _ (values_ admitted.1) [newcomer] idle_sys [6; 7; 8] true [asking] None opened_session.1 waiting_peers _ _).
  - refine (serves_turn _ _ _ _ _ _ ∅ [] idle_sys [5] true [] (Some true) admitted.1 [newcomer] (serves_start _ _ _ _ _ _) _).
    rewrite <- admitted_runs. apply surjective_pairing.
  - rewrite <- opened_runs. apply surjective_pairing.
Qed.

Lemma service_limits_witness : size (values_ opened_session.1) = 1%nat ∧ sessions_ok (values_ opened_session.1).
Proof.
  split; [vm_compute; reflexivity|].
  apply (service_limits blank blank blank 0 0 (λ _, 0) (values_ opened_session.1) waiting_peers opened_serves).
Defined.

(** A session that has mounted [main], and a write of another client. *)
Definition mounted_state : rpc memory := mkRpc idle_sys
  {[bs "a" := mkSession 1000 1000 false ∅ (Some (mkOwned (bs "main") false)) ∅]} [].
Definition stray_write : list Bytes := [bs "fs-write"; bs "/f"; bs "x"].

