(* ===== verification/Diff.v ===== *)
(** * The diff of a world against its snapshot ([core/src/diff.cpp])

    The comparison of two directory trees of the retired native backend: extended attributes,
    contents, the classification of an entry, the full scan, the verification of candidate
    paths, and the sorted report.  [Module Diff] translates it over [os], what the operating
    system answers about the two trees while the diff runs; system errors are the negative
    numbers of the code, here with their Linux values. *)

From S2P Require Import Prelude.
Local Open Scope Z_scope.

Module Diff.

Inductive ftype := T_FILE | T_DIR | T_SYMLINK | T_FIFO | T_CHR | T_BLK | T_SOCK.
#[global] Instance ftype_eq_dec : EqDecision ftype. Proof. solve_decision. Defined.

(** [struct stat], as far as the diff reads it: the type and the permission bits of [st_mode]
    apart. *)
Record stat := mkStat {
  st_type : ftype; st_mode : Z; st_uid : Z; st_gid : Z; st_flags : Z; st_size : Z; st_mtime : Z * Z
}.

(** [enum wfs_diff_change] *)
Inductive change := ADDED | MODIFIED | DELETED | META.
#[global] Instance change_eq_dec : EqDecision change. Proof. solve_decision. Defined.

(** An entry as the tree walk reports it. *)
Record entry := mkEntry { en_rel : Bytes; en_path : Bytes; en_stat : stat; en_dir : bool; en_xattr : Z }.

Definition FS_XATTR_UNKNOWN : Z := 0.
Definition FS_XATTR_NONE : Z := 1.

Definition EPERM : Z := 1.
Definition ENOENT : Z := 2.
Definition EACCES : Z := 13.
Definition ENOTDIR : Z := 20.
Definition ENOATTR : Z := 61.

Record os := mkOs {
  linux : bool;
  lstat : Bytes → stat + Z;
  lstat_xattr : Bytes → (stat * Z) + Z;
  contents : Bytes → option Bytes;
  target : Bytes → option Bytes;
  listxattr : Bytes → list Bytes + Z;
  getxattr : Bytes → Bytes → Bytes + Z;
  readdir : Bytes → (list Bytes * Z) + Z;
  walk : Bytes → list entry * Z;
}.

(** The flags of a diff. *)
Definition WFS_DIFF_FULL : Z := 1.
Definition WFS_DIFF_NO_CONTENT : Z := 2.
Definition WFS_DIFF_NO_XATTR : Z := 4.
Definition WFS_DIFF_EVENTS : Z := 8.
Definition WFS_DIFF_ALL_XATTRS : Z := 16.
Definition flag (flags f : Z) : bool := negb (Z.land flags f =? 0).

(** [inline bool fs_gone(int rc)] *)
Definition fs_gone (rc : Z) : bool := (rc =? - ENOENT) || (rc =? - ENOTDIR).

(** [uint32_t user_flags(const struct stat &st)]: without the immutable and append bits. *)
Definition protection_bits : Z := Z.lor (Z.lor 2 4) (Z.lor 131072 262144).
Definition user_flags (o : os) (st : stat) : Z :=
  if linux o then 0 else Z.land (st_flags st) (Z.lnot protection_bits).

(** [void join_rel(String &out, const char *root, const char *rel)] *)
Definition join_rel (root rel : Bytes) : Bytes :=
  if bool_decide (rel = []) then root else root ++ z2b 47 :: rel.

(** [int dir_is_empty(const char *p, bool &empty)]: [readdir] gives the error of [opendir], or the
    names it returns and the error that ends them, 0 at the end of the directory. *)
Definition dir_is_empty (o : os) (p : Bytes) : bool + Z :=
  match readdir o p with
  | inr e => if fs_gone (- e) then inl false else inr (- e)
  | inl (names, e) =>
      if forallb (λ n, bool_decide (n = bs ".") || bool_decide (n = bs "..")) names
      then if e =? 0 then inl true else inr (- e)
      else inl false
  end.

(** [bool link_target_equal(const char *a, const char *b)] *)
Definition link_target_equal (o : os) (a b : Bytes) : bool :=
  match target o a, target o b with Some ta, Some tb => bytes_eqb ta tb | _, _ => false end.

(** ** Contents *)

Definition kCmpChunk : nat := Z.to_nat (128 * 1024).

(** The loop of [content_equal] over two open files, and the bytes it counts. *)
Fixpoint compare_chunks (fuel : nat) (a b : Bytes) (bytes : Z) : bool * Z :=
  match fuel with
  | O => (true, bytes)
  | S fuel' =>
      let ca := take kCmpChunk a in
      let cb := take kCmpChunk b in
      if negb (length ca =? length cb)%nat then (false, bytes)
      else if (length ca =? 0)%nat then (true, bytes)
      else
        let bytes := bytes + len ca in
        if negb (bytes_eqb ca cb) then (false, bytes)
        else compare_chunks fuel' (drop kCmpChunk a) (drop kCmpChunk b) bytes
  end.

(** [bool content_equal(const char *a, const char *b, uint64_t *bytes)] *)
Definition content_equal (o : os) (a b : Bytes) (bytes : Z) : bool * Z :=
  match contents o a, contents o b with
  | Some ca, Some cb => compare_chunks (S (length ca)) ca cb bytes
  | _, _ => (false, bytes)
  end.

(** ** Extended attributes *)

(** [enum XattrCmp] with the [XattrErr] of a failure: the error of the world side or of the
    snapshot side. *)
Inductive XattrCmp := XA_EQUAL | XA_DIFFER | XA_ERROR (a b : Z).

Definition read_xattr (o : os) (path name : Bytes) : Bytes + Z := getxattr o path name.

(** The names of a list in order, up to an empty one. *)
Fixpoint proper_names (l : list Bytes) : list Bytes :=
  match l with [] => [] | n :: rest => if bool_decide (n = []) then [] else n :: proper_names rest end.

(** [ssize_t read_xattr_names(...)]: in canonical order on Linux. *)
Definition read_xattr_names (o : os) (path : Bytes) : list Bytes + Z :=
  match listxattr o path with
  | inl l => inl (proper_names (if linux o then merge_sort lex_le l else l))
  | inr e => inr e
  end.

(** [XattrCmp xattr_value_equal(...)]: the size first, then the value. *)
Definition xattr_value_equal (o : os) (a b name : Bytes) : XattrCmp :=
  let ra := read_xattr o a name in
  let rb := read_xattr o b name in
  let ea := match ra with inl _ => 0 | inr e => e end in
  let eb := match rb with inl _ => 0 | inr e => e end in
  if negb (ea =? 0) && negb (ea =? ENOATTR) then XA_ERROR ea 0
  else if negb (eb =? 0) && negb (eb =? ENOATTR) then XA_ERROR 0 eb
  else
    match ra, rb with
    | inl va, inl vb =>
        if negb (len va =? len vb) then XA_DIFFER
        else if len va =? 0 then XA_EQUAL
        else if bytes_eqb va vb then XA_EQUAL else XA_DIFFER
    | inr _, inr _ => XA_EQUAL
    | _, _ => XA_DIFFER
    end.

Definition kXattrInline : Z := 1024.

(** [XattrCmp xattr_values_equal(...)]: values that fit the inline buffer are compared at once. *)
Fixpoint xattr_values_equal (o : os) (a b : Bytes) (names : list Bytes) : XattrCmp :=
  match names with
  | [] => XA_EQUAL
  | name :: rest =>
      let careful :=
        match xattr_value_equal o a b name with
        | XA_EQUAL => xattr_values_equal o a b rest
        | c => c
        end in
      match read_xattr o a name, read_xattr o b name with
      | inl va, inl vb =>
          if (kXattrInline <? len va) || (kXattrInline <? len vb) then careful
          else if bytes_eqb va vb then xattr_values_equal o a b rest else XA_DIFFER
      | _, _ => careful
      end
  end.

Definition kProvenance : Bytes := bs "com.apple.provenance".

(** [bool xattr_ignored(const char *name, size_t len, int flags)]; [seam] is
    [wfs_test_xattr_ignore]. *)
Definition xattr_ignored (seam : option Bytes) (name : Bytes) (flags : Z) : bool :=
  if flag flags WFS_DIFF_ALL_XATTRS then false
  else bytes_eqb name kProvenance || bool_decide (seam = Some name).

(** [ssize_t filter_names(char *buf, ssize_t n, int flags)] *)
Definition filter_names (seam : option Bytes) (names : list Bytes) (flags : Z) : list Bytes :=
  filter (λ n, xattr_ignored seam n flags = false) names.

Definition names_size (names : list Bytes) : Z := foldr (λ n acc, len n + 1 + acc) 0 names.

(** Equal lists of names have equal values. *)
Definition compare_names (o : os) (a b : Bytes) (la lb : list Bytes) : XattrCmp :=
  if bool_decide (la = []) && bool_decide (lb = []) then XA_EQUAL
  else if negb (bool_decide (la = lb)) then XA_DIFFER
  else xattr_values_equal o a b la.

(** [XattrCmp xattr_equal_raw(...)] *)
Definition xattr_equal_raw (o : os) (seam : option Bytes) (a b : Bytes) (flags : Z) : XattrCmp :=
  match read_xattr_names o a, read_xattr_names o b with
  | inr e, _ => XA_ERROR e 0
  | inl _, inr e => XA_ERROR 0 e
  | inl la, inl lb => compare_names o a b (filter_names seam la flags) (filter_names seam lb flags)
  end.

Definition kXattrNames : Z := 4096.

(** The outcomes of [xattr_names]. *)
Inductive names_result := Names (l : list Bytes) | TooMany | NamesFailed (e : Z).

(** [ssize_t xattr_names(...)] *)
Definition xattr_names (o : os) (seam : option Bytes) (path : Bytes) (state flags : Z) : names_result :=
  if state =? FS_XATTR_NONE then Names []
  else
    match read_xattr_names o path with
    | inr e => NamesFailed e
    | inl l => let l := filter_names seam l flags in
               if kXattrNames <? names_size l then TooMany else Names l
    end.

(** [XattrCmp xattr_equal(...)] *)
Definition xattr_equal (o : os) (seam : option Bytes) (a b : Bytes) (axa bxa flags : Z) : XattrCmp :=
  if (axa =? FS_XATTR_NONE) && (bxa =? FS_XATTR_NONE) then XA_EQUAL
  else
    match xattr_names o seam a axa flags, xattr_names o seam b bxa flags with
    | NamesFailed e, _ => XA_ERROR e 0
    | _, NamesFailed e => XA_ERROR 0 e
    | Names la, Names lb => compare_names o a b la lb
    | _, _ => xattr_equal_raw o seam a b flags
    end.

(** ** The comparison *)

(** [struct Rec] *)
Record rec := mkRec { r_path : Bytes; r_change : change; r_type : ftype; r_size : Z }.

(** [struct Ctx], with the records of its sink in the order they were added. *)
Record ctx := mkCtx {
  wroot : Bytes; sroot : Bytes; c_flags : Z; sink : list rec;
  compared : Z; content_cmp : Z; bytes_read : Z; xattr_errors : Z; fatal : Z
}.

Definition add (ch : change) (t : ftype) (size : Z) (rel : Bytes) (c : ctx) : ctx :=
  mkCtx (wroot c) (sroot c) (c_flags c) (sink c ++ [mkRec rel ch t size]) (compared c) (content_cmp c)
    (bytes_read c) (xattr_errors c) (fatal c).
Definition bump_compared (c : ctx) : ctx :=
  mkCtx (wroot c) (sroot c) (c_flags c) (sink c) (compared c + 1) (content_cmp c) (bytes_read c) (xattr_errors c) (fatal c).
Definition count_content (bytes : Z) (c : ctx) : ctx :=
  mkCtx (wroot c) (sroot c) (c_flags c) (sink c) (compared c) (content_cmp c + 1) bytes (xattr_errors c) (fatal c).
Definition count_xattr (c : ctx) : ctx :=
  mkCtx (wroot c) (sroot c) (c_flags c) (sink c) (compared c) (content_cmp c) (bytes_read c) (xattr_errors c + 1) (fatal c).

(** [void note_fatal(Ctx &c, int rc)]: the first one stays. *)
Definition note_fatal (rc : Z) (c : ctx) : ctx :=
  mkCtx (wroot c) (sroot c) (c_flags c) (sink c) (compared c) (content_cmp c) (bytes_read c) (xattr_errors c)
    (if fatal c =? 0 then rc else fatal c).

(** [int other_side(...)] and [int side_lookup(...)]: the entry, its absence, or an error. *)
Definition other_side (o : os) (c : ctx) (path : Bytes) (want_xattr : bool) : (stat * Z) + Z :=
  if negb want_xattr || flag (c_flags c) WFS_DIFF_NO_XATTR then
    match lstat o path with inl st => inl (st, FS_XATTR_UNKNOWN) | inr e => inr (- e) end
  else match lstat_xattr o path with inl r => inl r | inr e => inr (- e) end.

Definition side_lookup (o : os) (c : ctx) (path : Bytes) (want_xattr : bool) : option (stat * Z) + Z :=
  match other_side o c path want_xattr with
  | inl r => inl (Some r)
  | inr rc => if fs_gone rc then inl None else inr rc
  end.

(** The metadata of two entries with the same contents. *)
Definition same_metadata (o : os) (ws ss : stat) : bool :=
  (st_mode ws =? st_mode ss) && (st_uid ws =? st_uid ss) && (st_gid ws =? st_gid ss)
  && (user_flags o ws =? user_flags o ss) && bool_decide (st_mtime ws = st_mtime ss).

(** The extended attributes of two entries that are otherwise alike. *)
Definition classify_xattr (o : os) (seam : option Bytes) (wpath : Bytes) (wxa : Z) (spath : Bytes) (sxa : Z) (c : ctx)
    : ctx * option change :=
  if flag (c_flags c) WFS_DIFF_NO_XATTR then (c, None)
  else
    match xattr_equal o seam wpath spath wxa sxa (c_flags c) with
    | XA_EQUAL => (c, None)
    | XA_DIFFER => (c, Some META)
    | XA_ERROR _ b =>
        let c := count_xattr c in
        (if (b =? EACCES) || (b =? EPERM) then note_fatal (- b) c else c, Some META)
    end.

Definition classify_metadata (o : os) (seam : option Bytes) (wpath : Bytes) (ws : stat) (wxa : Z) (spath : Bytes)
    (ss : stat) (sxa : Z) (c : ctx) : ctx * option change :=
  if negb (same_metadata o ws ss) then (c, Some META) else classify_xattr o seam wpath wxa spath sxa c.

(** [int classify(Ctx &c, ...)]: both sides exist. *)
Definition classify (o : os) (seam : option Bytes) (wpath : Bytes) (ws : stat) (wxa : Z) (spath : Bytes) (ss : stat)
    (sxa : Z) (c : ctx) : ctx * option change :=
  let c := bump_compared c in
  if negb (bool_decide (st_type ws = st_type ss)) then (c, Some MODIFIED)
  else
    match st_type ws with
    | T_FILE =>
        if negb (st_size ws =? st_size ss) then (c, Some MODIFIED)
        else if negb (bool_decide (st_mtime ws = st_mtime ss)) then
          if flag (c_flags c) WFS_DIFF_NO_CONTENT then (c, Some MODIFIED)
          else
            let '(same, bytes) := content_equal o wpath spath (bytes_read c) in
            let c := count_content bytes c in
            if negb same then (c, Some MODIFIED) else classify_metadata o seam wpath ws wxa spath ss sxa c
        else classify_metadata o seam wpath ws wxa spath ss sxa c
    | T_SYMLINK =>
        if negb (link_target_equal o wpath spath) then (c, Some MODIFIED)
        else classify_metadata o seam wpath ws wxa spath ss sxa c
    | T_DIR => (c, None)
    | _ => classify_metadata o seam wpath ws wxa spath ss sxa c
    end.

Definition add_change (ch : option change) (t : ftype) (size : Z) (rel : Bytes) (c : ctx) : ctx :=
  match ch with Some ch => add ch t size rel c | None => c end.

(** A walk with its callback: the first non-zero result ends it. *)
Fixpoint run_walk (f : entry → ctx → ctx * Z) (l : list entry) (rc : Z) (c : ctx) : ctx * Z :=
  match l with
  | [] => (c, rc)
  | e :: rest => let '(c, r) := f e c in if negb (r =? 0) then (c, r) else run_walk f rest rc c
  end.

(** [int expand_entry(void *ctx, const wfs::FsEntry &en)] *)
Definition expand_entry (o : os) (prefix : Bytes) (ch : change) (skip_self : bool) (en : entry) (c : ctx) : ctx * Z :=
  if bool_decide (en_rel en = []) && skip_self then (c, 0)
  else
    let full := if bool_decide (en_rel en = []) then prefix else prefix ++ z2b 47 :: en_rel en in
    if en_dir en then
      match dir_is_empty o (en_path en) with
      | inr rc => (c, rc)
      | inl empty => (if empty then add ch T_DIR 0 full c else c, 0)
      end
    else (add ch (st_type (en_stat en)) (st_size (en_stat en)) full c, 0).

(** [int expand_side(Ctx &c, const char *rel, const char *path, int change, bool skip_self)] *)
Definition expand_side (o : os) (rel path : Bytes) (ch : change) (skip_self : bool) (c : ctx) : ctx * Z :=
  let '(l, rc) := walk o path in run_walk (expand_entry o rel ch skip_self) l rc c.

(** [int report_one_side(Ctx &c, ...)] *)
Definition report_one_side (o : os) (rel path : Bytes) (st : stat) (ch : change) (c : ctx) : ctx * Z :=
  if negb (bool_decide (st_type st = T_DIR)) then (add ch (st_type st) (st_size st) rel c, 0)
  else expand_side o rel path ch false c.

Definition WFS_MARKER_NAME : Bytes := bs ".world".

(** ** The full scan *)

(** [int side_entry(void *ctx, const wfs::FsEntry &en)] *)
Definition side_entry (o : os) (seam : option Bytes) (world_side : bool) (en : entry) (c : ctx) : ctx * Z :=
  let rel := en_rel en in
  if bool_decide (rel = []) then (c, 0)
  else if world_side && bytes_eqb rel WFS_MARKER_NAME then (c, 0)
  else
    let other := join_rel (if world_side then sroot c else wroot c) rel in
    match side_lookup o c other (negb (en_dir en)) with
    | inr rc => (c, rc)
    | inl None =>
        let ch := if world_side then ADDED else DELETED in
        if en_dir en then
          match dir_is_empty o (en_path en) with
          | inr rc => (c, rc)
          | inl empty => (if empty then add ch T_DIR 0 rel c else c, 0)
          end
        else (add ch (st_type (en_stat en)) (st_size (en_stat en)) rel c, 0)
    | inl (Some (os_, oxa)) =>
        if negb world_side then (c, 0)
        else if en_dir en && bool_decide (st_type os_ = T_DIR) then (c, 0)
        else
          let '(c, ch) := classify o seam (en_path en) (en_stat en) (en_xattr en) other os_ oxa c in
          (add_change ch (st_type (en_stat en)) (st_size (en_stat en)) rel c, 0)
    end.

(** [int full_scan(Ctx &c)] *)
Definition full_scan (o : os) (seam : option Bytes) (c : ctx) : ctx * Z :=
  let '(l, rc) := walk o (wroot c) in
  let '(c, r) := run_walk (side_entry o seam true) l rc c in
  if negb (r =? 0) then (c, r)
  else let '(l, rc) := walk o (sroot c) in run_walk (side_entry o seam false) l rc c.

(** ** Candidates *)

(** [int verify_candidate(Ctx &c, const char *rel)] *)
Definition verify_candidate (o : os) (seam : option Bytes) (rel : Bytes) (c : ctx) : ctx * Z :=
  if bool_decide (rel = []) || bytes_eqb rel WFS_MARKER_NAME then (c, 0)
  else
    let wpath := join_rel (wroot c) rel in
    let spath := join_rel (sroot c) rel in
    match side_lookup o c wpath true with
    | inr rc => (c, rc)
    | inl w =>
        match side_lookup o c spath true with
        | inr rc => (c, rc)
        | inl s =>
            match w, s with
            | None, None => (c, 0)
            | Some (ws, _), None => report_one_side o rel wpath ws ADDED c
            | None, Some (ss, _) => report_one_side o rel spath ss DELETED c
            | Some (ws, wxa), Some (ss, sxa) =>
                let wdir := bool_decide (st_type ws = T_DIR) in
                let sdir := bool_decide (st_type ss = T_DIR) in
                if wdir && sdir then (c, 0)
                else
                  let '(c, rc) := if wdir then expand_side o rel wpath ADDED true c
                                  else if sdir then expand_side o rel spath DELETED true c else (c, 0) in
                  if negb (rc =? 0) then (c, rc)
                  else
                    let '(c, ch) := classify o seam wpath ws wxa spath ss sxa c in
                    (add_change ch (st_type ws) (st_size ws) rel c, 0)
            end
        end
    end.

Fixpoint verify_candidates (o : os) (seam : option Bytes) (l : list Bytes) (c : ctx) : ctx * Z :=
  match l with
  | [] => (c, 0)
  | rel :: rest =>
      let '(c, rc) := verify_candidate o seam rel c in
      if negb (rc =? 0) then (c, rc) else verify_candidates o seam rest c
  end.

(** ** Which comparison, and the report *)

Inductive fallback := DF_NONE | DF_REQUESTED | DF_NO_CURSOR | DF_FROM_WORLD | DF_MUST_SCAN | DF_DROPPED | DF_WRAPPED
  | DF_STALE | DF_TIMEOUT | DF_UNSUPPORTED | DF_SMALL_TREE.
Inductive events_status := EV_OK | EV_UNSUPPORTED | EV_STALE | EV_MUST_SCAN | EV_DROPPED | EV_WRAPPED | EV_TIMEOUT.
#[global] Instance events_status_eq_dec : EqDecision events_status. Proof. solve_decision. Defined.

(** [int fallback_for(int ev_status)] *)
Definition fallback_for (ev : events_status) : fallback :=
  match ev with
  | EV_MUST_SCAN => DF_MUST_SCAN | EV_DROPPED => DF_DROPPED | EV_WRAPPED => DF_WRAPPED
  | EV_STALE => DF_STALE | EV_TIMEOUT => DF_TIMEOUT | _ => DF_UNSUPPORTED
  end.

(** Whether a full scan is chosen before the events are asked for. *)
Definition choose_scan (flags entries min_entries : Z) (from_snapshot : bool) (fsevents_id : Z) : option fallback :=
  if flag flags WFS_DIFF_FULL then Some DF_REQUESTED
  else if negb (flag flags WFS_DIFF_EVENTS) && (entries <? min_entries) then Some DF_SMALL_TREE
  else if negb from_snapshot then Some DF_FROM_WORLD
  else if fsevents_id =? 0 then Some DF_NO_CURSOR
  else None.

(** The scan or the verification of the candidates, with the reason of a full scan. *)
Definition compare (o : os) (seam : option Bytes) (scan : option fallback) (ev : events_status) (bag : list Bytes) (c : ctx)
    : ctx * Z * fallback :=
  match scan with
  | Some f => let '(c, rc) := full_scan o seam c in (c, rc, f)
  | None =>
      if negb (bool_decide (ev = EV_OK)) then let '(c, rc) := full_scan o seam c in (c, rc, fallback_for ev)
      else let '(c, rc) := verify_candidates o seam bag c in (c, rc, DF_NONE)
  end.

Definition rec_le (x y : rec) : Prop := lex_le (r_path x) (r_path y).
#[global] Instance rec_le_dec : RelDecision rec_le.
Proof. intros x y. unfold rec_le. apply _. Defined.

(** [struct wfs_diff_stats], the counts by kind. *)
Record counts := mkCounts { added : Z; modified : Z; deleted : Z; meta : Z }.
Definition count (ch : change) (n : counts) : counts :=
  match ch with
  | ADDED => mkCounts (added n + 1) (modified n) (deleted n) (meta n)
  | MODIFIED => mkCounts (added n) (modified n + 1) (deleted n) (meta n)
  | DELETED => mkCounts (added n) (modified n) (deleted n + 1) (meta n)
  | META => mkCounts (added n) (modified n) (deleted n) (meta n + 1)
  end.

(** The loop over the sorted records: a path is reported once; the callback can stop it. *)
Fixpoint report (cb : rec → Z) (prev : option Bytes) (l : list rec) (n : counts) (out : list rec)
    : list rec * counts * Z :=
  match l with
  | [] => (out, n, 0)
  | r :: rest =>
      if bool_decide (prev = Some (r_path r)) then report cb prev rest n out
      else
        let n := count (r_change r) n in
        let rc := cb r in
        if negb (rc =? 0) then (out ++ [r], n, rc) else report cb (Some (r_path r)) rest n (out ++ [r])
  end.

(** [int wfs_world_diff_ex(...)] after the world and its snapshot have been identified: the
    entries handed to the callback, the counts and the result. *)
Definition world_diff (o : os) (seam : option Bytes) (world snapshot : Bytes) (flags : Z) (scan : option fallback)
    (ev : events_status) (bag : list Bytes) (cb : rec → Z) : list rec * counts * Z :=
  let c := mkCtx world snapshot flags [] 0 0 0 0 0 in
  let '(c, rc, _) := compare o seam scan ev bag c in
  if negb (rc =? 0) then ([], mkCounts 0 0 0 0, rc)
  else if negb (fatal c =? 0) then ([], mkCounts 0 0 0 0, fatal c)
  else report cb None (merge_sort rec_le (sink c)) (mkCounts 0 0 0 0) [].
End Diff.
