(* ===== verification/DiffSpec.v ===== *)
(** * The diff of two directory trees

    The full scan of [Module Diff] against a declarative description of what changed: which
    paths differ and how.  The comparison of contents in chunks and of extended attributes with
    hints and an inline buffer is shown to be the comparison of the contents and of the sets of
    attributes; the scan of two trees reports a path exactly when the trees differ there. *)

From S2P Require Import Prelude Diff.
Import Diff.
Local Open Scope Z_scope.

(** ** Contents *)

Lemma compare_chunks_equal fuel (a b : Bytes) bytes :
  (length a < fuel)%nat → (compare_chunks fuel a b bytes).1 = bool_decide (a = b).
Proof.
  assert (0 < kCmpChunk)%nat as Hk by (apply Nat.ltb_lt; vm_compute; reflexivity).
  revert a b bytes. induction fuel as [|fuel IH]; intros a b bytes Hfuel; [lia|].
  cbn [compare_chunks]. cbv zeta. generalize dependent kCmpChunk. intros K Hk.
  destruct (decide (length (take K a) = length (take K b))) as [El|Nl].
  - rewrite El, Nat.eqb_refl. cbn [negb].
    destruct (Nat.eqb_spec (length (take K b)) 0) as [E0|N0].
    + rewrite !length_take in *. destruct a, b; cbn [length] in *; try lia. done.
    + rewrite length_take in N0. rewrite !length_take in El. unfold bytes_eqb. case_bool_decide as Ht; cbn [negb].
      * rewrite IH by (rewrite length_drop; lia). apply bool_decide_ext. split.
        -- intros Hd. by rewrite <- (take_drop K a), Ht, Hd, take_drop.
        -- by intros ->.
      * symmetry. apply bool_decide_eq_false_2. by intros ->.
  - rewrite (proj2 (Nat.eqb_neq _ _) Nl). symmetry. apply bool_decide_eq_false_2. by intros ->.
Qed.

(** Two files that can be read and have the same bytes. *)
Definition same_content (o : os) (a b : Bytes) : Prop := is_Some (contents o a) ∧ contents o a = contents o b.
Definition same_target (o : os) (a b : Bytes) : Prop := is_Some (target o a) ∧ target o a = target o b.

Lemma content_equal_iff o a b bytes : (content_equal o a b bytes).1 = true ↔ same_content o a b.
Proof.
  unfold content_equal, same_content.
  destruct (contents o a) as [ca|], (contents o b) as [cb|]; cbn [fst]; [|naive_solver..].
  rewrite compare_chunks_equal by lia. rewrite bool_decide_eq_true. naive_solver.
Qed.

Lemma link_target_equal_iff o a b : link_target_equal o a b = true ↔ same_target o a b.
Proof.
  unfold link_target_equal, same_target, bytes_eqb.
  destruct (target o a), (target o b); rewrite ?bool_decide_eq_true; naive_solver.
Qed.

(** ** Extended attributes *)

(** A path whose attributes can be listed and read: a listed name has a value, another one is
    not found. *)
Definition quiet (o : os) (p : Bytes) : Prop :=
  ∃ l, listxattr o p = inl l ∧ NoDup l ∧ ([] ∉ l) ∧
       ∀ n : Bytes, if decide (n ∈ l) then ∃ v, getxattr o p n = inl v else getxattr o p n = inr ENOATTR.

(** A hint that there are no attributes is true. *)
Definition honest (o : os) (p : Bytes) (hint : Z) : Prop := hint = FS_XATTR_NONE → listxattr o p = inl [].

(** The attributes the diff looks at have the same values, or are missing, on both sides. *)
Definition same_attrs (o : os) (seam : option Bytes) (flags : Z) (a b : Bytes) : Prop :=
  ∀ n, xattr_ignored seam n flags = false → getxattr o a n = getxattr o b n.

Lemma quiet_listed o p l n : quiet o p → listxattr o p = inl l → n ∈ l ↔ ∃ v, getxattr o p n = inl v.
Proof.
  intros (l' & Hl & _ & _ & Hv) Hl'. assert (l' = l) as -> by congruence.
  specialize (Hv n). destruct (decide (n ∈ l)) as [Hn|Hn]; split; try done.
  intros [v Hg]. congruence.
Qed.

Lemma quiet_missing o p n e : quiet o p → getxattr o p n = inr e → e = ENOATTR.
Proof.
  intros (l & _ & _ & _ & Hv) Hg. specialize (Hv n). destruct (decide (n ∈ l)); [destruct Hv as [v Hv]|]; congruence.
Qed.

Lemma xattr_value_equal_spec o a b n : quiet o a → quiet o b →
  xattr_value_equal o a b n = if bool_decide (getxattr o a n = getxattr o b n) then XA_EQUAL else XA_DIFFER.
Proof.
  intros Ha Hb. unfold xattr_value_equal, read_xattr, bytes_eqb.
  destruct (getxattr o a n) as [va|ea] eqn:Ea, (getxattr o b n) as [vb|eb] eqn:Eb;
    rewrite ?(quiet_missing _ _ _ _ Ha Ea), ?(quiet_missing _ _ _ _ Hb Eb); cbv zeta; cbn [negb andb Z.eqb];
    [|done|done|by rewrite bool_decide_true].
  destruct (Z.eqb_spec (len va) (len vb)) as [El|Nl]; cbn [negb].
  - destruct (Z.eqb_spec (len va) 0) as [E0|N0].
    + assert (va = []) as -> by (apply nil_length_inv; unfold len in *; lia). assert (vb = []) as -> by (apply nil_length_inv; unfold len in *; lia).
      by rewrite bool_decide_true.
    + rewrite (bool_decide_ext (inl va = inl vb :> Bytes + Z) (va = vb)) by naive_solver. done.
  - rewrite bool_decide_false; [done|]. congruence.
Qed.

Lemma xattr_values_equal_spec o a b names : quiet o a → quiet o b →
  xattr_values_equal o a b names =
  if bool_decide (Forall (λ n, getxattr o a n = getxattr o b n) names) then XA_EQUAL else XA_DIFFER.
Proof.
  intros Ha Hb. induction names as [|n rest IH]; [done|]. cbn [xattr_values_equal]. cbv zeta.
  rewrite xattr_value_equal_spec, IH by done. unfold read_xattr, bytes_eqb.
  rewrite (bool_decide_ext _ _ (Forall_cons _ n rest)).
  destruct (decide (getxattr o a n = getxattr o b n)) as [E|N]; [rewrite E|].
  - rewrite (bool_decide_true (getxattr o b n = _)) by done.
    assert (∀ P : Prop, (getxattr o b n = getxattr o b n ∧ P) ↔ P) as Hand by naive_solver.
    rewrite (bool_decide_ext _ _ (Hand _)).
    destruct (getxattr o b n) as [vb|]; [|done]. rewrite (bool_decide_true (vb = vb)) by done. by destruct (_ || _).
  - rewrite (bool_decide_false (_ ∧ _)), (bool_decide_false (getxattr o a n = _)) by naive_solver.
    destruct (getxattr o a n) as [va|], (getxattr o b n) as [vb|]; [|done..].
    rewrite (bool_decide_false (va = vb)) by congruence. by destruct (_ || _).
Qed.

Lemma proper_names_id l : ([] ∉ l) → proper_names l = l.
Proof.
  induction l as [|n l IH]; intros Hl; [done|]. cbn [proper_names].
  rewrite bool_decide_false by set_solver. f_equal. apply IH. set_solver.
Qed.

Lemma filter_sorted {A} (R : relation A) (P : A → Prop) `{∀ x, Decision (P x)} l :
  StronglySorted R l → StronglySorted R (filter P l).
Proof.
  induction 1 as [|x l Hl IH Hx]; [constructor|]. rewrite filter_cons. destruct (decide (P x)); [|done].
  constructor; [done|]. apply Forall_forall. intros y [_ Hy]%list_elem_of_filter. rewrite Forall_forall in Hx. by apply Hx.
Qed.

(** The verdict of a comparison of attributes. *)
Definition judged (r : XattrCmp) (P : Prop) : Prop := r = XA_EQUAL ∧ P ∨ r = XA_DIFFER ∧ ¬ P.

Section Attributes.
Context (o : os) (seam : option Bytes) (flags : Z) (Hlinux : linux o = true).

(** The names of a path that the diff looks at, in canonical order. *)
Definition listing (p : Bytes) (l : list Bytes) : Prop :=
  StronglySorted lex_le l ∧ NoDup l ∧
  ∀ n, n ∈ l ↔ xattr_ignored seam n flags = false ∧ ∃ v, getxattr o p n = inl v.

Lemma read_names_listing p : quiet o p →
  ∃ l, read_xattr_names o p = inl l ∧ listing p (filter_names seam l flags).
Proof.
  intros Hq. destruct (Hq) as (l & Hl & Hnd & He & _). unfold read_xattr_names. rewrite Hl, Hlinux.
  pose proof (merge_sort_Permutation lex_le l) as Hp.
  rewrite proper_names_id by (by rewrite Hp). eexists. split; [done|]. split_and!.
  - unfold filter_names. apply filter_sorted, (StronglySorted_merge_sort lex_le).
  - apply NoDup_filter. by rewrite Hp.
  - intros n. unfold filter_names. rewrite list_elem_of_filter, Hp. by rewrite (quiet_listed o p l n).
Qed.

Lemma honest_listing p : quiet o p → listxattr o p = inl [] → listing p [].
Proof.
  intros Hq Hl. split_and!; [constructor..|]. intros n.
  rewrite <- (quiet_listed o p [] n) by done. set_solver.
Qed.

Lemma compare_names_spec a b la lb : quiet o a → quiet o b → listing a la → listing b lb →
  judged (compare_names o a b la lb) (same_attrs o seam flags a b).
Proof.
  intros Ha Hb (Hsa & Hna & Hla) (Hsb & Hnb & Hlb).
  assert (∀ n, (n ∈ la ∨ n ∈ lb ∨ getxattr o a n = getxattr o b n) ∨ xattr_ignored seam n flags = true) as Hcases.
  { intros n. destruct (xattr_ignored seam n flags) eqn:Ei; [by right|left]. rewrite Hla, Hlb.
    destruct (getxattr o a n) eqn:Ea; [eauto|]. destruct (getxattr o b n) eqn:Eb; [eauto|].
    right; right. f_equal. by rewrite (quiet_missing _ _ _ _ Ha Ea), (quiet_missing _ _ _ _ Hb Eb). }
  assert (same_attrs o seam flags a b → (∀ n, n ∈ la ↔ n ∈ lb)) as Hsame.
  { intros Hs n. rewrite Hla, Hlb. split; intros [Hi [v Hv]]; (split; [done|]); exists v; [rewrite <- Hs|rewrite Hs]; done. }
  unfold compare_names, judged. destruct (decide (la = lb)) as [->|Hne].
  - rewrite (bool_decide_true (lb = lb)) by done. cbn [negb].
    assert (same_attrs o seam flags a b ↔ Forall (λ n, getxattr o a n = getxattr o b n) lb) as Hiff.
    { rewrite Forall_forall. split; [intros Hs n Hn; apply Hs; by apply Hlb in Hn as [? _]|].
      intros Hf n Hi. destruct (Hcases n) as [[Hn|[Hn|?]]|?]; [by apply Hf..|done|congruence]. }
    rewrite Hiff, xattr_values_equal_spec by done. destruct lb; [left; split; [done|constructor]|]. cbn [andb].
    rewrite bool_decide_false by done. cbn [andb]. case_bool_decide; naive_solver.
  - rewrite (bool_decide_false (la = lb)) by done. cbn [negb].
    assert (¬ same_attrs o seam flags a b) as Hn.
    { intros Hs. apply Hne. apply (StronglySorted_unique lex_le); [done..|]. by apply NoDup_Permutation, Hsame. }
    destruct la, lb; naive_solver.
Qed.

Lemma xattr_names_listing p hint : quiet o p → honest o p hint →
  xattr_names o seam p hint flags = TooMany ∨ ∃ l, xattr_names o seam p hint flags = Names l ∧ listing p l.
Proof.
  intros Hq Hh. unfold xattr_names. destruct (Z.eqb_spec hint FS_XATTR_NONE) as [E|N].
  { right. exists []. split; [done|]. apply honest_listing; auto. }
  destruct (read_names_listing p Hq) as (l & -> & Hl). cbv zeta. destruct (_ <? _); eauto.
Qed.

Lemma xattr_equal_raw_spec a b : quiet o a → quiet o b →
  judged (xattr_equal_raw o seam a b flags) (same_attrs o seam flags a b).
Proof.
  intros Ha Hb. unfold xattr_equal_raw.
  destruct (read_names_listing a Ha) as (la & -> & Hla), (read_names_listing b Hb) as (lb & -> & Hlb).
  by apply compare_names_spec.
Qed.

Lemma xattr_equal_spec a b axa bxa : quiet o a → quiet o b → honest o a axa → honest o b bxa →
  judged (xattr_equal o seam a b axa bxa flags) (same_attrs o seam flags a b).
Proof.
  intros Ha Hb Hha Hhb. unfold xattr_equal. destruct (_ && _) eqn:Ehint.
  - apply andb_prop in Ehint as [->%Z.eqb_eq ->%Z.eqb_eq].
    apply (compare_names_spec a b [] []); try done; by apply honest_listing; auto.
  - destruct (xattr_names_listing a axa Ha Hha) as [->|(la & -> & Hla)],
      (xattr_names_listing b bxa Hb Hhb) as [->|(lb & -> & Hlb)];
      by (apply xattr_equal_raw_spec || apply compare_names_spec).
Qed.
End Attributes.

(** ** The verdict on a path both sides have *)

Section Verdict.
Context (o : os) (seam : option Bytes) (flags : Z) (Hlinux : linux o = true).

(** The entry was replaced, or what it holds was. *)
Definition replaced (a : Bytes) (sa : stat) (b : Bytes) (sb : stat) : Prop :=
  st_type sa ≠ st_type sb ∨
  st_type sa = T_FILE ∧ (st_size sa ≠ st_size sb ∨
    st_mtime sa ≠ st_mtime sb ∧ (flag flags WFS_DIFF_NO_CONTENT = true ∨ ¬ same_content o a b)) ∨
  st_type sa = T_SYMLINK ∧ ¬ same_target o a b.

(** Its metadata changed: the permissions, the owner, the times or the attributes. *)
Definition retouched (a : Bytes) (sa : stat) (b : Bytes) (sb : stat) : Prop :=
  st_type sa ≠ T_DIR ∧
  (st_mode sa ≠ st_mode sb ∨ st_uid sa ≠ st_uid sb ∨ st_gid sa ≠ st_gid sb ∨ st_mtime sa ≠ st_mtime sb ∨
   flag flags WFS_DIFF_NO_XATTR = false ∧ ¬ same_attrs o seam flags a b).

Definition verdict (a : Bytes) (sa : stat) (b : Bytes) (sb : stat) (ch : option change) : Prop :=
  match ch with
  | Some MODIFIED => replaced a sa b sb
  | Some META => ¬ replaced a sa b sb ∧ retouched a sa b sb
  | None => ¬ replaced a sa b sb ∧ ¬ retouched a sa b sb
  | _ => False
  end.

(** What a comparison leaves as it was. *)
Definition kept (c c' : ctx) : Prop :=
  wroot c' = wroot c ∧ sroot c' = sroot c ∧ c_flags c' = c_flags c ∧ sink c' = sink c ∧ fatal c' = fatal c.

Lemma same_metadata_iff sa sb : same_metadata o sa sb = true ↔
  st_mode sa = st_mode sb ∧ st_uid sa = st_uid sb ∧ st_gid sa = st_gid sb ∧ st_mtime sa = st_mtime sb.
Proof.
  unfold same_metadata, user_flags. rewrite Hlinux, !andb_true_iff, !Z.eqb_eq, bool_decide_eq_true. naive_solver.
Qed.

(** The metadata of an entry that is not a directory: what it makes of two entries that are not
    [replaced]. *)
Lemma classify_metadata_spec a sa axa b sb bxa c : c_flags c = flags →
  quiet o a → quiet o b → honest o a axa → honest o b bxa → st_type sa ≠ T_DIR →
  ∃ ch, classify_metadata o seam a sa axa b sb bxa c = (c, ch) ∧
        (ch = Some META ∧ retouched a sa b sb ∨ ch = None ∧ ¬ retouched a sa b sb).
Proof.
  intros Hfl Ha Hb Hha Hhb Ht. unfold classify_metadata, retouched.
  pose proof (same_metadata_iff sa sb) as Hm. destruct (same_metadata o sa sb); cbn [negb]; cycle 1.
  { exists (Some META). split; [done|]. left. split; [done|]. split; [done|].
    destruct (decide (st_mode sa = st_mode sb)), (decide (st_uid sa = st_uid sb)), (decide (st_gid sa = st_gid sb)),
      (decide (st_mtime sa = st_mtime sb)); try tauto.
    exfalso. by enough (false = true) by done; apply Hm. }
  unfold classify_xattr. rewrite Hfl. destruct (flag flags WFS_DIFF_NO_XATTR).
  { exists None. split; [done|]. right. intuition congruence. }
  destruct (xattr_equal_spec o seam flags Hlinux a b axa bxa Ha Hb Hha Hhb) as [[-> Hs]|[-> Hs]]; eexists; (split; [done|]);
    [right|left]; tauto.
Qed.

(** A file: its size, then its contents when the times differ. *)
Lemma classify_file a sa b sb c : c_flags c = flags → st_type sa = T_FILE → st_type sb = T_FILE →
  let r := if negb (st_size sa =? st_size sb) then (c, true)
           else if negb (bool_decide (st_mtime sa = st_mtime sb)) then
             if flag flags WFS_DIFF_NO_CONTENT then (c, true)
             else let '(same, bytes) := content_equal o a b (bytes_read c) in (count_content bytes c, negb same)
           else (c, false) in
  kept c r.1 ∧ (r.2 = true ↔ replaced a sa b sb).
Proof.
  intros Hfl Ha Hb. unfold replaced. rewrite Ha, Hb.
  destruct (Z.eqb_spec (st_size sa) (st_size sb)) as [Es|Ns]; cbn [negb fst snd]; [|split; [done|]; tauto].
  case_bool_decide as Em; cbn [negb]; [split; [done|]; cbn [snd]; intuition congruence|].
  destruct (flag flags WFS_DIFF_NO_CONTENT) eqn:Ef; [split; [done|]; cbn [snd]; tauto|].
  pose proof (content_equal_iff o a b (bytes_read c)) as Hc. destruct (content_equal o a b (bytes_read c)) as [[] bytes];
    cbn [fst snd negb] in *; (split; [done|]); intuition congruence.
Qed.

Lemma classify_spec a sa axa b sb bxa c : c_flags c = flags →
  quiet o a → quiet o b → honest o a axa → honest o b bxa →
  ∃ c' ch, classify o seam a sa axa b sb bxa c = (c', ch) ∧ kept c c' ∧ verdict a sa b sb ch.
Proof.
  intros Hfl Ha Hb Hha Hhb. unfold classify.
  assert (∀ c', kept c c' → st_type sa ≠ T_DIR → ¬ replaced a sa b sb → ∃ c'' ch,
    classify_metadata o seam a sa axa b sb bxa c' = (c'', ch) ∧ kept c c'' ∧ verdict a sa b sb ch) as Hmeta.
  { intros c' Hk Hd Hr. destruct (classify_metadata_spec a sa axa b sb bxa c') as (ch & -> & Hch); try done.
    { destruct Hk as (_ & _ & -> & _). done. }
    exists c', ch. destruct Hch as [[-> ?]|[-> ?]]; done. }
  assert (kept c (bump_compared c)) as Hk by done. revert Hk. generalize (bump_compared c) as c1. intros c1 Hk.
  assert (c_flags c1 = flags) as Hfl1 by (destruct Hk as (_ & _ & -> & _); done). rewrite Hfl1.
  case_bool_decide as Et; cbn [negb]; [|exists c1, (Some MODIFIED); split_and!; [done..|by left]].
  destruct (st_type sa) eqn:Esa; try (apply Hmeta; [done|done|unfold replaced; rewrite Esa; intuition congruence]).
  - assert (∀ c', kept c1 c' → kept c c') as Htrans by (revert Hk; unfold kept; intros (-> & -> & -> & -> & ->) c' Hc; exact Hc).
    destruct (classify_file a sa b sb c1 Hfl1 Esa (eq_sym Et)) as [Hk1 Hr]. revert Hk1 Hr. cbv zeta.
    destruct (negb (st_size sa =? st_size sb)); [by eexists _, (Some MODIFIED); split_and!; [| |apply Hr]|].
    destruct (negb _); [|intros _ Hr; apply Hmeta; [done..|]; intros Hrep; apply Hr in Hrep; done].
    destruct (flag flags WFS_DIFF_NO_CONTENT); [by eexists _, (Some MODIFIED); split_and!; [| |apply Hr]|].
    destruct (content_equal o a b (bytes_read c1)) as [[] bytes]; cbn [fst snd negb]; intros Hk1%Htrans Hr.
    + apply Hmeta; [done..|]. intros Hrep; apply Hr in Hrep; done.
    + eexists _, (Some MODIFIED). split_and!; [done..|by apply Hr].
  - exists c1, None. split; [done|]. split; [done|]. unfold verdict, replaced, retouched. rewrite Esa, <- Et. intuition congruence.
  - pose proof (link_target_equal_iff o a b) as Hl. destruct (link_target_equal o a b); cbn [negb].
    + apply Hmeta; [done..|]. unfold replaced. rewrite Esa. naive_solver.
    + eexists _, (Some MODIFIED). split_and!; [done..|]. right; right. split; [done|]. intros Hs. by apply Hl in Hs.
Qed.
End Verdict.

(** ** The full scan *)

(** A tree of the file system that stays as it is while it is scanned: [t] gives the metadata of
    its paths below [root], [l] the entries of the walk.  The walk reports each path once, with
    its metadata; a lookup gives the metadata or that the path is gone; a directory without an
    entry below it lists no names but the two dots. *)
Definition below (t : gmap Bytes stat) (rel : Bytes) : Prop := ∃ name, is_Some (t !! (rel ++ z2b 47 :: name)).

Definition answers (o : os) (path : Bytes) (known : option stat) : Prop :=
  match known with
  | Some st => lstat o path = inl st ∧ quiet o path ∧ ∃ hint, lstat_xattr o path = inl (st, hint) ∧ honest o path hint
  | None => ∃ e, (e = ENOENT ∨ e = ENOTDIR) ∧ lstat o path = inr e ∧ lstat_xattr o path = inr e
  end.

Record still (o : os) (root : Bytes) (t : gmap Bytes stat) (l : list entry) : Prop := mkStill {
  still_walk : walk o root = (l, 0);
  still_once : NoDup (en_rel <$> l);
  still_root : t !! [] = None;
  still_all : ∀ rel, is_Some (t !! rel) → rel ∈ en_rel <$> l;
  still_entry : ∀ e, e ∈ l → en_rel e ≠ [] →
    t !! en_rel e = Some (en_stat e) ∧ en_path e = join_rel root (en_rel e) ∧
    en_dir e = bool_decide (st_type (en_stat e) = T_DIR) ∧ honest o (en_path e) (en_xattr e);
  still_lookup : ∀ rel, rel ≠ [] → answers o (join_rel root rel) (t !! rel);
  still_dirs : ∀ rel st, t !! rel = Some st → st_type st = T_DIR →
    ∃ names, readdir o (join_rel root rel) = inl (names, 0) ∧
             (forallb (λ n, bool_decide (n = bs ".") || bool_decide (n = bs "..")) names = true ↔ ¬ below t rel) }.

(** The path [p] below [rel], where the walk of a directory is asked for. *)
Definition under (rel p : Bytes) : Bytes := if bool_decide (p = []) then rel else rel ++ z2b 47 :: p.

(** What is below a path is below a directory, and the walk of a directory reports what is below
    it. *)
Record nested (o : os) (root : Bytes) (t : gmap Bytes stat) : Prop := mkNested {
  nested_parent : ∀ rel p, is_Some (t !! (rel ++ z2b 47 :: p)) → p ≠ [] ∧ ∃ st, t !! rel = Some st ∧ st_type st = T_DIR;
  nested_walk : ∀ rel st, t !! rel = Some st → st_type st = T_DIR → ∃ l, walk o (join_rel root rel) = (l, 0) ∧
    (∀ p, is_Some (t !! under rel p) → p ∈ en_rel <$> l) ∧
    ∀ e, e ∈ l → t !! under rel (en_rel e) = Some (en_stat e) ∧ en_path e = join_rel root (under rel (en_rel e)) ∧
                 en_dir e = bool_decide (st_type (en_stat e) = T_DIR) }.

(** The context with its records extended. *)
Definition went (c c' : ctx) (found : list rec) : Prop :=
  wroot c' = wroot c ∧ sroot c' = sroot c ∧ c_flags c' = c_flags c ∧ fatal c' = fatal c ∧ sink c' = sink c ++ found.

Lemma went_nil c : went c c [].
Proof. unfold went. by rewrite app_nil_r. Qed.

Lemma went_trans c c' c'' l l' : went c c' l → went c' c'' l' → went c c'' (l ++ l').
Proof. unfold went. intros (-> & -> & -> & -> & Hs) (-> & -> & -> & -> & ->). by rewrite Hs, app_assoc. Qed.

Lemma went_kept c c' : kept c c' → went c c' [].
Proof. unfold went, kept. rewrite app_nil_r. tauto. Qed.

Lemma went_add c ch t size rel : went c (add ch t size rel c) [mkRec rel ch t size].
Proof. done. Qed.

(** A callback that adds the record of its entry, if there is one; [key] is the
    path an entry stands for.  A walk with it adds the
    records of its entries. *)
Lemma run_walk_found (key : entry → Bytes) (f : entry → ctx → ctx * Z) (I : ctx → Prop) (P : rec → Prop) l c :
  (∀ c c' found, I c → went c c' found → I c') →
  (∀ e c, e ∈ l → I c → ∃ c' found, f e c = (c', 0) ∧ went c c' (option_list found) ∧
     ∀ r, found = Some r ↔ r_path r = key e ∧ P r) →
  I c → ∃ c' found, run_walk f l 0 c = (c', 0) ∧ went c c' found ∧
    (r_path <$> found) `sublist_of` (key <$> l) ∧ ∀ r, r ∈ found ↔ r_path r ∈ key <$> l ∧ P r.
Proof.
  intros Hstable Hf. revert c. induction l as [|e l IH]; intros c Hc.
  { exists c, []. split_and!; [done|apply went_nil|done|]. set_solver. }
  destruct (Hf e c) as (c1 & found & E & Hw & Hr); [set_solver|done|]. cbn [run_walk]. rewrite E. cbn [negb Z.eqb].
  destruct (IH) with (c := c1) as (c' & rest & -> & Hw' & Hsub & Hrest); [|by eapply Hstable|].
  { intros e' c2 He'. apply Hf. set_solver. }
  exists c', (option_list found ++ rest). split_and!; [done|by eapply went_trans| |].
  - rewrite fmap_app, fmap_cons. destruct found as [r|]; csimpl.
    + destruct (proj1 (Hr r) eq_refl) as [<- _]. by constructor.
    + by constructor.
  - intros r. rewrite elem_of_app, fmap_cons, elem_of_cons, Hrest.
    assert (r ∈ option_list found ↔ found = Some r) as -> by (destruct found; set_solver).
    rewrite Hr. naive_solver.
Qed.

(** ** The report *)

(** Records in the order of their paths, each path once. *)
Definition rec_lt (x y : rec) : Prop := lex_lt (r_path x) (r_path y).

#[global] Instance rec_lt_antisym : AntiSymm eq rec_lt.
Proof. intros x y Hxy Hyx. destruct (irreflexivity lex_lt (r_path x)). by etrans. Qed.

#[global] Instance rec_le_total : Total rec_le.
Proof. intros x y. apply lex_le_total. Qed.

#[global] Instance rec_le_trans : Transitive rec_le.
Proof. intros x y z. apply lex_le_trans. Qed.

(** The records the loop hands on after [prev]. *)
Fixpoint once (prev : option Bytes) (l : list rec) : list rec :=
  match l with
  | [] => []
  | r :: rest => if bool_decide (prev = Some (r_path r)) then once prev rest else r :: once (Some (r_path r)) rest
  end.

Definition tally (l : list rec) (n : counts) : counts := foldl (λ n r, count (r_change r) n) n l.

Lemma report_once l prev n out :
  report (λ _, 0) prev l n out = (out ++ once prev l, tally (once prev l) n, 0).
Proof.
  revert prev n out. induction l as [|r l IH]; intros prev n out; cbn [report once]; [by rewrite app_nil_r|].
  case_bool_decide; [apply IH|]. cbn [negb Z.eqb]. cbv zeta. cbn [negb Z.eqb]. rewrite IH. by rewrite <- app_assoc.
Qed.

(** The paths of a list come after [prev]. *)
Definition after (R : Bytes → Bytes → Prop) (prev : option Bytes) (l : list rec) : Prop :=
  ∀ p, prev = Some p → Forall (λ r, R p (r_path r)) l.

Lemma once_sorted l prev : StronglySorted rec_le l → after lex_le prev l →
  StronglySorted rec_lt (once prev l) ∧ after lex_lt prev (once prev l).
Proof.
  revert prev. induction l as [|r l IH]; intros prev Hs Ha; cbn [once].
  { split; [constructor|]. intros p _. constructor. }
  inversion Hs as [|? ? Hs' Hr]; subst. case_bool_decide as Ep.
  { apply IH; [done|]. intros p Hp. specialize (Ha p Hp). by inversion Ha. }
  destruct (IH (Some (r_path r)) Hs') as [IHs IHa]; [intros p [= <-]; done|].
  split; [constructor; [done|]; by apply IHa|].
  intros p Hp. specialize (Ha p Hp). inversion Ha as [|? ? Hpr _]; subst.
  assert (lex_lt p (r_path r)) as Hlt by (apply lex_le_lt_eq in Hpr as [?|E]; [done|congruence]).
  constructor; [done|]. eapply Forall_impl; [by apply IHa|]. intros r'. by apply transitivity.
Qed.

Lemma once_elem l prev : StronglySorted rec_le l → after lex_le prev l →
  (∀ r r', r ∈ l → r' ∈ l → r_path r = r_path r' → r = r') →
  ∀ r, r ∈ once prev l ↔ r ∈ l ∧ prev ≠ Some (r_path r).
Proof.
  revert prev. induction l as [|r l IH]; intros prev Hs Ha Hf r'; cbn [once]; [set_solver|].
  inversion Hs as [|? ? Hs' Hr]; subst.
  assert (∀ r r', r ∈ l → r' ∈ l → r_path r = r_path r' → r = r') as Hf' by (intros; apply Hf; set_solver).
  case_bool_decide as Ep.
  { rewrite IH; [|done| |done]; [rewrite elem_of_cons; naive_solver|].
    intros p Hp. specialize (Ha p Hp). by inversion Ha. }
  rewrite !elem_of_cons, (IH (Some (r_path r))); [|done| |done]; [|intros p [= <-]; done]. split.
  - intros [->|[Hin Hne]]; [by split; [left|]|]. split; [by right|]. intros Hp. pose proof (Forall_inv (Ha _ Hp)) as Hle.
    rewrite Forall_forall in Hr. specialize (Hr _ Hin). apply Hne. f_equal. by apply (anti_symm lex_le).
  - intros [[->|Hin] Hp]; [by left|]. destruct (decide (r_path r = r_path r')) as [E|N]; [left|right; naive_solver].
    symmetry. apply Hf; [set_solver..|done].
Qed.

Lemma sorted_once l : StronglySorted rec_lt l → NoDup l.
Proof.
  induction 1 as [|r l _ IH Hr]; constructor; [|done]. intros Hin. rewrite Forall_forall in Hr.
  exact (irreflexivity lex_lt (r_path r) (Hr r Hin)).
Qed.

Lemma sorted_same l l' : StronglySorted rec_lt l → StronglySorted rec_lt l' → (∀ r, r ∈ l ↔ r ∈ l') → l = l'.
Proof.
  intros Hl Hl' Hr. apply (StronglySorted_unique rec_lt); [done..|]. apply NoDup_Permutation; [by apply sorted_once..|done].
Qed.

(** What the report of a list of records hands on. *)
Lemma report_sorted l : (∀ r r', r ∈ l → r' ∈ l → r_path r = r_path r' → r = r') → ∃ out,
  report (λ _, 0) None (merge_sort rec_le l) (mkCounts 0 0 0 0) [] = (out, tally out (mkCounts 0 0 0 0), 0) ∧
  StronglySorted rec_lt out ∧ ∀ r, r ∈ out ↔ r ∈ l.
Proof.
  intros Hf. exists (once None (merge_sort rec_le l)). split; [apply report_once|].
  pose proof (StronglySorted_merge_sort rec_le l) as Hs. pose proof (merge_sort_Permutation rec_le l) as Hp.
  split; [apply once_sorted; done|]. intros r. rewrite once_elem; [|done|done|].
  - rewrite Hp. naive_solver.
  - intros r1 r2. rewrite Hp. apply Hf.
Qed.

Section Scan.
Context (o : os) (seam : option Bytes) (flags : Z) (Hlinux : linux o = true).
Context (W S : Bytes) (tw ts : gmap Bytes stat) (lw ls : list entry).
Context (HW : still o W tw lw) (HS : still o S ts ls).

(** The record of a path only one side has: a directory appears when it is empty. *)
Definition alone (t : gmap Bytes stat) (st : stat) (ch : change) (r : rec) : Prop :=
  r_change r = ch ∧ r_type r = st_type st ∧
  (if decide (st_type st = T_DIR) then r_size r = 0 ∧ ¬ below t (r_path r) else r_size r = st_size st).

(** What the diff has to report: a path of the world (its marker apart) that the snapshot does
    not have, a path of the snapshot that the world does not have, and a path of both that
    differs. *)
Definition expected (r : rec) : Prop :=
  match tw !! r_path r, ts !! r_path r with
  | Some ws, None => r_path r ≠ WFS_MARKER_NAME ∧ alone tw ws ADDED r
  | None, Some ss => alone ts ss DELETED r
  | Some ws, Some ss =>
      r_path r ≠ WFS_MARKER_NAME ∧ r_type r = st_type ws ∧ r_size r = st_size ws ∧
      verdict o seam flags (join_rel W (r_path r)) ws (join_rel S (r_path r)) ss (Some (r_change r))
  | None, None => False
  end.

Definition scanning (c : ctx) : Prop := wroot c = W ∧ sroot c = S ∧ c_flags c = flags ∧ fatal c = 0.

Lemma scanning_went c c' found : scanning c → went c c' found → scanning c'.
Proof. unfold scanning, went. intros (? & ? & ? & ?) (-> & -> & -> & -> & _). done. Qed.

Lemma side_lookup_answers c path known want : answers o path known →
  match known with
  | Some st => ∃ hint, side_lookup o c path want = inl (Some (st, hint)) ∧ honest o path hint
  | None => side_lookup o c path want = inl None
  end.
Proof.
  unfold answers, side_lookup, other_side. destruct known as [st|].
  - intros (-> & _ & hint & -> & Hh). destruct (_ || _); eexists; (split; [done|]); [|done]. done.
  - intros (e & He & -> & ->). by destruct (_ || _), He as [-> | ->].
Qed.

Lemma dir_is_empty_still root t l rel st : still o root t l → t !! rel = Some st → st_type st = T_DIR →
  ∃ empty, dir_is_empty o (join_rel root rel) = inl empty ∧ (empty = true ↔ ¬ below t rel).
Proof.
  intros Hst Ht Hd. destruct (still_dirs _ _ _ _ Hst rel st Ht Hd) as (names & Hr & Hn).
  unfold dir_is_empty. rewrite Hr. destruct (forallb _ names); cbn [Z.eqb]; eexists; (split; [done|]); done.
Qed.

(** An entry without its counterpart. *)
Lemma one_side root t l ch rel e c : still o root t l → t !! rel = Some (en_stat e) → en_path e = join_rel root rel →
  en_dir e = bool_decide (st_type (en_stat e) = T_DIR) → ∃ c' found,
  (if en_dir e then
     match dir_is_empty o (en_path e) with
     | inr rc => (c, rc)
     | inl empty => (if empty then add ch T_DIR 0 rel c else c, 0)
     end
   else (add ch (st_type (en_stat e)) (st_size (en_stat e)) rel c, 0)) = (c', 0) ∧
  went c c' (option_list found) ∧
  ∀ r, found = Some r ↔ r_path r = rel ∧ alone t (en_stat e) ch r.
Proof.
  intros Hst Ht Hp Hd. rewrite Hd, Hp. unfold alone. case_bool_decide as Htype.
  - destruct (dir_is_empty_still root t l _ _ Hst Ht Htype) as ([] & -> & Hempty).
    + eexists _, (Some _). split_and!; [done|apply went_add|]. intros [rel' ch' ty size]. rewrite decide_True by done.
      cbn [r_path r_change r_type r_size]. rewrite Htype. naive_solver.
    + eexists _, None. split_and!; [done|apply went_nil|]. intros [rel' ch' ty size]. rewrite decide_True by done.
      cbn [r_path r_change r_type r_size]. split; [done|]. intros (-> & _ & _ & _ & Hb). by apply Hempty in Hb.
  - eexists _, (Some _). split_and!; [done|apply went_add|]. intros [rel' ch' ty size]. rewrite decide_False by done.
    cbn [r_path r_change r_type r_size]. naive_solver.
Qed.

Lemma verdict_unique a sa b sb ch ch' : verdict o seam flags a sa b sb ch → verdict o seam flags a sa b sb ch' → ch = ch'.
Proof. destruct ch as [[]|], ch' as [[]|]; unfold verdict; tauto || naive_solver. Qed.

(** No record for an entry that is skipped. *)
Lemma no_record (P : rec → Prop) (c : ctx) rel : (∀ r, r_path r = rel → ¬ P r) →
  ∃ c' found, (c, 0) = (c', 0) ∧ went c c' (option_list found) ∧ ∀ r, found = Some r ↔ r_path r = rel ∧ P r.
Proof. intros HP. exists c, None. split_and!; [done|apply went_nil|]. naive_solver. Qed.

(** A path of both sides: its record is that of the verdict. *)
Lemma classified rel ws wxa ss sxa c : tw !! rel = Some ws → ts !! rel = Some ss → rel ≠ WFS_MARKER_NAME → rel ≠ [] →
  honest o (join_rel W rel) wxa → honest o (join_rel S rel) sxa → scanning c → ∃ c' ch found,
  classify o seam (join_rel W rel) ws wxa (join_rel S rel) ss sxa c = (c', ch) ∧
  went c (add_change ch (st_type ws) (st_size ws) rel c') (option_list found) ∧
  ∀ r, found = Some r ↔ r_path r = rel ∧ expected r.
Proof.
  intros Etw Ets Hm Hne Hhw Hhs (_ & _ & Ef & _).
  pose proof (still_lookup _ _ _ _ HW rel Hne) as Hw. rewrite Etw in Hw.
  pose proof (still_lookup _ _ _ _ HS rel Hne) as Hs. rewrite Ets in Hs.
  destruct (classify_spec o seam flags Hlinux (join_rel W rel) ws wxa (join_rel S rel) ss sxa c)
    as (c' & ch & Hcl & Hk & Hv); [done|apply Hw|apply Hs|done..|].
  exists c', ch, (ch ← ch; Some (mkRec rel ch (st_type ws) (st_size ws))). split; [done|]. split.
  - destruct ch as [ch|]; [|by apply went_kept]. eapply (went_trans _ c' _ []); [by apply went_kept|apply went_add].
  - intros [rel' ch' ty size]. unfold expected. cbn [r_path r_change r_type r_size]. split.
    + destruct ch as [ch|]; [|done]. intros [= -> -> <- <-]. rewrite Etw, Ets. done.
    + intros [-> Hx]. rewrite Etw, Ets in Hx. destruct Hx as (_ & -> & -> & Hv').
      by rewrite (verdict_unique _ _ _ _ _ _ Hv Hv').
Qed.

(** Directories of both sides have no record. *)
Lemma both_dirs rel ws ss r : tw !! rel = Some ws → ts !! rel = Some ss → st_type ws = T_DIR → st_type ss = T_DIR →
  r_path r = rel → ¬ expected r.
Proof.
  intros Etw Ets E1 E2 Hr. unfold expected. rewrite Hr, Etw, Ets. intros (_ & _ & _ & Hv).
  revert Hv. unfold verdict, replaced, retouched. rewrite E1, E2. destruct (r_change r); intuition congruence.
Qed.

Lemma world_entry e c : e ∈ lw → scanning c → ∃ c' found, side_entry o seam true e c = (c', 0) ∧
  went c c' (option_list found) ∧ ∀ r, found = Some r ↔ r_path r = en_rel e ∧ expected r.
Proof.
  intros He Hc. destruct (Hc) as (Ew & Es & Ef & _). unfold side_entry, bytes_eqb. cbn [andb negb].
  destruct (bool_decide_reflect (en_rel e = [])) as [Hne|Hne].
  { apply no_record. intros r Hr. unfold expected. rewrite Hr, Hne, (still_root _ _ _ _ HW), (still_root _ _ _ _ HS). tauto. }
  destruct (still_entry _ _ _ _ HW e He Hne) as (Ht & Hp & Hd & Hh).
  destruct (bool_decide_reflect (en_rel e = WFS_MARKER_NAME)) as [Hm|Hm].
  { apply no_record. intros r Hr. unfold expected. rewrite Hr, Ht. destruct (ts !! _); tauto. }
  rewrite Es. pose proof (still_lookup _ _ _ _ HS (en_rel e) Hne) as Ha.
  pose proof (side_lookup_answers c _ _ (negb (en_dir e)) Ha) as Hl. destruct (ts !! en_rel e) as [ss|] eqn:Ets; cycle 1.
  { rewrite Hl. destruct (one_side W tw lw ADDED (en_rel e) e c HW Ht Hp Hd) as (c' & found & -> & Hw & Hr).
    exists c', found. split_and!; [done..|]. intros r. rewrite Hr. unfold expected.
    split; intros [Hrel Hx]; (split; [done|]); revert Hx; rewrite Hrel, Ht, Ets; tauto. }
  destruct Hl as (hint & -> & Hhint). destruct (_ && _) eqn:Edirs.
  - apply andb_prop in Edirs as [E1 E2]. rewrite Hd in E1. apply bool_decide_eq_true in E1, E2.
    apply no_record. intros r. by eapply both_dirs.
  - rewrite Hp in *. destruct (classified (en_rel e) (en_stat e) (en_xattr e) ss hint c) as (c' & ch & found & -> & Hw & Hr);
      [done..|]. eauto.
Qed.

Lemma snapshot_entry e c : e ∈ ls → scanning c → ∃ c' found, side_entry o seam false e c = (c', 0) ∧
  went c c' (option_list found) ∧ ∀ r, found = Some r ↔ r_path r = en_rel e ∧ (tw !! r_path r = None ∧ expected r).
Proof.
  intros He (Ew & Es & Ef & _). unfold side_entry. cbn [andb negb].
  destruct (bool_decide_reflect (en_rel e = [])) as [Hne|Hne].
  { apply no_record. intros r Hr. unfold expected. rewrite Hr, Hne, (still_root _ _ _ _ HW), (still_root _ _ _ _ HS). tauto. }
  destruct (still_entry _ _ _ _ HS e He Hne) as (Ht & Hp & Hd & _).
  rewrite Ew. pose proof (side_lookup_answers c _ _ (negb (en_dir e)) (still_lookup _ _ _ _ HW (en_rel e) Hne)) as Hl.
  destruct (tw !! en_rel e) as [ws|] eqn:Etw.
  - destruct Hl as (hint & -> & _). apply no_record. intros r Hr. rewrite Hr, Etw. intros [? _]. done.
  - rewrite Hl. destruct (one_side S ts ls DELETED (en_rel e) e c HS Ht Hp Hd) as (c' & found & -> & Hw & Hr).
    exists c', found. split_and!; [done..|]. intros r. rewrite Hr. unfold expected.
    split; intros [Hrel Hx]; (split; [done|]); revert Hx; rewrite Hrel, Etw, Ht; tauto.
Qed.

Lemma expected_rel r : expected r → r_path r ≠ [].
Proof. unfold expected. intros Hx E. rewrite E, (still_root _ _ _ _ HW), (still_root _ _ _ _ HS) in Hx. done. Qed.

Lemma listed root t l rel : still o root t l → rel ≠ [] → rel ∈ en_rel <$> l ↔ is_Some (t !! rel).
Proof.
  intros Hst Hne. split; [|apply (still_all _ _ _ _ Hst)].
  intros (e & -> & He)%list_elem_of_fmap. destruct (still_entry _ _ _ _ Hst e He Hne) as (-> & _). eauto.
Qed.

(** The records of a full scan: those of the paths that differ, each path once. *)
Lemma full_scan_found c : scanning c → sink c = [] → ∃ c', full_scan o seam c = (c', 0) ∧ fatal c' = 0 ∧
  NoDup (r_path <$> sink c') ∧ ∀ r, r ∈ sink c' ↔ expected r.
Proof.
  intros Hc Hs. unfold full_scan. rewrite (proj1 Hc), (still_walk _ _ _ _ HW).
  destruct (run_walk_found en_rel (side_entry o seam true) scanning expected lw c scanning_went world_entry Hc)
    as (c1 & fw & -> & Hw & Hsubw & Hfw).
  pose proof (scanning_went _ _ _ Hc Hw) as Hc1. cbn [negb Z.eqb].
  rewrite (proj1 (proj2 Hc1)), (still_walk _ _ _ _ HS).
  destruct (run_walk_found en_rel (side_entry o seam false) scanning (λ r, tw !! r_path r = None ∧ expected r) ls c1
    scanning_went snapshot_entry Hc1) as (c2 & fs & -> & Hw2 & Hsubs & Hfs).
  destruct (scanning_went _ _ _ Hc1 Hw2) as (_ & _ & _ & Hfatal).
  exists c2. destruct (went_trans _ _ _ _ _ Hw Hw2) as (_ & _ & _ & _ & ->). rewrite Hs. cbn [app].
  split_and!; [done..| |].
  - rewrite fmap_app. apply NoDup_app. split_and!.
    + exact (sublist_NoDup _ _ (still_once _ _ _ _ HW) Hsubw).
    + intros p (r & -> & Hr)%list_elem_of_fmap (r' & Hpath & Hr')%list_elem_of_fmap.
      apply Hfw in Hr as [Hr Hx]. apply (listed W tw lw _ HW) in Hr as [st Hst]; [|by apply expected_rel].
      apply Hfs in Hr' as (_ & Hnone & _). rewrite <- Hpath in Hnone. congruence.
    + exact (sublist_NoDup _ _ (still_once _ _ _ _ HS) Hsubs).
  - intros r. rewrite elem_of_app, Hfw, Hfs. split; [tauto|]. intros Hr.
    rewrite (listed W tw lw _ HW), (listed S ts ls _ HS) by by apply expected_rel.
    destruct (tw !! r_path r) eqn:Et; [left; by split|right]. split_and!; [|done..].
    unfold expected in Hr. rewrite Et in Hr. by destruct (ts !! r_path r).
Qed.

(** The records of a path are determined by it. *)
Lemma expected_unique r r' : expected r → expected r' → r_path r = r_path r' → r = r'.
Proof.
  destruct r as [rel ch ty size], r' as [rel' ch' ty' size']. unfold expected, alone. cbn [r_path r_change r_type r_size].
  intros Hr Hr' <-. revert Hr Hr'. destruct (tw !! rel), (ts !! rel); [|try destruct (decide _); intuition congruence..|done].
  intros (_ & -> & -> & Hv) (_ & -> & -> & Hv'). by injection (verdict_unique _ _ _ _ _ _ Hv Hv') as ->.
Qed.

(** ** The candidates *)

Context (NW : nested o W tw) (NS : nested o S ts).

Lemma under_nil rel : under rel [] = rel.
Proof. done. Qed.

Lemma under_self rel p : under rel p = rel → p = [].
Proof. unfold under. case_bool_decide; [done|]. intros E%(f_equal length). rewrite length_app in E. cbn [length] in E. lia. Qed.

Lemma under_cons rel p : p ≠ [] → under rel p = rel ++ z2b 47 :: p.
Proof. intros Hp. unfold under. by rewrite bool_decide_false. Qed.

(** The marker is a name, not a path with a slash. *)
Lemma under_marker rel p : rel ≠ WFS_MARKER_NAME → under rel p ≠ WFS_MARKER_NAME.
Proof.
  intros Hm. unfold under. case_bool_decide; [done|]. intros E.
  assert (z2b 47 ∈ WFS_MARKER_NAME) as Hin by (rewrite <- E; set_solver).
  refine (bool_decide_eq_false_1 (z2b 47 ∈ WFS_MARKER_NAME) _ Hin). vm_compute. reflexivity.
Qed.

(** Nothing is below a path that is not a directory. *)
Lemma nothing_below root t rel p : nested o root t → (∀ st, t !! rel = Some st → st_type st ≠ T_DIR) → p ≠ [] →
  t !! under rel p = None.
Proof.
  intros Hn Hrel Hp. rewrite under_cons by done. apply eq_None_not_Some. intros Hs.
  destruct (nested_parent _ _ _ Hn _ _ Hs) as (_ & st & Hst & Hd). by eapply Hrel.
Qed.

(** The records of a side from a directory down. *)
Lemma expand_side_found root t l ch rel st skip c : still o root t l → nested o root t →
  t !! rel = Some st → st_type st = T_DIR → ∃ c' found,
  expand_side o rel (join_rel root rel) ch skip c = (c', 0) ∧ went c c' found ∧
  ∀ r, r ∈ found ↔ (∃ p, r_path r = under rel p) ∧ (skip = true → r_path r ≠ rel) ∧
                   ∃ st', t !! r_path r = Some st' ∧ alone t st' ch r.
Proof.
  intros Hst Hn Hrel Hd. unfold expand_side. destruct (nested_walk _ _ _ Hn rel st Hrel Hd) as (le & -> & Hall & Hent).
  destruct (run_walk_found (λ e, under rel (en_rel e)) (expand_entry o rel ch skip) (λ _, True)
    (λ r, (skip = true → r_path r ≠ rel) ∧ ∃ st', t !! r_path r = Some st' ∧ alone t st' ch r) le c)
    as (c' & found & -> & Hw & _ & Hr); [done| |done|].
  - intros e c0 He _. destruct (Hent e He) as (Ht & Hp & Hdir). unfold expand_entry. fold (under rel (en_rel e)).
    destruct (bool_decide (en_rel e = []) && skip) eqn:Eskip.
    + apply andb_prop in Eskip as [E1%bool_decide_eq_true ->]. rewrite E1. apply no_record. intros r Hr [Hne _]. by apply Hne.
    + cbv zeta. destruct (one_side root t l ch _ e c0 Hst Ht Hp Hdir) as (c' & found & -> & Hw & Hr).
      exists c', found. split_and!; [done..|]. intros r. rewrite Hr.
      assert (r_path r = under rel (en_rel e) → skip = true → r_path r ≠ rel) as Hself.
      { intros -> ->. intros E%under_self. rewrite E, bool_decide_true in Eskip by done. done. }
      split; intros [Hrel' Hx]; (split; [done|]); revert Hx; rewrite Hrel', Ht; [rewrite Hrel' in Hself|]; naive_solver.
  - exists c', found. split_and!; [done..|]. intros r. rewrite Hr.
    enough ((∃ st', t !! r_path r = Some st') → r_path r ∈ (λ e, under rel (en_rel e)) <$> le ↔ ∃ p, r_path r = under rel p)
      as Hpath by naive_solver.
    intros [st' Hst']. split; [intros (e & -> & _)%list_elem_of_fmap; eauto|]. intros [p Hp].
    assert (p ∈ en_rel <$> le) as (e & -> & He)%list_elem_of_fmap by (apply Hall; rewrite <- Hp; eauto).
    apply list_elem_of_fmap. eauto.
Qed.

Lemma report_one_side_found root t l ch rel st c : still o root t l → nested o root t → t !! rel = Some st → ∃ c' found,
  report_one_side o rel (join_rel root rel) st ch c = (c', 0) ∧ went c c' found ∧
  ∀ r, r ∈ found ↔ (∃ p, r_path r = under rel p) ∧ ∃ st', t !! r_path r = Some st' ∧ alone t st' ch r.
Proof.
  intros Hst Hn Hrel. unfold report_one_side. case_bool_decide as Hd; cbn [negb].
  - destruct (expand_side_found root t l ch rel st false c Hst Hn Hrel Hd) as (c' & found & -> & Hw & Hr).
    exists c', found. split_and!; [done..|]. intros r. rewrite Hr. naive_solver.
  - eexists _, _. split_and!; [done|apply went_add|]. intros [rel' ch' ty size]. rewrite list_elem_of_singleton.
    cbn [r_path]. split.
    + intros [= -> -> -> ->]. split; [exists []; done|]. exists st. split; [done|]. unfold alone. by rewrite decide_False.
    + intros [[p ->] (st' & Hst' & Hx)]. destruct (decide (p = [])) as [->|Hp].
      * rewrite under_nil in *. simplify_eq. unfold alone in Hx. rewrite decide_False in Hx by done.
        cbn [r_change r_type r_size] in Hx. naive_solver.
      * rewrite (nothing_below root t rel p Hn) in Hst'; [done| |done]. congruence.
Qed.

(** The paths a candidate stands for: its own, and those below it unless both sides have a
    directory there. *)
Definition covers (rel path : Bytes) : Prop :=
  path = rel ∨ (∃ p, path = rel ++ z2b 47 :: p) ∧
  ¬ ∃ ws ss, tw !! rel = Some ws ∧ ts !! rel = Some ss ∧ st_type ws = T_DIR ∧ st_type ss = T_DIR.

Lemma covers_under rel path : covers rel path → (tw !! path ≠ None ∨ ts !! path ≠ None) → ∃ p, path = under rel p.
Proof.
  intros [->|[[p ->] _]] Hin; [by exists []|]. exists p.
  assert (p ≠ []) as Hp; [|by rewrite under_cons].
  destruct Hin as [Hin|Hin]; apply not_eq_None_Some in Hin; [apply (nested_parent _ _ _ NW) in Hin|apply (nested_parent _ _ _ NS) in Hin];
    apply Hin.
Qed.

Lemma expected_somewhere r : expected r → tw !! r_path r ≠ None ∨ ts !! r_path r ≠ None.
Proof. unfold expected. destruct (tw !! r_path r), (ts !! r_path r); naive_solver. Qed.

(** What a candidate adds. *)
Definition candidate_adds (rel : Bytes) (found : list rec) : Prop :=
  (∀ r, r ∈ found → expected r) ∧ (∀ r, expected r → covers rel (r_path r) → r ∈ found).

(** The world has an entry at the candidate, the snapshot has none. *)
Lemma added_adds rel ws found : rel ≠ WFS_MARKER_NAME → tw !! rel = Some ws → ts !! rel = None →
  (∀ r, r ∈ found ↔ (∃ p, r_path r = under rel p) ∧ ∃ st', tw !! r_path r = Some st' ∧ alone tw st' ADDED r) →
  candidate_adds rel found.
Proof.
  intros Hm Etw Ets Hfound.
  assert (∀ p, ts !! under rel p = None) as Hnone.
  { intros p. destruct (decide (p = [])) as [->|Hp]; [done|]. apply (nothing_below S); [done|congruence|done]. }
  split; intros r.
  - intros [[p Hp] (st' & Hst & Hx)]%Hfound. unfold expected. rewrite Hst, Hp, Hnone. split; [by apply under_marker|done].
  - intros Hx Hc. apply Hfound. destruct (covers_under _ _ Hc (expected_somewhere r Hx)) as [p Hp].
    split; [eauto|]. unfold expected in Hx. rewrite Hp, Hnone in Hx. rewrite Hp.
    destruct (tw !! under rel p) as [st'|]; [|done]. exists st'. by destruct Hx.
Qed.

Lemma deleted_adds rel ss found : tw !! rel = None → ts !! rel = Some ss →
  (∀ r, r ∈ found ↔ (∃ p, r_path r = under rel p) ∧ ∃ st', ts !! r_path r = Some st' ∧ alone ts st' DELETED r) →
  candidate_adds rel found.
Proof.
  intros Etw Ets Hfound.
  assert (∀ p, tw !! under rel p = None) as Hnone.
  { intros p. destruct (decide (p = [])) as [->|Hp]; [done|]. apply (nothing_below W); [done|congruence|done]. }
  split; intros r.
  - intros [[p Hp] (st' & Hst & Hx)]%Hfound. unfold expected. by rewrite Hst, Hp, Hnone.
  - intros Hx Hc. apply Hfound. destruct (covers_under _ _ Hc (expected_somewhere r Hx)) as [p Hp].
    split; [eauto|]. unfold expected in Hx. rewrite Hp, Hnone in Hx. rewrite Hp.
    destruct (ts !! under rel p) as [st'|]; [|done]. by exists st'.
Qed.

(** Both sides have an entry at the candidate and one of them is a directory: what is below it is
    on that side only. *)
Lemma expanded rel ws ss c : tw !! rel = Some ws → ts !! rel = Some ss → rel ≠ WFS_MARKER_NAME →
  ¬ (st_type ws = T_DIR ∧ st_type ss = T_DIR) → ∃ c' found,
  (if bool_decide (st_type ws = T_DIR) then expand_side o rel (join_rel W rel) ADDED true c
   else if bool_decide (st_type ss = T_DIR) then expand_side o rel (join_rel S rel) DELETED true c else (c, 0)) = (c', 0) ∧
  went c c' found ∧ ∀ r, r ∈ found ↔ (∃ p, p ≠ [] ∧ r_path r = under rel p) ∧ expected r.
Proof.
  intros Etw Ets Hm Hboth.
  assert (∀ p, st_type ws ≠ T_DIR → p ≠ [] → tw !! under rel p = None) as Hnw
    by (intros p Hd Hp; apply (nothing_below W); [done|congruence|done]).
  assert (∀ p, st_type ss ≠ T_DIR → p ≠ [] → ts !! under rel p = None) as Hns
    by (intros p Hd Hp; apply (nothing_below S); [done|congruence|done]).
  assert (∀ r, (∃ p, r_path r = under rel p) ∧ r_path r ≠ rel ↔ ∃ p, p ≠ [] ∧ r_path r = under rel p) as Hstrict.
  { intros r. split; [|intros (p & Hp & E); split; [eauto|]; rewrite E; by intros ?%under_self].
    intros [[p Hp] Hne]. exists p. split; [|done]. intros ->. by rewrite under_nil in Hp. }
  case_bool_decide as Hdw; [|case_bool_decide as Hds].
  - destruct (expand_side_found W tw lw ADDED rel ws true c HW NW Etw Hdw) as (c' & found & -> & Hw & Hr).
    exists c', found. split_and!; [done..|]. intros r. rewrite Hr, <- Hstrict. unfold expected.
    split; [intros ((p & Hp) & Hne & st' & Hst & Hx)|intros [[[p Hp] Hne] Hx]].
    all: assert (p ≠ []) as Hpn by (intros ->; by apply (Hne)).
    all: pose proof (Hns p (λ Hds, Hboth (conj Hdw Hds)) Hpn) as Hnone.
    + split; [split; [eauto|by apply Hne]|]. rewrite Hst, Hp, Hnone. split; [by apply under_marker|done].
    + split; [eauto|]. split; [done|]. rewrite Hp, Hnone in Hx. rewrite Hp. destruct (tw !! under rel p) as [st'|]; [|done].
      exists st'. by destruct Hx.
  - destruct (expand_side_found S ts ls DELETED rel ss true c HS NS Ets Hds) as (c' & found & -> & Hw & Hr).
    exists c', found. split_and!; [done..|]. intros r. rewrite Hr, <- Hstrict. unfold expected.
    split; [intros ((p & Hp) & Hne & st' & Hst & Hx)|intros [[[p Hp] Hne] Hx]].
    all: assert (p ≠ []) as Hpn by (intros ->; by apply (Hne)).
    all: pose proof (Hnw p Hdw Hpn) as Hnone.
    + split; [split; [eauto|by apply Hne]|]. by rewrite Hst, Hp, Hnone.
    + split; [eauto|]. split; [done|]. rewrite Hp, Hnone in Hx. rewrite Hp. destruct (ts !! under rel p) as [st'|]; [|done].
      by exists st'.
  - exists c, []. split_and!; [done|apply went_nil|]. intros r. split; [set_solver|]. intros [(p & Hp & E) Hx].
    destruct (expected_somewhere r Hx) as [Hin|Hin]; rewrite E in Hin; [by rewrite Hnw in Hin|by rewrite Hns in Hin].
Qed.

Lemma verify_candidate_found rel c : rel ≠ [] → rel ≠ WFS_MARKER_NAME → scanning c → ∃ c' found,
  verify_candidate o seam rel c = (c', 0) ∧ went c c' found ∧ candidate_adds rel found.
Proof.
  intros Hne Hm Hc. unfold verify_candidate, bytes_eqb. rewrite !bool_decide_false by done. cbn [orb]. cbv zeta.
  rewrite (proj1 Hc), (proj1 (proj2 Hc)).
  pose proof (side_lookup_answers c _ _ true (still_lookup _ _ _ _ HW rel Hne)) as Hlw.
  pose proof (side_lookup_answers c _ _ true (still_lookup _ _ _ _ HS rel Hne)) as Hls.
  destruct (tw !! rel) as [ws|] eqn:Etw; [destruct Hlw as (wxa & -> & Hhw)|rewrite Hlw];
    (destruct (ts !! rel) as [ss|] eqn:Ets; [destruct Hls as (sxa & -> & Hhs)|rewrite Hls]).
  - destruct (_ && _) eqn:Edirs.
    + apply andb_prop in Edirs as [E1%bool_decide_eq_true E2%bool_decide_eq_true].
      exists c, []. split_and!; [done|apply went_nil|]. split; [set_solver|]. intros r Hx [Hr|[_ Hn]].
      * by destruct (both_dirs rel ws ss r Etw Ets E1 E2 Hr).
      * destruct Hn. eauto 10.
    + destruct (expanded rel ws ss c Etw Ets Hm) as (c1 & below_ & -> & Hw1 & Hr1).
      { intros [E1 E2]. by rewrite !bool_decide_true in Edirs. }
      cbn [negb Z.eqb]. pose proof (scanning_went _ _ _ Hc Hw1) as Hc1.
      destruct (classified rel ws wxa ss sxa c1) as (c2 & ch & found & -> & Hw2 & Hr2); [done..|].
      exists (add_change ch (st_type ws) (st_size ws) rel c2), (below_ ++ option_list found).
      split_and!; [done|by eapply went_trans|].
      assert (∀ r, r ∈ option_list found ↔ found = Some r) as Hopt by (intros r; destruct found; set_solver).
      split; intros r; rewrite elem_of_app, Hopt, Hr1, Hr2; [tauto|]. intros Hx Hcov.
      destruct (covers_under _ _ Hcov (expected_somewhere r Hx)) as [p Hp].
      destruct (decide (p = [])) as [->|Hpn]; [right; by rewrite under_nil in Hp|left; eauto].
  - destruct (report_one_side_found W tw lw ADDED rel ws c HW NW Etw) as (c' & found & -> & Hw & Hr).
    exists c', found. split_and!; [done..|]. by eapply added_adds.
  - destruct (report_one_side_found S ts ls DELETED rel ss c HS NS Ets) as (c' & found & -> & Hw & Hr).
    exists c', found. split_and!; [done..|]. by eapply deleted_adds.
  - exists c, []. split_and!; [done|apply went_nil|]. split; [set_solver|]. intros r Hx Hcov. exfalso.
    destruct (covers_under _ _ Hcov (expected_somewhere r Hx)) as [p Hp].
    assert (∀ root t, nested o root t → t !! rel = None → t !! under rel p = None) as Hnone.
    { intros root t Hn Ht. destruct (decide (p = [])) as [->|Hpn]; [done|]. apply (nothing_below root); [done|congruence|done]. }
    destruct (expected_somewhere r Hx) as [Hin|Hin]; rewrite Hp in Hin; apply Hin; by eapply Hnone.
Qed.

Lemma verify_candidates_found bag c : scanning c → ∃ c' found,
  verify_candidates o seam bag c = (c', 0) ∧ went c c' found ∧ (∀ r, r ∈ found → expected r) ∧
  (∀ r rel, expected r → rel ∈ bag → rel ≠ [] → rel ≠ WFS_MARKER_NAME → covers rel (r_path r) → r ∈ found).
Proof.
  revert c. induction bag as [|rel bag IH]; intros c Hc; cbn [verify_candidates].
  { exists c, []. split_and!; [done|apply went_nil|set_solver..]. }
  assert (∃ c' found, verify_candidate o seam rel c = (c', 0) ∧ went c c' found ∧ (∀ r, r ∈ found → expected r) ∧
    (∀ r, expected r → rel ≠ [] → rel ≠ WFS_MARKER_NAME → covers rel (r_path r) → r ∈ found)) as (c1 & f1 & -> & Hw1 & Hs1 & Hf1).
  { destruct (decide (rel = [] ∨ rel = WFS_MARKER_NAME)) as [Hskip|Hno].
    - exists c, []. split_and!; [|apply went_nil|set_solver|naive_solver].
      unfold verify_candidate, bytes_eqb. destruct Hskip as [-> | ->]; by rewrite ?orb_true_r.
    - destruct (verify_candidate_found rel c) as (c' & found & -> & Hw & Hs & Hf); [naive_solver..|].
      exists c', found. split_and!; auto. }
  cbn [negb Z.eqb]. destruct (IH c1) as (c2 & f2 & -> & Hw2 & Hs2 & Hf2); [by eapply scanning_went|].
  exists c2, (f1 ++ f2). split_and!; [done|by eapply went_trans| |].
  - intros r [Hr|Hr]%elem_of_app; auto.
  - intros r rel' Hx [->|Hin]%elem_of_cons Hn Hm Hcov; apply elem_of_app; eauto.
Qed.

(** A comparison that finds the expected records gives the sorted report of them. *)
Lemma world_diff_report scan ev bag :
  (∃ c f, compare o seam scan ev bag (mkCtx W S flags [] 0 0 0 0 0) = (c, 0, f) ∧ fatal c = 0 ∧ ∀ r, r ∈ sink c ↔ expected r) →
  ∃ out, world_diff o seam W S flags scan ev bag (λ _, 0) = (out, tally out (mkCounts 0 0 0 0), 0) ∧
    StronglySorted rec_lt out ∧ ∀ r, r ∈ out ↔ expected r.
Proof.
  intros (c & f & E & Hfatal & Hsink). unfold world_diff. rewrite E, Hfatal. cbn [negb Z.eqb].
  destruct (report_sorted (sink c)) as (out & -> & Hsorted & Hout).
  { intros r r' Hr%Hsink Hr'%Hsink. by apply expected_unique. }
  exists out. split_and!; [done..|]. intros r. by rewrite Hout, Hsink.
Qed.
End Scan.

(** How many records of a kind a list has. *)
Definition number (ch : change) (l : list rec) : Z := len (filter (λ r, r_change r = ch) l).

Lemma number_cons ch r l : number ch (r :: l) = (if decide (r_change r = ch) then 1 else 0) + number ch l.
Proof. unfold number, len. rewrite filter_cons. destruct (decide _); cbn [length]; lia. Qed.

Lemma tally_number l a m d t : tally l (mkCounts a m d t) =
  mkCounts (a + number ADDED l) (m + number MODIFIED l) (d + number DELETED l) (t + number META l).
Proof.
  revert a m d t. induction l as [|r l IH]; intros a m d t; [unfold number; cbn; by rewrite !Z.add_0_r|].
  change (tally (r :: l) (mkCounts a m d t)) with (tally l (count (r_change r) (mkCounts a m d t))).
  rewrite !number_cons. destruct (r_change r); cbn [count added modified deleted meta]; rewrite IH;
    repeat case_decide; try congruence; f_equal; lia.
Qed.



(** ** An example: a file rewritten, a directory with a file added, a file deleted *)

Module Example.

Definition file (mtime : Z) : stat := mkStat T_FILE 420 0 0 0 3 (mtime, 0).
Definition dir : stat := mkStat T_DIR 493 0 0 0 0 (5, 0).
Definition world : Bytes := bs "w".
Definition snapshot : Bytes := bs "s".
Definition world_tree : gmap Bytes stat :=
  list_to_map [(bs ".world", file 1); (bs "a", file 2); (bs "d", dir); (bs "d/x", file 3); (bs "k", file 1)].
Definition snapshot_tree : gmap Bytes stat := list_to_map [(bs "a", file 1); (bs "k", file 1); (bs "z", file 1)].

(** A path: the tree it is in and where. *)
Definition find (p : Bytes) : option stat :=
  match p with
  | r :: s :: rel =>
      if bool_decide (s = z2b 47) then
        if bool_decide ([r] = world) then world_tree !! rel
        else if bool_decide ([r] = snapshot) then snapshot_tree !! rel else None
      else None
  | _ => None
  end.

(** An entry of the walk of [path]. *)
Definition entry_of (path : Bytes) (e : Bytes * stat) : entry :=
  mkEntry e.1 (join_rel path e.1) e.2 (bool_decide (st_type e.2 = T_DIR)) FS_XATTR_NONE.

Definition system : os := mkOs true
  (λ p, match find p with Some st => inl st | None => inr ENOENT end)
  (λ p, match find p with Some st => inl (st, FS_XATTR_NONE) | None => inr ENOENT end)
  (λ p, if bool_decide (p = bs "w/a") then Some (bs "new") else if bool_decide (p = bs "s/a") then Some (bs "old") else None)
  (λ _, None) (λ _, inl []) (λ _ _, inr ENOATTR)
  (λ p, if bool_decide (p = bs "w/d") then inl ([bs "."; bs ".."; bs "x"], 0) else inr ENOTDIR)
  (λ p, if bool_decide (p = world) then (entry_of world <$> map_to_list world_tree, 0)
        else if bool_decide (p = snapshot) then (entry_of snapshot <$> map_to_list snapshot_tree, 0)
        else if bool_decide (p = bs "w/d") then (entry_of (bs "w/d") <$> [([], dir); (bs "x", file 3)], 0)
        else ([], - ENOTDIR)).

Definition changed : list rec :=
  [mkRec (bs "a") MODIFIED T_FILE 3; mkRec (bs "d/x") ADDED T_FILE 3; mkRec (bs "z") DELETED T_FILE 3].

(** The hypotheses on a side, from what its tree says of directories. *)
Lemma system_still root t :
  walk system root = (entry_of root <$> map_to_list t, 0) → t !! [] = None →
  (∀ rel, rel ≠ [] → find (join_rel root rel) = t !! rel) →
  (∀ rel st, t !! rel = Some st → st_type st = T_DIR → join_rel root rel = bs "w/d" ∧ below t rel) →
  still system root t (entry_of root <$> map_to_list t).
Proof.
  intros Hwalk Hroot Hfind Hdirs. split; [done| |done|..].
  - rewrite <- list_fmap_compose. apply NoDup_fst_map_to_list.
  - intros rel [st Hst]. apply list_elem_of_fmap. exists (entry_of root (rel, st)). split; [done|].
    apply list_elem_of_fmap. exists (rel, st). split; [done|]. by apply elem_of_map_to_list.
  - intros e ([rel st] & -> & Hst%elem_of_map_to_list)%list_elem_of_fmap Hne. cbn [en_rel en_path en_stat en_dir entry_of fst snd] in *.
    split_and!; done.
  - intros rel Hne. unfold answers. cbn [system lstat lstat_xattr]. rewrite Hfind by done. destruct (t !! rel).
    + split_and!; [done|exists []; split_and!; [done|constructor|set_solver|]|eexists; split; [done|done]].
      intros n. rewrite decide_False by set_solver. done.
    + exists ENOENT. auto.
  - intros rel st Hst Hd. destruct (Hdirs rel st Hst Hd) as [-> Hb]. eexists. split; [reflexivity|]. split; [done|].
    intros Hn. by destruct Hn.
Qed.

(** A property of the paths of a tree, evaluated. *)
Lemma every_path (P : Bytes → stat → Prop) `{∀ rel st, Decision (P rel st)} t :
  forallb (λ e, bool_decide (P e.1 e.2)) (map_to_list t) = true → ∀ rel st, t !! rel = Some st → P rel st.
Proof.
  intros Hall rel st Hst. rewrite forallb_forall in Hall. specialize (Hall (rel, st)).
  apply (bool_decide_eq_true_1 _), Hall, list_elem_of_In. by apply elem_of_map_to_list.
Qed.

Lemma world_dirs rel st : world_tree !! rel = Some st → st_type st = T_DIR → rel = bs "d".
Proof. apply (every_path (λ rel st, st_type st = T_DIR → rel = bs "d")). vm_compute. reflexivity. Qed.

Lemma snapshot_dirs rel st : snapshot_tree !! rel = Some st → st_type st ≠ T_DIR.
Proof. apply (every_path (λ rel st, st_type st ≠ T_DIR)). vm_compute. reflexivity. Qed.

Lemma world_still : still system world world_tree (entry_of world <$> map_to_list world_tree).
Proof.
  apply system_still; [vm_compute; reflexivity..| |].
  - intros rel Hne. unfold join_rel. by rewrite bool_decide_false.
  - intros rel st Hst ->%(world_dirs _ _ Hst). split; [vm_compute; reflexivity|].
    exists (bs "x"), (file 3). vm_compute. reflexivity.
Qed.

Lemma snapshot_still : still system snapshot snapshot_tree (entry_of snapshot <$> map_to_list snapshot_tree).
Proof.
  apply system_still; [vm_compute; reflexivity..| |].
  - intros rel Hne. unfold join_rel. by rewrite bool_decide_false.
  - intros rel st Hst Hd. by destruct (snapshot_dirs _ _ Hst).
Qed.

(** The only path with a slash. *)
Lemma world_slash rel p : is_Some (world_tree !! (rel ++ z2b 47 :: p)) → rel = bs "d" ∧ p = bs "x".
Proof.
  intros [st Hst]. assert (rel ++ z2b 47 :: p = bs "d/x") as E.
  { assert (z2b 47 ∈ rel ++ z2b 47 :: p → rel ++ z2b 47 :: p = bs "d/x") as Hin; [|apply Hin; set_solver].
    refine (every_path (λ rel _, z2b 47 ∈ rel → rel = bs "d/x") world_tree _ _ st Hst). vm_compute. reflexivity. }
  destruct rel as [|b [|b' [|b'' rel]]]; [done|by injection E as -> ->|done|].
  destruct rel; discriminate E.
Qed.

Lemma snapshot_slash rel p : ¬ is_Some (snapshot_tree !! (rel ++ z2b 47 :: p)).
Proof.
  intros [st Hst]. assert (z2b 47 ∉ rel ++ z2b 47 :: p) as Hin; [|apply Hin; set_solver].
  refine (every_path (λ rel _, z2b 47 ∉ rel) snapshot_tree _ _ st Hst). vm_compute. reflexivity.
Qed.

Lemma world_d : world_tree !! bs "d" = Some dir.
Proof. vm_compute. reflexivity. Qed.

Lemma world_nested : nested system world world_tree.
Proof.
  split.
  - intros rel p [-> ->]%world_slash. split; [done|]. exists dir. split; [exact world_d|done].
  - intros rel st Hst ->%(world_dirs _ _ Hst). exists (entry_of (bs "w/d") <$> [([], dir); (bs "x", file 3)]).
    split_and!; [vm_compute; reflexivity| |].
    + intros p. unfold under. case_bool_decide as Hp; [rewrite Hp; set_solver|]. intros [_ ->]%world_slash. set_solver.
    + intros e. rewrite !fmap_cons, fmap_nil, !elem_of_cons, elem_of_nil.
      intros [->|[->|[]]]; split_and!; vm_compute; reflexivity.
Qed.

Lemma snapshot_nested : nested system snapshot snapshot_tree.
Proof. split; [by intros rel p Hp%snapshot_slash|]. intros rel st Hst Hd. by destruct (snapshot_dirs _ _ Hst). Qed.

(** Candidates for every path but the marker, an unchanged one among them. *)
Definition candidates : list Bytes := [bs "z"; bs "d"; bs "a"; bs "k"].

Lemma candidates_cover r : expected system None 0 world snapshot world_tree snapshot_tree r →
  ∃ rel, rel ∈ candidates ∧ rel ≠ [] ∧ rel ≠ WFS_MARKER_NAME ∧ covers world_tree snapshot_tree rel (r_path r).
Proof.
  intros Hr. assert (∀ t : gmap Bytes stat, forallb (λ e, bool_decide (e.1 = WFS_MARKER_NAME ∨ e.1 = bs "d/x" ∨ e.1 ∈ candidates)) (map_to_list t) = true →
    t !! r_path r ≠ None → r_path r = WFS_MARKER_NAME ∨ r_path r = bs "d/x" ∨ r_path r ∈ candidates) as Hpath.
  { intros t Ht [st Hst]%not_eq_None_Some.
    by apply (every_path (λ rel _, rel = WFS_MARKER_NAME ∨ rel = bs "d/x" ∨ rel ∈ candidates) t Ht _ st). }
  assert (r_path r = WFS_MARKER_NAME ∨ r_path r = bs "d/x" ∨ r_path r ∈ candidates) as [Hm|[Hx|Hin]].
  { destruct (expected_somewhere _ _ _ _ _ _ _ r Hr) as [Hin|Hin]; revert Hin; apply Hpath; vm_compute; reflexivity. }
  - exfalso. unfold expected in Hr. rewrite Hm in Hr.
    replace (world_tree !! WFS_MARKER_NAME) with (Some (file 1)) in Hr by (vm_compute; reflexivity).
    replace (snapshot_tree !! WFS_MARKER_NAME) with (@None stat) in Hr by (vm_compute; reflexivity). by destruct Hr.
  - exists (bs "d"). split_and!; [set_solver|done|done|]. right. split; [exists (bs "x"); exact Hx|].
    intros (ws & ss & _ & Hs & _). revert Hs. vm_compute. discriminate.
  - exists (r_path r). split_and!; [done|..|by left]; intros E; rewrite E in Hin; revert Hin;
      apply (bool_decide_eq_false_1 (_ ∈ _)); vm_compute; reflexivity.
Qed.

End Example.
Import Example.


