(* ===== verification/MetadataTreeSpec.v ===== *)
(** * Correctness of the metadata tree

    The public contract of [MetadataTree]: an editor positioned at a represented
    treap behaves as a finite ordered map from keys to ids, publishes exactly what
    is missing, refuses what the code refuses, and names equal maps by equal root
    ids.  The hypotheses on the digest are local: SHA-256 separates the finitely
    many search trees over the entries in play. *)

From S2P Require Import Prelude Codec Treap MetadataTree MetadataTreeProofs MetadataTreeRead MetadataTreeEdit.
From S2P Require Import MetadataTreeApply Instances.
Import MetadataTree.
Local Open Scope Z_scope.

(** C38: a payload decodes to a node exactly when it is the encoding of a node with a
    valid key, a non-zero value reference and three 32-byte ids. *)
Theorem node_codec_canonical b n :
  decode_node b = Ok n ↔ node_ok n ∧ b = encode_node n.
Proof.
  split.
  - intros [Hn <-]%decode_node_sound. done.
  - intros [Hn ->]. by apply decode_encode_node.
Qed.

Section Spec.
Context `{DigestOk} {J : Type} `{ObjectStoreOk J} (j : J).
Context (U : list (Bytes * Id)) (HU : collision_free U) (HUok : entries_ok U).

(** C24: [set] on the id of a represented search tree returns the id of a tree that
    stands for the updated (or deleted-from) map and keeps the heap order; the new
    tree and the old one are both represented afterwards (copy on write). *)
Theorem set_refines_map e t k v :
  session j U e → tree_in U t → stored j e t → value_in U k v →
  ∃ e' t', set j (mid t) k v e = (e', Ok (mid t')) ∧
    to_map t' = match v with Some w => <[k := w]> (to_map t) | None => delete k (to_map t) end ∧
    (treap higher_key t → treap higher_key t') ∧
    stored j e' t' ∧ stored j e' t.
Proof.
  intros Hse Ht Hs Hv.
  destruct (set_run j U HU HUok e t k v Hse Ht Hv Hs) as (e' & Hrun & Hx & Hst).
  exists e', (Treap.tset higher_key t k v). split_and!; [done| | |done|].
  - apply (to_map_tset higher_key), Ht.
  - by apply (treap_tset higher_key).
  - destruct Hx as (_ & _ & _ & _ & _ & Hx). by apply Hx.
Qed.

(** [lookup] at the root returns the value the map holds for the key. *)
Theorem lookup_correct e t k :
  editing j U e t → ∃ e', lookup j k e = (e', Ok (to_map t !! k)) ∧ editing j U e' t.
Proof. exact (lookup_editing j U HU e t k). Qed.

(** [keys] returns exactly the keys of the map that start with the prefix, in
    increasing order: the subtree pruning by lower and upper bound loses nothing. *)
Theorem keys_correct e t prefix :
  editing j U e t →
  ∃ e', keys j prefix e = (e', Ok (List.filter (starts_with prefix) (in_order (to_map t)).*1)) ∧
    editing j U e' t.
Proof. exact (keys_editing j U HU e t prefix). Qed.

(** C36: [page] refuses a limit outside 1..1025 and a cursor without the prefix, and
    otherwise returns the first [limit] keys with the prefix after the cursor. *)
Theorem page_correct e t prefix after limit :
  editing j U e t →
  ∃ e', page j prefix after limit e = (e',
      if (0 <? limit) && (limit <=? 1025)
         && (bool_decide (after = []) || starts_with prefix after)
      then Ok (take (Z.to_nat limit)
                 (List.filter (page_filter prefix after) (in_order (to_map t)).*1))
      else Err "invalid metadata page request") ∧
    editing j U e' t.
Proof. exact (page_editing j U HU e t prefix after limit). Qed.

(** C25: [entries] accepts a root only when the ids reachable from it unfold to a
    search tree with the heap property and a depth of at most 256, and then returns
    that tree's map, whatever the store contains. *)
Theorem entries_sound e e' m :
  entries j e = (e', Ok m) →
  ∃ t, loads j e (root_ e) t ∧ treap higher_key t ∧ (depth t ≤ 256)%nat ∧ m = to_map t.
Proof.
  unfold entries. generalize 256%nat as fuel. intros fuel Hrun.
  rewrite (st_bind_run _ _ e e (root_ e) eq_refl) in Hrun.
  apply st_bind_Ok in Hrun as ([res vis] & e1' & Hw & [= <- <-]).
  apply entries_walk_sound in Hw as (_ & t & Hl & Ht & Hd & _ & ->); [|apply higher_key_order|].
  - exists t. split_and!; [done..|]. by rewrite (right_id_L ∅ (∪)).
  - intros x [w Hx]. by rewrite lookup_empty in Hx.
Qed.

(** At a represented treap [entries] succeeds and returns the whole map. *)
Theorem entries_complete e t :
  editing j U e t → ∃ e', entries j e = (e', Ok (to_map t)) ∧ editing j U e' t.
Proof. exact (entries_editing j U HU HUok e t). Qed.



Lemma apply_manifest e t changes e' p :
  editing j U e t → acceptable U t changes → closed_store j U → apply j changes e = (e', Ok p) →
  manifest p = encode_manifest (mid (updated t changes)) ∧
  tree_in U (updated t changes) ∧ treap higher_key (updated t changes).
Proof.
  intros He Ha Hcl Hp.
  destruct (decide (depth (updated t changes) ≤ 256)%nat) as [Hd|Hd].
  - destruct (apply_run j U HU HUok e t changes He Ha Hcl Hd) as (e1 & out & Hrun & He1 & _).
    rewrite Hrun in Hp. injection Hp as <- <-. pose proof (editing_in _ _ _ _ He1) as Hin.
    split_and!; [done..|]. split; [apply Hin|apply He1].
  - destruct (apply_too_deep j U HU HUok e t changes He Ha) as (e1 & Hrun & _); [lia|].
    rewrite Hrun in Hp. discriminate.
Qed.
End Spec.

Lemma length_mid `{DigestOk} t : length (mid t) = 32%nat.
Proof. destruct t; [done|apply length_object_hash]. Qed.

Lemma encode_manifest_eq root : length root = 32%nat → encode_manifest root = tree_magic ++ root.
Proof.
  intros Hl. unfold encode_manifest. change 40%nat with (8 + 32)%nat. rewrite zeros_add.
  rewrite memcpy_here by done. rewrite (memcpy_skip _ 8) by (done || lia).
  by rewrite memcpy_here_end by (rewrite length_zeros; lia).
Qed.

(** C6: the root id is a function of the contents alone.  Two editors, over any two
    stores and with any histories, that successfully apply batches publish the same
    manifest exactly when the resulting maps are equal. *)
Theorem manifest_canonical `{DigestOk} {J1 J2 : Type} `{ObjectStoreOk J1} `{ObjectStoreOk J2}
    (j1 : J1) (j2 : J2) U e1 e2 t1 t2 changes1 changes2 e1' e2' p1 p2 :
  collision_free U → entries_ok U →
  editing j1 U e1 t1 → acceptable U t1 changes1 → closed_store j1 U →
  editing j2 U e2 t2 → acceptable U t2 changes2 → closed_store j2 U →
  apply j1 changes1 e1 = (e1', Ok p1) → apply j2 changes2 e2 = (e2', Ok p2) →
  manifest p1 = manifest p2 ↔ to_map (updated t1 changes1) = to_map (updated t2 changes2).
Proof.
  intros HU HUok He1 Ha1 Hc1 He2 Ha2 Hc2 Hr1 Hr2.
  destruct (apply_manifest j1 U HU HUok e1 t1 changes1 e1' p1) as (-> & Hin1 & Ht1); [done..|].
  destruct (apply_manifest j2 U HU HUok e2 t2 changes2 e2' p2) as (-> & Hin2 & Ht2); [done..|].
  rewrite !encode_manifest_eq by apply length_mid. split.
  - intros Hm%(inj (app tree_magic)). by apply HU in Hm as ->.
  - intros Hm. by rewrite (treap_canonical higher_key _ _ Ht1 Ht2 Hm).
Qed.

(** ** The contract on a concrete tree *)

Lemma set_refines_map_witness :
  ∃ e' t', set store1 (mid tree1) key_a (Some (id_of 3)) editor1 = (e', Ok (mid t')) ∧
    to_map t' = <[key_a := id_of 3]> (to_map tree1).
Proof.
  destruct (set_refines_map store1 small small_free small_ok editor1 tree1 key_a
    (Some (id_of 3))) as (e' & t' & Hrun & Hm & _).
  - exact (editing_session _ _ _ _ editing1).
  - exact tree1_in.
  - exact (editing_stored _ _ _ _ editing1).
  - intros w [= <-]. unfold small. set_solver.
  - exists e', t'. split; [exact Hrun|exact Hm].
Defined.

Lemma lookup_correct_witness :
  ∃ e', lookup store1 key_a editor1 = (e', Ok (Some (id_of 2))).
Proof.
  destruct (lookup_correct store1 small small_free editor1 tree1 key_a editing1)
    as (e' & Hrun & _).
  exists e'. replace (Some (id_of 2)) with (to_map tree1 !! key_a); [exact Hrun|].
  vm_compute. reflexivity.
Defined.

Lemma keys_correct_witness :
  ∃ e', keys store1 key_prefix editor1 = (e', Ok [key_a; namespace_root]).
Proof.
  destruct (keys_correct store1 small small_free editor1 tree1 key_prefix editing1)
    as (e' & Hrun & _).
  exists e'. replace [key_a; namespace_root]
    with (List.filter (starts_with key_prefix) (in_order (to_map tree1)).*1); [exact Hrun|].
  vm_compute. reflexivity.
Defined.

Lemma page_correct_witness :
  ∃ e', page store1 key_prefix key_a 1 editor1 = (e', Ok [namespace_root]).
Proof.
  destruct (page_correct store1 small small_free editor1 tree1 key_prefix key_a 1 editing1)
    as (e' & Hrun & _).
  exists e'. rewrite Hrun. apply f_equal. vm_compute. reflexivity.
Defined.

Lemma entries_complete_witness :
  ∃ e', entries store1 editor1 = (e', Ok (to_map tree1)).
Proof.
  destruct (entries_complete store1 small small_free small_ok editor1 tree1 editing1)
    as (e' & Hrun & _).
  exists e'. exact Hrun.
Defined.

Lemma entries1_run : ∃ e' m, entries store1 editor1 = (e', Ok m).
Proof.
  destruct (entries store1 editor1) as [e' r] eqn:E.
  assert (is_ok (snd (entries store1 editor1)) = true) as Hok by (vm_compute; reflexivity).
  rewrite E in Hok. destruct r as [m| |]; [|discriminate..]. exists e', m. reflexivity.
Qed.

Lemma entries_sound_witness :
  ∃ e' m t, entries store1 editor1 = (e', Ok m) ∧ treap higher_key t ∧ m = to_map t.
Proof.
  destruct entries1_run as (e' & m & Hrun).
  destruct (entries_sound store1 editor1 e' m Hrun) as (t & _ & Ht & _ & Hm).
  exists e', m, t. split; [exact Hrun|]. split; [exact Ht|exact Hm].
Defined.



Lemma apply1_run : ∃ e' p, apply store1 change_a editor1 = (e', Ok p).
Proof.
  destruct (apply store1 change_a editor1) as [e' r] eqn:E.
  assert (is_ok (snd (apply store1 change_a editor1)) = true) as Hok
    by (vm_compute; reflexivity).
  rewrite E in Hok. destruct r as [p| |]; [|discriminate..]. exists e', p. reflexivity.
Qed.

Lemma manifest_canonical_witness :
  ∃ e' p, apply store1 change_a editor1 = (e', Ok p) ∧
    (manifest p = manifest p ↔
     to_map (updated tree1 change_a) = to_map (updated tree1 change_a)).
Proof.
  destruct apply1_run as (e' & p & Hrun). exists e', p. split; [exact Hrun|].
  exact (manifest_canonical store1 store1 small editor1 editor1 tree1 tree1 change_a change_a
    e' e' p p small_free small_ok editing1 change_a_acceptable closed1
    editing1 change_a_acceptable closed1 Hrun Hrun).
Defined.
